(* ===== verification/_CoqProject ===== *)
-Q . S2P
Prelude.v
GoLang.v
Paths.v
ClassAd.v
Claim.v
Slot.v
SlotFacts.v
Persist.v
Persister.v
StarterMsg.v
Reconnect.v
Args.v
AdWire.v
Framing.v
StarterEnv.v
Base64.v
Handoff.v
Relay.v
Exec.v
ExecFacts.v
Transfer.v
TransferFacts.v
Starter.v
CommandServer.v
CommandFacts.v
StarterProto.v
StarterFacts.v
Registry.v
Core.v
CoreFrame.v
CoreDemo.v
Supervisor.v
StarterMain.v
CoreReg.v
CorePersist.v
Shutdown.v
CoreInit.v
Lifecycle.v
ClaimIds.v
CoreReply.v
CoreProps.v
Adoption.v
Restart.v
Durable.v
Refit.v
Recovery.v
Handlers.v
Query.v
Grant.v
Launch.v
Locate.v
StartdMain.v
Program.v
AliveLoop.v
