(* ===== verification/Prelude.v ===== *)
(** * golang-ep: verification of the execution point

    golang-ep is an HTCondor execution point in Go: a startd that splits a machine into
    slots, advertises them to a collector, hands them out under claims and runs jobs in
    starters.  The startd keeps all its state in one event loop ([internal/startd], type
    [Core]): command handlers, timers, the keepalive loops, the supervisors of starters
    and a restart submit events; the loop handles them one at a time, answers handlers
    through reply channels, and persists claims through a write-behind goroutine.  A
    starter ([internal/starter]) runs one job: it takes over the shadow's connection, talks
    the remote system call protocol, transfers files, executes and reports.  It lives in
    the startd or in a process of its own that survives the startd; a transport joins
    the two.  This library models all of these and what they call, and proves what makes
    them correct, one by one and composed.

    ** Files

    - [Prelude], [GoLang]: shared tactics, hint databases and list lemmas; the parts of Go
      the sources use (int64 with wrap-around, [time], [strings], [strconv], path/filepath).
    - [ClassAd]: the ClassAd library as a class of operations with laws ([ClassAdLib],
      [ClassAdLaws]), sequences of ad statements, and a reference implementation.
    - [Claim] (internal/claim/claim.go), Module [Claim]: claim records, the minter, the
      lease arithmetic.  Minting and importing sessions is the class [SecurityLib].
    - [Slot], [SlotFacts] (internal/slot): resource detection, splitting into static slots,
      p-slots, carving and restoring, public and private ads.  Host probes and
      configuration lookups are the records [Host] and [Config].
    - [Persist] (internal/persist/store.go): the record/ad codec and the keyed store over
      the collection class [CollectionLib]; [RecordStore] is the interface the core uses.
    - [Persister] (the persister of internal/startd/startd.go): puts, flush rounds and
      commits as a step relation.
    - [StarterMsg], [Framing] (internal/starter/transport.go): the codecs of the control
      messages; writing, reading and draining them on the stream.
    - [Reconnect] (internal/reconnect/reconnect.go): the constants and replies of CA_CMD.
    - [Args] (internal/starter/args.go), [AdWire] (internal/adwire/adwire.go): tokenizing
      job arguments; reading a ClassAd off the wire with private attributes.
    - [Paths]: what [filepath.Clean] and [Join] do to the components of a path.
    - [StarterEnv]: the effects of the starter (system calls to the shadow, messages to the
      startd, files, the process), an oracle that answers them, the monad of programs over
      the history of answered effects, and Hoare triples over automata that read it.
    - [Exec], [ExecFacts] (internal/starter/exec.go): the command, its environment and
      standard files, signals, wait status, ads.
    - [Transfer], [TransferFacts] (internal/starter/transfer.go): the sandbox sink, the
      snapshot, the plan of the output.
    - [Starter] (internal/starter/starter.go): [Run], whole, as a program over the effects.
      [StarterProto] is the abstract protocol machine it refines, [StarterFacts] what that
      means for reports, connections and order.
    - [CommandServer], [CommandFacts] (internal/starter/command_server.go): CA_RECONNECT_JOB
      and the handoff between its handlers and the run loop, as a step relation.
    - [Handoff] (internal/starter/transport_inproc.go and the startd side of
      transport_unix.go): the interface [Transport] of a handed-over connection with its
      laws, and the two implementations as state machines that satisfy them.  A step is what
      a goroutine does between two points where another can run.
    - [Relay] (the starter side of transport_unix.go): listening, the manager that waits for
      a redial, the reader, the outbound pump; [Base64]: Go's encoding/base64.
    - [Registry]: an abstract machine for the slot registry: carve and destroy.
    - [Core] (internal/startd/{startd,claim,activate,adopt}.go, internal/advertise): the
      event loop.  [Core.Core] is the struct; slots live in a heap, because the lists, the
      name index and the handlers share pointers to them.  A [do...] function of the
      source is a function of the same name on [Core]; sends on reply channels, ads sent,
      goroutines started, contexts cancelled are entries of [trace]; what a handler reads
      from outside (clock, map iteration order, mkdir, spawn, exit marker) is the record
      [Env].  [handle] is the dispatch.
    - [CoreFrame], [CoreReg], [CoreInit]: what each operation leaves alone; the core refines
      the registry machine; construction.  [CoreReg.cstep] is a step of the system: an
      event, a tick, a step of the persister, a supervisor taking a vacate message;
      [CoreReg.reachable] is reachability by the events a predicate admits.
    - [CorePersist], [Shutdown] (Start, Stop, the loop and the writer goroutine of
      internal/startd/startd.go): what the loop does to the persister; the goroutines and
      their channels as a step relation.
    - [Lifecycle]: the state of a slot name (Unclaimed, Matched, Claimed/Idle,
      Claimed/Busy) with its claim, timer, keepalive loop and activation.
    - [ClaimIds]: which claim id names which slot, as an abstract machine of minting.
    - [CoreReply], [CoreProps], [Adoption]: the answers sent; commands one by one;
      re-adoption of one record.  [Restart]: re-adoption of the whole store, and the runs
      that may begin with it.  [Durable]: what the records on disk say of the slots, with a
      proof rule per statement of the loop; [Refit]: a registry that carves the slots of
      another again has room for them; [Recovery]: a stop and the start after it.
      [CoreDemo]: a small machine the witnesses run.
    - [Supervisor] (superviseStarter and reapStarter of internal/startd/activate.go): from
      the control channel of a starter to the events of the loop.
    - [StarterMain] (cmd/starter/main.go): options, the exit marker on a file system whose
      writes can be cut short, and a startd that reads it after a restart.
    - [Handlers] (the command handlers of internal/startd/{claim,activate}.go): reading the
      message, submitting the event, writing the reply, as programs of an action monad in
      which any write may fail; [AliveLoop] (aliveLoop of internal/startd/claim.go): the
      keepalive goroutine as a function of what its ticks find.
    - [Query] (the queries of internal/startd/startd.go): QUERY_STARTD_ADS, GIVE_STATE, the
      command table.  [Locate] (the CA_LOCATE_STARTER handler of internal/reconnect): from
      the request on the wire through the loop to the reply.
    - [Grant], [Launch]: the handlers of REQUEST_CLAIM and ACTIVATE_CLAIM composed with the
      loop, what the peer reads against the state the loop is left in.
    - [StartdMain] (cmd/startd): the configuration, the core as the program builds it, the
      collectors, and the security policy of each command.  [Program] (run of
      cmd/startd/main.go): the order of its calls, what it undoes, and the core while the
      program's goroutines run.

    ** Theorems

    - Resources: from any configuration, the live slots always add up to the machine
      ([StartdMain]); a p-slot holds its allocation minus its dynamic slots; the registry is
      well formed and only carves and destroys ([CoreInit]); static partitions ([SlotFacts]).
    - Life cycle: the pieces of a slot's state agree in every state of every run, re-adopted
      claims included, and events follow the state diagram ([Restart], over [Lifecycle]).
    - Claim ids: unique, never recycled, revoked by a release, in runs that begin with a
      re-adoption too ([Restart], over [ClaimIds]); an id that names nothing changes nothing
      ([CoreProps]); a shadow that has the id finds its starter, nobody else does
      ([Locate]); the secret is only in
      the private ad ([SlotFacts]) and no query brings it out ([Query]).
    - Answers: one reply per request ([CoreReply]); the deferred reply of
      DEACTIVATE_CLAIM_JOB_DONE ([CoreProps]); the reply on the wire, reply before kill
      ([Handlers]); a schedd that reads an acceptance holds the claim it was told of, one
      that is refused nothing ([Grant]); an accepted job has a starter that gets the
      connection, or the claim goes back to Idle ([Launch]).
    - Leases: their arithmetic ([Claim]), that the keepalive loop gives up after a lease
      without contact and not before, and that two lost keepalives are survived
      ([AliveLoop]).
    - Durability: codec round trip, the store as a finite map ([Persist]), last writer wins
      in any interleaving ([Persister]), re-adoption restores the claim ([Adoption]); [Stop]
      returns, and the store then holds the last record of every slot ([Shutdown]); what is
      on its way to the store agrees with every claimed slot after every event ([Durable]),
      so a stop and a start lose no claim, and the records the startd left fit the p-slots
      of the next ([Recovery], over [Refit]).
    - The program: its goroutines, from the configuration through the re-adoption to the
      shutdown, only reach the states the theorems above are about; what it opened is undone
      in reverse whatever fails ([Program]).
    - The starter: every run follows the protocol machine ([StarterProto]); one outcome is
      reported, the same to all, system calls go to the live shadow, connections are closed
      once, steps come in order ([StarterFacts]); received files stay in the sandbox and the
      output plan is the documented one ([TransferFacts]); reports say what wait(2) said
      ([ExecFacts]); a reconnect is safe and is answered ([CommandFacts]).
    - Between starter and startd: the outcome of a run reaches the claim through the
      supervisor ([Supervisor]) or, when the startd was down, through the exit marker, which
      is whole or not there ([StarterMain]); a passed connection is given or closed once
      ([Handoff]); a job outlives its startd ([Relay]).
    - Wire and text formats: [StarterMsg], [Framing], [Relay], [AdWire], [Args], [Reconnect].
    - Authorization: every command is negotiated at its own level ([StartdMain]).
    - Where the code does less than it says: a lease that wraps to zero ([Claim]), negative
      requests ([SlotFacts]), a delete that races a commit ([Persister]), events matched by
      slot name only, a p-slot stuck in Matched, a waiter that is forgotten ([CoreProps]), a
      file outside the sandbox in an explicit output list ([TransferFacts]), an offer queued
      with no job ([CommandFacts]), a send on a closed channel ([Handoff]), a control
      connection dropped without being closed ([Relay]), a duration that wraps
      ([StartdMain]), records that leave a slot busy or carved for good ([Restart]), an id
      the schedd is not told ([Grant]), a report dropped by a full queue ([Launch]).

    ** Assumptions

    [reachable] asks of each event ([CoreReg.event_ok]) that the int64 counters have not come
    round, that a REQUEST_CLAIM is not for a negative amount and that the records of a
    re-adoption fit the configured p-slots.  The life-cycle and claim-id theorems are about
    [Restart.serving]: the re-adoption comes before every other event, as the program does
    it, and finds a store with one record per slot, none of a claim on a p-slot, whose
    claimed records have an id that was minted by an earlier run, a session that can be
    imported and, if busy, the socket of their starter ([Restart.adopts]; what happens
    without the last two is at the end of [Restart]); and, where stated, a minter that does
    not fail.  [Recovery] asks of the store the next run starts on that it has one record per
    slot, that its claimed records are of slots that were claimed ([Recovery.current], which
    the delete of [Persister] that races a commit breaks) and honourable, that the numbers of
    a record are int64s and that the store accepts it; the run before the stop may itself
    begin with a re-adoption, of claimed records that the core wrote for slots it still has
    ([Recovery.faithful]).
    [Handoff] takes of the callers that FinishActivation comes after Connect, as the
    supervisor does, and for the in-process pair that no Close comes between the check and
    the send of PassSyscallConn, which the code does not ensure.
    Recursion is structural, on the list of what a loop's [select] or its peer gives where
    the loop is endless, so no fuel is needed; [AdWire.readExprs] is bounded by the expression
    count the source itself loops to, and [Framing.drainMessage] is well-founded on the
    bytes left.

    ** Not modelled

    Flag parsing, logging, the listener, serving and signal delivery of the two programs,
    which are calls of the daemon framework and the standard library; passing a descriptor
    over a socket ([rawConnWithFd]), a system call; accessors that only return a field; the
    no-op methods of the in-process transport; closing the store and the listener. *)

From stdpp Require Export prelude list gmap strings pretty.
From Stdlib Require Export ZArith Lia.

#[export] Set Default Goal Selector "!".

Declare Scope ep_scope.
Delimit Scope ep_scope with ep.

(** Hint databases: [ep] for resolution, [ep_rw] for rewriting. *)
Create HintDb ep discriminated.
Create Rewrite HintDb ep_rw.

(** Reverse application, so a handler that threads the state through a sequence
    of statements reads top to bottom. *)
Notation "x |> f" := (f x) (at level 69, left associativity, only parsing) : ep_scope.

(** A Go pointer. *)
Definition loc := nat.

(** ** Tactics *)

(** Case analysis on every [match] and [if] of the goal, keeping equations. *)
Ltac split_match :=
  repeat match goal with
  | |- context [match ?x with _ => _ end] =>
      lazymatch x with
      | context [match _ with _ => _ end] => fail
      | _ => destruct x eqn:?
      end
  end.

(** The same on a hypothesis. *)
Ltac split_match_in H :=
  repeat match type of H with
  | context [match ?x with _ => _ end] =>
      lazymatch x with
      | context [match _ with _ => _ end] => fail
      | _ => destruct x eqn:?
      end
  end.

(** Turn the boolean tests of the code into propositions. *)
Ltac breflect :=
  repeat match goal with
  | H : (_ && _) = true |- _ => apply andb_true_iff in H as [? ?]
  | H : (_ || _) = false |- _ => apply orb_false_iff in H as [? ?]
  | H : negb _ = true |- _ => apply negb_true_iff in H
  | H : negb _ = false |- _ => apply negb_false_iff in H
  | H : (_ <=? _)%Z = true |- _ => apply Z.leb_le in H
  | H : (_ <=? _)%Z = false |- _ => apply Z.leb_gt in H
  | H : (_ <? _)%Z = true |- _ => apply Z.ltb_lt in H
  | H : (_ <? _)%Z = false |- _ => apply Z.ltb_ge in H
  | H : (_ =? _)%Z = true |- _ => apply Z.eqb_eq in H
  | H : (_ =? _)%Z = false |- _ => apply Z.eqb_neq in H
  | H : bool_decide _ = true |- _ => apply bool_decide_eq_true in H
  | H : bool_decide _ = false |- _ => apply bool_decide_eq_false in H
  end.

(** ** Lists *)

Section ListLemmas.
Context {A : Type}.
Implicit Types (l : list A) (x : A).

(** [find_map f l] is the first [Some] produced by [f] on [l]: the shape of a
    Go loop that returns from its body. *)
Fixpoint find_map {B} (f : A → option B) l : option B :=
  match l with
  | [] => None
  | x :: l' => match f x with Some y => Some y | None => find_map f l' end
  end.

Lemma find_map_Some {B} (f : A → option B) l y :
  find_map f l = Some y → ∃ x, x ∈ l ∧ f x = Some y.
Proof.
  induction l as [|x l IH]; simpl; [done|].
  destruct (f x) eqn:E; intros H; simplify_eq.
  - exists x. split; [left|done].
  - destruct (IH H) as (z & ? & ?). exists z. split; [by right|done].
Qed.

Lemma find_map_None {B} (f : A → option B) l :
  find_map f l = None ↔ ∀ x, x ∈ l → f x = None.
Proof.
  induction l as [|x l IH]; simpl.
  - split; [|done]. intros _ x Hx. by apply elem_of_nil in Hx.
  - destruct (f x) eqn:E.
    + split; [done|]. intros H. specialize (H x). rewrite H in E; [done|left].
    + rewrite IH. split.
      * intros H z [->|Hz]%elem_of_cons; auto.
      * intros H z Hz. apply H. by right.
Qed.

(** Removing the first element that satisfies [p]: Go's
    [append(s[:i], s[i+1:]...)] followed by [break]. *)
Fixpoint remove_first (p : A → bool) l : list A :=
  match l with
  | [] => []
  | x :: l' => if p x then l' else x :: remove_first p l'
  end.

Lemma remove_first_elem p l x : x ∈ remove_first p l → x ∈ l.
Proof.
  induction l as [|y l IH]; simpl; [done|].
  destruct (p y); [by right|].
  intros [->|?]%elem_of_cons; [left|right; auto].
Qed.

Lemma remove_first_NoDup p l : NoDup l → NoDup (remove_first p l).
Proof.
  induction 1 as [|x l Hx Hl IH]; simpl; [constructor|].
  destruct (p x); [done|]. constructor; [|done].
  by intros ?%remove_first_elem.
Qed.

(** When exactly one element satisfies [p], it is the one removed. *)
Lemma remove_first_elem_iff (p : A → bool) l x y :
  NoDup l → x ∈ l → p x = true → (∀ z, z ∈ l → p z = true → z = x) →
  y ∈ remove_first p l ↔ y ∈ l ∧ y ≠ x.
Proof.
  intros Hnd. induction Hnd as [|z l Hz Hnd IH]; intros Hx Hp Hu; [by apply elem_of_nil in Hx|].
  simpl. destruct (p z) eqn:Ez.
  - assert (z = x) as -> by (apply Hu; [left|done]). rewrite elem_of_cons.
    split; [intros Hy; split; [by right|by intros ->]|]. intros [[->|?] ?]; done.
  - apply elem_of_cons in Hx as [->|Hx]; [congruence|].
    rewrite !elem_of_cons, IH; [|done|done|intros w Hw; apply Hu; by right].
    split; [|tauto]. intros [->|[? ?]]; [|tauto]. split; [by left|]. intros ->. congruence.
Qed.

Lemma remove_first_sublist p l : remove_first p l `sublist_of` l.
Proof.
  induction l as [|x l IH]; simpl; [constructor|].
  destruct (p x); by constructor.
Qed.
End ListLemmas.

(** Filling a map by a loop over pairs with distinct keys. *)
Lemma foldl_insert_map {A} (l : list (string * A)) (acc : gmap string A) k :
  NoDup l.*1 →
  foldl (λ m kv, <[kv.1 := kv.2]> m) acc l !! k
  = match list_to_map (M := gmap string A) l !! k with Some v => Some v | None => acc !! k end.
Proof.
  revert acc. induction l as [|[a b] l IH]; intros acc Hnd; simpl; [by rewrite lookup_empty|].
  apply NoDup_cons in Hnd as [Ha Hnd]. rewrite IH by done.
  destruct (decide (a = k)) as [->|Hne].
  - rewrite lookup_insert_eq. rewrite not_elem_of_list_to_map_1 by done. by rewrite lookup_insert_eq.
  - by rewrite !lookup_insert_ne by done.
Qed.

Lemma foldl_insert_elem {A} (l : list (string * A)) k v :
  NoDup l.*1 →
  foldl (λ (m : gmap string A) kv, <[kv.1 := kv.2]> m) ∅ l !! k = Some v ↔ (k, v) ∈ l.
Proof.
  intros Hnd. rewrite foldl_insert_map, elem_of_list_to_map by done. rewrite lookup_empty.
  by destruct (list_to_map l !! k).
Qed.

(** Sum of an integer measure over a list. *)
Definition sumZ {A} (f : A → Z) (l : list A) : Z := foldr (λ x acc, f x + acc)%Z 0%Z l.

Lemma sumZ_app {A} (f : A → Z) l k : (sumZ f (l ++ k) = sumZ f l + sumZ f k)%Z.
Proof. induction l as [|x l IH]; simpl; [done|]. rewrite IH. lia. Qed.

Lemma sumZ_ext {A} (f g : A → Z) l :
  (∀ x, x ∈ l → f x = g x) → sumZ f l = sumZ g l.
Proof.
  induction l as [|x l IH]; intros H; simpl; [done|].
  rewrite H, IH; [done| |left]. intros y Hy. apply H. by right.
Qed.

Lemma sumZ_nonneg {A} (f : A → Z) l :
  (∀ x, x ∈ l → 0 ≤ f x)%Z → (0 ≤ sumZ f l)%Z.
Proof.
  induction l as [|x l IH]; intros H; simpl; [done|].
  assert (0 ≤ f x)%Z by (apply H; left).
  assert (0 ≤ sumZ f l)%Z by (apply IH; intros; apply H; by right). lia.
Qed.

Lemma sumZ_remove_first {A} (f : A → Z) (p : A → bool) l x :
  x ∈ l → p x = true → (∀ y, y ∈ l → p y = true → y = x) →
  (sumZ f (remove_first p l) = sumZ f l - f x)%Z.
Proof.
  induction l as [|y l IH]; intros Hin Hp Huniq; [by apply elem_of_nil in Hin|].
  simpl. destruct (p y) eqn:E.
  - assert (y = x) as -> by (apply Huniq; [left|done]). lia.
  - apply elem_of_cons in Hin as [->|Hin]; [congruence|].
    simpl. rewrite IH; [lia|done|done|]. intros z Hz. apply Huniq. by right.
Qed.

Lemma sumZ_update {A} (f g : A → Z) l x :
  NoDup l → x ∈ l → (∀ y, y ∈ l → y ≠ x → g y = f y) → (sumZ g l = sumZ f l + g x - f x)%Z.
Proof.
  intros Hnd. induction Hnd as [|y l Hy Hnd IH]; intros Hx H; [by apply elem_of_nil in Hx|].
  simpl. apply elem_of_cons in Hx as [->|Hx].
  - rewrite (sumZ_ext g f l); [lia|]. intros z Hz. apply H; [by right|]. by intros ->.
  - rewrite IH; [|done|intros z Hz; apply H; by right]. rewrite (H y); [lia|left|].
    by intros ->.
Qed.

#[global] Instance sumZ_perm {A} (f : A → Z) : Proper ((≡ₚ) ==> (=)) (sumZ f).
Proof. intros l k H. induction H; simpl; lia. Qed.

Lemma sumZ_fmap {A B} (f : B → Z) (g : A → B) l : sumZ f (g <$> l) = sumZ (f ∘ g) l.
Proof. induction l as [|x l IH]; [done|]. rewrite fmap_cons. unfold sumZ in *. cbn [foldr]. by rewrite IH. Qed.

(** A part weighs at most as much as the whole. *)
Lemma sumZ_part {A} (f : A → Z) l k :
  NoDup l → (∀ x, x ∈ l → x ∈ k) → (∀ x, x ∈ k → 0 ≤ f x)%Z → (sumZ f l ≤ sumZ f k)%Z.
Proof.
  intros Hnd Hin Hpos. destruct (submseteq_Permutation l k) as [r Hr]; [by apply NoDup_submseteq|].
  rewrite Hr, sumZ_app. assert (0 ≤ sumZ f r)%Z; [|lia].
  apply sumZ_nonneg. intros x Hx. apply Hpos. rewrite Hr. apply elem_of_app. by right.
Qed.

#[export] Hint Resolve remove_first_NoDup remove_first_elem : ep.
