(* ===== verification/GoLang.v ===== *)
(** * The parts of Go and its standard library the sources use

    Machine integers, [time.Time] and [time.Duration], and the functions of
    [strings], [strconv] and [fmt] the modelled packages call. *)

From S2P Require Import Prelude.
From Stdlib Require Import Ascii SpecFloat.

Local Open Scope Z_scope.

(** ** Integers: [int] and [int64] are 64-bit two's complement *)

Definition two63 : Z := 9223372036854775808.
Definition two64 : Z := 18446744073709551616.

Definition wrap64 (z : Z) : Z := (z + two63) mod two64 - two63.

Definition int64_range (z : Z) : Prop := - two63 ≤ z < two63.

Lemma wrap64_id z : int64_range z → wrap64 z = z.
Proof.
  unfold int64_range, wrap64, two63, two64. intros H.
  rewrite Z.mod_small by lia. lia.
Qed.

Lemma wrap64_range z : int64_range (wrap64 z).
Proof.
  unfold int64_range, wrap64, two63, two64.
  pose proof (Z.mod_pos_bound (z + 9223372036854775808) 18446744073709551616). lia.
Qed.

#[export] Hint Resolve wrap64_range : ep.

(** ** time

    A [time.Time] is the number of nanoseconds since the Unix epoch; Go's zero
    [Time] is 1 January of year 1.  A [Duration] is an [int64] of nanoseconds. *)

Definition Time := Z.
Definition Duration := Z.

Definition Second : Duration := 1000000000.
Definition zeroTime : Time := -62135596800000000000.

Definition IsZero (t : Time) : bool := t =? zeroTime.
Definition Unix (t : Time) : Z := t / Second.
Definition timeUnix (sec : Z) : Time := sec * Second.
Definition timeAdd (t : Time) (d : Duration) : Time := t + d.
Definition timeAfter (t u : Time) : bool := u <? t.

(** ** strings *)

Definition bytes_of (s : string) : list ascii := String.list_ascii_of_string s.
Definition of_bytes (l : list ascii) : string := String.string_of_list_ascii l.

Definition byte_val (c : ascii) : Z := Z.of_N (N_of_ascii c).

(** [unicode.IsSpace] on the UTF-8 encodings of one, two and three bytes:
    U+0009-U+000D, U+0020; U+0085, U+00A0; U+1680, U+2000-U+200A, U+2028,
    U+2029, U+202F, U+205F, U+3000.  There is no four-byte space. *)
Definition space1 (c : ascii) : bool :=
  let v := byte_val c in ((9 <=? v) && (v <=? 13)) || (v =? 32).
Definition space2 (c d : ascii) : bool :=
  (byte_val c =? 194) && ((byte_val d =? 133) || (byte_val d =? 160)).
Definition space3 (c d e : ascii) : bool :=
  let x := byte_val c in let y := byte_val d in let z := byte_val e in
  ((x =? 225) && (y =? 154) && (z =? 128))
  || ((x =? 226) && (y =? 128) && (((128 <=? z) && (z <=? 138)) || (z =? 168) || (z =? 169) || (z =? 175)))
  || ((x =? 226) && (y =? 129) && (z =? 159))
  || ((x =? 227) && (y =? 128) && (z =? 128)).

Fixpoint trim_front (s1 : ascii → bool) (s2 : ascii → ascii → bool)
    (s3 : ascii → ascii → ascii → bool) (l : list ascii) : list ascii :=
  match l with
  | [] => []
  | c :: r1 =>
      if s1 c then trim_front s1 s2 s3 r1 else
      match r1 with
      | [] => l
      | d :: r2 =>
          if s2 c d then trim_front s1 s2 s3 r2 else
          match r2 with
          | [] => l
          | e :: r3 => if s3 c d e then trim_front s1 s2 s3 r3 else l
          end
      end
  end.

Definition TrimSpace (s : string) : string :=
  let l := trim_front space1 space2 space3 (bytes_of s) in
  of_bytes (rev (trim_front space1 (flip space2) (λ e d c, space3 c d e) (rev l))).

Definition lower_byte (c : ascii) : ascii :=
  let v := N_of_ascii c in
  if (65 <=? v)%N && (v <=? 90)%N then ascii_of_N (v + 32) else c.
Definition upper_byte (c : ascii) : ascii :=
  let v := N_of_ascii c in
  if (97 <=? v)%N && (v <=? 122)%N then ascii_of_N (v - 32) else c.

(** [strings.ToLower] and [ToUpper] on ASCII letters (the sources only compare
    the result with ASCII constants that no non-ASCII rune maps to). *)
Definition ToLower (s : string) : string := of_bytes (map lower_byte (bytes_of s)).
Definition ToUpper (s : string) : string := of_bytes (map upper_byte (bytes_of s)).

(** Simple case folding, for [strings.EqualFold]: ASCII letters, and the two
    non-ASCII runes that fold to an ASCII letter, U+017F (long s) and U+212A
    (Kelvin sign). *)
Fixpoint fold_bytes (l : list ascii) : list ascii :=
  match l with
  | [] => []
  | c :: r1 =>
      match r1 with
      | d :: r2 =>
          if (byte_val c =? 197) && (byte_val d =? 191) then "s"%char :: fold_bytes r2 else
          match r2 with
          | e :: r3 =>
              if (byte_val c =? 226) && (byte_val d =? 132) && (byte_val e =? 170)
              then "k"%char :: fold_bytes r3
              else lower_byte c :: fold_bytes r1
          | [] => lower_byte c :: fold_bytes r1
          end
      | [] => [lower_byte c]
      end
  end.

Definition EqualFold (s t : string) : bool :=
  bool_decide (fold_bytes (bytes_of s) = fold_bytes (bytes_of t)).

Definition HasPrefix (s pre : string) : bool := String.prefix pre s.

(** [strings.Fields]: maximal runs of non-space runes. *)
Fixpoint fields_go (cur : list ascii) (l : list ascii) : list (list ascii) :=
  let emit := match cur with [] => [] | _ => [rev cur] end in
  match l with
  | [] => emit
  | c :: r1 =>
      if space1 c then emit ++ fields_go [] r1 else
      match r1 with
      | [] => fields_go (c :: cur) r1
      | d :: r2 =>
          if space2 c d then emit ++ fields_go [] r2 else
          match r2 with
          | [] => fields_go (c :: cur) r1
          | e :: r3 => if space3 c d e then emit ++ fields_go [] r3 else fields_go (c :: cur) r1
          end
      end
  end.

Definition Fields (s : string) : list string := of_bytes <$> fields_go [] (bytes_of s).

(** [strings.Join]. *)
Fixpoint Join (l : list string) (sep : string) : string :=
  match l with
  | [] => ""
  | [x] => x
  | x :: r => x +:+ sep +:+ Join r sep
  end.

(** ** strconv *)

Definition digit_val (c : ascii) : option Z :=
  let v := byte_val c in if (48 <=? v) && (v <=? 57) then Some (v - 48) else None.

Fixpoint digits_val (acc : Z) (l : list ascii) : option Z :=
  match l with
  | [] => Some acc
  | c :: r => match digit_val c with Some d => digits_val (acc * 10 + d) r | None => None end
  end.

(** [strconv.ParseInt(s, 10, 64)], which [strconv.Atoi] agrees with on a 64-bit
    platform: an optional sign, at least one digit, and a value in range. *)
Definition ParseInt (s : string) : option Z :=
  let '(neg, ds) :=
    match bytes_of s with
    | "-"%char :: r => (true, r)
    | "+"%char :: r => (false, r)
    | l => (false, l)
    end in
  match ds with
  | [] => None
  | _ =>
      match digits_val 0 ds with
      | Some v =>
          let z := if neg : bool then - v else v in
          if (- two63 <=? z) && (z <? two63) then Some z else None
      | None => None
      end
  end.

Definition Atoi := ParseInt.

(** ** fmt: the [%d] verb *)
Definition show (z : Z) : string := pretty z.

Lemma show_inj a b : show a = show b → a = b.
Proof. apply pretty_Z_inj. Qed.

Lemma append_cancel_l (s t u : string) : s +:+ t = s +:+ u → t = u.
Proof. induction s as [|c s IH]; [done|]. intros H. injection H. apply IH. Qed.

Lemma append_assoc (s t u : string) : (s +:+ t) +:+ u = s +:+ (t +:+ u).
Proof.
  induction s as [|c s IH]; [done|].
  change (String.String c ((s +:+ t) +:+ u) = String.String c (s +:+ (t +:+ u))). by rewrite IH.
Qed.

Lemma append_length (s t : string) :
  String.length (s +:+ t) = (String.length s + String.length t)%nat.
Proof.
  induction s as [|c s IH]; [done|].
  change (S (String.length (s +:+ t)) = S (String.length s + String.length t)). by rewrite IH.
Qed.

Lemma append_cancel_r (s t u : string) : s +:+ u = t +:+ u → s = t.
Proof.
  revert t. induction s as [|c s IH]; intros [|d t] H; [done| | |].
  - exfalso. apply (f_equal String.length) in H. rewrite !append_length in H. cbn in H. lia.
  - exfalso. apply (f_equal String.length) in H. rewrite !append_length in H. cbn in H. lia.
  - injection H as -> H. f_equal. by apply IH.
Qed.

(** A byte occurs in a string. *)
Definition contains (c : ascii) (s : string) : Prop := c ∈ bytes_of s.

#[global] Instance contains_dec c s : Decision (contains c s).
Proof. unfold contains. apply _. Defined.

Lemma bytes_of_append s t : bytes_of (s +:+ t) = bytes_of s ++ bytes_of t.
Proof.
  induction s as [|c s IH]; [done|].
  change (c :: bytes_of (s +:+ t) = c :: (bytes_of s ++ bytes_of t)). by rewrite IH.
Qed.

Lemma bytes_of_of_bytes l : bytes_of (of_bytes l) = l.
Proof. apply String.list_ascii_of_string_of_list_ascii. Qed.

Lemma of_bytes_bytes_of s : of_bytes (bytes_of s) = s.
Proof. apply String.string_of_list_ascii_of_string. Qed.

(** Decimal numerals contain digits and a minus sign only. *)
Definition num_char (c : ascii) : bool :=
  let v := byte_val c in ((48 <=? v) && (v <=? 57)) || (v =? 45).

Lemma pretty_N_go_num x s :
  (∀ c, contains c s → num_char c = true) →
  ∀ c, contains c (pretty_N_go x s) → num_char c = true.
Proof.
  revert s. induction (N.lt_wf_0 x) as [x _ IH]; intros s Hs.
  assert (x = 0 ∨ 0 < x)%N as [->|?] by lia; [by rewrite pretty_N_go_0|].
  rewrite pretty_N_go_step by done. apply IH; [by apply N.div_lt|].
  intros c. unfold contains. cbn. intros [->|?]%elem_of_cons; [|by apply Hs].
  unfold pretty_N_char. by repeat case_match.
Qed.

Lemma pretty_N_num (x : N) c : contains c (pretty x) → num_char c = true.
Proof.
  unfold pretty, pretty_N. case_decide.
  - unfold contains. cbn. intros [->|?]%elem_of_cons; [done|]. by apply elem_of_nil in H0.
  - apply pretty_N_go_num. unfold contains. cbn. by intros ? ?%elem_of_nil.
Qed.

Lemma show_num z c : contains c (show z) → num_char c = true.
Proof.
  unfold show, pretty, pretty_Z. destruct z as [|p|p].
  - unfold contains. cbn. intros [->|H]%elem_of_cons; [done|]. by apply elem_of_nil in H.
  - apply pretty_N_num.
  - unfold contains. rewrite bytes_of_append.
    intros [[->|H]%elem_of_cons|H]%elem_of_app; [done|by apply elem_of_nil in H|].
    by apply pretty_N_num in H.
Qed.

(** ** path/filepath, on a system whose separator is the slash *)

Definition slash : ascii := "/".

(** The pieces of a byte string between occurrences of [sep]; [cur] is the piece
    being read, last byte first. *)
Fixpoint split_on (sep : ascii) (cur : list ascii) (l : list ascii) : list (list ascii) :=
  match l with
  | [] => [rev cur]
  | c :: r => if bool_decide (c = sep) then rev cur :: split_on sep [] r else split_on sep (c :: cur) r
  end.

Definition split_slash : list ascii → list ascii → list (list ascii) := split_on slash.

(** [strings.Split] with a one-byte separator. *)
Definition Split (s : string) (sep : ascii) : list string := of_bytes <$> split_on sep [] (bytes_of s).

(** [strings.IndexByte] and slicing around the byte: the parts before and after
    the first occurrence.  [strings.Cut] with a one-byte separator is the same. *)
Fixpoint cut_bytes (sep : ascii) (l : list ascii) : option (list ascii * list ascii) :=
  match l with
  | [] => None
  | c :: r =>
      if bool_decide (c = sep) then Some ([], r)
      else match cut_bytes sep r with Some (a, b) => Some (c :: a, b) | None => None end
  end.

Definition Cut (s : string) (sep : ascii) : option (string * string) :=
  match cut_bytes sep (bytes_of s) with
  | Some (a, b) => Some (of_bytes a, of_bytes b)
  | None => None
  end.

Lemma cut_bytes_app sep a b : sep ∉ a → cut_bytes sep (a ++ sep :: b) = Some (a, b).
Proof.
  induction a as [|c a IH]; intros H; simpl; [by rewrite bool_decide_true|].
  apply not_elem_of_cons in H as [Hc Ha].
  rewrite bool_decide_false by congruence. by rewrite IH.
Qed.

Lemma split_on_app sep cur a b :
  sep ∉ a → split_on sep cur (a ++ sep :: b) = (rev cur ++ a) :: split_on sep [] b.
Proof.
  revert cur. induction a as [|c a IH]; intros cur H; simpl.
  - rewrite bool_decide_true by done. by rewrite app_nil_r.
  - apply not_elem_of_cons in H as [Hc Ha]. rewrite bool_decide_false by congruence.
    rewrite IH by done. simpl. by rewrite <-app_assoc.
Qed.

Lemma split_on_none sep cur a : sep ∉ a → split_on sep cur a = [rev cur ++ a].
Proof.
  revert cur. induction a as [|c a IH]; intros cur H; simpl; [by rewrite app_nil_r|].
  apply not_elem_of_cons in H as [Hc Ha]. rewrite bool_decide_false by congruence.
  rewrite IH by done. simpl. by rewrite <-app_assoc.
Qed.

Definition dot : list ascii := ["."%char].
Definition dotdot : list ascii := ["."%char; "."%char].

(** The component loop of [Clean]; [stack] is the output so far, last first. *)
Fixpoint clean_go (rooted : bool) (stack : list (list ascii)) (comps : list (list ascii))
    : list (list ascii) :=
  match comps with
  | [] => stack
  | c :: r =>
      if bool_decide (c = []) || bool_decide (c = dot) then clean_go rooted stack r
      else if bool_decide (c = dotdot) then
        match stack with
        | top :: rest =>
            if bool_decide (top = dotdot) then clean_go rooted (dotdot :: stack) r
            else clean_go rooted rest r
        | [] => clean_go rooted (if rooted then [] else [dotdot]) r
        end
      else clean_go rooted (c :: stack) r
  end.

Fixpoint join_slash (l : list (list ascii)) : list ascii :=
  match l with
  | [] => []
  | [x] => x
  | x :: r => x ++ slash :: join_slash r
  end.

Definition IsAbs (p : string) : bool :=
  match bytes_of p with c :: _ => bool_decide (c = slash) | [] => false end.

Definition Clean (p : string) : string :=
  let l := bytes_of p in
  let rooted := IsAbs p in
  let comps := rev (clean_go rooted [] (split_slash [] l)) in
  let body := join_slash comps in
  if rooted then of_bytes (slash :: body)
  else match comps with [] => "." | _ => of_bytes body end.

(** [filepath.Join]: empty elements are ignored. *)
Definition pathJoin (elems : list string) : string :=
  match filter (λ e, e ≠ "") elems with
  | [] => ""
  | l => Clean (Join l "/")
  end.

(** ** float64

    A [float64] is a [spec_float] of the Standard Library; [int64(v)] truncates
    towards zero, and is implementation-defined when the value does not fit:
    [f2i_out] is that choice. *)
Definition float64 := SpecFloat.spec_float.

Definition float_zero : float64 := SpecFloat.S754_zero false.

Definition float_trunc (f2i_out : float64 → Z) (f : float64) : Z :=
  match f with
  | SpecFloat.S754_zero _ => 0
  | SpecFloat.S754_infinity _ | SpecFloat.S754_nan => f2i_out f
  | SpecFloat.S754_finite s m e =>
      let mag := if 0 <=? e then Z.pos m * 2 ^ e else Z.pos m / 2 ^ (- e) in
      let z := if s : bool then - mag else mag in
      if (- two63 <=? z) && (z <? two63) then z else f2i_out f
  end.

Lemma of_bytes_app a b : of_bytes (a ++ b) = of_bytes a +:+ of_bytes b.
Proof. rewrite <-(of_bytes_bytes_of (_ +:+ _)), bytes_of_append. by rewrite !bytes_of_of_bytes. Qed.

Lemma Cut_app k v sep :
  ¬ contains sep k → Cut (k +:+ String.String sep v) sep = Some (k, v).
Proof.
  intros H. unfold Cut. rewrite bytes_of_append. simpl.
  change (bytes_of (String.String sep v)) with (sep :: bytes_of v).
  rewrite cut_bytes_app by done. by rewrite !of_bytes_bytes_of.
Qed.

(** Splitting undoes joining when no piece contains the separator. *)
Lemma Split_Join sep (l : list string) :
  l ≠ [] → Forall (λ x, ¬ contains sep x) l → Split (Join l (String.String sep "")) sep = l.
Proof.
  intros Hne H. unfold Split. induction H as [|x l Hx Hl IH]; [done|].
  destruct l as [|y l].
  - simpl. rewrite split_on_none by done. simpl. by rewrite of_bytes_bytes_of.
  - change (Join (x :: y :: l) (String.String sep ""))
      with (x +:+ (String.String sep "" +:+ Join (y :: l) (String.String sep ""))).
    rewrite bytes_of_append.
    change (bytes_of (String.String sep "" +:+ Join (y :: l) (String.String sep "")))
      with (sep :: bytes_of (Join (y :: l) (String.String sep ""))).
    rewrite split_on_app by done. simpl. rewrite of_bytes_bytes_of. f_equal. by apply IH.
Qed.

(** ** More of path/filepath, time and float64 *)

(** The bytes up to and including the last slash, and those after it. *)
Definition cut_last_slash (l : list ascii) : list ascii * list ascii :=
  match cut_bytes slash (rev l) with
  | Some (a, b) => (rev b ++ [slash], rev a)
  | None => ([], l)
  end.

Definition pathDir (p : string) : string := Clean (of_bytes (cut_last_slash (bytes_of p)).1).

Fixpoint drop_slashes (l : list ascii) : list ascii :=
  match l with c :: r => if bool_decide (c = slash) then drop_slashes r else l | [] => [] end.

Definition pathBase (p : string) : string :=
  if bool_decide (p = "") then "."
  else
    let base := (cut_last_slash (rev (drop_slashes (rev (bytes_of p))))).2 in
    if bool_decide (base = []) then "/" else of_bytes base.

(** [Time.Sub] saturates. *)
Definition timeSub (t u : Time) : Duration :=
  let d := t - u in
  if d <? - two63 then - two63 else if two63 - 1 <? d then two63 - 1 else d.

Definition float_of_Z (z : Z) : float64 := SpecFloat.binary_normalize 53 1024 z 0 false.
Definition float_add (a b : float64) : float64 := SpecFloat.SFadd 53 1024 a b.
Definition float_div (a b : float64) : float64 := SpecFloat.SFdiv 53 1024 a b.

(** [Duration.Seconds]: whole seconds plus the rest. *)
Definition durationSeconds (d : Duration) : float64 :=
  float_add (float_of_Z (Z.quot d Second)) (float_div (float_of_Z (Z.rem d Second)) (float_of_Z 1000000000)).

(** ** package net *)

Definition colon : ascii := ":".
Definition lbracket : ascii := "[".
Definition rbracket : ascii := "]".

(** The bytes before and after the last occurrence. *)
Definition cut_last (sep : ascii) (l : list ascii) : option (list ascii * list ascii) :=
  match cut_bytes sep (rev l) with
  | Some (a, b) => Some (rev b, rev a)
  | None => None
  end.

Definition has_byte (c : ascii) (l : list ascii) : bool := bool_decide (c ∈ l).

(** [net.SplitHostPort]: [None] is its error. *)
Definition SplitHostPort (s : string) : option (string * string) :=
  let l := bytes_of s in
  match cut_last colon l with
  | None => None
  | Some (before, port) =>
      match l with
      | c :: rest =>
          if bool_decide (c = lbracket) then
            match cut_bytes rbracket rest with
            | None => None
            | Some (host, after) =>
                (* the first ']' must be just before the last ':' *)
                if negb (bool_decide (lbracket :: host ++ [rbracket] = before)) then None
                else if has_byte lbracket rest || has_byte rbracket after then None
                else Some (of_bytes host, of_bytes port)
            end
          else if has_byte colon before || has_byte lbracket l || has_byte rbracket l then None
          else Some (of_bytes before, of_bytes port)
      | [] => None
      end
  end.
