(* ===== verification/Paths.v ===== *)
(** * Clean paths (path/filepath)

    What [Clean] and [pathJoin] of [GoLang] do to a path, by its components: a clean path
    is a run of dot-dot components, none of them in a rooted path, followed by normal
    ones.  [inside dir p] says that a path is a directory or below it; joining a name that
    does not climb stays inside. *)

From S2P Require Import Prelude GoLang.
From Stdlib Require Import Ascii.

Module Paths.

(** The components [Clean] leaves. *)
Definition components (p : string) : list (list ascii) :=
  rev (clean_go (IsAbs p) [] (split_slash [] (bytes_of p))).

(** Neither empty, nor dot, nor dot-dot. *)
Definition normal (c : list ascii) : Prop := c ≠ [] ∧ c ≠ dot ∧ c ≠ dotdot ∧ slash ∉ c.

(** A clean component list. *)
Definition clean (rooted : bool) (l : list (list ascii)) : Prop :=
  ∃ n ns, l = replicate n dotdot ++ ns ∧ Forall normal ns ∧ (rooted = true → n = 0%nat).

(** [p] is [dir] or below it. *)
Definition inside (dir p : string) : Prop :=
  IsAbs p = IsAbs dir ∧ ∃ rest, components p = components dir ++ rest ∧ Forall normal rest.

(** ** Splitting *)

Lemma split_on_slash sep cur a b :
  split_on sep cur (a ++ sep :: b) = split_on sep cur a ++ split_on sep [] b.
Proof.
  revert cur. induction a as [|c a IH]; intros cur; simpl.
  - by rewrite bool_decide_true.
  - case_bool_decide; simpl; by rewrite IH.
Qed.

Lemma elem_of_rev {A} (x : A) l : x ∈ rev l ↔ x ∈ l.
Proof. rewrite !list_elem_of_In. symmetry. apply in_rev. Qed.

Lemma split_on_pieces sep cur l : sep ∉ cur → Forall (λ c, sep ∉ c) (split_on sep cur l).
Proof.
  revert cur. induction l as [|c l IH]; intros cur Hc; simpl.
  - constructor; [|done]. by rewrite elem_of_rev.
  - case_bool_decide.
    + constructor; [by rewrite elem_of_rev|]. apply IH, not_elem_of_nil.
    + apply IH. apply not_elem_of_cons. split; [by intros ->|done].
Qed.

Lemma split_join_slash l : l ≠ [] → Forall (λ c, slash ∉ c) l → split_slash [] (join_slash l) = l.
Proof.
  intros Hne H. unfold split_slash. induction H as [|x l Hx Hl IH]; [done|].
  destruct l as [|y l]; [simpl; by rewrite split_on_none|].
  change (join_slash (x :: y :: l)) with (x ++ slash :: join_slash (y :: l)).
  rewrite split_on_slash, split_on_none, IH by done. done.
Qed.

(** ** The component loop *)

Lemma clean_go_app r st a b : clean_go r st (a ++ b) = clean_go r (clean_go r st a) b.
Proof.
  revert st. induction a as [|c a IH]; intros st; simpl; [done|].
  case_match; [done|]. case_match; [|done]. destruct st as [|top rest]; [done|]. by case_match.
Qed.

Lemma clean_go_normal r st l : Forall normal l → clean_go r st l = rev l ++ st.
Proof.
  intros H. revert st. induction H as [|c l (H1 & H2 & H3 & _) Hl IH]; intros st; simpl; [done|].
  rewrite !bool_decide_false by done. simpl. by rewrite IH, <-app_assoc.
Qed.

Lemma rev_replicate {A} n (x : A) : rev (replicate n x) = replicate n x.
Proof.
  induction n as [|n IH]; [done|]. rewrite replicate_S_end at 1. by rewrite rev_app_distr, IH.
Qed.

Lemma snoc_cases {A} (l : list A) : l = [] ∨ ∃ k x, l = k ++ [x].
Proof. induction l using rev_ind; [by left|]. right. eauto. Qed.

Lemma clean_go_dots n m :
  clean_go false (replicate m dotdot) (replicate n dotdot) = replicate (n + m) dotdot.
Proof.
  revert m. induction n as [|n IH]; intros m; simpl; [done|].
  destruct m as [|m]; simpl; rewrite ?bool_decide_true by done.
  - change [dotdot] with (replicate 1 dotdot). rewrite IH. by replace (n + 1)%nat with (S (n + 0)) by lia.
  - change (dotdot :: dotdot :: replicate m dotdot) with (replicate (S (S m)) dotdot). rewrite IH.
    by replace (n + S (S m))%nat with (S (n + S m)) by lia.
Qed.

(** The loop keeps its output clean, whatever comes in. *)
Lemma clean_go_clean r st l :
  clean r (rev st) → Forall (λ c, slash ∉ c) l → clean r (rev (clean_go r st l)).
Proof.
  revert st. induction l as [|c l IH]; intros st Hst Hl; simpl; [done|]. inversion Hl; subst.
  case_bool_decide as E1; simpl; [by apply IH|]. case_bool_decide as E2; simpl; [by apply IH|].
  destruct Hst as (n & ns & Hst & Hns & Hr).
  case_bool_decide as E3.
  - destruct st as [|top rest].
    + apply IH; [|done]. destruct r; [by exists n, ns|]. exists 1%nat, []. by repeat split.
    + simpl in Hst. case_bool_decide as E4.
      * apply IH; [|done]. subst. simpl. rewrite Hst.
        destruct (snoc_cases ns) as [->|(ns' & x & ->)].
        -- rewrite app_nil_r. exists (S n), []. rewrite replicate_S_end, app_nil_r. split_and!; [done..|].
           intros ->. rewrite Hr in Hst by done. by destruct (rev rest).
        -- exfalso. rewrite app_assoc in Hst. apply app_inj_2 in Hst as [_ Hx]; [|done]. simplify_eq.
           apply Forall_app in Hns as [_ Hx]. inversion Hx as [|? ? (_ & _ & ? & _)]. done.
      * apply IH; [|done]. destruct (snoc_cases ns) as [->|(ns' & x & ->)].
        -- exfalso. rewrite app_nil_r in Hst. destruct n as [|n]; [by destruct (rev rest)|].
           rewrite replicate_S_end in Hst. apply app_inj_2 in Hst as [_ Hx]; [|done]. by simplify_eq.
        -- rewrite app_assoc in Hst. apply app_inj_2 in Hst as [Hx _]; [|done].
           apply Forall_app in Hns as [? _]. by exists n, ns'.
  - apply IH; [|done]. exists n, (ns ++ [c]). simpl. rewrite Hst, app_assoc. split_and!; [done| |done].
    apply Forall_app. split; [done|]. by constructor.
Qed.

Lemma clean_go_id r l : clean r l → clean_go r [] l = rev l.
Proof.
  intros (n & ns & -> & Hns & Hr). rewrite clean_go_app, clean_go_normal, rev_app_distr by done. f_equal.
  destruct r; [by rewrite Hr|]. pose proof (clean_go_dots n 0) as H. cbn [replicate] in H. rewrite H.
  by rewrite rev_replicate, Nat.add_0_r.
Qed.

Lemma components_clean p : clean (IsAbs p) (components p).
Proof.
  unfold components. apply clean_go_clean.
  - exists 0%nat, []. by repeat split.
  - apply split_on_pieces. set_solver.
Qed.

Lemma clean_pieces r l : clean r l → Forall (λ c, (slash ∉ c) ∧ c ≠ []) l.
Proof.
  intros (n & ns & -> & Hns & _). apply Forall_app. split.
  - apply Forall_replicate. split; [|done]. apply (bool_decide_unpack _). by vm_compute.
  - eapply Forall_impl; [exact Hns|]. by intros c (? & _ & _ & ?).
Qed.

(** ** [Clean] *)

Lemma Clean_bytes p :
  bytes_of (Clean p) =
    if IsAbs p then slash :: join_slash (components p)
    else match components p with [] => dot | l => join_slash l end.
Proof.
  unfold Clean. fold (components p). destruct (IsAbs p); [by rewrite bytes_of_of_bytes|].
  destruct (components p); [done|]. by rewrite bytes_of_of_bytes.
Qed.

Lemma IsAbs_Clean p : IsAbs (Clean p) = IsAbs p.
Proof.
  unfold IsAbs at 1. rewrite Clean_bytes. destruct (IsAbs p) eqn:E; [by rewrite bool_decide_true|].
  pose proof (clean_pieces _ _ (components_clean p)) as H. destruct (components p) as [|[|c x] l]; [done| |].
  - by inversion H as [|? ? [_ ?] _].
  - inversion H as [|? ? [Hs _] _]. destruct l; simpl; apply bool_decide_false; intros ->; apply Hs; set_solver.
Qed.

(** Splitting a clean path gives its components back, up to what the loop drops. *)
Lemma clean_go_Clean r st p :
  clean_go r st (split_slash [] (bytes_of (Clean p))) = clean_go r st (components p).
Proof.
  rewrite Clean_bytes. pose proof (clean_pieces _ _ (components_clean p)) as H.
  assert (Forall (λ c, slash ∉ c) (components p)) as Hs by (eapply Forall_impl; [exact H|by intros ? [? _]]).
  assert (components p ≠ [] → split_slash [] (join_slash (components p)) = components p) as Hj
    by (intros; by apply split_join_slash).
  destruct (IsAbs p).
  - unfold split_slash in *. change (slash :: ?l) with ([] ++ slash :: l). rewrite split_on_slash. simpl.
    destruct (components p); [done|]. by rewrite Hj.
  - destruct (components p); [done|]. by rewrite Hj.
Qed.

Lemma components_Clean p : components (Clean p) = components p.
Proof.
  unfold components at 1. rewrite IsAbs_Clean, clean_go_Clean, clean_go_id by apply components_clean.
  apply rev_involutive.
Qed.

Lemma bytes_of_inj s u : bytes_of s = bytes_of u → s = u.
Proof. intros H. by rewrite <-(of_bytes_bytes_of s), H, of_bytes_bytes_of. Qed.

Lemma Clean_idem p : Clean (Clean p) = Clean p.
Proof.
  apply bytes_of_inj. rewrite (Clean_bytes (Clean p)), IsAbs_Clean, components_Clean. symmetry. apply Clean_bytes.
Qed.

(** ** Joining *)

(** The path begins by leaving the directory it is relative to. *)
Definition climbs (p : string) : bool := bool_decide (head (components p) = Some dotdot).

Lemma not_climbing_normal p : climbs p = false → Forall normal (components p).
Proof.
  unfold climbs. rewrite bool_decide_eq_false. intros H.
  destruct (components_clean p) as ([|n] & ns & Hc & Hns & _); rewrite Hc in *; [done|]. by destruct H.
Qed.

(** A dot-dot at the bottom of the output stays. *)
Lemma clean_go_dotdot st l : dotdot ∈ st → dotdot ∈ clean_go false st l.
Proof.
  revert st. induction l as [|c l IH]; intros st H; simpl; [done|].
  destruct (bool_decide (c = []) || bool_decide (c = dot)); [by apply IH|].
  case_bool_decide; [|apply IH; by right]. destruct st as [|top rest]; [by apply not_elem_of_nil in H|].
  case_bool_decide; apply IH; [by right|]. apply elem_of_cons in H as [?|?]; [congruence|done].
Qed.

Lemma normal_not_dotdot l : Forall normal l → dotdot ∉ l.
Proof. rewrite Forall_forall. intros H Hin. by destruct (H _ Hin) as (_ & _ & ? & _). Qed.

(** A path that does not climb leaves the output below it alone. *)
Lemma clean_go_frame r s st l :
  Forall (λ c, slash ∉ c) l → Forall normal s → Forall normal (clean_go false s l) →
  clean_go r (s ++ st) l = clean_go false s l ++ st.
Proof.
  intros Hl. revert s. induction Hl as [|c l Hc Hl IH]; intros s Hs Hr; simpl in *; [done|].
  destruct (bool_decide (c = []) || bool_decide (c = dot)) eqn:E1; [by apply IH|].
  apply orb_false_iff in E1 as [E1 E2]. apply bool_decide_eq_false in E1, E2.
  case_bool_decide as E3.
  - destruct s as [|top rest].
    + exfalso. eapply normal_not_dotdot; [exact Hr|]. apply clean_go_dotdot. by left.
    + simpl. inversion Hs as [|? ? (H1 & H2 & H3 & H4) Hs']; subst.
      rewrite bool_decide_false in * by done. by apply IH.
  - apply (IH (c :: s)); [by constructor|done].
Qed.

Lemma clean_go_below r st l :
  Forall (λ c, slash ∉ c) l → Forall normal (clean_go false [] l) → clean_go r st l = clean_go false [] l ++ st.
Proof. intros Hl Hn. by apply (clean_go_frame r [] st l). Qed.

Lemma pathJoin_two dir name : dir ≠ "" → name ≠ "" → pathJoin [dir; name] = Clean (dir +:+ "/" +:+ name).
Proof. intros. unfold pathJoin. rewrite !filter_cons_True by done. done. Qed.

Lemma IsAbs_app dir q : dir ≠ "" → IsAbs (dir +:+ q) = IsAbs dir.
Proof. intros H. unfold IsAbs. rewrite bytes_of_append. by destruct dir. Qed.

(** Joining a relative path that does not climb appends its components. *)
Lemma components_join dir name :
  dir ≠ "" → name ≠ "" → IsAbs name = false → climbs name = false →
  components (pathJoin [dir; name]) = components dir ++ components name.
Proof.
  intros Hd Hn Ha Hc. rewrite pathJoin_two, components_Clean by done.
  unfold components at 1. rewrite IsAbs_app, bytes_of_append by done.
  change (bytes_of ("/" +:+ name)) with (slash :: bytes_of name).
  unfold split_slash. rewrite split_on_slash, clean_go_app.
  pose proof (not_climbing_normal name Hc) as Hno. unfold components in Hno at 1. rewrite Ha in Hno.
  rewrite clean_go_below; [|by apply split_on_pieces, not_elem_of_nil|].
  - rewrite rev_app_distr. unfold components. by rewrite Ha.
  - rewrite <-(rev_involutive (clean_go _ _ _)). by apply Forall_rev.
Qed.

Lemma inside_join dir name :
  dir ≠ "" → name ≠ "" → IsAbs name = false → climbs name = false → inside dir (pathJoin [dir; name]).
Proof.
  intros Hd Hn Ha Hc. split.
  - rewrite pathJoin_two, IsAbs_Clean by done. by apply IsAbs_app.
  - exists (components name). split; [by apply components_join|by apply not_climbing_normal].
Qed.

Lemma inside_refl dir : inside dir dir.
Proof. split; [done|]. exists []. by rewrite app_nil_r. Qed.

(** ** The textual test for a climbing path *)

Lemma HasPrefix_bytes s pre : HasPrefix s pre = true ↔ bytes_of pre `prefix_of` bytes_of s.
Proof.
  unfold HasPrefix. revert s. induction pre as [|c pre IH]; intros s; simpl.
  - split; [intros _; apply prefix_nil|by destruct s].
  - destruct s as [|d s]; simpl.
    + split; [done|]. intros [k Hk]. done.
    + destruct (Ascii.ascii_dec c d) as [->|Hne].
      * rewrite IH. split; [apply prefix_cons|]. by intros ?%prefix_cons_inv_2.
      * split; [done|]. intros ?%prefix_cons_inv_1. done.
Qed.

(** A clean relative path climbs when it is dot-dot or starts with it and a slash. *)
Lemma climbs_Clean p :
  IsAbs p = false →
  climbs p = bool_decide (Clean p = "..") || HasPrefix (Clean p) "../".
Proof.
  intros Ha. pose proof (Clean_bytes p) as Hb. rewrite Ha in Hb.
  assert (∀ s, Clean p = s ↔ bytes_of (Clean p) = bytes_of s) as Heq
    by (intros s; split; [by intros ->|apply bytes_of_inj]).
  assert (HasPrefix (Clean p) "../" = true ↔ bytes_of "../" `prefix_of` bytes_of (Clean p)) as Hpre
    by apply HasPrefix_bytes.
  pose proof (clean_pieces _ _ (components_clean p)) as Hpc. unfold climbs.
  apply eq_true_iff_eq. rewrite bool_decide_eq_true, orb_true_iff, bool_decide_eq_true, Hpre, Heq, Hb.
  clear Hb Heq Hpre. change (bytes_of "..") with dotdot. change (bytes_of "../") with (dotdot ++ [slash]).
  destruct (components p) as [|x l]; simpl.
  { split; [done|]. intros [?|[k Hk]]; done. }
  inversion Hpc as [|? ? [Hs Hne] _]; subst. destruct l as [|y l].
  - split; [intros [= ->]; by left|]. intros [->|[k Hk]]; [done|]. exfalso. apply Hs. rewrite Hk. set_solver.
  - split.
    + intros [= ->]. right. exists (join_slash (y :: l)). done.
    + intros [Hk|[k Hk]].
      * exfalso. assert (slash ∈ dotdot) as Hin by (rewrite <-Hk; set_solver).
        revert Hin. apply (bool_decide_unpack _). by vm_compute.
      * f_equal. unfold dotdot in *. simpl in Hk. destruct x as [|a [|b [|c x]]]; simplify_eq/=; try done.
        exfalso. apply Hs. set_solver.
Qed.

(** ** [filepath.Dir] *)

Lemma cut_last_slash_app a x : slash ∉ x → cut_last_slash (a ++ slash :: x) = (a ++ [slash], x).
Proof.
  intros H. unfold cut_last_slash. rewrite rev_app_distr. simpl. rewrite <-app_assoc. simpl.
  rewrite cut_bytes_app by (by rewrite elem_of_rev). by rewrite !rev_involutive.
Qed.

Lemma cut_bytes_none sep l : sep ∉ l → cut_bytes sep l = None.
Proof.
  induction l as [|c l IH]; intros H; simpl; [done|]. apply not_elem_of_cons in H as [H1 H2].
  rewrite bool_decide_false by done. by rewrite IH.
Qed.

Lemma cut_last_slash_none x : slash ∉ x → cut_last_slash x = ([], x).
Proof. intros H. unfold cut_last_slash. rewrite cut_bytes_none; [done|]. by rewrite elem_of_rev. Qed.

Lemma join_snoc l x : l ≠ [] → join_slash (l ++ [x]) = join_slash l ++ slash :: x.
Proof.
  induction l as [|y l IH]; intros H; [done|]. destruct l as [|z l]; [done|].
  change ((y :: z :: l) ++ [x]) with (y :: (z :: l) ++ [x]).
  change (join_slash (y :: (z :: l) ++ [x])) with (y ++ slash :: join_slash ((z :: l) ++ [x])).
  rewrite IH by done. change (join_slash (y :: z :: l)) with (y ++ slash :: join_slash (z :: l)).
  by rewrite <-app_assoc.
Qed.

Lemma clean_app_l r l k : clean r (l ++ k) → clean r l.
Proof.
  intros (n & ns & H & Hns & Hr). destruct (decide (length l ≤ n)%nat) as [Hle|Hgt].
  - exists (length l), []. rewrite app_nil_r. split_and!; [|done|intros ->; specialize (Hr eq_refl); lia].
    apply (f_equal (take (length l))) in H. rewrite take_app_length, take_app_le in H by (rewrite length_replicate; lia).
    rewrite H at 1. rewrite take_replicate. f_equal. lia.
  - apply (f_equal (take (length l))) in H.
    rewrite take_app_length, take_app_ge in H by (rewrite length_replicate; lia). rewrite length_replicate in H.
    exists n, (take (length l - n) ns). split_and!; [done|by apply Forall_take|done].
Qed.

(** The bytes of a rooted or relative path with a trailing slash. *)
Lemma clean_go_trailing r l :
  clean r l → l ≠ [] → clean_go r [] (split_slash [] (join_slash l ++ [slash])) = rev l.
Proof.
  intros Hl Hne. unfold split_slash. rewrite split_on_slash, clean_go_app. cbn [split_on rev clean_go].
  rewrite bool_decide_true by done. cbn [orb]. pose proof (split_join_slash l Hne) as H. unfold split_slash in H.
  rewrite H; [by apply clean_go_id|]. eapply Forall_impl; [apply (clean_pieces _ _ Hl)|]. by intros ? [? _].
Qed.

Lemma IsAbs_bytes l : IsAbs (of_bytes l) = match l with c :: _ => bool_decide (c = slash) | [] => false end.
Proof. unfold IsAbs. by rewrite bytes_of_of_bytes. Qed.

Lemma components_pathDir p :
  IsAbs (pathDir (Clean p)) = IsAbs p ∧ components (pathDir (Clean p)) = removelast (components p).
Proof.
  unfold pathDir. rewrite IsAbs_Clean, components_Clean. set (d := of_bytes _).
  change (components d) with (rev (clean_go (IsAbs d) [] (split_slash [] (bytes_of d)))). subst d. rewrite Clean_bytes.
  pose proof (components_clean p) as Hc. pose proof (clean_pieces _ _ Hc) as Hp.
  destruct (snoc_cases (components p)) as [E|(l & x & E)]; rewrite E in *.
  { destruct (IsAbs p); by vm_compute. }
  apply clean_app_l in Hc. apply Forall_app in Hp as [Hpl Hpx]. inversion Hpx as [|? ? [Hs Hx] _]; subst.
  rewrite removelast_last. destruct (IsAbs p) eqn:Ea.
  - destruct l as [|y l].
    + cbn [app join_slash]. change (slash :: x) with ([] ++ slash :: x). rewrite cut_last_slash_app by done. by vm_compute.
    + rewrite join_snoc by done. rewrite app_comm_cons, cut_last_slash_app by done. cbn [fst].
      rewrite IsAbs_bytes, bytes_of_of_bytes. rewrite <-app_comm_cons. rewrite bool_decide_true by done. split; [done|].
      assert (split_slash [] (slash :: join_slash (y :: l) ++ [slash]) = [] :: split_slash [] (join_slash (y :: l) ++ [slash]))
        as -> by (apply (split_on_slash slash [] [])).
      cbn [clean_go].
      rewrite bool_decide_true by done. cbn [orb]. rewrite clean_go_trailing by done. apply rev_involutive.
  - destruct l as [|y l].
    + cbn [app join_slash]. rewrite cut_last_slash_none by done. by vm_compute.
    + replace (match (y :: l) ++ [x] with [] => dot | l0 => join_slash l0 end) with (join_slash ((y :: l) ++ [x])) by done.
      rewrite join_snoc, cut_last_slash_app by done. cbn [fst]. rewrite IsAbs_bytes, bytes_of_of_bytes.
      assert (match join_slash (y :: l) ++ [slash] with c :: _ => bool_decide (c = slash) | [] => false end = false) as ->.
      { inversion Hpl as [|? ? [Hy Hy'] _]; subst. destruct y as [|c y]; [done|].
        destruct l; simpl; apply bool_decide_false; intros ->; apply Hy; set_solver. }
      split; [done|]. rewrite (clean_go_trailing false) by done. apply rev_involutive.
Qed.
End Paths.
