(* ===== verification/ClassAd.v ===== *)
(** * The ClassAd library, as an interface

    [github.com/PelicanPlatform/classad] is not part of the repository: its
    operations are the fields of [ClassAdLib], an argument of every definition
    that handles an ad, and the documented behaviour the theorems rely on is the
    class [ClassAdLaws].  [RefClassAd] is a concrete implementation that
    satisfies the laws; the witnesses run on it.

    Building an ad is a straight sequence of [ad.Set] and [ad.InsertExpr]
    statements in the sources; it is written here as a list of [AdOp]s, and
    [lookup_run_ops] computes what such a sequence leaves under a name. *)

From S2P Require Import Prelude GoLang.
From Stdlib Require Import SpecFloat Ascii.

Local Open Scope Z_scope.

Inductive Value :=
| VString (s : string)
| VInt (z : Z)
| VBool (b : bool)
| VReal (f : float64).

Class ClassAdLib := {
  ClassAd : Type;
  Expr : Type;
  adNew : ClassAd;
  Lit : Value → Expr;
  adSet : string → Value → ClassAd → ClassAd;
  adInsertExpr : string → Expr → ClassAd → ClassAd;
  adLookup : string → ClassAd → option Expr;
  ParseExpr : string → option Expr;
  ExprString : Expr → string;
  EvaluateAttrString : string → ClassAd → option string;
  EvaluateAttrInt : string → ClassAd → option Z;
  EvaluateAttrReal : string → ClassAd → option float64;
  EvaluateAttrBool : string → ClassAd → option bool;
  (** [SetTarget ad target] is [ad] with its TARGET scope set. *)
  SetTarget : ClassAd → ClassAd → ClassAd;
  adString : ClassAd → string;
  adStringWithPrivate : ClassAd → string;
  adParse : string → option ClassAd;
  Quote : string → string;
  GetAttributes : ClassAd → list string;
  (** [int64(v)] of a real that does not fit, chosen by the platform. *)
  f2i_out : float64 → Z
}.

(** Attribute names are case-insensitive; [Set] stores a literal; evaluating a
    literal gives its value, evaluating an absent attribute gives nothing. *)
Class ClassAdLaws (CA : ClassAdLib) := {
  ad_lookup_new n : adLookup n adNew = None;
  ad_lookup_insert n m e ad :
    adLookup m (adInsertExpr n e ad) =
      if bool_decide (ToLower n = ToLower m) then Some e else adLookup m ad;
  ad_lookup_set n m v ad :
    adLookup m (adSet n v ad) =
      if bool_decide (ToLower n = ToLower m) then Some (Lit v) else adLookup m ad;
  evalString_lit n s ad :
    adLookup n ad = Some (Lit (VString s)) → EvaluateAttrString n ad = Some s;
  evalInt_lit n z ad :
    int64_range z → adLookup n ad = Some (Lit (VInt z)) → EvaluateAttrInt n ad = Some z;
  evalBool_lit n b ad :
    adLookup n ad = Some (Lit (VBool b)) → EvaluateAttrBool n ad = Some b;
  evalString_absent n ad : adLookup n ad = None → EvaluateAttrString n ad = None;
  evalInt_absent n ad : adLookup n ad = None → EvaluateAttrInt n ad = None;
  evalReal_absent n ad : adLookup n ad = None → EvaluateAttrReal n ad = None;
  evalBool_absent n ad : adLookup n ad = None → EvaluateAttrBool n ad = None
}.

Section AdOps.
Context {CA : ClassAdLib}.

(** One statement of an ad-building sequence. *)
Inductive AdOp :=
| OpSet (name : string) (v : Value)
| OpInsert (name : string) (e : Expr).

Definition op_name (o : AdOp) : string :=
  match o with OpSet n _ => n | OpInsert n _ => n end.

Definition op_expr (o : AdOp) : Expr :=
  match o with OpSet _ v => Lit v | OpInsert _ e => e end.

Definition run_op (ad : ClassAd) (o : AdOp) : ClassAd :=
  match o with
  | OpSet n v => adSet n v ad
  | OpInsert n e => adInsertExpr n e ad
  end.

Definition run_ops (ops : list AdOp) (ad : ClassAd) : ClassAd := foldl run_op ad ops.

(** The expression the last statement for [n] stores. *)
Fixpoint last_op (n : string) (ops : list AdOp) : option Expr :=
  match ops with
  | [] => None
  | o :: r =>
      match last_op n r with
      | Some e => Some e
      | None => if bool_decide (ToLower (op_name o) = ToLower n) then Some (op_expr o) else None
      end
  end.

(** [if cond { ad.Set(...) }]. *)
Definition when (b : bool) (ops : list AdOp) : list AdOp := if b then ops else [].

Lemma last_op_app n l k :
  last_op n (l ++ k) = match last_op n k with Some e => Some e | None => last_op n l end.
Proof.
  induction l as [|o l IH]; simpl; [by destruct (last_op n k)|].
  rewrite IH. by destruct (last_op n k).
Qed.

(** Attribute names are compared without case. *)
Lemma last_op_case n m ops : ToLower n = ToLower m → last_op n ops = last_op m ops.
Proof. intros H. induction ops as [|o ops IH]; [done|]. cbn [last_op]. by rewrite IH, H. Qed.

(** A name outside a group of statements. *)
Definition absentb (n : string) (names : list string) : bool :=
  forallb (λ m, negb (bool_decide (ToLower m = ToLower n))) names.

Definition names_in (names : list string) (ops : list AdOp) : Prop :=
  Forall (λ o, op_name o ∈ names) ops.

Lemma names_in_app names l k : names_in names l → names_in names k → names_in names (l ++ k).
Proof. apply Forall_app_2. Qed.

Lemma names_in_when names b l : (b = true → names_in names l) → names_in names (when b l).
Proof. destruct b; simpl; intros H; [by apply H|constructor]. Qed.

Lemma last_op_absent n names ops :
  names_in names ops → absentb n names = true → last_op n ops = None.
Proof.
  intros H Ha. induction H as [|o ops Ho Hops IH]; simpl; [done|]. rewrite IH.
  assert (negb (bool_decide (ToLower (op_name o) = ToLower n)) = true) as Hn.
  { unfold absentb in Ha. rewrite forallb_forall in Ha. apply Ha. by apply list_elem_of_In. }
  by destruct (bool_decide _).
Qed.

Context {CAL : ClassAdLaws CA}.

Lemma lookup_run_op n o ad :
  adLookup n (run_op ad o) =
    if bool_decide (ToLower (op_name o) = ToLower n) then Some (op_expr o) else adLookup n ad.
Proof. destruct o; simpl; [apply ad_lookup_set|apply ad_lookup_insert]. Qed.

Lemma lookup_run_ops n ops ad :
  adLookup n (run_ops ops ad) =
    match last_op n ops with Some e => Some e | None => adLookup n ad end.
Proof.
  revert ad. induction ops as [|o ops IH]; intros ad; [done|].
  change (run_ops (o :: ops) ad) with (run_ops ops (run_op ad o)).
  rewrite IH, lookup_run_op. simpl.
  destruct (last_op n ops); [done|]. by case_bool_decide.
Qed.

Lemma lookup_run_ops_new n ops : adLookup n (run_ops ops adNew) = last_op n ops.
Proof. rewrite lookup_run_ops, ad_lookup_new. by destruct (last_op n ops). Qed.
End AdOps.

#[export] Hint Rewrite @lookup_run_ops_new @last_op_app : ep_rw.

(** Evaluate [last_op] on a sequence whose names are literals.  Only the name
    comparisons and the control structure are unfolded. *)
Ltac ad_simpl :=
  repeat match goal with
  | |- context [bool_decide (ToLower ?a = ToLower ?b)] =>
      let v := eval vm_compute in (bool_decide (ToLower a = ToLower b)) in
      change (bool_decide (ToLower a = ToLower b)) with v; cbn iota
  end.

(** Every statement of the group has one of the given names. *)
Ltac solve_names_in :=
  repeat first
    [ apply names_in_app
    | apply names_in_when; intros _
    | apply Forall_cons; split; [cbn [op_name]; set_solver|]
    | apply Forall_nil; exact I ].

(** ** A reference implementation *)

Module RefClassAd.

Inductive rexpr :=
| RLit (v : Value)
| RSrc (s : string).

Record rad := mkRad { attrs : gmap string rexpr; target : gmap string rexpr }.

Definition rset (n : string) (e : rexpr) (ad : rad) : rad :=
  mkRad (<[ToLower n := e]> (attrs ad)) (target ad).

Definition rlookup (n : string) (ad : rad) : option rexpr := attrs ad !! ToLower n.

Definition rint (m : gmap string rexpr) (n : string) : option Z :=
  match m !! ToLower n with Some (RLit (VInt z)) => Some z | _ => None end.

(** [MY.res > 0 && TARGET.Request<res> <= MY.res], undefined when an operand is. *)
Definition fits (ad : rad) (res req : string) : option bool :=
  match rint (attrs ad) res, rint (target ad) req with
  | Some m, Some t => Some ((0 <? m) && (t <=? m))
  | _, _ => None
  end.

Definition oand (a b : option bool) : option bool :=
  match a, b with
  | Some false, _ => Some false
  | _, Some false => Some false
  | Some true, Some true => Some true
  | _, _ => None
  end.

Definition withinLimits (ad : rad) : option bool :=
  oand (fits ad "Cpus" "RequestCpus")
    (oand (fits ad "Memory" "RequestMemory") (fits ad "Disk" "RequestDisk")).

Definition rbool0 (n : string) (ad : rad) : option bool :=
  match rlookup n ad with
  | Some (RLit (VBool b)) => Some b
  | Some (RSrc s) => if bool_decide (ToLower s = "true") then Some true else None
  | _ => None
  end.

Definition rbool (n : string) (ad : rad) : option bool :=
  match rlookup n ad with
  | Some (RLit (VBool b)) => Some b
  | Some (RSrc s) =>
      if bool_decide (s = "Start && WithinResourceLimits")
      then oand (rbool0 "Start" ad) (withinLimits ad)
      else rbool0 n ad
  | _ => None
  end.

(** A string literal, without escapes. *)
Definition unquoted (s : string) : option string :=
  match bytes_of s with
  | "034"%char :: r => match rev r with "034"%char :: r => Some (of_bytes (rev r)) | _ => None end
  | _ => None
  end.

#[global] Instance refLib : ClassAdLib := {|
  ClassAd := rad;
  Expr := rexpr;
  adNew := mkRad ∅ ∅;
  Lit := RLit;
  adSet n v ad := rset n (RLit v) ad;
  adInsertExpr := rset;
  adLookup := rlookup;
  ParseExpr s :=
    Some (match unquoted s with
          | Some v => RLit (VString v)
          | None => match ParseInt s with Some z => RLit (VInt z) | None => RSrc s end
          end);
  ExprString e := match e with RSrc s => s | RLit (VString s) => s | _ => "" end;
  EvaluateAttrString n ad :=
    match rlookup n ad with Some (RLit (VString s)) => Some s | _ => None end;
  EvaluateAttrInt n ad := rint (attrs ad) n;
  EvaluateAttrReal n ad :=
    match rlookup n ad with Some (RLit (VReal f)) => Some f | _ => None end;
  EvaluateAttrBool := rbool;
  SetTarget ad t := mkRad (attrs ad) (attrs t);
  adString ad := if bool_decide (attrs ad = ∅) then "[]" else "[...]";
  adStringWithPrivate ad := if bool_decide (attrs ad = ∅) then "[]" else "[...]";
  adParse s := if bool_decide (s = "[]") then Some (mkRad ∅ ∅) else None;
  Quote s := s;
  GetAttributes ad := (map_to_list (attrs ad)).*1;
  f2i_out _ := - two63
|}.

#[global] Instance refLaws : ClassAdLaws refLib.
Proof.
  split; simpl; unfold rlookup, rset, rint, rbool, rlookup; simpl; intros;
    rewrite ?lookup_insert; try (by repeat (case_bool_decide || case_decide)).
  all: try match goal with H : _ = _ |- _ => by rewrite H end.
  all: try apply lookup_empty.
  all: unfold rlookup; match goal with H : _ = _ |- _ => by rewrite H end.
Qed.

(** An ad with literal attributes. *)
Definition lits (l : list (string * Value)) : rad :=
  foldl (λ ad nv, rset nv.1 (RLit nv.2) ad) (mkRad ∅ ∅) l.
End RefClassAd.
