(* ===== verification/Claim.v ===== *)
(** * Claim records (internal/claim/claim.go)

    The per-slot claim record, claim-id minting, and the lease arithmetic.  The
    security library that mints and imports match sessions is not part of the
    repository: it is the class [SecurityLib]. *)

From S2P Require Import Prelude GoLang ClassAd.

Local Open Scope Z_scope.

(** [security.MintClaimSession] is a function of the options it is called with
    (the sequence number differs on every call of one daemon, so this loses no
    behaviour): it fails, or gives the claim id, its public form and the session
    id. [ImportClaimSession] re-registers a session and may fail;
    [SecSessionID] is [ParseClaimIDStrict(id).SecSessionID()]. *)
Class SecurityLib := {
  MintClaimSession : string → Z → Z → list Z → option (string * string * string);
  ImportClaimSession : string → string → list Z → bool;
  SecSessionID : string → string
}.

(** A claim id carries the daemon's sequence number, so ids minted by one daemon
    with different sequence numbers differ, and it is never empty. *)
Class SecurityLaws (SL : SecurityLib) := {
  mint_inj sinful bday cmds n m a b :
    MintClaimSession sinful bday n cmds = Some a →
    MintClaimSession sinful bday m cmds = Some b →
    a.1.1 = b.1.1 → n = m;
  mint_nonempty sinful bday cmds n a :
    MintClaimSession sinful bday n cmds = Some a → a.1.1 ≠ ""
}.

Module Claim.

Definition CmdReleaseClaim : Z := 443.
Definition CmdRequestClaim : Z := 442.
Definition CmdActivateClaim : Z := 444.
Definition CmdDeactivateClaim : Z := 403.
Definition CmdMatchInfo : Z := 440.
Definition CmdAlive : Z := 441.
Definition CmdDeactivateClaimForcibly : Z := 404.
Definition CmdDeactivateClaimJobDone : Z := 413.
Definition CmdDeactivateFinalXfer : Z := 561.

Definition claimSurfaceCommands : list Z :=
  [CmdRequestClaim; CmdReleaseClaim; CmdActivateClaim;
   CmdDeactivateClaim; CmdDeactivateClaimForcibly; CmdDeactivateClaimJobDone;
   CmdDeactivateFinalXfer; CmdMatchInfo; CmdAlive].

(** A fresh copy of the list. *)
Definition SurfaceCommands : list Z := claimSurfaceCommands.

Definition DefaultAlivesMissed : Z := 6.

Inductive State := Unclaimed | ClaimedIdle | ClaimedBusy.

#[global] Instance State_eq_dec : EqDecision State.
Proof. solve_decision. Defined.

Definition StateString (s : State) : string :=
  match s with
  | ClaimedIdle | ClaimedBusy => "Claimed"
  | Unclaimed => "Unclaimed"
  end.

Definition IsClaimed (s : State) : bool :=
  bool_decide (s = ClaimedIdle) || bool_decide (s = ClaimedBusy).

Definition StateName (s : State) : string := StateString s.

Section WithLibs.
Context {CA : ClassAdLib} {SL : SecurityLib}.

Record Minter := mkMinter { m_sinful : string; m_birthdate : Z; m_seq : Z }.

Definition NewMinter (sinful : string) (birthdate : Z) : Minter :=
  mkMinter sinful birthdate 0.

Record Claim := mkClaim {
  claimID : string;
  publicClaimID : string;
  sessionID : string;
  state : State;
  scheddAddr : string;
  scheddName : string;
  user : string;
  clientMachine : string;
  aliveInterval : Z;
  leaseDeadline : Time;
  entered : Time;
  updateAd : option ClassAd;
  finalAd : option ClassAd;
  finalStatus : Z;
  finalReason : Z
}.

(** The sequence number is consumed whether or not minting succeeds. *)
Definition Mint (m : Minter) : Minter * option Claim :=
  let seq := wrap64 (m_seq m + 1) in
  (mkMinter (m_sinful m) (m_birthdate m) seq,
   match MintClaimSession (m_sinful m) (m_birthdate m) seq claimSurfaceCommands with
   | None => None
   | Some (cid, pub, sid) =>
       Some (mkClaim cid pub sid Unclaimed "" "" "" "" 0 zeroTime zeroTime None None 0 0)
   end).

Record AdoptOptions := mkAdoptOptions {
  ao_ClaimID : string;
  ao_PublicClaimID : string;
  ao_SessionID : string;
  ao_ScheddAddr : string;
  ao_ScheddName : string;
  ao_User : string;
  ao_ClientMachine : string;
  ao_AliveInterval : Z;
  ao_Busy : bool;
  ao_LeaseDeadline : Time;
  ao_Entered : Time
}.

Definition Adopt (o : AdoptOptions) : Claim :=
  let st := if ao_Busy o then ClaimedBusy else ClaimedIdle in
  mkClaim (ao_ClaimID o) (ao_PublicClaimID o) (ao_SessionID o) st
    (ao_ScheddAddr o) (ao_ScheddName o) (ao_User o) (ao_ClientMachine o)
    (ao_AliveInterval o) (ao_LeaseDeadline o) (ao_Entered o) None None 0 0.

Definition EnteredCurrentState (c : Claim) : Z :=
  if IsZero (entered c) then 0 else Unix (entered c).

Record AcceptInfo := mkAcceptInfo {
  ai_ScheddAddr : string;
  ai_ScheddName : string;
  ai_User : string;
  ai_ClientMachine : string;
  ai_AliveInterval : Z;
  ai_AlivesMissed : Z;
  ai_Now : Time
}.

Definition LeaseDuration (aliveInterval alivesMissed : Z) : Duration :=
  let alivesMissed := if alivesMissed <=? 0 then DefaultAlivesMissed else alivesMissed in
  let aliveInterval := if aliveInterval <=? 0 then 1 else aliveInterval in
  wrap64 (wrap64 (alivesMissed * aliveInterval) * Second).

Definition AlivePeriod (aliveInterval alivesMissed : Z) : Duration :=
  let d := Z.quot (LeaseDuration aliveInterval alivesMissed) 3 in
  if d <=? 0 then Second else d.

(** [clock] is what [time.Now()] returns when [info.Now] is unset. *)
Definition Accept (clock : Time) (info : AcceptInfo) (c : Claim) : Claim :=
  let now := if IsZero (ai_Now info) then clock else ai_Now info in
  mkClaim (claimID c) (publicClaimID c) (sessionID c) ClaimedIdle
    (ai_ScheddAddr info) (ai_ScheddName info) (ai_User info) (ai_ClientMachine info)
    (ai_AliveInterval info)
    (timeAdd now (LeaseDuration (ai_AliveInterval info) (ai_AlivesMissed info)))
    now (updateAd c) (finalAd c) (finalStatus c) (finalReason c).

Definition SetState (st : State) (now : Time) (c : Claim) : Claim :=
  mkClaim (claimID c) (publicClaimID c) (sessionID c) st
    (scheddAddr c) (scheddName c) (user c) (clientMachine c) (aliveInterval c)
    (leaseDeadline c) now (updateAd c) (finalAd c) (finalStatus c) (finalReason c).

Definition SetBusy (now : Time) (c : Claim) : Claim := SetState ClaimedBusy now c.
Definition SetIdle (now : Time) (c : Claim) : Claim := SetState ClaimedIdle now c.

Definition SetUpdateAd (ad : option ClassAd) (c : Claim) : Claim :=
  mkClaim (claimID c) (publicClaimID c) (sessionID c) (state c)
    (scheddAddr c) (scheddName c) (user c) (clientMachine c) (aliveInterval c)
    (leaseDeadline c) (entered c) ad (finalAd c) (finalStatus c) (finalReason c).

Definition SetFinal (ad : option ClassAd) (status reason : Z) (c : Claim) : Claim :=
  mkClaim (claimID c) (publicClaimID c) (sessionID c) (state c)
    (scheddAddr c) (scheddName c) (user c) (clientMachine c) (aliveInterval c)
    (leaseDeadline c) (entered c) (updateAd c) ad status reason.

Definition Final (c : Claim) : option ClassAd * Z * Z :=
  (finalAd c, finalStatus c, finalReason c).

Definition ExtendLease (alivesMissed : Z) (now : Time) (c : Claim) : Claim :=
  mkClaim (claimID c) (publicClaimID c) (sessionID c) (state c)
    (scheddAddr c) (scheddName c) (user c) (clientMachine c) (aliveInterval c)
    (timeAdd now (LeaseDuration (aliveInterval c) alivesMissed))
    (entered c) (updateAd c) (finalAd c) (finalStatus c) (finalReason c).

(** ** Shared lemmas *)

Lemma IsClaimed_true st : IsClaimed st = true ↔ st ≠ Unclaimed.
Proof. destruct st; split; done. Qed.

Lemma IsClaimed_false st : IsClaimed st = false ↔ st = Unclaimed.
Proof. destruct st; split; done. Qed.

Lemma Mint_Some m m' c :
  Mint m = (m', Some c) →
  state c = Unclaimed ∧ m_seq m' = wrap64 (m_seq m + 1) ∧
  m_sinful m' = m_sinful m ∧ m_birthdate m' = m_birthdate m ∧
  ∃ a, MintClaimSession (m_sinful m') (m_birthdate m') (m_seq m') claimSurfaceCommands = Some a ∧
       a.1.1 = claimID c.
Proof.
  unfold Mint. intros H. simplify_eq/=.
  destruct (MintClaimSession _ _ _ _) as [[[cid pub] sid]|] eqn:E; simplify_eq/=.
  repeat split; [done..|]. by eexists.
Qed.

Lemma Mint_seq m : m_seq (Mint m).1 = wrap64 (m_seq m + 1).
Proof. done. Qed.

(** ** The lease *)

Lemma LeaseDuration_normal ai am :
  0 < ai → 0 < am → am * ai * Second < two63 →
  LeaseDuration ai am = am * ai * Second.
Proof.
  intros Hai Ham Hb. unfold LeaseDuration, Second, two63 in *.
  rewrite (proj2 (Z.leb_gt am 0)), (proj2 (Z.leb_gt ai 0)) by lia.
  rewrite (wrap64_id (am * ai)), wrap64_id; unfold int64_range, two63; nia.
Qed.

Lemma alive_third ai am :
  3 ≤ LeaseDuration ai am →
  0 < 3 * AlivePeriod ai am ≤ LeaseDuration ai am ∧
  LeaseDuration ai am < 3 * AlivePeriod ai am + 3.
Proof.
  unfold AlivePeriod. generalize (LeaseDuration ai am) as d. intros d Hd.
  rewrite Z.quot_div_nonneg by lia.
  pose proof (Z.div_mod d 3). pose proof (Z.mod_pos_bound d 3).
  case_match; breflect; lia.
Qed.

(** The keepalive ticker never gets a non-positive period, whatever the
    schedd put on the wire as alive interval and whatever MAX_CLAIM_ALIVES_MISSED
    says, arithmetic overflow included ([time.NewTicker] panics otherwise). *)
Theorem AlivePeriod_positive ai am : 0 < AlivePeriod ai am.
Proof. unfold AlivePeriod, Second. case_match; breflect; lia. Qed.

(** When the lease does not overflow, it is exactly alives-missed times the
    alive interval, the keepalive period is a third of it, so three keepalives
    fit in one lease, and non-positive inputs fall back to 6 and 1. *)
Lemma lease_cadence_bounds ai am :
  let am' := if am <=? 0 then DefaultAlivesMissed else am in
  let ai' := if ai <=? 0 then 1 else ai in
  am' * ai' * Second < two63 →
  LeaseDuration ai am = am' * ai' * Second ∧
  0 < 3 * AlivePeriod ai am ≤ LeaseDuration ai am ∧
  LeaseDuration ai am < 3 * AlivePeriod ai am + 3.
Proof.
  cbn zeta. intros Hb.
  assert (LeaseDuration ai am
    = (if am <=? 0 then DefaultAlivesMissed else am) * (if ai <=? 0 then 1 else ai) * Second) as HL.
  { unfold DefaultAlivesMissed in *. rewrite <-LeaseDuration_normal; [|split_match; breflect; lia..|done].
    unfold LeaseDuration, DefaultAlivesMissed.
    destruct (am <=? 0) eqn:E1, (ai <=? 0) eqn:E2; by rewrite ?E1, ?E2. }
  split; [done|].
  apply alive_third. rewrite HL. unfold Second, DefaultAlivesMissed.
  split_match; breflect; nia.
Qed.

(** The lease length is an [int64] product that wraps: an alive interval of
    2^55 seconds gives a lease of length zero, although both inputs are
    positive. *)
Theorem lease_overflow_zero :
  int64_range (2 ^ 55) ∧ LeaseDuration (2 ^ 55) DefaultAlivesMissed = 0.
Proof. split; [unfold int64_range, two63; lia|vm_compute; reflexivity]. Qed.

(** ** The record's life *)

(** The methods of a claim that change it. *)
Inductive ClaimOp :=
| OpAccept (clock : Time) (info : AcceptInfo)
| OpSetBusy (now : Time)
| OpSetIdle (now : Time)
| OpSetUpdateAd (ad : option ClassAd)
| OpSetFinal (ad : option ClassAd) (status reason : Z)
| OpExtendLease (alivesMissed : Z) (now : Time).

Definition run_claim_op (c : Claim) (o : ClaimOp) : Claim :=
  match o with
  | OpAccept clock info => Accept clock info c
  | OpSetBusy now => SetBusy now c
  | OpSetIdle now => SetIdle now c
  | OpSetUpdateAd ad => SetUpdateAd ad c
  | OpSetFinal ad st r => SetFinal ad st r c
  | OpExtendLease am now => ExtendLease am now c
  end.

(** A claim's identity (secret id, public id, session) is fixed for life, and
    no method returns a claimed record to Unclaimed: a slot becomes claimable
    again only by getting another claim. *)
Lemma claim_identity_fixed ops c :
  let c' := foldl run_claim_op c ops in
  claimID c' = claimID c ∧ publicClaimID c' = publicClaimID c ∧
  sessionID c' = sessionID c ∧
  (IsClaimed (state c) = true → IsClaimed (state c') = true).
Proof.
  revert c. induction ops as [|o ops IH]; intros c; simpl; [done|].
  destruct (IH (run_claim_op c o)) as (-> & -> & -> & Himp).
  destruct o; simpl in *; repeat split; auto.
Qed.
End WithLibs.
End Claim.

(** ** A reference security library, for witnesses *)

Module RefSecurity.

(** [<sinful>#birthdate#seq#secret], as the claim ids of HTCondor. *)
Definition publicPart (sinful : string) (bday seq : Z) : string :=
  sinful +:+ "#" +:+ show bday +:+ "#" +:+ show seq.

#[global] Instance refSec : SecurityLib := {|
  MintClaimSession sinful bday seq _ :=
    Some (publicPart sinful bday seq +:+ "#secret", publicPart sinful bday seq +:+ "#...",
          publicPart sinful bday seq);
  ImportClaimSession cid _ _ := negb (bool_decide (cid = "bad"));
  SecSessionID cid := cid
|}.

#[global] Instance refSecLaws : SecurityLaws refSec.
Proof.
  split.
  - intros sinful bday cmds n m a b [= <-] [= <-] H. cbn in H.
    apply append_cancel_r in H. unfold publicPart in H.
    by apply append_cancel_l, append_cancel_l, append_cancel_l, append_cancel_l, show_inj in H.
  - intros sinful bday cmds n a [= <-] H. cbn in H. unfold publicPart in H.
    by destruct sinful.
Qed.
End RefSecurity.
