(* ===== verification/Slot.v ===== *)
(** * Slots (internal/slot/slot.go, version.go, mem_linux.go, mem_darwin.go, mem_other.go)

    Resource detection, construction of static and partitionable slots, the
    carve/restore arithmetic of dynamic slots, and the machine ads.  The host
    (operating-system probes and build identity) is the record [Host]; the
    HTCondor configuration is a lookup function [Config]. *)

From S2P Require Import Prelude GoLang ClassAd Claim.

Local Open Scope Z_scope.

(** [cfg.Get(key)]. *)
Definition Config := string → option string.

(** How the build reads the size of the memory: the lines of /proc/meminfo, [None] when it
    cannot be opened; the answer of sysctl hw.memsize, an unsigned 64-bit number; or not
    at all. *)
Inductive memProbe :=
| ProcMeminfo (lines : option (list string))
| SysctlMemsize (bytes : option Z)
| NoMemProbe.

(** What the operating system and the build answer.  [Statfs dir] is
    [(Bavail, Bsize)], [None] on error. *)
Record Host := mkHost {
  NumCPU : Z;
  physicalMemory : memProbe;
  TempDir : string;
  Statfs : string → option (Z * Z);
  GOOS : string;
  GOARCH : string;
  buildVersion : string;
  buildCommit : string
}.

Module Slot.

Definition withinResourceLimitsExpr : string :=
  "MY.Cpus > 0 && TARGET.RequestCpus <= MY.Cpus && " +:+
  "MY.Memory > 0 && TARGET.RequestMemory <= MY.Memory && " +:+
  "MY.Disk > 0 && TARGET.RequestDisk <= MY.Disk".

Definition requirementsExpr : string := "Start && WithinResourceLimits".

Definition SlotTypeStatic : string := "Static".
Definition SlotTypePartitionable : string := "Partitionable".
Definition SlotTypeDynamic : string := "Dynamic".

Record Resources := mkRes { Cpus : Z; MemoryMB : Z; DiskKB : Z }.

#[global] Instance Resources_eq_dec : EqDecision Resources.
Proof. solve_decision. Defined.

Record Platform := mkPlatform {
  OpSys : string;
  Arch : string;
  OpSysAndVer : string;
  OpSysMajorVer : string;
  UIDDomain : string;
  FileSystemDomain : string
}.

Section WithLibs.
Context {CA : ClassAdLib}.

Record Slot := mkSlot {
  Name : string;
  SlotID : Z;
  Machine : string;
  Sinful : string;
  StartExpr : string;
  Plat : Platform;
  Res : Resources;
  Total : Resources;
  DaemonBorn : Z;
  SlotType : string;
  fullRes : Resources;
  ParentName : string;
  SubID : Z;
  state : string;
  activity : string;
  entered : Z;
  claim : option Claim.Claim;
  childClaimIDs : list string;
  seq : Z
}.

(** ** Field assignments *)

Definition with_Res (r : Resources) (s : Slot) : Slot :=
  mkSlot (Name s) (SlotID s) (Machine s) (Sinful s) (StartExpr s) (Plat s) r (Total s)
    (DaemonBorn s) (SlotType s) (fullRes s) (ParentName s) (SubID s) (state s) (activity s)
    (entered s) (claim s) (childClaimIDs s) (seq s).

Definition with_state (st act : string) (ent : Z) (s : Slot) : Slot :=
  mkSlot (Name s) (SlotID s) (Machine s) (Sinful s) (StartExpr s) (Plat s) (Res s) (Total s)
    (DaemonBorn s) (SlotType s) (fullRes s) (ParentName s) (SubID s) st act
    ent (claim s) (childClaimIDs s) (seq s).

Definition with_claim (c : option Claim.Claim) (s : Slot) : Slot :=
  mkSlot (Name s) (SlotID s) (Machine s) (Sinful s) (StartExpr s) (Plat s) (Res s) (Total s)
    (DaemonBorn s) (SlotType s) (fullRes s) (ParentName s) (SubID s) (state s) (activity s)
    (entered s) c (childClaimIDs s) (seq s).

Definition with_children (ids : list string) (s : Slot) : Slot :=
  mkSlot (Name s) (SlotID s) (Machine s) (Sinful s) (StartExpr s) (Plat s) (Res s) (Total s)
    (DaemonBorn s) (SlotType s) (fullRes s) (ParentName s) (SubID s) (state s) (activity s)
    (entered s) (claim s) ids (seq s).

Definition with_seq (n : Z) (s : Slot) : Slot :=
  mkSlot (Name s) (SlotID s) (Machine s) (Sinful s) (StartExpr s) (Plat s) (Res s) (Total s)
    (DaemonBorn s) (SlotType s) (fullRes s) (ParentName s) (SubID s) (state s) (activity s)
    (entered s) (claim s) (childClaimIDs s) n.

(** ** Resource detection *)

(** mem_linux.go: the first MemTotal line of /proc/meminfo decides. *)
Fixpoint memTotal (lines : list string) : Z :=
  match lines with
  | [] => 0
  | line :: r =>
      if negb (HasPrefix line "MemTotal:") then memTotal r else
      match Fields line with
      | _ :: f1 :: _ => match ParseInt f1 with Some kb => Z.quot kb 1024 | None => 0 end
      | _ => 0
      end
  end.

Definition detectPhysicalMemoryMB_linux (lines : option (list string)) : Z :=
  match lines with Some lines => memTotal lines | None => 0 end.

(** mem_darwin.go. *)
Definition detectPhysicalMemoryMB_darwin (bytes : option Z) : Z :=
  match bytes with
  | Some b => if b =? 0 then 0 else wrap64 (b / (1024 * 1024))
  | None => 0
  end.

(** mem_other.go. *)
Definition detectPhysicalMemoryMB_other : Z := 0.

Definition detectPhysicalMemoryMB (h : Host) : Z :=
  match physicalMemory h with
  | ProcMeminfo lines => detectPhysicalMemoryMB_linux lines
  | SysctlMemsize bytes => detectPhysicalMemoryMB_darwin bytes
  | NoMemProbe => detectPhysicalMemoryMB_other
  end.

(** A positive integer knob. *)
Definition positiveKnob (cfg : Config) (key : string) : option Z :=
  match cfg key with
  | Some v => match ParseInt (TrimSpace v) with
              | Some n => if 0 <? n then Some n else None
              | None => None
              end
  | None => None
  end.

Definition detectCpus (h : Host) (cfg : Config) : Z :=
  default (NumCPU h) (positiveKnob cfg "NUM_CPUS").

Definition detectMemoryMB (h : Host) (cfg : Config) : Z :=
  match positiveKnob cfg "MEMORY" with
  | Some n => n
  | None => let mb := detectPhysicalMemoryMB h in if 0 <? mb then mb else 0
  end.

Definition detectDiskKB (h : Host) (dir : string) : Z :=
  let dir := if bool_decide (dir = "") then TempDir h else dir in
  let size (st : Z * Z) := Z.quot (wrap64 (wrap64 st.1 * wrap64 st.2)) 1024 in
  match Statfs h dir with
  | Some st => size st
  | None => match Statfs h (TempDir h) with Some st => size st | None => 0 end
  end.

Definition ExecuteDir (h : Host) (cfg : Config) : string :=
  match cfg "EXECUTE" with
  | Some v => if bool_decide (TrimSpace v = "") then TempDir h else TrimSpace v
  | None => TempDir h
  end.

Definition DetectResources (h : Host) (cfg : Config) : Resources :=
  let cpus := detectCpus h cfg in
  let mem := detectMemoryMB h cfg in
  let disk := detectDiskKB h (ExecuteDir h cfg) in
  mkRes (if cpus <? 1 then 1 else cpus)
        (if mem <? 1 then 1024 else mem)
        (if disk <? 1 then 1024 * 1024 else disk).

(** ** Platform identity *)

Definition goOSToHTCondorOS (goos : string) : string :=
  if bool_decide (goos = "linux") then "LINUX"
  else if bool_decide (goos = "darwin") then "OSX"
  else if bool_decide (goos = "windows") then "WINDOWS"
  else if bool_decide (goos = "freebsd") then "FREEBSD"
  else ToUpper goos.

Definition goArchToHTCondorArch (goarch : string) : string :=
  if bool_decide (goarch = "amd64") then "X86_64"
  else if bool_decide (goarch = "386") then "INTEL"
  else if bool_decide (goarch = "arm64") then "ARM64"
  else if bool_decide (goarch = "arm") then "ARM"
  else if bool_decide (goarch = "ppc64") || bool_decide (goarch = "ppc64le") then "PPC64"
  else if bool_decide (goarch = "s390x") then "S390X"
  else ToUpper goarch.

(** The [get] closure: the first key with a non-blank value. *)
Fixpoint getFirst (cfg : Config) (keys : list string) : string :=
  match keys with
  | [] => ""
  | k :: r =>
      match cfg k with
      | Some v => if bool_decide (TrimSpace v = "") then getFirst cfg r else TrimSpace v
      | None => getFirst cfg r
      end
  end.

Definition resolvePlatform (h : Host) (cfg : Config) : Platform :=
  let opsys := getFirst cfg ["OPSYS"] in
  let arch := getFirst cfg ["ARCH"] in
  mkPlatform
    (if bool_decide (opsys = "") then goOSToHTCondorOS (GOOS h) else opsys)
    (if bool_decide (arch = "") then goArchToHTCondorArch (GOARCH h) else arch)
    (getFirst cfg ["OPSYSANDVER"; "OPSYS_AND_VER"])
    (getFirst cfg ["OPSYSMAJORVER"; "OPSYS_MAJOR_VER"])
    (getFirst cfg ["UID_DOMAIN"])
    (getFirst cfg ["FILESYSTEM_DOMAIN"]).

(** ** Construction *)

Definition partitionableConfigured (cfg : Config) : bool :=
  existsb (λ k,
    match cfg k with
    | Some v => existsb (λ t, bool_decide (ToLower (TrimSpace v) = t)) ["true"; "t"; "yes"; "1"]
    | None => false
    end) ["SLOT_TYPE_1_PARTITIONABLE"; "EP_PARTITIONABLE_SLOT"].

Definition startExprOf (cfg : Config) : string :=
  match cfg "START" with
  | Some v => if bool_decide (TrimSpace v = "") then "TRUE" else TrimSpace v
  | None => "TRUE"
  end.

Definition staticName (id : Z) (hostname : string) : string :=
  "slot" +:+ show id +:+ "@" +:+ hostname.

Definition dynamicName (id sub : Z) (machine : string) : string :=
  "slot" +:+ show id +:+ "_" +:+ show sub +:+ "@" +:+ machine.

Definition BuildPartitionableSlot (h : Host) (cfg : Config) (hostname sinful : string)
    (total : Resources) (now : Time) : Slot :=
  mkSlot ("slot1@" +:+ hostname) 1 hostname sinful (startExprOf cfg) (resolvePlatform h cfg)
    total total (Unix now) SlotTypePartitionable total "" 0
    "Unclaimed" "Idle" (Unix now) None [] 0.

Definition NewDynamicSlot (parent : Slot) (subID : Z) (res : Resources) (now : Time) : Slot :=
  mkSlot (dynamicName (SlotID parent) subID (Machine parent)) (SlotID parent) (Machine parent)
    (Sinful parent) (StartExpr parent) (Plat parent) res (Total parent)
    (DaemonBorn parent) SlotTypeDynamic res (Name parent) subID
    "Unclaimed" "Idle" (Unix now) None [] 0.

(** The products and sums of [splitResources] are bounded by the total they
    divide, so they cannot overflow. *)
Definition splitResources (total : Resources) (n : Z) : list Resources :=
  let n := if n <? 1 then 1 else n in
  let baseCpus := Z.quot (Cpus total) n in
  let baseMem := Z.quot (MemoryMB total) n in
  let baseDisk := Z.quot (DiskKB total) n in
  let remCpus := Cpus total - baseCpus * n in
  let remMem := MemoryMB total - baseMem * n in
  let remDisk := DiskKB total - baseDisk * n in
  (λ i : nat,
     if bool_decide (i = 0%nat)
     then mkRes (baseCpus + remCpus) (baseMem + remMem) (baseDisk + remDisk)
     else mkRes baseCpus baseMem baseDisk) <$> List.seq 0 (Z.to_nat n).

Definition numSlots (cfg : Config) (total : Resources) : Z :=
  let n := default 1 (positiveKnob cfg "NUM_SLOTS") in
  if (Cpus total <? n) && (0 <? Cpus total) then Cpus total else n.

Definition BuildStaticSlots (h : Host) (cfg : Config) (hostname sinful : string)
    (total : Resources) (now : Time) : list Slot :=
  let n := numSlots cfg total in
  imap (λ i share,
    let id := Z.of_nat i + 1 in
    mkSlot (staticName id hostname) id hostname sinful (startExprOf cfg) (resolvePlatform h cfg)
      share total (Unix now) SlotTypeStatic share "" 0
      "Unclaimed" "Idle" (Unix now) None [] 0) (splitResources total n).

Definition BuildSlots (h : Host) (cfg : Config) (hostname sinful : string)
    (total : Resources) (now : Time) : list Slot :=
  if partitionableConfigured cfg
  then [BuildPartitionableSlot h cfg hostname sinful total now]
  else BuildStaticSlots h cfg hostname sinful total now.

(** ** Carving *)

Definition IsPartitionable (s : Slot) : bool := bool_decide (SlotType s = SlotTypePartitionable).
Definition IsDynamic (s : Slot) : bool := bool_decide (SlotType s = SlotTypeDynamic).

Definition CanCarve (req : Resources) (s : Slot) : bool :=
  (Cpus req <=? Cpus (Res s)) && (MemoryMB req <=? MemoryMB (Res s))
  && (DiskKB req <=? DiskKB (Res s)).

Definition Carve (req : Resources) (s : Slot) : Slot :=
  with_Res (mkRes (wrap64 (Cpus (Res s) - Cpus req))
                  (wrap64 (MemoryMB (Res s) - MemoryMB req))
                  (wrap64 (DiskKB (Res s) - DiskKB req))) s.

Definition Restore (req : Resources) (s : Slot) : Slot :=
  let cpus := wrap64 (Cpus (Res s) + Cpus req) in
  let mem := wrap64 (MemoryMB (Res s) + MemoryMB req) in
  let disk := wrap64 (DiskKB (Res s) + DiskKB req) in
  with_Res (mkRes (if Cpus (fullRes s) <? cpus then Cpus (fullRes s) else cpus)
                  (if MemoryMB (fullRes s) <? mem then MemoryMB (fullRes s) else mem)
                  (if DiskKB (fullRes s) <? disk then DiskKB (fullRes s) else disk)) s.

Definition SetChildClaimIDs (ids : list string) (s : Slot) : Slot := with_children ids s.

(** ** Claim and state *)

Definition SetClaim (c : Claim.Claim) (s : Slot) : Slot := with_claim (Some c) s.

Definition SetStateActivity (st act : string) (now : Time) (s : Slot) : Slot :=
  with_state st act (Unix now) s.

Definition SetClaimState (c : Claim.Claim) (st act : string) (now : Time) (s : Slot) : Slot :=
  SetStateActivity st act now (with_claim (Some c) s).

(** [s.claim.Accept(info)] dereferences the claim pointer: on a slot with no
    claim the source would panic, and no caller reaches it there. *)
Definition AcceptClaim (clock : Time) (info : Claim.AcceptInfo) (s : Slot) : Slot :=
  let now := if IsZero (Claim.ai_Now info) then clock else Claim.ai_Now info in
  SetStateActivity "Claimed" "Idle" now
    (with_claim (Claim.Accept clock info <$> claim s) s).

(** ** Machine ads *)

Definition setExpr (name str : string) : AdOp :=
  match ParseExpr str with
  | Some e => OpInsert name e
  | None => OpSet name (VString str)
  end.

Definition condorVersionString (h : Host) : string :=
  "$CondorVersion: " +:+ buildVersion h +:+ " BuildID: golang-ep-" +:+ buildCommit h +:+ " $".

Definition condorPlatformString (h : Host) : string :=
  "$CondorPlatform: " +:+ GOARCH h +:+ "_" +:+ GOOS h +:+ " $".

(** An [if x != empty { ad.Set(name, x) }] statement. *)
Definition setNonEmpty (name x : string) : list AdOp :=
  when (negb (bool_decide (x = ""))) [OpSet name (VString x)].

(** The statements of [buildAdLocked], in five groups, in source order. *)

Definition slotTypeOf (s : Slot) : string :=
  if bool_decide (SlotType s = "") then SlotTypeStatic else SlotType s.

(** Identity, state, resources and totals. *)
Definition identityOps (s : Slot) : list AdOp :=
  [ OpSet "MyType" (VString "Machine");
    OpSet "TargetType" (VString "Job");
    OpSet "Name" (VString (Name s));
    OpSet "Machine" (VString (Machine s));
    OpSet "StartdIpAddr" (VString (Sinful s));
    OpSet "MyAddress" (VString (Sinful s));
    OpSet "State" (VString (state s));
    OpSet "Activity" (VString (activity s));
    OpSet "EnteredCurrentState" (VInt (entered s));
    OpSet "EnteredCurrentActivity" (VInt (entered s));
    OpSet "Cpus" (VInt (Cpus (Res s)));
    OpSet "Memory" (VInt (MemoryMB (Res s)));
    OpSet "Disk" (VInt (DiskKB (Res s)));
    OpSet "TotalCpus" (VInt (Cpus (Total s)));
    OpSet "TotalMemory" (VInt (MemoryMB (Total s)));
    OpSet "TotalDisk" (VInt (DiskKB (Total s)));
    OpSet "TotalSlotCpus" (VInt (Cpus (fullRes s)));
    OpSet "TotalSlotMemory" (VInt (MemoryMB (fullRes s)));
    OpSet "TotalSlotDisk" (VInt (DiskKB (fullRes s)));
    OpSet "SlotID" (VInt (SlotID s));
    OpSet "SlotType" (VString (slotTypeOf s));
    OpSet "SlotTypeID" (VInt 0);
    OpSet "SlotWeight" (VInt (Cpus (Res s))) ].

(** Partitionable and dynamic markers. *)
Definition slotTypeOps (s : Slot) : list AdOp :=
  if bool_decide (slotTypeOf s = SlotTypePartitionable) then
    [ OpSet "PartitionableSlot" (VBool true);
      OpSet "NumDynamicSlots" (VInt (Z.of_nat (length (childClaimIDs s)))) ]
  else if bool_decide (slotTypeOf s = SlotTypeDynamic) then
    [ OpSet "DynamicSlot" (VBool true) ]
    ++ setNonEmpty "ParentSlotName" (ParentName s)
    ++ [ OpSet "DSlotId" (VInt (SubID s)) ]
  else [].

(** Policy expressions, file transfer and shared-filesystem identity. *)
Definition policyOps (claimedForm : bool) (s : Slot) : list AdOp :=
  let available := bool_decide (state s = "Unclaimed") || bool_decide (state s = "Owner") in
  [ setExpr "Start" (StartExpr s);
    setExpr "WithinResourceLimits" withinResourceLimitsExpr;
    (if negb available && claimedForm then OpSet "Requirements" (VBool false)
     else setExpr "Requirements" requirementsExpr);
    setExpr "Rank" "0.0";
    OpSet "HasFileTransfer" (VBool true);
    OpSet "HasFileTransferPluginMethods" (VString "data,file") ]
  ++ setNonEmpty "FileSystemDomain" (FileSystemDomain (Plat s))
  ++ setNonEmpty "UidDomain" (UIDDomain (Plat s)).

(** The claiming client, on a claimed slot. *)
Definition clientOps (s : Slot) : list AdOp :=
  let claimed := bool_decide (state s = "Claimed") in
  match claim s with
  | Some cl =>
      when claimed
        (when (negb (bool_decide (Claim.user cl = "")))
           [ OpSet "RemoteUser" (VString (Claim.user cl));
             OpSet "RemoteOwner" (VString (Claim.user cl)) ]
         ++ setNonEmpty "ClientMachine" (Claim.clientMachine cl)
         ++ setNonEmpty "PublicClaimId" (Claim.publicClaimID cl))
  | None => []
  end.

(** Load metrics, platform and versions. *)
Definition metricOps (h : Host) (now : Time) (s : Slot) : list AdOp :=
  [ OpSet "CpuBusy" (VReal float_zero);
    OpSet "LoadAvg" (VReal float_zero);
    OpSet "TotalLoadAvg" (VReal float_zero);
    OpSet "TotalCondorLoadAvg" (VReal float_zero);
    OpSet "KeyboardIdle" (VInt (Z.shiftl 1 30));
    OpSet "ConsoleIdle" (VInt (Z.shiftl 1 30));
    OpSet "RetirementTimeRemaining" (VInt 0);
    OpSet "StartdSendsAlives" (VBool true);
    OpSet "OpSys" (VString (OpSys (Plat s)));
    OpSet "Arch" (VString (Arch (Plat s))) ]
  ++ setNonEmpty "OpSysAndVer" (OpSysAndVer (Plat s))
  ++ when (negb (bool_decide (OpSysMajorVer (Plat s) = "")))
       (match Atoi (OpSysMajorVer (Plat s)) with
        | Some n => [ OpSet "OpSysMajorVer" (VInt n) ]
        | None => []
        end)
  ++ [ OpSet "CondorVersion" (VString (condorVersionString h));
       OpSet "CondorPlatform" (VString (condorPlatformString h));
       OpSet "DaemonStartTime" (VInt (DaemonBorn s));
       OpSet "MyCurrentTime" (VInt (Unix now));
       OpSet "UpdateSequenceNumber" (VInt (seq s)) ].

Definition buildAdOps (h : Host) (now : Time) (claimedForm : bool) (s : Slot) : list AdOp :=
  identityOps s ++ slotTypeOps s ++ policyOps claimedForm s ++ clientOps s ++ metricOps h now s.

Definition buildAdLocked (h : Host) (now : Time) (claimedForm : bool) (s : Slot) : ClassAd :=
  run_ops (buildAdOps h now claimedForm s) adNew.

(** [PublicAd] bumps the sequence number, so it returns the changed slot. *)
Definition PublicAd (h : Host) (now : Time) (s : Slot) : ClassAd * Slot :=
  let s := with_seq (wrap64 (seq s + 1)) s in
  (buildAdLocked h now true s, s).

Definition MatchAd (h : Host) (now : Time) (s : Slot) : ClassAd := buildAdLocked h now false s.

(** The [strings.Builder] loop of [PrivateAd]. *)
Definition childListExpr (ids : list string) : string :=
  "{" +:+ Join (Quote <$> ids) "," +:+ "}".

Definition privateAdOps (s : Slot) : list AdOp :=
  [ OpSet "MyType" (VString "Machine");
    OpSet "Name" (VString (Name s));
    OpSet "StartdIpAddr" (VString (Sinful s));
    OpSet "MyAddress" (VString (Sinful s)) ]
  ++ (match claim s with
      | Some cl => [ OpSet "ClaimId" (VString (Claim.claimID cl));
                     OpSet "Capability" (VString (Claim.claimID cl)) ]
      | None => []
      end)
  ++ when (bool_decide (SlotType s = SlotTypePartitionable))
       (match ParseExpr (childListExpr (childClaimIDs s)) with
        | Some e => [ OpInsert "ChildClaimIds" e ]
        | None => []
        end
        ++ [ OpSet "NumDynamicSlots" (VInt (Z.of_nat (length (childClaimIDs s)))) ]).

Definition PrivateAd (s : Slot) : ClassAd := run_ops (privateAdOps s) adNew.
End WithLibs.
End Slot.
