(* ===== verification/SlotFacts.v ===== *)
(** * Properties of slots

    Detection gives usable resources, static slots partition the machine,
    carving and restoring are inverse, slot names do not collide, and the two
    machine ads say what the negotiator must and must not see. *)

From S2P Require Import Prelude GoLang ClassAd Claim Slot.
From Stdlib Require Import Ascii.
Import Slot.

Local Open Scope Z_scope.

(** ** Resource vectors *)

Definition res_zero : Resources := mkRes 0 0 0.

Definition res_add (a b : Resources) : Resources :=
  mkRes (Cpus a + Cpus b) (MemoryMB a + MemoryMB b) (DiskKB a + DiskKB b).

Definition res_le (a b : Resources) : Prop :=
  Cpus a ≤ Cpus b ∧ MemoryMB a ≤ MemoryMB b ∧ DiskKB a ≤ DiskKB b.

(** Every quantity is between zero and the largest [int64]. *)
Definition res_ok (a : Resources) : Prop :=
  (0 ≤ Cpus a < two63) ∧ (0 ≤ MemoryMB a < two63) ∧ (0 ≤ DiskKB a < two63).

Definition res_sum (l : list Resources) : Resources :=
  mkRes (sumZ Cpus l) (sumZ MemoryMB l) (sumZ DiskKB l).

Lemma Resources_ext a b :
  Cpus a = Cpus b → MemoryMB a = MemoryMB b → DiskKB a = DiskKB b → a = b.
Proof. destruct a, b; simpl; congruence. Qed.

Lemma res_sum_cons r l : res_sum (r :: l) = res_add r (res_sum l).
Proof. done. Qed.

Ltac res_solve :=
  unfold res_ok, res_le, res_add, res_zero, int64_range, two63, two64 in *; simpl in *; lia.

(** ** Detection *)

Definition res_positive (r : Resources) : Prop := 1 ≤ Cpus r ∧ 1 ≤ MemoryMB r ∧ 1 ≤ DiskKB r.

(** Whatever the configuration and the host probes answer (a missing
    /proc/meminfo, a failing statfs, a negative or unparsable knob), the machine is
    never advertised with a zero or negative resource. *)
Lemma DetectResources_positive (h : Host) (cfg : Config) : res_positive (DetectResources h cfg).
Proof. unfold res_positive, DetectResources; simpl. split_match; breflect; lia. Qed.

(** ** Splitting *)

Lemma sumZ_const {A} (f : A → Z) c l :
  (∀ x, x ∈ l → f x = c) → sumZ f l = Z.of_nat (length l) * c.
Proof.
  induction l as [|x l IH]; intros H; simpl; [lia|].
  rewrite (H x) by left. rewrite IH; [lia|]. intros y Hy. apply H. by right.
Qed.

(** The shares as a cons: the first takes the remainder, the rest the base. *)
Lemma splitResources_cons total n :
  1 ≤ n →
  ∃ base first,
    splitResources total n = first :: replicate (Z.to_nat n - 1) base ∧
    base = mkRes (Z.quot (Cpus total) n) (Z.quot (MemoryMB total) n) (Z.quot (DiskKB total) n) ∧
    res_add first (mkRes ((n - 1) * Cpus base) ((n - 1) * MemoryMB base) ((n - 1) * DiskKB base)) = total.
Proof.
  intros Hn. unfold splitResources. rewrite (proj2 (Z.ltb_ge n 1)) by lia.
  destruct (Z.to_nat n) as [|k] eqn:E; [lia|]. simpl.
  eexists _, _. split; [f_equal|].
  - rewrite Nat.sub_0_r. apply list_eq. intros i. rewrite list_lookup_fmap.
    destruct (decide (i < k)%nat) as [Hi|Hi].
    + rewrite lookup_seq_lt by done. simpl. rewrite lookup_replicate_2 by done. done.
    + rewrite lookup_seq_ge by lia. symmetry. apply lookup_ge_None_2.
      rewrite length_replicate. lia.
  - split; [done|]. apply Resources_ext; simpl; lia.
Qed.

Lemma sumZ_replicate {A} (f : A → Z) n x : sumZ f (replicate n x) = Z.of_nat n * f x.
Proof.
  rewrite (sumZ_const f (f x)); [by rewrite length_replicate|].
  by intros y [-> _]%elem_of_replicate.
Qed.

(** Dividing the machine loses and invents nothing: the shares add up to the total
    in every resource, and each has at least the integer quotient. *)
Lemma splitResources_partition (total : Resources) (n : Z) :
  res_ok total →
  let n' := Z.max 1 n in
  length (splitResources total n) = Z.to_nat n' ∧
  res_sum (splitResources total n) = total ∧
  ∀ r, r ∈ splitResources total n →
    res_le (mkRes (Cpus total / n') (MemoryMB total / n') (DiskKB total / n')) r.
Proof.
  intros Hok. cbn zeta.
  assert (splitResources total n = splitResources total (Z.max 1 n)) as ->.
  { unfold splitResources. destruct (n <? 1) eqn:E; breflect.
    - by rewrite Z.max_l by lia.
    - rewrite Z.max_r by lia. by rewrite (proj2 (Z.ltb_ge n 1)) by lia. }
  set (m := Z.max 1 n). assert (1 ≤ m) as Hm by lia. clearbody m.
  destruct (splitResources_cons total m Hm) as (base & first & -> & Hb & Hs).
  assert (Cpus base = Cpus total / m ∧ MemoryMB base = MemoryMB total / m ∧ DiskKB base = DiskKB total / m)
    as (H1 & H2 & H3).
  { rewrite Hb; simpl. by rewrite !Z.quot_div_nonneg by res_solve. }
  split_and!.
  - simpl. rewrite length_replicate. lia.
  - rewrite res_sum_cons, <-Hs. unfold res_add, res_sum. simpl.
    rewrite !sumZ_replicate. rewrite Nat2Z.inj_sub, Z2Nat.id by lia. done.
  - rewrite <-H1, <-H2, <-H3. intros r [->|[-> _]%elem_of_replicate]%elem_of_cons;
      [|repeat split; simpl; lia].
    pose proof (f_equal Cpus Hs). pose proof (f_equal MemoryMB Hs). pose proof (f_equal DiskKB Hs).
    pose proof (Z.mul_div_le (Cpus total) m). pose proof (Z.mul_div_le (MemoryMB total) m).
    pose proof (Z.mul_div_le (DiskKB total) m).
    unfold res_le, res_add in *. simpl in *. repeat split; nia.
Qed.

Lemma splitResources_ok total n r : res_ok total → r ∈ splitResources total n → res_ok r.
Proof.
  intros Hok Hr. destruct (splitResources_partition total n Hok) as (_ & Hsum & Hge).
  assert (∀ r', r' ∈ splitResources total n → 0 ≤ Cpus r' ∧ 0 ≤ MemoryMB r' ∧ 0 ≤ DiskKB r') as Hnn.
  { intros r' Hr'%Hge. destruct Hr' as (H1 & H2 & H3). simpl in *.
    pose proof (Z.div_pos (Cpus total) (Z.max 1 n)). pose proof (Z.div_pos (MemoryMB total) (Z.max 1 n)).
    pose proof (Z.div_pos (DiskKB total) (Z.max 1 n)). res_solve. }
  assert (∀ f : Resources → Z, (∀ r', r' ∈ splitResources total n → 0 ≤ f r') →
            f r ≤ sumZ f (splitResources total n)) as Hle.
  { intros f Hf. clear -Hr Hf. induction (splitResources total n) as [|x l IH]; [by apply elem_of_nil in Hr|].
    simpl. assert (0 ≤ sumZ f l) by (apply sumZ_nonneg; intros; apply Hf; by right).
    assert (0 ≤ f x) by (apply Hf; left).
    apply elem_of_cons in Hr as [->|Hr]; [lia|]. enough (f r ≤ sumZ f l) by lia.
    apply IH; [done|]. intros; apply Hf. by right. }
  pose proof (Hle Cpus ltac:(intros; by apply Hnn)). pose proof (Hle MemoryMB ltac:(intros; by apply Hnn)).
  pose proof (Hle DiskKB ltac:(intros; by apply Hnn)). pose proof (Hnn r Hr).
  rewrite <-Hsum in Hok. unfold res_sum in Hok. res_solve.
Qed.

(** ** Names *)

Lemma staticName_inj a b host : staticName a host = staticName b host → a = b.
Proof.
  unfold staticName. intros H. apply append_cancel_l in H.
  by apply append_cancel_r, show_inj in H.
Qed.

Lemma dynamicName_inj id a b host : dynamicName id a host = dynamicName id b host → a = b.
Proof.
  unfold dynamicName. intros H. apply append_cancel_l, append_cancel_l, append_cancel_l in H.
  by apply append_cancel_r, show_inj in H.
Qed.

(** A dynamic slot's name has an underscore before the at sign; a static slot's
    has none. *)
Lemma staticName_dynamicName a id sub host : staticName a host ≠ dynamicName id sub host.
Proof.
  unfold staticName, dynamicName. intros H. apply append_cancel_l in H.
  assert (show a = show id +:+ "_" +:+ show sub) as Hs.
  { apply (append_cancel_r _ _ ("@" +:+ host)). by rewrite H, !append_assoc. }
  assert (num_char "_"%char = true) as Hn; [|by vm_compute in Hn].
  apply (show_num a). rewrite Hs. unfold contains. rewrite !bytes_of_append.
  apply elem_of_app. right. apply elem_of_app. left. by left.
Qed.

(** ** Static slots *)

Section Facts.
Context {CA : ClassAdLib}.

Lemma numSlots_bounds cfg total :
  1 ≤ Cpus total → 1 ≤ numSlots cfg total ≤ Cpus total.
Proof.
  intros H. unfold numSlots.
  assert (1 ≤ default 1 (positiveKnob cfg "NUM_SLOTS")) as Hn.
  { unfold positiveKnob. split_match; simpl; breflect; lia. }
  split_match; breflect; [lia|].
  destruct (Z.ltb_spec (Cpus total) (default 1 (positiveKnob cfg "NUM_SLOTS"))); [|lia].
  destruct (Z.ltb_spec 0 (Cpus total)); [done|lia].
Qed.

Lemma BuildStaticSlots_lookup h cfg hostname sinful total now i s :
  BuildStaticSlots h cfg hostname sinful total now !! i = Some s →
  Name s = staticName (Z.of_nat i + 1) hostname ∧ SlotID s = Z.of_nat i + 1 ∧
  splitResources total (numSlots cfg total) !! i = Some (Res s) ∧ fullRes s = Res s ∧
  state s = "Unclaimed" ∧ activity s = "Idle" ∧ SlotType s = SlotTypeStatic ∧ claim s = None.
Proof.
  unfold BuildStaticSlots. rewrite list_lookup_imap.
  destruct (_ !! i) as [r|]; simpl; intros; simplify_eq/=. done.
Qed.

Lemma BuildStaticSlots_machine h cfg hostname sinful total now i s :
  BuildStaticSlots h cfg hostname sinful total now !! i = Some s → Machine s = hostname.
Proof.
  unfold BuildStaticSlots. rewrite list_lookup_imap.
  destruct (_ !! i) as [r|]; simpl; intros; by simplify_eq/=.
Qed.

Lemma BuildStaticSlots_names h cfg hostname sinful total now :
  NoDup (Name <$> BuildStaticSlots h cfg hostname sinful total now).
Proof.
  apply NoDup_alt. intros i j x. rewrite !list_lookup_fmap.
  destruct (_ !! i) as [s|] eqn:Ei; [|done]. destruct (_ !! j) as [t|] eqn:Ej; [|done].
  apply BuildStaticSlots_lookup in Ei as (Ei & _), Ej as (Ej & _).
  simpl. intros [= <-] [= Heq]. rewrite Ei, Ej in Heq. apply staticName_inj in Heq. lia.
Qed.

Lemma BuildStaticSlots_Res h cfg hostname sinful total now :
  Res <$> BuildStaticSlots h cfg hostname sinful total now
  = splitResources total (numSlots cfg total).
Proof.
  unfold BuildStaticSlots. generalize (splitResources total (numSlots cfg total)) as l. intros l.
  apply list_eq. intros i. rewrite list_lookup_fmap, list_lookup_imap.
  by destruct (l !! i).
Qed.

(** The static slots of a machine with at least one Cpu partition it: their
    resources add up to the machine, every slot has at least one Cpu (so
    WithinResourceLimits can accept a job), names and ids are pairwise distinct, and
    every slot starts Unclaimed/Idle with no claim. *)
Theorem BuildStaticSlots_partition h cfg hostname sinful total now :
  res_ok total → 1 ≤ Cpus total →
  let slots := BuildStaticSlots h cfg hostname sinful total now in
  res_sum (Res <$> slots) = total ∧
  NoDup (Name <$> slots) ∧
  Forall (λ s, 1 ≤ Cpus (Res s) ∧ fullRes s = Res s ∧ state s = "Unclaimed" ∧
               activity s = "Idle" ∧ claim s = None) slots.
Proof.
  intros Hok H1. cbn zeta. pose proof (numSlots_bounds cfg total H1) as Hn.
  destruct (splitResources_partition total (numSlots cfg total) Hok) as (_ & Hsum & Hge).
  split_and!.
  - by rewrite BuildStaticSlots_Res.
  - apply BuildStaticSlots_names.
  - apply Forall_lookup_2. intros i s Hi.
    apply BuildStaticSlots_lookup in Hi as (_ & _ & Hr & -> & -> & -> & _ & ->).
    split_and!; [|done..]. apply list_elem_of_lookup_2 in Hr. destruct (Hge _ Hr) as [Hc _].
    simpl in Hc. rewrite Z.max_r in Hc by lia.
    pose proof (Z.div_le_lower_bound (Cpus total) (numSlots cfg total) 1). lia.
Qed.

End Facts.

Definition demoHost : Host := mkHost 8 (ProcMeminfo None) "/tmp" (λ _, None) "linux" "amd64" "1.0" "abc".

Lemma BuildStaticSlots_partition_witness :
  let slots := BuildStaticSlots (CA:=RefClassAd.refLib) demoHost
    (λ k, if bool_decide (k = "NUM_SLOTS") then Some "3" else None) "h" "<h:1>" (mkRes 8 16000 100) 0 in
  res_sum (Res <$> slots) = mkRes 8 16000 100 ∧
  NoDup (Name <$> slots) ∧
  Forall (λ s, 1 ≤ Cpus (Res s) ∧ fullRes s = Res s ∧ state s = "Unclaimed" ∧
               activity s = "Idle" ∧ claim s = None) slots.
Proof. apply BuildStaticSlots_partition; [res_solve|simpl; lia]. Defined.

(** ** Carving and restoring *)

Section Carving.
Context {CA : ClassAdLib}.
Implicit Types (s : Slot) (req : Resources).

Lemma CanCarve_le req s : CanCarve req s = true ↔ res_le req (Res s).
Proof.
  unfold CanCarve, res_le. rewrite !andb_true_iff, !Z.leb_le. tauto.
Qed.

Lemma Carve_add req s :
  res_ok (Res s) → res_ok req → CanCarve req s = true →
  res_add (Res (Carve req s)) req = Res s ∧ res_ok (Res (Carve req s)).
Proof.
  intros H1 H2 H3%CanCarve_le. unfold Carve. simpl.
  rewrite !wrap64_id by res_solve. split; [|res_solve].
  apply Resources_ext; simpl; lia.
Qed.

Lemma Restore_add req s :
  res_ok (Res s) → res_ok req → res_ok (fullRes s) → res_le (res_add (Res s) req) (fullRes s) →
  Res (Restore req s) = res_add (Res s) req.
Proof.
  intros H1 H2 H3 H4. unfold Restore. simpl. rewrite !wrap64_id by res_solve.
  rewrite !(proj2 (Z.ltb_ge _ _)) by res_solve. done.
Qed.

(** A p-slot that gives a request's resources to a dynamic slot and gets them back
    is unchanged, and while they are out it advertises exactly what is left; both for
    any request that fits and is not negative. *)
Lemma carve_restore req s :
  res_ok (Res s) → res_ok (fullRes s) → res_le (Res s) (fullRes s) → res_ok req →
  CanCarve req s = true →
  Restore req (Carve req s) = s ∧
  res_add (Res (Carve req s)) req = Res s ∧ res_ok (Res (Carve req s)).
Proof.
  intros H1 H2 H3 H4 H5. destruct (Carve_add req s H1 H4 H5) as [Ha Hok].
  split; [|done].
  assert (Res (Restore req (Carve req s)) = Res s) as HR.
  { rewrite Restore_add; [done..|]. by rewrite Ha. }
  destruct s. unfold Restore, Carve, with_Res in *. simpl in *. by rewrite HR.
Qed.

(** Returning resources never leaves a slot with more than its full allocation,
    whatever is returned (negative amounts and [int64] overflow included). *)
Lemma Restore_clamped req s : res_le (Res (Restore req s)) (fullRes s).
Proof. unfold Restore, res_le. simpl. split_match; breflect; lia. Qed.

(** [CanCarve] does not bound a request from below: a request for a negative
    amount of memory is accepted, and carving it leaves the p-slot advertising more
    memory than the machine has. *)
Theorem CanCarve_negative s m :
  res_ok (Res s) → Res s = fullRes s → 1 ≤ Cpus (Res s) → 0 < m → MemoryMB (Res s) + m < two63 →
  CanCarve (mkRes 1 (- m) 0) s = true ∧
  MemoryMB (fullRes s) < MemoryMB (Res (Carve (mkRes 1 (- m) 0) s)).
Proof.
  intros Hok Hf H1 Hm Hb. split.
  - apply CanCarve_le. res_solve.
  - rewrite <-Hf. unfold Carve. simpl. rewrite wrap64_id by res_solve. lia.
Qed.
End Carving.

(** ** Ads *)

Section Ads.
Context {CA : ClassAdLib} {CAL : ClassAdLaws CA}.
Implicit Types (s : Slot) (h : Host).

Lemma setExpr_name n str : op_name (setExpr n str) = n.
Proof. unfold setExpr. by destruct (ParseExpr str). Qed.

Lemma last_op_setNonEmpty n m x :
  ToLower m ≠ ToLower n → last_op n (setNonEmpty m x) = None.
Proof.
  intros H. unfold setNonEmpty, when. destruct (negb _); [|done]. simpl.
  by rewrite bool_decide_false.
Qed.

Definition slotTypeNames := ["PartitionableSlot"; "NumDynamicSlots"; "DynamicSlot"; "ParentSlotName"; "DSlotId"].
Definition policyNames := ["Start"; "WithinResourceLimits"; "Requirements"; "Rank"; "HasFileTransfer";
  "HasFileTransferPluginMethods"; "FileSystemDomain"; "UidDomain"].
Definition clientNames := ["RemoteUser"; "RemoteOwner"; "ClientMachine"; "PublicClaimId"].
Definition metricNames := ["CpuBusy"; "LoadAvg"; "TotalLoadAvg"; "TotalCondorLoadAvg"; "KeyboardIdle";
  "ConsoleIdle"; "RetirementTimeRemaining"; "StartdSendsAlives"; "OpSys"; "Arch"; "OpSysAndVer";
  "OpSysMajorVer"; "CondorVersion"; "CondorPlatform"; "DaemonStartTime"; "MyCurrentTime";
  "UpdateSequenceNumber"].
Definition identityNames := ["MyType"; "TargetType"; "Name"; "Machine"; "StartdIpAddr"; "MyAddress";
  "State"; "Activity"; "EnteredCurrentState"; "EnteredCurrentActivity"; "Cpus"; "Memory"; "Disk";
  "TotalCpus"; "TotalMemory"; "TotalDisk"; "TotalSlotCpus"; "TotalSlotMemory"; "TotalSlotDisk";
  "SlotID"; "SlotType"; "SlotTypeID"; "SlotWeight"].

Lemma identity_names s : names_in identityNames (identityOps s).
Proof. unfold identityOps. solve_names_in. Qed.

Lemma slotType_names s : names_in slotTypeNames (slotTypeOps s).
Proof. unfold slotTypeOps, setNonEmpty. split_match; solve_names_in. Qed.

Lemma policy_names cf s : names_in policyNames (policyOps cf s).
Proof.
  unfold policyOps, setNonEmpty. destruct (negb _ && cf);
  repeat (apply Forall_cons; split; [rewrite ?setExpr_name; cbn [op_name]; set_solver|]); solve_names_in.
Qed.

Lemma client_names s : names_in clientNames (clientOps s).
Proof. unfold clientOps, setNonEmpty. destruct (claim s); solve_names_in. Qed.

Lemma metric_names h now s : names_in metricNames (metricOps h now s).
Proof. unfold metricOps, setNonEmpty. destruct (Atoi _); solve_names_in. Qed.

(** What a group of the ad contributes, when the others do not name the attribute. *)
Lemma buildAd_lookup h now cf s n :
  adLookup n (buildAdLocked h now cf s) =
    match last_op n (metricOps h now s) with Some e => Some e | None =>
    match last_op n (clientOps s) with Some e => Some e | None =>
    match last_op n (policyOps cf s) with Some e => Some e | None =>
    match last_op n (slotTypeOps s) with Some e => Some e | None =>
      last_op n (identityOps s) end end end end.
Proof.
  unfold buildAdLocked, buildAdOps. rewrite lookup_run_ops_new, !last_op_app.
  by split_match.
Qed.

(** The groups whose names exclude the attribute drop out. *)
Ltac drop_group H :=
  rewrite (last_op_absent _ _ _ H) by (vm_compute; reflexivity).

Ltac drop_groups :=
  rewrite buildAd_lookup;
  repeat match goal with
  | |- context [last_op _ (metricOps ?h ?now ?s)] => drop_group (metric_names h now s)
  | |- context [last_op _ (clientOps ?s)] => drop_group (client_names s)
  | |- context [last_op _ (policyOps ?cf ?s)] => drop_group (policy_names cf s)
  | |- context [last_op _ (slotTypeOps ?s)] => drop_group (slotType_names s)
  | |- context [last_op _ (identityOps ?s)] => drop_group (identity_names s)
  end.

Lemma buildAd_Requirements h now cf s :
  adLookup "Requirements" (buildAdLocked h now cf s) =
    Some (if negb (bool_decide (state s = "Unclaimed") || bool_decide (state s = "Owner")) && cf
          then Lit (VBool false) else op_expr (setExpr "Requirements" requirementsExpr)).
Proof.
  drop_groups. unfold policyOps. rewrite !last_op_app, !last_op_setNonEmpty by done.
  cbn [last_op op_name op_expr]. destruct (negb _ && cf); rewrite ?setExpr_name; ad_simpl; done.
Qed.

(** The states in which the negotiator may match the slot. *)
Definition matchable s : Prop := state s = "Unclaimed" ∨ state s = "Owner".

(** A slot that is not available (Matched, Claimed or Preempting) advertises
    Requirements that evaluate to false, so the negotiator never matches it again; an
    available one, and the matching ad of any slot (the one REQUEST_CLAIM and
    ACTIVATE_CLAIM evaluate), carries the live policy expression instead. *)
Theorem Requirements_by_availability h now s :
  let live := Some (op_expr (setExpr "Requirements" requirementsExpr)) in
  adLookup "Requirements" (MatchAd h now s) = live ∧
  (matchable s → adLookup "Requirements" (PublicAd h now s).1 = live) ∧
  (¬ matchable s → EvaluateAttrBool "Requirements" (PublicAd h now s).1 = Some false).
Proof.
  cbn zeta. unfold MatchAd, PublicAd. simpl. split_and!.
  - rewrite buildAd_Requirements. by rewrite andb_false_r.
  - intros H. rewrite buildAd_Requirements. simpl.
    destruct H as [-> | ->]; [done|]. by rewrite bool_decide_false.
  - intros H. apply Decidable.not_or in H as [H1 H2]. apply evalBool_lit. rewrite buildAd_Requirements. simpl.
    by rewrite !bool_decide_false.
Qed.

(** The attributes that carry claim ids. *)
Definition secretAttrs : list string := ["ClaimId"; "Capability"; "ChildClaimIds"].

Lemma public_no_secrets h now cf s : Forall (λ n, adLookup n (buildAdLocked h now cf s) = None) secretAttrs.
Proof. repeat constructor; drop_groups; done. Qed.

(** The secret claim id never appears in the public ad, under either of its two
    names, nor do the claim ids of a p-slot's children; the private ad carries the
    current claim's id under both names. *)
Theorem secret_only_in_private_ad h now cf s cl :
  Forall (λ n, adLookup n (buildAdLocked h now cf s) = None) secretAttrs ∧
  (claim s = Some cl →
     EvaluateAttrString "ClaimId" (PrivateAd s) = Some (Claim.claimID cl) ∧
     EvaluateAttrString "Capability" (PrivateAd s) = Some (Claim.claimID cl)).
Proof.
  split; [apply public_no_secrets|].
  intros Hcl. unfold PrivateAd, privateAdOps. rewrite Hcl.
  set (tl := when _ _).
  assert (names_in ["ChildClaimIds"; "NumDynamicSlots"] tl) as Htl
    by (unfold tl; destruct (ParseExpr _); solve_names_in).
  clearbody tl. split; apply evalString_lit; rewrite lookup_run_ops_new, !last_op_app;
    rewrite (last_op_absent _ _ _ Htl) by (vm_compute; reflexivity);
    cbn [last_op op_name op_expr app]; ad_simpl; done.
Qed.

(** The user a claimed slot is advertised with. *)
Definition advertisedUser s : option string :=
  match claim s with
  | Some cl => if bool_decide (state s = "Claimed") && negb (bool_decide (Claim.user cl = ""))
               then Some (Claim.user cl) else None
  | None => None
  end.

(** What the ad says about the slot is what the slot holds: the remaining
    resources, the state, and the claiming client's identity on a claimed slot and on
    no other. *)
Lemma buildAd_reflects_slot h now cf s :
  let ad := buildAdLocked h now cf s in
  adLookup "Cpus" ad = Some (Lit (VInt (Cpus (Res s)))) ∧
  adLookup "Memory" ad = Some (Lit (VInt (MemoryMB (Res s)))) ∧
  adLookup "Disk" ad = Some (Lit (VInt (DiskKB (Res s)))) ∧
  EvaluateAttrString "State" ad = Some (state s) ∧
  EvaluateAttrString "RemoteUser" ad = advertisedUser s.
Proof.
  unfold advertisedUser. cbn zeta. split_and!; [drop_groups; unfold identityOps; cbn [last_op op_name op_expr]; ad_simpl; done..| |].
  - apply evalString_lit. drop_groups. unfold identityOps. cbn [last_op op_name op_expr]; ad_simpl; done.
  - assert (adLookup "RemoteUser" (buildAdLocked h now cf s) =
      match claim s with
      | Some cl => if bool_decide (state s = "Claimed") && negb (bool_decide (Claim.user cl = ""))
                   then Some (Lit (VString (Claim.user cl))) else None
      | None => None
      end) as HL.
    { drop_groups. unfold clientOps. destruct (claim s) as [cl|]; [|done].
      destruct (bool_decide (state s = _)); [|done]. simpl. rewrite !last_op_app.
      rewrite !last_op_setNonEmpty by done.
      destruct (negb _); cbn [when last_op op_name op_expr]; ad_simpl; done. }
    destruct (claim s) as [cl|]; [destruct (_ && _)|].
    + by apply evalString_lit.
    + by apply evalString_absent.
    + by apply evalString_absent.
Qed.
End Ads.

(** ** Witnesses *)

Definition demoClaim : Claim.Claim (CA:=RefClassAd.refLib) :=
  Claim.mkClaim "<h:1>#1#1#secret" "<h:1>#1#1#..." "sess" Claim.ClaimedIdle "<s:2>" "schedd" "alice" "sub"
    300 0 0 None None 0 0.

Definition demoSlot : Slot (CA:=RefClassAd.refLib) :=
  mkSlot "slot1@h" 1 "h" "<h:1>" "TRUE" (mkPlatform "LINUX" "X86_64" "" "" "" "")
    (mkRes 8 16000 100000) (mkRes 8 16000 100000) 0 SlotTypePartitionable (mkRes 8 16000 100000) "" 0
    "Claimed" "Idle" 0 (Some demoClaim) [] 0.

Lemma CanCarve_negative_witness :
  CanCarve (mkRes 1 (- 5000) 0) demoSlot = true ∧
  MemoryMB (fullRes demoSlot) < MemoryMB (Res (Carve (mkRes 1 (- 5000) 0) demoSlot)).
Proof. apply (CanCarve_negative demoSlot 5000); [res_solve|reflexivity|simpl; lia|lia|simpl; unfold two63; lia]. Defined.

Lemma Requirements_by_availability_witness :
  EvaluateAttrBool "Requirements" (PublicAd demoHost 0 demoSlot).1 = Some false.
Proof. apply (Requirements_by_availability demoHost 0 demoSlot). intros [H|H]; discriminate H. Defined.

Lemma secret_only_in_private_ad_witness :
  EvaluateAttrString "ClaimId" (PrivateAd demoSlot) = Some "<h:1>#1#1#secret".
Proof. apply (secret_only_in_private_ad demoHost 0 true demoSlot demoClaim). reflexivity. Defined.

