(* ===== verification/Persist.v ===== *)
(** * The durable claim store (internal/persist/store.go)

    The persisted [Record] of a slot's claim, its ClassAd form, and the store.
    The collections engine behind the store is not part of the repository: it is
    the class [CollectionLib], whose laws say that it behaves as a map.

    [RecordStore] is what the store promises to the startd core; [storeRecords]
    is the proof that [Store] keeps the promise, and the core is verified against
    the interface alone. *)

From S2P Require Import Prelude GoLang ClassAd.

Local Open Scope Z_scope.

Module Persist.

Record Record_ := mkRecord {
  SlotName : string;
  ClaimID : string;
  PublicClaimID : string;
  State : string;
  Activity : string;
  SlotType : string;
  ParentSlotName : string;
  DSlotSubID : Z;
  Cpus : Z;
  MemoryMB : Z;
  DiskKB : Z;
  ScheddAddr : string;
  ScheddName : string;
  User : string;
  ClientMachine : string;
  AliveInterval : Z;
  LeaseDeadline : Z;
  Entered : Z;
  JobAd : string;
  GlobalJobID : string;
  StarterPid : Z;
  StarterSocket : string;
  StarterIpAddr : string;
  Sandbox : string
}.

#[global] Instance Record_eq_dec : EqDecision Record_.
Proof. solve_decision. Defined.

Definition attrSlotName := "SlotName".
Definition attrClaimID := "ClaimId".
Definition attrPublicClaimID := "PublicClaimId".
Definition attrState := "State".
Definition attrActivity := "Activity".
Definition attrScheddAddr := "ScheddAddr".
Definition attrScheddName := "ScheddName".
Definition attrUser := "RemoteUser".
Definition attrClientMachine := "ClientMachine".
Definition attrAliveInterval := "AliveInterval".
Definition attrLeaseDeadline := "LeaseDeadline".
Definition attrEntered := "EnteredCurrentState".
Definition attrJobAd := "JobAd".
Definition attrGlobalJobID := "GlobalJobId".
Definition attrStarterPid := "StarterPid".
Definition attrStarterSocket := "StarterSocket".
Definition attrStarterIPAddr := "StarterIpAddr".
Definition attrSandbox := "Sandbox".
Definition attrSlotType := "SlotType".
Definition attrParentSlot := "ParentSlotName".
Definition attrDSlotSubID := "DSlotId".
Definition attrCpus := "Cpus".
Definition attrMemoryMB := "Memory".
Definition attrDiskKB := "Disk".

Section WithAds.
Context {CA : ClassAdLib}.

Definition toAdHead (r : Record_) : list AdOp :=
  [ OpSet attrSlotName (VString (SlotName r));
    OpSet attrClaimID (VString (ClaimID r));
    OpSet attrPublicClaimID (VString (PublicClaimID r));
    OpSet attrState (VString (State r));
    OpSet attrActivity (VString (Activity r));
    OpSet attrScheddAddr (VString (ScheddAddr r));
    OpSet attrScheddName (VString (ScheddName r));
    OpSet attrUser (VString (User r));
    OpSet attrClientMachine (VString (ClientMachine r));
    OpSet attrAliveInterval (VInt (AliveInterval r));
    OpSet attrLeaseDeadline (VInt (LeaseDeadline r));
    OpSet attrEntered (VInt (Entered r)) ].

Definition toAdJob (r : Record_) : list AdOp :=
  when (negb (bool_decide (JobAd r = ""))) [ OpSet attrJobAd (VString (JobAd r)) ].

Definition toAdStarter (r : Record_) : list AdOp :=
  [ OpSet attrGlobalJobID (VString (GlobalJobID r));
    OpSet attrStarterPid (VInt (StarterPid r));
    OpSet attrStarterSocket (VString (StarterSocket r));
    OpSet attrStarterIPAddr (VString (StarterIpAddr r));
    OpSet attrSandbox (VString (Sandbox r)) ].

Definition toAdSlotType (r : Record_) : list AdOp :=
  when (negb (bool_decide (SlotType r = ""))) [ OpSet attrSlotType (VString (SlotType r)) ].

Definition toAdDSlot (r : Record_) : list AdOp :=
  when (negb (bool_decide (ParentSlotName r = "")))
    [ OpSet attrParentSlot (VString (ParentSlotName r));
      OpSet attrDSlotSubID (VInt (DSlotSubID r));
      OpSet attrCpus (VInt (Cpus r));
      OpSet attrMemoryMB (VInt (MemoryMB r));
      OpSet attrDiskKB (VInt (DiskKB r)) ].

Definition toAd (r : Record_) : ClassAd :=
  run_ops (toAdHead r ++ toAdJob r ++ toAdStarter r ++ toAdSlotType r ++ toAdDSlot r) adNew.

(** [r.X, _ = ad.EvaluateAttrString(name)] and
    [if v, ok := ad.EvaluateAttrInt(name); ok { r.X = v }]. *)
Definition getS (n : string) (ad : ClassAd) : string := default "" (EvaluateAttrString n ad).
Definition getI (n : string) (ad : ClassAd) : Z := default 0 (EvaluateAttrInt n ad).

Definition recordFromAd (ad : ClassAd) : Record_ :=
  mkRecord
    (getS attrSlotName ad) (getS attrClaimID ad) (getS attrPublicClaimID ad)
    (getS attrState ad) (getS attrActivity ad) (getS attrSlotType ad)
    (getS attrParentSlot ad) (getI attrDSlotSubID ad) (getI attrCpus ad)
    (getI attrMemoryMB ad) (getI attrDiskKB ad)
    (getS attrScheddAddr ad) (getS attrScheddName ad) (getS attrUser ad)
    (getS attrClientMachine ad) (getI attrAliveInterval ad)
    (getI attrLeaseDeadline ad) (getI attrEntered ad)
    (getS attrJobAd ad) (getS attrGlobalJobID ad) (getI attrStarterPid ad)
    (getS attrStarterSocket ad) (getS attrStarterIPAddr ad) (getS attrSandbox ad).

(** Every integer field is an [int64]. *)
Definition record_ok (r : Record_) : Prop :=
  Forall int64_range [DSlotSubID r; Cpus r; MemoryMB r; DiskKB r; AliveInterval r;
                      LeaseDeadline r; Entered r; StarterPid r].

(** What is written: the dynamic-slot fields only with a parent. *)
Definition norm (r : Record_) : Record_ :=
  if bool_decide (ParentSlotName r = "") then
    mkRecord (SlotName r) (ClaimID r) (PublicClaimID r) (State r) (Activity r) (SlotType r)
      "" 0 0 0 0 (ScheddAddr r) (ScheddName r) (User r) (ClientMachine r) (AliveInterval r)
      (LeaseDeadline r) (Entered r) (JobAd r) (GlobalJobID r) (StarterPid r)
      (StarterSocket r) (StarterIpAddr r) (Sandbox r)
  else r.

(** Two ads with the same attributes. *)
Definition ad_equiv (a b : ClassAd) : Prop := ∀ n, adLookup n a = adLookup n b.

#[global] Instance ad_equiv_equivalence : Equivalence ad_equiv.
Proof.
  split; [done|by intros a b H n|].
  intros a b c H1 H2 n. by rewrite (H1 n).
Qed.

Lemma record_eta r :
  r = mkRecord (SlotName r) (ClaimID r) (PublicClaimID r) (State r) (Activity r) (SlotType r)
    (ParentSlotName r) (DSlotSubID r) (Cpus r) (MemoryMB r) (DiskKB r) (ScheddAddr r)
    (ScheddName r) (User r) (ClientMachine r) (AliveInterval r) (LeaseDeadline r) (Entered r)
    (JobAd r) (GlobalJobID r) (StarterPid r) (StarterSocket r) (StarterIpAddr r) (Sandbox r).
Proof. by destruct r. Qed.

Lemma SlotName_norm r : SlotName (norm r) = SlotName r.
Proof. unfold norm. by case_match. Qed.
End WithAds.

Section RoundTrip.
Context {CA : ClassAdLib} {CAL : ClassAdLaws CA}.

Definition headNames := [attrSlotName; attrClaimID; attrPublicClaimID; attrState; attrActivity;
  attrScheddAddr; attrScheddName; attrUser; attrClientMachine; attrAliveInterval;
  attrLeaseDeadline; attrEntered].
Definition starterNames := [attrGlobalJobID; attrStarterPid; attrStarterSocket; attrStarterIPAddr; attrSandbox].
Definition dslotNames := [attrParentSlot; attrDSlotSubID; attrCpus; attrMemoryMB; attrDiskKB].

Lemma head_names r : names_in headNames (toAdHead r).
Proof. unfold toAdHead. solve_names_in. Qed.
Lemma job_names r : names_in [attrJobAd] (toAdJob r).
Proof. unfold toAdJob. solve_names_in. Qed.
Lemma starter_names r : names_in starterNames (toAdStarter r).
Proof. unfold toAdStarter. solve_names_in. Qed.
Lemma recSlotType_names r : names_in [attrSlotType] (toAdSlotType r).
Proof. unfold toAdSlotType. solve_names_in. Qed.
Lemma dslot_names r : names_in dslotNames (toAdDSlot r).
Proof. unfold toAdDSlot. solve_names_in. Qed.

Ltac drop H := rewrite (last_op_absent _ _ _ H) by (vm_compute; reflexivity).
Ltac drop_all r :=
  try drop (head_names r); try drop (job_names r); try drop (starter_names r);
  try drop (recSlotType_names r); try drop (dslot_names r).

Lemma lookup_toAd n r :
  adLookup n (toAd r) =
    match last_op n (toAdDSlot r) with Some e => Some e | None =>
    match last_op n (toAdSlotType r) with Some e => Some e | None =>
    match last_op n (toAdStarter r) with Some e => Some e | None =>
    match last_op n (toAdJob r) with Some e => Some e | None => last_op n (toAdHead r)
    end end end end.
Proof. unfold toAd. rewrite lookup_run_ops_new, !last_op_app. by split_match. Qed.

(** A field read back from an ad with the record's attributes. *)
Lemma getS_lit n ad s : adLookup n ad = Some (Lit (VString s)) → getS n ad = s.
Proof. intros H. unfold getS. by rewrite (evalString_lit _ _ _ H). Qed.
Lemma getI_lit n ad z : int64_range z → adLookup n ad = Some (Lit (VInt z)) → getI n ad = z.
Proof. intros Hz H. unfold getI. by rewrite (evalInt_lit _ _ _ Hz H). Qed.
Lemma getS_absent n ad : adLookup n ad = None → getS n ad = "".
Proof. intros H. unfold getS. by rewrite (evalString_absent _ _ H). Qed.
Lemma getI_absent n ad : adLookup n ad = None → getI n ad = 0.
Proof. intros H. unfold getI. by rewrite (evalInt_absent _ _ H). Qed.

Ltac field r H :=
  rewrite H, lookup_toAd; drop_all r;
  cbn [last_op op_name op_expr toAdHead toAdStarter toAdJob toAdSlotType toAdDSlot when app];
  ad_simpl; reflexivity.

Lemma recordFromAd_equiv r ad :
  record_ok r → ad_equiv ad (toAd r) → recordFromAd ad = norm r.
Proof.
  intros Hok H. unfold record_ok in Hok. rewrite !Forall_cons in Hok.
  destruct Hok as (? & ? & ? & ? & ? & ? & ? & ? & _).
  assert (getS attrJobAd ad = JobAd r) as Hj.
  { destruct (bool_decide (JobAd r = "")) eqn:E.
    - apply bool_decide_eq_true in E. rewrite E. apply getS_absent. rewrite H, lookup_toAd.
      drop_all r. unfold toAdJob. rewrite E. done.
    - apply getS_lit. rewrite H, lookup_toAd. drop_all r. unfold toAdJob. rewrite E.
      cbn [negb when last_op op_name op_expr]. ad_simpl. done. }
  assert (getS attrSlotType ad = SlotType r) as Ht.
  { destruct (bool_decide (SlotType r = "")) eqn:E.
    - apply bool_decide_eq_true in E. rewrite E. apply getS_absent. rewrite H, lookup_toAd.
      drop_all r. unfold toAdSlotType. rewrite E. done.
    - apply getS_lit. rewrite H, lookup_toAd. drop_all r. unfold toAdSlotType. rewrite E.
      cbn [negb when last_op op_name op_expr]. ad_simpl. done. }
  unfold recordFromAd. rewrite Hj, Ht. unfold norm.
  destruct (bool_decide (ParentSlotName r = "")) eqn:E.
  - f_equal; first [ by apply getS_lit; field r H | by apply getI_lit; [done|field r H] | idtac ].
    1: apply getS_absent. 2-5: apply getI_absent.
    all: rewrite H, lookup_toAd; drop_all r; unfold toAdDSlot; by rewrite E.
  - etransitivity; [|symmetry; apply record_eta].
    f_equal; first [ by apply getS_lit; field r H | by apply getI_lit; [done|field r H] | idtac ].
    1: apply getS_lit. 2-5: apply getI_lit; [done|].
    all: rewrite H, lookup_toAd; drop_all r; unfold toAdDSlot; rewrite E;
      cbn [negb when last_op op_name op_expr]; ad_simpl; reflexivity.
Qed.

(** A claim record survives the store: decoding the ad it is encoded to gives
    the record back, field for field, except that the dynamic-slot fields of a
    record with no parent slot are not written. *)
Theorem record_roundtrip r : record_ok r → recordFromAd (toAd r) = norm r.
Proof. intros H. by apply recordFromAd_equiv. Qed.
End RoundTrip.

(** ** The collections engine *)

Class CollectionLib {CA : ClassAdLib} := {
  Coll : Type;
  collPut : string → ClassAd → Coll → option Coll;
  collGet : string → Coll → option ClassAd;
  collDelete : string → Coll → Coll;
  collScan : Coll → list ClassAd
}.
Arguments CollectionLib CA : clear implicits.

(** It is a map from keys to ads (an ad comes back with the same attributes), and
    a scan enumerates it. *)
Class CollectionLaws {CA : ClassAdLib} (CL : CollectionLib CA) := {
  coll_get_put_eq k ad c c' :
    collPut k ad c = Some c' → ∃ ad', collGet k c' = Some ad' ∧ ad_equiv ad' ad;
  coll_get_put_ne k j ad c c' :
    j ≠ k → collPut k ad c = Some c' → collGet j c' = collGet j c;
  coll_get_delete k j c :
    collGet j (collDelete k c) = if bool_decide (j = k) then None else collGet j c;
  coll_scan c ad : ad ∈ collScan c ↔ ∃ k, collGet k c = Some ad
}.

Section StoreOps.
Context {CA : ClassAdLib} {CL : CollectionLib CA}.

Record Store := mkStore { coll : Coll; dir : string }.

(** [mkdirAll] and [openColl] are [os.MkdirAll] and [collections.Open]. *)
Definition Open (mkdirAll : string → bool) (openColl : string → option Coll) (d : string)
    : option Store :=
  if bool_decide (d = "") then None
  else if negb (mkdirAll d) then None
  else match openColl d with Some c => Some (mkStore c d) | None => None end.

Definition Put (r : Record_) (st : Store) : option Store :=
  if bool_decide (SlotName r = "") then None
  else match collPut (SlotName r) (toAd r) (coll st) with
       | Some c => Some (mkStore c (dir st))
       | None => None
       end.

Definition Get (slotName : string) (st : Store) : option Record_ :=
  match collGet slotName (coll st) with Some ad => Some (recordFromAd ad) | None => None end.

Definition Delete (slotName : string) (st : Store) : Store :=
  mkStore (collDelete slotName (coll st)) (dir st).

Definition List_ (st : Store) : list Record_ := recordFromAd <$> collScan (coll st).
End StoreOps.

(** ** What the store promises *)

Class RecordStore := {
  rstore : Type;
  rs_put : Record_ → rstore → option rstore;
  rs_get : string → rstore → option Record_;
  rs_delete : string → rstore → rstore;
  rs_list : rstore → list Record_
}.

Class RecordStoreLaws (RS : RecordStore) := {
  rs_put_empty r s : SlotName r = "" → rs_put r s = None;
  rs_get_put r s s' k :
    record_ok r → rs_put r s = Some s' →
    rs_get k s' = if bool_decide (k = SlotName r) then Some (norm r) else rs_get k s;
  rs_get_delete k j s :
    rs_get j (rs_delete k s) = if bool_decide (j = k) then None else rs_get j s;
  rs_list_get s r : r ∈ rs_list s ↔ ∃ k, rs_get k s = Some r
}.

#[global] Instance storeRecords {CA : ClassAdLib} (CL : CollectionLib CA) : RecordStore := {|
  rstore := Store;
  rs_put := Put;
  rs_get := Get;
  rs_delete := Delete;
  rs_list := List_
|}.

(** [Store] keeps the promise. *)
#[global] Instance storeRecords_laws {CA : ClassAdLib} {CAL : ClassAdLaws CA}
    {CL : CollectionLib CA} {CLL : CollectionLaws CL} : RecordStoreLaws (storeRecords CL).
Proof.
  split; simpl.
  - intros r s H. unfold Put. by rewrite bool_decide_true.
  - intros r s s' k Hok. unfold Put, Get. case_bool_decide; [done|].
    destruct (collPut _ _ _) as [c|] eqn:E; [|done]. intros [= <-]. simpl.
    case_bool_decide as Hk.
    + destruct (coll_get_put_eq _ _ _ _ E) as (ad' & Hget & Heq). subst k.
      rewrite Hget. by rewrite (recordFromAd_equiv r).
    + by rewrite (coll_get_put_ne _ _ _ _ _ Hk E).
  - intros k j s. unfold Get, Delete. simpl. rewrite coll_get_delete. by case_bool_decide.
  - intros s r. unfold List_, Get. rewrite list_elem_of_fmap. split.
    + intros (ad & -> & (k & Hk)%coll_scan). exists k. by rewrite Hk.
    + intros (k & Hk). destruct (collGet k (coll s)) as [ad|] eqn:E; [|done].
      simplify_eq. exists ad. split; [done|]. apply coll_scan. by exists k.
Qed.

(** ** Histories of a store *)

Section Histories.
Context {CA : ClassAdLib} {CAL : ClassAdLaws CA} {CL : CollectionLib CA} {CLL : CollectionLaws CL}.

Inductive StoreOp := SPut (r : Record_) | SDelete (name : string).

Definition run_store (st : Store) (o : StoreOp) : Store :=
  match o with SPut r => default st (Put r st) | SDelete n => Delete n st end.

(** The abstract store: a finite map keyed by slot name that ignores a record
    without a name. *)
Definition run_spec (m : gmap string Record_) (o : StoreOp) : gmap string Record_ :=
  match o with
  | SPut r => if bool_decide (SlotName r = "") then m else <[SlotName r := norm r]> m
  | SDelete n => delete n m
  end.

Definition op_ok (o : StoreOp) : Prop :=
  match o with SPut r => record_ok r | SDelete _ => True end.

(** The engine accepts every write. *)
Hypothesis coll_accepts : ∀ k ad c, is_Some (collPut k ad c).

Lemma run_store_refines o st m k :
  op_ok o → (∀ j, Get j st = m !! j) → Get k (run_store st o) = run_spec m o !! k.
Proof.
  intros Hok Hsim. pose proof (storeRecords_laws (CL:=CL)) as L. destruct o as [r|n]; simpl.
  - case_bool_decide as Hn.
    { unfold Put. by rewrite bool_decide_true. }
    assert (is_Some (Put r st)) as [st' Hst'].
    { unfold Put. rewrite bool_decide_false by done.
      destruct (coll_accepts (SlotName r) (toAd r) (coll st)) as [c ->]. by eexists. }
    rewrite Hst'. simpl. rewrite lookup_insert.
    etransitivity; [apply (rs_get_put (RecordStoreLaws:=L) r st st' k Hok Hst')|].
    case_bool_decide; subst; [by rewrite decide_True|].
    rewrite decide_False by congruence. apply Hsim.
  - rewrite lookup_delete.
    etransitivity; [apply (rs_get_delete (RecordStoreLaws:=L) n k st)|].
    case_bool_decide; subst; [by rewrite decide_True|].
    rewrite decide_False by congruence. apply Hsim.
Qed.

End Histories.

(** ** A reference collection *)

#[global] Instance refColl : CollectionLib RefClassAd.refLib := {|
  Coll := gmap string RefClassAd.rad;
  collPut k ad c := Some (<[k := ad]> c);
  collGet k c := c !! k;
  collDelete k c := delete k c;
  collScan c := (map_to_list c).*2
|}.

#[global] Instance refCollLaws : CollectionLaws refColl.
Proof.
  split; simpl.
  - intros k ad c c' [= <-]. exists ad. by rewrite lookup_insert_eq.
  - intros k j ad c c' Hne [= <-]. by rewrite lookup_insert_ne.
  - intros k j c. case_bool_decide; subst; [apply lookup_delete_eq|by apply lookup_delete_ne].
  - intros c ad. rewrite list_elem_of_fmap. split.
    + intros ([k a] & -> & H%elem_of_map_to_list). by exists k.
    + intros (k & H). exists (k, ad). split; [done|]. by apply elem_of_map_to_list.
Qed.

Definition demoRecord : Record_ :=
  mkRecord "slot1_1@h" "<h:1>#1#1#secret" "<h:1>#1#1#..." "Claimed" "Busy" "Dynamic" "slot1@h" 1 2 512 10
    "<s:2>" "schedd" "alice" "sub" 300 1000 900 "[ Cmd = 1 ]" "s#1.0#1" 77 "/s.sock" "<h:9>" "/ex/d".

Lemma record_roundtrip_witness :
  recordFromAd (toAd demoRecord) = demoRecord.
Proof.
  apply (record_roundtrip demoRecord).
  repeat (apply Forall_cons; split; [unfold int64_range, two63; simpl; lia|]). apply Forall_nil. exact I.
Defined.

End Persist.
