(* ===== verification/Persister.v ===== *)
(** * The asynchronous persister (internal/startd/startd.go, [persister])

    Claim records reach the store off the event loop.  The event loop and the
    persister goroutine share [pending] (under a mutex) and the store; between
    taking a batch and committing its last record the goroutine holds the batch
    alone, and the loop may run in between.  The component is therefore a
    transition system whose atomic steps are the critical sections.

    Its specification is a map from slot name to the latest record: [view_put],
    [view_take] and [view_commit] are the simulation. *)

From S2P Require Import Prelude GoLang ClassAd Persist.
Import Persist.

Section Persister.
Context {RS : RecordStore}.

Record persister := mkPersister {
  pending : gmap string Record_;
  batch : list Record_;
  store : rstore
}.

(** [put]: latest record per slot. *)
Definition put (rec : Record_) (p : persister) : persister :=
  mkPersister (<[SlotName rec := rec]> (pending p)) (batch p) (store p).

(** [commit]: a failing [store.Put] is logged and leaves the store alone. *)
Definition commit (st : rstore) (rec : Record_) : rstore :=
  default st (rs_put rec st).

(** [flush] on an otherwise idle process: take everything pending, commit it.
    Go's map iteration order is unspecified; [order] is the order of this run. *)
Definition flush (order : list Record_ → list Record_) (p : persister) : persister :=
  if bool_decide (pending p = ∅) then p
  else mkPersister ∅ (batch p) (foldl commit (store p) (order (map_to_list (pending p)).*2)).

(** The atomic steps: the loop's [put] and [store.Delete], and the goroutine's
    two halves of [flush], which are internal. *)
Inductive plabel := LPut (rec : Record_) | LDelete (name : string) | LTau.

Inductive pstep : plabel → persister → persister → Prop :=
| PPut rec p : pstep (LPut rec) p (put rec p)
| PTake p b :
    batch p = [] → pending p ≠ ∅ → b ≡ₚ (map_to_list (pending p)).*2 →
    pstep LTau p (mkPersister ∅ b (store p))
| PCommit p rec rest :
    batch p = rec :: rest →
    pstep LTau p (mkPersister (pending p) rest (commit (store p) rec))
| PDelete name p :
    pstep (LDelete name) p (mkPersister (pending p) (batch p) (rs_delete name (store p))).

Inductive prun : list plabel → persister → persister → Prop :=
| prun_nil p : prun [] p p
| prun_cons l ls p p' p'' : pstep l p p' → prun ls p' p'' → prun (l :: ls) p p''.

(** What a restart would eventually find for slot [k]. *)
Definition view (p : persister) (k : string) : option Record_ :=
  match pending p !! k with
  | Some r => Some (norm r)
  | None =>
      match find_map (λ r, if bool_decide (SlotName r = k) then Some (norm r) else None) (batch p) with
      | Some r => Some r
      | None => rs_get k (store p)
      end
  end.

Definition record_wf (r : Record_) : Prop := SlotName r ≠ "" ∧ record_ok r.

(** Records are filed under their own slot, and a batch holds each slot once. *)
Definition persister_wf (p : persister) : Prop :=
  map_Forall (λ k r, SlotName r = k ∧ record_wf r) (pending p) ∧
  Forall record_wf (batch p) ∧ NoDup (SlotName <$> batch p).

Context {RSL : RecordStoreLaws RS}.
(** The store accepts well-formed records. *)
Hypothesis put_accepts : ∀ r s, record_wf r → is_Some (rs_put r s).

Lemma view_put rec p k :
  view (put rec p) k = if bool_decide (k = SlotName rec) then Some (norm rec) else view p k.
Proof.
  unfold view, put. simpl. case_bool_decide.
  - subst. by rewrite lookup_insert_eq.
  - by rewrite lookup_insert_ne.
Qed.

Lemma find_batch_perm (b : list Record_) (m : gmap string Record_) k :
  map_Forall (λ k r, SlotName r = k ∧ record_wf r) m → b ≡ₚ (map_to_list m).*2 →
  find_map (λ r, if bool_decide (SlotName r = k) then Some (norm r) else None) b = norm <$> m !! k.
Proof.
  intros Hm Hb.
  assert (∀ r, r ∈ b ↔ m !! SlotName r = Some r) as Hin.
  { intros r. rewrite Hb, list_elem_of_fmap. split.
    - intros ([j r'] & Heq & Hj%elem_of_map_to_list). simpl in Heq. subst r'.
      by destruct (Hm _ _ Hj) as [-> _].
    - intros H. exists (SlotName r, r). split; [done|]. by apply elem_of_map_to_list. }
  destruct (find_map _ b) as [x|] eqn:E.
  - apply find_map_Some in E as (r & Hr & Hx). case_bool_decide; [|done]. simplify_eq.
    apply Hin in Hr. by rewrite Hr.
  - destruct (m !! k) as [r|] eqn:Ek; [|done]. exfalso.
    destruct (Hm _ _ Ek) as [Hk _]. rewrite find_map_None in E.
    specialize (E r). rewrite bool_decide_true in E by done.
    assert (r ∈ b) as Hr by (apply Hin; by rewrite Hk). by specialize (E Hr).
Qed.

Lemma view_take p b k :
  persister_wf p → batch p = [] → b ≡ₚ (map_to_list (pending p)).*2 →
  view (mkPersister ∅ b (store p)) k = view p k.
Proof.
  intros (Hp & _) Hb Hperm. unfold view. simpl. rewrite lookup_empty, Hb. simpl.
  rewrite (find_batch_perm b (pending p)) by done. by destruct (pending p !! k).
Qed.

Lemma view_commit p rec rest k :
  persister_wf p → batch p = rec :: rest →
  view (mkPersister (pending p) rest (commit (store p) rec)) k = view p k.
Proof.
  intros (_ & Hok & Hnd) Hb. rewrite Hb in Hok, Hnd. rewrite Forall_cons in Hok.
  destruct Hok as [Hrec _]. destruct (put_accepts rec (store p) Hrec) as [s' Hs'].
  unfold view. simpl. rewrite Hb. destruct (pending p !! k); [done|]. simpl.
  unfold commit. rewrite Hs'. simpl. rewrite (rs_get_put _ _ _ _ (proj2 Hrec) Hs').
  case_bool_decide as Hk.
  - rewrite bool_decide_true by done.
    destruct (find_map _ rest) eqn:E; [|done]. exfalso.
    apply find_map_Some in E as (x & Hr & Hx). case_bool_decide; [|done].
    rewrite fmap_cons in Hnd. apply NoDup_cons in Hnd as [Hn _].
    apply Hn. rewrite list_elem_of_fmap. exists x. split; [congruence|done].
  - by rewrite (bool_decide_false (SlotName rec = k)) by congruence.
Qed.

Definition label_wf (l : plabel) : Prop :=
  match l with LPut rec => record_wf rec | LDelete _ => True | LTau => True end.

Lemma persister_wf_step l p p' :
  persister_wf p → label_wf l → pstep l p p' → persister_wf p'.
Proof.
  intros (Hp & Hb & Hn) Hl Hs. destruct Hs as [rec p|p b Hb' Hne Hperm|p rec rest Hb'|name p].
  - split; [|done]. simpl. by apply map_Forall_insert_2.
  - split; [apply map_Forall_empty|]. simpl. rewrite Hperm. split.
    + rewrite Forall_fmap. apply Forall_forall. intros [k r] Hk%elem_of_map_to_list.
      simpl. by apply (Hp k r).
    + assert (SlotName <$> (map_to_list (pending p)).*2 = (map_to_list (pending p)).*1) as ->.
      { rewrite <-list_fmap_compose. apply list_fmap_ext. intros i [k r] Hk. simpl.
        apply list_elem_of_lookup_2, elem_of_map_to_list in Hk. by destruct (Hp _ _ Hk). }
      apply NoDup_fst_map_to_list.
  - rewrite Hb' in Hb, Hn. split; [done|]. simpl. apply Forall_cons in Hb as [_ Hb].
    rewrite fmap_cons in Hn. by apply NoDup_cons in Hn as [_ Hn].
  - done.
Qed.

(** ** The specification: the last record put for each slot *)

Definition spec_step (k : string) (acc : option Record_) (l : plabel) : option Record_ :=
  match l with
  | LPut r => if bool_decide (k = SlotName r) then Some (norm r) else acc
  | LDelete name => if bool_decide (k = name) then None else acc
  | LTau => acc
  end.

(** A deletion is safe when no record of that slot is on its way to the store. *)
Definition quiet (name : string) (p : persister) : Prop :=
  pending p !! name = None ∧ Forall (λ r, SlotName r ≠ name) (batch p).

Lemma view_delete name p k :
  (k = name → quiet name p) →
  view (mkPersister (pending p) (batch p) (rs_delete name (store p))) k
  = if bool_decide (k = name) then None else view p k.
Proof.
  intros Hq. unfold view. simpl. rewrite rs_get_delete. case_bool_decide; [|done]. subst. destruct (Hq eq_refl) as [Hp Hb].
  rewrite Hp. replace (find_map _ (batch p)) with (@None Record_); [done|]. symmetry.
  apply find_map_None. intros r Hr. rewrite Forall_forall in Hb. by rewrite bool_decide_false by auto.
Qed.

Lemma pstep_view l p p' k :
  persister_wf p → pstep l p p' → (l = LDelete k → quiet k p) →
  view p' k = spec_step k (view p k) l.
Proof.
  intros Hwf Hs Hq. destruct Hs as [rec p|p b Hb Hne Hperm|p rec rest Hb|name p]; simpl.
  - apply view_put.
  - by apply view_take.
  - by apply view_commit.
  - apply view_delete. intros <-. by apply Hq.
Qed.

(** Nothing is in flight. *)
Definition idle (p : persister) : Prop := pending p = ∅ ∧ batch p = [].

Lemma prun_view ls p p' k :
  persister_wf p → Forall label_wf ls → LDelete k ∉ ls → prun ls p p' →
  view p' k = foldl (spec_step k) (view p k) ls.
Proof.
  intros Hwf Hls Hnd Hrun. induction Hrun as [p|l ls p p' p'' Hs _ IH]; [done|].
  apply Forall_cons in Hls as [Hl Hls]. simpl. rewrite IH; [|by eapply persister_wf_step|done|].
  - f_equal. apply pstep_view; [done..|]. intros ->. exfalso. apply Hnd. left.
  - intros Hin. apply Hnd. by right.
Qed.

Lemma idle_view p k : idle p → view p k = rs_get k (store p).
Proof. intros [H1 H2]. unfold view. by rewrite H1, H2, lookup_empty. Qed.

Lemma prun_idle ls p p' k :
  persister_wf p → idle p → Forall label_wf ls → LDelete k ∉ ls → prun ls p p' → idle p' →
  rs_get k (store p') = foldl (spec_step k) (rs_get k (store p)) ls.
Proof. intros Hwf Hidle Hls Hnd Hrun Hidle'. rewrite <-!idle_view by done. by apply prun_view. Qed.

(** Write coalescing is lossless.  In any interleaving of the event loop's puts and
    deletes with the persister's take and commit steps, once nothing is in flight the store
    holds for every slot that was not deleted exactly the last record put for it (the
    previous content when there was none). *)
Theorem persister_last_writer_wins ls p p' k :
  persister_wf p → idle p → Forall label_wf ls → LDelete k ∉ ls →
  prun ls p p' → idle p' →
  rs_get k (store p') = foldl (spec_step k) (rs_get k (store p)) ls.
Proof. apply prun_idle. Qed.

(** The event loop's [store.Delete] is not ordered with the records the persister
    still holds: a record put before the deletion and committed after it is back in
    the store, so a destroyed dynamic slot is re-adopted by the next startd. *)
Theorem delete_races_commit rec s :
  record_wf rec →
  ∃ p', prun [LPut rec; LDelete (SlotName rec); LTau; LTau] (mkPersister ∅ [] s) p' ∧
        idle p' ∧ rs_get (SlotName rec) (store p') = Some (norm rec).
Proof.
  intros Hr. set (n := SlotName rec).
  destruct (put_accepts rec (rs_delete n s) Hr) as [s' Hs'].
  exists (mkPersister ∅ [] s'). split; [|split; [done|]].
  - eapply prun_cons; [apply PPut|].
    eapply prun_cons; [apply (PDelete n)|]. unfold put. simpl.
    eapply prun_cons.
    { apply (PTake _ [rec]); [done|apply insert_non_empty|]. simpl.
      by rewrite insert_empty, map_to_list_singleton. }
    eapply prun_cons; [apply (PCommit _ rec []); done|]. simpl. unfold commit.
    fold n. rewrite Hs'. constructor.
  - simpl. rewrite (rs_get_put _ _ _ _ (proj2 Hr) Hs'). by rewrite bool_decide_true.
Qed.

Lemma flush_run order p :
  (∀ l, order l ≡ₚ l) → batch p = [] →
  ∃ n, prun (replicate n LTau) p (flush order p).
Proof.
  intros Hord Hb. unfold flush. case_bool_decide as He.
  { exists 0. destruct p; simpl in *. subst. constructor. }
  assert (∀ b st, prun (replicate (length b) LTau) (mkPersister ∅ b st) (mkPersister ∅ [] (foldl commit st b))) as Hc.
  { induction b as [|r b IH]; intros st; simpl; [constructor|].
    eapply prun_cons; [by eapply PCommit|]. apply IH. }
  exists (S (length (order (map_to_list (pending p)).*2))). simpl.
  eapply prun_cons; [by apply (PTake p (order (map_to_list (pending p)).*2))|].
  rewrite Hb. apply Hc.
Qed.

Lemma spec_taus k n acc : foldl (spec_step k) acc (replicate n LTau) = acc.
Proof. induction n; simpl; auto. Qed.

(** One flush of a persister with no batch in flight empties the queue and writes
    every pending record, whatever order Go's map iteration commits them in. *)
Theorem flush_commits_pending order p k :
  (∀ l, order l ≡ₚ l) → persister_wf p → batch p = [] →
  idle (flush order p) ∧
  rs_get k (store (flush order p)) =
    match pending p !! k with Some r => Some (norm r) | None => rs_get k (store p) end.
Proof.
  intros Hord Hwf Hb.
  assert (idle (flush order p)) as Hi.
  { unfold flush. case_bool_decide; done. }
  split; [done|]. destruct (flush_run order p Hord Hb) as [n Hrun].
  assert (view (flush order p) k = rs_get k (store (flush order p))) as <-.
  { destruct Hi as [H1 H2]. unfold view. by rewrite H1, H2, lookup_empty. }
  rewrite (prun_view (replicate n LTau) p _ k Hwf); [|by apply Forall_replicate| |done].
  - rewrite spec_taus. unfold view. rewrite Hb. by destruct (pending p !! k).
  - by intros [? _]%elem_of_replicate.
Qed.
End Persister.

(** ** Witnesses, on the reference store *)

Definition demoStore : Store (CL:=refColl) := mkStore (CL:=refColl) ∅ "/claims".

Lemma ref_put_accepts (r : Record_) (s : rstore (RecordStore:=storeRecords refColl)) :
  record_wf r → is_Some (rs_put r s).
Proof. intros [H _]. simpl. unfold Put. rewrite bool_decide_false by done. by eexists. Qed.

Lemma demoRecord_wf : record_wf demoRecord.
Proof.
  split; [done|].
  repeat (apply Forall_cons; split; [unfold int64_range, two63; simpl; lia|]). by apply Forall_nil.
Qed.

Lemma persister_last_writer_wins_witness :
  ∃ p', rs_get "slot1_1@h" (store (RS:=storeRecords refColl) p') = Some demoRecord.
Proof.
  set (p0 := mkPersister (RS:=storeRecords refColl) ∅ [] demoStore).
  set (p3 := mkPersister (RS:=storeRecords refColl) ∅ [] (commit (RS:=storeRecords refColl) demoStore demoRecord)).
  exists p3.
  apply (persister_last_writer_wins (RSL:=storeRecords_laws) ref_put_accepts
           [LPut demoRecord; LTau; LTau] p0 p3 "slot1_1@h").
  - split; [apply map_Forall_empty|split; [by apply Forall_nil|by apply NoDup_nil]].
  - done.
  - repeat (apply Forall_cons; split; [try apply demoRecord_wf; exact I|]). by apply Forall_nil.
  - rewrite !elem_of_cons. intros [?|[?|[?|?%elem_of_nil]]]; done.
  - eapply prun_cons; [apply PPut|]. eapply prun_cons.
    { apply (PTake _ [demoRecord]); [done|apply insert_non_empty|].
      unfold put. simpl. by rewrite insert_empty, map_to_list_singleton. }
    eapply prun_cons; [by apply (PCommit _ demoRecord [])|]. apply prun_nil.
  - done.
Defined.

Lemma delete_races_commit_witness :
  ∃ p', idle (RS:=storeRecords refColl) p' ∧
        rs_get (SlotName demoRecord) (store p') = Some (norm demoRecord).
Proof.
  destruct (delete_races_commit (RSL:=storeRecords_laws) ref_put_accepts demoRecord demoStore
              demoRecord_wf) as (p' & _ & H1 & H2).
  exists p'. done.
Defined.

Lemma flush_commits_pending_witness :
  let p := put demoRecord (mkPersister (RS:=storeRecords refColl) ∅ [] demoStore) in
  idle (flush (rev (A:=_)) p) ∧ rs_get "slot1_1@h" (store (flush (rev (A:=_)) p)) = Some demoRecord.
Proof.
  destruct (flush_commits_pending (RSL:=storeRecords_laws) ref_put_accepts (rev (A:=_))
    (put demoRecord (mkPersister (RS:=storeRecords refColl) ∅ [] demoStore)) "slot1_1@h") as [H1 H2].
  - intros l. symmetry. apply Permutation_rev.
  - split; [|split; [by apply Forall_nil|by apply NoDup_nil]].
    apply map_Forall_insert_2; [|apply map_Forall_empty]. split; [done|apply demoRecord_wf].
  - done.
  - split; [exact H1|]. etransitivity; [exact H2|]. vm_compute. reflexivity.
Defined.
