(* ===== verification/StarterMsg.v ===== *)
(** * The startd/starter control messages (internal/starter/transport.go)

    The message types and the ClassAd payloads of the control channel: what the
    startd writes with the [Marshal] functions is what the starter reads with the
    [Parse] functions. *)

From S2P Require Import Prelude GoLang ClassAd.
From Stdlib Require Import Ascii.

Local Open Scope Z_scope.

Module StarterMsg.

Definition MsgActivate : Z := 1.
Definition MsgVacateSoft : Z := 2.
Definition MsgVacateHard : Z := 3.
Definition MsgReattach : Z := 4.
Definition MsgSuspend : Z := 6.
Definition MsgContinue : Z := 7.
Definition MsgSyscallConnFollows : Z := 5.
Definition MsgHello : Z := 101.
Definition MsgUpdate : Z := 102.
Definition MsgFinal : Z := 103.
Definition MsgExited : Z := 104.

Definition MsgName (t : Z) : string :=
  if t =? MsgActivate then "Activate"
  else if t =? MsgVacateSoft then "VacateSoft"
  else if t =? MsgVacateHard then "VacateHard"
  else if t =? MsgReattach then "Reattach"
  else if t =? MsgSuspend then "Suspend"
  else if t =? MsgContinue then "Continue"
  else if t =? MsgSyscallConnFollows then "SyscallConnFollows"
  else if t =? MsgHello then "Hello"
  else if t =? MsgUpdate then "Update"
  else if t =? MsgFinal then "Final"
  else if t =? MsgExited then "Exited"
  else "unknown(" +:+ show t +:+ ")".

Definition newline : ascii := Ascii.ascii_of_N 10.

Section Codec.
Context {CA : ClassAdLib}.

Record ActivateMsg := mkActivateMsg {
  am_JobAd : option ClassAd;
  am_SlotAd : option ClassAd;
  am_SandboxDir : string;
  am_EnvOverlay : gmap string string
}.

(** The [strings.Builder] loop over the overlay map; [order] is the iteration
    order of this run. *)
Definition overlayString (order : list (string * string) → list (string * string))
    (m : gmap string string) : string :=
  foldl (λ sb kv,
    (if bool_decide (sb = "") then sb else sb +:+ String.String newline "")
    +:+ kv.1 +:+ "=" +:+ kv.2) "" (order (map_to_list m)).

Definition MarshalActivate (order : list (string * string) → list (string * string))
    (a : ActivateMsg) : ClassAd :=
  run_ops
    ([ OpSet "SandboxDir" (VString (am_SandboxDir a)) ]
     ++ (match am_JobAd a with
         | Some j => [ OpSet "JobAd" (VString (adStringWithPrivate j)) ]
         | None => []
         end)
     ++ (match am_SlotAd a with
         | Some s => [ OpSet "SlotAd" (VString (adString s)) ]
         | None => []
         end)
     ++ when (negb (bool_decide (am_EnvOverlay a = ∅)))
          [ OpSet "EnvOverlay" (VString (overlayString order (am_EnvOverlay a))) ]) adNew.

(** An embedded ad: absent, or parsed; a parse error fails the whole message. *)
Definition parseEmbedded (name : string) (ad : ClassAd) : option (option ClassAd) :=
  match EvaluateAttrString name ad with
  | Some s =>
      if bool_decide (s = "") then Some None
      else match adParse s with Some p => Some (Some p) | None => None end
  | None => Some None
  end.

Definition parseOverlay (s : string) : gmap string string :=
  foldl (λ m line,
    match Cut line "=" with
    | Some (k, v) => if bool_decide (k = "") then m else <[k := v]> m
    | None => m
    end) ∅ (Split s newline).

Definition ParseActivate (ad : ClassAd) : option ActivateMsg :=
  let sandbox := default "" (EvaluateAttrString "SandboxDir" ad) in
  match parseEmbedded "JobAd" ad with
  | None => None
  | Some jobAd =>
      match parseEmbedded "SlotAd" ad with
      | None => None
      | Some slotAd =>
          let overlay :=
            match EvaluateAttrString "EnvOverlay" ad with
            | Some s => if bool_decide (s = "") then ∅ else parseOverlay s
            | None => ∅
            end in
          Some (mkActivateMsg jobAd slotAd sandbox overlay)
      end
  end.

Record VacateSoftMsg := mkVacateSoftMsg { vs_Reason : string; vs_MaxVacateTime : Z }.

Definition MarshalVacateSoft (v : VacateSoftMsg) : ClassAd :=
  run_ops [ OpSet "Reason" (VString (vs_Reason v));
            OpSet "MaxVacateTime" (VInt (vs_MaxVacateTime v)) ] adNew.

Definition ParseVacateSoft (ad : ClassAd) : VacateSoftMsg :=
  mkVacateSoftMsg (default "" (EvaluateAttrString "Reason" ad))
    (default 0 (EvaluateAttrInt "MaxVacateTime" ad)).

Record HelloMsg := mkHelloMsg {
  h_StarterPid : Z;
  h_StarterAddr : string;
  h_ClaimID : string;
  h_JobPid : Z;
  h_Phase : string
}.

Definition MarshalHello (h : HelloMsg) : ClassAd :=
  run_ops [ OpSet "StarterPid" (VInt (h_StarterPid h));
            OpSet "StarterAddr" (VString (h_StarterAddr h));
            OpSet "PublicClaimId" (VString (h_ClaimID h));
            OpSet "JobPid" (VInt (h_JobPid h));
            OpSet "Phase" (VString (h_Phase h)) ] adNew.

Definition ParseHello (ad : ClassAd) : HelloMsg :=
  mkHelloMsg (default 0 (EvaluateAttrInt "StarterPid" ad))
    (default "" (EvaluateAttrString "StarterAddr" ad))
    (default "" (EvaluateAttrString "PublicClaimId" ad))
    (default 0 (EvaluateAttrInt "JobPid" ad))
    (default "" (EvaluateAttrString "Phase" ad)).

Definition finalStatusAttr : string := "_WaitpidStatus".
Definition finalReasonAttr : string := "_ExitReason".

(** The copy loop of [MarshalFinal]. *)
Definition copyAttrs (from : ClassAd) : list AdOp :=
  flat_map (λ name, match adLookup name from with
                    | Some e => [OpInsert name e]
                    | None => []
                    end) (GetAttributes from).

Definition MarshalFinal (finalAd : option ClassAd) (status reason : Z) : ClassAd :=
  run_ops
    ((match finalAd with Some f => copyAttrs f | None => [] end)
     ++ [ OpSet finalStatusAttr (VInt status); OpSet finalReasonAttr (VInt reason) ]) adNew.

Definition ParseFinal (ad : ClassAd) : ClassAd * Z * Z :=
  (ad, default 0 (EvaluateAttrInt finalStatusAttr ad),
   default 0 (EvaluateAttrInt finalReasonAttr ad)).
End Codec.

(** ** Round trips *)

Definition overlayLine (kv : string * string) : string := kv.1 +:+ "=" +:+ kv.2.

Lemma overlayLine_nonempty kv : overlayLine kv ≠ "".
Proof. destruct kv as [[|c k] v]; done. Qed.

(** The builder loop writes the lines joined by newlines. *)
Lemma overlay_fold l sb :
  foldl (λ sb kv,
      (if bool_decide (sb = "") then sb else sb +:+ String.String newline "")
      +:+ kv.1 +:+ "=" +:+ kv.2) sb l
  = match l with
    | [] => sb
    | _ => (if bool_decide (sb = "") then sb else sb +:+ String.String newline "")
           +:+ Join (overlayLine <$> l) (String.String newline "")
    end.
Proof.
  revert sb. induction l as [|kv l IH]; intros sb; [done|]. cbn [foldl]. rewrite IH.
  fold (overlayLine kv). set (pre := if bool_decide (sb = "") then sb else _).
  destruct l as [|kv' l]; [done|].
  assert (pre +:+ overlayLine kv ≠ "") as Hne.
  { pose proof (overlayLine_nonempty kv). destruct pre; done. }
  rewrite bool_decide_false by done. rewrite !append_assoc. done.
Qed.

(** A key that survives: non-empty, with no equals sign and no newline. *)
Definition overlay_ok (m : gmap string string) : Prop :=
  map_Forall (λ k v, k ≠ "" ∧ ¬ contains "="%char k ∧ ¬ contains newline k ∧ ¬ contains newline v) m.

Lemma parseOverlay_lines (l : list (string * string)) acc :
  Forall (λ kv, kv.1 ≠ "" ∧ ¬ contains "="%char kv.1) l →
  foldl (λ (m : gmap string string) line,
      match Cut line "=" with
      | Some (k, v) => if bool_decide (k = "") then m else <[k := v]> m
      | None => m
      end) acc (overlayLine <$> l)
  = foldl (λ m kv, <[kv.1 := kv.2]> m) acc l.
Proof.
  intros H. revert acc. induction H as [|[k v] l [Hk Hc] Hl IH]; intros acc; [done|].
  cbn [fmap list_fmap foldl]. cbn [fst] in Hk, Hc.
  change (overlayLine (k, v)) with (k +:+ String.String "="%char v). rewrite Cut_app by done.
  rewrite bool_decide_false by done. apply IH.
Qed.

Lemma overlay_roundtrip order m :
  (∀ l, order l ≡ₚ l) → overlay_ok m → m ≠ ∅ →
  overlayString order m ≠ "" ∧ parseOverlay (overlayString order m) = m.
Proof.
  intros Hord Hok Hne. unfold overlayString, parseOverlay. rewrite overlay_fold.
  pose proof (Hord (map_to_list m)) as Hperm.
  destruct (order (map_to_list m)) as [|kv l] eqn:El.
  { exfalso. apply Hne, map_to_list_empty_iff. symmetry. by apply Permutation_nil_l. }
  rewrite <-El in *. rewrite bool_decide_true by done.
  change ("" +:+ ?x) with x.
  assert (Forall (λ kv, kv.1 ≠ "" ∧ ¬ contains "="%char kv.1 ∧ ¬ contains newline kv.1 ∧ ¬ contains newline kv.2)
            (order (map_to_list m))) as HF.
  { rewrite Hperm. apply Forall_forall. intros [a b] Hin%elem_of_map_to_list. exact (Hok a b Hin). }
  split.
  - rewrite El. cbn [fmap list_fmap]. pose proof (overlayLine_nonempty kv) as Hkv.
    destruct (overlayLine kv); [done|]. by destruct (overlayLine <$> l).
  - rewrite Split_Join.
    + rewrite parseOverlay_lines by (eapply Forall_impl; [exact HF|]; intros kv' (? & ? & _); done).
      apply map_eq. intros k. rewrite foldl_insert_map.
      * rewrite lookup_empty. rewrite <-(list_to_map_to_list m) at 2.
        rewrite (list_to_map_proper (map_to_list m) (order (map_to_list m))).
        -- by destruct (_ !! k).
        -- apply NoDup_fst_map_to_list.
        -- by symmetry.
      * rewrite Hperm. apply NoDup_fst_map_to_list.
    + rewrite El. done.
    + apply Forall_fmap. eapply Forall_impl; [exact HF|]. intros [a b] (_ & _ & H1 & H2). simpl.
      unfold contains, overlayLine in *. simpl. rewrite !bytes_of_append, !elem_of_app.
      intros [?|[Hnl|?]]; [done| |done]. by apply list_elem_of_singleton in Hnl.
Qed.

Section RoundTrip.
Context {CA : ClassAdLib} {CAL : ClassAdLaws CA}.

(** An embedded ad survives: the library parses what it printed. *)
Definition embeds (print : ClassAd → string) (o : option ClassAd) : Prop :=
  match o with
  | Some ad => print ad ≠ "" ∧ adParse (print ad) = Some ad
  | None => True
  end.

Lemma parseEmbedded_print name print o ad :
  embeds print o →
  adLookup name ad = (match o with Some j => Some (Lit (VString (print j))) | None => None end) →
  parseEmbedded name ad = Some o.
Proof.
  intros He Hl. unfold parseEmbedded. destruct o as [j|].
  - rewrite (evalString_lit _ _ _ Hl). destruct He as [Hne Hp].
    rewrite bool_decide_false by done. by rewrite Hp.
  - by rewrite (evalString_absent _ _ Hl).
Qed.

(** The activation the startd marshals is the activation the starter parses:
    sandbox, job ad, slot ad and environment overlay, for every overlay whose keys
    are usable variable names and whose values are single lines, whatever order the
    overlay map is iterated in. *)
Theorem activate_roundtrip order a :
  (∀ l, order l ≡ₚ l) →
  embeds adStringWithPrivate (am_JobAd a) → embeds adString (am_SlotAd a) →
  overlay_ok (am_EnvOverlay a) →
  ParseActivate (MarshalActivate order a) = Some a.
Proof.
  intros Hord Hj Hs Ho. destruct a as [job slot sandbox env]. simpl in *.
  set (ad := MarshalActivate _ _). unfold ParseActivate.
  assert (∀ n, adLookup n ad = last_op n _) as Hl by (intros n; apply lookup_run_ops_new).
  simpl in Hl.
  rewrite (parseEmbedded_print "JobAd" adStringWithPrivate job) by
    (done || (rewrite Hl; destruct job, slot, (bool_decide (env = ∅)); reflexivity)).
  rewrite (parseEmbedded_print "SlotAd" adString slot) by
    (done || (rewrite Hl; destruct job, slot, (bool_decide (env = ∅)); reflexivity)).
  rewrite (evalString_lit "SandboxDir" sandbox ad) by
    (rewrite Hl; destruct job, slot, (bool_decide (env = ∅)); reflexivity).
  simpl. destruct (decide (env = ∅)) as [->|Hne].
  - rewrite (evalString_absent "EnvOverlay" ad) by
      (rewrite Hl; destruct job, slot; reflexivity). done.
  - destruct (overlay_roundtrip order env Hord Ho Hne) as [H1 H2].
    rewrite (evalString_lit "EnvOverlay" (overlayString order env) ad).
    + rewrite bool_decide_false by done. by rewrite H2.
    + rewrite Hl, (bool_decide_false (env = ∅)) by done. destruct job, slot; reflexivity.
Qed.

Lemma ParseFinal_MarshalFinal fad status reason :
  int64_range status → int64_range reason →
  ParseFinal (MarshalFinal fad status reason) = (MarshalFinal fad status reason, status, reason).
Proof.
  intros H1 H2. unfold ParseFinal.
  rewrite (evalInt_lit finalStatusAttr status), (evalInt_lit finalReasonAttr reason);
    first [done | unfold MarshalFinal; rewrite lookup_run_ops_new, last_op_app; reflexivity].
Qed.

(** A Hello, a VacateSoft and the outcome carried by a Final message are read
    back unchanged, and the status and reason the starter reports win over any
    attribute of the job ad with the same name. *)
Theorem control_roundtrip h v fad status reason :
  Forall int64_range [h_StarterPid h; h_JobPid h; vs_MaxVacateTime v; status; reason] →
  ParseHello (MarshalHello h) = h ∧
  ParseVacateSoft (MarshalVacateSoft v) = v ∧
  ParseFinal (MarshalFinal fad status reason) = (MarshalFinal fad status reason, status, reason).
Proof.
  rewrite !Forall_cons. intros (H1 & H2 & H3 & H4 & H5 & _). split_and!.
  - destruct h as [pid addr cid jp ph]. unfold ParseHello, MarshalHello.
    cbn [h_StarterPid h_StarterAddr h_ClaimID h_JobPid h_Phase] in *.
    rewrite (evalInt_lit "StarterPid" pid), (evalString_lit "StarterAddr" addr),
      (evalString_lit "PublicClaimId" cid), (evalInt_lit "JobPid" jp), (evalString_lit "Phase" ph);
      first [done | rewrite lookup_run_ops_new; reflexivity].
  - destruct v as [r t]. unfold ParseVacateSoft, MarshalVacateSoft.
    cbn [vs_Reason vs_MaxVacateTime] in *.
    rewrite (evalString_lit "Reason" r), (evalInt_lit "MaxVacateTime" t);
      first [done | rewrite lookup_run_ops_new; reflexivity].
  - by apply ParseFinal_MarshalFinal.
Qed.
End RoundTrip.

(** ** Witnesses *)

Definition demoActivate : ActivateMsg (CA:=RefClassAd.refLib) :=
  mkActivateMsg (CA:=RefClassAd.refLib) (Some adNew) None "/execute/dir_1_slot1_1"
    (<["A" := "1=2"]> (<["B" := ""]> ∅)).

Lemma activate_roundtrip_witness :
  ParseActivate (MarshalActivate (rev (A:=_)) demoActivate) = Some demoActivate.
Proof.
  apply activate_roundtrip.
  - intros l. symmetry. apply Permutation_rev.
  - split; [done|reflexivity].
  - exact I.
  - repeat apply map_Forall_insert_2; try apply map_Forall_empty;
      (split_and!; [done|apply (bool_decide_unpack _); vm_compute; exact I..]).
Defined.

Lemma control_roundtrip_witness :
  ParseHello (CA:=RefClassAd.refLib) (MarshalHello (mkHelloMsg 12 "<h:9>" "<h:1>#1#1#..." 34 "executing"))
  = mkHelloMsg 12 "<h:9>" "<h:1>#1#1#..." 34 "executing".
Proof.
  apply (control_roundtrip (CA:=RefClassAd.refLib) _ (mkVacateSoftMsg "preempt" 30) None 0 100).
  repeat (apply Forall_cons; split; [unfold int64_range, two63; simpl; lia|]). by apply Forall_nil.
Defined.
End StarterMsg.
