(* ===== verification/Reconnect.v ===== *)
(** * CA_CMD requests and replies (internal/reconnect/reconnect.go)

    The constants and the reply ads of the protocol; the handler on the startd is in
    Locate.v, the one on the starter in CommandServer.v. *)

From S2P Require Import Prelude GoLang ClassAd.

Module Reconnect.

Definition CACmd : Z := 1200.
Definition CmdLocateStarter : string := "CA_LOCATE_STARTER".
Definition CmdReconnectJob : string := "CA_RECONNECT_JOB".
Definition ResultSuccess : string := "Success".
Definition ResultFailure : string := "Failure".
Definition ResultNotAuthorized : string := "NotAuthorized".
Definition AttrCommand : string := "Command".
Definition AttrResult : string := "Result".
Definition AttrErrorString : string := "ErrorString".
Definition AttrClaimID : string := "ClaimId".
Definition AttrGlobalJobID : string := "GlobalJobId".
Definition AttrStarterIPAddr : string := "StarterIpAddr".
Definition AttrShadowIPAddr : string := "ShadowIpAddr".
Definition AttrTransferKey : string := "TransferKey".
Definition AttrTransferSock : string := "TransferSocket".

Record LocateResult := mkLocateResult { Found : bool; StarterAddr : string }.

(** [reconnect.LocateResult{}]. *)
Definition notLocated : LocateResult := mkLocateResult false "".

Section WithAds.
Context {CA : ClassAdLib}.

Definition SuccessReply : ClassAd := run_ops [OpSet AttrResult (VString ResultSuccess)] adNew.

Definition FailureReply (errStr : string) : ClassAd :=
  run_ops ([OpSet AttrResult (VString ResultFailure)]
           ++ when (negb (bool_decide (errStr = ""))) [OpSet AttrErrorString (VString errStr)]) adNew.

Definition NotAuthorizedReply (errStr : string) : ClassAd :=
  run_op (FailureReply errStr) (OpSet AttrResult (VString ResultNotAuthorized)).

Definition RequestCommand (ad : ClassAd) : string :=
  default "" (EvaluateAttrString AttrCommand ad).

(** The reply to a CA_LOCATE_STARTER request, from what [locate] said. *)
Definition locateReply (res : LocateResult) : ClassAd :=
  if negb (Found res) || bool_decide (StarterAddr res = "") then FailureReply "no starter for this claim"
  else run_op SuccessReply (OpSet AttrStarterIPAddr (VString (StarterAddr res))).
End WithAds.

Section Facts.
Context {CA : ClassAdLib} {CAL : ClassAdLaws CA}.

Lemma FailureReply_no_addr e : adLookup AttrStarterIPAddr (FailureReply e) = None.
Proof.
  unfold FailureReply. rewrite lookup_run_ops_new. destruct (bool_decide (e = "")); reflexivity.
Qed.

Lemma FailureReply_result e : adLookup AttrResult (FailureReply e) = Some (Lit (VString ResultFailure)).
Proof.
  unfold FailureReply. rewrite lookup_run_ops_new. destruct (bool_decide (e = "")); reflexivity.
Qed.

Lemma FailureReply_reads e :
  EvaluateAttrString AttrResult (FailureReply e) = Some ResultFailure ∧
  EvaluateAttrString AttrStarterIPAddr (FailureReply e) = None.
Proof. split; [apply evalString_lit, FailureReply_result|apply evalString_absent, FailureReply_no_addr]. Qed.

(** The reply says Success and carries the address exactly when there is one. *)
Lemma locateReply_reads res :
  if Found res && negb (bool_decide (StarterAddr res = ""))
  then EvaluateAttrString AttrResult (locateReply res) = Some ResultSuccess ∧
       EvaluateAttrString AttrStarterIPAddr (locateReply res) = Some (StarterAddr res)
  else EvaluateAttrString AttrResult (locateReply res) = Some ResultFailure ∧
       EvaluateAttrString AttrStarterIPAddr (locateReply res) = None.
Proof.
  unfold locateReply. destruct (Found res), (bool_decide (StarterAddr res = "")); cbn [andb orb negb]; try apply FailureReply_reads.
  split; apply evalString_lit; cbn [run_op]; rewrite ad_lookup_set; ad_simpl; [|done].
  unfold SuccessReply. by rewrite lookup_run_ops_new.
Qed.
End Facts.
End Reconnect.
