(* ===== verification/Args.v ===== *)
(** * Arguments and environment of a job (internal/starter/args.go)

    [splitV2Raw] is the tokenizer of HTCondor's V2 raw syntax.  [v2join] writes a
    list of strings in that syntax; splitting is its inverse. *)

From S2P Require Import Prelude GoLang ClassAd.
From Stdlib Require Import Ascii.

Local Open Scope Z_scope.
Local Open Scope ep_scope.

Module Args.

Definition squote : ascii := "'".
Definition dquote : ascii := ascii_of_nat 34.
Definition backslash : ascii := "\".

Definition v2space (ch : ascii) : bool :=
  let v := byte_val ch in (v =? 32) || (v =? 9) || (v =? 10) || (v =? 13).

(** The loop, with its variables: [cur] is the builder, newest byte first. *)
Fixpoint splitV2Raw_go (out : list string) (cur : list ascii) (inQuote tokenStarted : bool)
    (s : list ascii) : list string :=
  match s with
  | [] => if tokenStarted || negb (bool_decide (cur = [])) then out ++ [of_bytes (rev cur)] else out
  | ch :: s1 =>
      let default_ := splitV2Raw_go out (ch :: cur) inQuote true s1 in
      let quoted := splitV2Raw_go out cur (negb inQuote) true s1 in
      if inQuote && bool_decide (ch = squote) then
        match s1 with
        | d :: s2 => if bool_decide (d = squote)
                     then splitV2Raw_go out (squote :: cur) inQuote tokenStarted s2 else quoted
        | [] => quoted
        end
      else if bool_decide (ch = squote) then quoted
      else if negb inQuote && v2space ch then
        if tokenStarted || negb (bool_decide (cur = []))
        then splitV2Raw_go (out ++ [of_bytes (rev cur)]) [] inQuote false s1
        else splitV2Raw_go out cur inQuote tokenStarted s1
      else default_
  end.

Definition splitV2Raw (s : string) : list string := splitV2Raw_go [] [] false false (bytes_of s).

(** [strings.ReplaceAll(v, `\"`, `"`)]. *)
Fixpoint unescape (l : list ascii) : list ascii :=
  match l with
  | [] => []
  | c :: r1 =>
      match r1 with
      | d :: r2 => if bool_decide (c = backslash) && bool_decide (d = dquote) then dquote :: unescape r2
                   else c :: unescape r1
      | [] => [c]
      end
  end.

(** [strings.FieldsFunc] with an ASCII separator test. *)
Fixpoint fieldsFunc_go (sep : ascii → bool) (cur : list ascii) (l : list ascii) : list string :=
  match l with
  | [] => if bool_decide (cur = []) then [] else [of_bytes (rev cur)]
  | c :: r =>
      if sep c then
        if bool_decide (cur = []) then fieldsFunc_go sep [] r
        else of_bytes (rev cur) :: fieldsFunc_go sep [] r
      else fieldsFunc_go sep (c :: cur) r
  end.

Definition FieldsFunc (s : string) (sep : ascii → bool) : list string := fieldsFunc_go sep [] (bytes_of s).

Definition v1delim (c : ascii) : bool := bool_decide (c = ";"%char) || bool_decide (c = "|"%char).

Section Job.
Context {CA : ClassAdLib}.

(** The attribute's string, when it is there and not blank. *)
Definition nonblank (name : string) (ad : ClassAd) : option string :=
  match EvaluateAttrString name ad with
  | Some v => if bool_decide (TrimSpace v = "") then None else Some v
  | None => None
  end.

Definition jobArgs (jobAd : ClassAd) : list string :=
  match nonblank "Arguments" jobAd with
  | Some v => splitV2Raw v
  | None =>
      match nonblank "Args" jobAd with
      | Some v => Fields (of_bytes (unescape (bytes_of v)))
      | None => []
      end
  end.

Definition jobEnv (jobAd : ClassAd) : list string :=
  match nonblank "Environment" jobAd with
  | Some v => splitV2Raw v
  | None =>
      match nonblank "Env" jobAd with
      | Some v => omap (λ tok, let tok := TrimSpace tok in
                               if bool_decide (tok = "") then None else Some tok)
                    (FieldsFunc v v1delim)
      | None => []
      end
  end.
End Job.

(** ** The syntax *)

(** A byte that has to be protected. *)
Definition special (c : ascii) : bool := v2space c || bool_decide (c = squote).

Definition double (l : list ascii) : list ascii :=
  l ≫= λ c, if bool_decide (c = squote) then [squote; squote] else [c].

Definition quote_always (a : list ascii) : list ascii := squote :: double a ++ [squote].

Definition v2quote (a : list ascii) : list ascii :=
  if bool_decide (a = []) || existsb special a then quote_always a else a.

Fixpoint v2join_bytes (args : list (list ascii)) : list ascii :=
  match args with
  | [] => []
  | [a] => v2quote a
  | a :: r => v2quote a ++ " "%char :: v2join_bytes r
  end.

Definition v2join (args : list string) : string := of_bytes (v2join_bytes (bytes_of <$> args)).

(** ** The loop on each part of the syntax *)

Lemma go_plain out cur started a s :
  forallb (λ c, negb (special c)) a = true → a ≠ [] →
  splitV2Raw_go out cur false started (a ++ s) = splitV2Raw_go out (rev a ++ cur) false true s.
Proof.
  revert cur started. induction a as [|c a IH]; intros cur started Ha Hne; [done|].
  cbn [forallb] in Ha. apply andb_true_iff in Ha as [Hc Ha]. unfold special in Hc.
  apply negb_true_iff, orb_false_iff in Hc as [Hsp Hq]. cbn [app splitV2Raw_go].
  rewrite Hq, Hsp. cbn [andb negb]. destruct a as [|d a]; [done|].
  rewrite IH by done. f_equal. change (rev (c :: d :: a)) with (rev (d :: a) ++ [c]). by rewrite <-app_assoc.
Qed.

(** Inside quotes, up to the closing quote. *)
Lemma go_quoted out cur a s :
  match s with [] => True | c :: _ => c ≠ squote end →
  splitV2Raw_go out cur true true (double a ++ squote :: s) = splitV2Raw_go out (rev a ++ cur) false true s.
Proof.
  intros Hs. revert cur. induction a as [|c a IH]; intros cur.
  - cbn [double app mbind list_bind rev splitV2Raw_go andb].
    rewrite bool_decide_true by done. destruct s as [|d s]; [done|].
    by rewrite bool_decide_false.
  - unfold double. cbn [mbind list_bind]. fold (double a). case_bool_decide as Hc.
    + subst c. cbn [app splitV2Raw_go andb]. rewrite !bool_decide_true by done.
      change (squote :: cur) with ([squote] ++ cur). rewrite IH. f_equal. cbn [rev]. by rewrite <-app_assoc.
    + cbn [app splitV2Raw_go andb negb]. rewrite bool_decide_false by done.
      rewrite IH. f_equal. cbn [rev]. by rewrite <-app_assoc.
Qed.

Lemma go_token out a s :
  match s with [] => True | c :: _ => c ≠ squote end →
  splitV2Raw_go out [] false false (v2quote a ++ s) = splitV2Raw_go out (rev a) false true s.
Proof.
  intros Hs. unfold v2quote. destruct (bool_decide (a = []) || existsb special a) eqn:E.
  - unfold quote_always. cbn [app splitV2Raw_go andb negb]. rewrite bool_decide_true by done.
    rewrite <-app_assoc. cbn [app]. rewrite go_quoted by done. by rewrite app_nil_r.
  - apply orb_false_iff in E as [Hne Hsp]. apply bool_decide_eq_false in Hne.
    rewrite go_plain; [by rewrite app_nil_r| |done].
    apply forallb_forall. intros c Hc. destruct (special c) eqn:Ec; [|done].
    assert (existsb special a = true); [apply existsb_exists; eauto|congruence].
Qed.

Lemma go_join out args :
  splitV2Raw_go out [] false false (v2join_bytes args) = out ++ (of_bytes <$> args).
Proof.
  revert out. induction args as [|a args IH]; intros out; [cbn; by rewrite app_nil_r|].
  assert (∀ o cur, splitV2Raw_go o cur false true [] = o ++ [of_bytes (rev cur)]) as Hend by done.
  destruct args as [|b args].
  - cbn [v2join_bytes]. rewrite <-(app_nil_r (v2quote a)), go_token by done.
    by rewrite Hend, rev_involutive.
  - change (v2join_bytes (a :: b :: args)) with (v2quote a ++ " "%char :: v2join_bytes (b :: args)).
    rewrite go_token by done.
    change (splitV2Raw_go out (rev a) false true (" "%char :: v2join_bytes (b :: args)))
      with (splitV2Raw_go (out ++ [of_bytes (rev (rev a))]) [] false false (v2join_bytes (b :: args))).
    rewrite IH, rev_involutive, <-app_assoc. done.
Qed.

Lemma split_join args : splitV2Raw (v2join args) = args.
Proof.
  unfold splitV2Raw, v2join. rewrite bytes_of_of_bytes, go_join. cbn [app].
  rewrite <-list_fmap_compose. rewrite <-(list_fmap_id args) at 2. apply list_fmap_ext.
  intros i x _. apply of_bytes_bytes_of.
Qed.

(** The tokenizer inverts the V2 raw syntax.  Any list of strings, whatever bytes
    they hold (spaces, quotes, nothing at all), written with single quotes around what
    needs them and quotes doubled, is read back as it was. *)
Theorem splitV2Raw_v2join args : splitV2Raw (v2join args) = args.
Proof. apply split_join. Qed.

(** The starter runs the job with the arguments and the environment that were
    submitted.  When the V2 attributes are there and not blank, they are what counts,
    whatever the V1 attributes say; without them the V1 arguments are split at white
    space. *)
Lemma job_argv_env {CA : ClassAdLib} {CL : ClassAdLaws CA} args env v1 ad :
  adLookup "Arguments" ad = (Lit ∘ VString ∘ v2join) <$> args →
  adLookup "Args" ad = Some (Lit (VString v1)) →
  adLookup "Environment" ad = Some (Lit (VString (v2join env))) →
  TrimSpace (v2join env) ≠ "" → TrimSpace v1 ≠ "" → (∀ l, args = Some l → TrimSpace (v2join l) ≠ "") →
  jobArgs ad = match args with Some l => l | None => Fields (of_bytes (unescape (bytes_of v1))) end ∧
  jobEnv ad = env.
Proof.
  intros Ha H1 He Hne Hn1 Hna. unfold jobArgs, jobEnv, nonblank.
  rewrite (evalString_lit "Environment" (v2join env)), bool_decide_false, split_join by done.
  split; [|done]. destruct args as [l|]; cbn in Ha.
  - rewrite (evalString_lit "Arguments" (v2join l)), bool_decide_false by auto. apply split_join.
  - rewrite (evalString_absent "Arguments"), (evalString_lit "Args" v1), bool_decide_false by done. done.
Qed.

Definition demoArgs : list string := ["run"; ""; "it's here"; "a  b"].

Lemma demoArgs_wire : v2join demoArgs = "run '' 'it''s here' 'a  b'".
Proof. vm_compute. reflexivity. Qed.
End Args.
