(* ===== verification/AdWire.v ===== *)
(** * Reading a ClassAd off the wire (internal/adwire/adwire.go)

    [GetClassAd] reads the putClassAd form: a count, that many lines (a private
    attribute is a marker line and then its line, counted once) and two trailing
    strings.  The message is cedar's: a state that [GetInt] and [GetString] advance. *)

From S2P Require Import Prelude GoLang ClassAd.
From Stdlib Require Import Ascii.

Local Open Scope Z_scope.
Local Open Scope ep_scope.

Class MessageLib := {
  Message : Type;
  GetInt : Message → option Z * Message;
  GetString : Message → option string * Message
}.

Module AdWire.

Definition SecretMarker : string := "ZKM".

(** Why no ad is returned. *)
Inductive readError :=
| ErrCount
| ErrRange (n : Z)
| ErrExpr (i : Z)
| ErrSecret (i : Z).

Section Read.
Context {CA : ClassAdLib} {ML : MessageLib}.

(** [None] is the error. *)
Definition insertLongForm (ad : ClassAd) (line : string) : option ClassAd :=
  match Cut line "=" with
  | None => None
  | Some (l, r) =>
      let name := TrimSpace l in
      let val := TrimSpace r in
      if bool_decide (name = "") then None
      else match ParseExpr val with Some e => Some (adInsertExpr name e ad) | None => None end
  end.

Definition firstToken (line : string) : string :=
  match Cut line "=" with
  | Some (l, _) => TrimSpace l
  | None => if (16 <? String.length line)%nat then String.substring 0 16 line else line
  end.

(** The loop from iteration [i]; the list is the calls of [skip]. *)
Fixpoint readExprs (fuel : nat) (i : Z) (ad : ClassAd) (skipped : list string) (m : Message)
    : (readError + ClassAd * list string) * Message :=
  match fuel with
  | O => (inr (ad, skipped), m)
  | S fuel =>
      match GetString m with
      | (None, m) => (inl (ErrExpr i), m)
      | (Some line, m) =>
          let '(r, m) := if bool_decide (line = SecretMarker) then GetString m else (Some line, m) in
          match r with
          | None => (inl (ErrSecret i), m)
          | Some line =>
              if bool_decide (TrimSpace line = "") then readExprs fuel (i + 1) ad skipped m
              else match insertLongForm ad line with
                   | Some ad => readExprs fuel (i + 1) ad skipped m
                   | None => readExprs fuel (i + 1) ad (skipped ++ [firstToken line]) m
                   end
          end
      end
  end.

(** The count bounds the loop. *)
Definition GetClassAd (m : Message) : (readError + ClassAd * list string) * Message :=
  match GetInt m with
  | (None, m) => (inl ErrCount, m)
  | (Some numExprs, m) =>
      if (numExprs <? 0) || (1000000 <? numExprs) then (inl (ErrRange numExprs), m)
      else match readExprs (Z.to_nat numExprs) 0 adNew [] m with
           | (inl e, m) => (inl e, m)
           | (inr r, m) =>
               let '(_, m) := GetString m in
               let '(_, m) := GetString m in
               (inr r, m)
           end
  end.

(** ** The wire form *)

Record attr := mkAttr { private : bool; name : string; value : string }.

Definition lineOf (a : attr) : string := name a +:+ " = " +:+ value a.

(** The strings an attribute is sent as. *)
Definition wireOf (a : attr) : list string := if private a then [SecretMarker; lineOf a] else [lineOf a].

(** Reading [m] gives the strings [ls] and then [m']. *)
Fixpoint delivers (ls : list string) (m m' : Message) : Prop :=
  match ls with
  | [] => m = m'
  | l :: ls => ∃ m1, GetString m = (Some l, m1) ∧ delivers ls m1 m'
  end.

Definition insertAttr (ad : ClassAd) (a : attr) : ClassAd :=
  match ParseExpr (value a) with Some e => adInsertExpr (name a) e ad | None => ad end.

Definition unparsed (a : attr) : option string :=
  match ParseExpr (value a) with Some _ => None | None => Some (name a) end.

(** A visible ASCII byte. *)
Definition graph (c : ascii) : bool := (33 <=? byte_val c) && (byte_val c <=? 126).

(** Starts and ends with one. *)
Definition tidy (s : string) : Prop :=
  ∃ c r, bytes_of s = c :: r ∧ graph c = true ∧ ∃ d q, bytes_of s = q ++ [d] ∧ graph d = true.

Definition wire_attr (a : attr) : Prop := tidy (name a) ∧ tidy (value a) ∧ "="%char ∉ bytes_of (name a).

Lemma graph_space1 c : graph c = true → space1 c = false.
Proof. unfold graph, space1. intros H. breflect. lia. Qed.

Lemma trim_front_graph c r : graph c = true → trim_front space1 space2 space3 (c :: r) = c :: r.
Proof.
  intros H. cbn [trim_front]. rewrite (graph_space1 c H). destruct r as [|d r]; [done|].
  assert (space2 c d = false) as -> by (unfold graph, space2 in *; breflect; lia).
  destruct r as [|e r]; [done|].
  assert (space3 c d e = false) as ->; [|done]. unfold graph, space3 in *. breflect; lia.
Qed.

Lemma trim_back_graph c r :
  graph c = true → trim_front space1 (flip space2) (λ e d c, space3 c d e) (c :: r) = c :: r.
Proof.
  intros H. cbn [trim_front]. rewrite (graph_space1 c H). destruct r as [|d r]; [done|].
  assert (flip space2 c d = false) as -> by (unfold graph, flip, space2 in *; breflect; lia).
  destruct r as [|e r]; [done|].
  assert (space3 e d c = false) as ->; [|done]. unfold graph, space3 in *. breflect; lia.
Qed.

(** Padding with spaces is trimmed. *)
Lemma TrimSpace_pad (x y : bool) s :
  tidy s → TrimSpace ((if x then " " else "") +:+ s +:+ (if y then " " else "")) = s.
Proof.
  intros (c & r & Hs & Hc & d & q & Hq & Hd). unfold TrimSpace. rewrite !bytes_of_append.
  assert (trim_front space1 space2 space3
            (bytes_of (if x then " " else "") ++ bytes_of s ++ bytes_of (if y then " " else ""))
          = bytes_of s ++ bytes_of (if y then " " else "")) as ->.
  { rewrite Hs. destruct x; [|by apply trim_front_graph].
    change (bytes_of " ") with [" "%char] at 1. cbn [app].
    change (trim_front space1 space2 space3 (" "%char :: ?l)) with (trim_front space1 space2 space3 l).
    by apply trim_front_graph. }
  rewrite rev_app_distr, Hq, rev_app_distr.
  assert (trim_front space1 (flip space2) (λ e d c, space3 c d e)
            (rev (bytes_of (if y then " " else "")) ++ rev [d] ++ rev q) = d :: rev q) as ->.
  { destruct y; [|by apply trim_back_graph].
    transitivity (trim_front space1 (flip space2) (λ e d c, space3 c d e) (d :: rev q)); [done|].
    by apply trim_back_graph. }
  cbn [rev]. rewrite rev_involutive, <-Hq. apply of_bytes_bytes_of.
Qed.

Lemma tidy_nonempty s : tidy s → s ≠ "".
Proof. intros (c & r & Hs & _) ->. done. Qed.

Lemma tidy_line a : wire_attr a → tidy (lineOf a).
Proof.
  intros ((c & r & Hn & Hc & _) & (_ & _ & _ & _ & d & q & Hv & Hd) & _). unfold lineOf, tidy.
  rewrite !bytes_of_append, Hn. eexists c, _. split; [reflexivity|]. split; [done|].
  rewrite Hv. exists d, ((c :: r) ++ bytes_of " = " ++ q). split; [|done]. by rewrite <-!app_assoc.
Qed.

Lemma Cut_line a : wire_attr a → Cut (lineOf a) "=" = Some (name a +:+ " ", " " +:+ value a).
Proof.
  intros (_ & _ & Hn).
  assert (lineOf a = (name a +:+ " ") +:+ String.String "=" (" " +:+ value a)) as -> by (by rewrite append_assoc).
  apply Cut_app. unfold contains. rewrite bytes_of_append, elem_of_app.
  change (bytes_of " ") with [" "%char]. rewrite list_elem_of_singleton. by intros [?|?].
Qed.

Lemma append_nil_r (s : string) : s +:+ "" = s.
Proof. rewrite <-(of_bytes_bytes_of (s +:+ "")), bytes_of_append, app_nil_r. apply of_bytes_bytes_of. Qed.

Lemma insertLongForm_line ad a :
  wire_attr a →
  insertLongForm ad (lineOf a) = match ParseExpr (value a) with Some e => Some (adInsertExpr (name a) e ad) | None => None end.
Proof.
  intros Ha. unfold insertLongForm. rewrite (Cut_line a Ha). destruct Ha as (Hn & Hv & _).
  assert (TrimSpace (name a +:+ " ") = name a) as -> by exact (TrimSpace_pad false true (name a) Hn).
  assert (TrimSpace (" " +:+ value a) = value a) as ->.
  { rewrite <-(TrimSpace_pad true false (value a) Hv) at 2. f_equal. f_equal. by rewrite append_nil_r. }
  by rewrite (bool_decide_false _ (tidy_nonempty _ Hn)).
Qed.

Lemma lineOf_not_marker a : lineOf a ≠ SecretMarker.
Proof.
  intros H.
  apply (bool_decide_unpack (¬ ("="%char ∈ bytes_of SecretMarker))); [vm_compute; exact I|].
  rewrite <-H. unfold lineOf. rewrite !bytes_of_append, !elem_of_app. right. left. right. left.
Qed.

Lemma delivers_app ls ks m m' :
  delivers (ls ++ ks) m m' ↔ ∃ m1, delivers ls m m1 ∧ delivers ks m1 m'.
Proof.
  revert m. induction ls as [|l ls IH]; intros m; cbn.
  - split; [eauto|]. by intros (m1 & -> & ?).
  - setoid_rewrite IH. split.
    + intros (m1 & H1 & m2 & H2 & H3). eauto.
    + intros (m2 & (m1 & H1 & H2) & H3). eauto.
Qed.

(** One line, once the marker was dealt with. *)
Lemma readExprs_line fuel i ad sk a m :
  wire_attr a →
  (if bool_decide (TrimSpace (lineOf a) = "") then readExprs fuel i ad sk m
   else match insertLongForm ad (lineOf a) with
        | Some ad => readExprs fuel i ad sk m
        | None => readExprs fuel i ad (sk ++ [firstToken (lineOf a)]) m
        end)
  = readExprs fuel i (insertAttr ad a) (sk ++ option_list (unparsed a)) m.
Proof.
  intros Ha. pose proof (TrimSpace_pad false false _ (tidy_line a Ha)) as Ht.
  rewrite append_nil_r in Ht. change ("" +:+ lineOf a) with (lineOf a) in Ht.
  rewrite bool_decide_false by (rewrite Ht; by apply tidy_nonempty, tidy_line).
  rewrite insertLongForm_line by done. unfold insertAttr, unparsed, firstToken. rewrite (Cut_line a Ha).
  destruct (ParseExpr (value a)); cbn [option_list]; [by rewrite app_nil_r|].
  by rewrite (TrimSpace_pad false true (name a) (proj1 Ha) : TrimSpace (name a +:+ " ") = name a).
Qed.

Lemma readExprs_attrs attrs i ad sk m m' :
  Forall wire_attr attrs → delivers (attrs ≫= wireOf) m m' →
  readExprs (length attrs) i ad sk m = (inr (foldl insertAttr ad attrs, sk ++ omap unparsed attrs), m').
Proof.
  intros Hf. revert i ad sk m. induction Hf as [|a attrs Ha _ IH]; intros i ad sk m Hd.
  { cbn in *. subst. by rewrite app_nil_r. }
  change ((a :: attrs) ≫= wireOf) with (wireOf a ++ (attrs ≫= wireOf)) in Hd.
  apply delivers_app in Hd as (m1 & H1 & H2). cbn [length readExprs].
  assert (sk ++ omap unparsed (a :: attrs) = (sk ++ option_list (unparsed a)) ++ omap unparsed attrs) as ->.
  { rewrite <-app_assoc. f_equal. cbn. by destruct (unparsed a). }
  cbn [foldl]. rewrite <-(IH (i + 1) _ _ m1 H2). unfold wireOf in H1. destruct (private a); cbn in H1.
  - destruct H1 as (m2 & -> & m3 & H3 & <-). rewrite bool_decide_true by done. rewrite H3.
    by apply readExprs_line.
  - destruct H1 as (m2 & -> & <-). rewrite bool_decide_false by apply lineOf_not_marker.
    by apply readExprs_line.
Qed.

(** C37: the reader understands the wire form, secrets included.  A message that holds
    a count, the attributes (a private one as a marker and its line, counted once)
    and the two trailing strings is read to its end: the ad has every attribute whose
    expression parses, inserted in order, and the names of the others are reported
    without their values. *)
Theorem GetClassAd_reads_wire attrs t1 t2 m m1 m2 :
  Forall wire_attr attrs → Z.of_nat (length attrs) ≤ 1000000 →
  GetInt m = (Some (Z.of_nat (length attrs)), m1) → delivers ((attrs ≫= wireOf) ++ [t1; t2]) m1 m2 →
  GetClassAd m = (inr (foldl insertAttr adNew attrs, omap unparsed attrs), m2).
Proof.
  intros Hf Hlen Hi Hd. unfold GetClassAd. rewrite Hi.
  destruct ((_ <? 0) || _) eqn:E; [lia|].
  apply delivers_app in Hd as (m3 & H1 & m4 & H2 & m5 & H3 & <-).
  rewrite Nat2Z.id, (readExprs_attrs attrs 0 adNew [] m1 m3 Hf H1). by rewrite H2, H3.
Qed.

(** A count outside the accepted range is refused before anything else is read. *)
Lemma GetClassAd_bad_count n m m1 :
  GetInt m = (Some n, m1) → n < 0 ∨ 1000000 < n → GetClassAd m = (inl (ErrRange n), m1).
Proof. intros Hi Hn. unfold GetClassAd. rewrite Hi. destruct ((n <? 0) || _) eqn:E; [done|lia]. Qed.
End Read.
End AdWire.

(** ** A message as a list of items *)

Module RefMessage.
#[global] Instance refMessage : MessageLib := {|
  Message := list (Z + string);
  GetInt m := match m with inl z :: r => (Some z, r) | _ => (None, m) end;
  GetString m := match m with inr s :: r => (Some s, r) | _ => (None, m) end
|}.
End RefMessage.

Import AdWire RefClassAd RefMessage.

Definition demoAttrs : list attr :=
  [mkAttr false "Cpus" "1"; mkAttr true "ClaimId" "secret"; mkAttr false "Foo" "Bar == 3"].

Definition demoWire : Message :=
  [inr "Cpus = 1"; inr "ZKM"; inr "ClaimId = secret"; inr "Foo = Bar == 3"; inr "Job"; inr ""] : list (Z + string).

Lemma GetClassAd_reads_wire_witness :
  GetClassAd (CA := refLib) ((inl 3 :: demoWire) : list (Z + string))
  = (inr (foldl insertAttr adNew demoAttrs, omap unparsed demoAttrs), [] : list (Z + string)).
Proof.
  apply (GetClassAd_reads_wire demoAttrs "Job" "" _
           demoWire).
  - repeat constructor; try (eexists _, _; split; [reflexivity|]; split; [reflexivity|]);
      try (apply (bool_decide_unpack _); vm_compute; exact I).
    + exists "s"%char, ["C"%char; "p"%char; "u"%char]. done.
    + exists "1"%char, []. done.
    + exists "d"%char, (bytes_of "ClaimI"). done.
    + exists "t"%char, (bytes_of "secre"). done.
    + exists "o"%char, (bytes_of "Fo"). done.
    + exists "3"%char, (bytes_of "Bar == "). done.
  - vm_compute. discriminate.
  - reflexivity.
  - cbn. repeat (eexists; split; [reflexivity|]). reflexivity.
Defined.
