(* ===== verification/Framing.v ===== *)
(** * Control messages on a stream (WriteMessage, ReadMessage, drainMessage of transport.go)

    A stream is a sequence of messages.  Writing makes one, with a type and an ad;
    reading takes the next one, decodes both and reads on to its end, so that whatever
    it holds the next read starts at the next message. *)

From S2P Require Import Prelude GoLang ClassAd AdWire StarterMsg.
From Equations Require Import Equations.

Local Open Scope Z_scope.

(** cedar's message as far as this file uses it: the reader of a public ad, the reader of
    one byte (a byte, the end of the message, or another error), and how much is left;
    and the writers, each of which may fail, and the finished message. *)
Inductive byteRead := ByteOK | ByteEOF | ByteErr (e : string).

Class ControlLib {CA : ClassAdLib} (ML : MessageLib) := {
  GetClassAd : Message → option ClassAd * Message;
  GetByte : Message → byteRead * Message;
  left_ : Message → nat;
  encode : Z → ClassAd → Message;
  (** What [PutClassAd] sends of an ad: all but its private attributes. *)
  public : ClassAd → ClassAd
}.

(** Reading a byte uses it up; what is written is read back, with nothing after it. *)
Class ControlLaws {CA : ClassAdLib} {ML : MessageLib} (CL : ControlLib ML) := {
  GetByte_left m m' : GetByte m = (ByteOK, m') → (left_ m' < left_ m)%nat;
  GetInt_encode t ad : int64_range t → ∃ m, GetInt (encode t ad) = (Some t, m) ∧
    ∃ m', GetClassAd m = (Some (public ad), m') ∧ (GetByte m').1 = ByteEOF
}.

Module Framing.
Section Framing.
Context {CA : ClassAdLib} {ML : MessageLib} {CL : ControlLib ML} {laws : ControlLaws CL}.

Definition inspect {A} (a : A) : {b | a = b} := exist _ a eq_refl.

(** The error of [drainMessage]; none when it found the end. *)
Equations? drainMessage (m : Message) : option string by wf (left_ m) lt :=
  drainMessage m with inspect (GetByte m) => {
    | exist _ (ByteOK, m') E => drainMessage m'
    | exist _ (ByteEOF, _) _ => None
    | exist _ (ByteErr e, _) _ => Some ("starter: draining control msg: " +:+ e)
  }.
Proof. by apply GetByte_left. Qed.

Lemma drain_unfold m :
  drainMessage m =
    match GetByte m with
    | (ByteOK, m') => drainMessage m'
    | (ByteEOF, _) => None
    | (ByteErr e, _) => Some ("starter: draining control msg: " +:+ e)
    end.
Proof.
  transitivity (match proj1_sig (inspect (GetByte m)) with
                | (ByteOK, m') => drainMessage m'
                | (ByteEOF, _) => None
                | (ByteErr e, _) => Some ("starter: draining control msg: " +:+ e)
                end); [|done].
  simp drainMessage. by destruct (inspect (GetByte m)) as [[[] m'] E].
Qed.

(** [n] bytes read. *)
Fixpoint readBytes (n : nat) (m : Message) : option Message :=
  match n with
  | O => Some m
  | S n => match GetByte m with (ByteOK, m') => readBytes n m' | _ => None end
  end.


(** ** Messages *)

(** [WriteMessage], with the outcome of its three writes; the message that is then on
    the stream. *)
Definition WriteMessage (putInt putAd finish : option string) (msgType : Z) (ad : option ClassAd) : string + Message :=
  let ad := default adNew ad in
  match putInt with
  | Some e => inl ("starter: writing control msg type " +:+ StarterMsg.MsgName msgType +:+ ": " +:+ e)
  | None =>
      match putAd with
      | Some e => inl ("starter: writing control msg " +:+ StarterMsg.MsgName msgType +:+ " ad: " +:+ e)
      | None => match finish with Some e => inl e | None => inr (encode msgType ad) end
      end
  end.

(** [ReadMessage] on the next message; the texts of library errors are left out. *)
Definition ReadMessage (m : Message) : string + (Z * ClassAd) :=
  match GetInt m with
  | (None, _) => inl "starter: reading control msg type"
  | (Some msgType, m) =>
      match GetClassAd m with
      | (None, _) => inl ("starter: reading control msg " +:+ StarterMsg.MsgName msgType +:+ " ad")
      | (Some ad, m) => match drainMessage m with Some e => inl e | None => inr (msgType, ad) end
      end
  end.

(** One end writes messages; the other reads until one cannot be read. *)
Definition writeAll (msgs : list (Z * option ClassAd)) : list Message :=
  omap (λ m, match WriteMessage None None None m.1 m.2 with inr x => Some x | inl _ => None end) msgs.

Fixpoint readAll (st : list Message) : list (Z * ClassAd) :=
  match st with
  | [] => []
  | m :: st => match ReadMessage m with inr r => r :: readAll st | inl _ => [] end
  end.

Lemma read_written t ad : int64_range t → ReadMessage (encode t ad) = inr (t, public ad).
Proof.
  intros Ht. destruct (GetInt_encode t ad Ht) as (m & E1 & m' & E2 & E3). unfold ReadMessage. rewrite E1, E2.
  rewrite drain_unfold. destruct (GetByte m') as [b m'']. cbn in E3. by subst.
Qed.

(** A control channel delivers what was sent.  Any sequence of messages written on a
    stream is read back message by message: the same types in the same order, each with
    the public part of its ad, and the empty ad where none was given. *)
Theorem control_stream_roundtrip msgs :
  Forall (λ m : Z * option ClassAd, int64_range m.1) msgs →
  readAll (writeAll msgs) = (λ m : Z * option ClassAd, (m.1, public (default adNew m.2))) <$> msgs.
Proof.
  induction 1 as [|[t ad] msgs Ht Hms IH]; [done|]. cbn. rewrite read_written by done. cbn. by f_equal.
Qed.
End Framing.
End Framing.

(** ** Witnesses: messages of integers and ads *)

Import RefClassAd Framing.

#[local] Instance adMessage : MessageLib := {|
  Message := list (Z + rad);
  GetInt m := match m with inl z :: r => (Some z, r) | _ => (None, m) end;
  GetString m := (None, m)
|}.

#[local] Instance adControl : ControlLib (CA := refLib) adMessage := {|
  GetClassAd m := match m with inr ad :: r => (Some ad, r) | _ => (None, m) end;
  GetByte m := match m with _ :: r => (ByteOK, r) | [] => (ByteEOF, m) end;
  left_ m := length (m : list (Z + rad));
  encode t ad := [inl t; inr ad] : list (Z + rad);
  public ad := ad
|}.

#[local] Instance adLaws : ControlLaws adControl.
Proof.
  split.
  - intros m m'. cbn in *. destruct m as [|x r]; [done|]. intros [= <-]. cbn. lia.
  - intros t ad _. cbn. by repeat (eexists; split; [reflexivity|]).
Qed.

Lemma control_stream_roundtrip_witness :
  readAll (CA := refLib) (writeAll [(StarterMsg.MsgFinal, Some (lits [("ExitCode", VInt 3)])); (StarterMsg.MsgExited, None)]) =
    [(StarterMsg.MsgFinal, lits [("ExitCode", VInt 3)]); (StarterMsg.MsgExited, adNew)].
Proof.
  etransitivity.
  - apply (control_stream_roundtrip (CA := refLib)
      [(StarterMsg.MsgFinal, Some (lits [("ExitCode", VInt 3)])); (StarterMsg.MsgExited, None)]).
    repeat constructor; cbn; unfold two63, StarterMsg.MsgFinal, StarterMsg.MsgExited; lia.
  - reflexivity.
Defined.

