(* ===== verification/StarterEnv.v ===== *)
(** * What the starter does to the outside (internal/starter)

    The code of the starter talks to the shadow, to the startd, to the file system and to
    the kernel.  Each such call is an effect of [eff]; its result comes from outside, so
    [Oracle] answers it, knowing everything that happened before.  A program is a function
    on the history of answered effects, with Go's early [return], [defer], and a loop that
    is still waiting.  [triple] is a Hoare triple over an automaton (a step
    relation) that reads the history. *)

From S2P Require Import Prelude GoLang ClassAd AdWire.

Local Open Scope Z_scope.

Lemma omap_cons {A B} (f : A → option B) x l :
  omap f (x :: l) = match f x with Some y => y :: omap f l | None => omap f l end.
Proof. done. Qed.

(** Permission bits: 0o644, 0o700, 0o755, 0o777. *)
Definition perm644 : Z := 420.
Definition perm700 : Z := 448.
Definition perm755 : Z := 493.
Definition perm777 : Z := 511.

(** A stream (a connection), by identity. *)
Definition sid := nat.

(** Go's [error]: [None] is nil. *)
Definition err := option string.

(** [syscalls.SecSessionInfo]: two {id, info, key} triplets. *)
Record SecSessionInfo := mkSecSessionInfo {
  ReconnectID : string;
  ReconnectInfo : string;
  ReconnectKey : string;
  FiletransID : string;
  FiletransInfo : string;
  FiletransKey : string
}.

(** What [GetSecSessionInfo] returns: a reply, a [SyscallError] (the shadow declined), or
    another error. *)
Inductive secReply := SecInfo (i : SecSessionInfo) | SecDeclined | SecBroken (e : string).

(** [os.Stat]: regular file, permission bits, size. *)
Record fileInfo := mkFileInfo { fi_regular : bool; fi_perm : Z; fi_size : Z }.

(** [os.ReadDir]: a directory entry, and its [Info] unless that fails. *)
Record dirEntry := mkDirEntry { de_name : string; de_regular : bool; de_info : option (Z * Time) }.

(** One file of [filetransfer.SendPlan]; [fs_source] is what its [Open] opens. *)
Record fileSpec := mkFileSpec { fs_WireName : string; fs_Mode : Z; fs_Size : Z; fs_source : string }.

(** A call [filetransfer.ReceiveStream] makes on its sink. *)
Inductive sinkCall := CallMkdir (name : string) | CallFile (name : string) (mode : Z).

(** [exec.Cmd]. *)
Record command := mkCommand {
  cmd_Path : string;
  cmd_Args : list string;
  cmd_Dir : string;
  cmd_Env : list string
}.

Inductive signal := SIGKILL | SIGTERM | SIGSTOP | SIGCONT.

(** [os.ProcessState]: the wait status and the resource usage, in microseconds. *)
Record procState := mkProcState { ps_status : Z; ps_rusage : option ((Z * Z) * (Z * Z)) }.

(** An accepted CA_RECONNECT_JOB ([reconnectHandoff]). *)
Record handoff := mkHandoff {
  ho_stream : sid;
  ho_transferKey : string;
  ho_transferSocket : string;
  ho_shadowAddr : string
}.

(** What [acceptReconnect] waits for. *)
Inductive repliedSel := Replied (e : err) | RepliedCtx (e : string) | RepliedTimeout.

Section Effects.
Context {CA : ClassAdLib} {ML : MessageLib}.

(** What the first [select] of [Run] finds. *)
Inductive firstSel := FirstClosed | FirstMsg (typ : Z) (ad : ClassAd) | FirstCtx (e : string).

Inductive eff :=
(* the startd *)
| RecvFirst
| SendCtrl (typ : Z) (ad : option ClassAd)
| SyscallConn
| TransportClose
| OnFinal (status reason : Z) (ad : ClassAd)
(* the command port *)
| NewCommandServer (bind : string)
| CloseCommandServer
| CreateSession (id info key peer : string)
| AckHandoff (ho : handoff)
| AwaitReplied (ho : handoff)
(* the shadow: remote system calls on a stream *)
| PutOp (s : sid) (op : Z)
| FlushOp (s : sid)
| RecvMessage (s : sid)
| DrainMessage (s : sid)
| RegisterStarterInfo (s : sid) (ad : ClassAd)
| GetSecSessionInfo (s : sid)
| BeginExecution (s : sid)
| RegisterJobInfo (s : sid) (ad : ClassAd)
| JobTermination (s : sid) (ad : ClassAd)
| JobExit (s : sid) (status reason : Z) (ad : ClassAd)
| CloseStream (s : sid)
(* file transfer *)
| DialTransfer (socket session : string) (cmd : Z)
| PutSecret (s : sid) (key : string)
| FlushSecret (s : sid)
| ReceiveStream (s : sid)
| SendStream (s : sid) (plan : list fileSpec)
| CloseClient (s : sid)
(* files and processes *)
| Stat (path : string)
| ReadDir (path : string)
| MkdirAll (path : string) (perm : Z)
| OpenFile (path : string) (write : bool) (perm : Z)
| CloseStdio (n : nat)
| StartProcess (c : command)
| Kill (pgid : Z) (sig : signal)
| ReapAfterKill
| ProcessState
| Now.

Definition ans (e : eff) : Type :=
  match e with
  | RecvFirst => firstSel
  | SyscallConn => string + sid
  | NewCommandServer _ => string + string
  | CreateSession _ _ _ _ => err
  | AwaitReplied _ => repliedSel
  | RecvMessage _ => Message
  | GetSecSessionInfo _ => secReply
  | DialTransfer _ _ _ => string + sid * option bool
  | ReceiveStream _ => list sinkCall * err
  | Stat _ => string + fileInfo
  | ReadDir _ => option (list dirEntry)
  | StartProcess _ => string + Z
  | ReapAfterKill => bool
  | ProcessState => option procState
  | Now => Time
  | TransportClose | OnFinal _ _ _ | CloseCommandServer | AckHandoff _ | CloseStream _ | CloseClient _
  | CloseStdio _ | Kill _ _ => unit
  | _ => err
  end.

Record obs := Obs { o_eff : eff; o_ans : ans o_eff }.

Definition Oracle := list obs → ∀ e, ans e.

(** ** Programs *)

(** The history, and the variable [sysSt] of [Run], which a deferred call reads. *)
Record St := mkSt { hist : list obs; sysSt : sid }.

(** A value, a [return], or a loop that is still waiting. *)
Inductive outcome (A : Type) := Val (a : A) | Ret (r : err) | Running.
#[global] Arguments Val {_} _.
#[global] Arguments Ret {_} _.
#[global] Arguments Running {_}.

Definition M (A : Type) := Oracle → St → St * outcome A.

#[global] Instance M_ret : MRet M := λ A x _ s, (s, Val x).
#[global] Instance M_bind : MBind M := λ A B k p env s,
  match p env s with
  | (s, Val x) => k x env s
  | (s, Ret r) => (s, Ret r)
  | (s, Running) => (s, Running)
  end.

Definition perform (e : eff) : M (ans e) :=
  λ env s, let a := env (hist s) e in (mkSt (hist s ++ [Obs e a]) (sysSt s), Val a).

(** [return r] out of [Run]. *)
Definition return_ {A} (r : err) : M A := λ _ s, (s, Ret r).
(** The [select] of a loop has found nothing yet. *)
Definition waiting {A} : M A := λ _ s, (s, Running).
Definition getSys : M sid := λ _ s, (s, Val (sysSt s)).
Definition setSys (x : sid) : M unit := λ _ s, (mkSt (hist s) x, Val tt).

(** [defer d]: [d] runs when [p] is left, however it is left. *)
Definition defer {A} (d : M unit) (p : M A) : M A := λ env s,
  match p env s with
  | (s, Running) => (s, Running)
  | (s, o) => let '(s, _) := d env s in (s, o)
  end.

Definition run {A} (p : M A) (env : Oracle) : St * outcome A := p env (mkSt [] 0%nat).
End Effects.

(** ** Triples *)

Section Logic.
Context {CA : ClassAdLib} {ML : MessageLib}.
Context {P : Type} (step : P → obs → P → Prop).

(** The automaton on a history. *)
Inductive steps : P → list obs → P → Prop :=
| steps_nil p : steps p [] p
| steps_cons p o q h r : step p o q → steps q h r → steps p (o :: h) r.

Lemma steps_app p h q k r : steps p h q → steps q k r → steps p (h ++ k) r.
Proof. induction 1; intros; simpl; [done|]. econstructor; eauto. Qed.

Lemma steps_snoc p h q o r : steps p h q → step q o r → steps p (h ++ [o]) r.
Proof. intros H1 H2. eapply steps_app; [done|]. econstructor; [done|constructor]. Qed.

Lemma steps_app_inv p h k r : steps p (h ++ k) r → ∃ q, steps p h q ∧ steps q k r.
Proof.
  revert p. induction h as [|o h IH]; intros p; simpl; [intros H; exists p; split; [constructor|done]|].
  inversion 1 as [|? ? q ? ? Ho Hr]; subst. destruct (IH q Hr) as (q' & H1 & H2).
  exists q'. split; [|done]. by econstructor.
Qed.

(** An invariant of the steps holds along every run. *)
Lemma steps_invariant (I : P → Prop) p h q :
  (∀ p o q, I p → step p o q → I q) → I p → steps p h q → I q.
Proof. intros HI Hp. induction 1; [done|]. eauto. Qed.

(** The same for a property of the history and the state. *)
Lemma steps_history (I : list obs → P → Prop) p h q :
  (∀ h p o q, I h p → step p o q → I (h ++ [o]) q) → I [] p → steps p h q → I h q.
Proof.
  intros HI Hp Hs.
  assert (∀ pre, I pre p → I (pre ++ h) q) as H; [|by apply (H [])].
  clear Hp. induction Hs as [|p o q h r Ho Hs IH]; intros pre Hpre; [by rewrite app_nil_r|].
  rewrite cons_middle, app_assoc. apply IH. by eapply HI.
Qed.

Context (init : P).

(** From automaton state [p] and stream [x], the program never leaves the automaton; a
    value ends in [Q], a [return] in [R]; [W] holds where it waits. *)
Definition triple {A} (p : P) (x : sid) (m : M A) (Q : A → P → sid → Prop) (R : err → P → sid → Prop)
    (W : P → Prop) : Prop :=
  ∀ env s, steps init (hist s) p → sysSt s = x →
    ∃ p', steps init (hist (m env s).1) p' ∧
      match (m env s).2 with
      | Val a => Q a p' (sysSt (m env s).1)
      | Ret r => R r p' (sysSt (m env s).1)
      | Running => W p'
      end.

Lemma triple_ret {A} p x (a : A) Q R W : Q a p x → triple p x (mret a) Q R W.
Proof. intros H env s Hp <-. by exists p. Qed.

Lemma triple_return {A} p x r (Q : A → P → sid → Prop) (R : err → P → sid → Prop) W :
  R r p x → triple p x (return_ r) Q R W.
Proof. intros H env s Hp <-. by exists p. Qed.

Lemma triple_waiting {A} p x (Q : A → P → sid → Prop) R (W : P → Prop) : W p → triple p x waiting Q R W.
Proof. intros H env s Hp <-. by exists p. Qed.

Lemma triple_getSys p x (Q : sid → P → sid → Prop) R W : Q x p x → triple p x getSys Q R W.
Proof. intros H env s Hp <-. by exists p. Qed.

Lemma triple_setSys p x y (Q : unit → P → sid → Prop) R W : Q tt p y → triple p x (setSys y) Q R W.
Proof. intros H env s Hp <-. by exists p. Qed.

Lemma triple_perform p x e (Q : ans e → P → sid → Prop) R W :
  (∀ a, ∃ p', step p (Obs e a) p' ∧ Q a p' x) → triple p x (perform e) Q R W.
Proof.
  intros H env s Hp <-. destruct (H (env (hist s) e)) as (p' & H1 & H2). exists p'. simpl.
  split; [by eapply steps_snoc|done].
Qed.

Lemma triple_bind {A B} p x (m : M A) (k : A → M B) Q' Q R W :
  triple p x m Q' R W → (∀ a p' x', Q' a p' x' → triple p' x' (k a) Q R W) →
  triple p x (m ≫= k) Q R W.
Proof.
  intros H1 H2 env s Hp Hx. destruct (H1 env s Hp Hx) as (p1 & Ht & H).
  unfold mbind, M_bind. destruct (m env s) as [s1 [a|r|]]; cbn in Ht, H |- *.
  - by apply (H2 a p1 (sysSt s1)).
  - by exists p1.
  - by exists p1.
Qed.

Lemma triple_weaken {A} p x (m : M A) (Q' Q : A → P → sid → Prop) (R' R : err → P → sid → Prop) (W' W : P → Prop) :
  triple p x m Q' R' W' → (∀ a p x, Q' a p x → Q a p x) → (∀ r p x, R' r p x → R r p x) → (∀ p, W' p → W p) →
  triple p x m Q R W.
Proof.
  intros H HQ HR HW env s Hp Hx. destruct (H env s Hp Hx) as (p1 & Ht & H1). exists p1. split; [done|].
  destruct (m env s) as [s1 [a|r|]]; cbn in *; auto.
Qed.

(** The deferred call runs after a value and after a [return]. *)
Lemma triple_defer {A} p x d (m : M A) Q' R' Q R W :
  triple p x m Q' R' W →
  (∀ a p' x', Q' a p' x' → triple p' x' d (λ _, Q a) (λ _, Q a) (λ _, False)) →
  (∀ r p' x', R' r p' x' → triple p' x' d (λ _, R r) (λ _, R r) (λ _, False)) →
  triple p x (defer d m) Q R W.
Proof.
  intros H HQ HR env s Hp Hx. destruct (H env s Hp Hx) as (p1 & Ht & H1).
  unfold defer. destruct (m env s) as [s1 [a|r|]]; cbn in Ht, H1 |- *.
  - destruct (HQ a p1 (sysSt s1) H1 env s1 Ht eq_refl) as (p2 & Ht2 & H2).
    exists p2. destruct (d env s1) as [s2 [u|r|]]; done.
  - destruct (HR r p1 (sysSt s1) H1 env s1 Ht eq_refl) as (p2 & Ht2 & H2).
    exists p2. destruct (d env s1) as [s2 [u|r'|]]; done.
  - by exists p1.
Qed.

(** The common case: an effect, then the rest for every answer. *)
Lemma triple_effect {B} p x e (k : ans e → M B) Q R W :
  (∀ a, ∃ p', step p (Obs e a) p' ∧ triple p' x (k a) Q R W) → triple p x (perform e ≫= k) Q R W.
Proof.
  intros H. eapply (triple_bind p x _ _ (λ a p' x', x' = x ∧ triple p' x (k a) Q R W)).
  - apply triple_perform. intros a. destruct (H a) as (p' & H1 & H2). by exists p'.
  - by intros a p' x' [-> ?].
Qed.

Lemma triple_getSys_bind {B} p x (k : sid → M B) Q R W :
  triple p x (k x) Q R W → triple p x (getSys ≫= k) Q R W.
Proof. intros H env s Hp <-. by apply H. Qed.

Lemma triple_setSys_bind {B} p x y (k : unit → M B) Q R W :
  triple p y (k tt) Q R W → triple p x (setSys y ≫= k) Q R W.
Proof. intros H env s Hp Hx. apply (H env (mkSt (hist s) y)); done. Qed.

Lemma triple_ret_bind {A B} p x (a : A) (k : A → M B) Q R W :
  triple p x (k a) Q R W → triple p x ((mret a : M A) ≫= k) Q R W.
Proof. intros H env s Hp Hx. by apply (H env s). Qed.

Lemma triple_return_bind {A B} p x r (k : A → M B) Q (R : err → P → sid → Prop) W :
  R r p x → triple p x ((return_ r : M A) ≫= k) Q R W.
Proof. intros H env s Hp <-. by exists p. Qed.
End Logic.

(** The rest of a program after a value. *)
Lemma bind_val {CA : ClassAdLib} {ML : MessageLib} {A B} (m : M A) (k : A → M B) env s a :
  (m env s).2 = Val a → ((m ≫= k) env s).2 = (k a env (m env s).1).2.
Proof. intros H. unfold mbind, M_bind. destruct (m env s) as [s1 o]. cbn in *. by subst. Qed.

(** ** What a program may do

    [emits F m]: [m] only appends effects that satisfy [F]. *)
Section Emits.
Context {CA : ClassAdLib} {ML : MessageLib} (F : obs → Prop).

Definition emits {A} (m : M A) : Prop := ∀ env s, ∃ h, hist (m env s).1 = hist s ++ h ∧ Forall F h.

Lemma emits_ret {A} (a : A) : emits (mret a).
Proof. intros env s. exists []. by rewrite app_nil_r. Qed.

Lemma emits_perform e : (∀ a, F (Obs e a)) → emits (perform e).
Proof. intros H env s. exists [Obs e (env (hist s) e)]. split; [done|]. by constructor. Qed.

Lemma emits_bind {A B} (m : M A) (k : A → M B) : emits m → (∀ a, emits (k a)) → emits (m ≫= k).
Proof.
  intros Hm Hk env s. destruct (Hm env s) as (h & Hh & HF). unfold mbind, M_bind.
  destruct (m env s) as [s1 [a|r|]]; cbn in *; [|by exists h..].
  destruct (Hk a env s1) as (h' & Hh' & HF'). exists (h ++ h'). rewrite Hh', Hh, app_assoc.
  split; [done|]. by apply Forall_app.
Qed.
End Emits.

Create HintDb emits.
#[export] Hint Resolve emits_ret emits_perform emits_bind : emits.

(** Through binds, tests and matches, down to the effects. *)
Ltac emits :=
  repeat match goal with
  | |- emits _ (mbind _ _) => apply emits_bind; [|intros ?]
  | |- emits _ (mret _) => apply emits_ret
  | |- emits _ (perform _) => apply emits_perform; intros ?
  | |- emits _ (if ?b then _ else _) => destruct b
  | |- emits _ (match ?x with _ => _ end) => destruct x
  end.
