(* ===== verification/Base64.v ===== *)
(** * base64 (Go's encoding/base64, [StdEncoding])

    The process-mode handoff carries the crypto state of a connection as base64 text in a
    ClassAd.  The encoder writes groups of four characters with padding; the decoder skips
    line ends and is not strict about unused bits. *)

From S2P Require Import Prelude GoLang.
From Stdlib Require Import Ascii.

Local Open Scope Z_scope.

Definition byte_range (z : Z) : Prop := 0 ≤ z < 256.

Definition alphabet : list ascii := bytes_of "ABCDEFGHIJKLMNOPQRSTUVWXYZabcdefghijklmnopqrstuvwxyz0123456789+/".
Definition pad : ascii := "=".

(** [encode[v & 0x3F]]. *)
Definition enc6 (v : Z) : ascii := nth (Z.to_nat (v mod 64)) alphabet pad.

Definition dec6 (c : ascii) : option Z :=
  let v := byte_val c in
  if (65 <=? v) && (v <=? 90) then Some (v - 65)
  else if (97 <=? v) && (v <=? 122) then Some (v - 71)
  else if (48 <=? v) && (v <=? 57) then Some (v + 4)
  else if v =? 43 then Some 62
  else if v =? 47 then Some 63
  else None.

Fixpoint encode (l : list Z) : list ascii :=
  match l with
  | a :: b :: c :: r =>
      let val := a * 65536 + b * 256 + c in
      enc6 (val / 262144) :: enc6 (val / 4096) :: enc6 (val / 64) :: enc6 val :: encode r
  | [a; b] =>
      let val := a * 65536 + b * 256 in
      [enc6 (val / 262144); enc6 (val / 4096); enc6 (val / 64); pad]
  | [a] =>
      let val := a * 65536 in
      [enc6 (val / 262144); enc6 (val / 4096); pad; pad]
  | [] => []
  end.

Definition EncodeToString (l : list Z) : string := of_bytes (encode l).

Definition lineEnd (c : ascii) : bool := (byte_val c =? 10) || (byte_val c =? 13).

(** Groups of four; padding ends the text. *)
Fixpoint decode (l : list ascii) : option (list Z) :=
  match l with
  | [] => Some []
  | c0 :: c1 :: c2 :: c3 :: r =>
      match dec6 c0, dec6 c1 with
      | Some d0, Some d1 =>
          if bool_decide (c2 = pad) then
            if bool_decide (c3 = pad) && bool_decide (r = []) then Some [(d0 * 64 + d1) / 16] else None
          else match dec6 c2 with
               | None => None
               | Some d2 =>
                   if bool_decide (c3 = pad) then
                     if bool_decide (r = []) then
                       let v := (d0 * 4096 + d1 * 64 + d2) / 4 in Some [v / 256; v mod 256]
                     else None
                   else match dec6 c3 with
                        | None => None
                        | Some d3 =>
                            let v := d0 * 262144 + d1 * 4096 + d2 * 64 + d3 in
                            match decode r with
                            | Some k => Some (v / 65536 :: v / 256 mod 256 :: v mod 256 :: k)
                            | None => None
                            end
                        end
               end
      | _, _ => None
      end
  | _ => None
  end.

Definition DecodeString (s : string) : option (list Z) :=
  decode (List.filter (λ c, negb (lineEnd c)) (bytes_of s)).

(** ** Decoding what was encoded *)

(** The sixty-four characters, each its own inverse, none a line end or the padding. *)
Lemma enc6_ok v : dec6 (enc6 v) = Some (v mod 64) ∧ enc6 v ≠ pad ∧ lineEnd (enc6 v) = false.
Proof.
  unfold enc6. assert (0 ≤ v mod 64 < 64) as Hv by (apply Z.mod_pos_bound; lia).
  remember (v mod 64) as x eqn:E. clear E v.
  assert (Forall (λ i, dec6 (nth (Z.to_nat i) alphabet pad) = Some i ∧ nth (Z.to_nat i) alphabet pad ≠ pad ∧
                       lineEnd (nth (Z.to_nat i) alphabet pad) = false) (Z.of_nat <$> List.seq 0 64)) as H
    by (apply (bool_decide_unpack _); vm_compute; exact I).
  rewrite Forall_forall in H. apply H. apply list_elem_of_fmap. exists (Z.to_nat x).
  split; [lia|]. apply elem_of_seq. lia.
Qed.

Lemma dec6_enc6 v : dec6 (enc6 v) = Some (v mod 64).
Proof. apply enc6_ok. Qed.

Lemma enc6_pad v : bool_decide (enc6 v = pad) = false.
Proof. apply bool_decide_eq_false_2, enc6_ok. Qed.

(** Induction by groups of three. *)
Lemma triple_ind (P : list Z → Prop) :
  P [] → (∀ a, P [a]) → (∀ a b, P [a; b]) → (∀ a b c r, P r → P (a :: b :: c :: r)) → ∀ l, P l.
Proof.
  intros H0 H1 H2 H3 l. enough (P l ∧ (∀ a, P (a :: l)) ∧ (∀ a b, P (a :: b :: l))) by tauto.
  induction l as [|x l (I1 & I2 & I3)]; split_and!; auto.
Qed.

Lemma encode_no_lineEnd l : List.filter (λ c, negb (lineEnd c)) (encode l) = encode l.
Proof.
  assert (∀ v, negb (lineEnd (enc6 v)) = true) as He by (intros v; by destruct (enc6_ok v) as (_ & _ & ->)).
  induction l as [|a|a b|a b c r IH] using triple_ind; cbn [encode List.filter]; cbn zeta; rewrite ?He; try done.
  by rewrite IH.
Qed.

Ltac euclid := Z.to_euclidean_division_equations; lia.

Lemma decode_encode l : Forall byte_range l → decode (encode l) = Some l.
Proof.
  unfold byte_range. induction l as [|a|a b|a b c r IH] using triple_ind; intros Hl; [done|..];
    repeat (apply Forall_cons in Hl as [? Hl]);
    cbn [encode decode]; cbn zeta; rewrite !dec6_enc6, ?enc6_pad, ?(bool_decide_eq_true_2 (pad = pad)) by done;
    cbn [andb]; rewrite ?(bool_decide_eq_true_2 ([] = [])) by done.
  - do 2 f_equal. euclid.
  - do 2 f_equal; [euclid|f_equal; euclid].
  - rewrite IH by done. do 2 f_equal; [euclid|]. f_equal; [euclid|]. f_equal. euclid.
Qed.

Lemma DecodeString_EncodeToString l : Forall byte_range l → DecodeString (EncodeToString l) = Some l.
Proof.
  intros Hl. unfold DecodeString, EncodeToString. rewrite bytes_of_of_bytes, encode_no_lineEnd. by apply decode_encode.
Qed.

Lemma EncodeToString_nonempty l : l ≠ [] → EncodeToString l ≠ "".
Proof. destruct l as [|a [|b [|c r]]]; intros ?; done. Qed.
