(* ===== verification/Handoff.v ===== *)
(** * Handing the connection over (internal/starter/transport.go and its implementations)

    After ACTIVATE_CLAIM the startd passes the connection to the starter through a
    transport.  [Transport] is what the startd relies on: a connection it passes is owned
    by the transport until it is given to the starter or closed, once.  The two
    implementations, the in-process pair (transport_inproc.go) and the startd's end of
    the Unix socket (transport_unix.go), are state machines whose steps are what their
    goroutines do atomically, and both are shown to keep that promise. *)

From S2P Require Import Prelude GoLang StarterEnv.

Local Open Scope Z_scope.

(** ** The interface *)

(** [held] is what the transport still owns, [given] what the starter has taken, [shut] the
    connections closed; [accepted] those [PassSyscallConn] took.  [ended]: the transport is closed and no
    call on it is under way. *)
Class Transport (U : Type) := {
  tr_new : U;
  tr_step : U → U → Prop;
  held : U → list sid;
  given : U → list sid;
  shut : U → list sid;
  accepted : U → list sid;
  ended : U → Prop
}.

Class TransportLaws (U : Type) {T : Transport U} := {
  tr_inv : U → Prop;
  tr_inv_new : tr_inv tr_new;
  tr_inv_step u u' : tr_inv u → tr_step u u' → tr_inv u';
  tr_conserved u : tr_inv u → held u ++ given u ++ shut u ≡ₚ accepted u;
  tr_one_shot u : tr_inv u → (length (accepted u) ≤ 1)%nat;
  tr_ended u : tr_inv u → ended u → held u = []
}.

Section Client.
Context {U : Type} {T : Transport U} {TL : TransportLaws U}.

Definition reached (u : U) : Prop := rtc tr_step tr_new u.

Lemma reached_inv u : reached u → tr_inv u.
Proof.
  unfold reached. generalize tr_inv_new. generalize tr_new. intros u0 H0 Hr.
  induction Hr as [|x y z Hxy Hyz IH]; [done|]. apply IH. by eapply tr_inv_step.
Qed.

(** Where the connection ended up. *)
Definition settled (u : U) : Prop :=
  (accepted u = [] ∧ given u = [] ∧ shut u = []) ∨
  ∃ s, accepted u = [s] ∧ ((given u = [s] ∧ shut u = []) ∨ (given u = [] ∧ shut u = [s])).

Lemma one_place (a b c acc : list sid) :
  a ++ b ++ c ≡ₚ acc → (length acc ≤ 1)%nat → a = [] →
  (acc = [] ∧ b = [] ∧ c = []) ∨ ∃ s, acc = [s] ∧ ((b = [s] ∧ c = []) ∨ (b = [] ∧ c = [s])).
Proof.
  intros Hp Hl ->. cbn in Hp. destruct acc as [|s [|]]; cbn in Hl; [|clear Hl|lia].
  - apply Permutation_nil_r in Hp. apply app_eq_nil in Hp as [-> ->]. by left.
  - apply Permutation_singleton_r in Hp. right. exists s. split; [done|].
    apply app_eq_unit in Hp as [[-> ->]|[-> ->]]; [right|left]; done.
Qed.

(** What a transport promises of the connections passed to it. *)
Definition keeps_promise (u : U) : Prop :=
  (length (held u ++ given u ++ shut u) ≤ 1)%nat ∧ (ended u → settled u).

Lemma promise_kept u : reached u → keeps_promise u.
Proof.
  intros Hi%reached_inv. pose proof (tr_conserved u Hi) as Hc. pose proof (tr_one_shot u Hi) as Hl.
  split; [by rewrite Hc|]. intros He. apply (one_place _ _ _ _ Hc Hl). by apply tr_ended.
Qed.
End Client.

(** ** The in-process pair *)

Module Inproc.

Record inproc := mkInproc {
  syscall : option sid;
  passed : bool;
  closed : bool;
  (** Ghosts: a sender between [markPassed] and the send, and what happened. *)
  passing : option sid;
  panicked : bool;
  taken : list sid;
  closes : list sid;
  took : list sid
}.

Definition NewInprocPair : inproc := mkInproc None false false None false [] [] [].

Definition markPassed (u : inproc) : option string * inproc :=
  if closed u then (Some "starter: transport closed", u)
  else if passed u then (Some "starter: syscall conn already passed", u)
  else (None, mkInproc (syscall u) true (closed u) (passing u) (panicked u) (taken u) (closes u) (took u)).

(** [PassSyscallConn] is [markPassed], and then the send, which is not under the lock. *)
Definition beginPass (s : sid) (u : inproc) : option string * inproc :=
  match markPassed u with
  | (Some e, u) => (Some e, u)
  | (None, u) => (None, mkInproc (syscall u) (passed u) (closed u) (Some s) (panicked u) (taken u) (closes u) (took u ++ [s]))
  end.

(** [syscall <- st]; a send on a closed channel panics. *)
Definition sendPass (u : inproc) : inproc :=
  match passing u with
  | None => u
  | Some s =>
      if closed u then mkInproc (syscall u) (passed u) (closed u) None true (taken u) (closes u) (took u)
      else mkInproc (Some s) (passed u) (closed u) None (panicked u) (taken u) (closes u) (took u)
  end.

(** [inprocShared.close], from either end. *)
Definition close (u : inproc) : inproc :=
  if closed u then u
  else mkInproc None (passed u) true (passing u) (panicked u) (taken u) (closes u ++ option_list (syscall u)) (took u).

(** The receive of [SyscallConn]: [None] blocks. *)
Definition SyscallConn (u : inproc) : option ((string + sid) * inproc) :=
  match syscall u with
  | Some s => Some (inr s, mkInproc None (passed u) (closed u) (passing u) (panicked u) (taken u ++ [s]) (closes u) (took u))
  | None => if closed u then Some (inl "starter: transport closed before syscall conn arrived", u) else None
  end.

(** The steps of the goroutines that share the pair.  The last premise of [ip_close] is the
    one the code does not enforce. *)
Inductive pairStep (raceFree : bool) : inproc → inproc → Prop :=
| ip_begin s u u' : beginPass s u = (None, u') → pairStep raceFree u u'
| ip_send u : is_Some (passing u) → pairStep raceFree u (sendPass u)
| ip_close u : (raceFree = true → passing u = None) → pairStep raceFree u (close u)
| ip_take u r u' : SyscallConn u = Some (r, u') → pairStep raceFree u u'.

#[global] Instance pairTransport : Transport inproc := {
  tr_new := NewInprocPair;
  tr_step := pairStep true;
  held u := option_list (passing u) ++ option_list (syscall u);
  given := taken;
  shut := closes;
  accepted := took;
  ended u := closed u = true ∧ passing u = None
}.

Record pairInv (u : inproc) : Prop := {
  i_conserved : option_list (passing u) ++ option_list (syscall u) ++ taken u ++ closes u = took u;
  i_one : (length (took u) ≤ if passed u then 1 else 0)%nat;
  i_closed : closed u = true → syscall u = None ∧ passing u = None;
  i_panic : panicked u = false
}.

(** At most one connection, so a list of places is at most one element. *)
Lemma pairInv_step u u' : pairInv u → pairStep true u u' → pairInv u'.
Proof.
  intros [Hc Ho Hcl Hp] Hs. destruct u as [sc pa cl ps pn tk cs ac].
  inversion Hs as [s v v' Hb|v Hps|v Hps|v r v' Ht]; subst; cbn in *.
  - unfold beginPass, markPassed in Hb. cbn in Hb. destruct cl; [done|]. destruct pa; [done|]. simplify_eq/=.
    destruct ps, sc; cbn in Ho; simplify_eq/=; try lia. destruct tk, cs; cbn in Ho; try lia. by split.
  - destruct Hps as [s ->]. unfold sendPass. cbn. destruct cl; [by destruct (Hcl eq_refl)|].
    destruct sc; cbn in *; [subst; destruct pa; cbn in Ho; lia|]. by split.
  - unfold close. cbn. destruct cl; [by split|]. rewrite (Hps eq_refl) in *. cbn in *.
    destruct sc as [s|]; split; cbn; rewrite ?app_nil_r; try done.
    destruct tk, cs; cbn in *; subst; destruct pa; cbn in Ho; try done; try lia.
  - unfold SyscallConn in Ht. cbn in Ht. destruct sc as [s|].
    + simplify_eq/=. destruct ps, tk; cbn in *; subst; split; cbn; try done; destruct pa; cbn in Ho; try lia.
      all: intros Hx; by destruct (Hcl Hx).
    + destruct cl; by simplify_eq.
Qed.

#[global] Instance pairLaws : TransportLaws inproc.
Proof.
  refine {| tr_inv := pairInv |}.
  - by split.
  - apply pairInv_step.
  - intros u [Hc _ _ _]. cbn. by rewrite <-Hc, <-app_assoc.
  - intros u [_ Ho _ _]. cbn. destruct (passed u); lia.
  - intros u [_ _ Hcl _] [Hc _]. cbn. by destruct (Hcl Hc) as [-> ->].
Defined.

(** The lock is released before the send: a release between the two makes the send panic,
    and the connection is neither given nor closed. *)
Lemma pass_close_panics s :
  ∃ u, rtc (pairStep false) NewInprocPair u ∧ panicked u = true ∧ took u = [s] ∧ taken u = [] ∧ closes u = [].
Proof.
  exists (sendPass (close (beginPass s NewInprocPair).2)). split; [|by split_and!].
  eapply rtc_l; [apply (ip_begin _ s); reflexivity|]. eapply rtc_l; [by apply ip_close|].
  apply rtc_once, ip_send. by eexists.
Qed.

(** Without that interleaving nothing panics. *)
Lemma no_panic u : reached u → panicked u = false.
Proof. intros Hr. by destruct (reached_inv u Hr). Qed.
End Inproc.

(** ** The startd's end of the Unix socket *)

Module UnixStartd.

(** Where the goroutine of [FinishActivation] is, with the request it took. *)
Inductive fpc := FIdle | FTook (s : sid) | FWrote (s : sid) | FSent (s : sid).

Definition inHand (f : fpc) : option sid :=
  match f with FIdle => None | FTook s | FWrote s | FSent s => Some s end.

Record unixStartd := mkUnixStartd {
  conn : option nat;
  pending : option sid;
  passed : bool;
  closed : bool;
  handedOff : option sid;
  finish : fpc;
  (** Ghosts: the streams closed and accepted, and the Unix connections closed. *)
  closes : list sid;
  took : list sid;
  connCloses : list nat
}.

Definition NewUnixStartd : unixStartd := mkUnixStartd None None false false None FIdle [] [] [].

(** One attempt of [Connect]: a connection, or an error with whether the context is done,
    whether the deadline has passed, and whether the context ends during the back-off. *)
Inductive dial := DialOK (c : nat) | DialErr (ctxDone late ctxLater : bool).

Definition adopt (c : nat) (u : unixStartd) : option string * unixStartd :=
  if closed u
  then (Some "starter: transport closed during Connect",
        mkUnixStartd (conn u) (pending u) (passed u) (closed u) (handedOff u) (finish u) (closes u) (took u) (connCloses u ++ [c]))
  else (None,
        mkUnixStartd (Some c) (pending u) (passed u) (closed u) (handedOff u) (finish u) (closes u) (took u) (connCloses u)).

(** [None] is still trying after these attempts. *)
Fixpoint Connect (ds : list dial) (u : unixStartd) : option (option string * unixStartd) :=
  match ds with
  | [] => None
  | DialOK c :: _ => Some (adopt c u)
  | DialErr ctxDone late ctxLater :: r =>
      if ctxDone then Some (Some "context canceled", u)
      else if late then Some (Some "starter: dialing starter socket timed out", u)
      else if ctxLater then Some (Some "context canceled", u)
      else Connect r u
  end.

(** [exported] is [ExportCryptoState]. *)
Definition PassSyscallConn (exported : bool) (s : sid) (u : unixStartd) : option string * unixStartd :=
  if negb exported then (Some "starter: exporting syscall-stream crypto state for process handoff", u)
  else if closed u then (Some "starter: transport closed", u)
  else if passed u then (Some "starter: syscall conn already passed", u)
  else (None, mkUnixStartd (conn u) (Some s) true (closed u) (handedOff u) (finish u) (closes u) (took u ++ [s]) (connCloses u)).

(** [FinishActivation], in the pieces between which other goroutines run: the receive from
    [pending], the check of the control stream and the message, the descriptor, and the
    assignment of [handedOff]. *)
Definition finishTake (u : unixStartd) : option unixStartd :=
  match pending u with
  | Some s => Some (mkUnixStartd (conn u) None (passed u) (closed u) (handedOff u) (FTook s) (closes u) (took u) (connCloses u))
  | None => None
  end.

Definition failFinish (s : sid) (u : unixStartd) : unixStartd :=
  mkUnixStartd (conn u) (pending u) (passed u) (closed u) (handedOff u) FIdle (closes u ++ [s]) (took u) (connCloses u).

Definition set_finish (f : fpc) (u : unixStartd) : unixStartd :=
  mkUnixStartd (conn u) (pending u) (passed u) (closed u) (handedOff u) f (closes u) (took u) (connCloses u).

Definition finishWrite (s : sid) (writeOK : bool) (u : unixStartd) : option string * unixStartd :=
  match conn u with
  | None => (Some "starter: FinishActivation before Connect", set_finish FIdle u)
  | Some _ => if writeOK then (None, set_finish (FWrote s) u) else (Some "starter: sending SyscallConnFollows", failFinish s u)
  end.

Definition finishSend (s : sid) (sendOK : bool) (u : unixStartd) : option string * unixStartd :=
  if sendOK then (None, set_finish (FSent s) u) else (Some "starter: SCM_RIGHTS-passing syscall fd", failFinish s u).

Definition finishCommit (s : sid) (u : unixStartd) : unixStartd :=
  if closed u then failFinish s u
  else mkUnixStartd (conn u) (pending u) (passed u) (closed u) (Some s) FIdle (closes u) (took u) (connCloses u).

Definition ReleaseSyscallConn (u : unixStartd) : unixStartd :=
  mkUnixStartd (conn u) (pending u) (passed u) (closed u) None (finish u) (closes u ++ option_list (handedOff u)) (took u) (connCloses u).

Definition Close (u : unixStartd) : unixStartd :=
  if closed u then u
  else mkUnixStartd (conn u) None (passed u) true None (finish u)
         (closes u ++ option_list (pending u) ++ option_list (handedOff u)) (took u) (connCloses u ++ option_list (conn u)).

(** The steps of the handler, the supervisor and whoever closes the transport.  The
    supervisor calls [FinishActivation] after [Connect] has succeeded; [connected]
    tells whether that is required. *)
Inductive sockStep (connected : bool) : unixStartd → unixStartd → Prop :=
| us_connect ds e u u' : Connect ds u = Some (e, u') → sockStep connected u u'
| us_pass s u u' : PassSyscallConn true s u = (None, u') → sockStep connected u u'
| us_take u u' : (connected = true → is_Some (conn u)) → finish u = FIdle → finishTake u = Some u' → sockStep connected u u'
| us_write s ok u : finish u = FTook s → sockStep connected u (finishWrite s ok u).2
| us_send s ok u : finish u = FWrote s → sockStep connected u (finishSend s ok u).2
| us_commit s u : finish u = FSent s → sockStep connected u (finishCommit s u)
| us_release u : sockStep connected u (ReleaseSyscallConn u)
| us_close u : sockStep connected u (Close u).

#[global] Instance sockTransport : Transport unixStartd := {
  tr_new := NewUnixStartd;
  tr_step := sockStep true;
  held u := option_list (pending u) ++ option_list (inHand (finish u)) ++ option_list (handedOff u);
  given _ := [];
  shut := closes;
  accepted := took;
  ended u := closed u = true ∧ finish u = FIdle
}.

Record sockInv (u : unixStartd) : Prop := {
  i_conserved : option_list (pending u) ++ option_list (inHand (finish u)) ++ option_list (handedOff u) ++ closes u = took u;
  i_one : (length (took u) ≤ if passed u then 1 else 0)%nat;
  i_closed : closed u = true → pending u = None ∧ handedOff u = None;
  i_conn : finish u ≠ FIdle → is_Some (conn u)
}.

(** Close a goal about the places after a step: at most one of them holds a connection. *)
Ltac places :=
  cbn in *; subst; rewrite ?app_nil_r in *; cbn in *;
  repeat match goal with
  | o : option sid |- _ => destruct o; cbn in *; try done; try lia
  | l : list sid |- _ => destruct l; cbn in *; try done; try lia
  end.

Lemma Connect_adopts ds u e u' : Connect ds u = Some (e, u') → u' = u ∨ ∃ c, u' = (adopt c u).2.
Proof.
  induction ds as [|[c|[] [] []] ds IH]; cbn; intros H; simplify_eq; eauto.
  right. exists c. by destruct (adopt c u); simplify_eq.
Qed.

Lemma inv_fail s u : sockInv u → inHand (finish u) = Some s → sockInv (failFinish s u).
Proof.
  intros [Hc Ho Hcl Hf] Hs. destruct u as [cn pd pa cl ho fi cs ac cc]. cbn in *. rewrite Hs in Hc. cbn in Hc.
  split; cbn; try done. destruct pa; places.
Qed.

Lemma inv_set_finish s f u : sockInv u → inHand (finish u) = Some s → inHand f = Some s → sockInv (set_finish f u).
Proof.
  intros [Hc Ho Hcl Hf] Hs Hs'. split; cbn; try done.
  - by rewrite Hs', <-Hs.
  - intros _. apply Hf. intros Hi. by rewrite Hi in Hs.
Qed.

Lemma sockInv_step u u' : sockInv u → sockStep true u u' → sockInv u'.
Proof.
  intros Hi Hs. destruct Hs as [ds e u u' Hd|s u u' Hp|u u' Hcn Hfi Ht|s ok u Hfi|s ok u Hfi|s u Hfi|u|u].
  - destruct Hi as [Hc Ho Hcl Hf]. destruct (Connect_adopts _ _ _ _ Hd) as [->|[c ->]]; [by split|].
    unfold adopt. destruct (closed u) eqn:E; split; cbn; try done; eauto.
  - destruct Hi as [Hc Ho Hcl Hf]. unfold PassSyscallConn in Hp. cbn in Hp.
    destruct u as [cn pd pa cl ho fi cs ac cc]. cbn in *. destruct cl; [done|]. destruct pa; [done|].
    destruct ac; [|cbn in Ho; lia]. injection Hp as <-. destruct pd, (inHand fi) eqn:E, ho, cs; try done. split; cbn; by rewrite ?E.
  - destruct Hi as [Hc Ho Hcl Hf]. unfold finishTake in Ht. destruct u as [cn pd pa cl ho fi cs ac cc]. cbn in *.
    subst fi. destruct pd as [s|]; [|done]. simplify_eq/=. split; cbn; try done; [|by intros _; apply Hcn].
    intros Hx. by destruct (Hcl Hx).
  - unfold finishWrite. destruct (i_conn _ Hi) as [c ->]; [by rewrite Hfi|].
    destruct ok; cbn; [by apply (inv_set_finish s); rewrite ?Hfi|by apply inv_fail; rewrite ?Hfi].
  - unfold finishSend. destruct ok; cbn; [by apply (inv_set_finish s); rewrite ?Hfi|by apply inv_fail; rewrite ?Hfi].
  - unfold finishCommit. destruct (closed u) eqn:E; [by apply inv_fail; rewrite ?Hfi|].
    destruct Hi as [Hc Ho Hcl Hf]. destruct u as [cn pd pa cl ho fi cs ac cc]. cbn in *. subst.
    split; cbn; try done. destruct pa; places.
  - destruct Hi as [Hc Ho Hcl Hf]. destruct u as [cn pd pa cl ho fi cs ac cc]. unfold ReleaseSyscallConn. cbn in *.
    split; cbn; try done; [|intros Hx; by destruct (Hcl Hx)].
    destruct (inHand fi); destruct pa; places.
  - destruct Hi as [Hc Ho Hcl Hf]. destruct u as [cn pd pa cl ho fi cs ac cc]. unfold Close. cbn in *.
    destruct cl; [by split|]. split; cbn; try done.
    destruct (inHand fi); destruct pa; places.
Qed.

#[global] Instance sockLaws : TransportLaws unixStartd.
Proof.
  refine {| tr_inv := sockInv |}.
  - by split.
  - apply sockInv_step.
  - intros u [Hc _ _ _]. cbn. by rewrite <-Hc, <-!app_assoc.
  - intros u [_ Ho _ _]. cbn. destruct (passed u); lia.
  - intros u [_ _ Hcl _] [Hc Hf]. cbn. destruct (Hcl Hc) as [-> ->]. by rewrite Hf.
Defined.

(** Called before [Connect], [FinishActivation] drops the connection without closing it. *)
Lemma finish_before_connect_leaks s :
  ∃ u, rtc (sockStep false) NewUnixStartd u ∧ ended u ∧ took u = [s] ∧ held u = [] ∧ closes u = [].
Proof.
  exists (Close (finishWrite s true (default NewUnixStartd (finishTake (PassSyscallConn true s NewUnixStartd).2))).2).
  split; [|by split_and!].
  eapply rtc_l; [by apply (us_pass _ s)|]. eapply rtc_l; [by apply us_take|].
  eapply rtc_l; [by apply (us_write _ s true)|]. apply rtc_once, us_close.
Qed.

(** Attempts that all fail without an end of the context or the deadline leave [Connect]
    trying; any other list makes it return. *)
Definition retries (d : dial) : bool :=
  match d with DialErr false false false => true | _ => false end.

Lemma Connect_returns ds u : is_Some (Connect ds u) ↔ Exists (λ d, retries d = false) ds.
Proof.
  induction ds as [|[c|[] [] []] ds IH]; cbn; rewrite ?Exists_nil, ?Exists_cons; try (split; [by left|by eauto]).
  - split; [by intros []|done].
  - rewrite IH. naive_solver.
Qed.
End UnixStartd.


(** ** Witness: the transport is closed while the descriptor is being sent *)

Definition raced : UnixStartd.unixStartd :=
  UnixStartd.finishCommit 7%nat (UnixStartd.Close (UnixStartd.mkUnixStartd (Some 1%nat) None true false None
    (UnixStartd.FSent 7%nat) [] [7%nat] [])).

Lemma raced_reached : reached raced.
Proof.
  unfold reached. eapply rtc_l; [by apply (UnixStartd.us_connect _ [UnixStartd.DialErr false false false; UnixStartd.DialOK 1%nat] None)|].
  eapply rtc_l; [by apply (UnixStartd.us_pass _ 7%nat)|].
  eapply rtc_l; [by apply UnixStartd.us_take; [intros _; eexists| |]|].
  eapply rtc_l; [by apply (UnixStartd.us_write _ 7%nat true)|].
  eapply rtc_l; [by apply (UnixStartd.us_send _ 7%nat true)|].
  eapply rtc_l; [by apply UnixStartd.us_close|].
  apply rtc_once. by apply (UnixStartd.us_commit _ 7%nat).
Qed.

