(* ===== verification/Relay.v ===== *)
(** * The starter's end of the Unix socket (internal/starter/transport_unix.go)

    A process starter listens on its socket, serves the startd's control connection, and
    when that is lost keeps the job running and waits for a redial.  The goroutines
    (the manager, the outbound pump, [Run] and [Close]) are the steps of a state
    machine; each definition is what one of them does between two points where the others
    can run. *)

From S2P Require Import Prelude GoLang ClassAd StarterMsg StarterEnv Base64.

Local Open Scope Z_scope.

Module Relay.

(** ** The passed descriptor's header *)

Definition passSockHeaderLen : nat := 13.
Definition sharedPortPassSock : Z := 76.

(** [binary.BigEndian]. *)
Definition bigEndian (l : list Z) : Z := foldl (λ acc b, acc * 256 + b) 0 l.

(** The error, if any, and what is left on the socket. *)
Definition readPassSockHeader (r : list Z) : err * list Z :=
  let hdr := take passSockHeaderLen r in
  let rest := drop passSockHeaderLen r in
  if bool_decide (length r < passSockHeaderLen)%nat then (Some "starter: reading PASS_SOCK header", rest)
  else if negb (bigEndian (take 4 (drop 1 hdr)) =? 8) then (Some "starter: PASS_SOCK header length", rest)
  else if negb (bigEndian (drop 5 hdr) =? sharedPortPassSock) then (Some "starter: PASS_SOCK header command", rest)
  else (None, rest).

(** The header the sender writes: a flag byte, the length and the command. *)
Definition passSockHeader (flag : Z) : list Z := [flag; 0; 0; 0; 8; 0; 0; 0; 0; 0; 0; 0; 76].

(** The bytes are determined by the number. *)
Lemma bigEndian_inj l k : Forall byte_range l → Forall byte_range k → length l = length k → bigEndian l = bigEndian k → l = k.
Proof.
  revert k. induction l as [|x l IH] using rev_ind; intros k Hl Hk Hlen He.
  - by destruct k.
  - destruct k as [|y k _] using rev_ind; [rewrite length_app in Hlen; cbn in Hlen; lia|].
    apply Forall_app in Hl as [Hl Hx], Hk as [Hk Hy]. rewrite Forall_singleton in Hx, Hy. unfold byte_range in *.
    unfold bigEndian in He. rewrite !foldl_app in He. cbn [foldl] in He. fold (bigEndian l) (bigEndian k) in He.
    rewrite !length_app in Hlen. cbn in Hlen.
    assert (x = y ∧ bigEndian l = bigEndian k) as [-> Hb] by lia. f_equal. apply IH; [done..|lia|done].
Qed.

Ltac bytes := repeat (apply Forall_cons; split; [first [assumption|unfold byte_range; lia]|]); by apply Forall_nil.

Lemma readPassSockHeader_iff r rest :
  Forall byte_range r → readPassSockHeader r = (None, rest) ↔ ∃ flag, r = passSockHeader flag ++ rest.
Proof.
  intros Hr. split; [|by intros [flag ->]].
  unfold readPassSockHeader. case_bool_decide as Hlen; [done|]. unfold passSockHeaderLen in *.
  destruct (bigEndian (take 4 (drop 1 (take 13 r))) =? 8) eqn:E1; [|done].
  destruct (bigEndian (drop 5 (take 13 r)) =? sharedPortPassSock) eqn:E2; [|done]. cbn. intros [= <-].
  do 13 (destruct r as [|? r]; [cbn in Hlen; lia|]). cbn [take drop] in *.
  repeat (apply Forall_cons in Hr as [? Hr]).
  apply Z.eqb_eq in E1, E2. rewrite take_0 in E2.
  change 8 with (bigEndian [0; 0; 0; 8]) in E1.
  change sharedPortPassSock with (bigEndian [0; 0; 0; 0; 0; 0; 0; 76]) in E2.
  apply bigEndian_inj in E1; [|bytes..|done]. apply bigEndian_inj in E2; [|bytes..|done].
  simplify_eq. by eexists.
Qed.

Section Ads.
Context {CA : ClassAdLib}.

(** ** The crypto state in the control ad *)

Definition cryptoStateAttr : string := "CryptoState".

Definition marshalSyscallFollows (blob : list Z) : ClassAd :=
  adSet cryptoStateAttr (VString (EncodeToString blob)) adNew.

Definition parseSyscallFollows (ad : ClassAd) : string + list Z :=
  let s := default "" (EvaluateAttrString cryptoStateAttr ad) in
  if bool_decide (s = "") then inl "starter: SyscallConnFollows carries no CryptoState"
  else match DecodeString s with
       | Some blob => inr blob
       | None => inl "starter: decoding CryptoState"
       end.

(** C39: the crypto state crosses the socket unchanged.  Parsing the control ad built for a
    connection gives back exactly its exported state, byte for byte; an empty state is
    refused; and the reader of the descriptor's header accepts exactly the thirteen bytes
    the sender writes, leaving the rest of the socket alone. *)
Theorem handoff_wire {CAL : ClassAdLaws CA} blob r rest :
  Forall byte_range blob → Forall byte_range r →
  parseSyscallFollows (marshalSyscallFollows blob) =
    (if bool_decide (blob = []) then inl "starter: SyscallConnFollows carries no CryptoState" else inr blob) ∧
  (readPassSockHeader r = (None, rest) ↔ ∃ flag, r = passSockHeader flag ++ rest).
Proof.
  intros Hb Hr. split; [|by apply readPassSockHeader_iff].
  unfold parseSyscallFollows, marshalSyscallFollows.
  rewrite (evalString_lit _ (EncodeToString blob)) by (rewrite ad_lookup_set; by rewrite bool_decide_true).
  cbn [from_option]. unfold id. case_bool_decide as He; case_bool_decide as Hn; try done.
  - by apply EncodeToString_nonempty in He.
  - by subst blob.
  - by rewrite DecodeString_EncodeToString.
Qed.

(** ** State *)

Definition msg : Type := Z * ClassAd.

(** What the socket gives after a control ad that announces a connection: the bytes of the
    header, then the descriptor (or an error) from which the stream is rebuilt (or not). *)
Record passed := mkPassed { p_header : list Z; p_fd : err; p_stream : string + sid }.

(** The manager: at the top of its loop, waiting for a redial, holding one it has not
    stored yet, reading a connection, holding a message it has read, done with the
    connection, gone. *)
Inductive mpc :=
| MTop
| MWait
| MAccepted (c : nat)
| MServe (c : nat)
| MGot (c : nat) (m : msg) (p : passed)
| MLost (c : nat)
| MGone.

Record unixStarter := mkUnixStarter {
  conn : option nat;
  mgr : mpc;
  (** [runConn], [pipeConn] and the listener are open; [relayCtx] is done. *)
  runOpen : bool;
  pipeOpen : bool;
  listening : bool;
  stopped : bool;
  syscallCh : option sid;
  chClosed : bool;
  (** Ghosts: what was read from the connections and from [Run], what reached [Run] and
      the startd, the connections closed, the streams rebuilt, taken and closed, whether an
      accept failed, and whether a send panicked. *)
  heard : list (nat * msg);
  said : list msg;
  toRun : list msg;
  toStartd : list (nat * msg);
  connCloses : list nat;
  rebuilt : list sid;
  taken : list sid;
  shutStreams : list sid;
  acceptFailed : bool;
  panicked : bool
}.

Definition DefaultStartdGapLease : Duration := 1200 * Second.
Definition dialTimeout : Duration := 15 * Second.

Definition newStarter (c : nat) : unixStarter :=
  mkUnixStarter (Some c) MTop true true true false None false [] [] [] [] [] [] [] [] false false.

(** The deadline of the first accept and the gap lease; [accept] is given the deadline. *)
Definition ListenStarter (socketPath : string) (resolveErr listenErr : err) (accept : Duration → string + nat)
    (acceptTimeout gapLease : Duration) : string + unixStarter * Duration :=
  if bool_decide (socketPath = "") then inl "starter: empty socket path"
  else match resolveErr with
  | Some e => inl ("starter: resolve " +:+ socketPath +:+ ": " +:+ e)
  | None =>
  match listenErr with
  | Some e => inl ("starter: listen " +:+ socketPath +:+ ": " +:+ e)
  | None =>
      match accept (if acceptTimeout <=? 0 then dialTimeout else acceptTimeout) with
      | inl e => inl ("starter: accepting startd connection on " +:+ socketPath +:+ ": " +:+ e)
      | inr c => inr (newStarter c, if gapLease <=? 0 then DefaultStartdGapLease else gapLease)
      end
  end end.

Definition set_mgr (m : mpc) (u : unixStarter) : unixStarter :=
  mkUnixStarter (conn u) m (runOpen u) (pipeOpen u) (listening u) (stopped u) (syscallCh u) (chClosed u)
    (heard u) (said u) (toRun u) (toStartd u) (connCloses u) (rebuilt u) (taken u) (shutStreams u)
    (acceptFailed u) (panicked u).

Definition set_conn (o : option nat) (u : unixStarter) : unixStarter :=
  mkUnixStarter o (mgr u) (runOpen u) (pipeOpen u) (listening u) (stopped u) (syscallCh u) (chClosed u)
    (heard u) (said u) (toRun u) (toStartd u) (connCloses u) (rebuilt u) (taken u) (shutStreams u)
    (acceptFailed u) (panicked u).

Definition hear (c : nat) (m : msg) (u : unixStarter) : unixStarter :=
  mkUnixStarter (conn u) (mgr u) (runOpen u) (pipeOpen u) (listening u) (stopped u) (syscallCh u) (chClosed u)
    (heard u ++ [(c, m)]) (said u) (toRun u) (toStartd u) (connCloses u) (rebuilt u) (taken u) (shutStreams u)
    (acceptFailed u) (panicked u).

(** ** The manager *)

Definition selfDestruct (u : unixStarter) : unixStarter :=
  mkUnixStarter (conn u) (mgr u) false (pipeOpen u) (listening u) (stopped u) (syscallCh u) true
    (heard u) (said u) (toRun u) (toStartd u) (connCloses u) (rebuilt u) (taken u) (shutStreams u)
    (acceptFailed u) (panicked u).

(** The top of the loop of [manage]. *)
Definition manageTop (u : unixStarter) : unixStarter :=
  match conn u with
  | Some c => set_mgr (MServe c) u
  | None => set_mgr MWait u
  end.

(** [reaccept]: no connection when the context is done, or when the accept fails (the lease
    elapsed, or the listener was closed). *)
Definition reaccept (accepted : option nat) (u : unixStarter) : unixStarter :=
  match (if stopped u then None else accepted) with
  | Some c => set_mgr (MAccepted c) u
  | None =>
      let u := set_mgr MGone (selfDestruct u) in
      mkUnixStarter (conn u) (mgr u) (runOpen u) (pipeOpen u) (listening u) (stopped u) (syscallCh u) (chClosed u)
        (heard u) (said u) (toRun u) (toStartd u) (connCloses u) (rebuilt u) (taken u) (shutStreams u)
        true (panicked u)
  end.

Definition storeConn (c : nat) (u : unixStarter) : unixStarter := set_mgr (MServe c) (set_conn (Some c) u).

(** After [readConn]. *)
Definition afterServe (c : nat) (u : unixStarter) : unixStarter :=
  if stopped u then set_mgr MGone u
  else set_mgr MTop (if bool_decide (conn u = Some c) then set_conn None u else u).

(** ** Reading a control connection *)

Definition receiveSyscallConn (ad : ClassAd) (p : passed) (u : unixStarter) : err * unixStarter :=
  match parseSyscallFollows ad with
  | inl e => (Some e, u)
  | inr _ =>
  match (readPassSockHeader (p_header p)).1 with
  | Some e => (Some e, u)
  | None =>
  match p_fd p with
  | Some e => (Some ("starter: receiving forwarded syscall fd: " +:+ e), u)
  | None =>
  match p_stream p with
  | inl e => (Some ("starter: rebuilding encrypted syscall stream from crypto state: " +:+ e), u)
  | inr s =>
      let put ch shut pn :=
        mkUnixStarter (conn u) (mgr u) (runOpen u) (pipeOpen u) (listening u) (stopped u) ch (chClosed u)
          (heard u) (said u) (toRun u) (toStartd u) (connCloses u) (rebuilt u ++ [s]) (taken u) (shutStreams u ++ shut)
          (acceptFailed u) pn in
      if chClosed u then (Some "send on closed channel", put (syscallCh u) [] true)
      else match syscallCh u with
           | None => (None, put (Some s) [] (panicked u))
           | Some _ => (Some "starter: duplicate syscall conn", put (syscallCh u) [s] (panicked u))
           end
  end end end end.

(** [WriteMessage] to the pipe that [Run] reads. *)
Definition writePipe (m : msg) (u : unixStarter) : err * unixStarter :=
  if runOpen u && pipeOpen u && negb (stopped u)
  then (None,
        mkUnixStarter (conn u) (mgr u) (runOpen u) (pipeOpen u) (listening u) (stopped u) (syscallCh u) (chClosed u)
          (heard u) (said u) (toRun u ++ [m]) (toStartd u) (connCloses u) (rebuilt u) (taken u) (shutStreams u)
          (acceptFailed u) (panicked u))
  else (Some "io: read/write on closed pipe", u).

(** The loop of [readConn]: a message or a read error, and then what is done with the
    message. *)
Definition readConn (c : nat) (read : option (msg * passed)) (u : unixStarter) : unixStarter :=
  match read with
  | None => set_mgr (MLost c) u
  | Some (m, p) => set_mgr (MGot c m p) (hear c m u)
  end.

Definition onMessage (c : nat) (m : msg) (p : passed) (u : unixStarter) : unixStarter :=
  let '(e, u) := if m.1 =? StarterMsg.MsgSyscallConnFollows then receiveSyscallConn m.2 p u else writePipe m u in
  set_mgr (if bool_decide (e = None) then MServe c else MLost c) u.

(** ** The other goroutines *)

(** One turn of [pumpOutbound]. *)
Definition pumpOutbound (m : msg) (writeOK : bool) (u : unixStarter) : unixStarter :=
  mkUnixStarter (conn u) (mgr u) (runOpen u) (pipeOpen u) (listening u) (stopped u) (syscallCh u) (chClosed u)
    (heard u) (said u ++ [m]) (toRun u)
    (toStartd u ++ match conn u with Some c => if writeOK then [(c, m)] else [] | None => [] end)
    (connCloses u) (rebuilt u) (taken u) (shutStreams u) (acceptFailed u) (panicked u).

(** The receive of [SyscallConn]: [None] blocks. *)
Definition SyscallConn (u : unixStarter) : option ((string + sid) * unixStarter) :=
  match syscallCh u with
  | Some s =>
      Some (inr s,
        mkUnixStarter (conn u) (mgr u) (runOpen u) (pipeOpen u) (listening u) (stopped u) None (chClosed u)
          (heard u) (said u) (toRun u) (toStartd u) (connCloses u) (rebuilt u) (taken u ++ [s]) (shutStreams u)
          (acceptFailed u) (panicked u))
  | None => if chClosed u then Some (inl "starter: transport closed before syscall conn arrived", u) else None
  end.

Definition Close (u : unixStarter) : unixStarter :=
  if stopped u then u
  else mkUnixStarter None (mgr u) false false false true (syscallCh u) (chClosed u)
         (heard u) (said u) (toRun u) (toStartd u) (connCloses u ++ option_list (conn u)) (rebuilt u) (taken u) (shutStreams u)
         (acceptFailed u) (panicked u).

Inductive step : unixStarter → unixStarter → Prop :=
| st_top u : mgr u = MTop → step u (manageTop u)
| st_reaccept a u : mgr u = MWait → step u (reaccept a u)
| st_store c u : mgr u = MAccepted c → step u (storeConn c u)
| st_read c r u : mgr u = MServe c → (is_Some r → stopped u = false) → step u (readConn c r u)
| st_message c m p u : mgr u = MGot c m p → step u (onMessage c m p u)
| st_lost c u : mgr u = MLost c → step u (afterServe c u)
| st_pump m ok u : pipeOpen u = true → step u (pumpOutbound m ok u)
| st_take r u u' : SyscallConn u = Some (r, u') → step u u'
| st_close u : step u (Close u).

(** ** The relay *)

(** What of the control traffic is for [Run]. *)
Definition forRun (l : list (nat * msg)) : list msg :=
  List.filter (λ m, negb (m.1 =? StarterMsg.MsgSyscallConnFollows)) l.*2.

#[local] Arguments forRun : simpl never.

Lemma forRun_snoc l c m :
  forRun (l ++ [(c, m)]) = forRun l ++ if m.1 =? StarterMsg.MsgSyscallConnFollows then [] else [m].
Proof. unfold forRun. rewrite fmap_app, List.filter_app. cbn. by destruct (m.1 =? _). Qed.

(** The message the manager holds. *)
Definition inHand (u : unixStarter) : list msg :=
  match mgr u with MGot _ m _ => if m.1 =? StarterMsg.MsgSyscallConnFollows then [] else [m] | _ => [] end.

(** The control flow of the manager and the pipe. *)
Record flow (u : unixStarter) : Prop := {
  f_stopped : stopped u = true → runOpen u = false ∧ pipeOpen u = false ∧ listening u = false;
  f_run : runOpen u = false → stopped u = true ∨ acceptFailed u = true;
  f_pipe : pipeOpen u = false → stopped u = true;
  f_failed : acceptFailed u = true → mgr u = MGone;
  f_closed : chClosed u = true → mgr u = MGone
}.

(** What went through. *)
Record traffic (u : unixStarter) : Prop := {
  t_order : ∃ lost, forRun (heard u) = toRun u ++ inHand u ++ lost ∧ (runOpen u = true → lost = []);
  t_startd : (toStartd u).*2 `sublist_of` said u;
  t_streams : rebuilt u ≡ₚ taken u ++ option_list (syscallCh u) ++ shutStreams u;
  t_panic : panicked u = false
}.

Lemma flow_set_mgr m u :
  flow u → mgr u ≠ MGone → flow (set_mgr m u).
Proof.
  intros [H1 H2 H3 H4 H5] Hm. split; cbn; try done; intros Hx; [by destruct (Hm (H4 Hx))|by destruct (Hm (H5 Hx))].
Qed.

(** The fields [flow] speaks of. *)
Definition flowPart (u : unixStarter) := (stopped u, runOpen u, pipeOpen u, listening u, acceptFailed u, chClosed u, mgr u).

Lemma flow_part u v : flowPart v = flowPart u → flow u → flow v.
Proof.
  destruct u, v. unfold flowPart. cbn. intros He [H1 H2 H3 H4 H5]. simplify_eq. by split.
Qed.

Lemma receive_part ad p u : flowPart (receiveSyscallConn ad p u).2 = flowPart u.
Proof. unfold receiveSyscallConn, flowPart. repeat case_match; cbn; congruence. Qed.

Lemma writePipe_part m u : flowPart (writePipe m u).2 = flowPart u.
Proof. unfold writePipe, flowPart. case_match; cbn; congruence. Qed.

Lemma flow_step u u' : flow u → step u u' → flow u'.
Proof.
  intros Hf Hs. destruct Hs as [u Hm|a u Hm|c u Hm|c r u Hm Hr|c m p u Hm|c u Hm|m ok u Hp|r u u' Ht|u].
  - unfold manageTop. case_match; by apply flow_set_mgr; rewrite ?Hm.
  - unfold reaccept. destruct (if stopped u then None else a); [by apply flow_set_mgr; rewrite ?Hm|].
    destruct Hf as [H1 H2 H3 H4 H5]. split; cbn; try done; [|by right]. intros Hx. by destruct (H1 Hx) as (_ & ? & ?).
  - apply flow_set_mgr; [by apply (flow_part u)|by cbn; rewrite Hm].
  - unfold readConn. destruct r as [[m p]|]; apply flow_set_mgr; cbn; rewrite ?Hm; try done. by apply (flow_part u).
  - unfold onMessage. destruct (if _ =? _ then _ else _) as [e v] eqn:E.
    assert (flowPart v = flowPart u) as Hv.
    { destruct (m.1 =? _); [rewrite <-(receive_part m.2 p u)|rewrite <-(writePipe_part m u)]; by rewrite E. }
    apply flow_set_mgr; [by apply (flow_part u)|]. assert (mgr v = mgr u) as -> by (unfold flowPart in Hv; congruence). by rewrite Hm.
  - unfold afterServe. destruct (stopped u) eqn:E.
    + destruct Hf as [H1 H2 H3 H4 H5]. by split.
    + apply flow_set_mgr; case_bool_decide; cbn; rewrite ?Hm; try done; by apply (flow_part u).
  - by apply (flow_part u).
  - unfold SyscallConn in Ht. destruct (syscallCh u); [injection Ht as <- <-; by apply (flow_part u)|].
    destruct (chClosed u); [by injection Ht as <- <-|done].
  - unfold Close. destruct (stopped u) eqn:E; [done|]. destruct Hf as [H1 H2 H3 H4 H5]. split; cbn; auto.
Qed.

(** *** Traffic *)

Lemma traffic_quiet u v :
  heard v = heard u → said v = said u → toRun v = toRun u → toStartd v = toStartd u → rebuilt v = rebuilt u →
  taken v = taken u → shutStreams v = shutStreams u → syscallCh v = syscallCh u → panicked v = panicked u →
  inHand v = inHand u → (runOpen v = true → runOpen u = true) → traffic u → traffic v.
Proof.
  intros E1 E2 E3 E4 E5 E6 E7 E8 E9 E10 Hr [(lost & Ho & Hl) H2 H3 H4]. split.
  - exists lost. rewrite E1, E3, E10. auto.
  - by rewrite E4, E2.
  - by rewrite E5, E6, E7, E8.
  - by rewrite E9.
Qed.

Lemma no_hand u : (∀ c m p, mgr u ≠ MGot c m p) → inHand u = [].
Proof. unfold inHand. destruct (mgr u); try done. intros H. by destruct (H c m p). Qed.

Lemma traffic_receive c m p u :
  flow u → traffic u → mgr u = MGot c m p → (m.1 =? StarterMsg.MsgSyscallConnFollows) = true →
  traffic (receiveSyscallConn m.2 p u).2.
Proof.
  intros Hf Ht Hm Hfo. assert (chClosed u = false) as Hch.
  { destruct (chClosed u) eqn:E; [|done]. by rewrite (f_closed u Hf E) in Hm. }
  unfold receiveSyscallConn. destruct (parseSyscallFollows m.2); [done|]. destruct (readPassSockHeader _).1; [done|].
  destruct (p_fd p); [done|]. destruct (p_stream p) as [|s]; [done|]. rewrite Hch.
  destruct Ht as [Ho H2 H3 H4]. destruct (syscallCh u) as [s0|] eqn:Es; split; try done; cbn in *.
  - rewrite H3. cbn. solve_Permutation.
  - rewrite H3. rewrite app_nil_r. solve_Permutation.
Qed.

Lemma traffic_write c m p u :
  flow u → traffic u → mgr u = MGot c m p → (m.1 =? StarterMsg.MsgSyscallConnFollows) = false →
  traffic (set_mgr (if bool_decide ((writePipe m u).1 = None) then MServe c else MLost c) (writePipe m u).2).
Proof.
  intros Hf [(lost & Ho & Hl) H2 H3 H4] Hm Hfo. unfold inHand in Ho. rewrite Hm, Hfo in Ho.
  unfold writePipe. destruct (runOpen u && pipeOpen u && negb (stopped u)) eqn:Ec; cbn [fst snd].
  - apply andb_true_iff in Ec as [[Hr Hp]%andb_true_iff Hst]. split; cbn; try done.
    exists lost. split; [|done]. by rewrite Ho, <-app_assoc.
  - split; cbn; try done. exists (m :: lost). split; [done|]. intros Hr. exfalso. rewrite Hr in Ec. cbn in Ec.
    assert (stopped u = true) as Hs.
    { destruct (pipeOpen u) eqn:Ep; [by destruct (stopped u)|by apply f_pipe]. }
    destruct (f_stopped u Hf Hs). congruence.
Qed.

Lemma traffic_set_mgr x u :
  traffic u → inHand u = [] → (∀ c m p, x ≠ MGot c m p) → traffic (set_mgr x u).
Proof. intros Ht Hh Hx. eapply traffic_quiet; try exact Ht; try done. rewrite Hh. by apply no_hand. Qed.

Lemma traffic_step u u' : flow u → traffic u → step u u' → traffic u'.
Proof.
  intros Hf Ht Hs. destruct Hs as [u Hm|a u Hm|c u Hm|c r u Hm Hr|c m p u Hm|c u Hm|m ok u Hp|r u u' Htk|u].
  - assert (inHand u = []) by (unfold inHand; by rewrite Hm).
    unfold manageTop. case_match; by apply traffic_set_mgr.
  - assert (inHand u = []) as Hh by (unfold inHand; by rewrite Hm).
    unfold reaccept. destruct (if stopped u then None else a); [by apply traffic_set_mgr|].
    by eapply (traffic_quiet u).
  - assert (inHand u = []) as Hh by (unfold inHand; by rewrite Hm). by apply (traffic_quiet u).
  - assert (inHand u = []) as Hh by (unfold inHand; by rewrite Hm).
    unfold readConn. destruct r as [[m p]|]; [|by apply traffic_set_mgr].
    destruct Ht as [(lost & Ho & Hl) H2 H3 H4]. split; cbn; try done. exists lost. split; [|done].
    assert (runOpen u = true) as Hopen.
    { destruct (runOpen u) eqn:E; [done|]. destruct (f_run u Hf E) as [Hs|Ha]; [rewrite Hr in Hs; eauto; done|].
      by rewrite (f_failed u Hf Ha) in Hm. }
    rewrite (Hl Hopen), app_nil_r in *. rewrite Hh, app_nil_r in Ho. by rewrite forRun_snoc, Ho.
  - destruct (m.1 =? StarterMsg.MsgSyscallConnFollows) eqn:E; unfold onMessage; rewrite E.
    + pose proof (traffic_receive c m p u Hf Ht Hm E) as Hv. pose proof (receive_part m.2 p u) as Hp.
      destruct (receiveSyscallConn m.2 p u) as [e v]. cbn [snd] in Hv, Hp.
      apply traffic_set_mgr; [done| |by case_bool_decide].
      assert (mgr v = mgr u) as Hmv by (unfold flowPart in Hp; congruence). unfold inHand. by rewrite Hmv, Hm, E.
    + pose proof (traffic_write c m p u Hf Ht Hm E) as Hv. by destruct (writePipe m u) as [e v].
  - assert (inHand u = []) as Hh by (unfold inHand; by rewrite Hm).
    unfold afterServe. destruct (stopped u); [by apply traffic_set_mgr|].
    case_bool_decide; [|by apply traffic_set_mgr]. by apply (traffic_quiet u).
  - destruct Ht as [Ho H2 H3 H4]. split; cbn; try done. destruct (conn u), ok; cbn; rewrite ?app_nil_r;
      try (by apply sublist_inserts_r). rewrite fmap_app. by apply sublist_app.
  - unfold SyscallConn in Htk. destruct Ht as [Ho H2 H3 H4]. destruct (syscallCh u) as [s|] eqn:Es.
    + injection Htk as <- <-. split; cbn; try done. rewrite H3. cbn. solve_Permutation.
    + destruct (chClosed u); [|done]. injection Htk as <- <-. split; try done. by rewrite Es.
  - unfold Close. destruct (stopped u); [done|]. by apply (traffic_quiet u).
Qed.

Definition relayed (c : nat) : unixStarter → Prop := rtc step (newStarter c).

Lemma relay_invariant c u : relayed c u → flow u ∧ traffic u.
Proof.
  unfold relayed. assert (flow (newStarter c) ∧ traffic (newStarter c)) as H0.
  { split; split; cbn; try done. by exists []. }
  revert H0. generalize (newStarter c). intros u0 H0 Hr. induction Hr as [|x y z Hs Hr IH]; [done|].
  apply IH. destruct H0 as [Hf Ht]. split; [by eapply flow_step|by eapply traffic_step].
Qed.


(** A handoff that fails makes the manager drop the connection without closing it: the
    startd that is still there, and reads from it, hears nothing until the gap lease has
    elapsed. *)
Lemma failed_handoff_abandons c ad e :
  parseSyscallFollows ad = inl e →
  ∃ u, relayed c u ∧ mgr u = MWait ∧ conn u = None ∧ connCloses u = [] ∧ runOpen u = true.
Proof.
  intros He. set (m := (StarterMsg.MsgSyscallConnFollows, ad)). set (p := mkPassed [] None (inl "")).
  set (u1 := manageTop (newStarter c)). set (u2 := readConn c (Some (m, p)) u1).
  assert (onMessage c m p u2 = set_mgr (MLost c) u2) as Hu.
  { unfold onMessage. subst m. cbn [fst snd]. unfold receiveSyscallConn. by rewrite He. }
  exists (manageTop (afterServe c (onMessage c m p u2))). split.
  - apply rtc_l with u1; [by apply st_top|]. apply rtc_l with u2; [by apply (st_read c (Some (m, p)))|].
    apply rtc_l with (onMessage c m p u2); [by apply st_message|]. rewrite Hu.
    eapply rtc_l; [by apply (st_lost c)|]. by apply rtc_once, st_top.
  - rewrite Hu. unfold afterServe. cbn. by rewrite bool_decide_true.
Qed.
End Ads.
End Relay.

(** ** Witnesses: the startd restarts between two messages *)

Import RefClassAd Relay.

Definition noPass : passed := mkPassed [] None (inl "").
Definition vacate : msg := (StarterMsg.MsgVacateSoft, adNew).
Definition update : msg := (StarterMsg.MsgUpdate, adNew).

Definition restarted : unixStarter :=
  pumpOutbound update true (onMessage 2%nat vacate noPass (readConn 2%nat (Some (vacate, noPass))
    (storeConn 2%nat (reaccept (Some 2%nat) (pumpOutbound update true (manageTop (afterServe 1%nat
      (readConn 1%nat None (manageTop (newStarter 1%nat)))))))))).

Lemma restarted_relayed : relayed 1%nat restarted.
Proof.
  unfold relayed. eapply rtc_l; [by apply st_top|]. eapply rtc_l; [apply (st_read 1%nat None); [done|by intros []]|].
  eapply rtc_l; [by apply (st_lost 1%nat)|]. eapply rtc_l; [by apply st_top|].
  eapply rtc_l; [by apply (st_pump update true)|]. eapply rtc_l; [by apply (st_reaccept (Some 2%nat))|].
  eapply rtc_l; [by apply (st_store 2%nat)|]. eapply rtc_l; [by apply (st_read 2%nat (Some (vacate, noPass)))|].
  eapply rtc_l; [by apply (st_message 2%nat vacate noPass)|]. apply rtc_once. by apply (st_pump update true).
Qed.


Lemma handoff_wire_witness :
  parseSyscallFollows (marshalSyscallFollows [1; 254; 3; 0]) = inr [1; 254; 3; 0] ∧
  readPassSockHeader (passSockHeader 1 ++ [5]) = (None, [5]).
Proof.
  destruct (handoff_wire [1; 254; 3; 0] (passSockHeader 1 ++ [5]) [5]) as [H1 H2].
  - repeat constructor; discriminate.
  - repeat constructor; discriminate.
  - split; [exact H1|]. apply H2. exists 1. reflexivity.
Defined.
