(* ===== verification/Exec.v ===== *)
(** * Running the job's process (internal/starter/exec.go)

    Assembling the command, opening its files, signalling its process group, and
    decoding the status it leaves. *)

From S2P Require Import Prelude GoLang ClassAd AdWire StarterMsg Args StarterEnv.

Local Open Scope Z_scope.

Module Exec.

Definition nullFile : string := "/dev/null".

(** [jobProcess]; the files are counted. *)
Record jobProcess := mkJobProcess { jp_pid : Z; jp_pgid : Z; jp_startTime : Time; jp_stdio : nat }.

(** ** Wait status (package syscall, Linux): a uint32 *)

Definition ws_mask : Z := 0x7F.
Definition ws_core : Z := 0x80.
Definition ws_stopped : Z := 0x7F.

Definition Exited (w : Z) : bool := Z.land w ws_mask =? 0.
Definition Signaled (w : Z) : bool := negb (Z.land w ws_mask =? ws_stopped) && negb (Z.land w ws_mask =? 0).
Definition ExitStatus (w : Z) : Z := if Exited w then Z.land (Z.shiftr w 8) 0xFF else -1.
Definition Signal (w : Z) : Z := if Signaled w then Z.land w ws_mask else -1.
Definition CoreDump (w : Z) : bool := Signaled w && negb (Z.land w ws_core =? 0).

Record waitInfo := mkWaitInfo {
  rawStatus : Z;
  exited : bool;
  exitCode : Z;
  signaled : bool;
  wi_signal : Z;
  coreDump : bool;
  userCPU : float64;
  sysCPU : float64
}.

Definition noWait : waitInfo := mkWaitInfo 0 false 0 false 0 false float_zero float_zero.

Definition cpuSeconds (t : Z * Z) : float64 :=
  float_add (float_of_Z t.1) (float_div (float_of_Z t.2) (float_of_Z 1000000)).

Definition inspectWait (ps : option procState) : waitInfo :=
  match ps with
  | None => noWait
  | Some ps =>
      let ws := ps_status ps in
      mkWaitInfo ws (Exited ws) (ExitStatus ws) (Signaled ws) (if Signaled ws then Signal ws else 0) (CoreDump ws)
        (match ps_rusage ps with Some ru => cpuSeconds ru.1 | None => float_zero end)
        (match ps_rusage ps with Some ru => cpuSeconds ru.2 | None => float_zero end)
  end.

Section Ads.
Context {CA : ClassAdLib}.

Definition buildFinalAd (info : waitInfo) (pid : Z) (start end_ : Time) : ClassAd :=
  run_ops
    ([ OpSet "ExitBySignal" (VBool (signaled info)) ]
     ++ (if signaled info then [ OpSet "ExitSignal" (VInt (wi_signal info)) ]
         else [ OpSet "ExitCode" (VInt (exitCode info)) ])
     ++ when (0 <? pid) [ OpSet "JobPid" (VInt pid) ]
     ++ when (negb (IsZero start))
          [ OpSet "JobStartDate" (VInt (Unix start));
            OpSet "JobDuration" (VReal (durationSeconds (timeSub end_ start))) ]
     ++ [ OpSet "RemoteUserCpu" (VReal (userCPU info)); OpSet "RemoteSysCpu" (VReal (sysCPU info)) ]) adNew.

Definition buildUpdateAd (pid : Z) (start now : Time) : ClassAd :=
  run_ops
    ([ OpSet "JobState" (VString "Running") ]
     ++ when (0 <? pid) [ OpSet "JobPid" (VInt pid) ]
     ++ when (negb (IsZero start))
          [ OpSet "JobStartDate" (VInt (Unix start));
            OpSet "JobDuration" (VReal (durationSeconds (timeSub now start))) ]) adNew.
End Ads.

Section Programs.
Context {CA : ClassAdLib} {ML : MessageLib}.

(** [fmt]'s [%q]. *)
Context (quote : string → string).

Definition signalGroup (sig : signal) (j : jobProcess) : M unit :=
  if 0 <? jp_pgid j then perform (Kill (jp_pgid j) sig) else mret tt.

Definition killGroup : jobProcess → M unit := signalGroup SIGKILL.
Definition termGroup : jobProcess → M unit := signalGroup SIGTERM.
Definition suspendGroup : jobProcess → M unit := signalGroup SIGSTOP.
Definition continueGroup : jobProcess → M unit := signalGroup SIGCONT.

Definition closeStdio (j : jobProcess) : M unit := perform (CloseStdio (jp_stdio j)).

(** ** [startJob] *)

Definition stdioPath (jobAd : ClassAd) (sandbox attr : string) : string :=
  let path := default "" (EvaluateAttrString attr jobAd) in
  if bool_decide (path = "") || bool_decide (path = nullFile) then nullFile
  else if IsAbs path then path
  else pathJoin [sandbox; path].

(** [openStdio] with [n] files open; on an error they are closed. *)
Definition openStdio (jobAd : ClassAd) (sandbox attr : string) (write : bool) (n : nat) : M (err * nat) :=
  let path := stdioPath jobAd sandbox attr in
  e ← perform (OpenFile path write perm644);
  match e with
  | Some e => perform (CloseStdio n);; mret (Some ("starter: opening job " +:+ attr +:+ " " +:+ quote path +:+ ": " +:+ e), n)
  | None => mret (None, S n)
  end.

(** The command's path: [Cmd], under [Iwd] when it is relative. *)
Definition cmdPath (cmd iwd : string) : string :=
  if negb (IsAbs cmd) && negb (bool_decide (iwd = "")) then pathJoin [iwd; cmd] else cmd.

(** [order] is the iteration order of the overlay map. *)
Definition jobEnviron (order : list (string * string) → list (string * string)) (jobAd : ClassAd)
    (act : StarterMsg.ActivateMsg) (slotName iwd : string) : list string :=
  let sandbox := StarterMsg.am_SandboxDir act in
  Args.jobEnv jobAd
  ++ ((λ kv, kv.1 +:+ "=" +:+ kv.2) <$> order (map_to_list (StarterMsg.am_EnvOverlay act)))
  ++ [ "_CONDOR_SCRATCH_DIR=" +:+ sandbox; "_CONDOR_SLOT_NAME=" +:+ slotName; "_CONDOR_JOB_IWD=" +:+ iwd;
       "TMPDIR=" +:+ sandbox; "TEMP=" +:+ sandbox; "TMP=" +:+ sandbox ].

Definition jobCommand (order : list (string * string) → list (string * string)) (jobAd : ClassAd)
    (act : StarterMsg.ActivateMsg) (slotName cmd : string) : command :=
  let iwd := default "" (EvaluateAttrString "Iwd" jobAd) in
  let path := cmdPath cmd iwd in
  mkCommand path (path :: Args.jobArgs jobAd) (StarterMsg.am_SandboxDir act) (jobEnviron order jobAd act slotName iwd).

Definition startJob (order : list (string * string) → list (string * string)) (jobAd : ClassAd)
    (act : StarterMsg.ActivateMsg) (slotName : string) : M (string + jobProcess) :=
  let sandbox := StarterMsg.am_SandboxDir act in
  if bool_decide (sandbox = "") then mret (inl "starter: activation carries no sandbox dir") else
  e ← perform (MkdirAll sandbox perm700);
  match e with Some e => mret (inl ("starter: creating sandbox: " +:+ e)) | None =>
  match EvaluateAttrString "Cmd" jobAd with
  | None => mret (inl "starter: job ad has no Cmd")
  | Some cmd =>
  if bool_decide (cmd = "") then mret (inl "starter: job ad has no Cmd") else
  let c := jobCommand order jobAd act slotName cmd in
  r ← openStdio jobAd sandbox "In" false 0;
  match r with (Some e, _) => mret (inl e) | (None, n) =>
  r ← openStdio jobAd sandbox "Out" true n;
  match r with (Some e, _) => mret (inl e) | (None, n) =>
  r ← openStdio jobAd sandbox "Err" true n;
  match r with (Some e, _) => mret (inl e) | (None, n) =>
  r ← perform (StartProcess c);
  match r with
  | inl e => perform (CloseStdio n);; mret (inl ("starter: exec " +:+ quote (cmd_Path c) +:+ ": " +:+ e))
  | inr pid => start ← perform Now; mret (inr (mkJobProcess pid pid start n))
  end end end end end end.
End Programs.
End Exec.
