(* ===== verification/ExecFacts.v ===== *)
(** * The job's outcome and environment

    What the starter reports is what wait(2) said, and the environment it hands to the job
    gives the starter's own settings precedence over the startd's, and those over the
    job's. *)

From S2P Require Import Prelude GoLang ClassAd AdWire StarterMsg Args StarterEnv Exec.
From Stdlib Require Import Ascii.

Local Open Scope Z_scope.

Module ExecFacts.

(** ** The wait status *)

(** How a process ends, and the status word wait(2) encodes it in. *)
Inductive ending := ExitedWith (code : Z) | KilledBy (sig : Z) (core : bool).

Definition valid (e : ending) : Prop :=
  match e with ExitedWith c => 0 ≤ c < 256 | KilledBy s _ => 1 ≤ s < 127 end.

Definition encode (e : ending) : Z :=
  match e with
  | ExitedWith c => Z.shiftl c 8
  | KilledBy s core => Z.lor s (if core then Exec.ws_core else 0)
  end.

Definition decodes (e : ending) : bool :=
  let w := encode e in
  match e with
  | ExitedWith c => Exec.Exited w && negb (Exec.Signaled w) && (Exec.ExitStatus w =? c) && negb (Exec.CoreDump w)
  | KilledBy s core => negb (Exec.Exited w) && Exec.Signaled w && (Exec.Signal w =? s) && Bool.eqb (Exec.CoreDump w) core
  end.

Lemma decodes_all :
  forallb (λ c, decodes (ExitedWith (Z.of_nat c))) (seq 0 256) &&
  forallb (λ s, decodes (KilledBy (Z.of_nat s) true) && decodes (KilledBy (Z.of_nat s) false)) (seq 1 126) = true.
Proof. by vm_compute. Qed.

Lemma decodes_valid e : valid e → decodes e = true.
Proof.
  pose proof decodes_all as H. apply andb_true_iff in H as [H1 H2]. rewrite forallb_forall in H1, H2.
  destruct e as [c|s core]; cbn [valid]; intros Hv.
  - specialize (H1 (Z.to_nat c)). rewrite Z2Nat.id in H1 by lia. apply H1, in_seq. lia.
  - specialize (H2 (Z.to_nat s)). rewrite Z2Nat.id in H2 by lia.
    assert (decodes (KilledBy s true) && decodes (KilledBy s false) = true) as H by (apply H2, in_seq; lia).
    apply andb_true_iff in H as [? ?]. by destruct core.
Qed.

Section Ads.
Context {CA : ClassAdLib} {laws : ClassAdLaws CA}.

(** The attributes of the final ad that say how the job ended. *)
Lemma final_lookup n info pid start end_ :
  n ∈ ["ExitBySignal"; "ExitSignal"; "ExitCode"] →
  adLookup n (Exec.buildFinalAd info pid start end_) =
    if bool_decide (n = "ExitBySignal") then Some (Lit (VBool (Exec.signaled info)))
    else if Exec.signaled info
         then (if bool_decide (n = "ExitSignal") then Some (Lit (VInt (Exec.wi_signal info))) else None)
         else (if bool_decide (n = "ExitCode") then Some (Lit (VInt (Exec.exitCode info))) else None).
Proof.
  intros Hn. unfold Exec.buildFinalAd. rewrite lookup_run_ops, ad_lookup_new.
  destruct (Exec.signaled info), (0 <? pid), (negb (IsZero start)); set_unfold in Hn;
    destruct Hn as [->|[->|[->|[]]]]; by vm_compute.
Qed.

(** C32: the job's end is reported as it was.  For every exit code 0 to 255 and every
    signal 1 to 126, with or without a core dump: the status of job_exit is the word wait(2)
    gave, the core dump flag (which decides between COREDUMPED and EXITED) is the one in it,
    and the final ad has ExitBySignal and exactly one of ExitCode and ExitSignal, with
    the code or the signal. *)
Theorem outcome_reported e ru pid start end_ :
  valid e →
  let info := Exec.inspectWait (Some (mkProcState (encode e) ru)) in
  let ad := Exec.buildFinalAd info pid start end_ in
  Exec.rawStatus info = encode e ∧
  match e with
  | ExitedWith c =>
      Exec.coreDump info = false ∧
      EvaluateAttrBool "ExitBySignal" ad = Some false ∧ EvaluateAttrInt "ExitCode" ad = Some c ∧
      adLookup "ExitSignal" ad = None
  | KilledBy s core =>
      Exec.coreDump info = core ∧
      EvaluateAttrBool "ExitBySignal" ad = Some true ∧ EvaluateAttrInt "ExitSignal" ad = Some s ∧
      adLookup "ExitCode" ad = None
  end.
Proof.
  intros Hv info ad. split; [done|]. pose proof (decodes_valid e Hv) as Hd.
  assert (∀ n, n ∈ ["ExitBySignal"; "ExitSignal"; "ExitCode"] → adLookup n ad = _) as Hl
    by (intros n Hn; exact (final_lookup n info pid start end_ Hn)).
  unfold decodes in Hd. destruct e as [c|s core]; cbn [valid] in Hv;
    rewrite !andb_true_iff, ?negb_true_iff, ?Z.eqb_eq, ?eqb_true_iff in Hd; destruct Hd as [[[H1 H2] H3] H4].
  - assert (Exec.signaled info = false) as Hs by done. rewrite Hs in Hl. split_and!; [done| | |].
    + apply evalBool_lit. rewrite Hl by set_solver. by rewrite bool_decide_true.
    + apply evalInt_lit; [unfold int64_range, two63; lia|]. rewrite Hl by set_solver.
      assert (Exec.exitCode info = c) as -> by exact H3. done.
    + by rewrite Hl by set_solver.
  - assert (Exec.signaled info = true) as Hs by done. rewrite Hs in Hl. split_and!; [done| | |].
    + apply evalBool_lit. rewrite Hl by set_solver. by rewrite bool_decide_true.
    + apply evalInt_lit; [unfold int64_range, two63; lia|]. rewrite Hl by set_solver.
      assert (Exec.wi_signal info = s) as ->; [|done].
      change (Exec.wi_signal info)
        with (if Exec.Signaled (encode (KilledBy s core)) then Exec.Signal (encode (KilledBy s core)) else 0).
      by rewrite H2.
    + by rewrite Hl by set_solver.
Qed.
End Ads.

(** ** The environment *)

Definition equals : ascii := "=".

(** What the process sees under [k]: the last entry for a key wins (os/exec). *)
Definition entryValue (k e : string) : option string :=
  match Cut e equals with Some (k', v) => if bool_decide (k' = k) then Some v else None | None => None end.
Definition getenv (env : list string) (k : string) : option string := last (omap (entryValue k) env).

Lemma last_app_or {A} (l k : list A) : last (l ++ k) = match last k with Some x => Some x | None => last l end.
Proof. apply last_app. Qed.

Lemma getenv_app a b k : getenv (a ++ b) k = match getenv b k with Some v => Some v | None => getenv a k end.
Proof. unfold getenv. by rewrite omap_app, last_app_or. Qed.

Lemma entryValue_pair k' v k :
  ¬ contains equals k' → entryValue k (k' +:+ "=" +:+ v) = if bool_decide (k' = k) then Some v else None.
Proof.
  intros H. unfold entryValue.
  change (k' +:+ "=" +:+ v) with (k' +:+ String.String equals v). by rewrite (Cut_app k' v equals H).
Qed.

(** The entries of a map, in any order: the value of the key. *)
Lemma getenv_map (l : list (string * string)) k :
  Forall (λ kv, ¬ contains equals kv.1) l → NoDup l.*1 →
  getenv ((λ kv, kv.1 +:+ "=" +:+ kv.2) <$> l) k = (list_to_map l : gmap string string) !! k.
Proof.
  intros H Hn. unfold getenv. induction l as [|[k' v] l IH]; [done|].
  inversion H as [|? ? Hk Hl]; subst. inversion Hn as [|? ? Hnin Hn']; subst. specialize (IH Hl Hn').
  cbn [fmap list_fmap list_to_map foldr]. rewrite omap_cons, entryValue_pair by done. cbn [fst snd] in *.
  case_bool_decide as E.
  - subst. rewrite lookup_insert_eq. rewrite last_cons, IH.
    rewrite (not_elem_of_list_to_map_1 l k Hnin). done.
  - by rewrite lookup_insert_ne.
Qed.

(** The variables the starter sets itself. *)
Definition reserved (sandbox slotName iwd : string) : list (string * string) :=
  [("_CONDOR_SCRATCH_DIR", sandbox); ("_CONDOR_SLOT_NAME", slotName); ("_CONDOR_JOB_IWD", iwd);
   ("TMPDIR", sandbox); ("TEMP", sandbox); ("TMP", sandbox)].

Section Environ.
Context {CA : ClassAdLib}.

(** Precedence in the job's environment.  In whatever order the overlay is gone
    through, a variable the starter sets (the scratch directory, the slot name, the
    initial directory, the three temporary directories) has the starter's value; any
    other variable of the activation's overlay has the overlay's; every other one has
    what the job asked for; nothing else is there. *)
Theorem environment_precedence order jobAd act slotName iwd k :
  (∀ l, order l ≡ₚ l) → (∀ k v, StarterMsg.am_EnvOverlay act !! k = Some v → ¬ contains equals k) →
  getenv (Exec.jobEnviron order jobAd act slotName iwd) k =
    match (list_to_map (reserved (StarterMsg.am_SandboxDir act) slotName iwd) : gmap string string) !! k with
    | Some v => Some v
    | None => match StarterMsg.am_EnvOverlay act !! k with
              | Some v => Some v
              | None => getenv (Args.jobEnv jobAd) k
              end
    end.
Proof.
  intros Ho Hk. unfold Exec.jobEnviron. rewrite !getenv_app.
  set (sb := StarterMsg.am_SandboxDir act).
  pose proof (getenv_map (reserved sb slotName iwd) k) as Hr.
  change ((λ kv, kv.1 +:+ "=" +:+ kv.2) <$> reserved sb slotName iwd)
    with [ "_CONDOR_SCRATCH_DIR=" +:+ sb; "_CONDOR_SLOT_NAME=" +:+ slotName; "_CONDOR_JOB_IWD=" +:+ iwd;
           "TMPDIR=" +:+ sb; "TEMP=" +:+ sb; "TMP=" +:+ sb ] in Hr.
  rewrite Hr; [|repeat constructor; apply (bool_decide_unpack _); by vm_compute|apply (bool_decide_unpack _); by vm_compute].
  set (m := StarterMsg.am_EnvOverlay act) in *.
  rewrite getenv_map; [| |rewrite Ho; apply NoDup_fst_map_to_list].
  - assert (list_to_map (order (map_to_list m)) = m) as ->.
    { rewrite (list_to_map_proper _ (map_to_list m)); [apply list_to_map_to_list| |apply Ho].
      rewrite Ho. apply NoDup_fst_map_to_list. }
    destruct (list_to_map _ !! k); [done|]. by destruct (m !! k).
  - rewrite Forall_forall. intros [k' v] Hin. rewrite Ho in Hin. apply elem_of_map_to_list in Hin. by eapply Hk.
Qed.
End Environ.
End ExecFacts.

(** ** Witnesses *)

Import RefClassAd ExecFacts.

Lemma outcome_reported_witness :
  Exec.rawStatus (Exec.inspectWait (Some (mkProcState 139 None))) = 139 ∧
  Exec.coreDump (Exec.inspectWait (Some (mkProcState 139 None))) = true ∧
  EvaluateAttrInt "ExitSignal" (Exec.buildFinalAd (Exec.inspectWait (Some (mkProcState 139 None))) 42 5 9) = Some 11.
Proof.
  destruct (outcome_reported (KilledBy 11 true) None 42 5 9) as (H1 & H2 & _ & H3 & _); [cbn; lia|].
  split; [exact H1|]. split; [exact H2|exact H3].
Defined.

Definition demoAct : StarterMsg.ActivateMsg :=
  StarterMsg.mkActivateMsg None None "/x/d" {[ "TMPDIR" := "/tmp"; "OMP_NUM_THREADS" := "4" ]}.

(** The overlay cannot redirect the temporary directory. *)
Lemma environment_precedence_witness :
  getenv (Exec.jobEnviron (λ l, l) (lits [("Env", VString "OMP_NUM_THREADS=64;A=1")]) demoAct "s" "/i") "TMPDIR" = Some "/x/d" ∧
  getenv (Exec.jobEnviron (λ l, l) (lits [("Env", VString "OMP_NUM_THREADS=64;A=1")]) demoAct "s" "/i") "OMP_NUM_THREADS" = Some "4".
Proof.
  assert (∀ k v, StarterMsg.am_EnvOverlay demoAct !! k = Some v → ¬ contains equals k) as Hk.
  { intros k v H. cbn in H. apply lookup_insert_Some in H as [[<- _]|[_ [<- _]%lookup_singleton_Some]];
      apply (bool_decide_unpack _); by vm_compute. }
  split.
  - rewrite (environment_precedence (λ l, l) _ demoAct "s" "/i" "TMPDIR"); [by vm_compute|done|exact Hk].
  - rewrite (environment_precedence (λ l, l) _ demoAct "s" "/i" "OMP_NUM_THREADS"); [by vm_compute|done|exact Hk].
Defined.
