(* ===== verification/Transfer.v ===== *)
(** * The starter's file transfer client (internal/starter/transfer.go)

    Before the job runs the input sandbox is pulled from the shadow; afterwards the output
    is selected and pushed.  The wire protocol itself ([filetransfer.ReceiveStream],
    [SendStream]) is a library: an effect.  Which files go where is decided here. *)

From S2P Require Import Prelude GoLang ClassAd AdWire StarterMsg Args StarterEnv Exec.
From Stdlib Require Import Ascii.
From stdpp Require Import sorting.

Local Open Scope Z_scope.

Module Transfer.

Definition stdoutRemapName : string := "_condor_stdout".
Definition stderrRemapName : string := "_condor_stderr".

Definition FILETRANS_UPLOAD : Z := 61000.
Definition FILETRANS_DOWNLOAD : Z := 61001.

(** [fileStamp]: size and modification time. *)
Definition fileStamp : Type := Z * Time.

Record transferState := mkTransferState {
  ts_sessionID : string;
  ts_socket : string;
  ts_key : string;
  ts_sandbox : string;
  ts_snapshot : gmap string fileStamp
}.

Definition with_route (key socket : string) (ts : transferState) : transferState :=
  mkTransferState (ts_sessionID ts) socket key (ts_sandbox ts) (ts_snapshot ts).
Definition with_snapshot (m : gmap string fileStamp) (ts : transferState) : transferState :=
  mkTransferState (ts_sessionID ts) (ts_socket ts) (ts_key ts) (ts_sandbox ts) m.

(** ** File lists *)

Definition listSep (c : ascii) : bool :=
  let v := byte_val c in (v =? 44) || (v =? 32) || (v =? 9) || (v =? 10).

Definition splitFileList (lst : string) : list string :=
  omap (λ f, let f := TrimSpace f in if bool_decide (f = "") then None else Some f)
    (Args.FieldsFunc lst listSep).

(** [sort.Strings]: bytewise. *)
Definition str_le (a b : string) : Prop := String.leb a b = true.
#[global] Instance str_le_dec : RelDecision str_le.
Proof. intros a b. unfold str_le. apply _. Defined.
Definition sortStrings (l : list string) : list string := merge_sort str_le l.

(** ** The sink of received files *)

(** [dest]: [None] is the refusal. *)
Definition dest (dir name : string) : option string :=
  let clean := Clean name in
  if IsAbs clean || bool_decide (clean = "..") || HasPrefix clean "../" then None
  else Some (pathJoin [dir; clean]).

Section Programs.
Context {CA : ClassAdLib} {ML : MessageLib}.
Context (quote : string → string).

(** [sandboxSink.Mkdir] and [sandboxSink.File]. *)
Definition sinkMkdir (dir name : string) : M err :=
  match dest dir name with
  | None => mret (Some ("starter: refusing input path outside sandbox: " +:+ quote name))
  | Some dst => perform (MkdirAll dst perm755)
  end.

Definition sinkFile (dir name : string) (mode : Z) : M err :=
  match dest dir name with
  | None => mret (Some ("starter: refusing input path outside sandbox: " +:+ quote name))
  | Some dst =>
      e ← perform (MkdirAll (pathDir dst) perm755);
      match e with
      | Some e => mret (Some e)
      | None =>
          let perm := Z.land mode perm777 in
          perform (OpenFile dst true (if perm =? 0 then perm644 else perm))
      end
  end.

Definition sinkOp (dir : string) (c : sinkCall) : M err :=
  match c with
  | CallMkdir name => sinkMkdir dir name
  | CallFile name mode => sinkFile dir name mode
  end.

Fixpoint sinkOps (dir : string) (cs : list sinkCall) : M unit :=
  match cs with
  | [] => mret tt
  | c :: cs => sinkOp dir c ;; sinkOps dir cs
  end.

(** ** Set-up *)

Definition shouldTransfer (jobAd : ClassAd) : bool :=
  match EvaluateAttrString "ShouldTransferFiles" jobAd with
  | None => false
  | Some v => if bool_decide (v = "") then false else negb (EqualFold v "NO")
  end.

Definition setupTransfer (jobAd : ClassAd) (sandbox : string) (sec : option SecSessionInfo)
    : M (string + option transferState) :=
  let socket := default "" (EvaluateAttrString "TransferSocket" jobAd) in
  let key := default "" (EvaluateAttrString "TransferKey" jobAd) in
  if bool_decide (socket = "") || bool_decide (key = "") then mret (inr None) else
  match sec with
  | None => mret (inl "starter: job ad requests file transfer but the shadow provided no filetrans session (get_sec_session_info)")
  | Some sec =>
      if bool_decide (FiletransID sec = "") || bool_decide (FiletransKey sec = "")
      then mret (inl "starter: job ad requests file transfer but the shadow provided no filetrans session (get_sec_session_info)")
      else
        e ← perform (CreateSession (FiletransID sec) (FiletransInfo sec) (FiletransKey sec) socket);
        match e with
        | Some e => mret (inl ("starter: importing filetrans session: " +:+ e))
        | None => mret (inr (Some (mkTransferState (FiletransID sec) socket key sandbox ∅)))
        end
  end.

(** ** Connecting *)

Definition dial (ts : transferState) (cmd : Z) : M (string + sid) :=
  r ← perform (DialTransfer (ts_socket ts) (ts_sessionID ts) cmd);
  match r with
  | inl e => mret (inl ("starter: connect/resume filetrans session for command " +:+ show cmd +:+ ": " +:+ e))
  | inr (hc, neg) =>
      if negb (default false neg) then
        perform (CloseClient hc);;
        mret (inl "starter: filetrans connection is not encrypted; refusing to send TransferKey")
      else
        e ← perform (PutSecret hc (ts_key ts));
        match e with
        | Some e => perform (CloseClient hc);; mret (inl ("starter: sending TransferKey: " +:+ e))
        | None =>
            e ← perform (FlushSecret hc);
            match e with
            | Some e => perform (CloseClient hc);; mret (inl ("starter: flushing TransferKey: " +:+ e))
            | None => mret (inr hc)
            end
        end
  end.

(** ** Input *)

(** The regular entries whose [Info] can be read; names are distinct in a directory. *)
Definition snapshotOf (entries : list dirEntry) : gmap string fileStamp :=
  foldl (λ out e, if de_regular e then match de_info e with Some st => <[de_name e := st]> out | None => out end else out)
    ∅ entries.

Definition snapshotSandbox (dir : string) : M (gmap string fileStamp) :=
  entries ← perform (ReadDir dir);
  mret (match entries with None => ∅ | Some es => snapshotOf es end).

Definition downloadInput (ts : transferState) : M (err * transferState) :=
  r ← dial ts FILETRANS_UPLOAD;
  match r with
  | inl e => mret (Some e, ts)
  | inr hc =>
      r ← perform (ReceiveStream hc);
      sinkOps (ts_sandbox ts) r.1;;
      match r.2 with
      | Some e => perform (CloseClient hc);; mret (Some ("starter: input transfer: " +:+ e), ts)
      | None =>
          snap ← snapshotSandbox (ts_sandbox ts);
          perform (CloseClient hc);;
          mret (None, with_snapshot snap ts)
      end
  end.

(** ** Output *)

(** The plan being built, and [seen]. *)
Record planState := mkPlanState { pl_files : list fileSpec; pl_seen : gset string }.

Definition emptyPlan : planState := mkPlanState [] ∅.

(** The closure [add]. *)
Definition addFile (sandbox wireName relSource : string) (required : bool) (pl : planState)
    : M (err * planState) :=
  if bool_decide (wireName = "") || bool_decide (wireName ∈ pl_seen pl) then mret (None, pl) else
  let source := pathJoin [sandbox; relSource] in
  info ← perform (Stat source);
  match info with
  | inl e => mret (if required then Some ("starter: output file " +:+ quote relSource +:+ ": " +:+ e) else None, pl)
  | inr info =>
      if negb (fi_regular info) then
        mret (if required then Some ("starter: output file " +:+ quote relSource +:+ " is not a regular file") else None, pl)
      else
        mret (None, mkPlanState (pl_files pl ++ [mkFileSpec wireName (fi_perm info) (fi_size info) source])
                      ({[wireName]} ∪ pl_seen pl))
  end.

(** [addFile] over a list, up to the first error. *)
Fixpoint addFiles (sandbox : string) (required : bool) (names : list (string * string)) (pl : planState)
    : M (err * planState) :=
  match names with
  | [] => mret (None, pl)
  | (wire, rel) :: names =>
      r ← addFile sandbox wire rel required pl;
      match r with
      | (Some e, pl) => mret (Some e, pl)
      | (None, pl) => addFiles sandbox required names pl
      end
  end.

(** The stdio attributes that qualify, in the iteration order of the literal map. *)
Definition stdioFiles (errFirst : bool) (jobAd : ClassAd) : list (string * string) :=
  omap (λ aw : string * string,
    let p := default "" (EvaluateAttrString aw.1 jobAd) in
    if negb (bool_decide (p = "")) && negb (bool_decide (p = Exec.nullFile)) && negb (IsAbs p)
    then Some (aw.2, p) else None)
    (if errFirst then [("Err", stderrRemapName); ("Out", stdoutRemapName)]
     else [("Out", stdoutRemapName); ("Err", stderrRemapName)]).

(** The explicit list, when one of the two attributes is there. *)
Definition explicitOutput (jobAd : ClassAd) : option string :=
  match EvaluateAttrString "TransferOutput" jobAd with
  | Some l => Some l
  | None => EvaluateAttrString "TransferOutputFiles" jobAd
  end.

(** A top-level file the default selection sends. *)
Definition selected (stdioRel : gset string) (before now : gmap string fileStamp) (name : string) : bool :=
  if bool_decide (name ∈ stdioRel) then false
  else if bool_decide (name = stdoutRemapName) || bool_decide (name = stderrRemapName) then false
  else negb (match (before !! name : option fileStamp), (now !! name : option fileStamp) with
             | Some old, Some st => (old.1 =? st.1) && (old.2 =? st.2)
             | _, _ => false
             end).

Definition buildOutputPlan (errFirst : bool) (ts : transferState) (jobAd : ClassAd) : M (err * list fileSpec) :=
  let stdio := stdioFiles errFirst jobAd in
  r ← addFiles (ts_sandbox ts) false stdio emptyPlan;
  match r with (Some e, pl) => mret (Some e, pl_files pl) | (None, pl) =>
  let stdioRel : gset string := list_to_set ((λ wp, Clean wp.2) <$> stdio) in
  match explicitOutput jobAd with
  | Some lst =>
      r ← addFiles (ts_sandbox ts) true ((λ f, (f, f)) <$> splitFileList lst) pl;
      mret (r.1, pl_files r.2)
  | None =>
      now ← snapshotSandbox (ts_sandbox ts);
      let names := sortStrings ((map_to_list now).*1) in
      r ← addFiles (ts_sandbox ts) false
            ((λ n, (n, n)) <$> filter (λ n, selected stdioRel (ts_snapshot ts) now n = true) names) pl;
      mret (r.1, pl_files r.2)
  end end.

Definition uploadOutput (errFirst : bool) (ts : transferState) (jobAd : ClassAd) : M err :=
  r ← buildOutputPlan errFirst ts jobAd;
  match r with
  | (Some e, _) => mret (Some e)
  | (None, plan) =>
      r ← dial ts FILETRANS_DOWNLOAD;
      match r with
      | inl e => mret (Some e)
      | inr hc =>
          e ← perform (SendStream hc plan);
          perform (CloseClient hc);;
          mret (match e with Some e => Some ("starter: output transfer: " +:+ e) | None => None end)
      end
  end.
End Programs.
End Transfer.
