(* ===== verification/TransferFacts.v ===== *)
(** * File transfer: where files land and which files are sent

    The sink only writes inside the sandbox, whatever names the shadow sends.  On a file
    system that stays as it is, the output plan is the one its documentation describes. *)

From S2P Require Import Prelude GoLang Paths ClassAd AdWire StarterMsg Args StarterEnv Exec Transfer.
From stdpp Require Import sorting.

Local Open Scope Z_scope.

Module TransferFacts.

(** ** The sink *)

Lemma dest_spec dir name :
  Transfer.dest dir name = if IsAbs name || Paths.climbs name then None else Some (pathJoin [dir; Clean name]).
Proof.
  unfold Transfer.dest. rewrite Paths.IsAbs_Clean. destruct (IsAbs name) eqn:E; [done|].
  rewrite Paths.climbs_Clean by done. by rewrite orb_assoc.
Qed.

Lemma Clean_nonempty p : Clean p ≠ "".
Proof.
  intros H. apply (f_equal bytes_of) in H. rewrite Paths.Clean_bytes in H. change (bytes_of "") with (@nil Ascii.ascii) in H.
  destruct (IsAbs p); [done|]. pose proof (Paths.clean_pieces _ _ (Paths.components_clean p)) as Hp.
  destruct (Paths.components p) as [|x l]; [done|]. inversion Hp as [|? ? [_ Hx] _]; subst. by destruct x, l.
Qed.

Lemma dest_inside dir name p : dir ≠ "" → Transfer.dest dir name = Some p → Paths.inside dir p ∧ Clean p = p.
Proof.
  intros Hd. rewrite dest_spec. destruct (IsAbs name || Paths.climbs name) eqn:E; [done|]. intros [= <-].
  apply orb_false_iff in E as [Ha Hc]. split.
  - apply Paths.inside_join; [done|apply Clean_nonempty|by rewrite Paths.IsAbs_Clean|].
    unfold Paths.climbs. by rewrite Paths.components_Clean.
  - rewrite Paths.pathJoin_two by (done || apply Clean_nonempty). apply Paths.Clean_idem.
Qed.

(** The directory of a path inside [dir] is inside it too, or is its parent. *)
Definition parentOf (dir p : string) : Prop :=
  IsAbs p = IsAbs dir ∧ Paths.components p = removelast (Paths.components dir).

Lemma pathDir_inside dir p : Paths.inside dir p → Clean p = p → Paths.inside dir (pathDir p) ∨ parentOf dir (pathDir p).
Proof.
  intros (Ha & rest & Hc & Hn) Hp. destruct (Paths.components_pathDir p) as [H1 H2]. rewrite Hp in H1, H2.
  destruct (Paths.snoc_cases rest) as [->|(l & x & ->)].
  - right. rewrite app_nil_r in Hc. split; [congruence|]. by rewrite H2, Hc.
  - left. split; [congruence|]. exists l. rewrite H2, Hc, app_assoc, removelast_last.
    split; [done|]. by apply Forall_app in Hn as [? _].
Qed.

Section Facts.
Context {CA : ClassAdLib} {ML : MessageLib}.
Context (quote : string → string).

(** What receiving input may do to the file system: directories inside the sandbox (or
    the sandbox's own parent), files inside it, with permission bits that are not empty. *)
Definition confined (dir : string) (o : obs) : Prop :=
  match o_eff o with
  | MkdirAll p _ => Paths.inside dir p ∨ parentOf dir p
  | OpenFile p w perm => Paths.inside dir p ∧ 0 < perm ≤ perm777
  | StartProcess _ | Kill _ _ => False
  | _ => True
  end.

Lemma perm_range mode : 0 < (if Z.land mode perm777 =? 0 then perm644 else Z.land mode perm777) ≤ perm777.
Proof.
  assert (0 ≤ Z.land mode perm777 ≤ perm777).
  { change perm777 with (Z.ones 9). rewrite Z.land_ones by lia. pose proof (Z.mod_pos_bound mode (2 ^ 9)). change (Z.ones 9) with 511. lia. }
  destruct (Z.eqb_spec (Z.land mode perm777) 0); unfold perm644, perm777 in *; lia.
Qed.

Lemma sinkOp_confined dir c : dir ≠ "" → emits (confined dir) (Transfer.sinkOp quote dir c).
Proof.
  intros Hd. destruct c as [name|name mode]; simpl.
  - unfold Transfer.sinkMkdir. destruct (Transfer.dest dir name) as [p|] eqn:E; emits.
    left. by apply (dest_inside dir name).
  - unfold Transfer.sinkFile. destruct (Transfer.dest dir name) as [p|] eqn:E; [|emits].
    apply dest_inside in E as [Hi Hp]; [|done]. apply emits_bind; [|intros [e|]; emits].
    + emits. by apply pathDir_inside.
    + split; [done|]. apply perm_range.
Qed.

Lemma sinkOps_confined dir cs : dir ≠ "" → emits (confined dir) (Transfer.sinkOps quote dir cs).
Proof. intros Hd. induction cs; simpl; emits; [by apply sinkOp_confined|done]. Qed.

(** C30: received input stays in the sandbox.  Whatever names and modes the peer of the
    transfer sends, every file that receiving the input opens lies inside the sandbox,
    with permission bits that are not empty, and every directory it creates lies
    inside it or is the one the sandbox is in. *)
Theorem download_confined ts env s :
  Transfer.ts_sandbox ts ≠ "" →
  ∃ h, hist (Transfer.downloadInput quote ts env s).1 = hist s ++ h ∧ Forall (confined (Transfer.ts_sandbox ts)) h.
Proof.
  intros Hd. revert env s. change (emits (confined (Transfer.ts_sandbox ts)) (Transfer.downloadInput quote ts)).
  unfold Transfer.downloadInput, Transfer.dial, Transfer.snapshotSandbox.
  emits; try done; try by apply sinkOps_confined.
Qed.

(** ** The output plan *)

(** A file system that does not change while the plan is built. *)
Record frozen (env : Oracle) (stat : string → string + fileInfo) (ls : string → option (list dirEntry)) : Prop := {
  fz_stat h p : env h (Stat p) = stat p;
  fz_ls h p : env h (ReadDir p) = ls p
}.

Context (stat : string → string + fileInfo) (ls : string → option (list dirEntry)).

(** The entry for the file [rel], when it is a regular file. *)
Definition entryFor (sandbox : string) (wr : string * string) : option fileSpec :=
  if bool_decide (wr.1 = "") then None else
  match stat (pathJoin [sandbox; wr.2]) with
  | inr info => if fi_regular info then Some (mkFileSpec wr.1 (fi_perm info) (fi_size info) (pathJoin [sandbox; wr.2])) else None
  | inl _ => None
  end.

(** The first of the entries of each wire name, [seen] apart. *)
Fixpoint firsts (seen : gset string) (l : list fileSpec) : list fileSpec :=
  match l with
  | [] => []
  | f :: l => if bool_decide (fs_WireName f ∈ seen) then firsts seen l
              else f :: firsts ({[fs_WireName f]} ∪ seen) l
  end.

Definition wires (l : list fileSpec) : gset string := list_to_set (fs_WireName <$> l).

(** The plan the documentation of [uploadOutput] describes: the captured output, *)
Definition stdioPlan (errFirst : bool) (sandbox : string) (jobAd : ClassAd) : list fileSpec :=
  omap (entryFor sandbox) (Transfer.stdioFiles errFirst jobAd).

(** the files of a list, under their own names, *)
Definition named (sandbox : string) (names : list string) : list fileSpec :=
  omap (λ n, entryFor sandbox (n, n)) names.

(** of which one may be missing (not when it is already in the plan), *)
Definition missing (sandbox : string) (seen : gset string) (n : string) : bool :=
  negb (bool_decide (n = "")) && negb (bool_decide (n ∈ seen)) && negb (bool_decide (is_Some (entryFor sandbox (n, n)))).

(** and, without a list, the top-level files that are new or changed since [before] and
    not the job's captured output. *)
Definition changed (errFirst : bool) (jobAd : ClassAd) (before : gmap string Transfer.fileStamp)
    (es : list dirEntry) (n : string) : Prop :=
  ∃ st, Transfer.snapshotOf es !! n = Some st ∧ before !! n ≠ Some st ∧
    (n ∉ (Clean ∘ snd <$> Transfer.stdioFiles errFirst jobAd)) ∧
    n ≠ Transfer.stdoutRemapName ∧ n ≠ Transfer.stderrRemapName.

Lemma entryFor_wire sandbox wr f : entryFor sandbox wr = Some f → fs_WireName f = wr.1 ∧ wr.1 ≠ "".
Proof. unfold entryFor. repeat case_match; intros; simplify_eq. split; [done|]. by case_bool_decide. Qed.

Lemma addFile_frozen env sandbox wire rel required pl s :
  frozen env stat ls →
  (∃ e, (Transfer.addFile quote sandbox wire rel required pl env s).2 = Val (Some e, pl) ∧
        required = true ∧ wire ≠ "" ∧ (wire ∉ Transfer.pl_seen pl) ∧ entryFor sandbox (wire, rel) = None) ∨
  ((Transfer.addFile quote sandbox wire rel required pl env s).2 = Val (None,
     if bool_decide (wire ∈ Transfer.pl_seen pl) then pl
     else match entryFor sandbox (wire, rel) with
          | Some f => Transfer.mkPlanState (Transfer.pl_files pl ++ [f]) ({[wire]} ∪ Transfer.pl_seen pl)
          | None => pl
          end) ∧
   (required = false ∨ wire = "" ∨ wire ∈ Transfer.pl_seen pl ∨ is_Some (entryFor sandbox (wire, rel)))).
Proof.
  intros Hf. unfold Transfer.addFile, entryFor. cbn [fst snd]. case_bool_decide as E1; cbn [orb].
  { right. split; [|tauto]. by case_bool_decide. }
  case_bool_decide as E2; cbn [orb]; [right; tauto|]. unfold mbind, M_bind, perform. cbn.
  rewrite (fz_stat _ _ _ Hf). destruct (stat _) as [e|info], required; cbn.
  - left. eexists. by split_and!.
  - right. tauto.
  - destruct (fi_regular info); [right; eauto 6|left; eexists; by split_and!].
  - destruct (fi_regular info); right; tauto.
Qed.

Definition planAfter (sandbox : string) (names : list (string * string)) (pl : Transfer.planState) (seen' : gset string)
    : Transfer.planState :=
  Transfer.mkPlanState (Transfer.pl_files pl ++ firsts (Transfer.pl_seen pl) (omap (entryFor sandbox) names)) seen'.

(** The plan after one more file. *)
Definition planOne (sandbox : string) (wr : string * string) (pl : Transfer.planState) : Transfer.planState :=
  if bool_decide (wr.1 ∈ Transfer.pl_seen pl) then pl
  else match entryFor sandbox wr with
       | Some f => Transfer.mkPlanState (Transfer.pl_files pl ++ [f]) ({[wr.1]} ∪ Transfer.pl_seen pl)
       | None => pl
       end.

Definition planAll (sandbox : string) (names : list (string * string)) (pl : Transfer.planState) : Transfer.planState :=
  planAfter sandbox names pl (Transfer.pl_seen pl ∪ wires (omap (entryFor sandbox) names)).

Lemma planAll_nil sandbox pl : planAll sandbox [] pl = pl.
Proof.
  destruct pl as [fs sn]. unfold planAll, planAfter. cbn. rewrite app_nil_r.
  by rewrite (right_id_L ∅ union).
Qed.

Lemma planAll_cons sandbox wr names pl : planAll sandbox (wr :: names) pl = planAll sandbox names (planOne sandbox wr pl).
Proof.
  unfold planAll, planAfter, planOne. destruct pl as [fs sn]. rewrite omap_cons.
  destruct (entryFor sandbox wr) as [f|] eqn:E; [|by case_bool_decide].
  apply entryFor_wire in E as [E _]. case_bool_decide as Hin; cbn; rewrite E; cbn.
  - rewrite bool_decide_true by done. f_equal. unfold wires; cbn; rewrite ?E; set_solver.
  - rewrite bool_decide_false by done. rewrite <-app_assoc. f_equal. unfold wires; cbn; rewrite ?E; set_solver.
Qed.

(** A file that stops the pass. *)
Definition bad (sandbox : string) (seen : gset string) (wr : string * string) : Prop :=
  wr.1 ≠ "" ∧ (wr.1 ∉ seen) ∧ entryFor sandbox wr = None.

Lemma bad_planOne sandbox wr wr' pl :
  bad sandbox (Transfer.pl_seen (planOne sandbox wr pl)) wr' → bad sandbox (Transfer.pl_seen pl) wr'.
Proof.
  unfold planOne. case_bool_decide; [done|]. destruct (entryFor sandbox wr); [|done].
  intros (H1 & H2 & H3). split_and!; [done|cbn in H2; set_solver|done].
Qed.

Lemma bad_planOne_same sandbox wr wr' pl :
  wr.1 = wr.2 → wr'.1 = wr'.2 →
  bad sandbox (Transfer.pl_seen pl) wr' → bad sandbox (Transfer.pl_seen (planOne sandbox wr pl)) wr'.
Proof.
  unfold planOne. intros E E' (H1 & H2 & H3). case_bool_decide; [done|].
  destruct (entryFor sandbox wr) eqn:Ee; [|done]. split_and!; [done| |done]. cbn.
  apply not_elem_of_union. split; [|done]. rewrite not_elem_of_singleton. intros Heq.
  destruct wr, wr'. cbn in *. subst. congruence.
Qed.

(** A pass over a list of files: an error, or the first entry of each name. *)
Lemma addFiles_frozen env sandbox required names pl s :
  frozen env stat ls → (required = true → Forall (λ wr, wr.1 = wr.2) names) →
  let r := (Transfer.addFiles quote sandbox required names pl env s).2 in
  (required = true ∧ Exists (bad sandbox (Transfer.pl_seen pl)) names ∧ ∃ e pl', r = Val (Some e, pl')) ∨
  (r = Val (None, planAll sandbox names pl) ∧
   (required = true → Forall (λ wr, ¬ bad sandbox (Transfer.pl_seen pl) wr) names)).
Proof.
  intros Hf. revert pl s. induction names as [|[wire rel] names IH]; intros pl s Hsame r; subst r.
  { right. cbn. by rewrite planAll_nil. }
  assert (required = true → Forall (λ wr, wr.1 = wr.2) names) as Hsame'
    by (intros Hr; specialize (Hsame Hr); by inversion Hsame).
  cbn [Transfer.addFiles].
  destruct (addFile_frozen env sandbox wire rel required pl s Hf) as [(e & He & Hr & H1 & H2 & H3)|[He Hok]].
  { left. rewrite (bind_val _ _ _ _ _ He). split_and!; [done|by constructor|]. by eexists _, _. }
  rewrite (bind_val _ _ _ _ _ He). cbn match. change (if bool_decide _ then pl else _) with (planOne sandbox (wire, rel) pl).
  set (s1 := (Transfer.addFile quote sandbox wire rel required pl env s).1).
  rewrite planAll_cons. destruct (IH (planOne sandbox (wire, rel) pl) s1 Hsame') as [(Hr & Hbad & Ht)|[Ht Hgood]].
  - left. split_and!; [done| |done]. apply Exists_cons_tl. eapply Exists_impl; [exact Hbad|]. intros ?. apply bad_planOne.
  - right. split; [done|]. intros Hr. specialize (Hsame Hr). inversion Hsame; subst. constructor.
    + intros (B1 & B2 & B3). cbn in *. destruct Hok as [?|[?|[?|[? ?]]]]; congruence || done.
    + rewrite Forall_forall in Hgood, Hsame' |- *; [|done..]. intros wr Hin Hb.
      apply (Hgood eq_refl wr Hin), bad_planOne_same; auto.
Qed.

(** ** The default selection *)

Lemma str_cmp_trans a b c : String.leb a b = true → String.leb b c = true → String.leb a c = true.
Proof.
  unfold String.leb. revert b c. induction a as [|x a IH]; intros [|y b] [|z c]; cbn; try done.
  unfold Ascii.compare. destruct (N.compare_spec (Ascii.N_of_ascii x) (Ascii.N_of_ascii y));
    destruct (N.compare_spec (Ascii.N_of_ascii y) (Ascii.N_of_ascii z));
    destruct (N.compare_spec (Ascii.N_of_ascii x) (Ascii.N_of_ascii z)); try done; try lia; apply IH.
Qed.

#[local] Instance str_le_trans : Transitive Transfer.str_le.
Proof. intros a b c. apply str_cmp_trans. Qed.
#[local] Instance str_le_total : Total Transfer.str_le.
Proof. intros a b. apply String.leb_total. Qed.

Lemma firsts_nodup seen l :
  NoDup (fs_WireName <$> l) → Forall (λ f, fs_WireName f ∉ seen) l → firsts seen l = l.
Proof.
  revert seen. induction l as [|f l IH]; intros seen Hn Hs; cbn; [done|].
  inversion Hn as [|? ? Hx Hn']; subst. inversion Hs as [|? ? Hf Hs']; subst.
  rewrite bool_decide_false by done. f_equal. apply IH; [done|].
  rewrite Forall_forall in Hs' |- *. intros g Hg. apply not_elem_of_union. split; [|by apply Hs'].
  rewrite not_elem_of_singleton. intros E. apply Hx. rewrite <-E. apply list_elem_of_fmap. eauto.
Qed.

Lemma wires_sublist sandbox l : (fs_WireName <$> omap (entryFor sandbox) l) `sublist_of` l.*1.
Proof.
  induction l as [|wr l IH]; [done|]. rewrite omap_cons. destruct (entryFor sandbox wr) as [f|] eqn:E; cbn.
  - apply entryFor_wire in E as [-> _]. by apply sublist_skip.
  - by apply sublist_cons.
Qed.

Lemma sublist_elem {A} (l k : list A) x : l `sublist_of` k → x ∈ l → x ∈ k.
Proof. induction 1; set_solver. Qed.

Lemma stdioFiles_wires errFirst jobAd :
  NoDup (Transfer.stdioFiles errFirst jobAd).*1 ∧
  Forall (λ w, w = Transfer.stdoutRemapName ∨ w = Transfer.stderrRemapName) (Transfer.stdioFiles errFirst jobAd).*1.
Proof.
  assert ((Transfer.stdioFiles errFirst jobAd).*1 `sublist_of`
    (if errFirst then [Transfer.stderrRemapName; Transfer.stdoutRemapName]
     else [Transfer.stdoutRemapName; Transfer.stderrRemapName])) as Hs.
  { unfold Transfer.stdioFiles. destruct errFirst; rewrite !omap_cons; cbn [fst snd];
      destruct (_ && _), (_ && _); cbn; repeat (apply sublist_skip || apply sublist_cons); apply sublist_nil. }
  split.
  - eapply sublist_NoDup; [|exact Hs]. apply (bool_decide_unpack _). by destruct errFirst; vm_compute.
  - rewrite Forall_forall. intros w Hw%(sublist_elem _ _ _ Hs). destruct errFirst; set_solver.
Qed.

Lemma named_omap sandbox names : named sandbox names = omap (entryFor sandbox) ((λ n, (n, n)) <$> names).
Proof. unfold named. induction names as [|n l IH]; [done|]. cbn. by rewrite IH. Qed.

Lemma pass_stdio env errFirst sandbox jobAd s :
  frozen env stat ls →
  (Transfer.addFiles quote sandbox false (Transfer.stdioFiles errFirst jobAd) Transfer.emptyPlan env s).2 =
    Val (None, Transfer.mkPlanState (stdioPlan errFirst sandbox jobAd) (wires (stdioPlan errFirst sandbox jobAd))).
Proof.
  intros Hf. destruct (addFiles_frozen env sandbox false (Transfer.stdioFiles errFirst jobAd) Transfer.emptyPlan s Hf)
    as [[? _]|[-> _]]; [done..|]. unfold planAll, planAfter. cbn [Transfer.emptyPlan Transfer.pl_files Transfer.pl_seen app].
  rewrite (left_id_L ∅ union), firsts_nodup; [done| |].
  - eapply sublist_NoDup; [apply stdioFiles_wires|apply wires_sublist].
  - apply Forall_true. intros f. apply not_elem_of_empty.
Qed.

Lemma StronglySorted_filter {A} (R : relation A) (P : A → Prop) `{∀ x, Decision (P x)} l :
  StronglySorted R l → StronglySorted R (filter P l).
Proof.
  induction 1 as [|x l Hl IH Hx]; [constructor|]. rewrite filter_cons. case_decide; [|done].
  constructor; [done|]. rewrite Forall_forall in Hx |- *. intros y [_ Hy]%list_elem_of_filter. auto.
Qed.

(** The names the default selection goes through. *)
Lemma selected_changed errFirst jobAd before es n :
  n ∈ filter (λ n, Transfer.selected
        (list_to_set ((λ wp : string * string, Clean wp.2) <$> Transfer.stdioFiles errFirst jobAd)) before
        (Transfer.snapshotOf es) n = true)
      (Transfer.sortStrings ((map_to_list (Transfer.snapshotOf es)).*1)) ↔
  changed errFirst jobAd before es n.
Proof.
  rewrite list_elem_of_filter. unfold Transfer.sortStrings. rewrite merge_sort_Permutation, list_elem_of_fmap.
  unfold Transfer.selected, changed. split.
  - intros [Hsel ([n' st] & -> & Hin)]. apply elem_of_map_to_list in Hin. cbn [fst snd] in *. rewrite Hin in Hsel.
    case_bool_decide as E1; [done|]. case_bool_decide as E2; [done|]. case_bool_decide as E3; [done|].
    exists st. split_and!; [done| | |done|done].
    + intros Hb. rewrite Hb, !Z.eqb_refl in Hsel. done.
    + rewrite elem_of_list_to_set in E1. exact E1.
  - intros (st & Hin & Hb & H1 & H2 & H3). split.
    + rewrite bool_decide_false by (rewrite elem_of_list_to_set; exact H1). rewrite !bool_decide_false by done. cbn.
      rewrite Hin. destruct (before !! n) as [old|]; [|done]. apply negb_true_iff, andb_false_iff.
      destruct (Z.eqb_spec old.1 st.1), (Z.eqb_spec old.2 st.2); try tauto. destruct Hb. f_equal. by destruct old, st; cbn in *; subst.
    + exists (n, st). split; [done|]. by apply elem_of_map_to_list.
Qed.

Lemma missing_bad sandbox seen n : missing sandbox seen n = true ↔ bad sandbox seen (n, n).
Proof.
  unfold missing, bad. rewrite !andb_true_iff, !negb_true_iff, !bool_decide_eq_false, <-eq_None_not_Some. tauto.
Qed.

Lemma existsb_missing sandbox seen names :
  existsb (missing sandbox seen) names = true ↔ Exists (bad sandbox seen) ((λ f, (f, f)) <$> names).
Proof.
  rewrite existsb_exists, Exists_exists. split.
  - intros (n & Hin & Hm). exists (n, n). split; [|by apply missing_bad].
    apply list_elem_of_fmap. exists n. by rewrite list_elem_of_In.
  - intros (wr & (n & -> & Hin)%list_elem_of_fmap & Hb). exists n. rewrite <-list_elem_of_In. by rewrite missing_bad.
Qed.

(** Names that are not wire names of the captured output are new to its plan. *)
Lemma named_new errFirst sandbox jobAd names :
  NoDup names → Forall (λ n, n ≠ Transfer.stdoutRemapName ∧ n ≠ Transfer.stderrRemapName) names →
  firsts (wires (stdioPlan errFirst sandbox jobAd)) (named sandbox names) = named sandbox names.
Proof.
  intros Hn Hx. rewrite named_omap.
  pose proof (wires_sublist sandbox ((λ n, (n, n)) <$> names)) as Hs. rewrite <-list_fmap_compose in Hs.
  change (fst ∘ (λ n : string, (n, n))) with (@id string) in Hs. rewrite list_fmap_id in Hs.
  apply firsts_nodup; [by eapply sublist_NoDup|]. rewrite Forall_forall in Hx. apply Forall_forall. intros f Hf Hw.
  assert (fs_WireName f ∈ names) as Hin.
  { eapply sublist_elem; [exact Hs|]. apply list_elem_of_fmap. eauto. }
  destruct (Hx _ Hin) as [Ha Hb]. unfold wires in Hw. rewrite elem_of_list_to_set in Hw.
  apply (sublist_elem _ _ _ (wires_sublist _ _)) in Hw.
  destruct (stdioFiles_wires errFirst jobAd) as [_ Hr]. rewrite Forall_forall in Hr. by destruct (Hr _ Hw).
Qed.

End Facts.
End TransferFacts.

(** ** Witnesses *)

Import RefClassAd RefMessage TransferFacts.

(** A sandbox with two files, and a secret next to it. *)
Definition demoStat (p : string) : string + fileInfo :=
  if bool_decide (p ∈ ["/x/d/out"; "/x/d/res"; "/x/secret"]) then inr (mkFileInfo true perm644 3) else inl "not found".

Definition demoLs (p : string) : option (list dirEntry) :=
  if bool_decide (p = "/x/d") then Some [mkDirEntry "res" true (Some (3, 9)); mkDirEntry "out" true (Some (3, 9));
                                         mkDirEntry "in" true (Some (1, 1)); mkDirEntry "sub" false (Some (0, 9))]
  else None.

Definition demoFs : Oracle := λ _ e,
  match e with
  | Stat p => demoStat p
  | ReadDir p => demoLs p
  | RecvFirst => FirstClosed
  | SyscallConn => inl ""
  | NewCommandServer _ => inl ""
  | CreateSession _ _ _ _ => None
  | AwaitReplied _ => RepliedTimeout
  | RecvMessage _ => [] : Message
  | GetSecSessionInfo _ => SecDeclined
  | DialTransfer _ _ _ => inr (7%nat, Some true)
  | ReceiveStream _ => ([CallFile "a/../in" 0; CallFile "../secret" 420; CallFile "/etc/passwd" 420], None)
  | StartProcess _ => inl ""
  | ReapAfterKill => true
  | ProcessState => None
  | Now => 0
  | TransportClose | OnFinal _ _ _ | CloseCommandServer | AckHandoff _ | CloseStream _ | CloseClient _
  | CloseStdio _ | Kill _ _ => tt
  | _ => None
  end.

Definition demoTs : Transfer.transferState :=
  Transfer.mkTransferState "f" "<s:1>" "k" "/x/d" {[ "in" := (1, 1) ]}.

Definition openOf (o : obs) : option (string * Z) :=
  match o_eff o with OpenFile p _ perm => Some (p, perm) | _ => None end.

(** Two of the three names are refused. *)
Lemma download_confined_witness :
  (∃ h, hist (Transfer.downloadInput (λ s, s) demoTs demoFs (mkSt [] 0%nat)).1 = [] ++ h ∧
        Forall (confined "/x/d") h) ∧
  omap openOf (hist (Transfer.downloadInput (λ s, s) demoTs demoFs (mkSt [] 0%nat)).1) = [("/x/d/in", perm644)].
Proof.
  split; [|by vm_compute]. apply (download_confined (λ s, s) demoTs demoFs (mkSt [] 0%nat)). done.
Defined.

Lemma demoFs_frozen : frozen demoFs demoStat demoLs.
Proof. by split. Qed.


(** The names of an explicit list are not checked as those of received files are: a file
    beside the sandbox is sent. *)
Lemma explicit_output_escapes :
  (Transfer.buildOutputPlan (λ s, s) false demoTs (lits [("TransferOutput", VString "../secret")]) demoFs (mkSt [] 0%nat)).2 =
    Val (None, [mkFileSpec "../secret" perm644 3 "/x/secret"]) ∧
  ¬ Paths.inside "/x/d" "/x/secret".
Proof.
  split; [by vm_compute|]. intros (_ & rest & H & _). vm_compute in H. discriminate.
Qed.
