(* ===== verification/Starter.v ===== *)
(** * The starter (internal/starter/starter.go)

    [Run] receives an activation and the connection to the shadow, asks the shadow for
    the job, transfers its input, runs it, and reports.  The [select] of its monitor loop
    is a list of what it finds, in order; when the list is used up the loop is waiting. *)

From S2P Require Import Prelude GoLang ClassAd AdWire StarterMsg Args StarterEnv Exec Transfer.

Local Open Scope Z_scope.

Module Starter.

(** Constants of [golang-htcondor/syscalls] that the source quotes: an operation number
    and codes of exit.h. *)
Definition OpGetJobInfo : Z := -63.
Definition JobExited : Z := 100.
Definition JobNotStarted : Z := 108.
Definition JobExecFailed : Z := 110.
Definition JobShouldHold : Z := 112.

Definition reconnectReplyTimeout : Duration := 30 * Second.
Definition DefaultUpdateInterval : Duration := 300 * Second.
Definition finalizeTimeout : Duration := 10 * Second.
Definition starterCondorVersion : string := "$CondorVersion: 25.0.0 2025-01-01 BuildID: golang-ep $".

Record Options := mkOptions {
  SlotName : string;
  ClaimID : string;
  UpdateInterval : Duration;
  UIDDomain : string;
  FileSystemDomain : string;
  HasOnFinal : bool;
  EnableCommandServer : bool;
  CommandBindAddr : string
}.

(** The ticker's period. *)
Definition updateInterval (opts : Options) : Duration :=
  if UpdateInterval opts <=? 0 then DefaultUpdateInterval else UpdateInterval opts.

Section Run.
Context {CA : ClassAdLib} {ML : MessageLib}.
Context (quote : string → string).
(** [syscalls.JobKilled] and [JobCoredumped]; [os.Getpid()]; the iteration orders of two
    maps. *)
Context (JobKilled JobCoredumped : Z).
Context (getpid : Z) (order : list (string * string) → list (string * string)) (errFirst : bool).

(** What the [select] of the monitor loop finds. *)
Inductive sel :=
| SelCtx
| SelCtrl (m : option (Z * ClassAd))
| SelReconnect (ho : handoff)
| SelTick
| SelWait.

(** ** get_job_info *)

Definition getJobInfoWithSecrets (s : sid) : M (string + ClassAd) :=
  e ← perform (PutOp s OpGetJobInfo);
  match e with Some e => mret (inl ("writing op: " +:+ e)) | None =>
  e ← perform (FlushOp s);
  match e with Some e => mret (inl ("flushing request: " +:+ e)) | None =>
  m ← perform (RecvMessage s);
  match GetInt m with
  | (None, _) => mret (inl "reading rval")
  | (Some rval, m) =>
      if rval <? 0 then
        perform (DrainMessage s);;
        mret (inl ("shadow declined get_job_info: rval=" +:+ show rval +:+ " errno=" +:+ show (default 0 (GetInt m).1)))
      else
        match AdWire.GetClassAd m with
        | (inl _, _) => mret (inl "reading ad")
        | (inr (ad, _), _) => perform (DrainMessage s);; mret (inr ad)
        end
  end end end.

(** ** Handing over to a reconnecting shadow *)

Definition acceptReconnect (ho : handoff) : M err :=
  perform (AckHandoff ho);;
  r ← perform (AwaitReplied ho);
  let e := match r with
           | Replied e => e
           | RepliedCtx e => Some e
           | RepliedTimeout => Some "no CA_RECONNECT_JOB reply after 30s"
           end in
  (if bool_decide (e = None) then mret tt else perform (CloseStream (ho_stream ho)));;
  mret e.

(** ** Reporting *)

Definition finalize (opts : Options) (status reason : Z) (finalAd : ClassAd) (sendJobExit : bool) : M unit :=
  (if sendJobExit then s ← getSys; perform (JobExit s status reason finalAd);; mret tt else mret tt);;
  perform (SendCtrl StarterMsg.MsgFinal (Some (StarterMsg.MarshalFinal (Some finalAd) status reason)));;
  perform (SendCtrl StarterMsg.MsgExited None);;
  if HasOnFinal opts then perform (OnFinal status reason finalAd) else mret tt.

(** Report JOB_NOT_STARTED and return the error. *)
Definition notStarted {A} (opts : Options) (sendJobExit : bool) (e : string) : M A :=
  finalize opts 0 JobNotStarted adNew sendJobExit;; return_ (Some e).

(** ** The ads *)

Definition hello (opts : Options) (starterAddr : string) (jobPid : Z) (phase : string) : ClassAd :=
  StarterMsg.MarshalHello (StarterMsg.mkHelloMsg getpid starterAddr (ClaimID opts) jobPid phase).

Definition starterInfoAd (opts : Options) (sandbox starterAddr : string) : ClassAd :=
  run_ops
    ([ OpSet "Name" (VString (SlotName opts));
       OpSet "CondorScratchDir" (VString sandbox);
       OpSet "HasReconnect" (VBool (negb (bool_decide (starterAddr = "")))) ]
     ++ when (negb (bool_decide (starterAddr = ""))) [ OpSet "StarterIpAddr" (VString starterAddr) ]
     ++ [ OpSet "CondorVersion" (VString starterCondorVersion) ]
     ++ when (negb (bool_decide (UIDDomain opts = ""))) [ OpSet "UidDomain" (VString (UIDDomain opts)) ]
     ++ when (negb (bool_decide (FileSystemDomain opts = "")))
          [ OpSet "FileSystemDomain" (VString (FileSystemDomain opts)) ]) adNew.

Definition inputFailedAd (e : string) : ClassAd :=
  run_ops [ OpSet "ExitBySignal" (VBool false); OpSet "TransferInputFailed" (VBool true);
            OpSet "TransferErrorString" (VString e) ] adNew.

Definition execFailedAd (e : string) : ClassAd :=
  run_ops [ OpSet "ExitBySignal" (VBool false); OpSet "ExecFailed" (VBool true);
            OpSet "ExecErrorString" (VString e) ] adNew.

(** ** (1), (2): the activation and the connection *)

Definition awaitActivate : M StarterMsg.ActivateMsg :=
  m ← perform RecvFirst;
  match m with
  | FirstClosed => return_ (Some "starter: control channel closed before Activate")
  | FirstCtx e => return_ (Some e)
  | FirstMsg typ ad =>
      if negb (typ =? StarterMsg.MsgActivate)
      then return_ (Some ("starter: first control message is " +:+ StarterMsg.MsgName typ +:+ ", want Activate"))
      else match StarterMsg.ParseActivate ad with
           | None => return_ (Some "starter: parsing Activate")
           | Some act => mret act
           end
  end.

(** (2a): the address of the command server, empty when there is none, and whether one
    runs. *)
Definition startCommandServer (opts : Options) : M (string * bool) :=
  if EnableCommandServer opts then
    r ← perform (NewCommandServer (CommandBindAddr opts));
    mret (match r with inl _ => ("", false) | inr addr => (addr, true) end)
  else mret ("", false).

(** ** (5): the session of the claim *)

Definition registerReconnect (sec : SecSessionInfo) : M err :=
  if bool_decide (ReconnectID sec = "") || bool_decide (ReconnectKey sec = "")
  then mret (Some "starter: no reconnect session material to register")
  else
    e ← perform (CreateSession (ReconnectID sec) (ReconnectInfo sec) (ReconnectKey sec) "");
    mret (match e with Some e => Some ("starter: importing reconnect session: " +:+ e) | None => None end).

Definition secSession (opts : Options) (haveCmdSrv : bool) : M (option SecSessionInfo) :=
  s ← getSys;
  r ← perform (GetSecSessionInfo s);
  match r with
  | SecBroken e => notStarted opts true ("starter: get_sec_session_info: " +:+ e)
  | SecDeclined => mret None
  | SecInfo i => (if haveCmdSrv then registerReconnect i;; mret tt else mret tt);; mret (Some i)
  end.

(** ** (6): input transfer *)

(** The job ad with [Cmd] pointing into the sandbox, when a copy arrived. *)
Definition sandboxCmd (jobAd : ClassAd) (sandbox : string) : M ClassAd :=
  let cmd := default "" (EvaluateAttrString "Cmd" jobAd) in
  if default true (EvaluateAttrBool "TransferExecutable" jobAd) && negb (bool_decide (cmd = "")) then
    let p := pathJoin [sandbox; pathBase cmd] in
    r ← perform (Stat p);
    mret (match r with inr _ => adSet "Cmd" (VString p) jobAd | inl _ => jobAd end)
  else mret jobAd.

Definition inputTransfer (opts : Options) (jobAd : ClassAd) (sandbox : string) (sec : option SecSessionInfo)
    : M (ClassAd * option Transfer.transferState) :=
  if Transfer.shouldTransfer jobAd then
    r ← Transfer.setupTransfer jobAd sandbox sec;
    r ← (match r with
         | inr (Some ts) => d ← Transfer.downloadInput quote ts; mret (d.1, Some d.2)
         | inr None => mret (None, None)
         | inl e => mret (Some e, None)
         end : M (err * option Transfer.transferState));
    match r with
    | (Some e, _) => finalize opts 0 JobNotStarted (inputFailedAd e) true;; return_ None
    | (None, None) => mret (jobAd, None)
    | (None, Some ts) => ad ← sandboxCmd jobAd sandbox; mret (ad, Some ts)
    end
  else mret (jobAd, None).

(** ** (9): the monitor loop *)

(** [reapAfterKill]. *)
Definition hardVacate (jp : Exec.jobProcess) : M unit :=
  Exec.killGroup jp;; perform ReapAfterKill;; mret tt.

(** A control message while the job runs; [true] marks the run as vacated. *)
Definition onControl (opts : Options) (starterAddr : string) (jp : Exec.jobProcess) (vacated : bool) (typ : Z)
    : M bool :=
  if typ =? StarterMsg.MsgVacateHard then Exec.killGroup jp;; mret true
  else if typ =? StarterMsg.MsgVacateSoft then Exec.termGroup jp;; mret true
  else if typ =? StarterMsg.MsgSuspend then Exec.suspendGroup jp;; mret vacated
  else if typ =? StarterMsg.MsgContinue then Exec.continueGroup jp;; mret vacated
  else if typ =? StarterMsg.MsgReattach then
    perform (SendCtrl StarterMsg.MsgHello (Some (hello opts starterAddr (Exec.jp_pid jp) "executing")));; mret vacated
  else mret vacated.

(** The fresh route, where the handoff carries one. *)
Definition reroute (ho : handoff) (ts : Transfer.transferState) : Transfer.transferState :=
  Transfer.with_route
    (if bool_decide (ho_transferKey ho = "") then Transfer.ts_key ts else ho_transferKey ho)
    (if bool_decide (ho_transferSocket ho = "") then Transfer.ts_socket ts else ho_transferSocket ho) ts.

Definition onReconnect (ho : handoff) (tr : option Transfer.transferState) : M (option Transfer.transferState) :=
  e ← acceptReconnect ho;
  match e with
  | Some _ => mret tr
  | None =>
      old ← getSys;
      setSys (ho_stream ho);;
      perform (CloseStream old);;
      mret (reroute ho <$> tr)
  end.

Definition onTick (jp : Exec.jobProcess) : M unit :=
  now ← perform Now;
  let upd := Exec.buildUpdateAd (Exec.jp_pid jp) (Exec.jp_startTime jp) now in
  perform (SendCtrl StarterMsg.MsgUpdate (Some upd));;
  s ← getSys;
  perform (RegisterJobInfo s upd);; mret tt.

Fixpoint monitor (opts : Options) (starterAddr : string) (jp : Exec.jobProcess) (sels : list sel)
    (vacated : bool) (tr : option Transfer.transferState) : M (bool * option Transfer.transferState) :=
  match sels with
  | [] => waiting
  | SelCtx :: _ => hardVacate jp;; mret (true, tr)
  | SelCtrl None :: _ => hardVacate jp;; mret (true, tr)
  | SelCtrl (Some (typ, _)) :: sels =>
      v ← onControl opts starterAddr jp vacated typ; monitor opts starterAddr jp sels v tr
  | SelReconnect ho :: sels => tr ← onReconnect ho tr; monitor opts starterAddr jp sels vacated tr
  | SelTick :: sels => onTick jp;; monitor opts starterAddr jp sels vacated tr
  | SelWait :: _ => mret (vacated, tr)
  end.

(** ** (10), (11): the outcome *)

Definition exitReason (vacated : bool) (info : Exec.waitInfo) : Z :=
  if vacated then JobKilled else if Exec.coreDump info then JobCoredumped else JobExited.

(** Output transfer and job_termination; the reason and the ad they leave. *)
Definition outputTransfer (vacated : bool) (tr : option Transfer.transferState) (jobAd : ClassAd) (reason : Z)
    (finalAd : ClassAd) : M (Z * ClassAd) :=
  match tr with
  | Some ts =>
      if vacated then mret (reason, finalAd) else
      e ← Transfer.uploadOutput quote errFirst ts jobAd;
      let '(reason, finalAd) :=
        match e with
        | Some e => (JobShouldHold, run_ops [ OpSet "TransferOutputFailed" (VBool true);
                                               OpSet "TransferErrorString" (VString e) ] finalAd)
        | None => (reason, finalAd)
        end in
      s ← getSys;
      perform (JobTermination s finalAd);;
      mret (reason, finalAd)
  | None => mret (reason, finalAd)
  end.

Definition finish (opts : Options) (jp : Exec.jobProcess) (jobAd : ClassAd) (vacated : bool)
    (tr : option Transfer.transferState) : M unit :=
  end_ ← perform Now;
  Exec.closeStdio jp;;
  Exec.killGroup jp;;
  ps ← perform ProcessState;
  let info := Exec.inspectWait ps in
  r ← outputTransfer vacated tr jobAd (exitReason vacated info)
        (Exec.buildFinalAd info (Exec.jp_pid jp) (Exec.jp_startTime jp) end_);
  finalize opts (Exec.rawStatus info) r.1 r.2 true;;
  return_ None.

(** ** [Run] *)

(** (3) and (4), and (8) to the end. *)
Definition register (opts : Options) (act : StarterMsg.ActivateMsg) (starterAddr : string) : M ClassAd :=
  s ← getSys;
  r ← getJobInfoWithSecrets s;
  match r with
  | inl e => notStarted opts false ("starter: get_job_info: " +:+ e)
  | inr jobAd =>
      perform (SendCtrl StarterMsg.MsgHello (Some (hello opts starterAddr 0 "activated")));;
      s ← getSys;
      e ← perform (RegisterStarterInfo s (starterInfoAd opts (StarterMsg.am_SandboxDir act) starterAddr));
      match e with
      | Some e => notStarted opts true ("starter: register_starter_info: " +:+ e)
      | None => mret jobAd
      end
  end.

Definition execute (opts : Options) (act : StarterMsg.ActivateMsg) (starterAddr : string) (jobAd : ClassAd)
    (tr : option Transfer.transferState) (sels : list sel) : M unit :=
  r ← Exec.startJob quote order jobAd act (SlotName opts);
  match r with
  | inl e => finalize opts 0 JobExecFailed (execFailedAd e) true;; return_ None
  | inr jp =>
      defer (Exec.killGroup jp)
       (perform (SendCtrl StarterMsg.MsgHello (Some (hello opts starterAddr (Exec.jp_pid jp) "executing")));;
        r ← monitor opts starterAddr jp sels false tr;
        finish opts jp jobAd r.1 r.2)
  end.

Definition begin (opts : Options) : M unit :=
  s ← getSys;
  e ← perform (BeginExecution s);
  match e with
  | Some e => notStarted opts true ("starter: begin_execution: " +:+ e)
  | None => mret tt
  end.

(** With the connection and the command server. *)
Definition serve (opts : Options) (act : StarterMsg.ActivateMsg) (sels : list sel) (cs : string * bool) : M unit :=
  defer (if cs.2 then perform CloseCommandServer else mret tt)
   (jobAd ← register opts act cs.1;
    sec ← secSession opts cs.2;
    t ← inputTransfer opts jobAd (StarterMsg.am_SandboxDir act) sec;
    begin opts;;
    execute opts act cs.1 t.1 t.2 sels).

Definition closeSys : M unit := s ← getSys; perform (CloseStream s).

Definition connected (opts : Options) (act : StarterMsg.ActivateMsg) (sels : list sel) (s : sid) : M unit :=
  setSys s;;
  defer closeSys (cs ← startCommandServer opts; serve opts act sels cs).

Definition activated (opts : Options) (sels : list sel) (act : StarterMsg.ActivateMsg) : M unit :=
  c ← perform SyscallConn;
  match c with
  | inl e => return_ (Some ("starter: receiving syscall conn: " +:+ e))
  | inr s => connected opts act sels s
  end.

Definition Run (opts : Options) (sels : list sel) : M unit :=
  defer (perform TransportClose) (act ← awaitActivate; activated opts sels act).
End Run.
End Starter.
