(* ===== verification/CommandServer.v ===== *)
(** * The starter's command port (internal/starter/command_server.go)

    A reconnecting shadow sends CA_RECONNECT_JOB here.  [caDecide] is what the handler
    makes of a request; [step] is the concurrent protocol of any number of handlers with
    the run loop, over the channels [reconnectCh], [ack] and [replied]: every step is one
    channel operation, one part of a write or one use of a connection. *)

From S2P Require Import Prelude GoLang ClassAd AdWire StarterMsg Reconnect Args StarterEnv Exec Transfer Starter.

Local Open Scope Z_scope.

Module CommandServer.

(** ** Addresses *)

Definition defaultBind (bindAddr : string) : string := if bool_decide (bindAddr = "") then "127.0.0.1:0" else bindAddr.

Definition sinfulOf (addr : string) : string :=
  match SplitHostPort addr with
  | None => "<" +:+ addr +:+ ">"
  | Some (host, port) =>
      let host := if bool_decide (host = "") || bool_decide (host = "0.0.0.0") || bool_decide (host = "::")
                  then "127.0.0.1" else host in
      "<" +:+ host +:+ ":" +:+ port +:+ ">"
  end.

Section Handler.
Context {CA : ClassAdLib}.

(** ** Sessions *)

(** [reconnectSID], and the sessions the cache holds by id. *)
Record commandServer := mkCommandServer {
  cs_sinful : string;
  cs_reconnectSID : string;
  cs_cache : gset string
}.

Definition newCommandServer (addr : string) : commandServer := mkCommandServer (sinfulOf addr) "" ∅.

(** [create] is [security.CreateNonNegotiatedSession]: an error, or an entry for the id. *)
Definition RegisterReconnectSession (create : SecSessionInfo → err) (sec : option SecSessionInfo) (cs : commandServer)
    : err * commandServer :=
  match sec with
  | None => (Some "starter: no reconnect session material to register", cs)
  | Some sec =>
      if bool_decide (ReconnectID sec = "") || bool_decide (ReconnectKey sec = "")
      then (Some "starter: no reconnect session material to register", cs)
      else match create sec with
           | Some e => (Some ("starter: importing reconnect session: " +:+ e), cs)
           | None => (None, mkCommandServer (cs_sinful cs) (ReconnectID sec) ({[ReconnectID sec]} ∪ cs_cache cs))
           end
  end.

(** [neg] is the session id of the connection's negotiation, if there was one. *)
Definition isReconnectSession (cs : commandServer) (neg : option string) : bool :=
  match neg with
  | None => false
  | Some sid => negb (bool_decide (cs_reconnectSID cs = "")) && bool_decide (sid = cs_reconnectSID cs)
  end.

(** ** The decision *)

Inductive caAction := CaReply (reply : ClassAd) | CaOffer (ho : handoff).

Definition offerOf (s : sid) (req : ClassAd) : handoff :=
  mkHandoff s (default "" (EvaluateAttrString Reconnect.AttrTransferKey req))
    (default "" (EvaluateAttrString Reconnect.AttrTransferSock req))
    (default "" (EvaluateAttrString Reconnect.AttrShadowIPAddr req)).

Definition caDecide (cs : commandServer) (s : sid) (neg : option string) (req : ClassAd) : caAction :=
  let cmd := Reconnect.RequestCommand req in
  if negb (bool_decide (cmd = Reconnect.CmdReconnectJob))
  then CaReply (Reconnect.FailureReply ("unsupported CA sub-command: " +:+ cmd))
  else if negb (isReconnectSession cs neg)
  then CaReply (Reconnect.NotAuthorizedReply "request did not arrive on this job's reconnect session")
  else CaOffer (offerOf s req).

Definition successReply (cs : commandServer) : ClassAd :=
  run_ops [ OpSet Reconnect.AttrStarterIPAddr (VString (cs_sinful cs));
            OpSet "CondorVersion" (VString Starter.starterCondorVersion) ] Reconnect.SuccessReply.

(** ** Handlers and the run loop *)

(** Where a handler is: about to offer; waiting for [ack]; writing a reply that ends the
    exchange ([offered]: [replied] is owed); about to write, writing, the Success reply;
    returned, with the connection kept open or not. *)
Inductive hpc :=
| HOffer
| HAwaitAck
| HRefuse (reply : ClassAd) (offered : bool)
| HSuccess
| HWriting
| HDone (kept : bool).

(** A handler with the buffers of its [ack] and [replied] channels. *)
Record handler := mkHandler {
  h_pc : hpc;
  h_ho : handoff;
  h_ack : option err;
  h_replied : option err
}.

Definition goto (pc : hpc) (h : handler) : handler := mkHandler pc (h_ho h) (h_ack h) (h_replied h).
Definition finish (kept : bool) (r : err) (h : handler) : handler := mkHandler (HDone kept) (h_ho h) (h_ack h) (Some r).
Definition acked (r : option err) (h : handler) : handler := mkHandler (h_pc h) (h_ho h) r (h_replied h).
Definition heard (h : handler) : handler := mkHandler (h_pc h) (h_ho h) (h_ack h) None.

(** [Run]: not in its monitor loop yet, in it, in [acceptReconnect], or past it. *)
Inductive runPc := Starting | Monitoring | Accepting (s : sid) | Leaving.

(** A handler is named by its connection. *)
Record world := mkWorld {
  hs : gmap sid handler;
  ch : option sid;
  rn : runPc;
  sys : sid;
  closed : gset sid
}.

Definition set_h (s : sid) (h : handler) (w : world) : world := mkWorld (<[s := h]> (hs w)) (ch w) (rn w) (sys w) (closed w).
Definition set_ch (c : option sid) (w : world) : world := mkWorld (hs w) c (rn w) (sys w) (closed w).
Definition set_rn (r : runPc) (w : world) : world := mkWorld (hs w) (ch w) r (sys w) (closed w).
Definition switch (s : sid) (w : world) : world := mkWorld (hs w) (ch w) (rn w) s (closed w).
Definition close (s : sid) (w : world) : world := mkWorld (hs w) (ch w) (rn w) (sys w) ({[s]} ∪ closed w).

Inductive label :=
| LArrive (s : sid) (neg : option string) (req : ClassAd)
| LRefused (s : sid) (reply : ClassAd) (ok : bool)
| LWriteBegin (s : sid)
| LWriteEnd (s : sid) (ok : bool)
| LReplied (s : sid) (r : err)
| LSyscall (s : sid)
| LSwitch (s : sid)
| LTau.

Definition errHandoffAbandoned : string := "starter: CA_RECONNECT_JOB handler ended before replying".

Context (cs : commandServer).

Inductive step : world → list label → world → Prop :=
(* handlers *)
| step_arrive w s neg req :
    hs w !! s = None → s ≠ sys w → s ∉ closed w →
    step w [LArrive s neg req]
      (set_h s (mkHandler (match caDecide cs s neg req with CaReply r => HRefuse r false | CaOffer _ => HOffer end)
                  (offerOf s req) None None) w)
| step_offer w s h :
    hs w !! s = Some h → h_pc h = HOffer → ch w = None →
    step w [LTau] (set_ch (Some s) (set_h s (goto HAwaitAck h) w))
| step_offer_full w s h c :
    hs w !! s = Some h → h_pc h = HOffer → ch w = Some c →
    step w [LTau] (set_h s (goto (HRefuse (Reconnect.FailureReply "no running job to reconnect") false) h) w)
| step_offer_ctx w s h :
    hs w !! s = Some h → h_pc h = HOffer → step w [LTau] (close s (set_h s (goto (HDone false) h) w))
| step_ack w s h :
    hs w !! s = Some h → h_pc h = HAwaitAck → h_ack h = Some None →
    step w [LTau] (set_h s (goto HSuccess (acked None h)) w)
| step_ack_err w s h e :
    hs w !! s = Some h → h_pc h = HAwaitAck → h_ack h = Some (Some e) →
    step w [LTau] (set_h s (goto (HRefuse (Reconnect.FailureReply e) true) (acked None h)) w)
| step_ack_ctx w s h :
    hs w !! s = Some h → h_pc h = HAwaitAck →
    step w [LReplied s (Some errHandoffAbandoned)] (close s (set_h s (finish false (Some errHandoffAbandoned) h) w))
| step_refuse w s h reply ok :
    hs w !! s = Some h → h_pc h = HRefuse reply false →
    step w [LRefused s reply ok] (close s (set_h s (goto (HDone false) h) w))
| step_refuse_offered w s h reply ok :
    hs w !! s = Some h → h_pc h = HRefuse reply true →
    step w [LRefused s reply ok; LReplied s (Some errHandoffAbandoned)]
      (close s (set_h s (finish false (Some errHandoffAbandoned) h) w))
| step_write_begin w s h :
    hs w !! s = Some h → h_pc h = HSuccess → step w [LWriteBegin s] (set_h s (goto HWriting h) w)
| step_write_ok w s h :
    hs w !! s = Some h → h_pc h = HWriting →
    step w [LWriteEnd s true; LReplied s None] (set_h s (finish true None h) w)
| step_write_err w s h e :
    hs w !! s = Some h → h_pc h = HWriting →
    step w [LWriteEnd s false; LReplied s (Some e)] (close s (set_h s (finish false (Some e) h) w))
(* the run loop *)
| step_monitor w : rn w = Starting → step w [LTau] (set_rn Monitoring w)
| step_take w s h :
    rn w = Monitoring → ch w = Some s → hs w !! s = Some h →
    step w [LTau] (set_rn (Accepting s) (set_ch None (set_h s (acked (Some None) h) w)))
| step_switch w s h :
    rn w = Accepting s → hs w !! s = Some h → h_replied h = Some None →
    step w [LSwitch s] (set_rn Monitoring (close (sys w) (switch s (set_h s (heard h) w))))
| step_told_err w s h e :
    rn w = Accepting s → hs w !! s = Some h → h_replied h = Some (Some e) →
    step w [LTau] (set_rn Monitoring (close s (set_h s (heard h) w)))
| step_give_up w s :
    rn w = Accepting s → step w [LTau] (set_rn Monitoring (close s w))
| step_leave w : rn w = Monitoring → step w [LTau] (set_rn Leaving w)
| step_syscall w : (∀ s, rn w ≠ Accepting s) → step w [LSyscall (sys w)] w.

(** The command server starts with the connection of the activation in use. *)
Definition start (s0 : sid) : world := mkWorld ∅ None Starting s0 ∅.

Inductive reach (s0 : sid) : list label → world → Prop :=
| reach_start : reach s0 [] (start s0)
| reach_step tr w l w' : reach s0 tr w → step w l w' → reach s0 (tr ++ l) w'.
End Handler.
End CommandServer.
