(* ===== verification/CommandFacts.v ===== *)
(** * The reconnect handoff

    The protocol of [CommandServer.step]: the run loop moves to a reconnecting shadow's
    connection only when the Success reply is completely written on it; nothing else can
    get it to move; it is never left waiting. *)

From S2P Require Import Prelude GoLang ClassAd AdWire StarterMsg Reconnect Args StarterEnv Exec Transfer Starter CommandServer.

Import CommandServer.

Module CommandFacts.
Section Facts.
Context {CA : ClassAdLib} (cs : commandServer) (s0 : sid).

(** ** The invariant *)

(** Run waits for [s], which is open, or is done with it, and closed it. *)
Definition inRun (w : world) (s : sid) : Prop :=
  (rn w = Accepting s ∧ (s ∉ closed w)) ∨ (rn w ≠ Accepting s ∧ s ∈ closed w).

(** What each place of a handler means for the channels and the run loop. *)
Definition placed (w : world) (s : sid) (h : handler) : Prop :=
  match h_pc h with
  | HOffer | HRefuse _ false =>
      h_ack h = None ∧ h_replied h = None ∧ ch w ≠ Some s ∧ rn w ≠ Accepting s ∧ s ≠ sys w ∧ s ∉ closed w
  | HRefuse _ true => False
  | HAwaitAck =>
      h_replied h = None ∧ s ≠ sys w ∧
      ((ch w = Some s ∧ h_ack h = None ∧ rn w ≠ Accepting s ∧ s ∉ closed w) ∨
       (ch w ≠ Some s ∧ h_ack h = Some None ∧ inRun w s))
  | HSuccess | HWriting => h_replied h = None ∧ s ≠ sys w ∧ ch w ≠ Some s ∧ inRun w s
  | HDone true =>
      ch w ≠ Some s ∧
      ((h_replied h = Some None ∧ s ≠ sys w ∧ inRun w s) ∨
       (h_replied h = None ∧ rn w ≠ Accepting s ∧ ((s = sys w ∧ s ∉ closed w) ∨ (s ≠ sys w ∧ s ∈ closed w))))
  | HDone false =>
      s ∈ closed w ∧ s ≠ sys w ∧
      (((∃ e, h_replied h = Some (Some e)) ∧ (rn w = Accepting s → ch w ≠ Some s)) ∨ (h_replied h = None ∧ rn w ≠ Accepting s ∧ ch w ≠ Some s))
  end.

Record inv (w : world) : Prop := {
  inv_placed : ∀ s h, hs w !! s = Some h → placed w s h;
  inv_ch : ∀ s, ch w = Some s → is_Some (hs w !! s);
  inv_rn : ∀ s, rn w = Accepting s → is_Some (hs w !! s);
  inv_sys : (sys w ∉ closed w) ∧ (sys w = s0 ∨ is_Some (hs w !! sys w));
  inv_s0 : hs w !! s0 = None ∧ (s0 = sys w ∨ s0 ∈ closed w)
}.

(** Another handler sees a step only in the channel, the run loop and the closed set. *)
Lemma placed_frame w w' s h :
  placed w s h → (ch w' = Some s ↔ ch w = Some s) → (rn w' = Accepting s ↔ rn w = Accepting s) →
  (s = sys w' ↔ s = sys w) → (s ∈ closed w' ↔ s ∈ closed w) → placed w' s h.
Proof.
  unfold placed, inRun. intros Hp E1 E2 E3 E4. destruct (h_pc h) as [| | ? [] | | | []]; tauto.
Qed.

Lemma inv_start : inv (start s0).
Proof.
  split; [intros s h H; by apply (lookup_empty_Some (M := gmap sid) s h) in H|done|done| |].
  - split; [apply not_elem_of_empty|by left].
  - split; [apply lookup_empty|by left].
Qed.

(** The handlers other than [s], when the step only changes what concerns [s]. *)
Lemma inv_others w w' s :
  inv w → hs w' = hs w ∨ (∃ h, hs w' = <[s := h]> (hs w)) →
  (∀ s', s' ≠ s → (ch w' = Some s' ↔ ch w = Some s') ∧ (rn w' = Accepting s' ↔ rn w = Accepting s') ∧
                   (s' = sys w' ↔ s' = sys w) ∧ (s' ∈ closed w' ↔ s' ∈ closed w)) →
  ∀ s' h, s' ≠ s → hs w' !! s' = Some h → placed w' s' h.
Proof.
  intros Hi Hh Ho s' h Hne Hl. destruct (Ho s' Hne) as (E1 & E2 & E3 & E4).
  eapply placed_frame; [|exact E1|exact E2|exact E3|exact E4]. apply (inv_placed w Hi).
  destruct Hh as [E|[h' E]]; rewrite E in Hl; [done|]. by rewrite lookup_insert_ne in Hl by done.
Qed.

(** A step of the handler [s] alone: it stays where the rest of the system can see it. *)
Lemma inv_handler w s h h' (c : bool) w' :
  inv w → hs w !! s = Some h →
  w' = (if c then close s (set_h s h' w) else set_h s h' w) → (c = true → s ≠ sys w) → placed w' s h' → inv w'.
Proof.
  intros Hi Hs -> Hc Hp.
  assert (s ≠ s0) as Hs0 by (intros ->; destruct (inv_s0 w Hi); congruence).
  assert (is_Some (<[s := h']> (hs w) !! s)) as Hsome by (rewrite lookup_insert_eq; eauto).
  assert (∀ s', is_Some (hs w !! s') → is_Some (<[s := h']> (hs w) !! s')) as Hmono.
  { intros s' Hx. destruct (decide (s' = s)) as [->|]; [done|]. by rewrite lookup_insert_ne. }
  destruct Hi as [I1 I2 I3 [I4 I4'] [I5 I5']] eqn:E. clear E.
  split.
  - intros s' h1 Hl. destruct (decide (s' = s)) as [->|Hne].
    + assert (h1 = h') as ->; [|done]. destruct c; cbn in Hl; rewrite lookup_insert_eq in Hl; congruence.
    + eapply (inv_others w _ s); [done|right; exists h'; by destruct c| |done|done].
      intros s1 Hne1. destruct c; cbn; set_solver.
  - intros s' Hx. destruct c; cbn in *; auto.
  - intros s' Hx. destruct c; cbn in *; auto.
  - destruct c; cbn; [|naive_solver]. split; [|naive_solver]. specialize (Hc eq_refl). set_solver.
  - destruct c; cbn; rewrite lookup_insert_ne by done; split; set_solver.
Qed.

(** A step of the run loop about [s]: what it leaves of the handler [s] is to be shown. *)
Lemma inv_run w w' s :
  inv w → hs w' = hs w ∨ (∃ h, hs w' = <[s := h]> (hs w)) →
  (∀ s', s' ≠ s → (ch w' = Some s' ↔ ch w = Some s') ∧ (rn w' = Accepting s' ↔ rn w = Accepting s') ∧
                   (s' = sys w' ↔ s' = sys w) ∧ (s' ∈ closed w' ↔ s' ∈ closed w)) →
  (∀ h, hs w' !! s = Some h → placed w' s h) → is_Some (hs w' !! s) → s ≠ s0 →
  sys w' = sys w → (sys w' ∉ closed w') → (s0 = sys w' ∨ s0 ∈ closed w') → inv w'.
Proof.
  intros Hi Hh Ho Hp Hs Hs0 Hsys' Hsys H0.
  assert (∀ s', is_Some (hs w !! s') → is_Some (hs w' !! s')) as Hmono.
  { intros s' Hx. destruct Hh as [->|[h' ->]]; [done|].
    destruct (decide (s' = s)) as [->|]; [rewrite lookup_insert_eq; eauto|by rewrite lookup_insert_ne]. }
  split.
  - intros s' h Hl. destruct (decide (s' = s)) as [->|Hne]; [by apply Hp|]. by eapply (inv_others w w' s).
  - intros s' Hx. destruct (decide (s' = s)) as [->|Hne]; [done|].
    apply Hmono, (inv_ch w Hi). by apply (Ho s' Hne).
  - intros s' Hx. destruct (decide (s' = s)) as [->|Hne]; [done|].
    apply Hmono, (inv_rn w Hi). by apply (Ho s' Hne).
  - split; [done|]. rewrite Hsys'. destruct (inv_sys w Hi) as [_ [?|?]]; [by left|right; by apply Hmono].
  - split; [|done]. destruct (inv_s0 w Hi) as [E _]. destruct Hh as [->|[h' ->]]; [done|]. by rewrite lookup_insert_ne.
Qed.

(** The run loop changes place and looks at no handler. *)
Lemma inv_rn_change w r :
  inv w → (∀ s, rn w ≠ Accepting s) → (∀ s, r ≠ Accepting s) → inv (set_rn r w).
Proof.
  intros Hi H1 H2. destruct Hi as [I1 I2 I3 I4 I5]. split; cbn; try done; try (intros; by apply I2).
  - intros s h Hl. eapply placed_frame; [by apply I1|done| |done|done]. cbn. split; intros E; exfalso; [by eapply H2|by eapply H1].
  - intros s E. exfalso. by eapply H2.
Qed.

(** A step of handler [s] at [Hpc]: its place before, and the goal of [inv_handler]. *)
Ltac handler_step Hi Hl Hpc c :=
  match type of Hl with hs ?w !! ?s = Some ?h =>
    pose proof (inv_placed w Hi s h Hl) as Hp; unfold placed in Hp; rewrite Hpc in Hp;
    eapply (inv_handler w s h _ c); [exact Hi|exact Hl|reflexivity|..]; unfold placed, inRun in *; cbn in *
  end.

Lemma live_not_s0 w s h : inv w → hs w !! s = Some h → s ≠ s0.
Proof. intros Hi Hl ->. destruct (inv_s0 w Hi). congruence. Qed.

(** The connection in use and the one before it. *)
Lemma inv_switch w s h :
  inv w → rn w = Accepting s → hs w !! s = Some h → h_replied h = Some None →
  inv (set_rn Monitoring (close (sys w) (switch s (set_h s (heard h) w)))).
Proof.
  intros Hi Hr Hl Hrep. pose proof (inv_placed w Hi s h Hl) as Hp. pose proof (live_not_s0 w s h Hi Hl) as Hs0.
  assert (h_pc h = HDone true ∧ ch w ≠ Some s ∧ s ≠ sys w ∧ s ∉ closed w) as (Hpc & Hch & Hsys & Hcl).
  { unfold placed, inRun in Hp. rewrite Hrep in Hp. destruct (h_pc h) as [| | ? [] | | | []]; naive_solver. }
  destruct Hi as [I1 I2 I3 [I4 I4'] [I5 I5']]. split; cbn.
  - intros s' h' Hl'. destruct (decide (s' = s)) as [->|Hne].
    + rewrite lookup_insert_eq in Hl'. injection Hl' as <-. unfold placed. cbn. rewrite Hpc. set_solver.
    + rewrite lookup_insert_ne in Hl' by done. specialize (I1 s' h' Hl').
      assert (rn w ≠ Accepting s') as Hr' by congruence.
      unfold placed, inRun in *; cbn in *. destruct (h_pc h') as [| | ? [] | | | []]; destruct (decide (s' = sys w)); subst; set_solver.
  - intros s' Hx. destruct (decide (s' = s)) as [->|]; [rewrite lookup_insert_eq; eauto|].
    rewrite lookup_insert_ne by done. by apply I2.
  - done.
  - split; [set_solver|]. right. rewrite lookup_insert_eq. eauto.
  - rewrite lookup_insert_ne by done. split; [done|]. right. destruct I5' as [->|?]; set_solver.
Qed.

(** A new handler. *)
Lemma inv_arrive w s neg req :
  inv w → hs w !! s = None → s ≠ sys w → s ∉ closed w →
  inv (set_h s (mkHandler (match caDecide cs s neg req with CaReply r => HRefuse r false | CaOffer _ => HOffer end)
                  (offerOf s req) None None) w).
Proof.
  intros Hi Hl Hne Hcl.
  assert (s ≠ s0) as Hs0 by (intros ->; destruct (inv_s0 w Hi) as [_ [?|?]]; done).
  destruct (inv_sys w Hi) as [Hsc _]. destruct (inv_s0 w Hi) as [_ H0].
  apply (inv_run w _ s); cbn; try done; [right; eauto| |rewrite lookup_insert_eq; eauto].
  intros h. rewrite lookup_insert_eq. intros [= <-].
  assert (ch w ≠ Some s ∧ rn w ≠ Accepting s) as [? ?].
  { split; intros E; [apply (inv_ch w Hi) in E|apply (inv_rn w Hi) in E]; rewrite Hl in E; by destruct E. }
  unfold placed. cbn. by destruct (caDecide cs s neg req).
Qed.

(** Its offer, and the run loop taking it. *)
Lemma inv_offer w s h :
  inv w → hs w !! s = Some h → h_pc h = HOffer → ch w = None →
  inv (set_ch (Some s) (set_h s (goto HAwaitAck h) w)).
Proof.
  intros Hi Hl Hpc Hch. pose proof (live_not_s0 w s h Hi Hl) as Hs0. pose proof (inv_placed w Hi s h Hl) as Hp.
  unfold placed in Hp. rewrite Hpc in Hp. destruct (inv_sys w Hi) as [Hsc _]. destruct (inv_s0 w Hi) as [_ H0].
  apply (inv_run w _ s); cbn; try done; [right; eauto| | |rewrite lookup_insert_eq; eauto].
  - intros s' Hne. split_and!; try done. split; congruence.
  - intros h'. rewrite lookup_insert_eq. intros [= <-]. unfold placed. cbn. tauto.
Qed.

Lemma inv_take w s h :
  inv w → rn w = Monitoring → ch w = Some s → hs w !! s = Some h →
  inv (set_rn (Accepting s) (set_ch None (set_h s (acked (Some None) h) w))).
Proof.
  intros Hi Hr Hch Hl. pose proof (live_not_s0 w s h Hi Hl) as Hs0. pose proof (inv_placed w Hi s h Hl) as Hp.
  destruct (inv_sys w Hi) as [Hsc _]. destruct (inv_s0 w Hi) as [_ H0].
  apply (inv_run w _ s); cbn; try done; [right; eauto| | |rewrite lookup_insert_eq; eauto].
  - intros s' Hne. split_and!; try done; split; congruence.
  - intros h'. rewrite lookup_insert_eq. intros [= <-]. unfold placed, inRun in *. cbn in *.
    destruct (h_pc h) as [| | ? [] | | | []]; set_solver.
Qed.

(** The handler failed, or the run loop gave up on it. *)
Lemma inv_told w s h e :
  inv w → rn w = Accepting s → hs w !! s = Some h → h_replied h = Some (Some e) →
  inv (set_rn Monitoring (close s (set_h s (heard h) w))).
Proof.
  intros Hi Hr Hl Hrep. pose proof (live_not_s0 w s h Hi Hl) as Hs0. pose proof (inv_placed w Hi s h Hl) as Hp.
  destruct (inv_sys w Hi) as [Hsc _]. destruct (inv_s0 w Hi) as [_ H0].
  assert (h_pc h = HDone false ∧ s ≠ sys w) as [Hpc Hsys].
  { unfold placed, inRun in Hp. rewrite Hrep in Hp. destruct (h_pc h) as [| | ? [] | | | []]; naive_solver. }
  apply (inv_run w _ s); cbn; try done; [right; eauto| | |rewrite lookup_insert_eq; eauto|set_solver|set_solver].
  - intros s' Hne. split_and!; try done; [split; congruence|set_solver].
  - intros h'. rewrite lookup_insert_eq. intros [= <-]. unfold placed in *. cbn in *. rewrite Hpc in *. set_solver.
Qed.

Lemma inv_give_up w s : inv w → rn w = Accepting s → inv (set_rn Monitoring (close s w)).
Proof.
  intros Hi Hr. destruct (inv_rn w Hi s Hr) as [h Hl].
  pose proof (live_not_s0 w s h Hi Hl) as Hs0. pose proof (inv_placed w Hi s h Hl) as Hp.
  destruct (inv_sys w Hi) as [Hsc _]. destruct (inv_s0 w Hi) as [_ H0].
  assert (s ≠ sys w) as Hsys.
  { unfold placed, inRun in Hp. destruct (h_pc h) as [| | ? [] | | | []]; naive_solver. }
  apply (inv_run w _ s); cbn; try done; [by left| | |set_solver|set_solver].
  - intros s' Hne. split_and!; try done; [split; congruence|set_solver].
  - rewrite Hl. intros h' [= <-]. unfold placed, inRun in *. cbn in *.
    destruct (h_pc h) as [| | ? [] | | | []]; set_solver.
Qed.

Lemma step_inv w l w' : inv w → step cs w l w' → inv w'.
Proof.
  intros Hi Hstep.
  destruct Hstep as [w s neg req Hl Hne Hcl|w s h Hl Hpc Hch|w s h c Hl Hpc Hch|w s h Hl Hpc|w s h Hl Hpc Hack
    |w s h e Hl Hpc Hack|w s h Hl Hpc|w s h reply ok Hl Hpc|w s h reply ok Hl Hpc|w s h Hl Hpc|w s h Hl Hpc|w s h e Hl Hpc
    |w Hr|w s h Hr Hch Hl|w s h Hr Hl Hrep|w s h e Hr Hl Hrep|w s Hr|w Hr|w Hr].
  - by apply inv_arrive.
  - by apply inv_offer.
  - handler_step Hi Hl Hpc false; [done|tauto].
  - handler_step Hi Hl Hpc true; [tauto|]. set_solver.
  - handler_step Hi Hl Hpc false; [done|]. destruct Hp as (? & ? & [(_ & ? & _)|?]); [congruence|tauto].
  - handler_step Hi Hl Hpc false; [done|]. destruct Hp as (? & ? & [(_ & ? & _)|(_ & ? & _)]); congruence.
  - handler_step Hi Hl Hpc true; [tauto|]. split_and!; [set_solver|tauto|]. left. split; [eauto|]. intros ?. tauto.
  - handler_step Hi Hl Hpc true; [tauto|]. set_solver.
  - handler_step Hi Hl Hpc true; done.
  - handler_step Hi Hl Hpc false; [done|tauto].
  - handler_step Hi Hl Hpc false; [done|tauto].
  - handler_step Hi Hl Hpc true; [tauto|]. split_and!; [set_solver|tauto|]. left. split; [eauto|]. intros ?. tauto.
  - apply inv_rn_change; [done|congruence|done].
  - by apply inv_take.
  - by apply inv_switch.
  - by eapply inv_told.
  - by apply inv_give_up.
  - apply inv_rn_change; [done|congruence|done].
  - done.
Qed.

Lemma reach_inv tr w : reach cs s0 tr w → inv w.
Proof. induction 1; [apply inv_start|by eapply step_inv]. Qed.

(** ** Traces *)

(** On its way to a handoff, or handed over. *)
Definition offering (pc : hpc) : bool :=
  match pc with HRefuse _ false | HDone false => false | _ => true end.

Definition isDone (pc : hpc) : bool := match pc with HDone _ => true | _ => false end.

(** How one step moves one handler. *)
Definition moved (l : list label) (s : sid) (h h' : handler) : Prop :=
  h_ho h' = h_ho h ∧ (isDone (h_pc h) = true → h_pc h' = h_pc h) ∧
  (offering (h_pc h') = true → offering (h_pc h) = true) ∧
  (h_pc h' = HDone true → h_pc h = HDone true ∨ LWriteEnd s true ∈ l).

Lemma moved_refl l s h h' : h_ho h' = h_ho h → h_pc h' = h_pc h → moved l s h h'.
Proof. intros E1 E2. unfold moved. rewrite E1, E2. tauto. Qed.

Lemma step_moves w l w' s h :
  step cs w l w' → hs w !! s = Some h → ∃ h', hs w' !! s = Some h' ∧ moved l s h h'.
Proof.
  intros Hstep Hl.
  assert (∀ s1 h1 h2, hs w !! s1 = Some h1 → moved l s1 h1 h2 → ∃ h', <[s1 := h2]> (hs w) !! s = Some h' ∧ moved l s h h') as Hm.
  { intros s1 h1 h2 Hl1 Hmv. destruct (decide (s1 = s)) as [->|Hne].
    - rewrite lookup_insert_eq. exists h2. split; [done|]. by rewrite Hl in Hl1; simplify_eq.
    - rewrite lookup_insert_ne by done. exists h. split; [done|]. by apply moved_refl. }
  destruct Hstep; cbn; try (exists h; split; [done|by apply moved_refl]);
    try (eapply Hm; [eassumption|]; first [by apply moved_refl | unfold moved; cbn;
      match goal with E : h_pc _ = _ |- _ => rewrite E end; split_and!; (done || set_solver)]).
  rewrite lookup_insert_ne by congruence. exists h. split; [done|by apply moved_refl].
Qed.

(** A handler the step starts. *)
Lemma step_new w l w' s h :
  step cs w l w' → hs w !! s = None → hs w' !! s = Some h →
  isDone (h_pc h) = false ∧ ∃ neg req, LArrive s neg req ∈ l ∧ (offering (h_pc h) = true → caDecide cs s neg req = CaOffer (h_ho h)).
Proof.
  intros Hstep Hn Hl.
  destruct Hstep; cbn in Hl; try congruence;
    try (match type of Hl with <[?s1 := _]> _ !! _ = _ => destruct (decide (s1 = s)) as [->|]; [congruence|];
         rewrite lookup_insert_ne in Hl by done; congruence end).
  destruct (decide (s1 = s)) as [->|]; [|rewrite lookup_insert_ne in Hl by done; congruence].
  rewrite lookup_insert_eq in Hl. injection Hl as <-. cbn. split; [by destruct (caDecide cs s neg req)|].
  exists neg, req. split; [by left|]. destruct (caDecide cs s neg req) as [r|ho] eqn:E; [done|]. intros _.
  unfold caDecide in E. repeat case_match; simplify_eq. done.
Qed.

(** What the trace says of the handlers. *)
Record told (tr : list label) (w : world) : Prop := {
  to_syscall : ∀ s, LSyscall s ∈ tr → s = s0 ∨ ∃ h, hs w !! s = Some h ∧ h_pc h = HDone true;
  to_replied : ∀ s r, LReplied s r ∈ tr → ∃ h, hs w !! s = Some h ∧ isDone (h_pc h) = true;
  to_written : ∀ s h, hs w !! s = Some h → h_pc h = HDone true → LWriteEnd s true ∈ tr;
  to_offered : ∀ s h, hs w !! s = Some h → offering (h_pc h) = true →
    ∃ neg req, LArrive s neg req ∈ tr ∧ caDecide cs s neg req = CaOffer (h_ho h)
}.

(** What may come after a trace. *)
Definition allowed (pre : list label) (x : label) : Prop :=
  match x with
  | LSyscall s => s = s0 ∨ LWriteEnd s true ∈ pre
  | LSwitch s =>
      LWriteEnd s true ∈ pre ∧
      ∃ neg req, LArrive s neg req ∈ pre ∧ isReconnectSession cs neg = true ∧
                 Reconnect.RequestCommand req = Reconnect.CmdReconnectJob
  | LWriteBegin s | LWriteEnd s _ | LRefused s _ _ => LSyscall s ∉ pre
  | LReplied s _ => ∀ r, LReplied s r ∉ pre
  | _ => True
  end.

Lemma caDecide_offer s neg req ho :
  caDecide cs s neg req = CaOffer ho →
  isReconnectSession cs neg = true ∧ Reconnect.RequestCommand req = Reconnect.CmdReconnectJob.
Proof.
  unfold caDecide. case_bool_decide; cbn; [|done]. by destruct (isReconnectSession cs neg).
Qed.

(** A handler that is not done has not replied to Run, nor is it in use. *)
Lemma told_active tr w s h :
  inv w → told tr w → hs w !! s = Some h → isDone (h_pc h) = false → (LSyscall s ∉ tr) ∧ ∀ r, LReplied s r ∉ tr.
Proof.
  intros Hi Ht Hl Hd. split.
  - intros [->|(h' & Hl' & E)]%(to_syscall _ _ Ht); [by eapply live_not_s0|].
    rewrite Hl in Hl'. simplify_eq. by rewrite E in Hd.
  - intros r (h' & Hl' & E)%(to_replied _ _ Ht). congruence.
Qed.

(** The labels of one step. *)
Ltac labels Hin :=
  repeat (apply elem_of_cons in Hin as [Hin|Hin]; [try discriminate Hin|]);
  try (exfalso; exact (not_elem_of_nil _ Hin)).

Lemma told_step tr w l w' : inv w → told tr w → step cs w l w' → told (tr ++ l) w'.
Proof.
  intros Hi Ht Hstep. pose proof (step_inv w l w' Hi Hstep) as Hi'. pose proof Ht as [T1 T2 T3 T4]. split.
  - intros s [Hin|Hin]%elem_of_app.
    + destruct (T1 s Hin) as [?|(h & Hl & E)]; [by left|right].
      destruct (step_moves _ _ _ _ _ Hstep Hl) as (h' & Hl' & _ & Hd & _). exists h'. split; [done|]. by rewrite Hd, E; [|rewrite E].
    + destruct Hstep; labels Hin. injection Hin as ->. destruct (inv_sys w Hi) as [Hc [?|[h Hl]]]; [by left|right]. exists h. split; [done|].
      pose proof (inv_placed w Hi _ h Hl) as Hp. unfold placed in Hp. destruct (h_pc h) as [| | ? [] | | | []]; naive_solver.
  - intros s r [Hin|Hin]%elem_of_app.
    + destruct (T2 s r Hin) as (h & Hl & E).
      destruct (step_moves _ _ _ _ _ Hstep Hl) as (h' & Hl' & _ & Hd & _). exists h'. split; [done|]. by rewrite Hd.
    + destruct Hstep; labels Hin; injection Hin as -> ->; cbn; rewrite lookup_insert_eq; eauto.
  - intros s h' Hl' E. rewrite elem_of_app. destruct (hs w !! s) as [h|] eqn:Hl.
    + destruct (step_moves _ _ _ _ _ Hstep Hl) as (h1 & Hl1 & _ & _ & _ & Hw). rewrite Hl1 in Hl'. simplify_eq.
      destruct (Hw E) as [?|?]; [left; by eapply T3|by right].
    + destruct (step_new _ _ _ _ _ Hstep Hl Hl') as [Hd _]. by rewrite E in Hd.
  - intros s h' Hl' Ho. destruct (hs w !! s) as [h|] eqn:Hl.
    + destruct (step_moves _ _ _ _ _ Hstep Hl) as (h1 & Hl1 & Eh & _ & Hoff & _). rewrite Hl1 in Hl'. simplify_eq.
      destruct (T4 s h Hl (Hoff Ho)) as (neg & req & Hin & Hd). exists neg, req. rewrite Eh. split; [|done]. apply elem_of_app. by left.
    + destruct (step_new _ _ _ _ _ Hstep Hl Hl') as (_ & neg & req & Hin & Hd). exists neg, req. split; [apply elem_of_app; by right|auto].
Qed.

Fixpoint allowedAll (pre l : list label) : Prop :=
  match l with
  | [] => True
  | x :: l => allowed pre x ∧ allowedAll (pre ++ [x]) l
  end.

Lemma allowedAll_app pre l k : allowedAll pre (l ++ k) ↔ allowedAll pre l ∧ allowedAll (pre ++ l) k.
Proof.
  revert pre. induction l as [|x l IH]; intros pre; cbn; [rewrite app_nil_r; tauto|].
  rewrite IH, <-app_assoc. cbn. tauto.
Qed.

Lemma allowedAll_split pre x k : allowedAll [] (pre ++ x :: k) → allowed pre x.
Proof. rewrite allowedAll_app. by intros [_ [? _]]. Qed.

Lemma not_in_snoc {A} (x y : A) l : (x ∉ l) → x ≠ y → x ∉ l ++ [y].
Proof. set_solver. Qed.

Lemma step_allowed tr w l w' : inv w → told tr w → step cs w l w' → allowedAll tr l.
Proof.
  intros Hi Ht Hstep.
  assert (∀ s h, hs w !! s = Some h → isDone (h_pc h) = false → (LSyscall s ∉ tr) ∧ ∀ r, LReplied s r ∉ tr) as Hact
    by (intros; by eapply told_active).
  destruct Hstep; cbn; split; try done;
    try (match goal with Hl : hs _ !! _ = Some ?h, E : h_pc ?h = _ |- _ =>
           destruct (Hact _ _ Hl) as [? ?]; [by rewrite E|] end); try done.
  all: try (split; [|done]; intros r; apply not_in_snoc; [done|discriminate]).
  - pose proof (inv_placed w Hi s h H0) as Hp. assert (h_pc h = HDone true) as Hpc.
    { unfold placed, inRun in Hp. rewrite H1 in Hp. destruct (h_pc h) as [| | ? [] | | | []]; naive_solver. }
    split; [by eapply to_written|]. destruct (to_offered _ _ Ht s h H0) as (neg & req & Hin & Hd); [by rewrite Hpc|].
    exists neg, req. split; [done|]. by eapply caDecide_offer.
  - destruct (inv_sys w Hi) as [Hc [?|[h Hl]]]; [by left|right].
    eapply to_written; [done|done|]. pose proof (inv_placed w Hi _ h Hl) as Hp. unfold placed in Hp.
    destruct (h_pc h) as [| | ? [] | | | []]; naive_solver.
Qed.

Lemma reach_told tr w : reach cs s0 tr w → told tr w ∧ allowedAll [] tr.
Proof.
  induction 1 as [|tr w l w' Hr [IH1 IH2] Hstep].
  - split; [|done]. split; [intros s Hin|intros s r Hin|intros s h Hl|intros s h Hl];
      try (by apply not_elem_of_nil in Hin); by apply (lookup_empty_Some (M := gmap sid) s h) in Hl.
  - pose proof (reach_inv _ _ Hr). split; [by eapply told_step|].
    apply allowedAll_app. split; [done|]. by eapply step_allowed.
Qed.

(** C23: the reconnect handoff.  However many handlers there are and however they
    interleave with the run loop: the run loop switches to a connection only when the
    Success reply has been completely written on it, and only for a request whose
    sub-command is CA_RECONNECT_JOB and that came over the job's own reconnect session; a
    system call is only sent on the first connection or on one whose Success reply was
    written before, and no reply is written on a connection once a system call was
    sent on it; a handler reports to the run loop at most once; and the connection
    in use is never a closed one. *)
Theorem handoff_safe tr w pre x post :
  reach cs s0 tr w → tr = pre ++ x :: post → allowed pre x ∧ (sys w ∉ closed w).
Proof.
  intros Hr ->. split.
  - apply (allowedAll_split pre x post). by apply (reach_told _ _ Hr).
  - apply (inv_sys w (reach_inv _ _ Hr)).
Qed.

(** ** The run loop is not left waiting *)

(** Steps of the handler [s] alone. *)
Inductive hsteps (s : sid) : nat → world → world → Prop :=
| hsteps_none w : hsteps s 0 w w
| hsteps_more n w l w' w'' h :
    step cs w l w' → hs w' = <[s := h]> (hs w) → ch w' = ch w → rn w' = rn w → sys w' = sys w →
    hsteps s n w' w'' → hsteps s (S n) w w''.

Lemma reply_from_writing w s h :
  hs w !! s = Some h → h_pc h = HWriting →
  ∃ w' h', hsteps s 1 w w' ∧ rn w' = rn w ∧ hs w' !! s = Some h' ∧ is_Some (h_replied h').
Proof.
  intros Hl Hpc. eexists _, _. split_and!.
  - eapply hsteps_more; [by eapply step_write_ok|reflexivity|done|done|done|constructor].
  - done.
  - cbn. by rewrite lookup_insert_eq.
  - eauto.
Qed.

Lemma reply_from_success w s h :
  hs w !! s = Some h → h_pc h = HSuccess →
  ∃ w' h', hsteps s 2 w w' ∧ rn w' = rn w ∧ hs w' !! s = Some h' ∧ is_Some (h_replied h').
Proof.
  intros Hl Hpc.
  destruct (reply_from_writing (set_h s (goto HWriting h) w) s (goto HWriting h)) as (w' & h' & Hs & Hr & Hl' & Hrep);
    [by cbn; rewrite lookup_insert_eq|done|].
  exists w', h'. split_and!; [|done|done|done].
  eapply hsteps_more; [by eapply step_write_begin|reflexivity|done|done|done|done].
Qed.

(** The run loop is not left waiting for a handler.  In every reachable state in
    which it waits for one to report, the report is there, or the handler alone gets to
    it in at most three steps, with the run loop and every other handler where they are. *)
Theorem reply_comes tr w s :
  reach cs s0 tr w → rn w = Accepting s →
  ∃ n w' h, (n ≤ 3)%nat ∧ hsteps s n w w' ∧ rn w' = Accepting s ∧ hs w' !! s = Some h ∧ is_Some (h_replied h).
Proof.
  intros Hr Hrn. pose proof (reach_inv _ _ Hr) as Hi. destruct (inv_rn w Hi s Hrn) as [h Hl].
  pose proof (inv_placed w Hi s h Hl) as Hp. unfold placed, inRun in Hp. rewrite Hrn in Hp.
  destruct (h_pc h) as [| | ? [] | | | []] eqn:Hpc; try (exfalso; naive_solver).
  - destruct Hp as (_ & _ & [(_ & _ & ? & _)|(_ & Hack & _)]); [done|].
    destruct (reply_from_success (set_h s (goto HSuccess (acked None h)) w) s (goto HSuccess (acked None h)))
      as (w' & h' & Hs & Hr' & Hl' & Hrep); [by cbn; rewrite lookup_insert_eq|done|].
    exists 3%nat, w', h'. split_and!; [lia| |by rewrite Hr'|done|done].
    eapply hsteps_more; [by eapply step_ack|reflexivity|done|done|done|done].
  - destruct (reply_from_success w s h Hl Hpc) as (w' & h' & Hs & Hr' & Hl' & Hrep).
    exists 2%nat, w', h'. split_and!; [lia|done|congruence|done|done].
  - destruct (reply_from_writing w s h Hl Hpc) as (w' & h' & Hs & Hr' & Hl' & Hrep).
    exists 1%nat, w', h'. split_and!; [lia|done|congruence|done|done].
  - exists 0%nat, w, h. split_and!; [lia|constructor|done|done|]. naive_solver.
  - exists 0%nat, w, h. split_and!; [lia|constructor|done|done|]. naive_solver.
Qed.
End Facts.
End CommandFacts.

(** ** Witnesses: one shadow reconnects *)

Import RefClassAd CommandFacts.

Definition demoCs : commandServer := mkCommandServer "<127.0.0.1:9>" "r" {[ "r" ]}.

Lemma reach_step_eq {CA : ClassAdLib} cs s0 tr w l w' tr' w'' :
  reach cs s0 tr w → step cs w l w' → tr' = tr ++ l → w'' = w' → reach cs s0 tr' w''.
Proof. intros H1 H2 -> ->. by econstructor. Qed.

Section Demo.
Context {CA : ClassAdLib} (req : ClassAd) (Hreq : Reconnect.RequestCommand req = Reconnect.CmdReconnectJob).

(** The states of the run. *)
Definition demoH (pc : hpc) (ack replied : option err) : handler := mkHandler pc (offerOf 1%nat req) ack replied.
Definition demoW (h : handler) (c : option sid) (r : runPc) : world := mkWorld {[ 1%nat := h ]} c r 0%nat ∅.
Definition demoEnd : world := mkWorld {[ 1%nat := demoH (HDone true) None None ]} None Monitoring 1%nat {[ 0%nat ]}.

Definition demoTrace : list label :=
  [LArrive 1%nat (Some "r") req; LTau; LTau; LTau; LTau; LWriteBegin 1%nat; LWriteEnd 1%nat true; LReplied 1%nat None;
   LSwitch 1%nat; LSyscall 1%nat].

Ltac demo_step n w c h :=
  eapply (reach_step_eq demoCs 0%nat (take n demoTrace) w); [|apply (c _ _ 1%nat h); reflexivity|reflexivity|reflexivity].

(** The channel has room for one handoff: with no job running, the first request is not
    refused but queued, and its handler waits for an answer that does not come. *)
Lemma offer_queued_without_job :
  reach demoCs 0%nat (take 2 demoTrace) (demoW (demoH HAwaitAck None None) (Some 1%nat) Starting).
Proof.
  demo_step 1%nat (demoW (demoH HOffer None None) None Starting) (@step_offer CA) (demoH HOffer None None).
  eapply (reach_step_eq demoCs 0%nat [] (start 0%nat));
    [constructor|by apply (step_arrive demoCs (start 0%nat) 1%nat (Some "r") req)|reflexivity|].
  unfold caDecide. rewrite Hreq. reflexivity.
Qed.

Lemma demo_accepting :
  reach demoCs 0%nat (take 4 demoTrace) (demoW (demoH HAwaitAck (Some None) None) None (Accepting 1%nat)).
Proof.
  demo_step 3%nat (demoW (demoH HAwaitAck None None) (Some 1%nat) Monitoring) (@step_take CA) (demoH HAwaitAck None None).
  eapply (reach_step_eq demoCs 0%nat (take 2 demoTrace)); [exact offer_queued_without_job|by apply step_monitor|reflexivity|reflexivity].
Qed.

Lemma demo_switched : reach demoCs 0%nat demoTrace demoEnd.
Proof.
  eapply (reach_step_eq demoCs 0%nat (take 9 demoTrace) demoEnd [LSyscall 1%nat]);
    [|by apply (step_syscall demoCs demoEnd)|reflexivity|reflexivity].
  demo_step 8%nat (demoW (demoH (HDone true) None (Some None)) None (Accepting 1%nat)) (@step_switch CA) (demoH (HDone true) None (Some None)).
  demo_step 6%nat (demoW (demoH HWriting None None) None (Accepting 1%nat)) (@step_write_ok CA) (demoH HWriting None None).
  demo_step 5%nat (demoW (demoH HSuccess None None) None (Accepting 1%nat)) (@step_write_begin CA) (demoH HSuccess None None).
  demo_step 4%nat (demoW (demoH HAwaitAck (Some None) None) None (Accepting 1%nat)) (@step_ack CA) (demoH HAwaitAck (Some None) None).
  exact demo_accepting.
Qed.
End Demo.

Definition demoReq : ClassAd := lits [("Command", VString "CA_RECONNECT_JOB"); ("TransferKey", VString "k2")].

Lemma demoReq_command : Reconnect.RequestCommand demoReq = Reconnect.CmdReconnectJob.
Proof. by vm_compute. Qed.

Lemma handoff_safe_witness :
  allowed demoCs 0%nat (take 9 (demoTrace demoReq)) (LSyscall 1%nat) ∧ (sys (demoEnd demoReq) ∉ closed (demoEnd demoReq)).
Proof.
  apply (handoff_safe demoCs 0%nat (demoTrace demoReq) (demoEnd demoReq) (take 9 (demoTrace demoReq)) (LSyscall 1%nat) []).
  - exact (demo_switched demoReq demoReq_command).
  - reflexivity.
Defined.

Lemma reply_comes_witness :
  ∃ n w' h, (n ≤ 3)%nat ∧
    hsteps demoCs 1%nat n (demoW (demoH demoReq HAwaitAck (Some None) None) None (Accepting 1%nat)) w' ∧
    rn w' = Accepting 1%nat ∧ hs w' !! 1%nat = Some h ∧ is_Some (h_replied h).
Proof. exact (reply_comes demoCs 0%nat _ _ 1%nat (demo_accepting demoReq demoReq_command) eq_refl). Defined.

(** The brackets of an IPv6 host are lost, and its sinful cannot be split again. *)
Lemma sinfulOf_ipv6 :
  sinfulOf "[::1]:9618" = "<::1:9618>" ∧ SplitHostPort "::1:9618" = None ∧
  sinfulOf "[::]:9618" = "<127.0.0.1:9618>" ∧ sinfulOf "0.0.0.0:9618" = "<127.0.0.1:9618>".
Proof. by vm_compute. Qed.
