(* ===== verification/StarterProto.v ===== *)
(** * The protocol of the starter

    An abstract machine for one run of the starter: what it may do to the shadow, the
    startd, the process and the connections, in which order, and what has to be closed
    before it ends.  [run_follows_protocol] shows that [Starter.Run] only ever does what
    the machine allows, whatever the outside answers. *)

From S2P Require Import Prelude GoLang ClassAd AdWire StarterMsg Args StarterEnv Exec Transfer Starter.

Local Open Scope Z_scope.

Module Proto.

Inductive stage :=
| Fresh       (* waiting for the activation *)
| Activated   (* waiting for the connection to the shadow *)
| Connected   (* asking the shadow for the job *)
| Greeted     (* the job is known and Hello is sent *)
| Registered  (* the shadow knows the starter *)
| Secured     (* sessions are set up; input transfer *)
| Begun       (* begin_execution was accepted *)
| Executing   (* the job's process runs *)
| Reaped      (* its status was read; output transfer *)
| Failed      (* the shadow was lost before the job started *)
| Reported    (* job_exit was sent *)
| FinalSent
| ExitedSent
| Marked      (* OnFinal was called *)
| Closed.

(** The connection to the shadow; one that has to be closed; the transfer client and
    whether it is encrypted; the job's process group; the outcome reported; whether the
    command server runs; whether job_exit was sent. *)
Record proto {CA : ClassAdLib} := mkProto {
  stg : stage;
  conn : option sid;
  stale : option sid;
  client : option (sid * bool);
  group : option Z;
  result : option (Z * Z * ClassAd);
  srv : bool;
  told : bool
}.

Section Machine.
Context {CA : ClassAdLib} {ML : MessageLib}.
(** Whether the run has an [OnFinal] callback is an option of the starter. *)
Context (JobKilled JobCoredumped : Z) (opts : Starter.Options).
Implicit Types (p q : proto).

Definition init : proto := mkProto _ Fresh None None None None None false false.

Definition to st p : proto := mkProto _ st (conn p) (stale p) (client p) (group p) (result p) (srv p) (told p).
Definition set_conn c p : proto := mkProto _ (stg p) c (stale p) (client p) (group p) (result p) (srv p) (told p).
Definition set_stale c p : proto := mkProto _ (stg p) (conn p) c (client p) (group p) (result p) (srv p) (told p).
Definition set_client c p : proto := mkProto _ (stg p) (conn p) (stale p) c (group p) (result p) (srv p) (told p).
Definition set_group g p : proto := mkProto _ (stg p) (conn p) (stale p) (client p) g (result p) (srv p) (told p).
Definition set_result r p : proto := mkProto _ (stg p) (conn p) (stale p) (client p) (group p) r (srv p) (told p).
Definition set_srv b p : proto := mkProto _ (stg p) (conn p) (stale p) (client p) (group p) (result p) b (told p).

Definition set_told p : proto := mkProto _ (stg p) (conn p) (stale p) (client p) (group p) (result p) (srv p) true.

(** The report is out. *)
Definition endStage : stage := if Starter.HasOnFinal opts then Marked else ExitedSent.
Definition ended p : Prop := stg p = endStage.

(** The reasons that may be reported at a stage. *)
Definition reportable (st : stage) (reason : Z) : Prop :=
  match st with
  | Failed | Secured => reason = Starter.JobNotStarted
  | Begun => reason = Starter.JobExecFailed
  | Reaped => reason ∈ [Starter.JobExited; JobKilled; JobCoredumped; Starter.JobShouldHold]
  | _ => False
  end.

Definition group_of (pid : Z) : option Z := if 0 <? pid then Some pid else None.

Definition stepE p q (e : eff) : ans e → Prop :=
  match e with
  | RecvFirst => λ _, stg p = Fresh ∧ q = to Activated p
  | SyscallConn => λ a, stg p = Activated ∧
      q = match a with inr s => set_conn (Some s) (to Connected p) | inl _ => p end
  | NewCommandServer _ => λ a, stg p = Connected ∧ srv p = false ∧
      q = match a with inr _ => set_srv true p | inl _ => p end
  | PutOp s _ => λ _, stg p = Connected ∧ conn p = Some s ∧ q = p
  | FlushOp s => λ _, stg p = Connected ∧ conn p = Some s ∧ q = p
  | RecvMessage s => λ _, stg p = Connected ∧ conn p = Some s ∧ q = p
  | DrainMessage s => λ _, stg p = Connected ∧ conn p = Some s ∧ q = p
  | RegisterStarterInfo s _ => λ a, stg p = Greeted ∧ conn p = Some s ∧
      q = to (match a with None => Registered | Some _ => Failed end) p
  | GetSecSessionInfo s => λ a, stg p = Registered ∧ conn p = Some s ∧
      q = to (match a with SecBroken _ => Failed | _ => Secured end) p
  | CreateSession _ _ _ _ => λ _, stg p = Secured ∧ q = p
  | BeginExecution s => λ a, stg p = Secured ∧ conn p = Some s ∧ client p = None ∧
      q = to (match a with None => Begun | Some _ => Failed end) p
  | StartProcess _ => λ a, stg p = Begun ∧
      q = match a with inr pid => set_group (group_of pid) (to Executing p) | inl _ => p end
  | RegisterJobInfo s _ => λ _, stg p = Executing ∧ conn p = Some s ∧ stale p = None ∧ q = p
  | AckHandoff _ => λ _, stg p = Executing ∧ stale p = None ∧ q = p
  | AwaitReplied ho => λ a, stg p = Executing ∧ stale p = None ∧
      q = match a with
          | Replied None => set_stale (conn p) (set_conn (Some (ho_stream ho)) p)
          | _ => set_stale (Some (ho_stream ho)) p
          end
  | Kill g sig => λ _, group p = Some g ∧
      ((stg p = Executing ∧ q = p) ∨ (ended p ∧ sig = SIGKILL ∧ q = set_group None p))
  | ReapAfterKill => λ _, stg p = Executing ∧ q = p
  | ProcessState => λ _, stg p = Executing ∧ stale p = None ∧ q = to Reaped p
  | JobTermination s _ => λ _, stg p = Reaped ∧ conn p = Some s ∧ client p = None ∧ q = p
  | JobExit s status reason ad => λ _, reportable (stg p) reason ∧ conn p = Some s ∧ client p = None ∧
      q = set_told (set_result (Some (status, reason, ad)) (to Reported p))
  | SendCtrl typ ad => λ _,
      (typ = StarterMsg.MsgHello ∧ stg p = Connected ∧ q = to Greeted p) ∨
      (typ = StarterMsg.MsgHello ∧ stg p = Executing ∧ q = p) ∨
      (typ = StarterMsg.MsgUpdate ∧ stg p = Executing ∧ q = p) ∨
      (typ = StarterMsg.MsgFinal ∧ ∃ status reason fad,
         ad = Some (StarterMsg.MarshalFinal (Some fad) status reason) ∧
         ((stg p = Connected ∧ reason = Starter.JobNotStarted ∧
           q = set_result (Some (status, reason, fad)) (to FinalSent p)) ∨
          (stg p = Reported ∧ result p = Some (status, reason, fad) ∧ q = to FinalSent p))) ∨
      (typ = StarterMsg.MsgExited ∧ ad = None ∧ stg p = FinalSent ∧ q = to ExitedSent p)
  | OnFinal status reason ad => λ _, stg p = ExitedSent ∧ result p = Some (status, reason, ad) ∧ q = to Marked p
  | DialTransfer _ _ cmd => λ a, client p = None ∧
      ((stg p = Secured ∧ cmd = Transfer.FILETRANS_UPLOAD) ∨ (stg p = Reaped ∧ cmd = Transfer.FILETRANS_DOWNLOAD)) ∧
      q = match a with inr (hc, neg) => set_client (Some (hc, default false neg)) p | inl _ => p end
  | PutSecret hc _ => λ _, client p = Some (hc, true) ∧ q = p
  | FlushSecret hc => λ _, client p = Some (hc, true) ∧ q = p
  | ReceiveStream hc => λ _, stg p = Secured ∧ client p = Some (hc, true) ∧ q = p
  | SendStream hc _ => λ _, stg p = Reaped ∧ client p = Some (hc, true) ∧ q = p
  | CloseClient hc => λ _, (∃ b, client p = Some (hc, b)) ∧ q = set_client None p
  | Stat _ => λ _, (stg p = Secured ∨ stg p = Reaped) ∧ q = p
  | ReadDir _ => λ _, (stg p = Secured ∨ stg p = Reaped) ∧ q = p
  | MkdirAll _ _ => λ _, (stg p = Secured ∨ stg p = Begun) ∧ q = p
  | OpenFile _ _ _ => λ _, (stg p = Secured ∨ stg p = Begun) ∧ q = p
  | CloseStdio _ => λ _, (stg p = Begun ∨ stg p = Executing) ∧ q = p
  | Now => λ _, stg p = Executing ∧ q = p
  | CloseStream s => λ _,
      (stg p = Executing ∧ stale p = Some s ∧ q = set_stale None p) ∨
      (ended p ∧ conn p = Some s ∧ stale p = None ∧ group p = None ∧ srv p = false ∧ q = set_conn None p)
  | CloseCommandServer => λ _, ended p ∧ srv p = true ∧ q = set_srv false p
  | TransportClose => λ _, conn p = None ∧ group p = None ∧ client p = None ∧ srv p = false ∧
      (stg p = Activated ∨ ended p) ∧ q = to Closed p
  end.

Definition step p (o : obs) q : Prop := stepE p q (o_eff o) (o_ans o).

(** ** [Run] follows it *)

Context (quote : string → string) (getpid : Z) (order : list (string * string) → list (string * string))
  (errFirst : bool).

(** One allowed effect. *)
Ltac allowed := cbn -[Z.add]; solve [by eauto 12 | naive_solver].
Ltac eff :=
  lazymatch goal with
  | |- triple _ _ ?p ?x (mbind ?k (perform ?e)) _ _ _ => apply (triple_effect step init p x e k)
  end; intros ?a; eexists; split; [allowed|cbn -[StarterMsg.MarshalFinal] in *].
Ltac value := apply triple_ret.

(** At a stage, with the connection [c], and nothing pending. *)
Definition at_ st (c : option sid) (g : option Z) (b : bool) : proto := mkProto _ st c None None g None b false.
Definition withClient st (c : option sid) (cl : option (sid * bool)) (g : option Z) (b : bool) : proto :=
  mkProto _ st c None cl g None b false.

(** What a helper that does not return early leaves: the same state. *)
Lemma triple_dial st cmd c g b x ts R W :
  (st = Secured ∧ cmd = Transfer.FILETRANS_UPLOAD) ∨ (st = Reaped ∧ cmd = Transfer.FILETRANS_DOWNLOAD) →
  triple step init (at_ st c g b) x (Transfer.dial ts cmd)
    (λ r p' x', x' = x ∧ p' = withClient st c (match r with inr hc => Some (hc, true) | inl _ => None end) g b) R W.
Proof.
  intros Hst. unfold Transfer.dial. eff. destruct a as [e|[hc neg]]; [by value|].
  destruct (default false neg) eqn:En; cbn [negb].
  - eff. destruct a as [e|]; [eff; by value|]. eff. destruct a as [e|]; [eff; by value|]. by value.
  - eff. by value.
Qed.

(** ** Helpers that leave the machine where it is *)

Definition keeps {A} p (m : M A) : Prop :=
  ∀ x R W, triple step init p x m (λ _ p' x', p' = p ∧ x' = x) R W.

Lemma keeps_bind {A B} p x (m : M A) (k : A → M B) Q R W :
  keeps p m → (∀ a, triple step init p x (k a) Q R W) → triple step init p x (m ≫= k) Q R W.
Proof. intros H1 H2. eapply triple_bind; [apply H1|]. by intros a p' x' [-> ->]. Qed.

Lemma keeps_ret {A} p (a : A) : keeps p (mret a).
Proof. intros x R W. by value. Qed.

Lemma keeps_perform p e : (∀ a, step p (Obs e a) p) → keeps p (perform e).
Proof. intros H x R W. apply triple_perform. intros a. by exists p. Qed.

(** Inside a [keeps] goal. *)
Ltac stay :=
  intros ? ? ?; repeat first
    [ eff
    | by value
    | match goal with |- triple _ _ _ _ (match ?x with _ => _ end) _ _ _ => destruct x end ].

Lemma keeps_snapshot p dir : stg p = Secured ∨ stg p = Reaped → keeps p (Transfer.snapshotSandbox dir).
Proof. intros H. unfold Transfer.snapshotSandbox. stay. Qed.

Lemma keeps_sinkOp p dir c : stg p = Secured → keeps p (Transfer.sinkOp quote dir c).
Proof.
  intros H. destruct c as [n|n m]; unfold Transfer.sinkOp, Transfer.sinkMkdir, Transfer.sinkFile;
    destruct (Transfer.dest dir n).
  - apply keeps_perform. intros a. allowed.
  - apply keeps_ret.
  - intros x R W. eff. destruct a as [e|]; [by value|].
    apply (keeps_perform p (OpenFile s true _)). intros a. allowed.
  - apply keeps_ret.
Qed.

Lemma keeps_sinkOps p dir cs : stg p = Secured → keeps p (Transfer.sinkOps quote dir cs).
Proof.
  intros H. induction cs as [|c cs IH]; simpl; [apply keeps_ret|].
  intros x R W. apply keeps_bind; [by apply keeps_sinkOp|]. intros _. apply IH.
Qed.

Lemma keeps_addFile p sb wire rel req pl : stg p = Reaped → keeps p (Transfer.addFile quote sb wire rel req pl).
Proof. intros H. unfold Transfer.addFile. stay. Qed.

Lemma keeps_addFiles p sb req names pl : stg p = Reaped → keeps p (Transfer.addFiles quote sb req names pl).
Proof.
  intros H. revert pl. induction names as [|[wire rel] names IH]; intros pl; simpl; [apply keeps_ret|].
  intros x R W. apply keeps_bind; [by apply keeps_addFile|]. intros [[e|] pl']; [by value|apply IH].
Qed.

Lemma keeps_buildOutputPlan p ts ad : stg p = Reaped → keeps p (Transfer.buildOutputPlan quote errFirst ts ad).
Proof.
  intros H. unfold Transfer.buildOutputPlan. intros x R W.
  apply keeps_bind; [by apply keeps_addFiles|]. intros [[e|] pl]; [by value|].
  destruct (Transfer.explicitOutput ad).
  - apply keeps_bind; [by apply keeps_addFiles|]. intros r. by value.
  - apply keeps_bind; [apply keeps_snapshot; by right|]. intros m.
    apply keeps_bind; [by apply keeps_addFiles|]. intros r. by value.
Qed.

Lemma keeps_setupTransfer p ad sb sec : stg p = Secured → keeps p (Transfer.setupTransfer ad sb sec).
Proof. intros H. unfold Transfer.setupTransfer. stay. Qed.

Lemma keeps_downloadInput c g b ts : keeps (at_ Secured c g b) (Transfer.downloadInput quote ts).
Proof.
  intros x R W. unfold Transfer.downloadInput. eapply triple_bind; [apply triple_dial; by left|].
  intros r p' x' [-> ->]. destruct r as [e|hc]; [by value|]. eff.
  apply keeps_bind; [by apply keeps_sinkOps|]. intros _. destruct a as [cs [e|]]; cbn [snd].
  - eff. by value.
  - apply keeps_bind; [apply keeps_snapshot; by left|]. intros m. eff. by value.
Qed.

Lemma keeps_uploadOutput c g b ts ad : keeps (at_ Reaped c g b) (Transfer.uploadOutput quote errFirst ts ad).
Proof.
  intros x R W. unfold Transfer.uploadOutput. apply keeps_bind; [by apply keeps_buildOutputPlan|].
  intros [[e|] plan]; [by value|]. eapply triple_bind; [apply triple_dial; by right|].
  intros r p' x' [-> ->]. destruct r as [e|hc]; [by value|]. eff. eff. by value.
Qed.

Lemma keeps_registerReconnect p sec : stg p = Secured → keeps p (Starter.registerReconnect sec).
Proof.
  intros H. unfold Starter.registerReconnect. destruct (_ || _); [apply keeps_ret|].
  apply keeps_perform. intros a. allowed.
Qed.

Lemma keeps_sandboxCmd p ad sb : stg p = Secured → keeps p (Starter.sandboxCmd ad sb).
Proof. intros H. unfold Starter.sandboxCmd. stay. Qed.

Lemma keeps_openStdio p ad sb attr w n : stg p = Begun → keeps p (Exec.openStdio quote ad sb attr w n).
Proof. intros H. unfold Exec.openStdio. stay. Qed.

(** A signal to the group while the job runs. *)
Lemma keeps_signal sig jp c b :
  keeps (at_ Executing c (group_of (Exec.jp_pgid jp)) b) (Exec.signalGroup sig jp).
Proof.
  unfold Exec.signalGroup. destruct (0 <? Exec.jp_pgid jp) eqn:E; [|apply keeps_ret].
  apply keeps_perform. intros a. cbn. unfold group_of. rewrite E. eauto.
Qed.

Lemma keeps_getJobInfo g b s : keeps (at_ Connected (Some s) g b) (Starter.getJobInfoWithSecrets s).
Proof.
  intros x R W. unfold Starter.getJobInfoWithSecrets.
  eff. destruct a as [e|]; [by value|]. eff. destruct a as [e|]; [by value|]. eff.
  destruct (GetInt a) as [[rval|] m]; [|by value]. destruct (rval <? 0).
  - eff. by value.
  - destruct (AdWire.GetClassAd m) as [[e|[ad sk]] m']; [by value|]. eff. by value.
Qed.

(** ** The stages *)

(** The state a report leaves: ended, with the outcome; an error return means the job was
    not started, a nil return that the shadow was told. *)
Definition wound (c : option sid) (g : option Z) (b : bool) (r : err) p : Prop :=
  ∃ status reason ad tld,
    p = mkProto _ endStage c None None g (Some (status, reason, ad)) b tld ∧
    (r ≠ None → status = 0 ∧ reason = Starter.JobNotStarted) ∧ (r = None → tld = true).

Lemma triple_final p x status reason ad (Q : unit → proto → sid → Prop) R W :
  stg p = Reported → result p = Some (status, reason, ad) →
  Q tt (to endStage p) x →
  triple step init p x (Starter.finalize opts status reason ad false) Q R W.
Proof.
  intros Hs Hr HQ. unfold Starter.finalize. apply triple_ret_bind.
  eapply (triple_effect step init p x (SendCtrl _ _)). intros a. exists (to FinalSent p). split.
  { cbn. do 3 right. left. split; [done|]. exists status, reason, ad. split; [done|]. by right. }
  eapply (triple_effect step init _ x (SendCtrl _ _)). intros a'. exists (to ExitedSent p). split.
  { cbn. do 4 right. done. }
  unfold endStage in HQ. destruct (Starter.HasOnFinal opts).
  - apply (triple_perform step init _ x (OnFinal status reason ad)). intros []. exists (to Marked p). split.
    + done.
    + exact HQ.
  - value. exact HQ.
Qed.

(** A report to the shadow and the startd. *)
Lemma triple_report st c g b x status reason ad (Q : unit → proto → sid → Prop) R W :
  reportable st reason → c = Some x →
  Q tt (mkProto _ endStage c None None g (Some (status, reason, ad)) b true) x →
  triple step init (at_ st c g b) x (Starter.finalize opts status reason ad true) Q R W.
Proof.
  intros Hr -> HQ env s Hs Hx.
  assert (∃ s1, step (at_ st (Some x) g b) s1 (mkProto _ Reported (Some x) None None g (Some (status, reason, ad)) b true) ∧
    Starter.finalize opts status reason ad true env s = Starter.finalize opts status reason ad false env (mkSt (hist s ++ [s1]) (sysSt s)))
    as (o & Ho & ->).
  { exists (Obs (JobExit x status reason ad) (env (hist s) (JobExit x status reason ad))). split; [done|].
    unfold Starter.finalize. subst x. reflexivity. }
  eapply (triple_final (mkProto _ Reported (Some x) None None g (Some (status, reason, ad)) b true));
    [done|done|exact HQ| |done]. cbn. by eapply steps_snoc.
Qed.

Lemma triple_notStarted {A} st c g b x e (Q : A → proto → sid → Prop) R W :
  reportable st Starter.JobNotStarted → c = Some x →
  (∀ p, wound c g b (Some e) p → R (Some e) p x) →
  triple step init (at_ st c g b) x (Starter.notStarted opts true e) Q R W.
Proof.
  intros Hr Hc HR. unfold Starter.notStarted. eapply triple_bind.
  - by apply (triple_report _ _ _ _ _ _ _ _ (λ _ p' x', x' = x ∧ wound c g b (Some e) p')); [| |split; [done|]; exists 0, Starter.JobNotStarted, adNew, true].
  - intros [] p' x' [-> Hw]. apply triple_return. by apply HR.
Qed.

(** A run that reports and returns nil. *)
Lemma triple_outcome {A} st c g b x status reason ad (Q : A → proto → sid → Prop) (R : err → proto → sid → Prop) W :
  reportable st reason → c = Some x → (∀ p, wound c g b None p → R None p x) →
  triple step init (at_ st c g b) x (Starter.finalize opts status reason ad true;; return_ None) Q R W.
Proof.
  intros Hr Hc HR. eapply triple_bind.
  - by apply (triple_report _ _ _ _ _ _ _ _ (λ _ p' x', x' = x ∧ wound c g b None p')); [| |split; [done|]; exists status, reason, ad, true].
  - intros [] p' x' [-> Hw]. apply triple_return. by apply HR.
Qed.

(** Before the job: each step leads to the next stage or to a report. *)
Definition lost (x : sid) (b : bool) : err → proto → sid → Prop := λ r p x', x' = x ∧ wound (Some x) None b r p.

Lemma triple_register act addr x b W :
  triple step init (at_ Connected (Some x) None b) x (Starter.register getpid opts act addr)
    (λ _ p' x', x' = x ∧ p' = at_ Registered (Some x) None b) (lost x b) W.
Proof.
  unfold Starter.register. apply triple_getSys_bind. apply keeps_bind; [apply keeps_getJobInfo|].
  intros [e|ad].
  - unfold Starter.notStarted. eapply (triple_bind _ _ _ _ _ _ (λ _ p' x', x' = x ∧ wound (Some x) None b (Some ("starter: get_job_info: " +:+ e)) p')).
    + unfold Starter.finalize. apply triple_ret_bind.
      eapply (triple_effect step init _ x (SendCtrl _ _)). intros a.
      exists (set_result (Some (0, Starter.JobNotStarted, adNew)) (at_ FinalSent (Some x) None b)). split.
      { cbn. do 3 right. left. split; [done|]. exists 0, Starter.JobNotStarted, adNew. split; [done|]. by left. }
      eapply (triple_effect step init _ x (SendCtrl _ _)). intros a'.
      exists (set_result (Some (0, Starter.JobNotStarted, adNew)) (at_ ExitedSent (Some x) None b)). split.
      { cbn. do 4 right. done. }
      unfold wound, endStage. destruct (Starter.HasOnFinal opts).
      * apply (triple_perform step init _ x (OnFinal _ _ _)). intros []. eexists. split; [done|]. split; [done|].
        by exists 0, Starter.JobNotStarted, adNew, false.
      * value. split; [done|]. by exists 0, Starter.JobNotStarted, adNew, false.
    + intros [] p' x' [-> Hw]. apply triple_return. by split.
  - eapply (triple_effect step init _ x (SendCtrl _ _)). intros a. exists (at_ Greeted (Some x) None b).
    split; [cbn; by left|]. apply triple_getSys_bind. eff.
    destruct a0 as [e|]; [|by value]. apply (triple_notStarted Failed); [done|done|by split].
Qed.

Lemma triple_secSession have x b W :
  triple step init (at_ Registered (Some x) None b) x (Starter.secSession opts have)
    (λ _ p' x', x' = x ∧ p' = at_ Secured (Some x) None b) (lost x b) W.
Proof.
  unfold Starter.secSession. apply triple_getSys_bind. eff. destruct a as [i| |e].
  - destruct have.
    + apply (keeps_bind (at_ Secured (Some x) None b)); [|intros []; by value].
      intros y R' W'. apply keeps_bind; [by apply keeps_registerReconnect|]. intros r. by value.
    + apply triple_ret_bind. by value.
  - by value.
  - apply (triple_notStarted Failed); [done|done|by split].
Qed.

Lemma triple_inputTransfer ad sb sec x b W :
  triple step init (at_ Secured (Some x) None b) x (Starter.inputTransfer quote opts ad sb sec)
    (λ _ p' x', x' = x ∧ p' = at_ Secured (Some x) None b) (lost x b) W.
Proof.
  unfold Starter.inputTransfer. destruct (Transfer.shouldTransfer ad); [|by value].
  apply keeps_bind; [by apply keeps_setupTransfer|]. intros r.
  apply keeps_bind.
  { destruct r as [e|[ts|]]; [apply keeps_ret| |apply keeps_ret].
    intros y R' W'. apply keeps_bind; [apply keeps_downloadInput|]. intros d. by value. }
  intros [[e|] [ts|]].
  - apply triple_outcome; [done|done|by split].
  - apply triple_outcome; [done|done|by split].
  - apply keeps_bind; [by apply keeps_sandboxCmd|]. intros ad'. by value.
  - by value.
Qed.

Lemma triple_begin x b W :
  triple step init (at_ Secured (Some x) None b) x (Starter.begin opts)
    (λ _ p' x', x' = x ∧ p' = at_ Begun (Some x) None b) (lost x b) W.
Proof.
  unfold Starter.begin. apply triple_getSys_bind. eff. destruct a as [e|]; [|by value].
  apply (triple_notStarted Failed); [done|done|by split].
Qed.

(** Starting the job. *)
Lemma triple_startJob ad act slot x b R W :
  triple step init (at_ Begun (Some x) None b) x (Exec.startJob quote order ad act slot)
    (λ r p' x', x' = x ∧ p' = match r with
       | inl _ => at_ Begun (Some x) None b
       | inr jp => at_ Executing (Some x) (group_of (Exec.jp_pgid jp)) b
       end) R W.
Proof.
  unfold Exec.startJob. destruct (bool_decide _); [by value|]. eff. destruct a as [e|]; [by value|].
  destruct (EvaluateAttrString "Cmd" ad) as [cmd|]; [|by value]. destruct (bool_decide (cmd = "")); [by value|].
  do 3 (apply keeps_bind; [by apply keeps_openStdio|]; intros [[?e|] ?n]; [by value|]).
  eff. destruct a as [e|pid]; [eff; by value|]. eff. by value.
Qed.

(** While it runs. *)
Definition running (jp : Exec.jobProcess) (b : bool) (x : sid) : proto :=
  at_ Executing (Some x) (group_of (Exec.jp_pgid jp)) b.

Lemma keeps_onControl addr jp b x v typ : keeps (running jp b x) (Starter.onControl getpid opts addr jp v typ).
Proof.
  unfold Starter.onControl, Exec.killGroup, Exec.termGroup, Exec.suspendGroup, Exec.continueGroup.
  intros y R W. do 4 (destruct (typ =? _); [apply keeps_bind; [apply keeps_signal|]; intros []; by value|]).
  destruct (typ =? _); [|by value]. eff. by value.
Qed.

Lemma keeps_onTick jp b x R W :
  triple step init (running jp b x) x (Starter.onTick jp) (λ _ p' x', p' = running jp b x ∧ x' = x) R W.
Proof. unfold Starter.onTick. eff. eff. apply triple_getSys_bind. eff. by value. Qed.

Lemma triple_onReconnect ho tr jp b x R W :
  triple step init (running jp b x) x (Starter.onReconnect ho tr) (λ _ p' x', p' = running jp b x') R W.
Proof.
  unfold Starter.onReconnect, Starter.acceptReconnect.
  set (swapped := set_stale (Some x) (running jp b (ho_stream ho))).
  eapply (triple_bind _ _ _ _ _ _ (λ e p' x', x' = x ∧ p' = match e with None => swapped | Some _ => running jp b x end)).
  - eff. eff. destruct a0 as [[e|]|e|]; cbn -[bool_decide].
    + rewrite bool_decide_false by done. eff. by value.
    + rewrite bool_decide_true by done. apply triple_ret_bind. by value.
    + rewrite bool_decide_false by done. eff. by value.
    + rewrite bool_decide_false by done. eff. by value.
  - intros [e|] p' x' [-> ->]; [by value|]. apply triple_getSys_bind, triple_setSys_bind. eff. by value.
Qed.

Lemma keeps_hardVacate jp b x : keeps (running jp b x) (Starter.hardVacate jp).
Proof.
  unfold Starter.hardVacate, Exec.killGroup. intros y R W. apply keeps_bind; [apply keeps_signal|]. intros []. eff. by value.
Qed.

(** What ends the loop. *)
Definition stops (sl : Starter.sel) : bool :=
  match sl with Starter.SelCtx | Starter.SelCtrl None | Starter.SelWait => true | _ => false end.

Lemma triple_monitor addr jp b sels v tr x R (W : proto → Prop) :
  (existsb stops sels = false → ∀ y, W (running jp b y)) →
  triple step init (running jp b x) x (Starter.monitor getpid opts addr jp sels v tr)
    (λ _ p' x', p' = running jp b x') R W.
Proof.
  revert v tr x. induction sels as [|[|[[typ m]|]|ho| |] sels IH]; intros v tr x HW; simpl; cbn in HW.
  - apply triple_waiting. by apply HW.
  - apply keeps_bind; [apply keeps_hardVacate|]. intros []. by value.
  - apply keeps_bind; [apply keeps_onControl|]. intros v'. by apply IH.
  - apply keeps_bind; [apply keeps_hardVacate|]. intros []. by value.
  - eapply triple_bind; [apply triple_onReconnect|]. cbn. intros tr' p' x' ->. by apply IH.
  - eapply triple_bind; [apply keeps_onTick|]. cbn. intros [] p' x' [-> ->]. by apply IH.
  - by value.
Qed.

(** After it. *)
Lemma triple_outputTransfer v tr ad reason fad c g x b R W :
  c = Some x → reportable Reaped reason →
  triple step init (at_ Reaped c g b) x (Starter.outputTransfer quote errFirst v tr ad reason fad)
    (λ r p' x', x' = x ∧ p' = at_ Reaped c g b ∧ reportable Reaped r.1) R W.
Proof.
  intros -> Hr. unfold Starter.outputTransfer. destruct tr as [ts|]; [|by value]. destruct v; [by value|].
  apply keeps_bind; [apply keeps_uploadOutput|]. intros e.
  destruct e as [e|]; apply triple_getSys_bind; eff; value; split_and!; try done.
  cbn. rewrite !elem_of_cons. tauto.
Qed.

Lemma reportable_exitReason v info : reportable Reaped (Starter.exitReason JobKilled JobCoredumped v info).
Proof. unfold Starter.exitReason. cbn. rewrite !elem_of_cons. destruct v, (Exec.coreDump info); tauto. Qed.

Lemma triple_finish jp ad v tr x b W :
  triple step init (running jp b x) x (Starter.finish quote JobKilled JobCoredumped errFirst opts jp ad v tr)
    (λ _ _ _, False) (λ r p' x', r = None ∧ x' = x ∧ wound (Some x) (group_of (Exec.jp_pgid jp)) b None p') W.
Proof.
  unfold Starter.finish, Exec.closeStdio, Exec.killGroup. eff. eff.
  apply keeps_bind; [apply keeps_signal|]. intros []. eff.
  eapply triple_bind; [apply triple_outputTransfer; [reflexivity|apply reportable_exitReason]|].
  cbn. intros [rsn fad] p' x' (-> & -> & Hr). by apply triple_outcome.
Qed.

(** What the deferred calls close. *)
Lemma triple_deferKill jp c b r p x (Q : unit → proto → sid → Prop) R W :
  wound c (group_of (Exec.jp_pgid jp)) b r p → (∀ p', wound c None b r p' → Q tt p' x) →
  triple step init p x (Exec.killGroup jp) Q R W.
Proof.
  intros (status & reason & ad & tld & -> & H1 & H2) HQ. unfold Exec.killGroup, Exec.signalGroup, group_of.
  destruct (0 <? Exec.jp_pgid jp).
  - apply triple_perform. intros []. eexists. split.
    + cbn. split; [done|]. right. done.
    + apply HQ. by exists status, reason, ad, tld.
  - value. apply HQ. by exists status, reason, ad, tld.
Qed.

Lemma triple_execute act addr ad tr sels x b (W : proto → Prop) :
  (existsb stops sels = false → ∀ jp y, W (running jp b y)) →
  triple step init (at_ Begun (Some x) None b) x
    (Starter.execute quote JobKilled JobCoredumped getpid order errFirst opts act addr ad tr sels)
    (λ _ _ _, False) (λ r p' x', r = None ∧ wound (Some x') None b r p') W.
Proof.
  intros HW. unfold Starter.execute. eapply triple_bind; [apply triple_startJob|].
  cbn. intros [e|jp] p' x' [-> ->].
  - apply triple_outcome; [done|done|by split].
  - apply (triple_defer _ _ _ _ _ _ (λ _ _ _, False)
             (λ r p' x', r = None ∧ wound (Some x') (group_of (Exec.jp_pgid jp)) b r p')); [|done|].
    + eff. eapply triple_bind; [apply triple_monitor; intros Hn y; by apply HW|]. cbn. intros [v tr'] p' x' ->.
      eapply triple_weaken; [apply triple_finish|done| |done]. by intros r p x0 (-> & -> & ?).
    + intros r p' x' [-> Hw]. eapply triple_deferKill; [exact Hw|]. by split.
Qed.

(** Everything it held is released. *)
Definition clean p : Prop := stg p = Closed ∧ conn p = None ∧ stale p = None ∧ client p = None ∧ group p = None ∧ srv p = false.

Definition reported (r : err) p : Prop :=
  match result p with
  | None => r ≠ None
  | Some (status, reason, _) => (r ≠ None → status = 0 ∧ reason = Starter.JobNotStarted) ∧ (r = None → told p = true)
  end.

(** Still waiting: the job runs, with the connection, and nothing that ends it has
    happened. *)
Definition alive (sels : list Starter.sel) p : Prop :=
  existsb stops sels = false ∧
  stg p = Executing ∧ is_Some (conn p) ∧ stale p = None ∧ client p = None ∧ result p = None.

Lemma triple_serve act sels cs x :
  triple step init (at_ Connected (Some x) None cs.2) x
    (Starter.serve quote JobKilled JobCoredumped getpid order errFirst opts act sels cs)
    (λ _ _ _, False) (λ r p' x', wound (Some x') None false r p') (alive sels).
Proof.
  unfold Starter.serve.
  apply (triple_defer _ _ _ _ _ _ (λ _ _ _, False) (λ r p' x', wound (Some x') None cs.2 r p')); [|done|].
  - assert (∀ r p x', lost x cs.2 r p x' → wound (Some x') None cs.2 r p) as Hl by (by intros r p x' [-> ?]).
    eapply triple_bind; [eapply triple_weaken; [apply triple_register|done|exact Hl|by intros ? H; exact H]|].
    cbn. intros jobAd p' x' [-> ->].
    eapply triple_bind; [eapply triple_weaken; [apply triple_secSession|done|exact Hl|by intros ? H; exact H]|].
    cbn. intros sec p' x' [-> ->].
    eapply triple_bind; [eapply triple_weaken; [apply triple_inputTransfer|done|exact Hl|by intros ? H; exact H]|].
    cbn. intros t p' x' [-> ->].
    eapply triple_bind; [eapply triple_weaken; [apply triple_begin|done|exact Hl|by intros ? H; exact H]|].
    cbn. intros [] p' x' [-> ->].
    eapply triple_weaken with (W' := alive sels); [apply triple_execute|done| |].
    + intros Hn jp y. repeat split; [done|by eexists].
    + by intros r p x0 [_ ?].
    + done.
  - intros r p' x' Hw. destruct cs as [addr [|]]; cbn [snd].
    + destruct Hw as (status & reason & ad & tld & -> & H1 & H2).
      apply triple_perform. intros []. eexists. split; [cbn; by split_and!|].
      by exists status, reason, ad, tld.
    + by value.
Qed.

Lemma triple_connected act sels s x :
  triple step init (at_ Connected (Some s) None false) x
    (Starter.connected quote JobKilled JobCoredumped getpid order errFirst opts act sels s)
    (λ _ _ _, False) (λ r p' _, wound None None false r p') (alive sels).
Proof.
  unfold Starter.connected. apply triple_setSys_bind.
  apply (triple_defer _ _ _ _ _ _ (λ _ _ _, False) (λ r p' x', wound (Some x') None false r p')); [|done|].
  - eapply (triple_bind _ _ _ _ _ _ (λ cs p' x', x' = s ∧ p' = at_ Connected (Some s) None cs.2)).
    + unfold Starter.startCommandServer. destruct (Starter.EnableCommandServer opts); [|by value].
      eff. destruct a as [e|addr]; by value.
    + intros cs p' x' [-> ->]. apply triple_serve.
  - intros r p' x' (status & reason & ad & tld & -> & H1 & H2).
    unfold Starter.closeSys. apply triple_getSys_bind. apply (triple_perform _ _ _ _ (CloseStream x')).
    intros []. eexists. split; [cbn; right; by split_and!|]. by exists status, reason, ad, tld.
Qed.

Lemma triple_Run sels :
  triple step init init 0%nat (Starter.Run quote JobKilled JobCoredumped getpid order errFirst opts sels)
    (λ _ _ _, False) (λ r p _, clean p ∧ reported r p) (alive sels).
Proof.
  unfold Starter.Run.
  apply (triple_defer _ _ _ _ _ _ (λ _ _ _, False)
           (λ r p' _, wound None None false r p' ∨ (r ≠ None ∧ p' = at_ Activated None None false))); [|done|].
  - unfold Starter.awaitActivate. eapply triple_bind.
    + eff. destruct a as [|typ ad|e]; [apply triple_return; by right| |apply triple_return; by right].
      destruct (negb _); [apply triple_return; by right|].
      destruct (StarterMsg.ParseActivate ad) as [act|]; [|apply triple_return; by right].
      apply (triple_ret _ _ _ _ _ (λ _ p' _, p' = at_ Activated None None false)). done.
    + cbn. intros act p' x' ->. unfold Starter.activated. eff. destruct a as [e|s]; [apply triple_return; by right|].
      eapply triple_weaken; [apply triple_connected|done| |done]. intros r p x0 Hw. by left.
  - intros r p' x' [(status & reason & ad & tld & -> & H1 & H2)|[Hr ->]];
      apply (triple_perform _ _ _ _ TransportClose); intros []; eexists;
      (split; [cbn; split_and!; first [reflexivity|by left|by right]|]); (split; [by repeat split|]).
    + exact (conj H1 H2).
    + exact Hr.
Qed.

(** C8: the starter follows its protocol, whatever happens outside.  For every answer of
    the shadow, the startd, the file system and the kernel, and every sequence of events
    while the job runs, what [Run] does is a run of the machine; it does not fall
    through; when it returns, the control channel is closed, no connection or transfer
    client is left open, the job's process group was killed and the command server
    closed, and the outcome was reported: a nil return means the shadow got job_exit, an
    error return after the connection arrived means JOB_NOT_STARTED with status 0.  It has
    not returned only while the job is running, nothing was reported, and neither the
    job's exit, nor the loss of the control channel, nor a cancellation has been seen. *)
Theorem run_follows_protocol sels env :
  let '(s, o) := run (Starter.Run quote JobKilled JobCoredumped getpid order errFirst opts sels) env in
  ∃ p, steps step init (hist s) p ∧
    match o with
    | Val _ => False
    | Ret r => clean p ∧ reported r p
    | Running => alive sels p
    end.
Proof.
  pose proof (triple_Run sels env (mkSt [] 0%nat) (steps_nil _ _) eq_refl) as H. unfold run.
  by destruct (Starter.Run _ _ _ _ _ _ _ _ _ _) as [s o].
Qed.
End Machine.
End Proto.
