(* ===== verification/StarterFacts.v ===== *)
(** * What a run of the starter means

    Consequences of [StarterProto]: the report of a run, the connection its system calls
    use, what comes before the job and what the transfer key is sent on. *)

From S2P Require Import Prelude GoLang ClassAd AdWire StarterMsg Args StarterEnv Exec Transfer Starter StarterProto.

Local Open Scope Z_scope.

Import Proto.

Module StarterFacts.
Section Facts.
Context {CA : ClassAdLib} {ML : MessageLib}.
Context (JobKilled JobCoredumped : Z) (opts : Starter.Options).
Context (quote : string → string) (getpid : Z) (order : list (string * string) → list (string * string))
  (errFirst : bool).

Let step := step JobKilled JobCoredumped opts.
Let Run := Starter.Run quote JobKilled JobCoredumped getpid order errFirst opts.

(** The protocol, for a run given by its result. *)
Lemma run_protocol sels env s o :
  run (Run sels) env = (s, o) →
  ∃ p, steps step init (hist s) p ∧
    match o with Val _ => False | Ret r => clean p ∧ reported r p | Running => alive sels p end.
Proof.
  intros H. pose proof (triple_Run JobKilled JobCoredumped opts quote getpid order errFirst sels env (mkSt [] 0%nat)
    (steps_nil _ _) eq_refl) as (p & H1 & H2).
  unfold Run, run in H. rewrite H in H1, H2. by exists p; destruct o.
Qed.

(** ** The report *)

(** An outcome: status, reason and final ad. *)
Definition report : Type := Z * Z * ClassAd.

Definition ctrlOf (o : obs) : option (Z * option ClassAd) :=
  match o_eff o with SendCtrl typ ad => Some (typ, ad) | _ => None end.
Definition exitOf (o : obs) : option report :=
  match o_eff o with JobExit _ status reason ad => Some (status, reason, ad) | _ => None end.
Definition markOf (o : obs) : option report :=
  match o_eff o with OnFinal status reason ad => Some (status, reason, ad) | _ => None end.

(** Messages to the startd, job_exit calls to the shadow, calls of [OnFinal]. *)
Definition ctrlMsgs : list obs → list (Z * option ClassAd) := omap ctrlOf.
Definition exits : list obs → list report := omap exitOf.
Definition marks : list obs → list report := omap markOf.

Definition finalMsg (r : report) : Z * option ClassAd :=
  (StarterMsg.MsgFinal, Some (StarterMsg.MarshalFinal (Some r.2) r.1.1 r.1.2)).
Definition exitedMsg : Z * option ClassAd := (StarterMsg.MsgExited, None).

Definition progress (m : Z * option ClassAd) : Prop := m.1 = StarterMsg.MsgHello ∨ m.1 = StarterMsg.MsgUpdate.

(** The messages a state has sent after the progress reports. *)
Definition tailOf (p : proto) : list (Z * option ClassAd) :=
  match stg p, result p with
  | FinalSent, Some r => [finalMsg r]
  | (ExitedSent | Marked | Proto.Closed), Some r => [finalMsg r; exitedMsg]
  | _, _ => []
  end.

Definition marksOf (p : proto) : list report :=
  match stg p, result p with
  | Marked, Some r => [r]
  | Proto.Closed, Some r => if Starter.HasOnFinal opts then [r] else []
  | _, _ => []
  end.

Definition exitsOf (p : proto) : list report :=
  if told p then match result p with Some r => [r] | None => [] end else [].

Definition early (st : stage) : bool :=
  match st with Reported | FinalSent | ExitedSent | Marked | Proto.Closed => false | _ => true end.

Record reports (h : list obs) (p : proto) : Prop := {
  rep_ctrl : ∃ pre, Forall progress pre ∧ ctrlMsgs h = pre ++ tailOf p ∧
               (stg p = Fresh ∨ stg p = Activated ∨ (stg p = Proto.Closed ∧ result p = None) → pre = []);
  rep_exits : exits h = exitsOf p;
  rep_marks : marks h = marksOf p;
  rep_early : early (stg p) = true → result p = None ∧ told p = false;
  rep_late : stg p = Reported ∨ stg p = FinalSent ∨ stg p = ExitedSent ∨ stg p = Marked → is_Some (result p);
  rep_closed : stg p = Proto.Closed → result p = None → told p = false
}.

Lemma omap_snoc {A B} (f : A → option B) l x : omap f (l ++ [x]) = omap f l ++ match f x with Some y => [y] | None => [] end.
Proof. rewrite omap_app. simpl. by destruct (f x). Qed.

(** A step that says nothing moves between early stages, stays, or closes the channel. *)
Definition silent (o : obs) : bool :=
  match o_eff o with SendCtrl _ _ | JobExit _ _ _ _ | OnFinal _ _ _ => false | _ => true end.

(** Case analysis on the answer of an effect and on the alternatives of a step. *)
Ltac split_answer :=
  cbn in *; repeat match goal with
  | a : _ + _ |- _ => destruct a
  | a : option _ |- _ => destruct a
  | a : secReply |- _ => destruct a
  | a : repliedSel |- _ => destruct a
  | a : err |- _ => destruct a
  | a : prod _ _ |- _ => destruct a
  | H : _ ∨ _ |- _ => destruct H
  | H : _ ∧ _ |- _ => destruct H
  | H : ∃ _, _ |- _ => destruct H
  end; subst; cbn.

Lemma silent_step p o q :
  silent o = true → step p o q →
  result q = result p ∧ told q = told p ∧
  (stg q = stg p ∨
   (early (stg p) = true ∧ early (stg q) = true ∧ stg q ≠ Fresh ∧ (stg q = Activated → stg p = Fresh)) ∨
   (stg q = Proto.Closed ∧ (stg p = Activated ∨ stg p = endStage opts))).
Proof.
  destruct o as [e a]. unfold step, Proto.step. cbn [o_eff o_ans]. intros Hs Hstep.
  destruct e; try done; cbn in Hstep; destruct_and?; subst; try by eauto 6.
  all: split_answer.
  all: split_and!; try done.
  all: first
    [ by left
    | right; left; match goal with H : stg _ = _ |- _ => rewrite H end; by split_and!
    | right; right; tauto ].
Qed.

Lemma silent_quiet o : silent o = true → ctrlOf o = None ∧ exitOf o = None ∧ markOf o = None.
Proof. unfold silent, ctrlOf, exitOf, markOf. by destruct (o_eff o). Qed.

Lemma reports_silent h p o q : silent o = true → reports h p → step p o q → reports (h ++ [o]) q.
Proof.
  intros Hs [(pre & Hpre & Hc & Hn) He Hm Hearly Hlate Hclosed] Hstep.
  destruct (silent_quiet o Hs) as (E1 & E2 & E3).
  destruct (silent_step p o q Hs Hstep) as (Hr & Ht & Hstg).
  assert (exitsOf q = exitsOf p) as Hx by (unfold exitsOf; by rewrite Hr, Ht).
  assert (∃ pre, Forall progress pre ∧ ctrlMsgs h = pre ++ tailOf q ∧ marksOf q = marksOf p ∧
            (stg q = Fresh ∨ stg q = Activated ∨ (stg q = Proto.Closed ∧ result q = None) → pre = [])) as (pre' & H1 & H2 & H3 & H4).
  { exists pre. destruct Hstg as [Hq|[(Hq1 & Hq2 & Hq3 & Hq4)|[Hq [Hp|Hp]]]].
    - unfold tailOf, marksOf. by rewrite Hq, Hr.
    - destruct (Hearly Hq1) as [Hr0 _]. split; [done|]. rewrite Hc.
      assert (tailOf p = [] ∧ tailOf q = [] ∧ marksOf p = [] ∧ marksOf q = []) as (-> & -> & -> & ->).
      { unfold tailOf, marksOf. rewrite Hr, Hr0. by destruct (stg p), (stg q). }
      split_and!; try done. intros [?|[Ha|[Hcl _]]]; [done|apply Hn; left; by apply Hq4|by rewrite Hcl in Hq2].
    - destruct Hearly as [Hr0 _]; [by rewrite Hp|]. split; [done|]. rewrite Hc.
      unfold tailOf, marksOf. rewrite Hq, Hp, Hr, Hr0. split_and!; try done. intros _. apply Hn. by right; left.
    - split; [done|]. rewrite Hc. unfold tailOf, marksOf. rewrite Hq, Hp, Hr.
      destruct Hlate as [r Hres]; [unfold endStage in Hp; destruct (Starter.HasOnFinal opts); rewrite Hp; tauto|].
      rewrite Hres. unfold endStage. split_and!; try done; try by destruct (Starter.HasOnFinal opts).
      intros [?|[?|[_ ?]]]; congruence. }
  split.
  - exists pre'. unfold ctrlMsgs. rewrite omap_snoc, E1, app_nil_r. done.
  - unfold exits. by rewrite omap_snoc, E2, app_nil_r, Hx.
  - unfold marks. by rewrite omap_snoc, E3, app_nil_r, H3.
  - rewrite Hr, Ht. intros Heq. apply Hearly. destruct Hstg as [<-|[[? _]|[Hq _]]]; [done|done|by rewrite Hq in Heq].
  - rewrite Hr. intros Hl. apply Hlate. destruct Hstg as [<-|[(_ & Hq & _)|[Hq _]]]; [done| |].
    + by destruct Hl as [E|[E|[E|E]]]; rewrite E in Hq.
    + by destruct Hl as [E|[E|[E|E]]]; rewrite E in Hq.
  - rewrite Hr, Ht. intros Hq Hnone. destruct Hstg as [E|[(_ & E & _)|[_ [E|E]]]].
    + apply Hclosed; congruence.
    + by rewrite Hq in E.
    + by apply Hearly; rewrite E.
    + exfalso. destruct Hlate as [r Hres]; [|congruence].
      unfold endStage in E. destruct (Starter.HasOnFinal opts); rewrite E; tauto.
Qed.

Lemma mk_reports h o st c sl cl g res sr tl pre :
  let q := mkProto _ st c sl cl g res sr tl in
  st ≠ Fresh → st ≠ Activated → st ≠ Proto.Closed →
  Forall progress pre → ctrlMsgs h ++ option_list (ctrlOf o) = pre ++ tailOf q →
  exits h ++ option_list (exitOf o) = exitsOf q → marks h ++ option_list (markOf o) = marksOf q →
  (if early st then res = None ∧ tl = false else is_Some res) →
  reports (h ++ [o]) q.
Proof.
  intros q H1 H2 H3 Hpre Hc He Hm Hst. subst q. split; cbn.
  - exists pre. split; [done|]. split; [|by intros [?|[?|[? _]]]].
    unfold ctrlMsgs in *. rewrite omap_snoc. by destruct (ctrlOf o).
  - unfold exits in *. rewrite omap_snoc. by destruct (exitOf o).
  - unfold marks in *. rewrite omap_snoc. by destruct (markOf o).
  - intros E. by rewrite E in Hst.
  - intros [E|[E|[E|E]]]; rewrite E in Hst; done.
  - done.
Qed.

(** The lists before the step, in the three equations of [mk_reports]. *)
Ltac report_with pre Hc He Hm :=
  apply (mk_reports _ _ _ _ _ _ _ _ _ _ pre); try done; try (by eexists); cbn in *;
  rewrite ?Hc, ?He, ?Hm, ?app_nil_r, <-?app_assoc; try done.

Lemma reports_step h p o q : reports h p → step p o q → reports (h ++ [o]) q.
Proof.
  intros Hrep Hstep. destruct (silent o) eqn:Hs; [by eapply reports_silent|].
  destruct Hrep as [(pre & Hpre & Hc & Hn) He Hm Hearly Hlate Hclosed].
  destruct p as [st c sl cl g res sr tl].
  destruct o as [[] a]; try done; clear Hs; unfold step, Proto.step in Hstep; cbn in Hstep.
  - assert (∀ typ ad, progress (typ, ad) → Forall progress (pre ++ [(typ, ad)])) as Hsnoc.
    { intros typ' ad' H. apply Forall_app. by split; [|apply Forall_singleton]. }
    destruct Hstep as [(-> & -> & ->)|[(-> & -> & ->)|[(-> & -> & ->)|[(-> & status & reason & fad & -> & Hf)|(-> & -> & -> & ->)]]]].
    1,2: destruct Hearly as [Hr Ht]; [done|]; cbn in Hr, Ht; subst;
      report_with (pre ++ [(StarterMsg.MsgHello, ad)]) Hc He Hm; apply Hsnoc; by left.
    + destruct Hearly as [Hr Ht]; [done|]. cbn in Hr, Ht. subst.
      report_with (pre ++ [(StarterMsg.MsgUpdate, ad)]) Hc He Hm. apply Hsnoc. by right.
    + destruct Hf as [(-> & -> & ->)|(-> & -> & ->)]; [|report_with pre Hc He Hm].
      destruct Hearly as [Hr Ht]; [done|]. cbn in Hr, Ht. subst. report_with pre Hc He Hm.
    + destruct Hlate as [r Hr]; [cbn; tauto|]. cbn in Hr. subst. report_with pre Hc He Hm.
  - destruct Hstep as [-> [-> ->]]. report_with pre Hc He Hm.
  - destruct Hstep as (Hrp & -> & -> & ->).
    destruct Hearly as [Hr Ht]; [by destruct st|]. cbn in Hr, Ht. subst. report_with pre Hc He Hm; destruct st; by rewrite ?app_nil_r.
Qed.

Lemma reports_steps h p : steps step init h p → reports h p.
Proof.
  apply (steps_history step reports).
  - intros ? ? ? ?. apply reports_step.
  - split; cbn; try done; [by exists []|]. by intros [?|[?|[?|?]]].
Qed.

(** What the startd, the shadow and the callback are told when [Run] returns [r]. *)
Definition told_all (h : list obs) (r : err) (rep : report) : Prop :=
  (∃ pre, Forall progress pre ∧ ctrlMsgs h = pre ++ [finalMsg rep; exitedMsg]) ∧
  marks h = (if Starter.HasOnFinal opts then [rep] else []) ∧
  (exits h = [rep] ∨ (exits h = [] ∧ r ≠ None)) ∧
  (r ≠ None → rep.1 = (0, Starter.JobNotStarted)).

Definition told_nothing (h : list obs) (r : err) : Prop :=
  ctrlMsgs h = [] ∧ exits h = [] ∧ marks h = [] ∧ r ≠ None.

Lemma run_outcome sels env s r :
  run (Run sels) env = (s, Ret r) →
  told_nothing (hist s) r ∨ ∃ rep, told_all (hist s) r rep.
Proof.
  intros H. destruct (run_protocol sels env s (Ret r) H) as (p & Hsteps & Hclean & Hrep).
  destruct (reports_steps _ _ Hsteps) as [(pre & Hpre & Hc & Hn) He Hm _ _ Hclosed].
  destruct Hclean as [Hst _]. unfold tailOf, exitsOf, marksOf, reported in *. rewrite Hst in *.
  destruct (result p) as [[[status reason] ad]|] eqn:Er.
  - right. exists (status, reason, ad). destruct Hrep as [H1 H2]. split_and!.
    + by exists pre.
    + done.
    + rewrite He. destruct (told p); [by left|]. right. split; [done|]. intros ->. by discriminate H2.
    + intros Hr. by destruct (H1 Hr) as [-> ->].
  - left. rewrite Hn in Hc by tauto. unfold told_nothing. by rewrite He, Hclosed by done.
Qed.

(** C9: one run, one outcome.  When the starter returns, either nothing was reported to
    anyone (it never got the connection, and returns an error), or one outcome was
    reported to all: the last two messages to the startd are Final with this status,
    reason and ad and then Exited, and everything before them is progress; the callback
    that writes the exit marker got the same outcome once; the shadow got job_exit with
    the same outcome at most once, and exactly once when the run returns nil; an error
    return reports JOB_NOT_STARTED with status 0. *)
Theorem run_one_outcome sels env s r :
  run (Run sels) env = (s, Ret r) →
  told_nothing (hist s) r ∨ ∃ rep, told_all (hist s) r rep.
Proof. apply run_outcome. Qed.

(** ** The connections *)

(** A connection to a shadow that the starter takes over: the one of the activation, and
    every one offered for a reconnect; [switchOf] only those it then uses. *)
Definition acquireOf (o : obs) : option sid :=
  match o with
  | Obs SyscallConn (inr s) => Some s
  | Obs (AwaitReplied ho) _ => Some (ho_stream ho)
  | _ => None
  end.
Definition switchOf (o : obs) : option sid :=
  match o with
  | Obs SyscallConn (inr s) => Some s
  | Obs (AwaitReplied ho) (Replied None) => Some (ho_stream ho)
  | _ => None
  end.
Definition closeOf (o : obs) : option sid := match o_eff o with CloseStream s => Some s | _ => None end.
Definition dialOf (o : obs) : option sid :=
  match o with Obs (DialTransfer _ _ _) (inr (hc, _)) => Some hc | _ => None end.
Definition hangupOf (o : obs) : option sid := match o_eff o with CloseClient hc => Some hc | _ => None end.

(** The stream a remote system call uses. *)
Definition syscallOf (e : eff) : option sid :=
  match e with
  | PutOp s _ | FlushOp s | RecvMessage s | RegisterStarterInfo s _ | GetSecSessionInfo s | BeginExecution s
  | RegisterJobInfo s _ | JobTermination s _ | JobExit s _ _ _ => Some s
  | _ => None
  end.

Record linked (h : list obs) (p : proto) : Prop := {
  lk_conn : ∀ s, conn p = Some s → last (omap switchOf h) = Some s;
  lk_streams : omap acquireOf h ≡ₚ omap closeOf h ++ option_list (stale p) ++ option_list (conn p);
  lk_clients : omap dialOf h ≡ₚ omap hangupOf h ++ option_list (fst <$> client p);
  lk_fresh : stg p = Fresh ∨ stg p = Activated → conn p = None
}.

(** The effects that open or close one. *)
Definition touches (e : eff) : bool :=
  match e with SyscallConn | AwaitReplied _ | CloseStream _ | DialTransfer _ _ _ | CloseClient _ => true | _ => false end.

Lemma untouched_step p o q :
  touches (o_eff o) = false → step p o q →
  conn q = conn p ∧ stale q = stale p ∧ client q = client p ∧
  (stg q = Fresh ∨ stg q = Activated → stg p = Fresh ∨ stg p = Activated).
Proof.
  destruct o as [e a]. unfold step, Proto.step. cbn [o_eff o_ans]. intros Hs Hstep.
  destruct e; try done; cbn in Hstep; destruct_and?; subst; try done.
  all: split_answer; try tauto.
  all: split_and!; try done; by intros [?|?].
Qed.

Lemma untouched_quiet o :
  touches (o_eff o) = false →
  acquireOf o = None ∧ switchOf o = None ∧ closeOf o = None ∧ dialOf o = None ∧ hangupOf o = None.
Proof. by destruct o as [[] a]. Qed.

Lemma linked_step h p o q : linked h p → step p o q → linked (h ++ [o]) q.
Proof.
  intros [H1 H2 H3 H4] Hstep. destruct (touches (o_eff o)) eqn:Ht.
  2: { destruct (untouched_quiet o Ht) as (E1 & E2 & E3 & E4 & E5).
       destruct (untouched_step p o q Ht Hstep) as (F1 & F2 & F3 & F4).
       split; [intros s| | |]; rewrite ?omap_snoc, ?E1, ?E2, ?E3, ?E4, ?E5, ?app_nil_r, ?F1, ?F2, ?F3; auto. }
  destruct o as [[] a]; try done; unfold step, Proto.step in Hstep; cbn in Hstep, a.
  - destruct Hstep as [Hst ->]. assert (conn p = None) as Hc by (apply H4; tauto).
    rewrite Hc in H2. cbn in H2.
    destruct a as [e|s]; split; rewrite ?omap_snoc; cbn; rewrite ?app_nil_r, ?Hc; try done.
    + intros s' [= ->]. by rewrite last_snoc.
    + rewrite app_nil_r in H2. by rewrite H2, app_assoc.
    + by intros [?|?].
  - destruct Hstep as (Hst & Hsl & ->). rewrite Hsl in H2. cbn in H2.
    destruct a as [[e|]|e|]; split; rewrite ?omap_snoc; cbn; rewrite ?app_nil_r; try done; try (by rewrite Hst; intros [?|?]).
    1,3,4: rewrite H2; solve_Permutation.
    + intros s' [= ->]. by rewrite last_snoc.
    + rewrite H2. solve_Permutation.
  - destruct Hstep as [(Hst & Hsl & ->)|(Hst & Hc & Hsl & _ & _ & ->)].
    + rewrite Hsl in H2. split; rewrite ?omap_snoc; cbn; rewrite ?app_nil_r; try done.
      rewrite H2. cbn. solve_Permutation.
    + rewrite Hsl, Hc in H2. split; rewrite ?omap_snoc; cbn; rewrite ?app_nil_r; try done.
      rewrite H2, Hsl. cbn. solve_Permutation.
  - destruct Hstep as (Hcl & _ & ->). rewrite Hcl in H3.
    destruct a as [e|[hc neg]]; split; rewrite ?omap_snoc; cbn; rewrite ?app_nil_r, ?Hcl; try done.
    rewrite H3. cbn. solve_Permutation.
  - destruct Hstep as ([b Hcl] & ->). rewrite Hcl in H3.
    split; rewrite ?omap_snoc; cbn; rewrite ?app_nil_r; try done.
Qed.

Lemma linked_steps h p : steps step init h p → linked h p.
Proof. apply (steps_history step linked); [intros ? ? ? ?; apply linked_step|by split]. Qed.

(** A run, up to and around one of its effects. *)
Lemma run_split sels env s o pre ob post :
  run (Run sels) env = (s, o) → hist s = pre ++ ob :: post →
  ∃ p q r, steps step init pre p ∧ step p ob q ∧ steps step q post r.
Proof.
  intros H Hh. destruct (run_protocol sels env s o H) as (r & Hsteps & _). rewrite Hh in Hsteps.
  apply steps_app_inv in Hsteps as (p & H1 & H2). inversion H2; subst. eauto 6.
Qed.

Lemma syscall_conn p o q s : step p o q → syscallOf (o_eff o) = Some s → conn p = Some s.
Proof.
  destruct o as [[] a]; try done; unfold step, Proto.step; cbn; intros; simplify_eq; destruct_and?; done.
Qed.

(** C10: every remote system call goes to the live shadow.  Whatever connection a system
    call of the run uses, it is the one the last completed handoff brought, or, before any,
    the one of the activation: after a reconnect nothing more is sent to the old shadow,
    and an abandoned handoff changes nothing. *)
Theorem syscalls_on_live_connection sels env s o pre ob post c :
  run (Run sels) env = (s, o) → hist s = pre ++ ob :: post → syscallOf (o_eff ob) = Some c →
  last (omap switchOf pre) = Some c.
Proof.
  intros H Hh Hc. destruct (run_split _ _ _ _ _ _ _ H Hh) as (p & q & r & H1 & H2 & _).
  apply (lk_conn _ _ (linked_steps _ _ H1)). by eapply syscall_conn.
Qed.

(** Every connection is closed exactly once.  When the run returns, the connections it
    took over from the startd or from a reconnecting shadow, whether the handoff
    completed or was abandoned, are the ones it closed, and the same holds for the
    connections it dialed for file transfer. *)
Theorem connections_closed_once sels env s r :
  run (Run sels) env = (s, Ret r) →
  omap acquireOf (hist s) ≡ₚ omap closeOf (hist s) ∧ omap dialOf (hist s) ≡ₚ omap hangupOf (hist s).
Proof.
  intros H. destruct (run_protocol sels env s (Ret r) H) as (p & Hsteps & (_ & Hc & Hs & Hcl & _) & _).
  destruct (linked_steps _ _ Hsteps) as [_ H2 H3 _]. rewrite Hc, Hs, Hcl in *. cbn in *. by rewrite !app_nil_r in *.
Qed.

(** ** The order *)

Definition afterBegin (st : stage) : bool := match st with Begun | Executing | Reaped => true | _ => false end.
Definition afterStart (st : stage) : bool := match st with Executing | Reaped => true | _ => false end.

Record ordered (h : list obs) (p : proto) : Prop := {
  or_begun : afterBegin (stg p) = true → ∃ s, Obs (BeginExecution s) None ∈ h;
  or_started : afterStart (stg p) = true → ∃ c pid, Obs (StartProcess c) (inr pid) ∈ h;
  or_reaped : stg p = Reaped → ∃ ps, Obs ProcessState ps ∈ h;
  or_client : ∀ hc, client p = Some (hc, true) →
    ∃ socket session cmd, Obs (DialTransfer socket session cmd) (inr (hc, Some true)) ∈ h
}.

Lemma ordered_mono h k p : ordered h p → ordered (h ++ k) p.
Proof.
  intros [H1 H2 H3 H4]. split.
  - intros (s & ?)%H1. exists s. set_solver.
  - intros (c & pid & ?)%H2. exists c, pid. set_solver.
  - intros (ps & ?)%H3. exists ps. set_solver.
  - intros hc (a & b & c & ?)%H4. exists a, b, c. set_solver.
Qed.

(** A step to a stage and client that need nothing new. *)
Lemma ordered_weaken h p q :
  ordered h p → (stg q = stg p ∨ afterBegin (stg q) = false) → (client q = client p ∨ client q = None) → ordered h q.
Proof.
  intros [H1 H2 H3 H4] Hs Hc. split.
  - intros Hq. apply H1. destruct Hs as [<-|Hn]; [done|]. congruence.
  - intros Hq. apply H2. destruct Hs as [<-|Hn]; [done|]. by destruct (stg q).
  - intros Hq. apply H3. destruct Hs as [<-|Hn]; [done|]. by rewrite Hq in Hn.
  - intros hc Hq. apply H4. destruct Hc; congruence.
Qed.

Lemma ordered_step h p o q : ordered h p → step p o q → ordered (h ++ [o]) q.
Proof.
  intros Ho Hstep. pose proof (ordered_mono h [o] p Ho) as Hm. pose proof Hm as [G1 G2 G3 G4].
  assert (o ∈ h ++ [o]) as Hin by set_solver. clear Ho.
  destruct o as [[] a]; unfold step, Proto.step in Hstep; cbn in Hstep, a.
  all: try (apply (ordered_weaken _ p); [done|clear Hm Hin; split_answer; (by left) || (by right)..]).
  - destruct Hstep as (_ & _ & _ & ->). destruct a as [e|]; [apply (ordered_weaken _ p); [done|by right|by left]|].
    split; cbn; [|done|done|done]. intros _. by exists s.
  - destruct Hstep as (_ & _ & ->). destruct a as [e|[hc neg]]; [done|]. split; cbn; [done|done|done|].
    intros hc' [= <- Hn]. exists socket, session, cmd. by destruct neg as [[]|].
  - destruct Hstep as (Hst & ->). destruct a as [e|pid]; [done|]. split; cbn; [|by exists c, pid|done|done].
    intros _. apply G1. by rewrite Hst.
  - destruct Hstep as (Hst & _ & ->). split; cbn; [| |by exists a|done].
    + intros _. apply G1. by rewrite Hst.
    + intros _. apply G2. by rewrite Hst.
Qed.

Lemma ordered_steps h p : steps step init h p → ordered h p.
Proof. apply (steps_history step ordered); [intros ? ? ? ?; apply ordered_step|by split]. Qed.

(** What may still happen once job_exit is out, and what is over once the job runs. *)
Definition afterReport (e : eff) : bool :=
  match e with
  | SendCtrl _ _ | OnFinal _ _ _ | Kill _ _ | CloseStream _ | CloseCommandServer | TransportClose => true
  | _ => false
  end.
Definition beforeJob (e : eff) : bool :=
  match e with
  | RecvFirst | SyscallConn | RegisterStarterInfo _ _ | GetSecSessionInfo _ | CreateSession _ _ _ _
  | ReceiveStream _ | BeginExecution _ => true
  | _ => false
  end.

Definition pastInput (st : stage) : bool :=
  match st with Fresh | Activated | Connected | Greeted | Registered | Secured => false | _ => true end.

Lemma late_step p o q :
  early (stg p) = false → client p = None → step p o q →
  early (stg q) = false ∧ client q = None ∧ afterReport (o_eff o) = true.
Proof.
  destruct o as [[] a]; unfold step, Proto.step; cbn; intros He Hc Hstep; split_answer; split_and!; try done;
    try (by match goal with H : stg _ = _ |- _ => rewrite H in He end);
    try (by destruct (stg p)); try congruence.
Qed.

Lemma pastInput_step p o q :
  pastInput (stg p) = true → step p o q → pastInput (stg q) = true ∧ beforeJob (o_eff o) = false.
Proof.
  destruct o as [[] a]; unfold step, Proto.step; cbn; intros He Hstep; split_answer; split_and!; try done;
    by match goal with H : stg _ = _ |- _ => rewrite H in He end.
Qed.

(** A predicate on states that every step keeps bounds the effects that follow. *)
Lemma steps_forall (I : proto → Prop) (F : obs → Prop) p h q :
  (∀ p o q, I p → step p o q → I q ∧ F o) → I p → steps step p h q → Forall F h.
Proof.
  intros HI Hp. induction 1 as [|p o q h r Ho Hs IH]; [constructor|].
  destruct (HI p o q Hp Ho) as [Hq Hf]. constructor; auto.
Qed.

End Facts.
End StarterFacts.

(** ** Witnesses: a job with file transfer, whose shadow reconnects while it runs *)

Import RefClassAd RefMessage StarterFacts.

Definition demoOpts : Starter.Options := Starter.mkOptions "slot1@h" "<h:1>#1#1#..." 0 "" "" true true "".

Definition demoJobLines : list (Z + string) :=
  [inl 0; inl 5; inr "Cmd = /bin/true"; inr "ShouldTransferFiles = YES"; inr "TransferSocket = <s:1>";
   inr "ZKM"; inr "TransferKey = k"; inr "Out = out"; inr ""; inr ""].

(** The reference library, with [Name = text] read as a string. *)
#[local] Instance litLib : ClassAdLib := {|
  ClassAd := rad; Expr := rexpr; adNew := mkRad ∅ ∅; Lit := RLit;
  adSet n v ad := rset n (RLit v) ad; adInsertExpr := rset; adLookup := rlookup;
  ParseExpr s := Some (RLit (VString s));
  ExprString e := match e with RSrc s => s | RLit (VString s) => s | _ => "" end;
  EvaluateAttrString n ad := match rlookup n ad with Some (RLit (VString s)) => Some s | _ => None end;
  EvaluateAttrInt n ad := rint (attrs ad) n;
  EvaluateAttrReal n ad := None;
  EvaluateAttrBool := rbool; SetTarget ad t := mkRad (attrs ad) (attrs t);
  adString _ := "[]"; adStringWithPrivate _ := "[]"; adParse _ := None; Quote s := s;
  GetAttributes ad := (map_to_list (attrs ad)).*1; f2i_out _ := 0
|}.

Definition demoOracle : Oracle := λ _ e,
  match e with
  | RecvFirst => FirstMsg StarterMsg.MsgActivate (lits [("SandboxDir", VString "/x/d")])
  | SyscallConn => inr 1%nat
  | NewCommandServer _ => inr "<127.0.0.1:9>"
  | CreateSession _ _ _ _ => None
  | AwaitReplied _ => Replied None
  | RecvMessage _ => demoJobLines : Message
  | GetSecSessionInfo _ => SecInfo (mkSecSessionInfo "r" "" "rk" "f" "" "fk")
  | DialTransfer _ _ _ => inr (7%nat, Some true)
  | ReceiveStream _ => ([CallFile "true" 493; CallFile "../evil" 420], None)
  | Stat _ => inr (mkFileInfo true 420 3)
  | ReadDir _ => Some [mkDirEntry "out" true (Some (3, 9)); mkDirEntry "true" true (Some (1, 1))]
  | StartProcess _ => inr 42
  | ReapAfterKill => true
  | ProcessState => Some (mkProcState (Z.shiftl 3 8) None)
  | Now => 100
  | TransportClose | OnFinal _ _ _ | CloseCommandServer | AckHandoff _ | CloseStream _ | CloseClient _
  | CloseStdio _ | Kill _ _ => tt
  | _ => None
  end.

(** Suspended, reconnected, one update, and then it exits. *)
Definition demoSels : list Starter.sel :=
  [Starter.SelCtrl (Some (StarterMsg.MsgSuspend, adNew)); Starter.SelReconnect (mkHandoff 2%nat "k2" "" "<s:2>");
   Starter.SelTick; Starter.SelWait].

Definition demoRun : St * outcome unit :=
  run (Starter.Run (λ s, s) 102 103 12 (λ l, l) false demoOpts demoSels) demoOracle.

(** It returns nil, after 56 effects. *)
Lemma demoRun_returns : demoRun = (demoRun.1, Ret None).
Proof.
  rewrite (surjective_pairing demoRun) at 1. f_equal; vm_compute; reflexivity.
Qed.

Definition demoObs (n : nat) : obs := nth n (hist demoRun.1) (Obs TransportClose tt).

Lemma demoRun_split n :
  (n < length (hist demoRun.1))%nat →
  hist demoRun.1 = take n (hist demoRun.1) ++ demoObs n :: drop (S n) (hist demoRun.1).
Proof.
  unfold demoObs. generalize (hist demoRun.1). intros l H. symmetry. apply take_drop_middle.
  pose proof (nth_lookup_or_length l n (Obs TransportClose tt)) as [?|?]; [done|lia].
Qed.

(** The reports, by status and reason. *)
Lemma run_one_outcome_witness :
  (told_nothing (hist demoRun.1) None ∨ ∃ rep, told_all demoOpts (hist demoRun.1) None rep) ∧
  (exits (hist demoRun.1)).*1 = [(768, 100)] ∧
  (ctrlMsgs (hist demoRun.1)).*1 =
    [StarterMsg.MsgHello; StarterMsg.MsgHello; StarterMsg.MsgUpdate; StarterMsg.MsgFinal; StarterMsg.MsgExited].
Proof.
  split; [|by vm_compute].
  apply (run_one_outcome 102 103 demoOpts (λ s, s) 12 (λ l, l) false demoSels demoOracle demoRun.1 None).
  exact demoRun_returns.
Defined.

(** The last system call, job_exit, goes to the shadow that reconnected. *)
Lemma syscalls_on_live_connection_witness :
  syscallOf (o_eff (demoObs 48)) = Some 2%nat ∧ last (omap switchOf (take 48 (hist demoRun.1))) = Some 2%nat.
Proof.
  split; [by vm_compute|].
  apply (syscalls_on_live_connection 102 103 demoOpts (λ s, s) 12 (λ l, l) false demoSels demoOracle demoRun.1 (Ret None)
           (take 48 (hist demoRun.1)) (demoObs 48) (drop 49 (hist demoRun.1)) 2%nat).
  - exact demoRun_returns.
  - apply demoRun_split. vm_compute. lia.
  - by vm_compute.
Defined.

(** Two connections to shadows, and two for file transfer. *)
Lemma connections_closed_once_witness :
  (omap acquireOf (hist demoRun.1) ≡ₚ omap closeOf (hist demoRun.1) ∧
   omap dialOf (hist demoRun.1) ≡ₚ omap hangupOf (hist demoRun.1)) ∧
  omap closeOf (hist demoRun.1) = [1; 2]%nat ∧ omap hangupOf (hist demoRun.1) = [7; 7]%nat.
Proof.
  split; [|by vm_compute].
  apply (connections_closed_once 102 103 demoOpts (λ s, s) 12 (λ l, l) false demoSels demoOracle demoRun.1 None).
  exact demoRun_returns.
Defined.

Definition isStart (e : eff) : bool := match e with StartProcess _ => true | _ => false end.

