(* ===== verification/Registry.v ===== *)
(** * The slot registry: an abstract machine and its invariant

    The identity and the resources of the slots, the live lists and the name
    index change in two ways only: a p-slot carves a dynamic slot, and a dynamic
    slot is destroyed.  [Reg] is that part of the core's state, [reg_carve] and
    [reg_destroy] are the two transitions, and [RegInv] is the invariant: the
    name index is exact, names are unique, and what a p-slot has left plus what
    its dynamic slots hold is what it was configured with. *)

From S2P Require Import Prelude GoLang ClassAd Claim Slot SlotFacts.
From Stdlib Require Import Ascii.

Local Open Scope Z_scope.

(** What never changes on a slot once it exists, and its resources. *)
Record shape := mkShape {
  sh_name : string;
  sh_id : Z;
  sh_machine : string;
  sh_type : string;
  sh_parent : string;
  sh_sub : Z;
  sh_res : Slot.Resources;
  sh_full : Slot.Resources
}.

Record Reg := mkReg {
  r_heap : gmap loc shape;
  r_next : loc;
  r_slots : list loc;
  r_dslots : list loc;
  r_byName : gmap string loc;
  r_seq : Z
}.

Definition r_live (r : Reg) : list loc := r_slots r ++ r_dslots r.

Definition set_res (x : Slot.Resources) (sh : shape) : shape :=
  mkShape (sh_name sh) (sh_id sh) (sh_machine sh) (sh_type sh) (sh_parent sh) (sh_sub sh) x (sh_full sh).

Definition res_sub (a b : Slot.Resources) : Slot.Resources :=
  Slot.mkRes (wrap64 (Slot.Cpus a - Slot.Cpus b)) (wrap64 (Slot.MemoryMB a - Slot.MemoryMB b))
    (wrap64 (Slot.DiskKB a - Slot.DiskKB b)).

(** [Restore]: add, clamped to the full allocation. *)
Definition res_restore (full a b : Slot.Resources) : Slot.Resources :=
  let clamp (f x : Z) := if f <? x then f else x in
  Slot.mkRes (clamp (Slot.Cpus full) (wrap64 (Slot.Cpus a + Slot.Cpus b)))
    (clamp (Slot.MemoryMB full) (wrap64 (Slot.MemoryMB a + Slot.MemoryMB b)))
    (clamp (Slot.DiskKB full) (wrap64 (Slot.DiskKB a + Slot.DiskKB b))).

Definition child_shape (p : shape) (sub : Z) (req : Slot.Resources) : shape :=
  mkShape (Slot.dynamicName (sh_id p) sub (sh_machine p)) (sh_id p) (sh_machine p)
    Slot.SlotTypeDynamic (sh_name p) sub req req.

(** Carve [req] out of [l] as dynamic slot number [sub]; [seq] is the counter
    afterwards. *)
Definition reg_carve (l : loc) (p : shape) (sub seq : Z) (req : Slot.Resources) (r : Reg) : Reg :=
  let d := child_shape p sub req in
  mkReg (<[r_next r := d]> (<[l := set_res (res_sub (sh_res p) req) p]> (r_heap r)))
    (S (r_next r)) (r_slots r) (r_dslots r ++ [r_next r])
    (<[sh_name d := r_next r]> (r_byName r)) seq.

Definition reg_nameIs (name : string) (r : Reg) (l : loc) : bool :=
  match r_heap r !! l with Some sh => bool_decide (sh_name sh = name) | None => false end.

(** Drop dynamic slot [d] and return its resources to its parent. *)
Definition reg_destroy (d : shape) (r : Reg) : Reg :=
  let bn := delete (sh_name d) (r_byName r) in
  let give sh := set_res (res_restore (sh_full sh) (sh_res sh) (sh_res d)) sh in
  mkReg (match bn !! sh_parent d with Some p => alter give p (r_heap r) | None => r_heap r end)
    (r_next r) (r_slots r) (remove_first (reg_nameIs (sh_name d) r) (r_dslots r)) bn (r_seq r).

(** ** The invariant *)

(** The resources held by the dynamic slots of the p-slot named [p]. *)
Definition kid_amount (f : Slot.Resources → Z) (p : string) (h : gmap loc shape) (l : loc) : Z :=
  match h !! l with Some sh => if bool_decide (sh_parent sh = p) then f (sh_res sh) else 0 | None => 0 end.

Definition kids (p : string) (r : Reg) : Slot.Resources :=
  Slot.mkRes (sumZ (kid_amount Slot.Cpus p (r_heap r)) (r_dslots r))
    (sumZ (kid_amount Slot.MemoryMB p (r_heap r)) (r_dslots r))
    (sumZ (kid_amount Slot.DiskKB p (r_heap r)) (r_dslots r)).

(** A configured slot: its name, and for a p-slot the conservation of resources. *)
Definition slot_ok (machine : string) (r : Reg) (sh : shape) : Prop :=
  sh_name sh = Slot.staticName (sh_id sh) machine ∧ sh_machine sh = machine ∧
  sh_type sh ≠ Slot.SlotTypeDynamic ∧ res_ok (sh_full sh) ∧
  (sh_type sh = Slot.SlotTypePartitionable →
     res_ok (sh_res sh) ∧ res_add (sh_res sh) (kids (sh_name sh) r) = sh_full sh) ∧
  (sh_type sh ≠ Slot.SlotTypePartitionable → sh_res sh = sh_full sh).

Definition dslot_ok (machine : string) (r : Reg) (sh : shape) : Prop :=
  sh_name sh = Slot.dynamicName (sh_id sh) (sh_sub sh) machine ∧ sh_machine sh = machine ∧
  sh_type sh = Slot.SlotTypeDynamic ∧ sh_sub sh ≤ r_seq r ∧ res_ok (sh_res sh) ∧
  ∃ p psh, p ∈ r_slots r ∧ r_heap r !! p = Some psh ∧
    sh_type psh = Slot.SlotTypePartitionable ∧ sh_name psh = sh_parent sh.

Record RegInv (machine : string) (r : Reg) : Prop := mkRegInv {
  ri_nodup : NoDup (r_live r);
  ri_alloc : ∀ l : loc, l ∈ r_live r → (l < r_next r)%nat ∧ is_Some (r_heap r !! l);
  ri_byName : ∀ n (l : loc), r_byName r !! n = Some l ↔
                l ∈ r_live r ∧ ∃ sh, r_heap r !! l = Some sh ∧ sh_name sh = n;
  ri_slots : ∀ (l : loc) sh, l ∈ r_slots r → r_heap r !! l = Some sh → slot_ok machine r sh;
  ri_dslots : ∀ (l : loc) sh, l ∈ r_dslots r → r_heap r !! l = Some sh → dslot_ok machine r sh
}.

Lemma res_add_move a b k f q :
  res_add a k = f → res_add b q = a → res_add b (res_add k q) = f.
Proof. intros <- <-. apply Resources_ext; simpl; lia. Qed.

(** Giving back what was taken hits no clamp. *)
Lemma res_restore_exact full a k b :
  res_ok a → res_ok b → res_ok full →
  0 ≤ Slot.Cpus k ∧ 0 ≤ Slot.MemoryMB k ∧ 0 ≤ Slot.DiskKB k →
  res_add a (res_add k b) = full → res_restore full a b = res_add a b.
Proof.
  intros Ha Hb Hf Hk <-. unfold res_restore.
  rewrite !wrap64_id by res_solve. rewrite !(proj2 (Z.ltb_ge _ _)) by res_solve. done.
Qed.

(** ** Names *)

Lemma dynamicName_inj2 a b i j m :
  Slot.dynamicName a i m = Slot.dynamicName b j m → a = b ∧ i = j.
Proof.
  unfold Slot.dynamicName. intros H. apply append_cancel_l in H.
  rewrite <-!append_assoc in H. apply append_cancel_r, append_cancel_r in H.
  rewrite !append_assoc in H.
  assert (∀ z, ¬ contains "_"%char (show z)) as Hz.
  { intros z Hc%show_num. by vm_compute in Hc. }
  pose proof (Cut_app (show a) (show i) "_"%char (Hz a)) as Ha.
  pose proof (Cut_app (show b) (show j) "_"%char (Hz b)) as Hb.
  change (Cut (show a +:+ "_" +:+ show i) "_" = Some (show a, show i)) in Ha.
  change (Cut (show b +:+ "_" +:+ show j) "_" = Some (show b, show j)) in Hb.
  rewrite H in Ha. rewrite Ha in Hb. injection Hb as H1 H2. split; by apply show_inj.
Qed.

Section Inv.
Context (machine : string).
Implicit Types (r : Reg) (l : loc).

(** Live slots with the same name are the same slot. *)
Lemma live_name_inj r l k sh sh' :
  RegInv machine r → l ∈ r_live r → k ∈ r_live r →
  r_heap r !! l = Some sh → r_heap r !! k = Some sh' → sh_name sh = sh_name sh' → l = k.
Proof.
  intros HI Hl Hk H1 H2 Hn.
  assert (r_byName r !! sh_name sh = Some l) as Ha by (apply (ri_byName _ _ HI); eauto).
  assert (r_byName r !! sh_name sh = Some k) as Hb by (apply (ri_byName _ _ HI); eauto).
  congruence.
Qed.

Lemma slots_dslots_disjoint r l : RegInv machine r → l ∈ r_slots r → l ∈ r_dslots r → False.
Proof. intros HI. pose proof (ri_nodup _ _ HI) as H. apply NoDup_app in H as (_ & H & _). apply H. Qed.

(** Every amount a dynamic slot holds is non-negative. *)
Lemma kids_nonneg r p :
  RegInv machine r →
  0 ≤ Slot.Cpus (kids p r) ∧ 0 ≤ Slot.MemoryMB (kids p r) ∧ 0 ≤ Slot.DiskKB (kids p r).
Proof.
  intros HI. unfold kids. simpl.
  split_and!; apply sumZ_nonneg; intros l Hl; unfold kid_amount;
    destruct (r_heap r !! l) as [sh|] eqn:E; try done; case_bool_decide; try done;
    destruct (ri_dslots _ _ HI l sh Hl E) as (_ & _ & _ & _ & Hok & _); res_solve.
Qed.

(** The kids of a registry only depend on parent and resources of its dslots. *)
Lemma kids_ext p r r' :
  r_dslots r' = r_dslots r →
  (∀ l, l ∈ r_dslots r → r_heap r' !! l = r_heap r !! l) → kids p r' = kids p r.
Proof.
  intros Hd Hh. unfold kids. rewrite Hd.
  f_equal; apply sumZ_ext; intros l Hl; unfold kid_amount; by rewrite Hh.
Qed.

(** ** Carving *)

Section Carve.
Context (r : Reg) (l : loc) (p : shape) (sub seq : Z) (req : Slot.Resources).
Hypothesis HI : RegInv machine r.
Hypothesis Hl : l ∈ r_slots r.
Hypothesis Hp : r_heap r !! l = Some p.
Hypothesis Htype : sh_type p = Slot.SlotTypePartitionable.
Hypothesis Hreq : res_ok req.
Hypothesis Hfits : res_le req (sh_res p).
Hypothesis Hseq : r_seq r ≤ seq ∧ sub ≤ seq.
Hypothesis Hfresh : r_byName r !! Slot.dynamicName (sh_id p) sub (sh_machine p) = None.

Local Abbreviation r' := (reg_carve l p sub seq req r).

Lemma carve_p_ok : slot_ok machine r p.
Proof. by apply (ri_slots _ _ HI l). Qed.

Lemma next_fresh k : k ∈ r_live r → k ≠ r_next r.
Proof. intros Hk ->. pose proof (ri_alloc _ _ HI _ Hk). lia. Qed.

Lemma l_live : l ∈ r_live r.
Proof. apply elem_of_app. by left. Qed.

Lemma carve_heap_other k : k ∈ r_live r → k ≠ l → r_heap r' !! k = r_heap r !! k.
Proof.
  intros Hk Hne. simpl. rewrite !lookup_insert_ne; [done|done|].
  intros Heq. by apply (next_fresh k).
Qed.

Lemma carve_heap_l : r_heap r' !! l = Some (set_res (res_sub (sh_res p) req) p).
Proof.
  simpl. rewrite lookup_insert_ne by (intros Heq; by apply (next_fresh l l_live)).
  by rewrite lookup_insert_eq.
Qed.

Lemma carve_heap_new : r_heap r' !! r_next r = Some (child_shape p sub req).
Proof. simpl. by rewrite lookup_insert_eq. Qed.

Lemma carve_res_sub :
  res_ok (res_sub (sh_res p) req) ∧ res_add (res_sub (sh_res p) req) req = sh_res p.
Proof.
  destruct carve_p_ok as (_ & _ & _ & Hf & Hc & _). destruct (Hc Htype) as [Hok _].
  unfold res_sub. rewrite !wrap64_id by res_solve.
  split; [res_solve|apply Resources_ext; simpl; lia].
Qed.

Lemma carve_kids name :
  kids name r' =
    if bool_decide (sh_name p = name) then res_add (kids name r) req else kids name r.
Proof.
  assert (∀ f : Slot.Resources → Z,
    sumZ (kid_amount f name (r_heap r')) (r_dslots r')
    = sumZ (kid_amount f name (r_heap r)) (r_dslots r)
      + if bool_decide (sh_name p = name) then f req else 0) as H.
  { intros f. change (r_dslots r') with (r_dslots r ++ [r_next r]). rewrite sumZ_app. f_equal.
    - apply sumZ_ext. intros k Hk. unfold kid_amount.
      rewrite carve_heap_other; [done|apply elem_of_app; by right|].
      intros ->. by eapply slots_dslots_disjoint.
    - cbn [sumZ foldr]. unfold kid_amount. rewrite carve_heap_new. simpl. lia. }
  unfold kids. rewrite !H. case_bool_decide; [done|].
  by rewrite !Z.add_0_r.
Qed.

Lemma carve_slot_other sh : sh_name sh ≠ sh_name p → slot_ok machine r sh → slot_ok machine r' sh.
Proof.
  intros Hne (H1 & H2 & H3 & H4 & H5 & H6). unfold slot_ok. split_and!; [done..| |done].
  intros Ht. destruct (H5 Ht) as [H7 H8]. split; [done|].
  rewrite carve_kids. by rewrite bool_decide_false.
Qed.

Lemma carve_slot_l : slot_ok machine r' (set_res (res_sub (sh_res p) req) p).
Proof.
  destruct carve_p_ok as (H1 & H2 & H3 & H4 & H5 & H6). destruct (H5 Htype) as [H7 H8].
  destruct carve_res_sub as [H9 H10].
  unfold slot_ok. split_and!; [done..| |done]. intros _. split; [done|].
  cbn [set_res sh_res sh_name sh_full]. rewrite carve_kids, bool_decide_true by done.
  by apply (res_add_move (sh_res p)).
Qed.

Lemma carve_dslot sh : dslot_ok machine r sh → dslot_ok machine r' sh.
Proof.
  intros (H1 & H2 & H3 & H4 & H5 & q & qsh & Hq & Hqs & Hqt & Hqn).
  split_and!; try done; [simpl; lia|].
  exists q. destruct (decide (q = l)) as [->|Hne].
  - eexists. split_and!; [done|apply carve_heap_l|done|]. simpl. congruence.
  - exists qsh. split_and!; [done| |done..]. rewrite carve_heap_other; [done| |done].
    apply elem_of_app. by left.
Qed.

Lemma carve_new_ok : dslot_ok machine r' (child_shape p sub req).
Proof.
  destruct carve_p_ok as (H1 & H2 & _). split_and!; simpl; try done; try lia; [by rewrite H2|].
  exists l. eexists. split_and!; [done|apply carve_heap_l|done..].
Qed.

Lemma carve_live k : k ∈ r_live r' ↔ k ∈ r_live r ∨ k = r_next r.
Proof. unfold r_live. simpl. rewrite !elem_of_app, list_elem_of_singleton. tauto. Qed.

(** The names of the slots that were there are what they were. *)
Lemma carve_name_other k n :
  k ∈ r_live r →
  (∃ sh, r_heap r' !! k = Some sh ∧ sh_name sh = n) ↔ (∃ sh, r_heap r !! k = Some sh ∧ sh_name sh = n).
Proof.
  intros Hk. destruct (decide (k = l)) as [->|Hne]; [|by rewrite carve_heap_other].
  rewrite carve_heap_l, Hp. split; intros (sh & ? & <-); simplify_eq; eauto.
Qed.

Lemma carve_byName n k :
  r_byName r' !! n = Some k ↔ k ∈ r_live r' ∧ ∃ sh, r_heap r' !! k = Some sh ∧ sh_name sh = n.
Proof.
  rewrite carve_live.
  change (r_byName r') with (<[sh_name (child_shape p sub req) := r_next r]> (r_byName r)).
  rewrite lookup_insert. case_decide as Hn; cbn [child_shape sh_name] in Hn.
  - split.
    + intros [= <-]. split; [by right|]. eexists. split; [apply carve_heap_new|done].
    + intros [[Hk| ->] Hsh]; [|done]. exfalso. apply (carve_name_other k n Hk) in Hsh.
      assert (r_byName r !! n = Some k) as Hb by (by apply (ri_byName _ _ HI)). congruence.
  - rewrite (ri_byName _ _ HI). split.
    + intros [Hk Hsh]. split; [by left|]. by apply carve_name_other.
    + intros [[Hk| ->] Hsh]; [split; [done|by apply carve_name_other in Hsh]|].
      destruct Hsh as (sh & Hsh & Hname). rewrite carve_heap_new in Hsh. by simplify_eq.
Qed.

Lemma reg_carve_inv : RegInv machine r'.
Proof.
  split.
  - unfold r_live. simpl. rewrite app_assoc. apply NoDup_app. split_and!.
    + apply (ri_nodup _ _ HI).
    + intros k Hk Hk'%list_elem_of_singleton. by apply (next_fresh k).
    + apply NoDup_singleton.
  - intros k [Hk| ->]%carve_live.
    + destruct (ri_alloc _ _ HI k Hk) as [H1 H2]. split; [simpl; lia|].
      destruct (decide (k = l)) as [->|Hne]; [rewrite carve_heap_l; eauto|].
      by rewrite carve_heap_other.
    + split; [simpl; lia|]. rewrite carve_heap_new. eauto.
  - apply carve_byName.
  - intros k sh Hk Hsh. change (k ∈ r_slots r) in Hk.
    destruct (decide (k = l)) as [->|Hne].
    + rewrite carve_heap_l in Hsh. simplify_eq. apply carve_slot_l.
    + assert (k ∈ r_live r) as Hkl by (apply elem_of_app; by left).
      rewrite carve_heap_other in Hsh by done. apply carve_slot_other; [|by apply (ri_slots _ _ HI k)].
      intros Heq. apply Hne. apply (live_name_inj r k l sh p); auto using l_live.
  - intros k sh Hk Hsh. change (k ∈ r_dslots r ++ [r_next r]) in Hk.
    apply elem_of_app in Hk as [Hk|Hk%list_elem_of_singleton].
    + rewrite carve_heap_other in Hsh.
      * apply carve_dslot. by apply (ri_dslots _ _ HI k).
      * apply elem_of_app. by right.
      * intros ->. by eapply slots_dslots_disjoint.
    + subst. rewrite carve_heap_new in Hsh. simplify_eq. apply carve_new_ok.
Qed.
End Carve.

(** ** Destroying *)

Section Destroy.
Context (r : Reg) (l : loc) (d : shape).
Hypothesis HI : RegInv machine r.
Hypothesis Hl : l ∈ r_dslots r.
Hypothesis Hd : r_heap r !! l = Some d.

Local Abbreviation r' := (reg_destroy d r).

Lemma destroy_d_ok : dslot_ok machine r d.
Proof. by apply (ri_dslots _ _ HI l). Qed.

Lemma dslot_live : l ∈ r_live r.
Proof. apply elem_of_app. by right. Qed.

(** The parent, through the name index. *)
Lemma destroy_parent :
  ∃ p psh, p ∈ r_slots r ∧ p ≠ l ∧ r_heap r !! p = Some psh ∧
    sh_type psh = Slot.SlotTypePartitionable ∧ sh_name psh = sh_parent d ∧
    delete (sh_name d) (r_byName r) !! sh_parent d = Some p.
Proof.
  destruct destroy_d_ok as (_ & _ & _ & _ & _ & p & psh & Hp & Hps & Ht & Hn).
  assert (p ∈ r_live r) as Hpl by (apply elem_of_app; by left).
  assert (p ≠ l) as Hne by (intros ->; by eapply slots_dslots_disjoint).
  exists p, psh. split_and!; [done..|]. rewrite lookup_delete_ne.
  - apply (ri_byName _ _ HI). eauto.
  - intros Heq. apply Hne. apply (live_name_inj r p l psh d); auto using dslot_live. congruence.
Qed.

Lemma destroy_nameIs k : k ∈ r_dslots r → reg_nameIs (sh_name d) r k = true → k = l.
Proof.
  unfold reg_nameIs. intros Hk H. destruct (r_heap r !! k) as [sh|] eqn:E; [|done].
  apply bool_decide_eq_true in H. apply (live_name_inj r k l sh d); auto using dslot_live.
  apply elem_of_app. by right.
Qed.

Lemma destroy_nameIs_l : reg_nameIs (sh_name d) r l = true.
Proof. unfold reg_nameIs. rewrite Hd. by apply bool_decide_eq_true. Qed.

Lemma dslots_NoDup : NoDup (r_dslots r).
Proof. pose proof (ri_nodup _ _ HI) as H. by apply NoDup_app in H as (_ & _ & H). Qed.

Lemma destroy_dslots k : k ∈ r_dslots r' ↔ k ∈ r_dslots r ∧ k ≠ l.
Proof.
  simpl. apply remove_first_elem_iff; auto using dslots_NoDup, destroy_nameIs_l, destroy_nameIs.
Qed.

Lemma destroy_live k : k ∈ r_live r' ↔ k ∈ r_live r ∧ k ≠ l.
Proof.
  unfold r_live. rewrite !elem_of_app, destroy_dslots. change (r_slots r') with (r_slots r).
  split; [|tauto]. intros [Hk|[Hk Hne]]; split; auto. intros ->. by eapply slots_dslots_disjoint.
Qed.

(** The heap afterwards, given the parent. *)
Lemma destroy_heap p :
  delete (sh_name d) (r_byName r) !! sh_parent d = Some p →
  ∀ k, r_heap r' !! k =
    if bool_decide (k = p)
    then (λ sh, set_res (res_restore (sh_full sh) (sh_res sh) (sh_res d)) sh) <$> r_heap r !! k
    else r_heap r !! k.
Proof.
  intros Hp k. unfold reg_destroy. cbn [r_heap]. rewrite Hp, lookup_alter.
  case_decide; case_bool_decide; subst; done.
Qed.

Lemma destroy_kids_sum p (f : Slot.Resources → Z) name :
  p ∈ r_slots r → delete (sh_name d) (r_byName r) !! sh_parent d = Some p →
  sumZ (kid_amount f name (r_heap r')) (r_dslots r')
  = sumZ (kid_amount f name (r_heap r)) (r_dslots r)
    - if bool_decide (sh_parent d = name) then f (sh_res d) else 0.
Proof.
  intros Hps Hp. transitivity (sumZ (kid_amount f name (r_heap r)) (r_dslots r')).
  - apply sumZ_ext. intros k [Hk _]%destroy_dslots. unfold kid_amount.
    rewrite (destroy_heap p Hp), bool_decide_false; [done|].
    intros ->. by eapply slots_dslots_disjoint.
  - cbn [reg_destroy r_dslots]. rewrite (sumZ_remove_first _ _ _ l);
      auto using destroy_nameIs, destroy_nameIs_l.
    unfold kid_amount at 2. by rewrite Hd.
Qed.

Lemma destroy_kids p name :
  p ∈ r_slots r → delete (sh_name d) (r_byName r) !! sh_parent d = Some p →
  res_add (kids name r') (if bool_decide (sh_parent d = name) then sh_res d else res_zero) = kids name r.
Proof.
  intros Hps Hp. unfold kids. rewrite !(destroy_kids_sum p) by done.
  apply Resources_ext; simpl; case_bool_decide; simpl; lia.
Qed.

(** What is left with the siblings is not negative. *)
Lemma destroy_kids_nonneg p name :
  p ∈ r_slots r → delete (sh_name d) (r_byName r) !! sh_parent d = Some p →
  0 ≤ Slot.Cpus (kids name r') ∧ 0 ≤ Slot.MemoryMB (kids name r') ∧ 0 ≤ Slot.DiskKB (kids name r').
Proof.
  intros Hps Hp. unfold kids. cbn [Slot.Cpus Slot.MemoryMB Slot.DiskKB].
  split_and!; apply sumZ_nonneg; intros k [Hk Hne]%destroy_dslots; unfold kid_amount;
    rewrite (destroy_heap p Hp), bool_decide_false
      by (intros ->; by eapply slots_dslots_disjoint);
    destruct (r_heap r !! k) as [sh|] eqn:E; try done; case_bool_decide; try done;
    destruct (ri_dslots _ _ HI k sh Hk E) as (_ & _ & _ & _ & Hok & _); res_solve.
Qed.

Lemma destroy_parent_ok p psh :
  p ∈ r_slots r → delete (sh_name d) (r_byName r) !! sh_parent d = Some p →
  sh_name psh = sh_parent d → sh_type psh = Slot.SlotTypePartitionable → slot_ok machine r psh →
  slot_ok machine r' (set_res (res_restore (sh_full psh) (sh_res psh) (sh_res d)) psh).
Proof.
  intros Hps Hp Hn Ht (H1 & H2 & H3 & H4 & H5 & H6). destruct (H5 Ht) as [H7 H8].
  pose proof (destroy_kids p (sh_name psh) Hps Hp) as Hk.
  rewrite bool_decide_true in Hk by done.
  pose proof (destroy_kids_nonneg p (sh_name psh) Hps Hp) as Hnn.
  destruct destroy_d_ok as (_ & _ & _ & _ & Hdok & _).
  assert (res_restore (sh_full psh) (sh_res psh) (sh_res d) = res_add (sh_res psh) (sh_res d)) as Hr.
  { apply (res_restore_exact _ _ (kids (sh_name psh) r')); [done..|]. by rewrite Hk. }
  unfold slot_ok. split_and!; [done..| |done]. intros _.
  cbn [set_res sh_res sh_name sh_full]. rewrite Hr.
  assert (res_add (res_add (sh_res psh) (sh_res d)) (kids (sh_name psh) r') = sh_full psh) as Hsum.
  { rewrite <-H8, <-Hk. apply Resources_ext; simpl; lia. }
  split; [|done]. rewrite <-Hsum in H4. clear -H4 H7 Hdok Hnn.
  revert H4 Hnn. generalize (kids (sh_name psh) r') as k. intros k H4 Hnn. res_solve.
Qed.

Lemma destroy_slot_other p sh :
  p ∈ r_slots r → delete (sh_name d) (r_byName r) !! sh_parent d = Some p →
  sh_name sh ≠ sh_parent d → slot_ok machine r sh → slot_ok machine r' sh.
Proof.
  intros Hps Hp Hn (H1 & H2 & H3 & H4 & H5 & H6). unfold slot_ok. split_and!; [done..| |done].
  intros Ht. destruct (H5 Ht) as [H7 H8]. split; [done|]. rewrite <-H8. f_equal.
  rewrite <-(destroy_kids p _ Hps Hp), bool_decide_false by congruence.
  apply Resources_ext; simpl; lia.
Qed.

Lemma destroy_name p k n :
  delete (sh_name d) (r_byName r) !! sh_parent d = Some p →
  (∃ sh, r_heap r' !! k = Some sh ∧ sh_name sh = n) ↔ (∃ sh, r_heap r !! k = Some sh ∧ sh_name sh = n).
Proof.
  intros Hp. rewrite (destroy_heap p Hp). case_bool_decide; [|done].
  destruct (r_heap r !! k) as [sh|]; simpl; [|done].
  split; intros (x & ? & <-); simplify_eq; eauto.
Qed.

Lemma reg_destroy_inv : RegInv machine r'.
Proof.
  destruct destroy_parent as (p & psh & Hps & Hpl & Hph & Hpt & Hpn & Hp). split.
  - unfold r_live. cbn [reg_destroy r_slots r_dslots].
    pose proof (ri_nodup _ _ HI) as H. apply NoDup_app in H as (H1 & H2 & H3).
    apply NoDup_app. split_and!; [done| |by apply remove_first_NoDup].
    intros k Hk Hk'. apply (H2 k Hk). by apply remove_first_elem in Hk'.
  - intros k [Hk Hne]%destroy_live. destruct (ri_alloc _ _ HI k Hk) as [Hlt Hsome].
    split; [done|]. rewrite (destroy_heap p Hp). case_bool_decide; [|done]. by apply fmap_is_Some.
  - intros n k. rewrite destroy_live, (destroy_name p) by done.
    change (r_byName r') with (delete (sh_name d) (r_byName r)).
    rewrite lookup_delete. case_decide as Hn.
    + split; [done|]. intros [[Hk Hne] (sh & Hsh & Hname)]. exfalso. apply Hne.
      apply (live_name_inj r k l sh d); auto using dslot_live. congruence.
    + rewrite (ri_byName _ _ HI). split; [|tauto]. intros [Hk (sh & Hsh & Hname)].
      split_and!; [done| |eauto]. intros ->. simplify_eq.
  - intros k sh Hk Hsh. change (k ∈ r_slots r) in Hk. rewrite (destroy_heap p Hp) in Hsh.
    case_bool_decide as Hkp.
    + subst k. rewrite Hph in Hsh. simpl in Hsh. simplify_eq.
      apply (destroy_parent_ok p); auto. by apply (ri_slots _ _ HI p).
    + apply (destroy_slot_other p); [done|done| |by apply (ri_slots _ _ HI k)].
      intros Hn. apply Hkp. apply (live_name_inj r k p sh psh); auto; [..|congruence];
        apply elem_of_app; by left.
  - intros k sh [Hk Hne]%destroy_dslots Hsh. rewrite (destroy_heap p Hp) in Hsh.
    case_bool_decide as Hkp; [subst; exfalso; by eapply slots_dslots_disjoint|].
    destruct (ri_dslots _ _ HI k sh Hk Hsh) as (H1 & H2 & H3 & H4 & H5 & q & qsh & Hq & Hqs & Hqt & Hqn).
    split_and!; try done. exists q. rewrite (destroy_heap p Hp).
    case_bool_decide; [subst q; rewrite Hqs|]; eexists; split_and!; try done.
Qed.
End Destroy.

(** ** The live slots share out a fixed amount *)

Definition amount (f : Slot.Resources → Z) (h : gmap loc shape) (l : loc) : Z :=
  match h !! l with Some sh => f (sh_res sh) | None => 0 end.

Lemma amount_at f h l sh : h !! l = Some sh → amount f h l = f (sh_res sh).
Proof. intros H. unfold amount. by rewrite H. Qed.

Definition live_sum (r : Reg) : Slot.Resources :=
  Slot.mkRes (sumZ (amount Slot.Cpus (r_heap r)) (r_live r))
    (sumZ (amount Slot.MemoryMB (r_heap r)) (r_live r))
    (sumZ (amount Slot.DiskKB (r_heap r)) (r_live r)).

(** A component of the resource vector. *)
Definition component (f : Slot.Resources → Z) : Prop :=
  f = Slot.Cpus ∨ f = Slot.MemoryMB ∨ f = Slot.DiskKB.

Lemma component_add f a b : component f → f (res_add a b) = f a + f b.
Proof. by intros [->|[->| ->]]. Qed.

Lemma live_sum_ext r r' :
  (∀ f, component f → sumZ (amount f (r_heap r')) (r_live r') = sumZ (amount f (r_heap r)) (r_live r)) →
  live_sum r' = live_sum r.
Proof. intros H. unfold live_sum. f_equal; apply H; unfold component; auto. Qed.

Lemma carve_live_sum r l p sub seq req :
  RegInv machine r → l ∈ r_slots r → r_heap r !! l = Some p →
  sh_type p = Slot.SlotTypePartitionable → res_ok req → res_le req (sh_res p) →
  live_sum (reg_carve l p sub seq req r) = live_sum r.
Proof.
  intros HI Hl Hp Ht Hok Hle. apply live_sum_ext. intros f Hf.
  assert (l ∈ r_live r) as Hlive by (apply elem_of_app; by left).
  unfold r_live at 1. cbn [reg_carve r_slots r_dslots]. rewrite app_assoc, sumZ_app.
  fold (r_live r).
  rewrite (sumZ_update (amount f (r_heap r)) _ (r_live r) l); [|apply (ri_nodup _ _ HI)|done|].
  2: { intros k Hk Hne. unfold amount. by rewrite carve_heap_other by done. }
  cbn [sumZ foldr].
  rewrite (amount_at f _ _ _ (carve_heap_l r l p sub seq req HI Hl)),
    (amount_at f _ _ _ (carve_heap_new r l p sub seq req)), (amount_at f _ _ _ Hp).
  cbn [set_res child_shape sh_res].
  destruct (carve_res_sub r l p req HI Hl Hp Ht Hok Hle) as [_ Hadd].
  apply (f_equal f) in Hadd. rewrite component_add in Hadd by done. lia.
Qed.

Lemma destroy_live_sum r l d :
  RegInv machine r → l ∈ r_dslots r → r_heap r !! l = Some d →
  live_sum (reg_destroy d r) = live_sum r.
Proof.
  intros HI Hl Hd. apply live_sum_ext. intros f Hf.
  destruct (destroy_parent r l d HI Hl Hd) as (p & psh & Hps & Hpl & Hph & Hpt & Hpn & Hp).
  pose proof (ri_slots _ _ HI p psh Hps Hph) as Hpok.
  destruct (ri_dslots _ _ HI l d Hl Hd) as (_ & _ & _ & _ & Hdok & _).
  destruct Hpok as (_ & _ & _ & Hfok & Hcons & _). destruct (Hcons Hpt) as [Hrok Hsum].
  pose proof (destroy_kids r l d HI Hl Hd p (sh_name psh) Hps Hp) as Hk.
  rewrite bool_decide_true in Hk by done.
  pose proof (destroy_kids_nonneg r l d HI Hl Hd p (sh_name psh) Hps Hp) as Hnn.
  assert (res_restore (sh_full psh) (sh_res psh) (sh_res d) = res_add (sh_res psh) (sh_res d)) as Hr.
  { apply (res_restore_exact _ _ (kids (sh_name psh) (reg_destroy d r))); [done..|]. by rewrite Hk. }
  pose proof (ri_nodup _ _ HI) as Hnd. apply NoDup_app in Hnd as (Hnd & _ & _).
  unfold r_live. rewrite !sumZ_app. cbn [reg_destroy r_slots].
  rewrite (sumZ_update (amount f (r_heap r)) _ (r_slots r) p); [|done|done|].
  2: { intros k Hk' Hne. unfold amount. by rewrite (destroy_heap _ _ _ Hp), bool_decide_false. }
  rewrite (sumZ_ext (amount f (r_heap (reg_destroy d r))) (amount f (r_heap r)) (r_dslots (reg_destroy d r))).
  2: { intros k [Hk' _]%(destroy_dslots r l d HI Hl Hd). unfold amount.
       rewrite (destroy_heap _ _ _ Hp), bool_decide_false; [done|].
       intros ->. by eapply slots_dslots_disjoint. }
  cbn [reg_destroy r_dslots]. rewrite (sumZ_remove_first _ _ _ l); [|done|by apply destroy_nameIs_l|].
  2: { intros k Hk'. by apply (destroy_nameIs r l d HI Hl Hd). }
  rewrite (amount_at f _ _ _ Hph), (amount_at f _ _ _ Hd).
  rewrite (amount_at f _ p (set_res (res_restore (sh_full psh) (sh_res psh) (sh_res d)) psh)).
  2: { by rewrite (destroy_heap _ _ _ Hp), bool_decide_true, Hph. }
  cbn [set_res sh_res]. rewrite Hr, component_add by done. lia.
Qed.

(** ** What the invariant gives *)

(** The next dynamic slot gets a name nobody has. *)
Lemma next_name_fresh r l p sub :
  RegInv machine r → l ∈ r_slots r → r_heap r !! l = Some p → r_seq r < sub →
  r_byName r !! Slot.dynamicName (sh_id p) sub (sh_machine p) = None.
Proof.
  intros HI Hl Hp Hsub. destruct (r_byName r !! _) as [k|] eqn:E; [|done]. exfalso.
  apply (ri_byName _ _ HI) in E as (Hk & sh & Hsh & Hn).
  destruct (ri_slots _ _ HI l p Hl Hp) as (_ & Hm & _). rewrite Hm in Hn.
  apply elem_of_app in Hk as [Hk|Hk].
  - destruct (ri_slots _ _ HI k sh Hk Hsh) as (Hs & _). rewrite Hs in Hn.
    by apply staticName_dynamicName in Hn.
  - destruct (ri_dslots _ _ HI k sh Hk Hsh) as (Hs & _ & _ & Hle & _). rewrite Hs in Hn.
    apply dynamicName_inj2 in Hn as [_ Heq]. lia.
Qed.
End Inv.
