(* ===== verification/Core.v ===== *)
(** * The startd core (internal/startd: startd.go, claim.go, activate.go, adopt.go)

    The single-writer event loop: its state [Core], one definition per handler,
    and [handle], the dispatch on events.  Slots are Go pointers shared by the
    slot list, the dynamic-slot list and the name index, so the state has a heap
    of slots and those three hold locations.  Everything that leaves the loop
    (replies, collector updates, goroutines started, contexts cancelled,
    transports closed, processes spawned) is appended to [trace].

    A handler reads the clock, the file system and the collector list of the
    moment: that is [Env].  One handler runs in an instant, so every [time.Now()]
    of one run gives the same reading.  Log statements are dropped. *)

From S2P Require Import Prelude GoLang ClassAd Claim Slot Persist Persister StarterMsg Reconnect.

Local Open Scope Z_scope.
Local Open Scope ep_scope.

Module Core.

Definition replyNotOK : Z := 0.
Definition replyOK : Z := 1.
Definition replyLeftovers : Z := 3.
Definition replyLeftovers2 : Z := 5.
Definition replySlotAd : Z := 7.

Definition activateNotOK : Z := 0.
Definition activateOK : Z := 1.
Definition activateTryAgain : Z := 2.

Definition starterModeGoroutine : string := "goroutine".
Definition starterModeProcess : string := "process".

(** A context with its cancel function, a channel; a [*slot.Slot] is a [loc]. *)
Definition ctxid := nat.
Definition chanid := nat.

Section Core.
Context {CA : ClassAdLib} {SL : SecurityLib} {RS : Persist.RecordStore}.

(** ** Decisions handed back to blocked handlers *)

Record claimedSlotReply := mkClaimedSlotReply { cs_claimID : string; cs_ad : ClassAd }.

Record leftoverReply := mkLeftoverReply { lo_secure : bool; lo_claimID : string; lo_ad : ClassAd }.

Record claimDecision := mkClaimDecision {
  accept : bool;
  claimedSlots : list claimedSlotReply;
  leftovers : option leftoverReply
}.

(** The transport is named by the generation of its activation. *)
Record activateDecision := mkActivateDecision {
  code : Z;
  transport : option Z;
  ad_slotName : string
}.

Record deactivateDecision := mkDeactivateDecision {
  known : bool;
  closing : bool;
  dd_slotName : string;
  deferred : bool;
  wait : option chanid
}.

(** ** Events *)

Record evRequestClaim := mkRequestClaim {
  rc_claimID : string;
  rc_reqAd : ClassAd;
  rc_scheddAddr : string;
  rc_aliveInterval : Z;
  rc_clientMachine : string;
  rc_reply : chanid
}.

Inductive Event :=
| EvReschedule
| EvMatchInfo (claimID : string)
| EvMatchTimeout (slotName claimID : string)
| EvRequestClaim (e : evRequestClaim)
| EvReleaseClaim (claimID : string)
| EvReleaseSlot (slotName reason : string)
| EvAliveOK (slotName : string)
| EvActivateClaim (claimID : string) (jobAd : ClassAd) (reply : chanid)
| EvStarterUpdate (slotName : string) (ad : option ClassAd)
| EvStarterFinal (slotName : string) (ad : option ClassAd) (status reason : Z)
| EvStarterExited (slotName : string)
| EvStarterHello (slotName starterAddr : string) (starterPid jobPid : Z)
| EvLocateStarter (claimID globalJobID : string) (reply : chanid)
| EvAdopt (done : chanid)
| EvAdoptFailed (slotName : string)
| EvDeactivate (claimID : string) (command : Z) (reply : chanid)
| EvVacate (slotName : string) (hard : bool)
| EvVacateEscalate (slotName : string) (gen : Z).

(** ** Effects *)

Inductive goroutine :=
| GMatchTimer (ctx : ctxid) (slotName claimID : string) (timeout : Duration)
| GAliveLoop (ctx : ctxid) (slotName scheddAddr claimID : string) (period lease : Duration)
| GReapStarter (slotName : string) (pid : Z)
| GStarterRun (ctx : ctxid) (slotName publicClaimID : string)
| GSupervise (ctx : ctxid) (slotName : string) (gen : Z) (activateAd : option ClassAd) (reattach : bool)
| GKillBackstop (pid : Z) (timeout : Duration)
| GEscalate (slotName : string) (gen : Z) (timeout : Duration).

Inductive effect :=
| EClaimReply (ch : chanid) (d : claimDecision)
| EActivateReply (ch : chanid) (d : activateDecision)
| EDeactivateReply (ch : chanid) (d : deactivateDecision)
| ELocateReply (ch : chanid) (r : Reconnect.LocateResult)
| EAdoptDone (ch : chanid)
| EUpdateAd (collector : string) (pub priv : ClassAd)
| EInvalidateAd (collector : string) (ad : ClassAd)
| EGo (g : goroutine)
| ECancel (ctx : ctxid)
| ESpawn (argv : list string)
| EVacateSent (slotName : string) (gen msg : Z)
| ETransportClose (gen : Z)
| ECloseWait (ch : chanid).

(** ** State *)

(** The loop's record of a running starter.  [vacateCh] is the content of a
    channel of capacity one; [starterCmd] is the process that was spawned. *)
Record activation := mkActivation {
  act_cancel : ctxid;
  vacateCh : option Z;
  sandbox : string;
  jobAd : option ClassAd;
  globalJID : string;
  starterAddr : string;
  starterCmd : option Z;
  starterPid : Z;
  socketPath : string;
  adopted : bool;
  gen : Z;
  vacating : bool
}.

(** What [New] fixes. *)
Record CoreConfig := mkCoreConfig {
  haveAdv : bool;
  interval : Duration;
  alivesMissed : Z;
  matchTimeout : Duration;
  executeDir : string;
  starterUpdate : Duration;
  uidDomain : string;
  fsDomain : string;
  starterMode : string;
  starterPath : string;
  starterSocketDir : string;
  killingTimeout : Duration;
  maxVacateTime : Duration
}.

Record Core := mkCore {
  cfg : CoreConfig;
  heap : gmap loc Slot.Slot;
  nextLoc : loc;
  slots : list loc;
  dslots : list loc;
  byName : gmap string loc;
  dslotSeq : Z;
  minter : option Claim.Minter;
  matchCancels : gmap string ctxid;
  aliveCancels : gmap string ctxid;
  nextCtx : ctxid;
  activations : gmap string activation;
  sandboxSeq : Z;
  activationGen : Z;
  deferredDeactivate : gmap string chanid;
  nextChan : chanid;
  pers : option persister;
  trace : list effect
}.

Record exitMarker := mkExitMarker {
  WaitpidStatus : Z;
  Reason : Z;
  FinalAd : string;
  ExitTime : Z
}.

(** The world as one handler run finds it.  [collectors] is the collector list
    ([collectorsFn]); [readExit path] is the marker file read and parsed as
    JSON; [sha256hex8] is the hexadecimal of the first eight bytes of the SHA-256
    sum; [mapOrder] is the iteration order of a Go map. *)
Record Env := mkEnv {
  now : Time;
  host : Host;
  getpid : Z;
  collectors : list string;
  mkdirAll : string → bool;
  spawn : list string → option Z;
  sha256hex8 : string → string;
  readExit : string → option exitMarker;
  actOrder : list (string * activation) → list (string * activation);
  locOrder : list (string * loc) → list (string * loc)
}.

(** ** Field assignments *)

Definition set_heap (h : gmap loc Slot.Slot) (c : Core) : Core :=
  mkCore (cfg c) h (nextLoc c) (slots c) (dslots c) (byName c) (dslotSeq c) (minter c)
    (matchCancels c) (aliveCancels c) (nextCtx c) (activations c) (sandboxSeq c)
    (activationGen c) (deferredDeactivate c) (nextChan c) (pers c) (trace c).

(** Registry: allocation counter, dynamic slots and the name index. *)
Definition set_registry (n : loc) (ds : list loc) (bn : gmap string loc) (c : Core) : Core :=
  mkCore (cfg c) (heap c) n (slots c) ds bn (dslotSeq c) (minter c)
    (matchCancels c) (aliveCancels c) (nextCtx c) (activations c) (sandboxSeq c)
    (activationGen c) (deferredDeactivate c) (nextChan c) (pers c) (trace c).

Definition set_dslotSeq (n : Z) (c : Core) : Core :=
  mkCore (cfg c) (heap c) (nextLoc c) (slots c) (dslots c) (byName c) n (minter c)
    (matchCancels c) (aliveCancels c) (nextCtx c) (activations c) (sandboxSeq c)
    (activationGen c) (deferredDeactivate c) (nextChan c) (pers c) (trace c).

Definition set_minter (m : option Claim.Minter) (c : Core) : Core :=
  mkCore (cfg c) (heap c) (nextLoc c) (slots c) (dslots c) (byName c) (dslotSeq c) m
    (matchCancels c) (aliveCancels c) (nextCtx c) (activations c) (sandboxSeq c)
    (activationGen c) (deferredDeactivate c) (nextChan c) (pers c) (trace c).

Definition set_cancels (mc ac : gmap string ctxid) (n : ctxid) (c : Core) : Core :=
  mkCore (cfg c) (heap c) (nextLoc c) (slots c) (dslots c) (byName c) (dslotSeq c) (minter c)
    mc ac n (activations c) (sandboxSeq c)
    (activationGen c) (deferredDeactivate c) (nextChan c) (pers c) (trace c).

Definition set_activations (a : gmap string activation) (c : Core) : Core :=
  mkCore (cfg c) (heap c) (nextLoc c) (slots c) (dslots c) (byName c) (dslotSeq c) (minter c)
    (matchCancels c) (aliveCancels c) (nextCtx c) a (sandboxSeq c)
    (activationGen c) (deferredDeactivate c) (nextChan c) (pers c) (trace c).

Definition set_seqs (sb gn : Z) (n : ctxid) (c : Core) : Core :=
  mkCore (cfg c) (heap c) (nextLoc c) (slots c) (dslots c) (byName c) (dslotSeq c) (minter c)
    (matchCancels c) (aliveCancels c) n (activations c) sb
    gn (deferredDeactivate c) (nextChan c) (pers c) (trace c).

Definition set_deferred (d : gmap string chanid) (n : chanid) (c : Core) : Core :=
  mkCore (cfg c) (heap c) (nextLoc c) (slots c) (dslots c) (byName c) (dslotSeq c) (minter c)
    (matchCancels c) (aliveCancels c) (nextCtx c) (activations c) (sandboxSeq c)
    (activationGen c) d n (pers c) (trace c).

Definition set_pers (p : option persister) (c : Core) : Core :=
  mkCore (cfg c) (heap c) (nextLoc c) (slots c) (dslots c) (byName c) (dslotSeq c) (minter c)
    (matchCancels c) (aliveCancels c) (nextCtx c) (activations c) (sandboxSeq c)
    (activationGen c) (deferredDeactivate c) (nextChan c) p (trace c).

Definition emit (e : effect) (c : Core) : Core :=
  mkCore (cfg c) (heap c) (nextLoc c) (slots c) (dslots c) (byName c) (dslotSeq c) (minter c)
    (matchCancels c) (aliveCancels c) (nextCtx c) (activations c) (sandboxSeq c)
    (activationGen c) (deferredDeactivate c) (nextChan c) (pers c) (trace c ++ [e]).

(** Writing through a slot pointer, and through the claim pointer of a slot. *)
Definition updSlot (l : loc) (f : Slot.Slot → Slot.Slot) (c : Core) : Core :=
  set_heap (alter f l (heap c)) c.

Definition updClaim (l : loc) (f : Claim.Claim → Claim.Claim) (c : Core) : Core :=
  updSlot l (λ s, Slot.with_claim (f <$> Slot.claim s) s) c.

(** ** The slot registry (startd.go) *)

Definition LiveSlots (c : Core) : list loc := slots c ++ dslots c.

Definition deref (c : Core) (l : loc) : option (loc * Slot.Slot) :=
  match heap c !! l with Some s => Some (l, s) | None => None end.

(** [c.byName[name]]: [None] is the nil pointer. *)
Definition lookupName (name : string) (c : Core) : option (loc * Slot.Slot) :=
  match byName c !! name with Some l => deref c l | None => None end.

Definition findSlotByClaimID (claimID : string) (c : Core) : option (loc * Slot.Slot) :=
  find_map (λ l,
    match heap c !! l with
    | Some s =>
        match Slot.claim s with
        | Some cl => if bool_decide (Claim.claimID cl = claimID) then Some (l, s) else None
        | None => None
        end
    | None => None
    end) (LiveSlots c).

(** Allocating a slot and [addDSlot]. *)
Definition addDSlot (d : Slot.Slot) (c : Core) : Core :=
  let l := nextLoc c in
  c |> set_heap (<[l := d]> (heap c))
    |> set_registry (S l) (dslots c ++ [l]) (<[Slot.Name d := l]> (byName c)).

Definition nameIs (name : string) (c : Core) (l : loc) : bool :=
  match heap c !! l with Some s => bool_decide (Slot.Name s = name) | None => false end.

Definition removeDSlot (name : string) (c : Core) : Core :=
  set_registry (nextLoc c) (remove_first (nameIs name c) (dslots c)) (delete name (byName c)) c.

(** ** Advertising (internal/advertise/advertise.go)

    [PublicAd] bumps the slot's sequence number. *)
Definition publicAd (env : Env) (l : loc) (c : Core) : ClassAd * Core :=
  match heap c !! l with
  | Some s => let '(ad, s') := Slot.PublicAd (host env) (now env) s in
              (ad, set_heap (<[l := s']> (heap c)) c)
  | None => (adNew, c)
  end.

Definition emitAll (es : list effect) (c : Core) : Core := foldl (λ c e, emit e c) c es.

Definition advertiseSlot (env : Env) (c : Core) (l : loc) : Core :=
  let '(pub, c) := publicAd env l c in
  match heap c !! l with
  | Some s => emitAll ((λ a, EUpdateAd a pub (Slot.PrivateAd s)) <$> collectors env) c
  | None => c
  end.

Definition Advertise (env : Env) (c : Core) : Core :=
  match collectors env with
  | [] => c
  | _ => foldl (advertiseSlot env) c (LiveSlots c)
  end.

Definition reAdvertise (env : Env) (c : Core) : Core :=
  if haveAdv (cfg c) then Advertise env c else c.

Definition invalidateAd (s : Slot.Slot) : ClassAd :=
  run_ops
    [ OpSet "MyType" (VString "Query");
      OpSet "TargetType" (VString "Machine");
      (match ParseExpr ("Name == " +:+ Quote (Slot.Name s)) with
       | Some e => OpInsert "Requirements" e
       | None => OpSet "Requirements" (VBool true)
       end);
      OpSet "Name" (VString (Slot.Name s));
      OpSet "MyAddress" (VString (Slot.Sinful s)) ] adNew.

Definition InvalidateSlot (env : Env) (s : Slot.Slot) (c : Core) : Core :=
  emitAll ((λ a, EInvalidateAd a (invalidateAd s)) <$> collectors env) c.

Definition Invalidate (env : Env) (c : Core) : Core :=
  foldl (λ c l, match heap c !! l with Some s => InvalidateSlot env s c | None => c end)
    c (LiveSlots c).

(** ** Persistence (startd.go) *)

Definition recordOf (c : Core) (s : Slot.Slot) (cl : Claim.Claim) : Persist.Record_ :=
  let dyn := Slot.IsDynamic s in
  let act := activations c !! Slot.Name s in
  Persist.mkRecord
    (Slot.Name s) (Claim.claimID cl) (Claim.publicClaimID cl)
    (Slot.state s) (Slot.activity s) (Slot.SlotType s)
    (if dyn then Slot.ParentName s else "")
    (if dyn then Slot.SubID s else 0)
    (if dyn then Slot.Cpus (Slot.Res s) else 0)
    (if dyn then Slot.MemoryMB (Slot.Res s) else 0)
    (if dyn then Slot.DiskKB (Slot.Res s) else 0)
    (Claim.scheddAddr cl) (Claim.scheddName cl) (Claim.user cl) (Claim.clientMachine cl)
    (Claim.aliveInterval cl)
    (if IsZero (Claim.leaseDeadline cl) then 0 else Unix (Claim.leaseDeadline cl))
    (Claim.EnteredCurrentState cl)
    (match act with
     | Some a => match jobAd a with Some j => adStringWithPrivate j | None => "" end
     | None => ""
     end)
    (match act with Some a => globalJID a | None => "" end)
    (match act with Some a => starterPid a | None => 0 end)
    (match act with Some a => socketPath a | None => "" end)
    (match act with Some a => starterAddr a | None => "" end)
    (match act with Some a => sandbox a | None => "" end).

Definition persistSlot (l : loc) (c : Core) : Core :=
  match pers c, heap c !! l with
  | Some p, Some s =>
      match Slot.claim s with
      | Some cl => set_pers (Some (put (recordOf c s cl) p)) c
      | None => c
      end
  | _, _ => c
  end.

(** [c.store.Delete(name)]. *)
Definition storeDelete (name : string) (c : Core) : Core :=
  match pers c with
  | Some p => set_pers (Some (mkPersister (pending p) (batch p) (Persist.rs_delete name (store p)))) c
  | None => c
  end.

(** ** Small ClassAd helpers (claim.go) *)

Definition adBool (ad : ClassAd) (name : string) : bool := default false (EvaluateAttrBool name ad).
Definition adStringAttr (ad : ClassAd) (name : string) : string := default "" (EvaluateAttrString name ad).

Fixpoint firstNonEmptyAttr (ad : ClassAd) (names : list string) : string :=
  match names with
  | [] => ""
  | n :: r => if bool_decide (adStringAttr ad n = "") then firstNonEmptyAttr ad r else adStringAttr ad n
  end.

(** ** Match timers *)

Definition startMatchTimer (slotName claimID : string) (c : Core) : Core :=
  let c := match matchCancels c !! slotName with Some x => emit (ECancel x) c | None => c end in
  let x := nextCtx c in
  c |> set_cancels (<[slotName := x]> (matchCancels c)) (aliveCancels c) (S x)
    |> emit (EGo (GMatchTimer x slotName claimID (matchTimeout (cfg c)))).

Definition cancelMatchTimer (slotName : string) (c : Core) : Core :=
  match matchCancels c !! slotName with
  | Some x =>
      c |> emit (ECancel x)
        |> set_cancels (delete slotName (matchCancels c)) (aliveCancels c) (nextCtx c)
  | None => c
  end.

Definition doMatchInfo (env : Env) (claimID : string) (c : Core) : Core :=
  match findSlotByClaimID claimID c with
  | None => c
  | Some (l, s) =>
      match Slot.claim s with
      | None => c
      | Some cl =>
          if negb (bool_decide (Claim.state cl = Claim.Unclaimed)) then c
          else if negb (bool_decide (Slot.state s = "Unclaimed")) then c
          else
            c |> updSlot l (Slot.SetStateActivity "Matched" "Idle" (now env))
              |> persistSlot l
              |> startMatchTimer (Slot.Name s) claimID
              |> reAdvertise env
      end
  end.

(** A fresh claim, or the old one when minting fails or is disabled. *)
Definition unclaimSlot (env : Env) (l : loc) (c : Core) : Core :=
  match minter c with
  | Some m =>
      let '(m', r) := Claim.Mint m in
      let c := set_minter (Some m') c in
      match r with
      | Some fresh => updSlot l (Slot.SetClaimState fresh "Unclaimed" "Idle" (now env)) c
      | None => updSlot l (Slot.SetStateActivity "Unclaimed" "Idle" (now env)) c
      end
  | None => updSlot l (Slot.SetStateActivity "Unclaimed" "Idle" (now env)) c
  end.

Definition doMatchTimeout (env : Env) (slotName claimID : string) (c : Core) : Core :=
  match lookupName slotName c with
  | None => c
  | Some (l, s) =>
      let c := set_cancels (delete slotName (matchCancels c)) (aliveCancels c) (nextCtx c) c in
      if negb (bool_decide (Slot.state s = "Matched")) then c
      else match Slot.claim s with
           | None => c
           | Some cl =>
               if negb (bool_decide (Claim.claimID cl = claimID)) then c
               else c |> unclaimSlot env l |> persistSlot l |> reAdvertise env
           end
  end.

(** ** ALIVE loops *)

Definition startAliveLoop (l : loc) (c : Core) : Core :=
  match heap c !! l with
  | None => c
  | Some s =>
      match Slot.claim s with
      | None => c
      | Some cl =>
          let x := nextCtx c in
          let period := Claim.AlivePeriod (Claim.aliveInterval cl) (alivesMissed (cfg c)) in
          let lease := Claim.LeaseDuration (Claim.aliveInterval cl) (alivesMissed (cfg c)) in
          c |> set_cancels (matchCancels c) (<[Slot.Name s := x]> (aliveCancels c)) (S x)
            |> emit (EGo (GAliveLoop x (Slot.Name s) (Claim.scheddAddr cl) (Claim.claimID cl) period lease))
      end
  end.

Definition doAliveOK (env : Env) (slotName : string) (c : Core) : Core :=
  match lookupName slotName c with
  | None => c
  | Some (l, s) =>
      match Slot.claim s with
      | Some cl =>
          if Claim.IsClaimed (Claim.state cl)
          then updClaim l (Claim.ExtendLease (alivesMissed (cfg c)) (now env)) c
          else c
      | None => c
      end
  end.

(** ** REQUEST_CLAIM and RELEASE_CLAIM (claim.go) *)

(** The [geti] closure: the first name that evaluates to a number. *)
Fixpoint requestInt (ad : ClassAd) (names : list string) : Z :=
  match names with
  | [] => 0
  | n :: r =>
      match EvaluateAttrInt n ad with
      | Some v => v
      | None =>
          match EvaluateAttrReal n ad with
          | Some v => float_trunc f2i_out v
          | None => requestInt ad r
          end
      end
  end.

Definition requestedResources (ad : ClassAd) : Slot.Resources :=
  let cpus := requestInt ad ["_condor_RequestCpus"; "RequestCpus"] in
  Slot.mkRes (if cpus <? 1 then 1 else cpus)
    (requestInt ad ["_condor_RequestMemory"; "RequestMemory"])
    (requestInt ad ["_condor_RequestDisk"; "RequestDisk"]).

Definition refreshPSlotChildren (l : loc) (c : Core) : Core :=
  match heap c !! l with
  | None => c
  | Some ps =>
      let ids := omap (λ d,
        match heap c !! d with
        | Some s =>
            if bool_decide (Slot.ParentName s = Slot.Name ps)
            then Claim.claimID <$> Slot.claim s else None
        | None => None
        end) (dslots c) in
      updSlot l (Slot.SetChildClaimIDs ids) c
  end.

(** [matchAd.EvaluateAttrBool("Requirements")] with the target set; a value that is
    not a boolean is a rejection. *)
Definition requirementsMet (env : Env) (s : Slot.Slot) (target : ClassAd) : bool :=
  default false (EvaluateAttrBool "Requirements"
                   (SetTarget (Slot.MatchAd (host env) (now env) s) target)).

Definition acceptInfo (env : Env) (ev : evRequestClaim) (c : Core) : Claim.AcceptInfo :=
  Claim.mkAcceptInfo (rc_scheddAddr ev) (adStringAttr (rc_reqAd ev) "ScheddName")
    (firstNonEmptyAttr (rc_reqAd ev) ["User"; "Owner"]) (rc_clientMachine ev)
    (rc_aliveInterval ev) (alivesMissed (cfg c)) (now env).

Definition rejectClaim (ev : evRequestClaim) (c : Core) : Core :=
  emit (EClaimReply (rc_reply ev) (mkClaimDecision false [] None)) c.

(** The reply's claimed-slot block: [if adBool(...) { claimed = ... s.PublicAd() }]. *)
Definition claimedBlock (env : Env) (ev : evRequestClaim) (cid : string) (l : loc) (c : Core)
    : list claimedSlotReply * Core :=
  if adBool (rc_reqAd ev) "_condor_SEND_CLAIMED_AD" then
    let '(ad, c) := publicAd env l c in ([mkClaimedSlotReply cid ad], c)
  else ([], c).

Definition leftoversBlock (env : Env) (ev : evRequestClaim) (cid : string) (l : loc) (c : Core)
    : option leftoverReply * Core :=
  if adBool (rc_reqAd ev) "_condor_SEND_LEFTOVERS" then
    let '(ad, c) := publicAd env l c in
    (Some (mkLeftoverReply (adBool (rc_reqAd ev) "_condor_SECURE_CLAIM_ID") cid ad), c)
  else (None, c).

Definition doRequestClaimPSlot (env : Env) (ev : evRequestClaim) (l : loc) (psClaim : Claim.Claim)
    (c : Core) : Core :=
  match heap c !! l with
  | None => c
  | Some ps =>
  match minter c with
  | None => rejectClaim ev c
  | Some m =>
  if negb (requirementsMet env ps (rc_reqAd ev)) then rejectClaim ev c else
  let req := requestedResources (rc_reqAd ev) in
  if negb (Slot.CanCarve req ps) then rejectClaim ev c else
  let '(m', minted) := Claim.Mint m in
  let c := set_minter (Some m') c in
  match minted with
  | None => rejectClaim ev c
  | Some dClaim =>
      let c := set_dslotSeq (wrap64 (dslotSeq c + 1)) c in
      let dslot :=
        Slot.NewDynamicSlot ps (dslotSeq c) req (now env)
          |> Slot.SetClaim dClaim
          |> Slot.AcceptClaim (now env) (acceptInfo env ev c) in
      let d := nextLoc c in
      let c :=
        c |> updSlot l (Slot.Carve req)
          |> addDSlot dslot
          |> refreshPSlotChildren l
          |> persistSlot d
          |> persistSlot l
          |> startAliveLoop d in
      let '(claimed, c) := claimedBlock env ev (Claim.claimID dClaim) d c in
      let '(lo, c) := leftoversBlock env ev (Claim.claimID psClaim) l c in
      c |> emit (EClaimReply (rc_reply ev) (mkClaimDecision true claimed lo))
        |> reAdvertise env
  end end end.

Definition doRequestClaim (env : Env) (ev : evRequestClaim) (c : Core) : Core :=
  match findSlotByClaimID (rc_claimID ev) c with
  | None => rejectClaim ev c
  | Some (l, s) =>
  match Slot.claim s with
  | None => rejectClaim ev c
  | Some cl =>
  if negb (bool_decide (Claim.state cl = Claim.Unclaimed)) then rejectClaim ev c else
  let c := cancelMatchTimer (Slot.Name s) c in
  if negb (requirementsMet env s (rc_reqAd ev)) then rejectClaim ev c else
  if Slot.IsPartitionable s then doRequestClaimPSlot env ev l cl c else
  let c :=
    c |> updSlot l (Slot.AcceptClaim (now env) (acceptInfo env ev c))
      |> persistSlot l in
  let '(claimed, c) := claimedBlock env ev (Claim.claimID cl) l c in
  c |> startAliveLoop l
    |> emit (EClaimReply (rc_reply ev) (mkClaimDecision true claimed None))
    |> reAdvertise env
  end end.

(** [select { case act.vacateCh <- msg: default: }]. *)
Definition vacateSend (msg : Z) (act : activation) : activation * bool :=
  match vacateCh act with
  | None =>
      (mkActivation (act_cancel act) (Some msg) (sandbox act) (jobAd act) (globalJID act)
         (starterAddr act) (starterCmd act) (starterPid act) (socketPath act) (adopted act)
         (gen act) (vacating act), true)
  | Some _ => (act, false)
  end.

Definition emitVacate (slotName : string) (act : activation) (msg : Z) (sent : bool) (c : Core) : Core :=
  if sent then emit (EVacateSent slotName (gen act) msg) c else c.

Definition killActivation (slotName : string) (c : Core) : Core :=
  match activations c !! slotName with
  | None => c
  | Some act =>
      let '(act, sent) := vacateSend StarterMsg.MsgVacateHard act in
      let c :=
        c |> set_activations (delete slotName (activations c))
          |> emitVacate slotName act StarterMsg.MsgVacateHard sent
          |> emit (ECancel (act_cancel act))
          |> emit (ETransportClose (gen act)) in
      match starterCmd act with
      | Some pid => emit (EGo (GKillBackstop pid (killingTimeout (cfg c)))) c
      | None => c
      end
  end.

Definition destroyDSlot (env : Env) (l : loc) (c : Core) : Core :=
  match heap c !! l with
  | None => c
  | Some d =>
      let c := c |> removeDSlot (Slot.Name d) |> storeDelete (Slot.Name d) in
      let c := if haveAdv (cfg c) then InvalidateSlot env d c else c in
      let c :=
        match lookupName (Slot.ParentName d) c with
        | Some (p, _) =>
            c |> updSlot p (Slot.Restore (Slot.Res d))
              |> refreshPSlotChildren p
              |> persistSlot p
        | None => c
        end in
      reAdvertise env c
  end.

(** [cancel(); delete(c.aliveCancels, name)]. *)
Definition cancelAlive (slotName : string) (c : Core) : Core :=
  match aliveCancels c !! slotName with
  | Some x =>
      c |> emit (ECancel x)
        |> set_cancels (matchCancels c) (delete slotName (aliveCancels c)) (nextCtx c)
  | None => c
  end.

Definition releaseSlot (env : Env) (l : loc) (c : Core) : Core :=
  match heap c !! l with
  | None => c
  | Some s =>
      let c :=
        c |> cancelMatchTimer (Slot.Name s)
          |> cancelAlive (Slot.Name s)
          |> killActivation (Slot.Name s) in
      if Slot.IsDynamic s then destroyDSlot env l c
      else c |> unclaimSlot env l |> persistSlot l |> reAdvertise env
  end.

Definition doReleaseByClaimID (env : Env) (claimID : string) (c : Core) : Core :=
  match findSlotByClaimID claimID c with
  | None => c
  | Some (l, _) => releaseSlot env l c
  end.

(** ** ACTIVATE_CLAIM (activate.go) *)

Definition rejectActivate (reply : chanid) (c : Core) : Core :=
  emit (EActivateReply reply (mkActivateDecision activateNotOK None "")) c.

Definition starterSocketPath (env : Env) (publicClaimID : string) (c : Core) : option string :=
  let dir := starterSocketDir (cfg c) in
  if bool_decide (dir = "") then None
  else if negb (mkdirAll env dir) then None
  else Some (pathJoin [dir; sha256hex8 env (publicClaimID +:+ "|" +:+ show (sandboxSeq c)) +:+ ".sock"]).

(** [strings.TrimSuffix]. *)
Definition TrimSuffix (s suffix : string) : string :=
  let n := (String.length s - String.length suffix)%nat in
  if bool_decide (String.substring n (String.length suffix) s = suffix) then String.substring 0 n s else s.

(** The command line; [int(d.Seconds())] is the whole seconds of [d]. *)
Definition buildStarterCmd (sockPath sandbox slotName publicClaimID : string) (c : Core) : list string :=
  let logPath := TrimSuffix sockPath ".sock" +:+ ".starterlog" in
  [starterPath (cfg c); "-socket"; sockPath; "-slot"; slotName; "-claim"; publicClaimID;
   "-sandbox"; sandbox; "-log"; logPath]
  ++ (if 0 <? starterUpdate (cfg c)
      then ["-update-interval"; show (Z.quot (starterUpdate (cfg c)) Second)] else [])
  ++ (if bool_decide (uidDomain (cfg c) = "") then [] else ["-uid-domain"; uidDomain (cfg c)])
  ++ (if bool_decide (fsDomain (cfg c) = "") then [] else ["-fs-domain"; fsDomain (cfg c)]).

(** The last part of an accepted activation, common to both starter modes. *)
Definition finishActivate (env : Env) (l : loc) (slotName : string) (act : activation)
    (activateAd : ClassAd) (reply : chanid) (c : Core) : Core :=
  c |> emit (EGo (GSupervise (act_cancel act) slotName (gen act) (Some activateAd) false))
    |> updClaim l (Claim.SetBusy (now env))
    |> updSlot l (Slot.SetStateActivity "Claimed" "Busy" (now env))
    |> persistSlot l
    |> emit (EActivateReply reply (mkActivateDecision activateOK (Some (gen act)) slotName))
    |> reAdvertise env.

Definition sandboxName (env : Env) (s : Slot.Slot) (seq : Z) : string :=
  "dir_" +:+ show (getpid env) +:+ "_slot" +:+ show (Slot.SlotID s) +:+ "_" +:+ show seq.

(** From the sandbox on: the part after the guards. *)
Definition activateStarter (env : Env) (l : loc) (s : Slot.Slot) (cl : Claim.Claim) (job : ClassAd)
    (reply : chanid) (c : Core) : Core :=
  let c := set_seqs (wrap64 (sandboxSeq c + 1)) (activationGen c) (nextCtx c) c in
  let sb := pathJoin [executeDir (cfg c); sandboxName env s (sandboxSeq c)] in
  if negb (mkdirAll env sb) then rejectActivate reply c else
  let x := nextCtx c in
  let c := set_seqs (sandboxSeq c) (wrap64 (activationGen c + 1)) (S x) c in
  let slotName := Slot.Name s in
  let act := mkActivation x None sb (Some job) (adStringAttr job "GlobalJobId") "" None 0 "" false
               (activationGen c) false in
  let '(slotAd, c) := publicAd env l c in
  let activateAd := StarterMsg.MarshalActivate (λ m, m)
                      (StarterMsg.mkActivateMsg (Some job) (Some slotAd) sb ∅) in
  if bool_decide (starterMode (cfg c) = starterModeProcess) then
    match starterSocketPath env (Claim.publicClaimID cl) c with
    | None => c |> emit (ECancel x) |> rejectActivate reply
    | Some sockPath =>
        let argv := buildStarterCmd sockPath sb slotName (Claim.publicClaimID cl) c in
        match spawn env argv with
        | None => c |> emit (ECancel x) |> rejectActivate reply
        | Some pid =>
            let act := mkActivation x None sb (Some job) (globalJID act) "" (Some pid) pid sockPath false
                         (gen act) false in
            c |> emit (ESpawn argv)
              |> set_activations (<[slotName := act]> (activations c))
              |> emit (EGo (GReapStarter slotName pid))
              |> finishActivate env l slotName act activateAd reply
        end
    end
  else
    c |> set_activations (<[slotName := act]> (activations c))
      |> emit (EGo (GStarterRun x slotName (Claim.publicClaimID cl)))
      |> finishActivate env l slotName act activateAd reply.

Definition doActivateClaim (env : Env) (claimID : string) (job : ClassAd) (reply : chanid) (c : Core)
    : Core :=
  match findSlotByClaimID claimID c with
  | None => rejectActivate reply c
  | Some (l, s) =>
  match Slot.claim s with
  | None => rejectActivate reply c
  | Some cl =>
  if negb (Claim.IsClaimed (Claim.state cl)) then rejectActivate reply c
  else if negb (bool_decide (Claim.state cl = Claim.ClaimedIdle)) then rejectActivate reply c
  else if negb (bool_decide (is_Some (EvaluateAttrInt "JobUniverse" job))) then rejectActivate reply c
  else if negb (requirementsMet env s job) then rejectActivate reply c
  else if bool_decide (executeDir (cfg c) = "") then rejectActivate reply c
  else activateStarter env l s cl job reply c
  end end.

(** ** Starter reports (activate.go) *)

Definition with_hello (addr : string) (pid : Z) (a : activation) : activation :=
  mkActivation (act_cancel a) (vacateCh a) (sandbox a) (jobAd a) (globalJID a) addr (starterCmd a)
    pid (socketPath a) (adopted a) (gen a) (vacating a).

Definition doStarterHello (slotName addr : string) (pid : Z) (c : Core) : Core :=
  match activations c !! slotName with
  | None => c
  | Some act =>
      let newAddr := negb (bool_decide (addr = "")) && negb (bool_decide (starterAddr act = addr)) in
      let newPid := negb (pid =? 0) && negb (starterPid act =? pid) in
      let c := set_activations
                 (<[slotName := with_hello (if newAddr then addr else starterAddr act)
                                           (if newPid then pid else starterPid act) act]>
                    (activations c)) c in
      if newAddr || newPid then
        match lookupName slotName c with Some (l, _) => persistSlot l c | None => c end
      else c
  end.

Definition doStarterUpdate (slotName : string) (ad : option ClassAd) (c : Core) : Core :=
  match lookupName slotName c with
  | None => c
  | Some (l, s) =>
      match Slot.claim s with
      | Some cl => if Claim.IsClaimed (Claim.state cl) then updClaim l (Claim.SetUpdateAd ad) c else c
      | None => c
      end
  end.

Definition doStarterFinal (slotName : string) (ad : option ClassAd) (status reason : Z) (c : Core)
    : Core :=
  match lookupName slotName c with
  | None => c
  | Some (l, s) =>
      match Slot.claim s with
      | Some cl =>
          if Claim.IsClaimed (Claim.state cl) then updClaim l (Claim.SetFinal ad status reason) c else c
      | None => c
      end
  end.

Definition releaseDeferredDeactivate (slotName : string) (c : Core) : Core :=
  match deferredDeactivate c !! slotName with
  | Some ch =>
      c |> emit (ECloseWait ch)
        |> set_deferred (delete slotName (deferredDeactivate c)) (nextChan c)
  | None => c
  end.

(** [cl.SetIdle(now); s.SetStateActivity("Claimed", "Idle", now)]. *)
Definition setClaimedIdle (env : Env) (l : loc) (c : Core) : Core :=
  c |> updClaim l (Claim.SetIdle (now env))
    |> updSlot l (Slot.SetStateActivity "Claimed" "Idle" (now env)).

Definition doStarterExited (env : Env) (slotName : string) (c : Core) : Core :=
  match activations c !! slotName with
  | None => releaseDeferredDeactivate slotName c
  | Some act =>
      let c :=
        c |> set_activations (delete slotName (activations c))
          |> emit (ECancel (act_cancel act))
          |> emit (ETransportClose (gen act))
          |> releaseDeferredDeactivate slotName in
      match lookupName slotName c with
      | None => c
      | Some (l, s) =>
          match Slot.claim s with
          | Some cl =>
              if bool_decide (Claim.state cl = Claim.ClaimedBusy)
              then c |> setClaimedIdle env l |> persistSlot l |> reAdvertise env
              else c
          | None => c
          end
      end
  end.

(** ** CA_LOCATE_STARTER (activate.go) *)

(** [subtle.ConstantTimeCompare(a, b) == 1] is equality. *)
Definition locateMatch (claimID globalJobID recClaim recGJID : string) : bool :=
  if negb (bool_decide (globalJobID = "")) && negb (bool_decide (recGJID = globalJobID)) then false
  else bool_decide (recClaim = claimID).

Definition doLocateStarter (env : Env) (claimID globalJobID : string) (c : Core)
    : Reconnect.LocateResult :=
  if bool_decide (claimID = "") then Reconnect.notLocated else
  match find_map (λ '(slotName, act),
          match lookupName slotName c with
          | None => None
          | Some (_, s) =>
              if bool_decide (starterAddr act = "") then None else
              match Slot.claim s with
              | Some cl =>
                  if locateMatch claimID globalJobID (Claim.claimID cl) (globalJID act)
                  then Some (Reconnect.mkLocateResult true (starterAddr act)) else None
              | None => None
              end
          end) (actOrder env (map_to_list (activations c))) with
  | Some r => r
  | None =>
      match pers c with
      | Some p =>
          default Reconnect.notLocated
            (find_map (λ rec,
               if locateMatch claimID globalJobID (Persist.ClaimID rec) (Persist.GlobalJobID rec)
               then Some (Reconnect.mkLocateResult true (Persist.StarterIpAddr rec)) else None)
               (Persist.rs_list (store p)))
      | None => Reconnect.notLocated
      end
  end.

(** ** DEACTIVATE_CLAIM and vacating (activate.go) *)

Definition claimIsClosing (s : Slot.Slot) : bool := false.

Definition doDeactivate (claimID : string) (command : Z) (reply : chanid) (c : Core) : Core :=
  match findSlotByClaimID claimID c with
  | None => emit (EDeactivateReply reply (mkDeactivateDecision false true "" false None)) c
  | Some (_, s) =>
      let closing := claimIsClosing s in
      let name := Slot.Name s in
      if command =? Claim.CmdDeactivateClaimJobDone then
        match activations c !! name with
        | Some _ =>
            let ch := nextChan c in
            c |> set_deferred (<[name := ch]> (deferredDeactivate c)) (S ch)
              |> emit (EDeactivateReply reply (mkDeactivateDecision true closing name true (Some ch)))
        | None => emit (EDeactivateReply reply (mkDeactivateDecision true closing name false None)) c
        end
      else emit (EDeactivateReply reply (mkDeactivateDecision true closing name false None)) c
  end.

Definition with_vacating (a : activation) : activation :=
  mkActivation (act_cancel a) (vacateCh a) (sandbox a) (jobAd a) (globalJID a) (starterAddr a)
    (starterCmd a) (starterPid a) (socketPath a) (adopted a) (gen a) true.

Definition doVacate (slotName : string) (hard : bool) (c : Core) : Core :=
  match activations c !! slotName with
  | None => c
  | Some act =>
      let msg := if hard then StarterMsg.MsgVacateHard else StarterMsg.MsgVacateSoft in
      let '(act, sent) := vacateSend msg (with_vacating act) in
      let c :=
        c |> set_activations (<[slotName := act]> (activations c))
          |> emitVacate slotName act msg sent in
      if hard then c else emit (EGo (GEscalate slotName (gen act) (maxVacateTime (cfg c)))) c
  end.

Definition doVacateEscalate (slotName : string) (g : Z) (c : Core) : Core :=
  match activations c !! slotName with
  | None => c
  | Some act =>
      if negb (gen act =? g) then c
      else
        let '(act, sent) := vacateSend StarterMsg.MsgVacateHard act in
        c |> set_activations (<[slotName := act]> (activations c))
          |> emitVacate slotName act StarterMsg.MsgVacateHard sent
  end.

(** ** Re-adoption (adopt.go) *)

Definition unixTime (sec : Z) : Time := if sec =? 0 then zeroTime else timeUnix sec.

Definition activityOf (busy : bool) : string := if busy then "Busy" else "Idle".

(** The boolean says a slot was returned. *)
Definition reconstructDSlot (rec : Persist.Record_) (c : Core) : bool * Core :=
  match lookupName (Persist.ParentSlotName rec) c with
  | None => (false, c)
  | Some (p, parent) =>
      match lookupName (Persist.SlotName rec) c with
      | Some _ => (true, c)
      | None =>
          let res := Slot.mkRes (Persist.Cpus rec) (Persist.MemoryMB rec) (Persist.DiskKB rec) in
          let d := Slot.NewDynamicSlot parent (Persist.DSlotSubID rec) res
                     (unixTime (Persist.Entered rec)) in
          let c := c |> updSlot p (Slot.Carve res) |> addDSlot d in
          (true, if dslotSeq c <? Persist.DSlotSubID rec
                 then set_dslotSeq (Persist.DSlotSubID rec) c else c)
      end
  end.

Definition adoptClaim (rec : Persist.Record_) : Claim.Claim :=
  Claim.Adopt (Claim.mkAdoptOptions (Persist.ClaimID rec) (Persist.PublicClaimID rec)
    (SecSessionID (Persist.ClaimID rec)) (Persist.ScheddAddr rec) (Persist.ScheddName rec)
    (Persist.User rec) (Persist.ClientMachine rec) (Persist.AliveInterval rec)
    (EqualFold (Persist.Activity rec) "Busy") (unixTime (Persist.LeaseDeadline rec))
    (unixTime (Persist.Entered rec))).

(** The activation of a surviving starter, and its supervisor. *)
Definition adoptStarter (rec : Persist.Record_) (c : Core) : Core :=
  let job := if bool_decide (Persist.JobAd rec = "") then None else adParse (Persist.JobAd rec) in
  let x := nextCtx c in
  let c := set_seqs (sandboxSeq c) (wrap64 (activationGen c + 1)) (S x) c in
  let act := mkActivation x None (Persist.Sandbox rec) job (Persist.GlobalJobID rec)
               (Persist.StarterIpAddr rec) None (Persist.StarterPid rec) (Persist.StarterSocket rec)
               true (activationGen c) false in
  c |> set_activations (<[Persist.SlotName rec := act]> (activations c))
    |> emit (EGo (GSupervise x (Persist.SlotName rec) (gen act) None true)).

(** What the loop of [doAdopt] threads: the core, the p-slots touched and the number
    of claims adopted. *)
Record adoptState := mkAdoptState { as_core : Core; touched : gmap string loc; nAdopted : Z }.

(** One iteration from the [byName] lookup on. *)
Definition adoptSlot (rec : Persist.Record_) (st : adoptState) : adoptState :=
  let c := as_core st in
  match lookupName (Persist.SlotName rec) c with
  | None => mkAdoptState (storeDelete (Persist.SlotName rec) c) (touched st) (nAdopted st)
  | Some (l, _) =>
      if bool_decide (Persist.ClaimID rec = "") then st
      else if negb (ImportClaimSession (Persist.ClaimID rec) (Persist.ScheddAddr rec)
                      Claim.SurfaceCommands) then st
      else
        let busy := EqualFold (Persist.Activity rec) "Busy" in
        let c :=
          c |> updSlot l (Slot.SetClaimState (adoptClaim rec) "Claimed" (activityOf busy)
                            (unixTime (Persist.Entered rec)))
            |> startAliveLoop l in
        let c := if busy && negb (bool_decide (Persist.StarterSocket rec = ""))
                 then adoptStarter rec c else c in
        mkAdoptState c (touched st) (nAdopted st + 1)
  end.

Definition adoptRecord (st : adoptState) (rec : Persist.Record_) : adoptState :=
  if negb (EqualFold (Persist.State rec) "Claimed") then st
  else if EqualFold (Persist.SlotType rec) Slot.SlotTypeDynamic then
    let '(ok, c) := reconstructDSlot rec (as_core st) in
    if ok then
      let t := match lookupName (Persist.ParentSlotName rec) c with
               | Some (p, ps) => <[Slot.Name ps := p]> (touched st)
               | None => touched st
               end in
      adoptSlot rec (mkAdoptState c t (nAdopted st))
    else mkAdoptState (storeDelete (Persist.SlotName rec) c) (touched st) (nAdopted st)
  else adoptSlot rec st.

Definition doAdopt (env : Env) (c : Core) : Core :=
  match pers c with
  | None => c
  | Some p =>
      let st := foldl adoptRecord (mkAdoptState c ∅ 0) (Persist.rs_list (store p)) in
      let c := foldl (λ c nl, refreshPSlotChildren nl.2 c) (as_core st)
                 (locOrder env (map_to_list (touched st))) in
      if 0 <? nAdopted st then reAdvertise env c else c
  end.

Definition readExitMarker (env : Env) (sb : string) : option exitMarker :=
  if bool_decide (sb = "") then None else readExit env (pathJoin [sb; ".exit"]).

Definition doAdoptFailed (env : Env) (slotName : string) (c : Core) : Core :=
  match activations c !! slotName with
  | None => c
  | Some act =>
      match lookupName slotName c with
      | None => set_activations (delete slotName (activations c)) c
      | Some (l, s) =>
          match readExitMarker env (sandbox act) with
          | Some m =>
              let c :=
                c |> set_activations (delete slotName (activations c))
                  |> emit (ECancel (act_cancel act))
                  |> emit (ETransportClose (gen act)) in
              let c :=
                match Slot.claim s with
                | Some cl =>
                    if bool_decide (Claim.state cl = Claim.ClaimedBusy) then
                      let fad := if bool_decide (FinalAd m = "") then None else adParse (FinalAd m) in
                      c |> updClaim l (Claim.SetFinal fad (WaitpidStatus m) (Reason m))
                        |> setClaimedIdle env l
                        |> persistSlot l
                    else c
                | None => c
                end in
              reAdvertise env c
          | None => releaseSlot env l c
          end
      end
  end.

(** ** Construction and dispatch (startd.go) *)

Definition normStarterMode (v : string) : string :=
  if bool_decide (v = starterModeProcess) then starterModeProcess else starterModeGoroutine.

Definition normKillingTimeout (d : Duration) : Duration := if d <=? 0 then 30 * Second else d.

Definition normMaxVacateTime (d killing : Duration) : Duration :=
  if 0 <? d then d else normKillingTimeout killing.

(** [Options] other than the slots, the minter and the store. *)
Definition normConfig (o : CoreConfig) : CoreConfig :=
  mkCoreConfig (haveAdv o)
    (if interval o <=? 0 then 300 * Second else interval o)
    (if alivesMissed o <=? 0 then Claim.DefaultAlivesMissed else alivesMissed o)
    (if matchTimeout o <=? 0 then 120 * Second else matchTimeout o)
    (executeDir o) (starterUpdate o) (uidDomain o) (fsDomain o)
    (normStarterMode (starterMode o)) (starterPath o) (starterSocketDir o)
    (normKillingTimeout (killingTimeout o)) (normMaxVacateTime (maxVacateTime o) (killingTimeout o)).

(** A failing mint is logged and leaves the slot without a claim. *)
Definition primeSlot (c : Core) (l : loc) : Core :=
  match minter c with
  | None => c
  | Some m =>
      let '(m', r) := Claim.Mint m in
      let c := set_minter (Some m') c in
      match r with
      | Some cl => updSlot l (Slot.SetClaim cl) c
      | None => c
      end
  end.

Definition prime (c : Core) : Core :=
  match minter c with
  | None => c
  | Some _ => foldl primeSlot c (slots c)
  end.

Definition New (opts : CoreConfig) (optSlots : list Slot.Slot) (optMinter : option Claim.Minter)
    (optStore : option Persist.rstore) : Core :=
  let locs := List.seq 0 (length optSlots) in
  prime
    (mkCore (normConfig opts)
       (map_seq 0 optSlots) (length optSlots) locs []
       (foldl (λ m nl, <[nl.1 := nl.2]> m) ∅ (zip (Slot.Name <$> optSlots) locs))
       0 optMinter ∅ ∅ 0%nat ∅ 0 0 ∅ 0%nat
       ((λ s, mkPersister ∅ [] s) <$> optStore) []).

Definition handle (env : Env) (ev : Event) (c : Core) : Core :=
  match ev with
  | EvReschedule => reAdvertise env c
  | EvMatchInfo claimID => doMatchInfo env claimID c
  | EvMatchTimeout slotName claimID => doMatchTimeout env slotName claimID c
  | EvRequestClaim e => doRequestClaim env e c
  | EvReleaseClaim claimID => doReleaseByClaimID env claimID c
  | EvReleaseSlot slotName _ =>
      match lookupName slotName c with Some (l, _) => releaseSlot env l c | None => c end
  | EvAliveOK slotName => doAliveOK env slotName c
  | EvActivateClaim claimID job reply => doActivateClaim env claimID job reply c
  | EvStarterUpdate slotName ad => doStarterUpdate slotName ad c
  | EvStarterFinal slotName ad status reason => doStarterFinal slotName ad status reason c
  | EvStarterExited slotName => doStarterExited env slotName c
  | EvStarterHello slotName addr pid _ => doStarterHello slotName addr pid c
  | EvLocateStarter claimID gjid reply => emit (ELocateReply reply (doLocateStarter env claimID gjid c)) c
  | EvAdopt done => c |> doAdopt env |> emit (EAdoptDone done)
  | EvAdoptFailed slotName => doAdoptFailed env slotName c
  | EvDeactivate claimID command reply => doDeactivate claimID command reply c
  | EvVacate slotName hard => doVacate slotName hard c
  | EvVacateEscalate slotName g => doVacateEscalate slotName g c
  end.

(** The ticker's branch of the loop, and the shutdown branch. *)
Definition tick (env : Env) (c : Core) : Core := if haveAdv (cfg c) then Advertise env c else c.
Definition shutdown (env : Env) (c : Core) : Core := if haveAdv (cfg c) then Invalidate env c else c.

(** [Submit]: a queue of 64 events; an event that finds it full is dropped. *)
Definition Submit (ev : Event) (events : list Event) : list Event :=
  if (length events <? 64)%nat then events ++ [ev] else events.
End Core.
End Core.
