(* ===== verification/CoreFrame.v ===== *)
(** * Frame lemmas of the startd core

    Most statements of a handler do not touch what the invariants speak about:
    they log, persist, advertise, reply.  [erase] forgets the trace, the
    persister and the two slot fields such statements write (the update
    sequence number and the child list); a silent statement is one that [erase]
    cannot see.  Every handler is given by its erased equation, in terms of plain
    field assignments; the invariants are proved from those equations. *)

From S2P Require Import Prelude GoLang ClassAd Claim Slot Persist Persister StarterMsg Reconnect Core.

Import Core.

Local Open Scope Z_scope.
Local Open Scope ep_scope.

Create Rewrite HintDb erase.

Section Frame.
Context {CA : ClassAdLib} {SL : SecurityLib} {RS : Persist.RecordStore}.
Implicit Types (c : Core) (l : loc) (s : Slot.Slot) (env : Env).

Definition quiet_slot s : Slot.Slot := Slot.with_seq 0 (Slot.with_children [] s).

Definition erase c : Core :=
  mkCore (cfg c) (quiet_slot <$> heap c) (nextLoc c) (slots c) (dslots c) (byName c) (dslotSeq c)
    (minter c) (matchCancels c) (aliveCancels c) (nextCtx c) (activations c) (sandboxSeq c)
    (activationGen c) (deferredDeactivate c) (nextChan c) None [].

Lemma erase_idem c : erase (erase c) = erase c.
Proof.
  unfold erase. cbn. f_equal. rewrite <-map_fmap_compose. apply map_fmap_ext. by intros.
Qed.

(** A slot update that does not read the two erased fields. *)
Class Loud (f : Slot.Slot → Slot.Slot) : Prop :=
  loud s : quiet_slot (f s) = f (quiet_slot s).

#[global] Instance loud_state st act n : Loud (Slot.SetStateActivity st act n).
Proof. done. Qed.
#[global] Instance loud_claimState cl st act n : Loud (Slot.SetClaimState cl st act n).
Proof. done. Qed.
#[global] Instance loud_claim cl : Loud (Slot.SetClaim cl).
Proof. done. Qed.
#[global] Instance loud_accept n i : Loud (Slot.AcceptClaim n i).
Proof. done. Qed.
#[global] Instance loud_carve r : Loud (Slot.Carve r).
Proof. done. Qed.
#[global] Instance loud_restore r : Loud (Slot.Restore r).
Proof. done. Qed.
#[global] Instance loud_upd_claim (f : Claim.Claim → Claim.Claim) :
  Loud (λ s, Slot.with_claim (f <$> Slot.claim s) s).
Proof. done. Qed.

Lemma alter_twice (f g : Slot.Slot → Slot.Slot) l (h : gmap loc Slot.Slot) :
  alter f l (alter g l h) = alter (f ∘ g) l h.
Proof. rewrite alter_alter. by rewrite decide_True. Qed.

(** ** Silent statements *)

Lemma erase_emit e c : erase (emit e c) = erase c.
Proof. done. Qed.

Lemma erase_emitAll es c : erase (emitAll es c) = erase c.
Proof. revert c. induction es as [|e es IH]; intros c; simpl; [done|]. by rewrite IH. Qed.

Lemma erase_emitVacate n a m b c : erase (emitVacate n a m b c) = erase c.
Proof. by destruct b. Qed.

Lemma erase_set_pers p c : erase (set_pers p c) = erase c.
Proof. done. Qed.

Lemma erase_persistSlot l c : erase (persistSlot l c) = erase c.
Proof. unfold persistSlot. by repeat case_match. Qed.

Lemma erase_storeDelete n c : erase (storeDelete n c) = erase c.
Proof. unfold storeDelete. by case_match. Qed.

Lemma erase_insert_quiet l s s' c :
  heap c !! l = Some s → quiet_slot s' = quiet_slot s → erase (set_heap (<[l := s']> (heap c)) c) = erase c.
Proof.
  intros H Hq. unfold erase, set_heap. simpl. f_equal.
  rewrite fmap_insert, Hq. apply insert_id. by rewrite lookup_fmap, H.
Qed.

Lemma erase_publicAd env l c : erase (publicAd env l c).2 = erase c.
Proof.
  unfold publicAd. destruct (heap c !! l) as [s|] eqn:E; [|done]. simpl.
  by apply (erase_insert_quiet l s).
Qed.

Lemma erase_advertiseSlot env c l : erase (advertiseSlot env c l) = erase c.
Proof.
  unfold advertiseSlot. pose proof (erase_publicAd env l c) as H.
  destruct (publicAd env l c) as [ad c']. simpl in H.
  case_match; [|done]. by rewrite erase_emitAll.
Qed.

Lemma erase_foldl {A} (f : Core → A → Core) (xs : list A) c :
  (∀ c x, erase (f c x) = erase c) → erase (foldl f c xs) = erase c.
Proof. intros H. revert c. induction xs as [|x xs IH]; intros c; simpl; [done|]. by rewrite IH. Qed.

Lemma erase_Advertise env c : erase (Advertise env c) = erase c.
Proof. unfold Advertise. case_match; [done|]. apply erase_foldl, erase_advertiseSlot. Qed.

Lemma erase_reAdvertise env c : erase (reAdvertise env c) = erase c.
Proof. unfold reAdvertise. case_match; [apply erase_Advertise|done]. Qed.

Lemma erase_InvalidateSlot env s c : erase (InvalidateSlot env s c) = erase c.
Proof. apply erase_emitAll. Qed.

Lemma erase_refresh l c : erase (refreshPSlotChildren l c) = erase c.
Proof.
  unfold refreshPSlotChildren. destruct (heap c !! l) as [s|] eqn:E; [|done].
  unfold erase, updSlot, set_heap. simpl. f_equal. apply map_eq. intros k.
  rewrite !lookup_fmap, lookup_alter. case_decide as Hk; [|done]. rewrite <-Hk, E. reflexivity.
Qed.

Lemma erase_claimedBlock env ev cid l c : erase (claimedBlock env ev cid l c).2 = erase c.
Proof.
  unfold claimedBlock. case_match; [|done]. pose proof (erase_publicAd env l c).
  by destruct (publicAd env l c).
Qed.

Lemma erase_leftoversBlock env ev cid l c : erase (leftoversBlock env ev cid l c).2 = erase c.
Proof.
  unfold leftoversBlock. case_match; [|done]. pose proof (erase_publicAd env l c).
  by destruct (publicAd env l c).
Qed.

Lemma erase_rejectClaim ev c : erase (rejectClaim ev c) = erase c.
Proof. done. Qed.

Lemma erase_rejectActivate r c : erase (rejectActivate r c) = erase c.
Proof. done. Qed.

(** ** Assignments *)

Lemma erase_updSlot l f c : Loud f → erase (updSlot l f c) = updSlot l f (erase c).
Proof.
  intros Hf. unfold erase, updSlot, set_heap. simpl. f_equal. apply map_eq. intros k.
  rewrite lookup_fmap, !lookup_alter, !lookup_fmap. case_decide; [|done].
  destruct (heap c !! l); simpl; [|done]. by rewrite Hf.
Qed.

Lemma erase_updClaim l f c : erase (updClaim l f c) = updClaim l f (erase c).
Proof. apply erase_updSlot. apply _. Qed.

Lemma erase_set_registry n ds bn c : erase (set_registry n ds bn c) = set_registry n ds bn (erase c).
Proof. done. Qed.
Lemma erase_set_dslotSeq n c : erase (set_dslotSeq n c) = set_dslotSeq n (erase c).
Proof. done. Qed.
Lemma erase_set_minter m c : erase (set_minter m c) = set_minter m (erase c).
Proof. done. Qed.
Lemma erase_set_cancels a b n c : erase (set_cancels a b n c) = set_cancels a b n (erase c).
Proof. done. Qed.
Lemma erase_set_activations a c : erase (set_activations a c) = set_activations a (erase c).
Proof. done. Qed.
Lemma erase_set_seqs a b n c : erase (set_seqs a b n c) = set_seqs a b n (erase c).
Proof. done. Qed.
Lemma erase_set_deferred d n c : erase (set_deferred d n c) = set_deferred d n (erase c).
Proof. done. Qed.

Lemma erase_addDSlot d c : erase (addDSlot d c) = addDSlot (quiet_slot d) (erase c).
Proof. unfold addDSlot, erase, set_heap, set_registry. simpl. by rewrite fmap_insert. Qed.

Lemma nameIs_erase n c l : nameIs n (erase c) l = nameIs n c l.
Proof. unfold nameIs. simpl. rewrite lookup_fmap. by destruct (heap c !! l). Qed.

Lemma erase_removeDSlot n c : erase (removeDSlot n c) = removeDSlot n (erase c).
Proof.
  unfold removeDSlot. rewrite erase_set_registry. f_equal. simpl.
  induction (dslots c) as [|l ds IH]; simpl; [done|]. rewrite nameIs_erase. by rewrite IH.
Qed.

Lemma erase_unclaimSlot env l c : erase (unclaimSlot env l c) = unclaimSlot env l (erase c).
Proof.
  unfold unclaimSlot. change (minter (erase c)) with (minter c). destruct (minter c) as [m|]; [|by apply erase_updSlot].
  destruct (Claim.Mint m) as [m' [fresh|]]; by rewrite erase_updSlot.
Qed.

Lemma erase_cancelMatchTimer n c :
  erase (cancelMatchTimer n c)
  = set_cancels (delete n (matchCancels (erase c))) (aliveCancels (erase c)) (nextCtx (erase c)) (erase c).
Proof.
  unfold cancelMatchTimer. destruct (matchCancels c !! n) eqn:E; [done|].
  cbn [erase matchCancels]. rewrite delete_id by done. by destruct c.
Qed.

Lemma erase_cancelAlive n c :
  erase (cancelAlive n c)
  = set_cancels (matchCancels (erase c)) (delete n (aliveCancels (erase c))) (nextCtx (erase c)) (erase c).
Proof.
  unfold cancelAlive. destruct (aliveCancels c !! n) eqn:E; [done|].
  cbn [erase aliveCancels]. rewrite delete_id by done. by destruct c.
Qed.

Lemma erase_startMatchTimer n id c :
  erase (startMatchTimer n id c)
  = set_cancels (<[n := nextCtx (erase c)]> (matchCancels (erase c))) (aliveCancels (erase c))
      (S (nextCtx (erase c))) (erase c).
Proof. unfold startMatchTimer. by destruct (matchCancels c !! n). Qed.

Lemma erase_startAliveLoop l c s cl :
  heap (erase c) !! l = Some s → Slot.claim s = Some cl →
  erase (startAliveLoop l c)
  = set_cancels (matchCancels (erase c)) (<[Slot.Name s := nextCtx (erase c)]> (aliveCancels (erase c)))
      (S (nextCtx (erase c))) (erase c).
Proof.
  cbn [erase heap]. rewrite lookup_fmap. intros H1 H2. unfold startAliveLoop.
  destruct (heap c !! l) as [s'|]; [|done]. simpl in H1. simplify_eq. cbn in H2. by rewrite H2.
Qed.

Lemma erase_killActivation n c :
  erase (killActivation n c) = set_activations (delete n (activations (erase c))) (erase c).
Proof.
  unfold killActivation. destruct (activations c !! n) as [act|] eqn:E.
  - unfold vacateSend. destruct (vacateCh act), (starterCmd act); done.
  - cbn [erase activations]. rewrite delete_id by done. by destruct c.
Qed.

Lemma erase_releaseDeferred n c :
  erase (releaseDeferredDeactivate n c)
  = set_deferred (delete n (deferredDeactivate (erase c))) (nextChan (erase c)) (erase c).
Proof.
  unfold releaseDeferredDeactivate. destruct (deferredDeactivate c !! n) eqn:E; [done|].
  cbn [erase deferredDeactivate]. rewrite delete_id by done. by destruct c.
Qed.

(** ** Observations *)

Lemma heap_erase c l : heap (erase c) !! l = quiet_slot <$> heap c !! l.
Proof. apply lookup_fmap. Qed.

Lemma lookupName_Some n c l s :
  lookupName n c = Some (l, s) ↔ byName c !! n = Some l ∧ heap c !! l = Some s.
Proof.
  unfold lookupName, deref. destruct (byName c !! n) as [l'|] eqn:E.
  - destruct (heap c !! l') as [s'|] eqn:E'.
    + split; [by intros [= -> ->]|]. intros [[= ->] H]. by simplify_eq.
    + split; [done|]. intros [[= ->] H]. by simplify_eq.
  - split; [done|]. by intros [? _].
Qed.

Lemma findSlotByClaimID_Some id c l s :
  findSlotByClaimID id c = Some (l, s) →
  l ∈ LiveSlots c ∧ heap c !! l = Some s ∧ ∃ cl, Slot.claim s = Some cl ∧ Claim.claimID cl = id.
Proof.
  unfold findSlotByClaimID. intros (l' & Hin & H)%find_map_Some.
  destruct (heap c !! l') as [s'|] eqn:E; [|done].
  destruct (Slot.claim s') as [cl|] eqn:Ecl; [|done].
  case_bool_decide; [|done]. simplify_eq. eauto 10.
Qed.

Lemma findSlotByClaimID_None id c :
  findSlotByClaimID id c = None →
  ∀ l s cl, l ∈ LiveSlots c → heap c !! l = Some s → Slot.claim s = Some cl → Claim.claimID cl ≠ id.
Proof.
  unfold findSlotByClaimID. rewrite find_map_None. intros H l s cl Hin Hl Hcl Heq.
  specialize (H l Hin). rewrite Hl, Hcl, bool_decide_true in H by done. done.
Qed.
End Frame.

#[export] Hint Rewrite @erase_emit @erase_emitAll @erase_emitVacate @erase_set_pers @erase_persistSlot
  @erase_storeDelete @erase_publicAd @erase_Advertise @erase_reAdvertise @erase_InvalidateSlot
  @erase_refresh @erase_claimedBlock @erase_leftoversBlock @erase_rejectClaim @erase_rejectActivate
  @erase_updClaim @erase_set_registry @erase_set_dslotSeq @erase_set_minter @erase_set_cancels
  @erase_set_activations @erase_set_seqs @erase_set_deferred @erase_addDSlot @erase_removeDSlot
  @erase_unclaimSlot @erase_cancelMatchTimer @erase_cancelAlive @erase_startMatchTimer
  @erase_killActivation @erase_releaseDeferred : erase.
#[export] Hint Rewrite @erase_updSlot using (typeclasses eauto) : erase.
