(* ===== verification/CoreDemo.v ===== *)
(** * A small execution point for the witnesses

    An eight-core machine with one partitionable slot, on the reference ClassAd,
    security and collection implementations: the startd core as it starts, after
    one REQUEST_CLAIM that carves two cores, and after ACTIVATE_CLAIM. *)

From S2P Require Import Prelude GoLang ClassAd Claim Slot SlotFacts Persist Persister StarterMsg Reconnect.
From S2P Require Import Core.

Import Core RefClassAd RefSecurity.

Local Open Scope Z_scope.

#[export] Instance demoRS : Persist.RecordStore := Persist.storeRecords Persist.refColl.

(** An empty claim store. *)
Definition demoRStore : Persist.rstore (RecordStore := demoRS) := demoStore.

Definition demoTotal : Slot.Resources := Slot.mkRes 8 16000 100000.

Definition demoOpts : CoreConfig :=
  mkCoreConfig true 0 0 0 "/execute" 0 "" "" "goroutine" "" "" 0 0.

Definition demoConfig : Config :=
  λ k, if bool_decide (k = "EP_PARTITIONABLE_SLOT") then Some "true" else None.

(** Two static slots instead of the p-slot. *)
Definition demoStaticConfig : Config :=
  λ k, if bool_decide (k = "NUM_SLOTS") then Some "2" else None.

Definition demoEnv : Env :=
  mkEnv (5 * Second) demoHost 42 ["collector"] (λ _, true) (λ _, Some 99) (λ s, s) (λ _, None)
    (λ l, l) (λ l, l).

Definition demoMinter : Claim.Minter := Claim.NewMinter "<h:1>" 7.

Definition demoSlots (cf : Config) : list Slot.Slot :=
  Slot.BuildSlots demoHost cf "h" "<h:1>" demoTotal 0.

Definition demo0 : Core := New demoOpts (demoSlots demoConfig) (Some demoMinter) (Some demoRStore).

Definition demoStatic0 : Core :=
  New demoOpts (demoSlots demoStaticConfig) (Some demoMinter) (Some demoRStore).

Definition demoJob : ClassAd :=
  lits [("RequestCpus", VInt 2); ("RequestMemory", VInt 1000); ("RequestDisk", VInt 10);
        ("JobUniverse", VInt 5); ("User", VString "alice");
        ("_condor_SEND_CLAIMED_AD", VBool true); ("_condor_SEND_LEFTOVERS", VBool true)].

Definition demoRequest (id : string) : evRequestClaim := mkRequestClaim id demoJob "<s:1>" 300 "sub" 3%nat.

(** The p-slot's first claim id, and the id of the dynamic slot carved with it. *)
Definition pslotID : string := "<h:1>#7#1#secret".
Definition dslotID : string := "<h:1>#7#2#secret".

Definition demo1 : Core := handle demoEnv (EvRequestClaim (demoRequest pslotID)) demo0.
Definition demo2 : Core := handle demoEnv (EvActivateClaim dslotID demoJob 4%nat) demo1.

(** The whole life of a dynamic slot. *)
Lemma demo1_carved :
  (Slot.Res <$> (snd <$> lookupName "slot1@h" demo1)) = Some (Slot.mkRes 6 15000 99990) ∧
  (Slot.Res <$> (snd <$> lookupName "slot1_1@h" demo1)) = Some (Slot.mkRes 2 1000 10) ∧
  length (LiveSlots demo1) = 2%nat.
Proof. vm_compute. done. Qed.

Lemma demo2_busy :
  (Slot.activity <$> (snd <$> lookupName "slot1_1@h" demo2)) = Some "Busy" ∧
  (sandbox <$> activations demo2 !! "slot1_1@h") = Some "/execute/dir_42_slot1_1".
Proof. vm_compute. done. Qed.
