(* ===== verification/Supervisor.v ===== *)
(** * The starter's supervisor (superviseStarter and reapStarter of internal/startd/activate.go)

    One goroutine per activation owns the startd's end of the control channel: it sends
    the activation (or, for a surviving starter, Reattach), hands over the connection to
    the shadow, and turns the starter's messages into events of the loop.  Its [select]
    is a list of what it finds.  The last theorem follows an outcome from the starter's
    run through this channel into the claim. *)

From S2P Require Import Prelude GoLang ClassAd Claim Slot Persist Persister StarterMsg Reconnect Args AdWire.
From S2P Require Import StarterEnv Exec Transfer Starter StarterProto StarterFacts Core CoreFrame CoreDemo.

Import Core.

Local Open Scope Z_scope.
Local Open Scope ep_scope.

Module Supervisor.
Section Sup.
Context {CA : ClassAdLib} {SL : SecurityLib} {RS : Persist.RecordStore}.

(** What the supervisor does. *)
Inductive action :=
| Connect
| WriteMessage (typ : Z) (ad : option ClassAd)
| FinishActivation
| ReleaseSyscallConn
| SubmitEv (ev : Event).

(** [io h a]: the error of [a] after the actions [h]. *)
Definition io_oracle := list action → action → err.

(** What its [select] finds: a vacate to relay, a message (or that the channel was
    closed), or the end of the activation's context. *)
Inductive sel := SelVacate (typ : Z) | SelMsg (m : option (Z * ClassAd)) | SelCtx.

(** Returned, or still in the loop. *)
Inductive status := Returned | Waiting.

(** The event for a message; Exited ends the loop and other types are only logged. *)
Definition eventOf (slotName : string) (typ : Z) (ad : ClassAd) : option Event :=
  if typ =? StarterMsg.MsgHello then
    let h := StarterMsg.ParseHello ad in
    Some (EvStarterHello slotName (StarterMsg.h_StarterAddr h) (StarterMsg.h_StarterPid h) (StarterMsg.h_JobPid h))
  else if typ =? StarterMsg.MsgUpdate then Some (EvStarterUpdate slotName (Some ad))
  else if typ =? StarterMsg.MsgFinal then
    let '(fad, status, reason) := StarterMsg.ParseFinal ad in Some (EvStarterFinal slotName (Some fad) status reason)
  else None.

Definition submitted (e : option Event) : list action := match e with Some ev => [SubmitEv ev] | None => [] end.

Fixpoint superviseLoop (slotName : string) (released : bool) (sels : list sel) : list action * status :=
  match sels with
  | [] => ([], Waiting)
  | SelVacate typ :: sels =>
      let '(l, r) := superviseLoop slotName released sels in (WriteMessage typ None :: l, r)
  | SelMsg None :: _ => ([SubmitEv (EvStarterExited slotName)], Returned)
  | SelMsg (Some (typ, ad)) :: sels =>
      let rel := if released then [] else [ReleaseSyscallConn] in
      if typ =? StarterMsg.MsgExited then (rel ++ [SubmitEv (EvStarterExited slotName)], Returned)
      else let '(l, r) := superviseLoop slotName true sels in (rel ++ submitted (eventOf slotName typ ad) ++ l, r)
  | SelCtx :: _ => ([SubmitEv (EvStarterExited slotName)], Returned)
  end.

Definition superviseStarter (io : io_oracle) (slotName : string) (activateAd : ClassAd) (reattach : bool) (sels : list sel)
    : list action * status :=
  let giveUp := if reattach then EvAdoptFailed slotName else EvStarterExited slotName in
  match io [] Connect with
  | Some _ => ([Connect; SubmitEv giveUp], Returned)
  | None =>
      if reattach then
        let w := WriteMessage StarterMsg.MsgReattach None in
        match io [Connect] w with
        | Some _ => ([Connect; w; SubmitEv giveUp], Returned)
        | None => let '(l, r) := superviseLoop slotName false sels in ([Connect; w] ++ l, r)
        end
      else
        let w := WriteMessage StarterMsg.MsgActivate (Some activateAd) in
        match io [Connect] w with
        | Some _ => ([Connect; w; SubmitEv (EvStarterExited slotName)], Returned)
        | None =>
            match io [Connect; w] FinishActivation with
            | Some _ => ([Connect; w; FinishActivation; SubmitEv (EvStarterExited slotName)], Returned)
            | None => let '(l, r) := superviseLoop slotName false sels in ([Connect; w; FinishActivation] ++ l, r)
            end
        end
  end.

(** [reapStarter], once the process was waited for. *)
Definition reapStarter (slotName : string) : list action := [SubmitEv (EvStarterExited slotName)].

(** ** What it reports *)

Definition submits (l : list action) : list Event := omap (λ a, match a with SubmitEv ev => Some ev | _ => None end) l.
Definition releases (l : list action) : nat :=
  length (omap (λ a, match a with ReleaseSyscallConn => Some tt | _ => None end) l).
Definition writes (l : list action) : list (Z * option ClassAd) :=
  omap (λ a, match a with WriteMessage typ ad => Some (typ, ad) | _ => None end) l.

(** The messages it takes before the loop ends, whether it ends, and the vacates on the
    way. *)
Fixpoint heard (sels : list sel) : list (Z * ClassAd) * bool :=
  match sels with
  | [] => ([], false)
  | SelVacate _ :: sels => heard sels
  | SelMsg None :: _ | SelCtx :: _ => ([], true)
  | SelMsg (Some (typ, ad)) :: sels =>
      if typ =? StarterMsg.MsgExited then ([], true) else ((typ, ad) :: (heard sels).1, (heard sels).2)
  end.

Definition ending (b : bool) : status := if b then Returned else Waiting.

Lemma submits_app l k : submits (l ++ k) = submits l ++ submits k.
Proof. apply omap_app. Qed.

Lemma loop_submits slotName released sels :
  let '(l, r) := superviseLoop slotName released sels in
  submits l = omap (λ m, eventOf slotName m.1 m.2) (heard sels).1 ++ (if (heard sels).2 then [EvStarterExited slotName] else []) ∧
  r = ending (heard sels).2.
Proof.
  revert released. induction sels as [|[typ|[[typ ad]|]|] sels IH]; intros released; cbn; try done.
  - specialize (IH released). by destruct (superviseLoop slotName released sels).
  - destruct (typ =? StarterMsg.MsgExited) eqn:E; cbn; [by destruct released|].
    specialize (IH true). destruct (superviseLoop slotName true sels) as [l r]. destruct IH as [IH ->].
    split; [|done]. rewrite !submits_app, IH. cbn. destruct released; cbn; by destruct (eventOf slotName typ ad).
Qed.

Lemma loop_releases slotName released sels :
  (releases (superviseLoop slotName released sels).1 ≤ (if released then 0 else 1))%nat.
Proof.
  revert released. induction sels as [|[typ|[[typ ad]|]|] sels IH]; intros released; cbn; try (destruct released; cbn; lia).
  - specialize (IH released). by destruct (superviseLoop slotName released sels).
  - destruct (typ =? StarterMsg.MsgExited); cbn; [destruct released; cbn; lia|].
    specialize (IH true). destruct (superviseLoop slotName true sels) as [l r]. cbn in *. unfold releases in *.
    rewrite !omap_app, !length_app. destruct released, (eventOf slotName typ ad); cbn; lia.
Qed.

(** The events that end an activation. *)
Definition lastWord (ev : Event) : bool := match ev with EvStarterExited _ | EvAdoptFailed _ => true | _ => false end.

Lemma eventOf_not_last slotName typ ad ev : eventOf slotName typ ad = Some ev → lastWord ev = false.
Proof. unfold eventOf. repeat case_match; intros; by simplify_eq. Qed.

(** C15: the supervisor's account.  Whatever fails, the supervisor that returns has submitted
    exactly one event that ends the activation, as its last: starter-exited, or
    adopt-failed when a surviving starter could not be reached.  Everything it submitted
    before is the starter's messages, each turned into its event, in the order they came.
    It lets go of its copy of the shadow's connection at most once. *)
Theorem supervisor_reports io slotName activateAd reattach sels :
  let '(l, r) := superviseStarter io slotName activateAd reattach sels in
  (releases l ≤ 1)%nat ∧
  ((r = Returned ∧ submits l = [if reattach then EvAdoptFailed slotName else EvStarterExited slotName] ∧ releases l = 0%nat) ∨
   (r = ending (heard sels).2 ∧
    submits l = omap (λ m, eventOf slotName m.1 m.2) (heard sels).1 ++ (if (heard sels).2 then [EvStarterExited slotName] else []) ∧
    Forall (λ ev, lastWord ev = false) (omap (λ m, eventOf slotName m.1 m.2) (heard sels).1))).
Proof.
  assert (Forall (λ ev, lastWord ev = false) (omap (λ m, eventOf slotName m.1 m.2) (heard sels).1)) as Hf.
  { apply Forall_forall. intros ev (m & _ & Hm)%list_elem_of_omap. by eapply eventOf_not_last. }
  pose proof (loop_submits slotName false sels) as Hs. pose proof (loop_releases slotName false sels) as Hr.
  unfold superviseStarter. destruct (io [] Connect); [split; [cbn; lia|by left]|]. destruct reattach.
  - destruct (io _ _); [split; [cbn; lia|by left]|]. destruct (superviseLoop slotName false sels) as [l r].
    destruct Hs as [Hs ->]. split; [done|]. right. by split_and!.
  - destruct (io _ _); [split; [cbn; lia|by left]|]. destruct (io _ _); [split; [cbn; lia|by left]|].
    destruct (superviseLoop slotName false sels) as [l r].
    destruct Hs as [Hs ->]. split; [done|]. right. by split_and!.
Qed.

(** ** Into the claim *)

(** The claim of the slot of a name. *)
Definition claimAt (n : string) (c : Core) : option Claim.Claim :=
  match byName c !! n with Some l => heap c !! l ≫= Slot.claim | None => None end.

Lemma claimAt_erase n c : claimAt n (erase c) = claimAt n c.
Proof.
  unfold claimAt, erase. cbn. destruct (byName c !! n) as [l|]; [|done]. rewrite lookup_fmap. by destruct (heap c !! l).
Qed.

Lemma claimAt_of_erase n c c' : erase c = erase c' → claimAt n c = claimAt n c'.
Proof. intros H. by rewrite <-(claimAt_erase n c), H, claimAt_erase. Qed.

Lemma acts_of_erase c c' : erase c = erase c' → activations c = activations c'.
Proof. intros H. by apply (f_equal activations) in H. Qed.

Lemma claimAt_lookup n c cl :
  claimAt n c = Some cl → ∃ l s, lookupName n c = Some (l, s) ∧ byName c !! n = Some l ∧ heap c !! l = Some s ∧ Slot.claim s = Some cl.
Proof.
  unfold claimAt, lookupName, deref. destruct (byName c !! n) as [l|]; [|done].
  destruct (heap c !! l) as [s|] eqn:E; [|done]. cbn. intros Hs. exists l, s. by rewrite E.
Qed.

Lemma claimAt_updSlot n c l s f :
  byName c !! n = Some l → heap c !! l = Some s → claimAt n (updSlot l f c) = Slot.claim (f s).
Proof.
  intros Hn Hl. unfold claimAt, updSlot, set_heap. cbn. rewrite Hn. by rewrite lookup_alter_eq, Hl.
Qed.

(** The slot runs a job. *)
Definition busy (n : string) (c : Core) : Prop :=
  (∃ cl, claimAt n c = Some cl ∧ Claim.state cl = Claim.ClaimedBusy) ∧ is_Some (activations c !! n).

Lemma busy_hello n addr pid c : busy n c → busy n (doStarterHello n addr pid c).
Proof.
  intros [Hc [act Ha]]. unfold doStarterHello. rewrite Ha. set (c1 := set_activations _ c).
  assert (busy n c1) as [Hc1 Ha1] by (split; [done|cbn; rewrite lookup_insert_eq; eauto]).
  destruct (_ || _); [|done]. destruct (lookupName n c1) as [[l s]|]; [|done].
  pose proof (erase_persistSlot l c1) as He. split.
  - by rewrite (claimAt_of_erase n _ c1 He).
  - by rewrite (acts_of_erase _ c1 He).
Qed.

Lemma busy_updClaim n c f l s cl :
  lookupName n c = Some (l, s) → byName c !! n = Some l → heap c !! l = Some s → Slot.claim s = Some cl →
  claimAt n (updClaim l f c) = Some (f cl).
Proof.
  intros _ Hn Hl Hs. unfold updClaim. rewrite (claimAt_updSlot n c l s) by done. cbn. by rewrite Hs.
Qed.

Lemma busy_update n ad c : busy n c → busy n (doStarterUpdate n ad c).
Proof.
  intros [(cl & Hc & Hst) Ha]. destruct (claimAt_lookup n c cl Hc) as (l & s & Hlk & Hn & Hl & Hs).
  unfold doStarterUpdate. rewrite Hlk, Hs, Hst. cbn. split; [|done].
  exists (Claim.SetUpdateAd ad cl). split; [by eapply busy_updClaim|done].
Qed.

Lemma final_recorded n ad status reason c :
  busy n c →
  is_Some (activations (doStarterFinal n ad status reason c) !! n) ∧
  ∃ cl, claimAt n (doStarterFinal n ad status reason c) = Some cl ∧ Claim.state cl = Claim.ClaimedBusy ∧
        Claim.Final cl = (ad, status, reason).
Proof.
  intros [(cl & Hc & Hst) Ha]. destruct (claimAt_lookup n c cl Hc) as (l & s & Hlk & Hn & Hl & Hs).
  unfold doStarterFinal. rewrite Hlk, Hs, Hst. cbn. split; [done|].
  exists (Claim.SetFinal ad status reason cl). split; [by eapply busy_updClaim|done].
Qed.

Lemma exit_idles n env c cl :
  claimAt n c = Some cl → Claim.state cl = Claim.ClaimedBusy → is_Some (activations c !! n) →
  activations (doStarterExited env n c) !! n = None ∧
  ∃ cl', claimAt n (doStarterExited env n c) = Some cl' ∧ Claim.state cl' = Claim.ClaimedIdle ∧ Claim.Final cl' = Claim.Final cl.
Proof.
  intros Hc Hst [act Ha]. unfold doStarterExited. rewrite Ha. set (c1 := releaseDeferredDeactivate n _).
  assert (claimAt n c1 = Some cl ∧ activations c1 !! n = None) as [Hc1 Ha1].
  { subst c1. unfold releaseDeferredDeactivate. case_match; cbn; by rewrite lookup_delete_eq. }
  destruct (claimAt_lookup n c1 cl Hc1) as (l & s & Hlk & Hn & Hl & Hs).
  rewrite Hlk, Hs, bool_decide_true by done.
  set (c2 := setClaimedIdle env l c1).
  assert (erase (reAdvertise env (persistSlot l c2)) = erase c2) as He
    by (by rewrite erase_reAdvertise, erase_persistSlot).
  rewrite (claimAt_of_erase n _ c2 He), (acts_of_erase _ c2 He). split; [done|].
  exists (Claim.SetIdle (now env) cl). split; [|done]. subst c2. unfold setClaimedIdle.
  set (s1 := Slot.with_claim (Claim.SetIdle (now env) <$> Slot.claim s) s).
  rewrite (claimAt_updSlot n (updClaim l (Claim.SetIdle (now env)) c1) l s1); [cbn; by rewrite Hs|done|].
  cbn. by rewrite lookup_alter_eq, Hl.
Qed.

(** ** From the starter's run to the claim *)

(** The messages of a run, as the reader sees them: no ad is an empty one. *)
Definition delivered {ML : MessageLib} (h : list obs) : list (Z * ClassAd) :=
  (λ m : Z * option ClassAd, (m.1, default adNew m.2)) <$> StarterFacts.ctrlMsgs h.

(** The [select] finds the messages in order, vacates in between, and anything after. *)
Inductive relays : list (Z * ClassAd) → list sel → Prop :=
| relays_done sels : relays [] sels
| relays_vacate ms typ sels : relays ms sels → relays ms (SelVacate typ :: sels)
| relays_msg m ms sels : relays ms sels → relays (m :: ms) (SelMsg (Some m) :: sels).

Lemma heard_relays ms ad sels :
  Forall (λ m : Z * ClassAd, m.1 ≠ StarterMsg.MsgExited) ms → relays (ms ++ [(StarterMsg.MsgExited, ad)]) sels →
  heard sels = (ms, true).
Proof.
  intros Hms Hr. remember (ms ++ [(StarterMsg.MsgExited, ad)]) as k eqn:Ek. revert ms Hms Ek.
  induction Hr as [sels|k typ sels Hr IH|m k sels Hr IH]; intros ms Hms Ek.
  - by destruct ms.
  - cbn. by apply IH.
  - destruct ms as [|m' ms]; simplify_eq/=; [done|]. inversion Hms as [|? ? Hm Hms']; subst.
    destruct m' as [typ ad']. cbn in Hm |- *. rewrite (proj2 (Z.eqb_neq _ _) Hm). by rewrite (IH ms).
Qed.

Definition runEvents (env : Env) (evs : list Event) (c : Core) : Core := foldl (λ c ev, handle env ev c) c evs.

Lemma busy_progress n env ms c :
  Forall (λ m : Z * ClassAd, m.1 = StarterMsg.MsgHello ∨ m.1 = StarterMsg.MsgUpdate) ms → busy n c →
  busy n (runEvents env (omap (λ m, eventOf n m.1 m.2) ms) c).
Proof.
  intros Hms. revert c. induction Hms as [|[typ ad] ms Hm Hms IH]; intros c Hb; [done|].
  rewrite omap_cons. cbn [fst snd]. destruct (eventOf n typ ad) as [ev|] eqn:E; [|by apply IH].
  cbn. apply IH. cbn in Hm. unfold eventOf in E. destruct Hm as [->| ->]; cbn in E; simplify_eq.
  - by apply busy_hello.
  - by apply busy_update.
Qed.

(** C14: the outcome of a run reaches the claim.  Let a starter's run return after it sent
    anything, let its messages reach the supervisor in order, with vacates relayed in
    between, and let the loop handle what the supervisor submits while the slot runs the
    job.  Then the supervisor has returned, the activation is gone, and the claim is
    idle and holds exactly the status and reason that the run reported to the shadow
    and to the exit marker. *)
Theorem outcome_reaches_claim {ML : MessageLib} (laws : ClassAdLaws CA)
    quote JobKilled JobCoredumped getpid order errFirst opts rsels oracle s r
    n activateAd reattach sels env c :
  run (Starter.Run quote JobKilled JobCoredumped getpid order errFirst opts rsels) oracle = (s, Ret r) →
  StarterFacts.ctrlMsgs (hist s) ≠ [] → relays (delivered (hist s)) sels → busy n c →
  let '(l, st) := superviseStarter (λ _ _, None) n activateAd reattach sels in
  let c' := runEvents env (submits l) c in
  st = Returned ∧ activations c' !! n = None ∧
  ∃ rep, StarterFacts.told_all opts (hist s) r rep ∧
    ∃ cl fad, claimAt n c' = Some cl ∧ Claim.state cl = Claim.ClaimedIdle ∧
      (int64_range rep.1.1 → int64_range rep.1.2 → Claim.Final cl = (Some fad, rep.1.1, rep.1.2)).
Proof.
  intros Hrun Hne Hrel Hb.
  destruct (StarterFacts.run_outcome _ _ _ _ _ _ _ _ _ _ _ Hrun) as [(Hn & _)|[rep Hrep]]; [done|].
  pose proof Hrep as ((pre & Hpre & Hc) & _).
  unfold delivered in Hrel. rewrite Hc, fmap_app in Hrel. cbn in Hrel.
  set (pm := (λ m : Z * option ClassAd, (m.1, default adNew m.2)) <$> pre) in *.
  set (fm := StarterMsg.MarshalFinal (Some rep.2) rep.1.1 rep.1.2) in *.
  assert (Forall (λ m : Z * ClassAd, m.1 = StarterMsg.MsgHello ∨ m.1 = StarterMsg.MsgUpdate) pm) as Hpm.
  { subst pm. rewrite Forall_fmap. eapply Forall_impl; [exact Hpre|]. by intros [? ?] [?|?]; [left|right]. }
  assert (heard sels = (pm ++ [(StarterMsg.MsgFinal, fm)], true)) as Hh.
  { eapply heard_relays with adNew; [|by rewrite <-app_assoc].
    apply Forall_app. split; [|by constructor]. eapply Forall_impl; [exact Hpm|]. by intros [? ?] [E|E]; cbn in *; rewrite E. }
  pose proof (loop_submits n false sels) as Hs. rewrite Hh in Hs. cbn [fst snd ending] in Hs.
  assert (∃ l, superviseStarter (λ _ _, None) n activateAd reattach sels = (l, Returned) ∧
    submits l = omap (λ m, eventOf n m.1 m.2) (pm ++ [(StarterMsg.MsgFinal, fm)]) ++ [EvStarterExited n]) as (l & -> & ->).
  { unfold superviseStarter. destruct (superviseLoop n false sels) as [l st]. destruct Hs as [Hs ->].
    destruct reattach; eexists; (split; [done|exact Hs]). }
  split; [done|]. unfold runEvents. rewrite omap_app, foldl_app, foldl_app.
  pose proof (busy_progress n env pm c Hpm Hb) as Hb1. unfold runEvents in Hb1. set (c1 := foldl _ c _) in *.
  destruct (StarterMsg.ParseFinal fm) as [[fad status] reason] eqn:Ef.
  assert (omap (λ m, eventOf n m.1 m.2) [(StarterMsg.MsgFinal, fm)] = [EvStarterFinal n (Some fad) status reason]) as ->.
  { rewrite omap_cons. cbn [fst snd]. unfold eventOf. cbn -[StarterMsg.ParseFinal fm]. by rewrite Ef. }
  cbn [foldl handle].
  destruct (final_recorded n (Some fad) status reason c1 Hb1) as (Ha & cl & Hcl & Hst & Hfin).
  destruct (exit_idles n env _ cl Hcl Hst Ha) as (Ha2 & cl2 & Hcl2 & Hst2 & Hfin2).
  split; [done|]. exists rep. split; [done|]. exists cl2, fad. split_and!; [done|done|].
  intros R1 R2. rewrite Hfin2, Hfin. pose proof (StarterMsg.ParseFinal_MarshalFinal (Some rep.2) rep.1.1 rep.1.2 R1 R2) as Hp.
  fold fm in Hp. rewrite Ef in Hp. by simplify_eq.
Qed.
End Sup.
End Supervisor.

(** ** Witness: the shadow is gone before it gives out the job *)

Import RefClassAd RefMessage CoreDemo Supervisor.

Definition lostShadow : Oracle := λ _ e,
  match e with
  | RecvFirst => FirstMsg StarterMsg.MsgActivate (lits [("SandboxDir", VString "/x/d")])
  | SyscallConn => inr 1%nat
  | PutOp _ _ => Some "broken pipe"
  | NewCommandServer _ => inl ""
  | CreateSession _ _ _ _ => None
  | AwaitReplied _ => RepliedTimeout
  | RecvMessage _ => [] : Message
  | GetSecSessionInfo _ => SecDeclined
  | DialTransfer _ _ _ => inl ""
  | ReceiveStream _ => ([], None)
  | Stat _ => inl ""
  | ReadDir _ => None
  | StartProcess _ => inl ""
  | ReapAfterKill => true
  | ProcessState => None
  | Now => 0
  | TransportClose | OnFinal _ _ _ | CloseCommandServer | AckHandoff _ | CloseStream _ | CloseClient _
  | CloseStdio _ | Kill _ _ => tt
  | _ => None
  end.

Definition lostOpts : Starter.Options := Starter.mkOptions "slot1_1@h" "<h:1>#7#2#..." 0 "" "" true false "".

Definition lostRun : St * outcome unit :=
  run (Starter.Run (λ s, s) 102 103 12 (λ l, l) false lostOpts []) lostShadow.

Lemma lostRun_returns : lostRun = (lostRun.1, Ret (Some "starter: get_job_info: writing op: broken pipe")).
Proof. rewrite (surjective_pairing lostRun) at 1. f_equal; vm_compute; reflexivity. Qed.

(** Final, a vacate on its way to the starter, Exited. *)
Definition lostSels : list sel :=
  match delivered (hist lostRun.1) with
  | [f; e] => [SelMsg (Some f); SelVacate StarterMsg.MsgVacateHard; SelMsg (Some e)]
  | _ => []
  end.

Lemma lost_relays : relays (delivered (hist lostRun.1)) lostSels.
Proof.
  unfold lostSels. assert (length (delivered (hist lostRun.1)) = 2%nat) as Hl by (vm_compute; reflexivity).
  destruct (delivered (hist lostRun.1)) as [|f [|e [|]]]; try discriminate Hl. repeat constructor.
Qed.

Lemma lost_sent : StarterFacts.ctrlMsgs (hist lostRun.1) ≠ [].
Proof.
  assert (length (StarterFacts.ctrlMsgs (hist lostRun.1)) = 2%nat) as Hl by (vm_compute; reflexivity).
  by destruct (StarterFacts.ctrlMsgs (hist lostRun.1)).
Qed.

Lemma demo2_is_busy : busy "slot1_1@h" demo2.
Proof.
  split.
  - assert (Claim.state <$> claimAt "slot1_1@h" demo2 = Some Claim.ClaimedBusy) as H by (vm_compute; reflexivity).
    destruct (claimAt "slot1_1@h" demo2) as [cl|]; [|discriminate H]. exists cl. split; [reflexivity|]. by injection H.
  - assert (is_Some (sandbox <$> activations demo2 !! "slot1_1@h")) as H by (vm_compute; eauto).
    by destruct (activations demo2 !! "slot1_1@h"); [eauto|destruct H].
Qed.

Lemma outcome_reaches_claim_witness :
  activations (runEvents demoEnv (submits (superviseStarter (λ _ _, None) "slot1_1@h" adNew false lostSels).1) demo2) !! "slot1_1@h" = None ∧
  ∃ cl, claimAt "slot1_1@h"
          (runEvents demoEnv (submits (superviseStarter (λ _ _, None) "slot1_1@h" adNew false lostSels).1) demo2) = Some cl ∧
        Claim.state cl = Claim.ClaimedIdle.
Proof.
  pose proof (outcome_reaches_claim refLaws (λ s, s) 102 103 12 (λ l, l) false lostOpts [] lostShadow lostRun.1
    (Some "starter: get_job_info: writing op: broken pipe") "slot1_1@h" adNew false lostSels demoEnv demo2
    lostRun_returns lost_sent lost_relays demo2_is_busy) as H.
  destruct (superviseStarter (λ _ _, None) "slot1_1@h" adNew false lostSels) as [l st].
  destruct H as (_ & Ha & rep & _ & cl & fad & Hc & Hs & _). split; [exact Ha|]. exists cl. split; [exact Hc|exact Hs].
Defined.
