(* ===== verification/StarterMain.v ===== *)
(** * The starter program (cmd/starter/main.go)

    The options the flags give, the callback that keeps the outcome, and the exit marker
    file: it is written beside its place and renamed, and a startd that comes back reads
    it.  A file system is a map from paths to contents; [encoding/json] is a parameter. *)

From S2P Require Import Prelude GoLang ClassAd Claim Slot SlotFacts Persist Persister StarterMsg Reconnect AdWire StarterEnv Starter.
From S2P Require Import StarterFacts Core CoreFrame CoreDemo Supervisor.

Import Core.

Local Open Scope Z_scope.
Local Open Scope ep_scope.

Module StarterMain.

(** A file system. *)
Abbreviation fs := (gmap string string).

Section Main.
Context {CA : ClassAdLib}.

(** ** Flags *)

Record flags := mkFlags {
  f_socket : string;
  f_slot : string;
  f_claim : string;
  f_sandbox : string;
  f_updateSecs : Z;
  f_uidDomain : string;
  f_fsDomain : string;
  f_acceptSecs : Z;
  f_gapLeaseSecs : Z;
  f_cmdBind : string
}.

Definition mainOptions (f : flags) : Starter.Options :=
  Starter.mkOptions (f_slot f) (f_claim f) (wrap64 (f_updateSecs f * Second)) (f_uidDomain f) (f_fsDomain f)
    true true (f_cmdBind f).

(** The accept timeout and the gap lease of [ListenStarter]. *)
Definition listenTimes (f : flags) : Duration * Duration :=
  (wrap64 (f_acceptSecs f * Second), wrap64 (f_gapLeaseSecs f * Second)).

(** ** The marker *)

Definition JOB_NOT_STARTED : Z := 108.

(** [OnFinal] keeps the last outcome it is given, at time [tf]; without one the run did
    not start a job. *)
Definition markerOf (tf te : Time) (reports : list (Z * Z * ClassAd)) : exitMarker :=
  match last reports with
  | Some (status, reason, finalAd) => mkExitMarker status reason (adString finalAd) (Unix tf)
  | None => mkExitMarker 0 JOB_NOT_STARTED "" (Unix te)
  end.

(** ** The file system *)

(** [os.WriteFile]: it may fail to open the file, or after some bytes. *)
Inductive wres := WOk | WOpenFailed | WTorn (n : nat).

(** The states it goes through, and whether it succeeds. *)
Definition writeFile (w : wres) (path data : string) (d : fs) : list fs * bool :=
  let upto n := (λ k : nat, <[path := String.substring 0 k data]> d) <$> List.seq 0 (S n) in
  match w with
  | WOk => (upto (String.length data), true)
  | WOpenFailed => ([d], false)
  | WTorn n => (upto (min n (String.length data)), false)
  end.

(** [os.Rename] replaces the target in one step. *)
Definition rename (ok : bool) (from to : string) (d : fs) : fs * bool :=
  match d !! from with
  | Some x => if ok then (<[to := x]> (delete from d), true) else (d, false)
  | None => (d, false)
  end.

(** [json.Marshal] and [json.Unmarshal] of the marker. *)
Context (marshal : exitMarker → option string) (unmarshal : string → option exitMarker).

Definition markerPath (sandbox : string) : string := pathJoin [sandbox; ".exit"].

(** Every state the file system goes through, the last one last; [true] is no error. *)
Definition writeExitMarker (w : wres) (ren : bool) (sandbox : string) (m : exitMarker) (d : fs) : list fs * bool :=
  match marshal m with
  | None => ([d], false)
  | Some data =>
      let path := markerPath sandbox in
      let tmp := path +:+ ".tmp" in
      let '(ds, ok) := writeFile w tmp data d in
      if negb ok then (ds, false)
      else let '(d', ok) := rename ren tmp path (default d (last ds)) in (ds ++ [d'], ok)
  end.

(** [run] after the flags are parsed: [log] and [listen] are the errors of the logger and of
    [ListenStarter], [reports] what [OnFinal] was called with during [starter.Run], which
    returned [runErr].  A failure to write the marker is only logged. *)
Definition run_ (f : flags) (log listen : err) (tf te : Time) (reports : list (Z * Z * ClassAd)) (runErr : err)
    (w : wres) (ren : bool) (d : fs) : list fs * err :=
  if bool_decide (f_socket f = "") then ([d], Some "-socket is required")
  else if bool_decide (f_sandbox f = "") then ([d], Some "-sandbox is required")
  else match log with
       | Some e => ([d], Some ("building logger: " +:+ e))
       | None =>
           match listen with
           | Some e => ([d], Some ("establishing control channel: " +:+ e))
           | None => ((writeExitMarker w ren (f_sandbox f) (markerOf tf te reports) d).1, runErr)
           end
       end.

(** ** The marker is whole or not there *)

Lemma tmp_ne path : path +:+ ".tmp" ≠ path.
Proof. intros H. apply (f_equal String.length) in H. rewrite append_length in H. cbn in H. lia. Qed.

Lemma substring_full data : String.substring 0 (String.length data) data = data.
Proof. induction data as [|a data IH]; cbn; [done|]. by rewrite IH. Qed.

Lemma writeFile_other w path data d x q :
  x ∈ (writeFile w path data d).1 → q ≠ path → x !! q = d !! q.
Proof.
  intros Hx Hq. destruct w; cbn [writeFile fst] in Hx.
  1,3: apply list_elem_of_fmap in Hx as (k & -> & _); by rewrite lookup_insert_ne.
  by apply list_elem_of_singleton in Hx as ->.
Qed.

Lemma writeFile_last path data d : last (writeFile WOk path data d).1 = Some (<[path := data]> d).
Proof.
  cbn [writeFile fst]. rewrite seq_S, fmap_app. cbn [fmap list_fmap Nat.add]. rewrite last_snoc. by rewrite substring_full.
Qed.

Lemma writeExitMarker_states w ren sandbox m d data x q :
  marshal m = Some data → x ∈ (writeExitMarker w ren sandbox m d).1 → q ≠ markerPath sandbox +:+ ".tmp" →
  x !! q = d !! q ∨ (q = markerPath sandbox ∧ x !! q = Some data).
Proof.
  intros Hm. unfold writeExitMarker. rewrite Hm. set (path := markerPath sandbox). cbn zeta.
  pose proof (writeFile_last (path +:+ ".tmp") data d) as Hlast.
  destruct (writeFile w (path +:+ ".tmp") data d) as [ds ok] eqn:Ew.
  assert (∀ x, x ∈ ds → q ≠ path +:+ ".tmp" → x !! q = d !! q) as Hds.
  { intros x' Hx'. apply (writeFile_other w _ data). by rewrite Ew. }
  destruct ok; cbn [negb]; [|intros Hx Hq; left; by apply Hds].
  assert (w = WOk) as -> by (destruct w; cbn in Ew; by simplify_eq).
  rewrite Ew in Hlast. cbn [fst] in Hlast. rewrite Hlast. cbn [from_option]. unfold id, rename. rewrite lookup_insert_eq.
  destruct ren; cbn [fst]; intros [Hx|Hx%list_elem_of_singleton]%elem_of_app Hq; try (left; by apply Hds); subst x.
  - destruct (decide (q = path)) as [->|Hp]; [right; by rewrite lookup_insert_eq|].
    left. rewrite lookup_insert_ne, lookup_delete_ne by done. by rewrite lookup_insert_ne.
  - left. by rewrite lookup_insert_ne.
Qed.

Lemma writeExitMarker_ok w ren sandbox m d ds :
  writeExitMarker w ren sandbox m d = (ds, true) →
  ∃ data d', marshal m = Some data ∧ last ds = Some d' ∧ d' !! markerPath sandbox = Some data.
Proof.
  unfold writeExitMarker. destruct (marshal m) as [data|]; [|done]. set (path := markerPath sandbox). cbn zeta.
  pose proof (writeFile_last (path +:+ ".tmp") data d) as Hlast.
  destruct (writeFile w (path +:+ ".tmp") data d) as [ds' ok] eqn:Ew. destruct ok; cbn [negb]; [|done].
  assert (w = WOk) as -> by (destruct w; cbn in Ew; by simplify_eq).
  rewrite Ew in Hlast. cbn [fst] in Hlast. rewrite Hlast. cbn [from_option]. unfold id, rename. rewrite lookup_insert_eq.
  destruct ren; intros [= <-]. exists data, (<[path := data]> (delete (path +:+ ".tmp") (<[path +:+ ".tmp" := data]> d))).
  split_and!; [done|by rewrite last_snoc|by rewrite lookup_insert_eq].
Qed.

(** C40: the exit marker is whole or not there.  At every moment of writing it, and
    whatever write fails or is cut short, the marker file is what it was before or the
    complete marker, no other file but the temporary one is touched, and when the
    function returns without error the marker is there. *)
Theorem exit_marker_atomic w ren sandbox m d data :
  marshal m = Some data →
  (∀ x q, x ∈ (writeExitMarker w ren sandbox m d).1 → q ≠ markerPath sandbox +:+ ".tmp" →
     x !! q = d !! q ∨ (q = markerPath sandbox ∧ x !! q = Some data)) ∧
  (∀ ds, writeExitMarker w ren sandbox m d = (ds, true) →
     ∃ d', last ds = Some d' ∧ d' !! markerPath sandbox = Some data).
Proof.
  intros Hm. split; [intros x q Hx Hq; by eapply writeExitMarker_states|].
  intros ds (data' & d' & Hd & Hl & Hp)%writeExitMarker_ok. rewrite Hm in Hd. simplify_eq. eauto.
Qed.

(** ** A restarted startd reads the outcome *)

Context {SL : SecurityLib} {RS : Persist.RecordStore} {ML : MessageLib}.

(** The startd finds the file system [d]. *)
Definition sees (env : Env) (d : fs) : Prop := ∀ p, readExit env p = d !! p ≫= unmarshal.

Lemma adopt_failed_applies env n c act m :
  Supervisor.busy n c → activations c !! n = Some act → readExitMarker env (sandbox act) = Some m →
  activations (doAdoptFailed env n c) !! n = None ∧
  ∃ cl, Supervisor.claimAt n (doAdoptFailed env n c) = Some cl ∧ Claim.state cl = Claim.ClaimedIdle ∧
    Claim.Final cl = (if bool_decide (FinalAd m = "") then None else adParse (FinalAd m), WaitpidStatus m, Reason m).
Proof.
  intros [(cl & Hc & Hst) _] Ha Hm. destruct (Supervisor.claimAt_lookup n c cl Hc) as (l & s & Hlk & Hn & Hl & Hs).
  unfold doAdoptFailed. rewrite Ha, Hlk, Hm, Hs, bool_decide_true by done. cbn zeta.
  set (fad := if bool_decide (FinalAd m = "") then None else adParse (FinalAd m)).
  set (c1 := emit _ _). set (c2 := setClaimedIdle env l (updClaim l (Claim.SetFinal fad (WaitpidStatus m) (Reason m)) c1)).
  assert (erase (reAdvertise env (persistSlot l c2)) = erase c2) as He by (by rewrite erase_reAdvertise, erase_persistSlot).
  rewrite (Supervisor.claimAt_of_erase n _ c2 He), (Supervisor.acts_of_erase _ c2 He).
  split; [subst c2 c1; cbn; apply lookup_delete_eq|].
  exists (Claim.SetIdle (now env) (Claim.SetFinal fad (WaitpidStatus m) (Reason m) cl)). split_and!; [|done..].
  subst c2. unfold setClaimedIdle.
  set (cF := updClaim l (Claim.SetFinal fad (WaitpidStatus m) (Reason m)) c1).
  set (s1 := Slot.with_claim (Claim.SetFinal fad (WaitpidStatus m) (Reason m) <$> Slot.claim s) s).
  assert (heap cF !! l = Some s1) as HF by (cbn; rewrite lookup_alter_eq; by rewrite Hl).
  set (s2 := Slot.with_claim (Claim.SetIdle (now env) <$> Slot.claim s1) s1).
  rewrite (Supervisor.claimAt_updSlot n (updClaim l (Claim.SetIdle (now env)) cF) l s2); [|done|].
  - cbn. by rewrite Hs.
  - unfold updClaim at 1. unfold updSlot. cbn -[alter cF]. rewrite lookup_alter_eq. by rewrite HF.
Qed.

(** C13: an outcome survives a restart of the startd.  Let the starter's run return while
    no startd listens, let it write the marker without error, and let a startd that
    re-adopted the busy slot find the starter gone and that file system.  Then the
    activation is dropped, and the claim is idle and holds the status and reason the run
    reported, or JOB_NOT_STARTED when it reported nothing; when the run failed it is
    JOB_NOT_STARTED in both cases. *)
Theorem outcome_survives_restart quote JobKilled JobCoredumped getpid order errFirst f sels oracle s r
    tf te w ren d ds d' env n c act :
  run (Starter.Run quote JobKilled JobCoredumped getpid order errFirst (mainOptions f) sels) oracle = (s, Ret r) →
  let m := markerOf tf te (StarterFacts.marks (hist s)) in
  unmarshal <$> marshal m = Some (Some m) →
  writeExitMarker w ren (f_sandbox f) m d = (ds, true) → last ds = Some d' →
  f_sandbox f ≠ "" → sees env d' → Supervisor.busy n c → activations c !! n = Some act → sandbox act = f_sandbox f →
  let c' := doAdoptFailed env n c in
  activations c' !! n = None ∧
  ∃ cl fad status reason, Supervisor.claimAt n c' = Some cl ∧ Claim.state cl = Claim.ClaimedIdle ∧
    Claim.Final cl = (fad, status, reason) ∧ (r ≠ None → reason = JOB_NOT_STARTED) ∧
    (StarterFacts.told_nothing (hist s) r ∧ status = 0 ∧ reason = JOB_NOT_STARTED ∨
     ∃ rep, StarterFacts.told_all (mainOptions f) (hist s) r rep ∧ (status, reason) = rep.1).
Proof.
  intros Hrun m Hj Hw Hlast Hsb Hsees Hb Ha Hact. cbn zeta.
  destruct (writeExitMarker_ok _ _ _ _ _ _ Hw) as (data & d2 & Hm & Hl2 & Hp). rewrite Hlast in Hl2. simplify_eq.
  assert (readExitMarker env (sandbox act) = Some m) as Hread.
  { unfold readExitMarker. rewrite Hact, bool_decide_false by done. rewrite (Hsees _).
    unfold markerPath in Hp. rewrite Hp. cbn. rewrite Hm in Hj. by injection Hj. }
  destruct (adopt_failed_applies env n c act m Hb Ha Hread) as (H1 & cl & H2 & H3 & H4).
  split; [done|]. exists cl. do 3 eexists. split; [exact H2|]. split; [exact H3|]. split; [exact H4|].
  subst m. unfold markerOf.
  destruct (StarterFacts.run_outcome _ _ _ _ _ _ _ _ _ _ _ Hrun) as [Hn|[rep Hrep]].
  - pose proof Hn as (_ & _ & -> & _). cbn. split; [done|]. by left.
  - pose proof Hrep as (_ & Hmk & _ & Hr). rewrite Hmk. cbn. destruct rep as [[st re] ad]. cbn in Hr |- *. split.
    + intros Hne. by injection (Hr Hne).
    + right. by exists (st, re, ad).
Qed.
End Main.
End StarterMain.

(** ** Witnesses: a starter that lost its shadow, read by the next startd *)

Import RefClassAd RefMessage CoreDemo Supervisor StarterMain.

Definition demoFlags : flags := mkFlags "/s/x.sock" "slot1_1@h" "<h:1>#7#2#..." "/execute/dir_42_slot1_1" 0 "" "" 30 1200 "".

Definition afterRun : St * outcome unit :=
  run (Starter.Run (λ s, s) 102 103 12 (λ l, l) false (mainOptions demoFlags) []) lostShadow.

Lemma afterRun_returns : afterRun = (afterRun.1, Ret (Some "starter: get_job_info: writing op: broken pipe")).
Proof. rewrite (surjective_pairing afterRun) at 1. f_equal; vm_compute; reflexivity. Qed.

Definition demoMarker : exitMarker := markerOf 0 0 (StarterFacts.marks (hist afterRun.1)).
Definition demoJson (m : exitMarker) : option string := Some "{}".
Definition demoUnjson (s : string) : option exitMarker := if bool_decide (s = "{}") then Some demoMarker else None.

Definition markerEnv (d : fs) : Env :=
  mkEnv 0 demoHost 42 [] (λ _, true) (λ _, None) (λ s, s) (λ p, d !! p ≫= demoUnjson) (λ l, l) (λ l, l).

Lemma exit_marker_atomic_witness :
  ∃ d', last (writeExitMarker demoJson WOk true "/execute/dir_42_slot1_1" demoMarker ∅).1 = Some d' ∧
        d' !! "/execute/dir_42_slot1_1/.exit" = Some "{}".
Proof.
  destruct (exit_marker_atomic demoJson WOk true "/execute/dir_42_slot1_1" demoMarker ∅ "{}") as [_ H].
  - reflexivity.
  - exact (H _ eq_refl).
Defined.

Definition markedFs : fs := default ∅ (last (writeExitMarker demoJson WOk true "/execute/dir_42_slot1_1" demoMarker ∅).1).

Lemma demo2_sandbox : sandbox <$> activations demo2 !! "slot1_1@h" = Some "/execute/dir_42_slot1_1".
Proof. vm_compute. reflexivity. Qed.

Lemma outcome_survives_restart_witness :
  ∃ cl, claimAt "slot1_1@h" (doAdoptFailed (markerEnv markedFs) "slot1_1@h" demo2) = Some cl ∧
    Claim.state cl = Claim.ClaimedIdle ∧ (Claim.Final cl).2 = JOB_NOT_STARTED.
Proof.
  destruct (activations demo2 !! "slot1_1@h") as [act|] eqn:Ea; [|pose proof demo2_sandbox as H; rewrite Ea in H; discriminate H].
  pose proof demo2_sandbox as Hsb. rewrite Ea in Hsb. injection Hsb as Hsb.
  destruct (outcome_survives_restart demoJson demoUnjson (λ s, s) 102 103 12 (λ l, l) false demoFlags [] lostShadow
    afterRun.1 (Some "starter: get_job_info: writing op: broken pipe") 0 0 WOk true ∅
    (writeExitMarker demoJson WOk true "/execute/dir_42_slot1_1" demoMarker ∅).1 markedFs (markerEnv markedFs) "slot1_1@h" demo2 act)
    as (_ & cl & fad & status & reason & H1 & H2 & H3 & H4 & _).
  - exact afterRun_returns.
  - reflexivity.
  - reflexivity.
  - reflexivity.
  - discriminate.
  - intros p. reflexivity.
  - exact demo2_is_busy.
  - exact Ea.
  - exact Hsb.
  - exists cl. split; [exact H1|]. split; [exact H2|]. rewrite H3. apply H4. discriminate.
Defined.
