(* ===== verification/CoreReg.v ===== *)
(** * The core refines the registry machine

    [regOf] projects the core to its registry.  Every event is simulated by at
    most one transition of the registry machine of [Registry], so its invariant
    holds in every state the startd can reach. *)

From S2P Require Import Prelude GoLang ClassAd Claim Slot SlotFacts Persist Persister StarterMsg Reconnect.
From S2P Require Import Core CoreFrame Registry.

Import Core.

Local Open Scope Z_scope.
Local Open Scope ep_scope.

Create Rewrite HintDb reg.

Section Reg.
Context {CA : ClassAdLib} {SL : SecurityLib} {RS : Persist.RecordStore}.
Implicit Types (c : Core) (s : Slot.Slot) (env : Env).

Definition shapeOf s : shape :=
  mkShape (Slot.Name s) (Slot.SlotID s) (Slot.Machine s) (Slot.SlotType s) (Slot.ParentName s)
    (Slot.SubID s) (Slot.Res s) (Slot.fullRes s).

Definition regOf c : Reg :=
  mkReg (shapeOf <$> heap c) (nextLoc c) (slots c) (dslots c) (byName c) (dslotSeq c).

(** Slot updates that leave the shape alone. *)
Class Shapeless (f : Slot.Slot → Slot.Slot) : Prop := shapeless s : shapeOf (f s) = shapeOf s.

#[global] Instance shapeless_state st act n : Shapeless (Slot.SetStateActivity st act n).
Proof. done. Qed.
#[global] Instance shapeless_claimState cl st act n : Shapeless (Slot.SetClaimState cl st act n).
Proof. done. Qed.
#[global] Instance shapeless_claim cl : Shapeless (Slot.SetClaim cl).
Proof. done. Qed.
#[global] Instance shapeless_accept n i : Shapeless (Slot.AcceptClaim n i).
Proof. done. Qed.
#[global] Instance shapeless_upd_claim (f : Claim.Claim → Claim.Claim) :
  Shapeless (λ s, Slot.with_claim (f <$> Slot.claim s) s).
Proof. done. Qed.

Lemma regOf_erase c : regOf (erase c) = regOf c.
Proof.
  unfold regOf. simpl. f_equal. rewrite <-map_fmap_compose. apply map_fmap_ext. by intros.
Qed.

Lemma regOf_of_erase c c' : erase c' = erase c → regOf c' = regOf c.
Proof. intros H. by rewrite <-regOf_erase, H, regOf_erase. Qed.

Lemma regOf_updSlot l f c : Shapeless f → regOf (updSlot l f c) = regOf c.
Proof.
  intros Hf. unfold regOf. simpl. f_equal. apply map_eq. intros k.
  rewrite !lookup_fmap, lookup_alter. case_decide as Hk; [|done]. rewrite <-Hk.
  destruct (heap c !! l); simpl; [|done]. by rewrite Hf.
Qed.

Lemma regOf_updClaim l f c : regOf (updClaim l f c) = regOf c.
Proof. apply regOf_updSlot. apply _. Qed.

Lemma regOf_set_minter m c : regOf (set_minter m c) = regOf c.
Proof. done. Qed.
Lemma regOf_set_cancels a b n c : regOf (set_cancels a b n c) = regOf c.
Proof. done. Qed.
Lemma regOf_set_activations a c : regOf (set_activations a c) = regOf c.
Proof. done. Qed.
Lemma regOf_set_seqs a b n c : regOf (set_seqs a b n c) = regOf c.
Proof. done. Qed.
Lemma regOf_set_deferred d n c : regOf (set_deferred d n c) = regOf c.
Proof. done. Qed.

Lemma regOf_startAliveLoop l c : regOf (startAliveLoop l c) = regOf c.
Proof. unfold startAliveLoop. by repeat case_match. Qed.

Lemma regOf_unclaimSlot env l c : regOf (unclaimSlot env l c) = regOf c.
Proof.
  unfold unclaimSlot. destruct (minter c) as [m|]; [destruct (Claim.Mint m) as [m' [fresh|]]|];
    by rewrite regOf_updSlot by apply _.
Qed.
End Reg.

#[export] Hint Rewrite @regOf_erase @regOf_updClaim @regOf_set_minter @regOf_set_cancels
  @regOf_set_activations @regOf_set_seqs @regOf_set_deferred @regOf_startAliveLoop
  @regOf_unclaimSlot : reg.
#[export] Hint Rewrite @regOf_updSlot using (typeclasses eauto) : reg.

(** Push [erase] through the statements, then drop the assignments that the
    registry does not see. *)
Ltac reg_quiet := rewrite <-regOf_erase; autorewrite with erase; autorewrite with reg.

Section Handlers.
Context {CA : ClassAdLib} {SL : SecurityLib} {RS : Persist.RecordStore}.
Implicit Types (c : Core) (s : Slot.Slot) (env : Env).

(** ** Handlers that leave the registry alone *)

Lemma reg_doMatchInfo env id c : regOf (doMatchInfo env id c) = regOf c.
Proof. unfold doMatchInfo. repeat case_match; try done. by reg_quiet. Qed.

Lemma reg_doMatchTimeout env n id c : regOf (doMatchTimeout env n id c) = regOf c.
Proof. unfold doMatchTimeout. repeat case_match; try done. by reg_quiet. Qed.

Lemma reg_doAliveOK env n c : regOf (doAliveOK env n c) = regOf c.
Proof. unfold doAliveOK. repeat case_match; try done. by reg_quiet. Qed.

Lemma reg_doStarterUpdate n ad c : regOf (doStarterUpdate n ad c) = regOf c.
Proof. unfold doStarterUpdate. repeat case_match; try done. by reg_quiet. Qed.

Lemma reg_doStarterFinal n ad st r c : regOf (doStarterFinal n ad st r c) = regOf c.
Proof. unfold doStarterFinal. repeat case_match; try done. by reg_quiet. Qed.

Lemma reg_doStarterHello n a p c : regOf (doStarterHello n a p c) = regOf c.
Proof. unfold doStarterHello. repeat case_match; try done; by reg_quiet. Qed.

Lemma reg_setClaimedIdle env l c : regOf (setClaimedIdle env l c) = regOf c.
Proof. unfold setClaimedIdle. by reg_quiet. Qed.

Lemma reg_doStarterExited env n c : regOf (doStarterExited env n c) = regOf c.
Proof.
  unfold doStarterExited, setClaimedIdle. repeat case_match; try done; by reg_quiet.
Qed.

Lemma reg_doDeactivate id cmd r c : regOf (doDeactivate id cmd r c) = regOf c.
Proof. unfold doDeactivate. repeat case_match; try done; by reg_quiet. Qed.

Lemma reg_doVacate n h c : regOf (doVacate n h c) = regOf c.
Proof. unfold doVacate, vacateSend. repeat case_match; simplify_eq; by reg_quiet. Qed.

Lemma reg_doVacateEscalate n g c : regOf (doVacateEscalate n g c) = regOf c.
Proof. unfold doVacateEscalate, vacateSend. repeat case_match; simplify_eq; by reg_quiet. Qed.

Lemma reg_finishActivate env l n act ad r c : regOf (finishActivate env l n act ad r c) = regOf c.
Proof. unfold finishActivate. by reg_quiet. Qed.

Lemma reg_activateStarter env l s cl job r c : regOf (activateStarter env l s cl job r c) = regOf c.
Proof.
  unfold activateStarter. case_match; [done|].
  match goal with |- context [publicAd env l ?c0] =>
    pose proof (regOf_of_erase _ _ (erase_publicAd env l c0)) as Hp; destruct (publicAd env l c0) as [ad c'] end.
  simpl in Hp. rewrite regOf_set_seqs in Hp.
  repeat case_match; rewrite ?reg_finishActivate; reg_quiet; by rewrite Hp.
Qed.

Lemma reg_doActivateClaim env id job r c : regOf (doActivateClaim env id job r c) = regOf c.
Proof. unfold doActivateClaim. repeat case_match; try done. apply reg_activateStarter. Qed.
End Handlers.

Section Transitions.
Context {CA : ClassAdLib} {SL : SecurityLib} {RS : Persist.RecordStore}.
Implicit Types (c : Core) (s : Slot.Slot) (env : Env) (l : loc).

(** ** Carving *)

Lemma heap_updSlot_shape l f c s :
  heap c !! l = Some s →
  shapeOf <$> heap (updSlot l f c) = <[l := shapeOf (f s)]> (shapeOf <$> heap c).
Proof.
  intros H. apply map_eq. intros k. simpl.
  rewrite !lookup_fmap, lookup_alter, lookup_insert, lookup_fmap.
  case_decide as Hk; [|done]. subst k. by rewrite H.
Qed.

Lemma regOf_carve l req c ps d sub :
  heap c !! l = Some ps → shapeOf d = child_shape (shapeOf ps) sub req →
  regOf (addDSlot d (updSlot l (Slot.Carve req) c))
  = reg_carve l (shapeOf ps) sub (dslotSeq c) req (regOf c).
Proof.
  intros Hps Hd. pose proof (heap_updSlot_shape l (Slot.Carve req) c ps Hps) as Hh.
  unfold regOf, reg_carve, addDSlot. cbn [set_registry set_heap updSlot heap nextLoc slots dslots byName
    dslotSeq r_heap r_next r_slots r_dslots r_byName] in *.
  rewrite fmap_insert, Hh, <-Hd. done.
Qed.

Lemma reg_doRequestClaimPSlot env ev l cl c :
  let req := requestedResources (rc_reqAd ev) in
  let n := wrap64 (dslotSeq c + 1) in
  regOf (doRequestClaimPSlot env ev l cl c) = regOf c ∨
  ∃ ps, heap c !! l = Some ps ∧ Slot.CanCarve req ps = true ∧
    regOf (doRequestClaimPSlot env ev l cl c) = reg_carve l (shapeOf ps) n n req (regOf c).
Proof.
  cbn zeta. unfold doRequestClaimPSlot.
  destruct (heap c !! l) as [ps|] eqn:Eps; [|by left].
  destruct (minter c) as [m|]; [|by left].
  destruct (negb (requirementsMet _ _ _)); [by left|].
  destruct (Slot.CanCarve _ ps) eqn:Ecan; [|by left]. simpl negb. cbn iota.
  destruct (Claim.Mint m) as [m' [dClaim|]]; [|by left]. right. exists ps. split_and!; [done..|].
  cbn zeta. repeat match goal with
  | |- context [claimedBlock env ev ?x ?y ?c0] =>
      pose proof (regOf_of_erase _ _ (erase_claimedBlock env ev x y c0)) as HA;
      destruct (claimedBlock env ev x y c0) as [claimed c2]
  | |- context [leftoversBlock env ev ?x ?y ?c0] =>
      pose proof (regOf_of_erase _ _ (erase_leftoversBlock env ev x y c0)) as HB;
      destruct (leftoversBlock env ev x y c0) as [lo c3]
  end.
  simpl in HA, HB. rewrite <-regOf_erase. autorewrite with erase. rewrite regOf_erase, HB, HA.
  rewrite regOf_startAliveLoop. rewrite <-regOf_erase. autorewrite with erase.
  rewrite (regOf_carve _ _ _ (quiet_slot ps) _ (wrap64 (dslotSeq c + 1))).
  - rewrite <-(regOf_erase c). done.
  - change (heap (erase c) !! l = Some (quiet_slot ps)). by rewrite heap_erase, Eps.
  - done.
Qed.

(** ** Destroying *)

Lemma reg_removeDSlot n c :
  regOf (removeDSlot n c)
  = mkReg (r_heap (regOf c)) (r_next (regOf c)) (r_slots (regOf c))
      (remove_first (reg_nameIs n (regOf c)) (r_dslots (regOf c)))
      (delete n (r_byName (regOf c))) (r_seq (regOf c)).
Proof.
  unfold regOf, removeDSlot. simpl. f_equal.
  induction (dslots c) as [|l ds IH]; simpl; [done|].
  assert (nameIs n c l = reg_nameIs n (regOf c) l) as ->; [|by rewrite IH].
  unfold nameIs, reg_nameIs. simpl. rewrite lookup_fmap. by destruct (heap c !! l).
Qed.

Lemma reg_destroyDSlot env l c d :
  heap c !! l = Some d → regOf (destroyDSlot env l c) = reg_destroy (shapeOf d) (regOf c).
Proof.
  intros Hd. unfold destroyDSlot. rewrite Hd.
  assert (∀ b c0, erase (if b : bool then InvalidateSlot env d c0 else c0) = erase c0) as Hinv
    by (intros [] c0; [apply erase_InvalidateSlot|done]).
  set (c1 := if haveAdv _ then _ else _).
  assert (erase c1 = erase (removeDSlot (Slot.Name d) c)) as E1.
  { unfold c1. rewrite Hinv. autorewrite with erase. done. }
  clearbody c1. rewrite (regOf_of_erase _ _ (erase_reAdvertise env _)).
  assert (regOf c1 = regOf (removeDSlot (Slot.Name d) c)) as R1 by (by apply regOf_of_erase).
  rewrite reg_removeDSlot in R1. unfold reg_destroy. cbn [shapeOf sh_name sh_parent sh_res].
  unfold lookupName, deref.
  assert (byName c1 = delete (Slot.Name d) (byName c)) as -> by (apply (f_equal r_byName) in R1; done).
  destruct (delete (Slot.Name d) (byName c) !! Slot.ParentName d) as [p|] eqn:Ep.
  2: { rewrite R1. simpl. by rewrite Ep. }
  assert (shapeOf <$> heap c1 = shapeOf <$> heap c) as Hh by (apply (f_equal r_heap) in R1; done).
  assert (shapeOf <$> heap c1 !! p = shapeOf <$> heap c !! p) as Hp by (by rewrite <-!lookup_fmap, Hh).
  simpl. rewrite Ep. destruct (heap c1 !! p) as [ps|] eqn:Eps.
  - rewrite <-regOf_erase. autorewrite with erase.
    transitivity (regOf (updSlot p (Slot.Restore (Slot.Res d)) c1)).
    { apply regOf_of_erase. rewrite erase_updSlot by apply _. rewrite erase_updSlot by apply _.
      unfold erase at 1. unfold updSlot, erase, set_heap. simpl. f_equal. apply map_eq. intros k.
      rewrite !lookup_alter, !lookup_fmap. case_decide; [|by destruct (heap c1 !! k)].
      by destruct (heap c1 !! p). }
    unfold regOf at 1. rewrite (heap_updSlot_shape _ _ _ ps) by done. simpl.
    apply (f_equal r_next) in R1 as Rn. apply (f_equal r_slots) in R1 as Rs.
    apply (f_equal r_dslots) in R1 as Rd. apply (f_equal r_byName) in R1 as Rb.
    apply (f_equal r_seq) in R1 as Rq. simpl in *. rewrite Rn, Rs, Rd, Rb, Rq, Hh. f_equal.
    apply map_eq. intros k. rewrite lookup_insert, lookup_alter, !lookup_fmap.
    case_decide; [|done]. subst k. rewrite <-Hp. done.
  - rewrite R1. f_equal. simpl. apply map_eq. intros k. rewrite lookup_alter, !lookup_fmap.
    case_decide; [|done]. subst k. by rewrite <-Hp.
Qed.

Lemma reg_releaseSlot env l c s :
  heap c !! l = Some s →
  regOf (releaseSlot env l c) = if Slot.IsDynamic s then reg_destroy (shapeOf s) (regOf c) else regOf c.
Proof.
  intros Hs. unfold releaseSlot. rewrite Hs. set (c1 := c |> _ |> _ |> _).
  assert (heap c1 = heap c ∧ regOf c1 = regOf c) as [H1 H2].
  { unfold c1. split; [|reg_quiet; done].
    unfold killActivation, vacateSend, cancelAlive, cancelMatchTimer, emitVacate.
    by repeat case_match; simplify_eq. }
  clearbody c1. destruct (Slot.IsDynamic s).
  - rewrite (reg_destroyDSlot _ _ _ s) by (by rewrite H1). by rewrite H2.
  - reg_quiet. done.
Qed.
End Transitions.

(** ** Steps of the startd

    An event on the loop, a tick of the advertise timer, a step of the persister
    goroutine, or a supervisor receiving from its vacate channel. *)

Section Steps.
Context {CA : ClassAdLib} {SL : SecurityLib} {RS : Persist.RecordStore}.
Implicit Types (c : Core) (s : Slot.Slot) (env : Env) (l : loc).

(** The counters are [int64]s that have not come round. *)
Definition counters_ok c : Prop :=
  int64_range (dslotSeq c + 1) ∧
  match minter c with Some m => int64_range (Claim.m_seq m + 1) | None => True end.

Definition res_nonneg (r : Slot.Resources) : Prop :=
  0 ≤ Slot.Cpus r ∧ 0 ≤ Slot.MemoryMB r ∧ 0 ≤ Slot.DiskKB r.

Definition recordRes (rec : Persist.Record_) : Slot.Resources :=
  Slot.mkRes (Persist.Cpus rec) (Persist.MemoryMB rec) (Persist.DiskKB rec).

(** A dynamic-slot record a running p-slot can honour: filed under the name the slot
    gets, for resources the p-slot has left. *)
Definition record_fits c (rec : Persist.Record_) : Prop :=
  EqualFold (Persist.State rec) "Claimed" = true →
  EqualFold (Persist.SlotType rec) Slot.SlotTypeDynamic = true →
  ∀ p parent, lookupName (Persist.ParentSlotName rec) c = Some (p, parent) →
    lookupName (Persist.SlotName rec) c = None →
    Slot.IsPartitionable parent = true ∧
    Persist.SlotName rec = Slot.dynamicName (Slot.SlotID parent) (Persist.DSlotSubID rec) (Slot.Machine parent) ∧
    res_nonneg (recordRes rec) ∧ Slot.CanCarve (recordRes rec) parent = true.

Fixpoint records_fit (st : adoptState) (recs : list Persist.Record_) : Prop :=
  match recs with
  | [] => True
  | rec :: rest => record_fits (as_core st) rec ∧ records_fit (adoptRecord st rec) rest
  end.

(** What is asked of an event: a request does not ask for a negative amount, and the
    records of the store fit the configured p-slots. *)
Definition event_ok (ev : Event) c : Prop :=
  counters_ok c ∧
  match ev with
  | EvRequestClaim e => res_nonneg (requestedResources (rc_reqAd e))
  | EvAdopt _ =>
      match pers c with
      | Some p => records_fit (mkAdoptState c ∅ 0) (Persist.rs_list (store p))
      | None => True
      end
  | _ => True
  end.

Inductive cstep : option Event → Core → Core → Prop :=
| step_event env ev c : event_ok ev c → cstep (Some ev) c (handle env ev c)
| step_tick env c : cstep None c (tick env c)
| step_persist p p' c : pers c = Some p → pstep LTau p p' → cstep None c (set_pers (Some p') c)
| step_supervisor n act act' msg c :
    activations c !! n = Some act → vacateCh act = Some msg → vacateSend msg act' = (act, true) →
    cstep None c (set_activations (<[n := act']> (activations c)) c).

(** The states reached by internal steps and the events [allow] admits. *)
Inductive reachable (allow : Event → bool) (c0 : Core) : Core → Prop :=
| reach_refl : reachable allow c0 c0
| reach_step o c c' :
    reachable allow c0 c → cstep o c c' → (∀ ev, o = Some ev → allow ev = true) →
    reachable allow c0 c'.

Definition any_event (ev : Event) : bool := true.
Definition no_adopt (ev : Event) : bool := match ev with EvAdopt _ => false | _ => true end.

Lemma reachable_any allow c0 c : reachable allow c0 c → reachable any_event c0 c.
Proof. induction 1 as [|o c c' _ IH Hs _]; [constructor|]. by eapply reach_step. Qed.

(** ** The simulation *)

(** A transition of the registry machine. *)
Inductive reg_step (r : Reg) : Reg → Prop :=
| rs_stay : reg_step r r
| rs_carve l p sub seq req :
    l ∈ r_slots r → r_heap r !! l = Some p → sh_type p = Slot.SlotTypePartitionable →
    res_nonneg req → res_le req (sh_res p) → r_seq r ≤ seq ∧ sub ≤ seq →
    r_byName r !! Slot.dynamicName (sh_id p) sub (sh_machine p) = None →
    reg_step r (reg_carve l p sub seq req r)
| rs_destroy l d : l ∈ r_dslots r → r_heap r !! l = Some d → reg_step r (reg_destroy d r).

Context (machine : string).

Lemma res_nonneg_le a b : res_nonneg a → res_le a b → res_ok b → res_ok a.
Proof. unfold res_nonneg. res_solve. Qed.

Lemma reg_step_inv r r' : RegInv machine r → reg_step r r' → RegInv machine r'.
Proof.
  intros HI Hs. destruct Hs as [|l p sub seq req H1 H2 H3 H4 H5 H6 H7|l d H1 H2].
  - done.
  - apply reg_carve_inv; try done. eapply res_nonneg_le; [done..|].
    destruct (ri_slots _ _ HI l p H1 H2) as (_ & _ & _ & _ & H & _). by apply H.
  - by eapply reg_destroy_inv.
Qed.

Lemma live_regOf c : r_live (regOf c) = LiveSlots c.
Proof. done. Qed.

Lemma heap_regOf c l : r_heap (regOf c) !! l = shapeOf <$> heap c !! l.
Proof. apply lookup_fmap. Qed.

(** A live slot is where its type says. *)
Lemma live_partitionable c l s :
  RegInv machine (regOf c) → l ∈ LiveSlots c → heap c !! l = Some s →
  Slot.IsPartitionable s = true → l ∈ slots c.
Proof.
  intros HI Hl Hs Hp. apply bool_decide_eq_true in Hp.
  apply elem_of_app in Hl as [Hl|Hl]; [done|].
  assert (r_heap (regOf c) !! l = Some (shapeOf s)) as Hh by (by rewrite heap_regOf, Hs).
  destruct (ri_dslots _ _ HI l _ Hl Hh) as (_ & _ & Ht & _). simpl in Ht. by rewrite Hp in Ht.
Qed.

Lemma live_dynamic c l s :
  RegInv machine (regOf c) → l ∈ LiveSlots c → heap c !! l = Some s →
  Slot.IsDynamic s = true → l ∈ dslots c.
Proof.
  intros HI Hl Hs Hp. apply bool_decide_eq_true in Hp.
  apply elem_of_app in Hl as [Hl|Hl]; [|done].
  assert (r_heap (regOf c) !! l = Some (shapeOf s)) as Hh by (by rewrite heap_regOf, Hs).
  destruct (ri_slots _ _ HI l _ Hl Hh) as (_ & _ & Ht & _). simpl in Ht. congruence.
Qed.

Lemma lookupName_live c n l s :
  RegInv machine (regOf c) → lookupName n c = Some (l, s) →
  l ∈ LiveSlots c ∧ heap c !! l = Some s ∧ Slot.Name s = n.
Proof.
  intros HI [Hb Hs]%lookupName_Some. change (r_byName (regOf c) !! n = Some l) in Hb.
  apply (ri_byName _ _ HI) in Hb as (Hl & sh & Hsh & Hn).
  rewrite heap_regOf, Hs in Hsh. simpl in Hsh. simplify_eq. done.
Qed.

Lemma reg_stay r r' : r' = r → reg_step r r'.
Proof. intros ->. constructor. Qed.

Lemma releaseSlot_sim env l c s :
  RegInv machine (regOf c) → l ∈ LiveSlots c → heap c !! l = Some s →
  reg_step (regOf c) (regOf (releaseSlot env l c)).
Proof.
  intros HI Hl Hs. rewrite (reg_releaseSlot _ _ _ s Hs).
  destruct (Slot.IsDynamic s) eqn:E; [|constructor].
  apply (rs_destroy _ l); [by eapply live_dynamic|]. by rewrite heap_regOf, Hs.
Qed.

Lemma doRequestClaim_sim env ev c :
  RegInv machine (regOf c) → event_ok (EvRequestClaim ev) c →
  reg_step (regOf c) (regOf (doRequestClaim env ev c)).
Proof.
  intros HI [[Hcnt _] Hnn]. unfold doRequestClaim.
  destruct (findSlotByClaimID _ c) as [[l s]|] eqn:Ef; [|constructor].
  apply findSlotByClaimID_Some in Ef as (Hl & Hs & _).
  destruct (Slot.claim s) as [cl|]; [|constructor].
  destruct (negb _); [constructor|].
  destruct (negb _).
  { apply reg_stay. by reg_quiet. }
  destruct (Slot.IsPartitionable s) eqn:Ep.
  - set (c1 := cancelMatchTimer _ c).
    assert (regOf c1 = regOf c) as R1 by (unfold c1; by reg_quiet).
    assert (heap c1 = heap c ∧ dslotSeq c1 = dslotSeq c) as [Hh Hq].
    { unfold c1, cancelMatchTimer. by case_match. }
    destruct (reg_doRequestClaimPSlot env ev l cl c1) as [->|(ps & Hps & Hcan & ->)];
      [rewrite R1; constructor|].
    rewrite R1. rewrite Hh in Hps. rewrite Hs in Hps. simplify_eq.
    rewrite Hq, wrap64_id by done.
    assert (r_heap (regOf c) !! l = Some (shapeOf ps)) as Hr by (by rewrite heap_regOf, Hs).
    apply rs_carve.
    + by eapply live_partitionable.
    + done.
    + by apply bool_decide_eq_true in Ep.
    + done.
    + by apply CanCarve_le.
    + simpl. lia.
    + eapply (next_name_fresh machine _ l); [done|by eapply live_partitionable|done|simpl; lia].
  - match goal with |- context [claimedBlock env ev ?x ?y ?c0] =>
      pose proof (regOf_of_erase _ _ (erase_claimedBlock env ev x y c0)) as HA;
      destruct (claimedBlock env ev x y c0) as [claimed c2] end.
    simpl in HA. apply reg_stay. reg_quiet. rewrite HA. by reg_quiet.
Qed.

(** ** Re-adoption *)

Lemma reg_adoptStarter rec c : regOf (adoptStarter rec c) = regOf c.
Proof. done. Qed.

Lemma reg_storeDelete n c : regOf (storeDelete n c) = regOf c.
Proof. apply regOf_of_erase, erase_storeDelete. Qed.

Lemma reg_adoptSlot rec st : regOf (as_core (adoptSlot rec st)) = regOf (as_core st).
Proof.
  unfold adoptSlot. repeat case_match; try done; simpl; rewrite ?reg_storeDelete, ?reg_adoptStarter;
    try done; by autorewrite with reg.
Qed.

(** What carving the slot of a record again does to the registry. *)
Lemma reconstruct_reg rec c p parent :
  lookupName (Persist.ParentSlotName rec) c = Some (p, parent) → lookupName (Persist.SlotName rec) c = None →
  regOf (reconstructDSlot rec c).2
  = reg_carve p (shapeOf parent) (Persist.DSlotSubID rec) (Z.max (dslotSeq c) (Persist.DSlotSubID rec)) (recordRes rec) (regOf c).
Proof.
  intros Ep Es. unfold reconstructDSlot. rewrite Ep, Es. apply lookupName_Some in Ep as [_ Hheap].
  fold (recordRes rec). set (res := recordRes rec). simpl snd. set (c1 := addDSlot _ _).
  assert (regOf c1 = reg_carve p (shapeOf parent) (Persist.DSlotSubID rec) (dslotSeq c) res (regOf c)) as R1.
  { unfold c1. by rewrite (regOf_carve _ _ _ parent _ (Persist.DSlotSubID rec)). }
  assert (dslotSeq c1 = dslotSeq c) as Q1 by done. rewrite ?Q1. clearbody c1.
  transitivity (mkReg (r_heap (regOf c1)) (r_next (regOf c1)) (r_slots (regOf c1)) (r_dslots (regOf c1))
                  (r_byName (regOf c1)) (Z.max (dslotSeq c) (Persist.DSlotSubID rec))); [|by rewrite R1].
  destruct (Z.ltb_spec (dslotSeq c) (Persist.DSlotSubID rec)).
  - by rewrite Z.max_r by lia.
  - rewrite Z.max_l by lia. by rewrite <-Q1.
Qed.

Lemma reconstruct_sim rec c :
  RegInv machine (regOf c) → record_fits c rec →
  EqualFold (Persist.State rec) "Claimed" = true →
  EqualFold (Persist.SlotType rec) Slot.SlotTypeDynamic = true →
  reg_step (regOf c) (regOf (reconstructDSlot rec c).2).
Proof.
  intros HI Hfit Hst Hty.
  destruct (lookupName (Persist.ParentSlotName rec) c) as [[p parent]|] eqn:Ep;
    [|unfold reconstructDSlot; rewrite Ep; constructor].
  destruct (lookupName (Persist.SlotName rec) c) as [x|] eqn:Es; [unfold reconstructDSlot; rewrite Ep, Es; constructor|].
  destruct (Hfit Hst Hty p parent Ep Es) as (Hpart & Hname & Hnn & Hcan).
  rewrite (reconstruct_reg rec c p parent Ep Es).
  apply (lookupName_live c _ p parent HI) in Ep as (Hlive & Hheap & Hpn).
  apply rs_carve; try done.
  - by eapply live_partitionable.
  - by rewrite heap_regOf, Hheap.
  - by apply bool_decide_eq_true in Hpart.
  - by apply CanCarve_le.
  - simpl. lia.
  - simpl. rewrite <-Hname. unfold lookupName, deref in Es.
    destruct (byName c !! Persist.SlotName rec) as [k|] eqn:Ek; [|done]. exfalso.
    change (r_byName (regOf c) !! Persist.SlotName rec = Some k) in Ek.
    apply (ri_byName _ _ HI) in Ek as (Hk & sh & Hsh & _). rewrite heap_regOf in Hsh.
    by destruct (heap c !! k).
Qed.

Lemma adoptRecord_sim st rec :
  RegInv machine (regOf (as_core st)) → record_fits (as_core st) rec →
  reg_step (regOf (as_core st)) (regOf (as_core (adoptRecord st rec))).
Proof.
  intros HI Hfit. unfold adoptRecord.
  destruct (EqualFold (Persist.State rec) "Claimed") eqn:E1; [|constructor]. simpl.
  destruct (EqualFold (Persist.SlotType rec) Slot.SlotTypeDynamic) eqn:E2.
  - pose proof (reconstruct_sim rec (as_core st) HI Hfit E1 E2) as Hs.
    destruct (reconstructDSlot rec (as_core st)) as [[] c']; simpl in Hs.
    + by rewrite reg_adoptSlot.
    + simpl. by rewrite reg_storeDelete.
  - apply reg_stay. apply reg_adoptSlot.
Qed.

Lemma adopt_fold_sim st recs :
  RegInv machine (regOf (as_core st)) → records_fit st recs →
  rtc reg_step (regOf (as_core st)) (regOf (as_core (foldl adoptRecord st recs))).
Proof.
  revert st. induction recs as [|rec recs IH]; intros st HI Hf; [done|].
  destruct Hf as [Hfit Hf]. pose proof (adoptRecord_sim st rec HI Hfit) as Hs.
  eapply rtc_l; [exact Hs|]. apply IH; [|done]. by eapply reg_step_inv.
Qed.

Lemma doAdopt_sim env c :
  RegInv machine (regOf c) →
  (∀ p, pers c = Some p → records_fit (mkAdoptState c ∅ 0) (Persist.rs_list (store p))) →
  rtc reg_step (regOf c) (regOf (doAdopt env c)).
Proof.
  intros HI Hf. unfold doAdopt. destruct (pers c) as [p|]; [|done].
  set (st := foldl _ _ _).
  assert (rtc reg_step (regOf c) (regOf (as_core st))) as Hst
    by (apply (adopt_fold_sim (mkAdoptState c ∅ 0)); auto).
  set (c1 := foldl _ _ _).
  assert (regOf c1 = regOf (as_core st)) as R1.
  { apply regOf_of_erase, erase_foldl. intros c2 x. apply erase_refresh. }
  destruct (0 <? nAdopted st).
  - rewrite (regOf_of_erase _ _ (erase_reAdvertise env c1)). by rewrite R1.
  - by rewrite R1.
Qed.

(** ** Every step *)

Lemma doAdoptFailed_sim env n c :
  RegInv machine (regOf c) → reg_step (regOf c) (regOf (doAdoptFailed env n c)).
Proof.
  intros HI. unfold doAdoptFailed.
  destruct (activations c !! n) as [act|]; [|constructor].
  destruct (lookupName n c) as [[l s]|] eqn:El; [|apply reg_stay; by reg_quiet].
  destruct (readExitMarker env (sandbox act)) as [m|].
  - apply reg_stay. unfold setClaimedIdle. repeat case_match; by reg_quiet.
  - apply (lookupName_live c) in El as (H1 & H2 & _); [|done]. by eapply releaseSlot_sim.
Qed.

Lemma handle_sim env ev c :
  RegInv machine (regOf c) → event_ok ev c → rtc reg_step (regOf c) (regOf (handle env ev c)).
Proof.
  intros HI Hok. destruct ev; simpl;
    try (apply rtc_once, reg_stay;
           first [ apply regOf_of_erase, erase_reAdvertise | apply reg_doMatchInfo
                 | apply reg_doMatchTimeout | apply reg_doAliveOK | apply reg_doActivateClaim
                 | apply reg_doStarterUpdate | apply reg_doStarterFinal | apply reg_doStarterExited
                 | apply reg_doStarterHello | apply reg_doDeactivate | apply reg_doVacate
                 | apply reg_doVacateEscalate ]).
  - apply rtc_once. by apply doRequestClaim_sim.
  - apply rtc_once. unfold doReleaseByClaimID.
    destruct (findSlotByClaimID _ c) as [[l s]|] eqn:E; [|constructor].
    apply findSlotByClaimID_Some in E as (H1 & H2 & _). by eapply releaseSlot_sim.
  - apply rtc_once. destruct (lookupName slotName c) as [[l s]|] eqn:E; [|constructor].
    apply (lookupName_live c) in E as (H1 & H2 & _); [|done]. by eapply releaseSlot_sim.
  - done.
  - change (rtc reg_step (regOf c) (regOf (doAdopt env c))). apply doAdopt_sim; [done|].
    intros p Hp. destruct Hok as [_ Hok]. by rewrite Hp in Hok.
  - apply rtc_once. by apply doAdoptFailed_sim.
Qed.

Lemma cstep_sim o c c' : RegInv machine (regOf c) → cstep o c c' → rtc reg_step (regOf c) (regOf c').
Proof.
  intros HI Hs. destruct Hs.
  - by apply handle_sim.
  - unfold tick. case_match; [|done].
    by rewrite (regOf_of_erase _ _ (erase_Advertise env c)).
  - done.
  - done.
Qed.

(** Along the transitions of the registry machine the invariant and the amount
    shared out are constant. *)
Lemma reg_steps_inv r r' :
  RegInv machine r → rtc reg_step r r' → RegInv machine r' ∧ live_sum r' = live_sum r.
Proof.
  intros HI Hs. induction Hs as [r|r r1 r2 H1 _ IH]; [done|].
  destruct (IH (reg_step_inv _ _ HI H1)) as [H2 ->]. split; [done|].
  destruct H1 as [|l p sub seq req Ha Hb Hc Hd He Hf Hg|l d Ha Hb]; [done| |].
  - apply (carve_live_sum machine); try done. eapply res_nonneg_le; [done..|].
    destruct (ri_slots _ _ HI l p Ha Hb) as (_ & _ & _ & _ & H & _). by apply H.
  - by eapply (destroy_live_sum machine).
Qed.

Lemma reachable_reg allow c0 c :
  RegInv machine (regOf c0) → reachable allow c0 c →
  rtc reg_step (regOf c0) (regOf c) ∧ RegInv machine (regOf c) ∧ live_sum (regOf c) = live_sum (regOf c0).
Proof.
  intros H0 Hr. enough (rtc reg_step (regOf c0) (regOf c)) as Hs.
  { split; [done|]. by apply reg_steps_inv. }
  induction Hr as [|o c c' Hr IH Hstep _]; [done|]. etransitivity; [exact IH|].
  eapply cstep_sim; [|done]. by apply (reg_steps_inv (regOf c0)).
Qed.
End Steps.
