(* ===== verification/CorePersist.v ===== *)
(** * What the event loop does to the persister

    The loop touches the claim store only through two calls: it queues the record of a slot
    ([put]) and deletes the record of a slot that is gone.  So whatever an event does, the
    persister moves by those of its own steps, and what the persister guarantees holds of the whole
    startd. *)

From S2P Require Import Prelude GoLang ClassAd Claim Slot Persist Persister StarterMsg Reconnect.
From S2P Require Import Core CoreFrame CoreDemo CoreReg.

Import Core.

Local Open Scope Z_scope.
Local Open Scope ep_scope.

Create HintDb via.

Section Via.
Context {CA : ClassAdLib} {SL : SecurityLib} {RS : Persist.RecordStore}.
Implicit Types (c : Core) (env : Env) (l : loc) (o : option persister).

(** A step of the loop, not of the writer. *)
Definition ofLoop (lb : plabel) : Prop := lb ≠ LTau.

(** [c]'s persister is [o] after some steps of the loop. *)
Definition via o c : Prop :=
  match o, pers c with
  | Some p, Some p' => ∃ ls, Forall ofLoop ls ∧ prun ls p p'
  | None, None => True
  | _, _ => False
  end.

Lemma via_refl c : via (pers c) c.
Proof. unfold via. destruct (pers c); [|done]. exists []. split; constructor. Qed.

Lemma via_of o c c' : pers c' = pers c → via o c → via o c'.
Proof. unfold via. by intros ->. Qed.

Lemma prun_snoc ls lb p p' p'' : prun ls p p' → pstep lb p' p'' → prun (ls ++ [lb]) p p''.
Proof. induction 1; intros Hs; cbn; econstructor; eauto using prun_nil. Qed.

Lemma via_step o c lb p p' :
  via o c → pers c = Some p → pstep lb p p' → ofLoop lb → via o (set_pers (Some p') c).
Proof.
  unfold via. intros Hv Hp Hs Hl. rewrite Hp in Hv. cbn. destruct o as [p0|]; [|done].
  destruct Hv as (ls & Hls & Hr). exists (ls ++ [lb]). split; [by apply Forall_app; split; [|constructor]|].
  by eapply prun_snoc.
Qed.

Lemma via_persistSlot o l c : via o c → via o (persistSlot l c).
Proof.
  intros Hv. unfold persistSlot. repeat case_match; try done. by eapply via_step; [..|apply PPut|].
Qed.

Lemma via_storeDelete o n c : via o c → via o (storeDelete n c).
Proof. intros Hv. unfold storeDelete. case_match; [|done]. by eapply via_step; [..|apply PDelete|]. Qed.

(** ** Operations that leave the persister alone *)

Lemma via_set_heap o h c : via o c → via o (set_heap h c).
Proof. done. Qed.
Lemma via_set_registry o n ds bn c : via o c → via o (set_registry n ds bn c).
Proof. done. Qed.
Lemma via_set_dslotSeq o n c : via o c → via o (set_dslotSeq n c).
Proof. done. Qed.
Lemma via_set_minter o m c : via o c → via o (set_minter m c).
Proof. done. Qed.
Lemma via_set_cancels o a b n c : via o c → via o (set_cancels a b n c).
Proof. done. Qed.
Lemma via_set_activations o a c : via o c → via o (set_activations a c).
Proof. done. Qed.
Lemma via_set_seqs o a b n c : via o c → via o (set_seqs a b n c).
Proof. done. Qed.
Lemma via_set_deferred o d n c : via o c → via o (set_deferred d n c).
Proof. done. Qed.
Lemma via_updSlot o l f c : via o c → via o (updSlot l f c).
Proof. done. Qed.
Lemma via_updClaim o l f c : via o c → via o (updClaim l f c).
Proof. done. Qed.
Lemma via_addDSlot o d c : via o c → via o (addDSlot d c).
Proof. done. Qed.
Lemma via_removeDSlot o n c : via o c → via o (removeDSlot n c).
Proof. done. Qed.
Lemma via_emit o e c : via o c → via o (emit e c).
Proof. done. Qed.

Lemma via_emitAll o es c : via o c → via o (emitAll es c).
Proof. revert c. induction es as [|e es IH]; intros c Hv; [done|]. apply (IH (emit e c)). by apply via_emit. Qed.

Lemma via_publicAd o env l c : via o c → via o (publicAd env l c).2.
Proof. unfold publicAd. by repeat case_match. Qed.

Lemma via_advertiseSlot o env c l : via o c → via o (advertiseSlot env c l).
Proof.
  unfold advertiseSlot. intros Hv. pose proof (via_publicAd o env l c Hv) as H.
  destruct (publicAd env l c) as [pub c']. case_match; [by apply via_emitAll|done].
Qed.

Lemma via_foldl {A} o (f : Core → A → Core) (xs : list A) c :
  (∀ c x, via o c → via o (f c x)) → via o c → via o (foldl f c xs).
Proof. intros Hf. revert c. induction xs as [|x xs IH]; intros c Hv; [done|]. cbn. by apply IH, Hf. Qed.

Lemma via_Advertise o env c : via o c → via o (Advertise env c).
Proof. intros Hv. unfold Advertise. case_match; [done|]. apply via_foldl; [|done]. intros. by apply via_advertiseSlot. Qed.

Lemma via_reAdvertise o env c : via o c → via o (reAdvertise env c).
Proof. intros Hv. unfold reAdvertise. case_match; [by apply via_Advertise|done]. Qed.

Lemma via_InvalidateSlot o env s c : via o c → via o (InvalidateSlot env s c).
Proof. apply via_emitAll. Qed.
End Via.

#[export] Hint Resolve via_persistSlot via_storeDelete via_set_heap via_set_registry via_set_dslotSeq via_set_minter
  via_set_cancels via_set_activations via_set_seqs via_set_deferred via_updSlot via_updClaim via_addDSlot via_removeDSlot
  via_emit via_emitAll via_publicAd via_Advertise via_reAdvertise via_InvalidateSlot : via.

Ltac via := repeat case_match; simplify_eq; eauto 20 with via.

Section Ops.
Context {CA : ClassAdLib} {SL : SecurityLib} {RS : Persist.RecordStore}.
Implicit Types (c : Core) (env : Env) (l : loc) (o : option persister).

Lemma via_refresh o l c : via o c → via o (refreshPSlotChildren l c).
Proof. intros. unfold refreshPSlotChildren. via. Qed.
Lemma via_startMatchTimer o n id c : via o c → via o (startMatchTimer n id c).
Proof. intros. unfold startMatchTimer. via. Qed.
Lemma via_cancelMatchTimer o n c : via o c → via o (cancelMatchTimer n c).
Proof. intros. unfold cancelMatchTimer. via. Qed.
Lemma via_cancelAlive o n c : via o c → via o (cancelAlive n c).
Proof. intros. unfold cancelAlive. via. Qed.
Lemma via_startAliveLoop o l c : via o c → via o (startAliveLoop l c).
Proof. intros. unfold startAliveLoop. via. Qed.
Lemma via_emitVacate o n a msg b c : via o c → via o (emitVacate n a msg b c).
Proof. intros. destruct b; cbn; eauto with via. Qed.
Lemma via_unclaimSlot o env l c : via o c → via o (unclaimSlot env l c).
Proof. intros. unfold unclaimSlot. via. Qed.
Lemma via_releaseDeferred o n c : via o c → via o (releaseDeferredDeactivate n c).
Proof. intros. unfold releaseDeferredDeactivate. via. Qed.
Lemma via_setClaimedIdle o env l c : via o c → via o (setClaimedIdle env l c).
Proof. intros. unfold setClaimedIdle. via. Qed.
Lemma via_rejectClaim o ev c : via o c → via o (rejectClaim ev c).
Proof. intros. unfold rejectClaim. via. Qed.
Lemma via_rejectActivate o ch c : via o c → via o (rejectActivate ch c).
Proof. intros. unfold rejectActivate. via. Qed.
End Ops.

#[export] Hint Resolve via_refresh via_startMatchTimer via_cancelMatchTimer via_cancelAlive via_startAliveLoop via_emitVacate
  via_unclaimSlot via_releaseDeferred via_setClaimedIdle via_rejectClaim via_rejectActivate : via.

Section Handlers.
Context {CA : ClassAdLib} {SL : SecurityLib} {RS : Persist.RecordStore}.
Implicit Types (c : Core) (env : Env) (l : loc) (o : option persister).

Lemma via_killActivation o n c : via o c → via o (killActivation n c).
Proof. intros. unfold killActivation. via. Qed.

Lemma via_destroyDSlot o env l c : via o c → via o (destroyDSlot env l c).
Proof. intros. unfold destroyDSlot. via. Qed.
End Handlers.

#[export] Hint Resolve via_killActivation via_destroyDSlot : via.

Section Dispatch.
Context {CA : ClassAdLib} {SL : SecurityLib} {RS : Persist.RecordStore}.
Implicit Types (c : Core) (env : Env) (l : loc) (o : option persister).

Lemma via_releaseSlot o env l c : via o c → via o (releaseSlot env l c).
Proof. intros. unfold releaseSlot. via. Qed.

Lemma via_claimedBlock o env ev id l c : via o c → via o (claimedBlock env ev id l c).2.
Proof.
  intros Hv. unfold claimedBlock. case_match; [|done]. pose proof (via_publicAd o env l c Hv).
  by destruct (publicAd env l c).
Qed.

Lemma via_leftoversBlock o env ev id l c : via o c → via o (leftoversBlock env ev id l c).2.
Proof.
  intros Hv. unfold leftoversBlock. case_match; [|done]. pose proof (via_publicAd o env l c Hv).
  by destruct (publicAd env l c).
Qed.

Lemma via_doRequestClaimPSlot o env ev l cl c : via o c → via o (doRequestClaimPSlot env ev l cl c).
Proof.
  intros Hv. unfold doRequestClaimPSlot. cbn zeta.
  repeat first
    [ match goal with |- context [claimedBlock env ev ?x ?y ?c0] =>
        assert (via o (claimedBlock env ev x y c0).2) as HA by (apply via_claimedBlock; eauto 20 with via);
        destruct (claimedBlock env ev x y c0) as [claimed c2]; cbn [snd] in HA end
    | match goal with |- context [leftoversBlock env ev ?x ?y ?c0] =>
        assert (via o (leftoversBlock env ev x y c0).2) as HB by (apply via_leftoversBlock; eauto 20 with via);
        destruct (leftoversBlock env ev x y c0) as [lo c3]; cbn [snd] in HB end
    | case_match ]; simplify_eq; eauto 20 with via.
Qed.

Lemma via_doRequestClaim o env ev c : via o c → via o (doRequestClaim env ev c).
Proof.
  intros Hv. unfold doRequestClaim. cbn zeta.
  repeat first
    [ match goal with |- context [claimedBlock env ev ?x ?y ?c0] =>
        assert (via o (claimedBlock env ev x y c0).2) as HA by (apply via_claimedBlock; eauto 20 with via);
        destruct (claimedBlock env ev x y c0) as [claimed c2]; cbn [snd] in HA end
    | case_match ]; simplify_eq; eauto 20 using via_doRequestClaimPSlot with via.
Qed.

Lemma via_finishActivate o env l n act ad ch c : via o c → via o (finishActivate env l n act ad ch c).
Proof. intros. unfold finishActivate. via. Qed.

Lemma via_doActivateClaim o env id job ch c : via o c → via o (doActivateClaim env id job ch c).
Proof.
  intros Hv. unfold doActivateClaim, activateStarter. cbn zeta.
  repeat first
    [ match goal with |- context [publicAd env ?x ?c0] =>
        assert (via o (publicAd env x c0).2) as HP by (apply via_publicAd; eauto 20 with via);
        destruct (publicAd env x c0) as [ad c']; cbn [snd] in HP end
    | case_match ]; simplify_eq; eauto 20 using via_finishActivate with via.
Qed.

Lemma via_adoptSlot o rec st : via o (as_core st) → via o (as_core (adoptSlot rec st)).
Proof. intros. unfold adoptSlot, adoptStarter. repeat case_match; cbn [as_core]; simplify_eq; eauto 20 with via. Qed.

Lemma via_adoptRecord o st rec : via o (as_core st) → via o (as_core (adoptRecord st rec)).
Proof.
  intros Hv. unfold adoptRecord. case_match; [done|]. case_match; [|by apply via_adoptSlot].
  assert (via o (reconstructDSlot rec (as_core st)).2) as H1.
  { unfold reconstructDSlot. repeat case_match; cbn [snd]; eauto 20 with via. }
  destruct (reconstructDSlot rec (as_core st)) as [[] c']; cbn [snd] in H1; [by apply via_adoptSlot|].
  cbn [as_core]. by apply via_storeDelete.
Qed.

Lemma via_doAdopt o env c : via o c → via o (doAdopt env c).
Proof.
  intros Hv. unfold doAdopt. destruct (pers c) as [p|]; [|done].
  set (st := foldl adoptRecord _ _).
  assert (via o (as_core st)) as H1.
  { unfold st. change c with (as_core (mkAdoptState c ∅ 0)) in Hv. revert Hv.
    generalize (mkAdoptState c ∅ 0) as st0. induction (Persist.rs_list (store p)) as [|r rs IH]; [done|].
    intros st0 Hv. cbn. by apply IH, via_adoptRecord. }
  clearbody st. set (c1 := foldl _ _ _).
  assert (via o c1) by (apply via_foldl; [intros; by apply via_refresh|done]).
  case_match; eauto with via.
Qed.

(** Whatever the event, the persister moves by queueing records and deleting them. *)
Lemma via_handle o env ev c : via o c → via o (handle env ev c).
Proof.
  intros Hv. destruct ev; cbn [handle]; eauto using via_doRequestClaim, via_doActivateClaim, via_doAdopt with via.
  - unfold doMatchInfo. via.
  - unfold doMatchTimeout. via.
  - unfold doReleaseByClaimID. repeat case_match; [by apply via_releaseSlot|done].
  - repeat case_match; [by apply via_releaseSlot|done].
  - unfold doAliveOK. via.
  - unfold doStarterUpdate. via.
  - unfold doStarterFinal. via.
  - unfold doStarterExited. via.
  - unfold doStarterHello. via.
  - unfold doAdoptFailed. repeat case_match; eauto 20 using via_releaseSlot with via.
  - unfold doDeactivate. via.
  - unfold doVacate. via.
  - unfold doVacateEscalate. via.
Qed.

(** Advertising does not touch the persister at all. *)
Lemma pers_emitAll es c : pers (emitAll es c) = pers c.
Proof. revert c. induction es as [|e es IH]; intros c; [done|]. apply (IH (emit e c)). Qed.

Lemma pers_foldl {A} (f : Core → A → Core) (xs : list A) c :
  (∀ c x, pers (f c x) = pers c) → pers (foldl f c xs) = pers c.
Proof. intros Hf. revert c. induction xs as [|x xs IH]; intros c; [done|]. cbn. by rewrite IH. Qed.

Lemma pers_tick env c : pers (tick env c) = pers c.
Proof.
  unfold tick, Advertise. repeat case_match; try done. apply pers_foldl. clear. intros c l.
  unfold advertiseSlot, publicAd. destruct (heap c !! l); cbn; repeat case_match; by rewrite ?pers_emitAll.
Qed.

Lemma pers_shutdown env c : pers (shutdown env c) = pers c.
Proof.
  unfold shutdown, Invalidate. case_match; [|done]. apply pers_foldl. clear. intros c l.
  case_match; [|done]. apply pers_emitAll.
Qed.

Lemma pers_prime c : pers (prime c) = pers c.
Proof.
  unfold prime. case_match; [|done]. clear. generalize (slots c) as ls. intros ls. revert c.
  induction ls as [|l ls IH]; intros c; [done|]. cbn [foldl]. rewrite IH. unfold primeSlot.
  destruct (minter c); [|done]. by destruct (Claim.Mint _) as [? [?|]].
Qed.
End Dispatch.
