(* ===== verification/Shutdown.v ===== *)
(** * Starting and stopping the startd (internal/startd/startd.go)

    [Start] runs two goroutines, the event loop and the writer of the persister; [Stop]
    cancels the loop, waits for it, then tells the writer to flush and waits for it.  Each
    step below is what one goroutine does between two points where the others can run. *)

From S2P Require Import Prelude GoLang ClassAd Claim Slot Persist Persister StarterMsg Reconnect.
From S2P Require Import Core CoreFrame CoreDemo CoreReg CorePersist.

Import Core.

Local Open Scope Z_scope.
Local Open Scope ep_scope.

Module Shutdown.
Section Shutdown.
Context {CA : ClassAdLib} {SL : SecurityLib} {RS : Persist.RecordStore}.

(** The writer ([persister.run]): in its [select], about to flush, or committing a batch;
    the flag says whether it is the final flush. *)
Inductive wpc := WIdle | WTake (fin : bool) | WCommit (fin : bool) | WGone.

(** [Stop]: not called, waiting for the loop, waiting for the writer, returned. *)
Inductive spc := SNone | SWaitLoop | SWaitWriter | SReturned.

#[global] Instance spc_eq_dec : EqDecision spc.
Proof. solve_decision. Defined.

Record daemon := mkDaemon {
  core : Core;
  events : list Event;
  cancelled : bool;
  loopDone : bool;
  wake : bool;
  done_ : bool;
  writer : wpc;
  stopper : spc;
  (** Ghost: what happened to the persister since [Start]. *)
  plog : list plabel
}.

Definition Start (c : Core) : daemon := mkDaemon c [] false false false false WIdle SNone [].

Definition afterFlush (fin : bool) : wpc := if fin then WGone else WIdle.

(** The first half of [flush]. *)
Inductive takes : bool → persister → wpc → persister → list plabel → Prop :=
| take_none fin p : pending p = ∅ → takes fin p (afterFlush fin) p []
| take_some fin p b :
    pending p ≠ ∅ → b ≡ₚ (map_to_list (pending p)).*2 → takes fin p (WCommit fin) (mkPersister ∅ b (store p)) [LTau].

(** What handling an event did to the persister. *)
Definition loopLog (c c' : Core) (ls : list plabel) : Prop :=
  match pers c, pers c' with
  | Some p, Some p' => Forall ofLoop ls ∧ prun ls p p'
  | _, _ => ls = []
  end.

(** Who moves: the outside (an event is submitted, the context given to [Start] is
    cancelled, a supervisor receives from its vacate channel), the loop handling an event, the loop otherwise, the writer or [Stop]. *)
Inductive dlabel := DOutside | DEvent (ev : Event) | DLoop | DWork.

(** A [put] while an event is handled leaves a token in [wake]. *)
Inductive dstep : dlabel → daemon → daemon → Prop :=
| d_submit ev c es k ld w dn wr st g :
    dstep DOutside (mkDaemon c es k ld w dn wr st g) (mkDaemon c (Submit ev es) k ld w dn wr st g)
| d_cancel c es k ld w dn wr st g :
    dstep DOutside (mkDaemon c es k ld w dn wr st g) (mkDaemon c es true ld w dn wr st g)
| d_supervise n act act' msg c es k ld w dn wr st g :
    activations c !! n = Some act → vacateCh act = Some msg → vacateSend msg act' = (act, true) →
    dstep DOutside (mkDaemon c es k ld w dn wr st g)
      (mkDaemon (set_activations (<[n := act']> (activations c)) c) es k ld w dn wr st g)
| d_event env ev ls c es k w dn wr st g :
    loopLog c (handle env ev c) ls →
    dstep (DEvent ev) (mkDaemon c (ev :: es) k false w dn wr st g)
      (mkDaemon (handle env ev c) es k false (w || negb (bool_decide (ls = []))) dn wr st (g ++ ls))
| d_tick env c es k w dn wr st g :
    dstep DLoop (mkDaemon c es k false w dn wr st g) (mkDaemon (tick env c) es k false w dn wr st g)
| d_exit env c es w dn wr st g :
    dstep DLoop (mkDaemon c es true false w dn wr st g) (mkDaemon (shutdown env c) es true true w dn wr st g)
| d_wake c es k ld dn st g :
    dstep DWork (mkDaemon c es k ld true dn WIdle st g) (mkDaemon c es k ld false dn (WTake false) st g)
| d_done c es k ld w st g :
    dstep DWork (mkDaemon c es k ld w true WIdle st g) (mkDaemon c es k ld w true (WTake true) st g)
| d_take fin c p p' wr' ls es k ld w dn st g :
    pers c = Some p → takes fin p wr' p' ls →
    dstep DWork (mkDaemon c es k ld w dn (WTake fin) st g) (mkDaemon (set_pers (Some p') c) es k ld w dn wr' st (g ++ ls))
| d_commit fin c p rec rest es k ld w dn st g :
    pers c = Some p → batch p = rec :: rest →
    dstep DWork (mkDaemon c es k ld w dn (WCommit fin) st g)
      (mkDaemon (set_pers (Some (mkPersister (pending p) rest (commit (store p) rec))) c) es k ld w dn (WCommit fin) st (g ++ [LTau]))
| d_flushed fin c p es k ld w dn st g :
    pers c = Some p → batch p = [] →
    dstep DWork (mkDaemon c es k ld w dn (WCommit fin) st g) (mkDaemon c es k ld w dn (afterFlush fin) st g)
| d_stop c es k ld w dn wr g :
    dstep DWork (mkDaemon c es k ld w dn wr SNone g) (mkDaemon c es true ld w dn wr SWaitLoop g)
| d_joined c es k w dn wr g :
    dstep DWork (mkDaemon c es k true w dn wr SWaitLoop g)
      (match pers c with
       | None => mkDaemon c es k true w dn wr SReturned g
       | Some _ => mkDaemon c es k true w true wr SWaitWriter g
       end)
| d_returned c es k ld w dn g :
    dstep DWork (mkDaemon c es k ld w dn WGone SWaitWriter g) (mkDaemon c es k ld w dn WGone SReturned g).

(** The runs in which every event that is handled is one that [admits] allows. *)
Inductive ran (admits : Event → Core → Prop) (c0 : Core) : daemon → Prop :=
| ran_start : ran admits c0 (Start c0)
| ran_step lb d d' :
    ran admits c0 d → dstep lb d d' → (∀ ev, lb = DEvent ev → admits ev (core d)) → ran admits c0 d'.

(** The loop can always handle the next event: the log exists. *)
Lemma loopLog_exists env ev c : ∃ ls, loopLog c (handle env ev c) ls.
Proof.
  pose proof (via_handle (pers c) env ev c (via_refl c)) as Hv. unfold via in Hv. unfold loopLog.
  destruct (pers c) as [p|], (pers (handle env ev c)) as [p'|]; try done; try (by exists []).
Qed.

(** ** The invariant *)

Definition finalFlush (w : wpc) : bool := match w with WTake true | WCommit true | WGone => true | _ => false end.

Record ok (p0 : persister) (d : daemon) : Prop := {
  ok_pers : ∃ p, pers (core d) = Some p ∧ prun (plog d) p0 p ∧
    (match writer d with WCommit _ => True | _ => batch p = [] end) ∧
    (match writer d with WCommit true | WGone => pending p = ∅ | _ => True end) ∧
    (pending p ≠ ∅ → wake d = true ∨ (∃ fin, writer d = WTake fin) ∨ done_ d = true);
  ok_final : finalFlush (writer d) = true → done_ d = true;
  ok_done : done_ d = true → loopDone d = true;
  ok_stop : match stopper d with
            | SNone => done_ d = false
            | SWaitLoop => cancelled d = true ∧ done_ d = false
            | SWaitWriter => done_ d = true
            | SReturned => done_ d = true ∧ writer d = WGone
            end
}.

Lemma prun_app ls ls' p p' p'' : prun ls p p' → prun ls' p' p'' → prun (ls ++ ls') p p''.
Proof. induction 1; [done|]. intros. econstructor; eauto. Qed.

(** The loop never touches the batch, and only fills [pending] with a [put]. *)
Lemma loop_batch ls p p' : Forall ofLoop ls → prun ls p p' → batch p' = batch p.
Proof.
  intros Hl Hr. induction Hr as [|lb ls p p' p'' Hs Hr IH]; [done|]. apply Forall_cons in Hl as [Hlb Hl].
  rewrite (IH Hl). by destruct Hs.
Qed.

Lemma handled env ev c ls p p0 g :
  loopLog c (handle env ev c) ls → pers c = Some p → prun g p0 p →
  ∃ p', pers (handle env ev c) = Some p' ∧ prun (g ++ ls) p0 p' ∧ batch p' = batch p ∧ (ls = [] → p' = p).
Proof.
  intros Hl Hp Hg. unfold loopLog in Hl. pose proof (via_handle (pers c) env ev c (via_refl c)) as Hv.
  unfold via in Hv. rewrite Hp in *. destruct (pers (handle env ev c)) as [p'|]; [|done]. destruct Hl as [H1 H2].
  exists p'. split_and!; [done|by eapply prun_app|by eapply loop_batch|]. intros ->. by inversion H2.
Qed.

Lemma ok_step p0 o d d' : ok p0 d → dstep o d d' → ok p0 d'.
Proof.
  intros [(p & Hp & Hr & Hb & Hpe & Hw) Hf Hd Hs] Hst.
  destruct Hst as [ev c es k ld w dn wr st g|c es k ld w dn wr st g|n act act' msg c es k ld w dn wr st g _ _ _|env ev ls c es k w dn wr st g Hl|env c es k w dn wr st g
    |env c es w dn wr st g|c es k ld dn st g|c es k ld w st g|fin c q p' wr' ls es k ld w dn st g Hq Ht
    |fin c q rec rest es k ld w dn st g Hq Hbq|fin c q es k ld w dn st g Hq Hbq|c es k ld w dn wr g|c es k w dn wr g|c es k ld w dn g];
    cbn in *.
  - split; cbn; try done. by exists p.
  - split; cbn; try done; [by exists p|by destruct st; naive_solver].
  - split; cbn; try done. by exists p.
  - destruct (handled env ev c ls p p0 g Hl Hp Hr) as (p' & Hp' & Hr' & Hb' & Hls).
    assert (dn = false) as -> by (destruct dn; [by specialize (Hd eq_refl)|done]).
    assert (finalFlush wr = false) as Hfw by (destruct (finalFlush wr); [by specialize (Hf eq_refl)|done]).
    split; cbn; try done. exists p'. rewrite Hb'. split_and!; [done|done|done| |].
    + by destruct wr as [|[]|[]|].
    + intros Hne. case_bool_decide as El; cbn; [|left; apply orb_true_r].
      rewrite (Hls El) in Hne. rewrite orb_false_r. by apply Hw.
  - split; cbn; try done. exists p. by rewrite pers_tick.
  - split; cbn; try done. exists p. by rewrite pers_shutdown.
  - split; cbn; try done; [|destruct st; naive_solver].
    exists p. split_and!; try done. intros _. right. left. by eexists.
  - split; cbn; try done; [|destruct st; naive_solver].
    exists p. split_and!; try done. intros _. right. left. by eexists.
  - rewrite Hp in Hq. injection Hq as <-. destruct Ht as [fin p He|fin p b Hne Hpm].
    + split; cbn; try done; [|by destruct fin|destruct st; naive_solver].
      exists p. rewrite app_nil_r. split_and!; [done|done|by destruct fin|by destruct fin|done].
    + split; cbn; try done; [|destruct st; naive_solver].
      eexists. split; [reflexivity|]. cbn. split_and!; [|done|by destruct fin|done].
      eapply prun_snoc; [done|]. by apply PTake.
  - rewrite Hp in Hq. injection Hq as <-. split; cbn; try done.
    eexists. split; [reflexivity|]. cbn. split_and!; [|done|by destruct fin|].
    + eapply prun_snoc; [done|]. by apply PCommit.
    + done.
  - rewrite Hp in Hq. injection Hq as <-. split; cbn; try done; [|by destruct fin|destruct st; naive_solver].
    exists p. split_and!; [done|done|by destruct fin|by destruct fin|].
    intros Hne. destruct (Hw Hne) as [?|[[? ?]|?]]; [by left|done|by right; right].
  - split; cbn; try done. by exists p.
  - rewrite Hp. split; cbn; try done.
    exists p. split_and!; try done. intros _. by right; right.
  - split; cbn; try done. by exists p.
Qed.

Lemma ran_ok admits c0 p0 d : pers c0 = Some p0 → idle p0 → ran admits c0 d → ok p0 d.
Proof.
  intros Hp [Hpe Hb] Hr. induction Hr as [|lb d d' Hr IH Hs Ha]; [|by eapply ok_step].
  split; cbn; try done. exists p0. split_and!; try done. apply prun_nil.
Qed.

(** ** The runs are runs of the core *)

Lemma set_pers_same c p : pers c = Some p → set_pers (Some p) c = c.
Proof. destruct c. cbn. by intros ->. Qed.

Lemma ran_loop_runs admits c0 d lb d' : ran admits c0 d → dstep lb d d' → loopDone d' = false → loopDone d = false.
Proof. intros _ Hs. destruct Hs; cbn; try done. by destruct (pers c). Qed.

Lemma ran_reachable c0 p0 d :
  pers c0 = Some p0 → idle p0 → ran event_ok c0 d → loopDone d = false → reachable any_event c0 (core d).
Proof.
  intros Hp Hi Hr. induction Hr as [|lb d d' Hr IH Hs Ha]; intros Hl; [apply reach_refl|].
  specialize (IH (ran_loop_runs _ _ _ _ _ Hr Hs Hl)). pose proof (ran_ok _ _ _ _ Hp Hi Hr) as [(p & Hq & _ & Hb & _) _ _ _].
  destruct Hs; cbn in *; try done.
  - eapply reach_step; [exact IH|by eapply step_supervisor|done].
  - eapply reach_step; [exact IH|apply step_event|done]. by apply Ha.
  - eapply reach_step; [exact IH|apply step_tick|done].
  - match goal with H : takes _ _ _ _ _ |- _ => destruct H as [fin q He|fin q b Hne Hpm] end.
    + by rewrite set_pers_same.
    + simplify_eq. eapply reach_step; [exact IH|by eapply step_persist; [|apply PTake]|done].
  - eapply reach_step; [exact IH|by eapply step_persist; [|apply PCommit]|done].
  - by destruct (pers c).
Qed.

(** ** Stopping *)

(** What is left to do for the writer and for [Stop]. *)
Definition writerWork (p : persister) (wake : bool) (w : wpc) : nat :=
  let n := size (pending p) in
  let extra := if wake then (3 + n)%nat else 0%nat in
  match w with
  | WGone => 0
  | WCommit true => 1 + length (batch p)
  | WTake true => 2 + n
  | WIdle => 3 + n + extra
  | WCommit false => 4 + length (batch p) + n + extra
  | WTake false => 5 + 2 * n + extra
  end%nat.

Definition stopWork (s : spc) : nat :=
  match s with SNone => 3 | SWaitLoop => 2 | SWaitWriter => 1 | SReturned => 0 end%nat.

Definition work (d : daemon) : nat :=
  match pers (core d) with
  | Some p => writerWork p (wake d) (writer d) + stopWork (stopper d)
  | None => stopWork (stopper d)
  end%nat.

(** Once the loop has ended, everything but the outside brings the end closer. *)
Lemma work_decreases p0 lb d d' :
  ok p0 d → loopDone d = true → dstep lb d d' → lb ≠ DOutside → (work d' < work d)%nat.
Proof.
  intros [(p & Hp & _ & Hb & _) _ _ _] Hl Hs Hn. unfold work.
  destruct Hs; cbn in *; simplify_eq; try done; rewrite ?Hp; cbn; try lia.
  - match goal with H : takes _ _ _ _ _ |- _ => destruct H as [fin q He|fin q b Hne Hpm] end.
    + try (rewrite Hp in *; simplify_eq). destruct fin; cbn; rewrite ?He; destruct w; cbn; lia.
    + try (rewrite Hp in *; simplify_eq).
      assert (length b = size (pending q)) as Hlen.
      { by rewrite Hpm, length_fmap, length_map_to_list. }
      destruct fin; cbn; rewrite ?map_size_empty, ?Hlen; destruct w; cbn; lia.
  - try (rewrite Hp in *; simplify_eq). match goal with H : batch _ = _ |- _ => rewrite H end.
    destruct fin; cbn; lia.
  - try (rewrite Hp in *; simplify_eq). match goal with H : batch _ = _ |- _ => rewrite H end.
    destruct fin; cbn; lia.
  - rewrite Hp. lia.
Qed.

(** Somebody can always move until [Stop] has returned. *)
Lemma stop_progress p0 d :
  ok p0 d → stopper d ≠ SNone → stopper d ≠ SReturned →
  if loopDone d then ∃ d', dstep DWork d d' else ∀ env : Env, ∃ d', dstep DLoop d d' ∧ loopDone d' = true.
Proof.
  intros [(p & Hp & _ & Hb & _) _ Hd Hs] H1 H2. destruct d as [c es k ld w dn wr st g]. cbn in *.
  destruct st; try done.
  - destruct Hs as [-> ->]. destruct ld; [eexists; apply d_joined|].
    intros env. eexists. split; [apply (d_exit env)|done].
  - subst dn. rewrite Hd by done. destruct wr as [|fin|fin|].
    + eexists. apply d_done.
    + destruct (decide (pending p = ∅)); eexists; eapply d_take; try done; [by apply take_none|by apply take_some].
    + destruct (batch p) eqn:E; eexists; [by eapply d_flushed|by eapply d_commit].
    + eexists. apply d_returned.
Qed.

(** A writer that sleeps when [Stop] is called still flushes everything. *)
Lemma commit_all admits c0 b c pe s es k ld w dn fin st g :
  ran admits c0 (mkDaemon (set_pers (Some (mkPersister pe b s)) c) es k ld w dn (WCommit fin) st g) →
  ran admits c0 (mkDaemon (set_pers (Some (mkPersister pe [] (foldl commit s b))) c) es k ld w dn (WCommit fin) st
                   (g ++ replicate (length b) LTau)).
Proof.
  revert s g. induction b as [|r b IH]; intros s g Hr; cbn; [by rewrite app_nil_r|].
  replace (g ++ LTau :: replicate (length b) LTau) with ((g ++ [LTau]) ++ replicate (length b) LTau) by (by rewrite <-app_assoc).
  apply IH. eapply ran_step;
    [exact Hr|exact (d_commit fin (set_pers (Some (mkPersister pe (r :: b) s)) c) _ r b es k ld w dn st g eq_refl eq_refl)|done].
Qed.

Lemma stops admits c0 env c p es k w g :
  ran admits c0 (mkDaemon c es k false w false WIdle SNone g) → pers c = Some p → batch p = [] →
  ∃ i d, ran admits c0 d ∧ stopper d = SReturned ∧
    core d = set_pers (Some (flush id p)) (shutdown env c) ∧ plog d = g ++ replicate i LTau.
Proof.
  intros Hr Hp Hb. set (c1 := shutdown env c). assert (pers c1 = Some p) as Hp1 by (unfold c1; by rewrite pers_shutdown).
  assert (ran admits c0 (mkDaemon c1 es true true w true (WTake true) SWaitWriter g)) as H1.
  { eapply ran_step; [|apply d_done|done].
    pose proof (d_joined c1 es true w false WIdle g) as Hj. rewrite Hp1 in Hj.
    eapply ran_step; [|exact Hj|done]. eapply ran_step; [|apply d_exit|done]. eapply ran_step; [exact Hr|apply d_stop|done]. }
  unfold flush. case_bool_decide as He.
  - exists 0%nat, (mkDaemon c1 es true true w true WGone SReturned g). cbn. rewrite app_nil_r. split_and!; [|done|by rewrite set_pers_same|done].
    eapply ran_step; [|apply d_returned|done].
    pose proof (d_take true c1 p p WGone [] es true true w true SWaitWriter g Hp1 (take_none true p He)) as Ht.
    rewrite set_pers_same, app_nil_r in Ht by done. by eapply ran_step.
  - set (b := (map_to_list (pending p)).*2).
    pose proof (d_take true c1 p _ _ _ es true true w true SWaitWriter g Hp1 (take_some true p b He (reflexivity _))) as Ht.
    eexists (S (length b)), _. split; [|split; [|split]].
    + eapply ran_step; [|apply d_returned|done].
      eapply ran_step; [apply commit_all; eapply ran_step; [exact H1|exact Ht|done]|eapply (d_flushed true); reflexivity|done].
    + done.
    + cbn. by rewrite Hb.
    + cbn. by rewrite <-app_assoc.
Qed.

(** C20: Stop returns.  After [Stop] was called the loop can leave at any of its turns; once
    it has left, somebody can move until [Stop] has returned, and every step, whoever
    makes it and whatever events are still submitted, brings that closer: a measure of
    the work left strictly decreases. *)
Theorem stop_returns admits c0 p0 d :
  pers c0 = Some p0 → idle p0 → ran admits c0 d → stopper d ≠ SNone →
  (loopDone d = false → ∀ env : Env, ∃ d', dstep DLoop d d' ∧ loopDone d' = true) ∧
  (loopDone d = true → stopper d ≠ SReturned → ∃ d', dstep DWork d d') ∧
  (loopDone d = true → ∀ lb d', dstep lb d d' → loopDone d' = true ∧ (lb ≠ DOutside → (work d' < work d)%nat)).
Proof.
  intros Hp Hi Hr Hs. pose proof (ran_ok _ _ _ _ Hp Hi Hr) as Hok. split_and!.
  - intros Hl env. destruct (decide (stopper d = SReturned)) as [He|He].
    + destruct Hok as [_ _ Hd Hst]. rewrite He in Hst. destruct Hst as [Hdn _]. by rewrite (Hd Hdn) in Hl.
    + pose proof (stop_progress p0 d Hok Hs He) as H. rewrite Hl in H. exact (H env).
  - intros Hl He. pose proof (stop_progress p0 d Hok Hs He) as H. by rewrite Hl in H.
  - intros Hl lb d' Hst. split; [|by eapply work_decreases]. destruct Hst; try done. cbn in *. by destruct (pers c).
Qed.

End Shutdown.
End Shutdown.

(** ** Witnesses: a startd that is stopped while the writer sleeps *)

Import RefClassAd RefSecurity Shutdown.

Definition demoPersister : persister := mkPersister ∅ [] demoRStore.

Lemma demo0_pers : pers demo0 = Some demoPersister.
Proof. reflexivity. Qed.

Definition stopping : daemon := mkDaemon demo0 [] true false false false WIdle SWaitLoop [].
Definition stopped : daemon := mkDaemon (shutdown demoEnv demo0) [] true true false true WGone SReturned [].

Lemma stopping_ran admits : ran admits demo0 stopping.
Proof. eapply ran_step; [apply ran_start|apply d_stop|done]. Qed.

Lemma stopped_ran admits : ran admits demo0 stopped.
Proof.
  eapply ran_step; [|apply d_returned|done].
  eapply ran_step; [|apply (d_take true (shutdown demoEnv demo0) demoPersister demoPersister WGone [] [] true true false true SWaitWriter []);
    [reflexivity|by apply (take_none true)]|done].
  eapply ran_step; [|apply d_done|done].
  pose proof (d_joined (shutdown demoEnv demo0) [] true false false WIdle []) as Hj.
  eapply ran_step; [|exact Hj|done].
  eapply ran_step; [apply stopping_ran|apply d_exit|done].
Qed.

Lemma stop_returns_witness :
  (∃ d', dstep DLoop stopping d' ∧ loopDone d' = true) ∧
  (∃ d', dstep DWork (mkDaemon demo0 [] true true false false WIdle SWaitLoop []) d' ∧
         (work d' < work (mkDaemon demo0 [] true true false false WIdle SWaitLoop []))%nat).
Proof.
  split.
  - destruct (stop_returns (λ _ _, True) demo0 demoPersister stopping demo0_pers) as (H & _).
    + done.
    + apply stopping_ran.
    + done.
    + exact (H eq_refl demoEnv).
  - eexists. split; [apply d_joined|]. vm_compute. repeat constructor.
Defined.

