(* ===== verification/CoreInit.v ===== *)
(** * The startd as it starts, and the registry theorem

    A core built from the slots the configuration defines satisfies the registry
    invariant, so every reachable state does. *)

From S2P Require Import Prelude GoLang ClassAd Claim Slot SlotFacts Persist Persister StarterMsg Reconnect.
From S2P Require Import Registry Core CoreFrame CoreDemo CoreReg.

Import Core.

Local Open Scope Z_scope.
Local Open Scope ep_scope.

Section Init.
Context {CA : ClassAdLib} {SL : SecurityLib} {RS : Persist.RecordStore}.
Implicit Types (c : Core) (s : Slot.Slot) (env : Env) (l : loc).

(** What [BuildSlots] guarantees of each slot. *)
Definition configured (hostname : string) s : Prop :=
  Slot.Name s = Slot.staticName (Slot.SlotID s) hostname ∧ Slot.Machine s = hostname ∧
  Slot.SlotType s ≠ Slot.SlotTypeDynamic ∧ res_ok (Slot.fullRes s) ∧ Slot.Res s = Slot.fullRes s.

Lemma reg_primeSlot c l : regOf (primeSlot c l) = regOf c.
Proof.
  unfold primeSlot. destruct (minter c) as [m|]; [|done].
  destruct (Claim.Mint m) as [m' [cl|]]; [|done]. by rewrite regOf_updSlot by apply _.
Qed.

Lemma reg_prime c : regOf (prime c) = regOf c.
Proof.
  unfold prime. case_match; [|done]. clear. generalize (slots c) as ls. intros ls. revert c.
  induction ls as [|l ls IH]; intros c; [done|]. simpl. by rewrite IH, reg_primeSlot.
Qed.

Lemma elem_of_zip_seq (names : list string) n l :
  (n, l) ∈ zip names (List.seq 0 (length names)) ↔ names !! l = Some n.
Proof.
  rewrite list_elem_of_lookup. split.
  - intros (i & H). apply lookup_zip_Some in H as [H1 H2]. apply lookup_seq in H2 as [-> _]. done.
  - intros H. exists l. apply lookup_zip_Some. split; [done|]. apply lookup_seq. split; [done|].
    by eapply lookup_lt_Some.
Qed.

Lemma New_reg_inv hostname opts ss m st :
  Forall (configured hostname) ss → NoDup (Slot.Name <$> ss) →
  RegInv hostname (regOf (New opts ss m st)).
Proof.
  intros Hc Hnd. unfold New. rewrite reg_prime. rewrite Forall_lookup in Hc.
  set (c := mkCore _ _ _ _ _ _ _ _ _ _ _ _ _ _ _ _ _ _).
  assert (∀ l, r_heap (regOf c) !! l = shapeOf <$> ss !! l) as Hh.
  { intros l. rewrite heap_regOf. unfold c. cbn [heap]. by rewrite lookup_map_seq_0. }
  assert (∀ l, l ∈ r_live (regOf c) ↔ (l < length ss)%nat) as Hl.
  { intros l. unfold r_live, c. simpl. rewrite app_nil_r, elem_of_seq. lia. }
  assert (∀ name, kids name (regOf c) = res_zero) as Hk by done.
  split.
  - unfold r_live, c. simpl. rewrite app_nil_r. apply NoDup_seq.
  - intros l Hin%Hl. split; [done|]. rewrite Hh. apply fmap_is_Some. by apply lookup_lt_is_Some_2.
  - intros n l. unfold c at 1. cbn [regOf r_byName byName].
    replace (length ss) with (length (Slot.Name <$> ss)) by apply length_fmap.
    rewrite foldl_insert_elem, elem_of_zip_seq by (by rewrite fst_zip by (by rewrite length_seq)).
    rewrite Hl, Hh, list_lookup_fmap. unfold loc in *. destruct (ss !! l) as [s|] eqn:E; simpl.
    + pose proof (lookup_lt_Some _ _ _ E). split.
      * intros Hn. simplify_eq/=. split; [done|]. by eexists.
      * intros (_ & sh & Hsh & Hn). by simplify_eq/=.
    + split; [done|]. by intros (_ & sh & ? & _).
  - intros l sh _. rewrite Hh. destruct (ss !! l) as [s|] eqn:E; [|done]. intros [= <-].
    destruct (Hc _ _ E) as (H1 & H2 & H3 & H4 & H5). unfold slot_ok. simpl.
    split_and!; try done. intros _. split; [by rewrite H5|]. rewrite Hk, H5. apply Resources_ext; simpl; lia.
  - by intros l sh ?%elem_of_nil.
Qed.

Lemma BuildSlots_configured h cfg hostname sinful total now :
  res_ok total → 1 ≤ Slot.Cpus total →
  Forall (configured hostname) (Slot.BuildSlots h cfg hostname sinful total now) ∧
  NoDup (Slot.Name <$> Slot.BuildSlots h cfg hostname sinful total now).
Proof.
  intros Hok H1. unfold Slot.BuildSlots. destruct (Slot.partitionableConfigured cfg).
  - split; [|apply NoDup_singleton]. apply Forall_singleton. done.
  - split; [|by apply BuildStaticSlots_names].
    apply Forall_lookup_2. intros i s Hi.
    pose proof (BuildStaticSlots_machine _ _ _ _ _ _ _ _ Hi) as Hm.
    apply BuildStaticSlots_lookup in Hi as (Hn & Hid & Hr & Hf & _ & _ & Ht & _).
    unfold configured. rewrite Hn, Hid, Hf, Ht. split_and!; try done.
    by apply (splitResources_ok total (Slot.numSlots cfg total)), (list_elem_of_lookup_2 _ i).
Qed.

(** The resources of every live slot. *)
Definition liveRes c : list Slot.Resources := omap (λ l, Slot.Res <$> heap c !! l) (LiveSlots c).

(** The dynamic slots of a p-slot. *)
Definition children (p : string) c : list Slot.Slot :=
  omap (λ l, match heap c !! l with
             | Some s => if bool_decide (Slot.ParentName s = p) then Some s else None
             | None => None
             end) (dslots c).

Lemma sumZ_omap {A} (f : A → option Slot.Resources) (g : Slot.Resources → Z) ls :
  sumZ g (omap f ls) = sumZ (λ x, match f x with Some r => g r | None => 0 end) ls.
Proof. induction ls as [|x ls IH]; csimpl; [done|]. destruct (f x); csimpl; by rewrite IH. Qed.

Lemma live_sum_liveRes c : live_sum (regOf c) = res_sum (liveRes c).
Proof.
  unfold live_sum, res_sum, liveRes. rewrite !sumZ_omap.
  f_equal; apply sumZ_ext; intros l _; unfold amount; rewrite heap_regOf; by destruct (heap c !! l).
Qed.

Lemma kids_children p c : kids p (regOf c) = res_sum (Slot.Res <$> children p c).
Proof.
  assert (∀ g : Slot.Resources → Z,
    sumZ (kid_amount g p (r_heap (regOf c))) (dslots c) = sumZ g (Slot.Res <$> children p c)) as H.
  { intros g. unfold children.
    assert (∀ l, kid_amount g p (r_heap (regOf c)) l
      = match heap c !! l with
        | Some s => if bool_decide (Slot.ParentName s = p) then g (Slot.Res s) else 0
        | None => 0 end) as Hk.
    { intros l. unfold kid_amount. rewrite heap_regOf. by destruct (heap c !! l). }
    revert Hk. generalize (kid_amount g p (r_heap (regOf c))) as k. intros k Hk.
    induction (dslots c) as [|l ds IH]; csimpl; [done|]. rewrite IH, Hk.
    destruct (heap c !! l) as [s|]; csimpl; [|done]. by case_bool_decide. }
  unfold kids, res_sum. f_equal; apply H.
Qed.

(** Reading a heap of consecutive locations in order. *)
Lemma omap_map_seq (ss ls : list Slot.Slot) (k : nat) :
  (∀ i, (map_seq 0 ss : gmap loc Slot.Slot) !! (k + i)%nat = ls !! i) →
  omap (λ l, Slot.Res <$> (map_seq 0 ss : gmap loc Slot.Slot) !! l) (List.seq k (length ls))
  = Slot.Res <$> ls.
Proof.
  revert k. induction ls as [|x ls IH]; intros k H; [done|]. csimpl.
  specialize (H 0%nat) as H0. rewrite Nat.add_0_r in H0. unfold loc in *. rewrite H0. csimpl. f_equal.
  apply IH. intros i. transitivity ((x :: ls) !! S i); [|done]. rewrite <-H. f_equal. lia.
Qed.

Lemma liveRes_New opts h cf hostname sinful total now m st :
  res_ok total → 1 ≤ Slot.Cpus total →
  res_sum (liveRes (New opts (Slot.BuildSlots h cf hostname sinful total now) m st)) = total.
Proof.
  intros Hok H1. rewrite <-live_sum_liveRes. unfold New. rewrite reg_prime, live_sum_liveRes.
  set (ss := Slot.BuildSlots _ _ _ _ _ _). unfold liveRes, LiveSlots. cbn [heap slots dslots].
  rewrite app_nil_r.
  rewrite (omap_map_seq ss ss 0) by (intros i; by rewrite lookup_map_seq_0).
  unfold ss, Slot.BuildSlots. destruct (Slot.partitionableConfigured cf).
  - unfold res_sum. apply Resources_ext; simpl; lia.
  - rewrite BuildStaticSlots_Res. by apply splitResources_partition.
Qed.

(** ** The theorems *)

Section Reachable.
Context (h : Host) (cf : Config) (hostname sinful : string) (total : Slot.Resources) (t0 : Time).
Context (opts : CoreConfig) (m : option Claim.Minter) (st : option Persist.rstore).

(** The startd on a machine with these resources, as [cmd/startd] builds it. *)
Definition startup : Core := New opts (Slot.BuildSlots h cf hostname sinful total t0) m st.

Lemma startup_inv : res_ok total → 1 ≤ Slot.Cpus total → RegInv hostname (regOf startup).
Proof.
  intros H1 H2. destruct (BuildSlots_configured h cf hostname sinful total t0 H1 H2).
  by apply New_reg_inv.
Qed.

Lemma reachable_inv c :
  res_ok total → 1 ≤ Slot.Cpus total → reachable any_event startup c → RegInv hostname (regOf c).
Proof. intros H1 H2 Hr. by apply (reachable_reg hostname any_event startup c (startup_inv H1 H2) Hr). Qed.

Lemma reachable_partitioned c :
  res_ok total → 1 ≤ Slot.Cpus total → reachable any_event startup c → res_sum (liveRes c) = total.
Proof.
  intros H1 H2 Hr. destruct (reachable_reg hostname any_event startup c (startup_inv H1 H2) Hr) as (_ & _ & Hsum).
  rewrite <-live_sum_liveRes, Hsum, live_sum_liveRes. by apply liveRes_New.
Qed.


(** C26: the registry is well formed in every reachable state.  No live pointer dangles or
    is listed twice; the configured slots are not dynamic and are named after their
    number; the dynamic ones are dynamic, named after their p-slot and a number never
    above the counter; and the name index is exact: a name resolves to a slot exactly
    when that slot is live and has that name. *)
Theorem registry_well_formed c :
  res_ok total → 1 ≤ Slot.Cpus total → reachable any_event startup c →
  NoDup (LiveSlots c) ∧
  (∀ l, l ∈ LiveSlots c → (l < nextLoc c)%nat ∧ is_Some (heap c !! l)) ∧
  (∀ l s, l ∈ slots c → heap c !! l = Some s →
     Slot.IsDynamic s = false ∧ Slot.Name s = Slot.staticName (Slot.SlotID s) hostname) ∧
  (∀ l s, l ∈ dslots c → heap c !! l = Some s →
     Slot.IsDynamic s = true ∧ Slot.Name s = Slot.dynamicName (Slot.SlotID s) (Slot.SubID s) hostname ∧
     Slot.SubID s ≤ dslotSeq c) ∧
  (∀ n l s, lookupName n c = Some (l, s) ↔ l ∈ LiveSlots c ∧ heap c !! l = Some s ∧ Slot.Name s = n).
Proof.
  intros H1 H2 Hr. pose proof (reachable_inv c H1 H2 Hr) as HI.
  assert (∀ l s, heap c !! l = Some s → r_heap (regOf c) !! l = Some (shapeOf s)) as Hh
    by (intros l s Hs; by rewrite heap_regOf, Hs).
  split_and!.
  - apply (ri_nodup _ _ HI).
  - intros l Hl. destruct (ri_alloc _ _ HI l Hl) as [Hlt Hs]. split; [done|].
    by rewrite heap_regOf, fmap_is_Some in Hs.
  - intros l s Hl Hs. destruct (ri_slots _ _ HI l _ Hl (Hh l s Hs)) as (Hn & _ & Ht & _).
    split; [by apply bool_decide_eq_false|done].
  - intros l s Hl Hs. destruct (ri_dslots _ _ HI l _ Hl (Hh l s Hs)) as (Hn & _ & Ht & Hq & _).
    split; [by apply bool_decide_eq_true|done].
  - intros n l s. split; [by apply (lookupName_live hostname)|].
    intros (Hl & Hs & Hn). apply lookupName_Some. split; [|done].
    change (r_byName (regOf c) !! n = Some l). apply (ri_byName _ _ HI). split; [done|]. eauto.
Qed.

End Reachable.
End Init.

(** ** Witnesses *)

Definition demoStartup : Core :=
  startup demoHost demoConfig "h" "<h:1>" demoTotal 0 demoOpts (Some demoMinter) (Some demoRStore).

Lemma demo_total_ok : res_ok demoTotal ∧ 1 ≤ Slot.Cpus demoTotal.
Proof. split; [res_solve|simpl; lia]. Qed.

Lemma demo0_request_ok : event_ok (EvRequestClaim (demoRequest pslotID)) demo0.
Proof.
  split; [split|].
  - vm_compute. by split.
  - change (int64_range 2). unfold int64_range, two63. lia.
  - vm_compute. by split_and!.
Qed.

Lemma demo1_reachable : reachable any_event demoStartup demo1.
Proof.
  eapply reach_step; [apply reach_refl|apply step_event, demo0_request_ok|done].
Qed.


Lemma registry_well_formed_witness :
  dslots demo1 = [1%nat] ∧
  (∀ l s, l ∈ dslots demo1 → heap demo1 !! l = Some s →
     Slot.IsDynamic s = true ∧ Slot.Name s = Slot.dynamicName (Slot.SlotID s) (Slot.SubID s) "h" ∧
     Slot.SubID s ≤ dslotSeq demo1).
Proof.
  split; [vm_compute; reflexivity|].
  apply (registry_well_formed demoHost demoConfig "h" "<h:1>" demoTotal 0 demoOpts (Some demoMinter)
           (Some demoRStore)); [apply demo_total_ok..|apply demo1_reachable].
Defined.

