(* ===== verification/Lifecycle.v ===== *)
(** * The claim lifecycle

    What the core knows about one slot name is spread over the slot (state and
    activity strings), its claim (the claim state), and four maps of the loop
    (activations, keepalive and match-timer cancel functions, the name index).
    [lifeOf] gathers it; [life_ok] says the pieces agree; [AState] is the machine
    of the HTCondor state diagram, and every event moves each slot along one of
    its edges. *)

From S2P Require Import Prelude GoLang ClassAd Claim Slot SlotFacts Persist Persister StarterMsg Reconnect.
From S2P Require Import Registry Core CoreFrame CoreDemo CoreReg CoreInit.

Import Core.

Local Open Scope Z_scope.
Local Open Scope ep_scope.

Definition isS {A} (o : option A) : bool := match o with Some _ => true | None => false end.

(** The slot's part: state, activity, claim state, and whether it is partitionable. *)
Record SlotLife := mkSlotLife {
  sl_state : string;
  sl_activity : string;
  sl_claim : option Claim.State;
  sl_part : bool
}.

Record Life := mkLife {
  lf_slot : option SlotLife;
  lf_act : bool;
  lf_alive : bool;
  lf_match : bool
}.

Definition unclaimedLife (part : bool) : SlotLife := mkSlotLife "Unclaimed" "Idle" (Some Claim.Unclaimed) part.
Definition matchedLife (part : bool) : SlotLife := mkSlotLife "Matched" "Idle" (Some Claim.Unclaimed) part.
Definition idleLife : SlotLife := mkSlotLife "Claimed" "Idle" (Some Claim.ClaimedIdle) false.
Definition busyLife : SlotLife := mkSlotLife "Claimed" "Busy" (Some Claim.ClaimedBusy) false.

(** The consistent combinations: no slot, nothing running; Unclaimed; Matched, with
    or without its timer; Claimed/Idle with a keepalive loop; Claimed/Busy with a
    keepalive loop and a starter. *)
Inductive life_ok : Life → Prop :=
| ok_gone : life_ok (mkLife None false false false)
| ok_unclaimed part : life_ok (mkLife (Some (unclaimedLife part)) false false false)
| ok_matched part timer : life_ok (mkLife (Some (matchedLife part)) false false timer)
| ok_idle : life_ok (mkLife (Some idleLife) false true false)
| ok_busy : life_ok (mkLife (Some busyLife) true true false).

Lemma life_ok_inv sl a b m :
  life_ok (mkLife (Some sl) a b m) →
  (sl = unclaimedLife (sl_part sl) ∧ a = false ∧ b = false ∧ m = false) ∨
  (sl = matchedLife (sl_part sl) ∧ a = false ∧ b = false) ∨
  (sl = idleLife ∧ a = false ∧ b = true ∧ m = false) ∨
  (sl = busyLife ∧ a = true ∧ b = true ∧ m = false).
Proof. inversion 1; subst; auto 10. Qed.

Inductive AState := AUnclaimed | AMatched | AIdle | ABusy.

#[global] Instance AState_eq_dec : EqDecision AState.
Proof. solve_decision. Defined.

Section Life.
Context {CA : ClassAdLib} {SL : SecurityLib} {RS : Persist.RecordStore}.
Implicit Types (c : Core) (s : Slot.Slot) (env : Env) (l : loc).

Definition slotLife s : SlotLife :=
  mkSlotLife (Slot.state s) (Slot.activity s) (Claim.state <$> Slot.claim s) (Slot.IsPartitionable s).

Definition lifeWith (o : option SlotLife) (n : string) c : Life :=
  mkLife o (isS (activations c !! n)) (isS (aliveCancels c !! n)) (isS (matchCancels c !! n)).

Definition lifeOf c (n : string) : Life := lifeWith (slotLife <$> (snd <$> lookupName n c)) n c.

(** The state of the abstract machine; [None] when there is no such slot. *)
Definition absLife (r : Life) : option AState :=
  match lf_slot r with
  | None => None
  | Some sl =>
      if bool_decide (sl_state sl = "Matched") then Some AMatched
      else if bool_decide (sl_state sl = "Claimed")
      then if bool_decide (sl_activity sl = "Busy") then Some ABusy else Some AIdle
      else Some AUnclaimed
  end.

Definition absOf c (n : string) : option AState := absLife (lifeOf c n).

(** The edges of the state diagram, by event. *)
Definition edge (ev : Event) (a a' : option AState) : Prop :=
  match ev, a, a' with
  | EvMatchInfo _, Some AUnclaimed, Some AMatched => True
  | EvMatchTimeout _ _, Some AMatched, Some AUnclaimed => True
  | EvRequestClaim _, Some AUnclaimed, Some AIdle => True
  | EvRequestClaim _, Some AMatched, Some AIdle => True
  | EvRequestClaim _, None, Some AIdle => True
  | EvActivateClaim _ _ _, Some AIdle, Some ABusy => True
  | EvStarterExited _, Some ABusy, Some AIdle => True
  | EvAdopt _, (Some AUnclaimed | None), (Some AIdle | Some ABusy) => True
  | EvAdoptFailed _, Some ABusy, Some AIdle => True
  | EvAdoptFailed _, Some ABusy, (Some AUnclaimed | None) => True
  | EvReleaseClaim _, Some _, (Some AUnclaimed | None) => True
  | EvReleaseSlot _ _, Some _, (Some AUnclaimed | None) => True
  | _, _, _ => False
  end.

Definition moves (ev : Event) (a a' : option AState) : Prop := a' = a ∨ edge ev a a'.

Definition LifeInv c : Prop := is_Some (minter c) ∧ ∀ n, life_ok (lifeOf c n).

(** [c'] is [c] except for what it knows about [n]. *)
Definition life_set c c' (n : string) (r : Life) : Prop :=
  ∀ n', lifeOf c' n' = if bool_decide (n' = n) then r else lifeOf c n'.

Lemma lifeOf_erase c n : lifeOf (erase c) n = lifeOf c n.
Proof.
  unfold lifeOf, lookupName, deref. change (byName (erase c)) with (byName c).
  destruct (byName c !! n) as [l|]; [|done]. rewrite heap_erase. by destruct (heap c !! l).
Qed.

Lemma life_of_erase c c' n : erase c' = erase c → lifeOf c' n = lifeOf c n.
Proof. intros H. by rewrite <-lifeOf_erase, H, lifeOf_erase. Qed.

Lemma life_set_erase c c' n r : life_set (erase c) (erase c') n r → life_set c c' n r.
Proof. intros H n'. specialize (H n'). by rewrite !lifeOf_erase in H. Qed.

Lemma life_set_trans c c1 c2 n r1 r2 : life_set c c1 n r1 → life_set c1 c2 n r2 → life_set c c2 n r2.
Proof. intros H1 H2 n'. rewrite H2. case_bool_decide; [done|]. by rewrite H1, bool_decide_false. Qed.

Lemma LifeInv_set c c' n r :
  LifeInv c → life_set c c' n r → life_ok r → is_Some (minter c') → LifeInv c'.
Proof.
  intros [_ Hall] Hs Hr Hm. split; [done|]. intros n'. rewrite Hs. by case_bool_decide.
Qed.

(** The three maps agree outside [n]. *)
Definition maps_outside c c' (n : string) : Prop :=
  ∀ n', n' ≠ n → activations c' !! n' = activations c !! n' ∧
                 aliveCancels c' !! n' = aliveCancels c !! n' ∧
                 matchCancels c' !! n' = matchCancels c !! n'.

(** One slot is updated through its pointer. *)
Lemma life_upd f c c' n l s :
  (∀ n', byName c !! n' = Some l → n' = n) → byName c !! n = Some l → heap c !! l = Some s →
  byName c' = byName c → heap c' = alter f l (heap c) → maps_outside c c' n →
  life_set c c' n (lifeWith (Some (slotLife (f s))) n c').
Proof.
  intros Hinj Hn Hs Hb Hh Hm n'. unfold lifeOf, lookupName, deref. rewrite Hb.
  case_bool_decide as Hn'.
  - subst n'. rewrite Hn, Hh, lookup_alter_eq, Hs. done.
  - destruct (Hm n' Hn') as (H1 & H2 & H3). unfold lifeWith. rewrite H1, H2, H3. f_equal.
    destruct (byName c !! n') as [l'|] eqn:E; [|done].
    rewrite Hh, lookup_alter_ne; [done|]. intros ->. by apply Hn', Hinj.
Qed.

(** Only the maps change, at [n]. *)
Lemma life_maps c c' n :
  byName c' = byName c → heap c' = heap c → maps_outside c c' n →
  life_set c c' n (lifeWith (lf_slot (lifeOf c n)) n c').
Proof.
  intros Hb Hh Hm n'. unfold lifeOf, lookupName, deref. rewrite Hb, Hh.
  case_bool_decide as Hn'; [by subst|].
  destruct (Hm n' Hn') as (H1 & H2 & H3). unfold lifeWith. by rewrite H1, H2, H3.
Qed.

Lemma lifeOf_at c n l s :
  byName c !! n = Some l → heap c !! l = Some s → lifeOf c n = lifeWith (Some (slotLife s)) n c.
Proof. intros H1 H2. unfold lifeOf, lookupName, deref. by rewrite H1, H2. Qed.
End Life.

(** Discharge [maps_outside] for assignments at one key. *)
Ltac solve_maps :=
  let n' := fresh "n" in let H := fresh "H" in
  intros n' H; cbn; rewrite ?lookup_insert_ne, ?lookup_delete_ne by congruence; done.

Section Moves.
Context {CA : ClassAdLib} {SL : SecurityLib} {RS : Persist.RecordStore}.
Implicit Types (c : Core) (s : Slot.Slot) (env : Env) (l : loc) (ev : Event).

(** The invariant holds afterwards, and every slot moved along an edge of [ev]. *)
Definition life_move ev c c' : Prop := LifeInv c' ∧ ∀ n, moves ev (absOf c n) (absOf c' n).

Lemma move_stay ev c c' :
  LifeInv c → (∀ n, lifeOf c' n = lifeOf c n) → minter c' = minter c → life_move ev c c'.
Proof.
  intros [Hm Hall] Hl Hm'. split; [split; [by rewrite Hm'|]|].
  - intros n. by rewrite Hl.
  - intros n. left. unfold absOf. by rewrite Hl.
Qed.

Lemma move_erase ev c c' : LifeInv c → erase c' = erase c → life_move ev c c'.
Proof.
  intros HL He. apply move_stay; [done| |].
  - intros n. by apply life_of_erase.
  - by apply (f_equal minter) in He.
Qed.

Lemma move_set ev c c' n r :
  LifeInv c → life_set c c' n r → life_ok r → is_Some (minter c') →
  moves ev (absOf c n) (absLife r) → life_move ev c c'.
Proof.
  intros HL Hs Hr Hm Hmv. split; [by eapply LifeInv_set|].
  intros n'. unfold absOf at 2. rewrite Hs. case_bool_decide; [by subst|by left].
Qed.

Lemma move_trans ev c c1 c' :
  life_move ev c c1 → (LifeInv c1 → life_move ev c1 c') →
  (∀ n, absOf c1 n = absOf c n ∨ absOf c' n = absOf c1 n) → life_move ev c c'.
Proof.
  intros [H1 M1] H2 Hd. destruct (H2 H1) as [H3 M2]. split; [done|]. intros n.
  destruct (Hd n) as [<- | ->]; auto.
Qed.

Lemma live_byName machine c l s :
  RegInv machine (regOf c) → l ∈ LiveSlots c → heap c !! l = Some s →
  byName c !! Slot.Name s = Some l ∧ ∀ n, byName c !! n = Some l → n = Slot.Name s.
Proof.
  intros HI Hl Hs. assert (r_heap (regOf c) !! l = Some (shapeOf s)) as Hh by (by rewrite heap_regOf, Hs).
  split.
  - change (r_byName (regOf c) !! Slot.Name s = Some l). apply (ri_byName _ _ HI). eauto.
  - intros n Hn. change (r_byName (regOf c) !! n = Some l) in Hn.
    apply (ri_byName _ _ HI) in Hn as (_ & sh & Hsh & <-). by simplify_eq.
Qed.

(** The four situations a slot can be in. *)
Lemma life_cases c n l s :
  LifeInv c → byName c !! n = Some l → heap c !! l = Some s →
  let part := Slot.IsPartitionable s in
  let act := isS (activations c !! n) in
  let alive := isS (aliveCancels c !! n) in
  let timer := isS (matchCancels c !! n) in
  (slotLife s = unclaimedLife part ∧ act = false ∧ alive = false ∧ timer = false) ∨
  (slotLife s = matchedLife part ∧ act = false ∧ alive = false) ∨
  (slotLife s = idleLife ∧ act = false ∧ alive = true ∧ timer = false) ∨
  (slotLife s = busyLife ∧ act = true ∧ alive = true ∧ timer = false).
Proof.
  intros [_ Hall] Hn Hs. cbn zeta. specialize (Hall n). rewrite (lifeOf_at c n l s) in Hall by done.
  by apply life_ok_inv in Hall.
Qed.

Lemma isS_false {A} (o : option A) : isS o = false → o = None.
Proof. by destruct o. Qed.

Lemma absOf_at c n l s :
  byName c !! n = Some l → heap c !! l = Some s →
  absOf c n = absLife (lifeWith (Some (slotLife s)) n c).
Proof. intros H1 H2. unfold absOf. by rewrite (lifeOf_at c n l s). Qed.
End Moves.

Section Handlers.
Context {CA : ClassAdLib} {SL : SecurityLib} {RS : Persist.RecordStore}.
Context (machine : string).
Implicit Types (c : Core) (s : Slot.Slot) (env : Env) (l : loc) (ev : Event).

(** A handler whose erased form [e] updates one live slot with [f] and the maps at
    its name. *)
Lemma move_upd ev f r c c' e l s :
  RegInv machine (regOf c) → LifeInv c → l ∈ LiveSlots c → heap c !! l = Some s →
  erase c' = e → byName e = byName c → heap e = alter f l (heap (erase c)) →
  maps_outside c e (Slot.Name s) → is_Some (minter e) →
  lifeWith (Some (slotLife (f (quiet_slot s)))) (Slot.Name s) e = r → life_ok r →
  moves ev (absOf c (Slot.Name s)) (absLife r) → life_move ev c c'.
Proof.
  intros HI HL Hl Hs He Hb Hh Hm Hmint Hr Hok Hmv.
  destruct (live_byName machine c l s HI Hl Hs) as [Hn Hinj].
  eapply (move_set _ _ _ (Slot.Name s) r); [done| |done| |done].
  - apply life_set_erase. rewrite He, <-Hr.
    apply (life_upd f (erase c) e (Slot.Name s) l (quiet_slot s)); try done.
    by rewrite heap_erase, Hs.
  - apply (f_equal minter) in He. change (minter (erase c')) with (minter c') in He. by rewrite He.
Qed.

(** A handler that only assigns to the maps, at the name of a live slot. *)
Lemma move_maps ev r c c' e n :
  LifeInv c → erase c' = e → byName e = byName c → heap e = heap (erase c) →
  maps_outside c e n → is_Some (minter e) →
  lifeWith (lf_slot (lifeOf c n)) n e = r → life_ok r →
  moves ev (absOf c n) (absLife r) → life_move ev c c'.
Proof.
  intros HL He Hb Hh Hm Hmint Hr Hok Hmv.
  eapply (move_set _ _ _ n r); [done| |done| |done].
  - apply life_set_erase. rewrite He, <-Hr. rewrite <-(lifeOf_erase c n).
    by apply life_maps.
  - apply (f_equal minter) in He. change (minter (erase c')) with (minter c') in He. by rewrite He.
Qed.

Lemma slotLife_quiet s : slotLife (quiet_slot s) = slotLife s.
Proof. done. Qed.

Lemma slotLife_claim s sl :
  slotLife s = sl → Claim.state <$> Slot.claim s = sl_claim sl ∧ Slot.state s = sl_state sl ∧
                    Slot.activity s = sl_activity sl ∧ Slot.IsPartitionable s = sl_part sl.
Proof. by intros <-. Qed.

(** Case analysis on the situation of a live slot, keeping its fields as equations. *)
Ltac life_case HI HL Hl Hs :=
  let Hn := fresh "Hn" in let Hinj := fresh "Hinj" in
  destruct (live_byName machine _ _ _ HI Hl Hs) as [Hn Hinj];
  let E := fresh "E" in let Ha := fresh "Ha" in let Hal := fresh "Hal" in let Ht := fresh "Ht" in
  let Hx := fresh "Habs" in
  pose proof (absOf_at _ _ _ _ Hn Hs) as Hx;
  destruct (life_cases _ _ _ _ HL Hn Hs) as [(E & Ha & Hal & Ht)|[(E & Ha & Hal)|[(E & Ha & Hal & Ht)|(E & Ha & Hal & Ht)]]];
  rewrite E in Hx; cbn in Hx;
  let Ecl := fresh "Ecl" in let Est := fresh "Est" in let Eac := fresh "Eac" in
  let Ept := fresh "Ept" in
  apply slotLife_claim in E as (Ecl & Est & Eac & Ept); simpl in Ecl, Est, Eac, Ept, Ha, Hal.

Lemma move_doMatchInfo env id c :
  RegInv machine (regOf c) → LifeInv c → life_move (EvMatchInfo id) c (doMatchInfo env id c).
Proof.
  intros HI HL. unfold doMatchInfo.
  destruct (findSlotByClaimID id c) as [[l s]|] eqn:Ef; [|by apply move_erase].
  apply findSlotByClaimID_Some in Ef as (Hl & Hs & cl & Hcl & _). rewrite Hcl.
  case_bool_decide as H1; [|by apply move_erase]. case_bool_decide as H2; [|by apply move_erase].
  cbn [negb]. life_case HI HL Hl Hs; try congruence.
  eapply (move_upd _ (Slot.SetStateActivity "Matched" "Idle" (now env))
            (mkLife (Some (matchedLife (Slot.IsPartitionable s))) false false true) _ _ _ l s);
    [done..|autorewrite with erase; reflexivity|reflexivity|reflexivity|solve_maps| | | |].
  - apply HL.
  - unfold lifeWith, matchedLife, slotLife. cbn. rewrite Ha, Hal, lookup_insert_eq, Hcl. cbn. by rewrite H1.
  - constructor.
  - right. by rewrite Habs.
Qed.

(** ** Statements the lifecycle does not see *)

Lemma life_updSlot_same l f c n :
  (∀ s, heap c !! l = Some s → slotLife (f s) = slotLife s) → lifeOf (updSlot l f c) n = lifeOf c n.
Proof.
  intros Hf. unfold lifeOf, lifeWith, lookupName, deref.
  cbn [updSlot set_heap byName heap activations aliveCancels matchCancels]. f_equal. destruct (byName c !! n) as [k|]; [|done].
  rewrite lookup_alter. case_decide as Hk; [|done]. subst k.
  destruct (heap c !! l) as [s|] eqn:E; [|done]. cbn. by rewrite Hf.
Qed.

Lemma life_updClaim_same l f c n :
  (∀ cl, Claim.state (f cl) = Claim.state cl) → lifeOf (updClaim l f c) n = lifeOf c n.
Proof.
  intros Hf. apply life_updSlot_same. intros s _. unfold slotLife. cbn.
  destruct (Slot.claim s); cbn; by rewrite ?Hf.
Qed.

Lemma life_act_insert c n a n' :
  is_Some (activations c !! n) → lifeOf (set_activations (<[n := a]> (activations c)) c) n' = lifeOf c n'.
Proof.
  intros [b Hb]. unfold lifeOf, lifeWith. cbn [set_activations activations aliveCancels matchCancels].
  rewrite lookup_insert. case_decide as Hn; [|done]. subst n'. by rewrite Hb.
Qed.

Lemma move_doAliveOK ev env n c : LifeInv c → life_move ev c (doAliveOK env n c).
Proof.
  intros HL. unfold doAliveOK. repeat case_match; try by apply move_erase.
  apply move_stay; [done| |done]. intros k. by apply life_updClaim_same.
Qed.

Lemma move_doStarterUpdate ev n ad c : LifeInv c → life_move ev c (doStarterUpdate n ad c).
Proof.
  intros HL. unfold doStarterUpdate. repeat case_match; try by apply move_erase.
  apply move_stay; [done| |done]. intros k. by apply life_updClaim_same.
Qed.

Lemma move_doStarterFinal ev n ad st r c : LifeInv c → life_move ev c (doStarterFinal n ad st r c).
Proof.
  intros HL. unfold doStarterFinal. repeat case_match; try by apply move_erase.
  apply move_stay; [done| |done]. intros k. by apply life_updClaim_same.
Qed.

Lemma move_doStarterHello ev n a p c : LifeInv c → life_move ev c (doStarterHello n a p c).
Proof.
  intros HL. unfold doStarterHello. destruct (activations c !! n) as [act|] eqn:E; [|by apply move_erase].
  set (c1 := set_activations _ c).
  assert (∀ k, lifeOf c1 k = lifeOf c k) as H1 by (intros k; apply life_act_insert; eauto).
  destruct (_ || _); [|by apply move_stay].
  destruct (lookupName n c1) as [[l s]|]; [|by apply move_stay]. apply move_stay; [done| |].
  - intros k. rewrite <-H1. apply life_of_erase, erase_persistSlot.
  - unfold persistSlot. by repeat case_match.
Qed.

Lemma move_doVacate ev n h c : LifeInv c → life_move ev c (doVacate n h c).
Proof.
  intros HL. unfold doVacate. destruct (activations c !! n) as [act|] eqn:E; [|by apply move_erase].
  destruct (vacateSend _ _) as [act' sent]. apply move_stay; [done| |by destruct h, sent].
  intros k. rewrite <-(life_act_insert c n act' k) by eauto. apply life_of_erase.
  destruct h, sent; reflexivity.
Qed.

Lemma move_doVacateEscalate ev n g c : LifeInv c → life_move ev c (doVacateEscalate n g c).
Proof.
  intros HL. unfold doVacateEscalate. destruct (activations c !! n) as [act|] eqn:E; [|by apply move_erase].
  case_match; [by apply move_erase|].
  destruct (vacateSend _ _) as [act' sent]. apply move_stay; [done| |by destruct sent].
  intros k. rewrite <-(life_act_insert c n act' k) by eauto. apply life_of_erase. by destruct sent.
Qed.

Lemma move_doDeactivate ev id cmd r c : LifeInv c → life_move ev c (doDeactivate id cmd r c).
Proof.
  intros HL. unfold doDeactivate. repeat case_match; try by apply move_erase.
  by apply move_stay.
Qed.

(** ** Timers *)

Lemma life_ok_no_timer o a b m : life_ok (mkLife o a b m) → life_ok (mkLife o a b false).
Proof. inversion 1; constructor. Qed.

Lemma move_drop_timer ev c c' n :
  LifeInv c →
  erase c' = set_cancels (delete n (matchCancels (erase c))) (aliveCancels (erase c)) (nextCtx (erase c)) (erase c) →
  life_move ev c c'.
Proof.
  intros HL He.
  eapply (move_maps _ (mkLife (lf_slot (lifeOf c n)) (lf_act (lifeOf c n)) (lf_alive (lifeOf c n)) false) _ _ _ n);
    [done|exact He|reflexivity|reflexivity|solve_maps| | | |].
  - apply HL.
  - unfold lifeWith. cbn. by rewrite lookup_delete_eq.
  - destruct HL as [_ Hall]. specialize (Hall n). destruct (lifeOf c n). by eapply life_ok_no_timer.
  - left. unfold absOf, absLife. done.
Qed.

(** ** Unclaiming, while minting succeeds *)

Hypothesis mint_total : ∀ sinful bday n cmds, is_Some (MintClaimSession sinful bday n cmds).

Lemma unclaim_eq env l c :
  is_Some (minter c) →
  ∃ m' fresh, Claim.state fresh = Claim.Unclaimed ∧
    unclaimSlot env l c
    = updSlot l (Slot.SetClaimState fresh "Unclaimed" "Idle" (now env)) (set_minter (Some m') c).
Proof.
  intros [m Hm]. unfold unclaimSlot. rewrite Hm. unfold Claim.Mint.
  destruct (mint_total (Claim.m_sinful m) (Claim.m_birthdate m) (wrap64 (Claim.m_seq m + 1))
              Claim.claimSurfaceCommands) as [[[cid pub] sid] ->].
  eexists _, _. split; [|reflexivity]. done.
Qed.

(** A live slot goes back to Unclaimed with a fresh claim and nothing attached. *)
Lemma move_unclaim ev env c c' e l s :
  RegInv machine (regOf c) → LifeInv c → l ∈ LiveSlots c → heap c !! l = Some s →
  erase c' = unclaimSlot env l e → byName e = byName c → heap e = heap (erase c) →
  maps_outside c e (Slot.Name s) → is_Some (minter e) →
  isS (activations e !! Slot.Name s) = false → isS (aliveCancels e !! Slot.Name s) = false →
  isS (matchCancels e !! Slot.Name s) = false →
  moves ev (absOf c (Slot.Name s)) (Some AUnclaimed) → life_move ev c c'.
Proof.
  intros HI HL Hl Hs He Hb Hh Hm Hmint Ha Hal Ht Hmv.
  destruct (unclaim_eq env l e Hmint) as (m' & fresh & Hst & Heq). rewrite Heq in He.
  eapply (move_upd _ (Slot.SetClaimState fresh "Unclaimed" "Idle" (now env))
            (mkLife (Some (unclaimedLife (Slot.IsPartitionable s))) false false false) _ _ _ l s);
    [done|done|done|done|exact He|done| |done|by eexists| |constructor|done].
  - cbn. by rewrite Hh.
  - unfold lifeWith, slotLife, unclaimedLife. cbn. by rewrite Hst, Ha, Hal, Ht.
Qed.

Lemma move_doMatchTimeout env n id c :
  RegInv machine (regOf c) → LifeInv c → life_move (EvMatchTimeout n id) c (doMatchTimeout env n id c).
Proof.
  intros HI HL. unfold doMatchTimeout.
  destruct (lookupName n c) as [[l s]|] eqn:El; [|by apply move_erase].
  apply (lookupName_live machine) in El as (Hl & Hs & <-); [|done].
  case_bool_decide as H1; cbn [negb]; [|by eapply move_drop_timer].
  destruct (Slot.claim s) as [cl|] eqn:Hcl; [|by eapply move_drop_timer].
  case_bool_decide as H2; cbn [negb]; [|by eapply move_drop_timer].
  life_case HI HL Hl Hs; try congruence.
  eapply (move_unclaim _ env _ _ _ l s);
    [done|done|done|done|autorewrite with erase; reflexivity|reflexivity|reflexivity|solve_maps|apply HL| | | |].
  - done.
  - done.
  - cbn. by rewrite lookup_delete_eq.
  - right. by rewrite Habs.
Qed.

(** ** Releasing *)

Lemma life_destroy env l c d :
  heap c !! l = Some d →
  life_set c (destroyDSlot env l c) (Slot.Name d) (lifeWith None (Slot.Name d) c) ∧
  minter (destroyDSlot env l c) = minter c.
Proof.
  intros Hd. unfold destroyDSlot. rewrite Hd.
  assert (∀ b c0, erase (if b : bool then InvalidateSlot env d c0 else c0) = erase c0) as Hinv
    by (intros [] c0; [apply erase_InvalidateSlot|done]).
  set (c1 := if haveAdv _ then _ else _).
  assert (erase c1 = erase (removeDSlot (Slot.Name d) c)) as E1.
  { unfold c1. rewrite Hinv. autorewrite with erase. done. }
  clearbody c1. set (c2 := match _ with Some _ => _ | None => _ end).
  assert (∀ k, lifeOf c2 k = lifeOf c1 k) as H2.
  { intros k. unfold c2. destruct (lookupName _ c1) as [[p ps]|]; [|done].
    rewrite (life_of_erase _ _ k (erase_persistSlot p _)), (life_of_erase _ _ k (erase_refresh p _)).
    by apply life_updSlot_same. }
  assert (minter c2 = minter c1) as M2.
  { unfold c2. destruct (lookupName _ c1) as [[p ps]|]; [|done].
    transitivity (minter (erase (updSlot p (Slot.Restore (Slot.Res d)) c1))); [|done].
    by rewrite <-(erase_refresh p), <-(erase_persistSlot p). }
  split.
  - intros n'. rewrite (life_of_erase _ _ n' (erase_reAdvertise env c2)), H2, (life_of_erase _ _ n' E1).
    unfold lifeOf, lookupName, deref. cbn [removeDSlot set_registry byName heap].
    case_bool_decide as Hn.
    + subst n'. by rewrite lookup_delete_eq.
    + by rewrite lookup_delete_ne.
  - apply (f_equal minter) in E1. change (minter c1 = minter c) in E1. rewrite <-E1, <-M2.
    by apply (f_equal minter (erase_reAdvertise env c2)).
Qed.

(** The events that release a slot may take it from any state. *)
Lemma move_releaseSlot ev env l c s :
  RegInv machine (regOf c) → LifeInv c → l ∈ LiveSlots c → heap c !! l = Some s →
  (∀ a, absOf c (Slot.Name s) = Some a → edge ev (Some a) (Some AUnclaimed) ∧ edge ev (Some a) None) →
  life_move ev c (releaseSlot env l c).
Proof.
  intros HI HL Hl Hs Hedge. unfold releaseSlot. rewrite Hs.
  destruct (live_byName machine c l s HI Hl Hs) as [Hn Hinj].
  assert (∃ a, absOf c (Slot.Name s) = Some a) as [a Ha].
  { rewrite (absOf_at c _ l s) by done. unfold absLife. cbn. repeat case_bool_decide; eauto. }
  destruct (Hedge a Ha) as [He1 He2].
  destruct (Slot.IsDynamic s).
  - set (c1 := c |> _ |> _ |> _).
    assert (heap c1 = heap c ∧ byName c1 = byName c ∧ minter c1 = minter c) as (Hh & Hb & Hm).
    { unfold c1, killActivation, vacateSend, cancelAlive, cancelMatchTimer, emitVacate.
      by repeat case_match; simplify_eq. }
    assert (erase c1 = erase c1) as E1 by done. unfold c1 in E1 at 2. autorewrite with erase in E1.
    destruct (life_destroy env l c1 s) as [H1 H2]; [by rewrite Hh|].
    eapply (move_set _ _ _ (Slot.Name s) (mkLife None false false false)); [done| |constructor| |].
    + eapply life_set_trans; [|eapply eq_rect; [exact H1|]].
      * eapply life_set_erase. rewrite E1. apply (life_maps (erase c)); [done|done|solve_maps].
      * unfold lifeWith. f_equal.
        -- change (activations c1) with (activations (erase c1)). rewrite E1. cbn. by rewrite lookup_delete_eq.
        -- change (aliveCancels c1) with (aliveCancels (erase c1)). rewrite E1. cbn. by rewrite lookup_delete_eq.
        -- change (matchCancels c1) with (matchCancels (erase c1)). rewrite E1. cbn. by rewrite lookup_delete_eq.
    + rewrite H2, Hm. apply HL.
    + right. by rewrite Ha.
  - eapply (move_unclaim _ env _ _ _ l s);
      [done|done|done|done|autorewrite with erase; reflexivity|reflexivity|reflexivity|solve_maps|apply HL| | | |].
    + cbn. by rewrite lookup_delete_eq.
    + cbn. by rewrite lookup_delete_eq.
    + cbn. by rewrite lookup_delete_eq.
    + right. by rewrite Ha.
Qed.

(** ** Claiming *)

Lemma slotLife_accept t info s cl :
  Slot.claim s = Some cl →
  slotLife (Slot.AcceptClaim t info s)
  = mkSlotLife "Claimed" "Idle" (Some Claim.ClaimedIdle) (Slot.IsPartitionable s).
Proof. intros H. unfold slotLife, Slot.AcceptClaim. cbn. by rewrite H. Qed.

(** A static slot accepts a claim. *)
Lemma move_acceptStatic env (ev : evRequestClaim) c c1 l s cl claimed c2 :
  RegInv machine (regOf c) → LifeInv c → l ∈ LiveSlots c → heap c !! l = Some s →
  Slot.claim s = Some cl → Claim.state cl = Claim.Unclaimed → Slot.IsPartitionable s = false →
  c1 = (c |> cancelMatchTimer (Slot.Name s)
          |> updSlot l (Slot.AcceptClaim (now env) (acceptInfo env ev (cancelMatchTimer (Slot.Name s) c)))
          |> persistSlot l) →
  claimedBlock env ev (Claim.claimID cl) l c1 = (claimed, c2) →
  life_move (EvRequestClaim ev) c
    (c2 |> startAliveLoop l |> emit (EClaimReply (rc_reply ev) (mkClaimDecision true claimed None))
        |> reAdvertise env).
Proof.
  intros HI HL Hl Hs Hcl Hst Hp -> Hblk.
  pose proof (erase_claimedBlock env ev (Claim.claimID cl) l
    (c |> cancelMatchTimer (Slot.Name s)
       |> updSlot l (Slot.AcceptClaim (now env) (acceptInfo env ev (cancelMatchTimer (Slot.Name s) c)))
       |> persistSlot l)) as E2.
  rewrite Hblk in E2. simpl in E2. autorewrite with erase in E2.
  set (info := acceptInfo _ _ _) in *.
  assert (heap (erase c2) !! l = Some (Slot.AcceptClaim (now env) info (quiet_slot s))) as Hh.
  { rewrite E2. cbn. by rewrite lookup_alter_eq, lookup_fmap, Hs. }
  life_case HI HL Hl Hs; rewrite Hcl in Ecl; simpl in Ecl; try congruence.
  all: (eapply (move_upd _ (Slot.AcceptClaim (now env) info) (mkLife (Some idleLife) false true false) _ _ _ l s);
    [done|done|done|done|autorewrite with erase;
       rewrite (erase_startAliveLoop l c2 _ (Claim.Accept (now env) info cl) Hh) by (cbn; by rewrite Hcl);
       rewrite E2; reflexivity|reflexivity|reflexivity|solve_maps|apply HL| |apply ok_idle|right; by rewrite Habs]).
  all: rewrite (slotLife_accept _ _ _ cl) by done; change (Slot.IsPartitionable (quiet_slot s)) with (Slot.IsPartitionable s);
    rewrite Hp; unfold lifeWith; cbn; by rewrite Ha, lookup_insert_eq, lookup_delete_eq.
Qed.

(** A name no slot has, has no activation and no match timer either. *)
Lemma unnamed_idle c n :
  LifeInv c → byName c !! n = None → activations c !! n = None ∧ matchCancels c !! n = None.
Proof.
  intros [_ Hall] Hfresh. specialize (Hall n). unfold lifeOf, lookupName, lifeWith in Hall.
  rewrite Hfresh in Hall. cbn in Hall. inversion Hall. by split; apply isS_false.
Qed.

(** The name of the dynamic slot carved next is not in use. *)
Lemma carved_name_fresh c l ps :
  RegInv machine (regOf c) → counters_ok c → l ∈ LiveSlots c → heap c !! l = Some ps →
  Slot.IsPartitionable ps = true →
  byName c !! Slot.dynamicName (Slot.SlotID ps) (wrap64 (dslotSeq c + 1)) (Slot.Machine ps) = None.
Proof.
  intros HI [Hcnt _] Hl Hps Hpart. rewrite wrap64_id by done.
  assert (l ∈ slots c) as Hls by (by eapply live_partitionable).
  apply (next_name_fresh machine (regOf c) l (shapeOf ps)); [done|done| |simpl; lia].
  by rewrite heap_regOf, Hps.
Qed.

(** Carving [d] out of the p-slot at [l] and starting its ALIVE loop gives [d] its life and
    leaves every other slot's as it was. *)
Lemma life_carved c l ps req n1 m d x k :
  RegInv machine (regOf c) → LifeInv c → heap c !! l = Some ps →
  byName c !! Slot.Name d = None → slotLife d = idleLife →
  let c1 := addDSlot d (updSlot l (Slot.Carve req) (set_dslotSeq n1 (set_minter m (erase c)))) in
  life_set (erase c) (set_cancels (matchCancels c1) (<[Slot.Name d := x]> (aliveCancels c1)) k c1)
    (Slot.Name d) (mkLife (Some idleLife) false true false).
Proof.
  intros HI HL Hps Hfresh Hd c1 n'. destruct (unnamed_idle c _ HL Hfresh) as [Ha Ht].
  unfold c1, lifeOf, lookupName, deref, lifeWith.
  cbn [addDSlot set_registry set_cancels set_heap updSlot set_dslotSeq set_minter erase byName heap
       activations aliveCancels matchCancels nextLoc].
  case_bool_decide as Hn.
  - subst n'. rewrite !lookup_insert_eq, Ha, Ht. cbn. by rewrite Hd.
  - rewrite !lookup_insert_ne by congruence. f_equal.
    destruct (byName c !! n') as [j|] eqn:Ej; [|done].
    assert (j ≠ nextLoc c) as Hj.
    { change (r_byName (regOf c) !! n' = Some j) in Ej. apply (ri_byName _ _ HI) in Ej as [Hj _].
      pose proof (ri_alloc _ _ HI j Hj) as [Hlt _]. simpl in Hlt. lia. }
    rewrite lookup_insert_ne by congruence. rewrite lookup_alter. case_decide as Hjl; [|done].
    subst j. by rewrite lookup_fmap, Hps.
Qed.

(** A p-slot carves: the p-slot keeps its life, the dynamic slot is born Claimed/Idle. *)
Lemma move_carve env (ev : evRequestClaim) c l ps cl :
  RegInv machine (regOf c) → LifeInv c → event_ok (EvRequestClaim ev) c →
  l ∈ LiveSlots c → heap c !! l = Some ps → Slot.IsPartitionable ps = true →
  life_move (EvRequestClaim ev) c (doRequestClaimPSlot env ev l cl c).
Proof.
  intros HI HL Hok Hl Hps Hpart. unfold doRequestClaimPSlot. rewrite Hps.
  destruct (minter c) as [m|] eqn:Em; [|by apply move_erase].
  destruct (negb (requirementsMet _ _ _)); [by apply move_erase|].
  destruct (negb (Slot.CanCarve _ ps)); [by apply move_erase|].
  destruct (Claim.Mint m) as [m' [dClaim|]] eqn:EM.
  2: { split; [split; [by eexists|]|].
       - intros n. change (life_ok (lifeOf c n)). apply HL.
       - intros n. by left. }
  set (n1 := wrap64 (dslotSeq c + 1)). set (req := requestedResources _).
  match goal with |- context [addDSlot ?x _] => set (dslot := x) end.
  cbn zeta. repeat match goal with
  | |- context [claimedBlock env ev ?x ?y ?c0] =>
      pose proof (erase_claimedBlock env ev x y c0) as HA;
      destruct (claimedBlock env ev x y c0) as [claimed c2]
  | |- context [leftoversBlock env ev ?x ?y ?c0] =>
      pose proof (erase_leftoversBlock env ev x y c0) as HB;
      destruct (leftoversBlock env ev x y c0) as [lo c3]
  end.
  cbn [snd] in HA, HB.
  match type of HA with _ = erase (startAliveLoop ?d _) => change d with (nextLoc c) in HA end.
  match type of HA with _ = erase (startAliveLoop _ ?x) => set (c1 := x) in HA end.
  assert (erase c1 = addDSlot (quiet_slot dslot) (updSlot l (Slot.Carve req)
            (set_dslotSeq n1 (set_minter (Some m') (erase c))))) as E1.
  { unfold c1. autorewrite with erase. done. }
  assert (heap (erase c1) !! nextLoc c = Some (quiet_slot dslot)) as Hd.
  { rewrite E1. cbn. by rewrite lookup_insert_eq. }
  rewrite (erase_startAliveLoop _ _ _ (Claim.Accept (now env) (acceptInfo env ev
             (set_dslotSeq n1 (set_minter (Some m') c))) dClaim) Hd) in HA by done.
  assert (byName c !! Slot.Name dslot = None) as Hfresh by (apply (carved_name_fresh c l ps); [done|apply Hok|done..]).
  rewrite E1 in HA. rewrite HA in HB.
  set (c4 := reAdvertise env _). assert (erase c4 = erase c3) as E4 by (unfold c4; by autorewrite with erase).
  rewrite HB in E4.
  eapply (move_set _ _ c4 (Slot.Name dslot) (mkLife (Some idleLife) false true false)); [done| |constructor| |].
  - apply life_set_erase. rewrite E4. by apply (life_carved c l ps req n1 (Some m') (quiet_slot dslot)).
  - exists m'. by apply (f_equal minter) in E4.
  - right. unfold absOf, absLife, lifeOf, lookupName, lifeWith. by rewrite Hfresh.
Qed.

Lemma move_doRequestClaim env (ev : evRequestClaim) c :
  RegInv machine (regOf c) → LifeInv c → event_ok (EvRequestClaim ev) c →
  life_move (EvRequestClaim ev) c (doRequestClaim env ev c).
Proof.
  intros HI HL Hok. unfold doRequestClaim.
  destruct (findSlotByClaimID _ c) as [[l s]|] eqn:Ef; [|by apply move_erase].
  apply findSlotByClaimID_Some in Ef as (Hl & Hs & cl & Hcl & _). rewrite Hcl.
  case_bool_decide as Hst; cbn [negb]; [|by apply move_erase].
  destruct (negb (requirementsMet _ _ _)).
  { eapply (move_drop_timer _ _ _ (Slot.Name s)); [done|]. by autorewrite with erase. }
  destruct (Slot.IsPartitionable s) eqn:Hp.
  - set (c1 := cancelMatchTimer (Slot.Name s) c).
    assert (erase c1 = erase c1) as E1 by done. unfold c1 in E1 at 2. autorewrite with erase in E1.
    assert (life_move (EvRequestClaim ev) c c1) as M1 by (by eapply move_drop_timer).
    assert (∀ n, absOf c1 n = absOf c n) as Habs.
    { intros n. unfold absOf. rewrite <-(lifeOf_erase c1), E1, <-(lifeOf_erase c). done. }
    eapply move_trans; [exact M1| |intros n; by left].
    intros HL1. apply (move_carve env ev c1 l s cl); try done.
    + unfold c1. by reg_quiet.
    + destruct Hok as [[H1 H2] H3]. unfold event_ok, counters_ok. split; [|done].
      unfold c1, cancelMatchTimer. by destruct (matchCancels c !! Slot.Name s).
    + unfold c1, cancelMatchTimer. by case_match.
    + unfold c1, cancelMatchTimer. by case_match.
  - destruct (claimedBlock _ _ _ _ _) as [claimed c2] eqn:Hblk.
    by eapply move_acceptStatic.
Qed.

(** ** Activation *)

Lemma erase_finishActivate env l n act ad r c :
  erase (finishActivate env l n act ad r c)
  = updSlot l (Slot.SetStateActivity "Claimed" "Busy" (now env)) (updClaim l (Claim.SetBusy (now env)) (erase c)).
Proof. unfold finishActivate. by autorewrite with erase. Qed.

Lemma slotLife_busy t s cl :
  Slot.claim s = Some cl → Slot.IsPartitionable s = false →
  slotLife (Slot.SetStateActivity "Claimed" "Busy" t
    (Slot.with_claim (Claim.SetBusy t <$> Slot.claim s) s)) = busyLife.
Proof.
  intros H1 H2. unfold slotLife. change (Slot.IsPartitionable _) with (Slot.IsPartitionable s) at 1.
  rewrite H2, H1. done.
Qed.

Lemma slotLife_idle t s cl :
  Slot.claim s = Some cl → Slot.IsPartitionable s = false →
  slotLife (Slot.SetStateActivity "Claimed" "Idle" t
    (Slot.with_claim (Claim.SetIdle t <$> Slot.claim s) s)) = idleLife.
Proof.
  intros H1 H2. unfold slotLife. change (Slot.IsPartitionable _) with (Slot.IsPartitionable s) at 1.
  rewrite H2, H1. done.
Qed.

(** The accepted activation: [c1] is the core with the activation registered. *)
Lemma move_finish ev env l n act ad r c c1 s cl e :
  RegInv machine (regOf c) → LifeInv c → l ∈ LiveSlots c → heap c !! l = Some s → n = Slot.Name s →
  Slot.claim s = Some cl → Claim.state cl = Claim.ClaimedIdle →
  erase c1 = e → byName e = byName c → heap e = heap (erase c) →
  activations e = <[n := act]> (activations c) → aliveCancels e = aliveCancels c →
  matchCancels e = matchCancels c → minter e = minter c →
  edge ev (Some AIdle) (Some ABusy) →
  life_move ev c (finishActivate env l n act ad r c1).
Proof.
  intros HI HL Hl Hs -> Hcl Hst He Hb Hh Ha1 Hal1 Ht1 Hm Hedge.
  life_case HI HL Hl Hs; rewrite Hcl in Ecl; simpl in Ecl; try congruence.
  eapply (move_upd _ (Slot.SetStateActivity "Claimed" "Busy" (now env)
                      ∘ (λ s, Slot.with_claim (Claim.SetBusy (now env) <$> Slot.claim s) s))
            (mkLife (Some busyLife) true true false) _ _ _ l s);
    [done|done|done|done|rewrite erase_finishActivate, He; reflexivity|exact Hb| | | | |apply ok_busy|].
  - cbn. rewrite Hh. apply alter_twice.
  - intros n' Hn'. cbn. rewrite Ha1, Hal1, Ht1. by rewrite lookup_insert_ne by congruence.
  - cbn. rewrite Hm. apply HL.
  - cbn [compose]. rewrite (slotLife_busy _ _ cl) by done. unfold lifeWith. cbn.
    by rewrite Ha1, Hal1, Ht1, lookup_insert_eq, Hal, Ht.
  - right. by rewrite Habs.
Qed.


Lemma move_activateStarter ev env l s cl job r c :
  RegInv machine (regOf c) → LifeInv c → l ∈ LiveSlots c → heap c !! l = Some s →
  Slot.claim s = Some cl → Claim.state cl = Claim.ClaimedIdle →
  edge ev (Some AIdle) (Some ABusy) →
  life_move ev c (activateStarter env l s cl job r c).
Proof.
  intros HI HL Hl Hs Hcl Hst Hedge. unfold activateStarter. cbn zeta.
  match goal with |- context [negb (mkdirAll env ?x)] => destruct (negb (mkdirAll env x)) end.
  { by apply move_stay. }
  match goal with |- context [publicAd env l ?c0] =>
    pose proof (erase_publicAd env l c0) as Hp; destruct (publicAd env l c0) as [ad c'] end.
  cbn [snd] in Hp. autorewrite with erase in Hp.
  assert (∀ k, lifeOf c' k = lifeOf c k) as Hlife.
  { intros k. by rewrite <-(lifeOf_erase c'), Hp, <-(lifeOf_erase c). }
  assert (minter c' = minter c) as Hm by (by apply (f_equal minter) in Hp).
  assert (activations c' = activations c) as Ha by (by apply (f_equal activations) in Hp).
  assert (∀ ev', life_move ev' c (rejectActivate r (emit (ECancel (nextCtx c)) c'))) as Hrej
    by (intros ev'; by apply move_stay).
  repeat case_match; try apply Hrej.
  all: (eapply (move_finish ev env l); [done|done|done|exact Hs|done|exact Hcl|done|
          autorewrite with erase; rewrite Hp; reflexivity|done|done|cbn; by rewrite Ha|done..]).
Qed.

Lemma move_doActivateClaim env id job r c :
  RegInv machine (regOf c) → LifeInv c →
  life_move (EvActivateClaim id job r) c (doActivateClaim env id job r c).
Proof.
  intros HI HL. unfold doActivateClaim.
  destruct (findSlotByClaimID id c) as [[l s]|] eqn:Ef; [|by apply move_erase].
  apply findSlotByClaimID_Some in Ef as (Hl & Hs & cl & Hcl & _). rewrite Hcl.
  destruct (negb _); [by apply move_erase|].
  case_bool_decide as Hst; cbn [negb]; [|by apply move_erase].
  destruct (negb _); [by apply move_erase|]. destruct (negb _); [by apply move_erase|].
  case_bool_decide; [by apply move_erase|]. by apply move_activateStarter.
Qed.

(** ** The starter is gone *)

(** A slot with an activation is Claimed/Busy; dropping the activation and setting the
    claim idle makes it Claimed/Idle. *)
Lemma move_idle ev g c c' e l s :
  RegInv machine (regOf c) → LifeInv c → l ∈ LiveSlots c → heap c !! l = Some s →
  is_Some (activations c !! Slot.Name s) →
  erase c' = e → byName e = byName c → heap e = alter g l (heap (erase c)) →
  (Slot.IsPartitionable s = false → slotLife (g (quiet_slot s)) = idleLife) →
  activations e = delete (Slot.Name s) (activations c) → aliveCancels e = aliveCancels c →
  matchCancels e = matchCancels c → minter e = minter c →
  edge ev (Some ABusy) (Some AIdle) → life_move ev c c'.
Proof.
  intros HI HL Hl Hs [act Hact] He Hb Hh Hg Ha1 Hal1 Ht1 Hm Hedge.
  life_case HI HL Hl Hs; rewrite Hact in Ha; try done.
  eapply (move_upd _ g (mkLife (Some idleLife) false true false) _ _ _ l s);
    [done|done|done|done|exact He|exact Hb|exact Hh| | | |apply ok_idle|].
  - intros n' Hn'. rewrite Ha1, Hal1, Ht1. by rewrite lookup_delete_ne by congruence.
  - rewrite Hm. apply HL.
  - rewrite Hg by done. unfold lifeWith. by rewrite Ha1, Hal1, Ht1, lookup_delete_eq, Hal, Ht.
  - right. by rewrite Habs.
Qed.

(** An activation belongs to a live Claimed/Busy slot. *)
Lemma activation_slot c n act :
  RegInv machine (regOf c) → LifeInv c → activations c !! n = Some act →
  ∃ l s cl, lookupName n c = Some (l, s) ∧ l ∈ LiveSlots c ∧ heap c !! l = Some s ∧ Slot.Name s = n ∧
    Slot.claim s = Some cl ∧ Claim.state cl = Claim.ClaimedBusy.
Proof.
  intros HI HL Hact. pose proof HL as [_ Hall]. specialize (Hall n).
  destruct (lookupName n c) as [[l s]|] eqn:El.
  - apply (lookupName_live machine) in El as H; [|done]. destruct H as (Hl & Hs & <-).
    life_case HI HL Hl Hs; rewrite Hact in Ha; try done.
    destruct (Slot.claim s) as [cl|] eqn:Hcl; simplify_eq/=. exists l, s, cl. done.
  - unfold lifeOf, lifeWith in Hall. rewrite El, Hact in Hall. cbn in Hall. inversion Hall.
Qed.

Lemma move_doStarterExited env n c :
  RegInv machine (regOf c) → LifeInv c → life_move (EvStarterExited n) c (doStarterExited env n c).
Proof.
  intros HI HL. unfold doStarterExited. destruct (activations c !! n) as [act|] eqn:Eact.
  2: { unfold releaseDeferredDeactivate. case_match; by apply move_stay. }
  set (c1 := releaseDeferredDeactivate _ _).
  assert (lookupName n c1 = lookupName n c) as Hlk.
  { unfold c1, releaseDeferredDeactivate. by case_match. }
  destruct (activation_slot c n act HI HL Eact) as (l & s & cl & El & Hl & Hs & <- & Hcl & Hst).
  rewrite Hlk, El, Hcl, bool_decide_true by done.
  eapply (move_idle _ (Slot.SetStateActivity "Claimed" "Idle" (now env)
                      ∘ (λ s, Slot.with_claim (Claim.SetIdle (now env) <$> Slot.claim s) s)) _ _ _ l s);
    [done|done|done|done|by eexists|unfold c1, setClaimedIdle; autorewrite with erase; reflexivity
    |done|apply alter_twice|intros Hp; by apply (slotLife_idle _ (quiet_slot s) cl)|done..].
Qed.

Lemma move_doAdoptFailed env n c :
  RegInv machine (regOf c) → LifeInv c → life_move (EvAdoptFailed n) c (doAdoptFailed env n c).
Proof.
  intros HI HL. unfold doAdoptFailed. destruct (activations c !! n) as [act|] eqn:Eact; [|by apply move_erase].
  destruct (activation_slot c n act HI HL Eact) as (l & s & cl & El & Hl & Hs & <- & Hcl & Hst).
  rewrite El. destruct (readExitMarker env (sandbox act)) as [m|].
  - rewrite Hcl, bool_decide_true by done.
    set (fad := if bool_decide (FinalAd m = "") then None else adParse (FinalAd m)).
    eapply (move_idle _ (Slot.SetStateActivity "Claimed" "Idle" (now env)
                      ∘ (λ s, Slot.with_claim (Claim.SetIdle (now env) <$> Slot.claim s) s)
                      ∘ (λ s, Slot.with_claim (Claim.SetFinal fad (WaitpidStatus m) (Reason m) <$> Slot.claim s) s))
              _ _ _ l s);
      [done|done|done|done|by eexists|unfold setClaimedIdle; autorewrite with erase; reflexivity
      |done|cbn; by rewrite !alter_twice| |done..].
    intros Hp. apply (slotLife_idle _ (Slot.with_claim (Claim.SetFinal fad (WaitpidStatus m) (Reason m) <$> Slot.claim s)
      (quiet_slot s)) (Claim.SetFinal fad (WaitpidStatus m) (Reason m) cl)); [|done].
    cbn. by rewrite Hcl.
  - apply (move_releaseSlot _ env l c s); try done. intros a Hab.
    life_case HI HL Hl Hs; rewrite Eact in Ha; try done.
    assert (absOf c (Slot.Name s) = Some ABusy) as Hbusy by (by rewrite Habs).
    rewrite Hbusy in Hab. by injection Hab as <-.
Qed.

(** ** Every event *)

Lemma handle_life env ev c :
  RegInv machine (regOf c) → LifeInv c → event_ok ev c → no_adopt ev = true →
  life_move ev c (handle env ev c).
Proof.
  intros HI HL Hok Hna. destruct ev; cbn [handle]; try done.
  - apply move_erase; [done|]. apply erase_reAdvertise.
  - by apply move_doMatchInfo.
  - by apply move_doMatchTimeout.
  - by apply move_doRequestClaim.
  - unfold doReleaseByClaimID. destruct (findSlotByClaimID claimID c) as [[l s]|] eqn:E; [|by apply move_erase].
    apply findSlotByClaimID_Some in E as (H1 & H2 & _). by apply (move_releaseSlot _ env l c s).
  - destruct (lookupName slotName c) as [[l s]|] eqn:E; [|by apply move_erase].
    apply (lookupName_live machine) in E as (H1 & H2 & _); [|done]. by apply (move_releaseSlot _ env l c s).
  - by apply move_doAliveOK.
  - by apply move_doActivateClaim.
  - by apply move_doStarterUpdate.
  - by apply move_doStarterFinal.
  - by apply move_doStarterExited.
  - by apply move_doStarterHello.
  - by apply move_erase.
  - by apply move_doAdoptFailed.
  - by apply move_doDeactivate.
  - by apply move_doVacate.
  - by apply move_doVacateEscalate.
Qed.
End Handlers.

(** ** The startd as it starts *)

Section Start.
Context {CA : ClassAdLib} {SL : SecurityLib} {RS : Persist.RecordStore}.
Implicit Types (c : Core) (s : Slot.Slot) (env : Env) (l : loc) (ev : Event).
Hypothesis mint_total : ∀ sinful bday n cmds, is_Some (MintClaimSession sinful bday n cmds).

Definition unclaimedClaim (o : option Claim.Claim) : Prop :=
  ∃ cl, o = Some cl ∧ Claim.state cl = Claim.Unclaimed.

(** A slot is primed: everything but the claim is as it was. *)
Definition primed (done : Prop) s s' : Prop :=
  Slot.state s' = Slot.state s ∧ Slot.activity s' = Slot.activity s ∧ Slot.SlotType s' = Slot.SlotType s ∧
  (Slot.claim s' = Slot.claim s ∨ unclaimedClaim (Slot.claim s')) ∧
  (done → unclaimedClaim (Slot.claim s')).

Definition same_maps c c' : Prop :=
  byName c' = byName c ∧ activations c' = activations c ∧ aliveCancels c' = aliveCancels c ∧
  matchCancels c' = matchCancels c.

Lemma primeSlot_eq c l :
  is_Some (minter c) →
  ∃ m' cl, Claim.state cl = Claim.Unclaimed ∧
    primeSlot c l = updSlot l (Slot.SetClaim cl) (set_minter (Some m') c).
Proof.
  intros [m Hm]. unfold primeSlot. rewrite Hm. unfold Claim.Mint.
  destruct (mint_total (Claim.m_sinful m) (Claim.m_birthdate m) (wrap64 (Claim.m_seq m + 1))
              Claim.claimSurfaceCommands) as [[[cid pub] sid] ->].
  eexists _, _. split; [|reflexivity]. done.
Qed.

Lemma prime_fold ls c :
  is_Some (minter c) →
  is_Some (minter (foldl primeSlot c ls)) ∧ same_maps c (foldl primeSlot c ls) ∧
  ∀ l s', heap (foldl primeSlot c ls) !! l = Some s' → ∃ s, heap c !! l = Some s ∧ primed (l ∈ ls) s s'.
Proof.
  revert c. induction ls as [|k ls IH]; intros c Hm; cbn [foldl].
  { split; [done|]. split; [done|]. intros l s' H. exists s'. split; [done|].
    repeat split; auto. by intros ?%elem_of_nil. }
  destruct (primeSlot_eq c k Hm) as (m' & cl & Hcl & ->).
  destruct (IH (updSlot k (Slot.SetClaim cl) (set_minter (Some m') c))) as (H1 & H2 & H3); [by eexists|].
  split; [done|]. split; [done|]. intros l s' Hs'.
  destruct (H3 l s' Hs') as (s1 & Hs1 & P1 & P2 & P3 & P4 & P5). cbn in Hs1.
  rewrite lookup_alter in Hs1. case_decide as Hk.
  - subst k. destruct (heap c !! l) as [s|] eqn:E; [|done]. simpl in Hs1. simplify_eq.
    exists s. split; [done|]. split_and!; [done..| |].
    + right. destruct P4 as [->|?]; [|done]. by eexists.
    + intros _. destruct P4 as [->|?]; [|done]. by eexists.
  - exists s1. split; [done|]. split_and!; [done..|].
    intros [?|?]%elem_of_cons; [congruence|auto].
Qed.

(** What [BuildSlots] leaves on every slot. *)
Definition fresh_slot s : Prop := Slot.state s = "Unclaimed" ∧ Slot.activity s = "Idle".

Lemma BuildSlots_fresh h cf hostname sinful total t0 :
  Forall fresh_slot (Slot.BuildSlots h cf hostname sinful total t0).
Proof.
  unfold Slot.BuildSlots. destruct (Slot.partitionableConfigured cf); [by apply Forall_singleton|].
  apply Forall_lookup_2. intros i s Hi.
  by apply BuildStaticSlots_lookup in Hi as (_ & _ & _ & _ & ? & ? & _).
Qed.

(** Every slot starts Unclaimed with nothing running. *)
Lemma New_unclaimed opts ss m st :
  Forall fresh_slot ss → let c := New opts ss (Some m) st in
  is_Some (minter c) ∧
  ∀ n, lifeOf c n = mkLife None false false false ∨
       ∃ part, lifeOf c n = mkLife (Some (unclaimedLife part)) false false false.
Proof.
  intros Hf. unfold New, prime. cbn [minter slots].
  set (c := mkCore _ _ _ _ _ _ _ _ _ _ _ _ _ _ _ _ _ _).
  destruct (prime_fold (List.seq 0 (length ss)) c) as (H1 & (Hb & Ha & Hal & Ht) & H3); [by eexists|].
  set (c' := foldl primeSlot c _) in *. clearbody c'. split; [done|]. intros n.
  unfold lifeOf, lifeWith. rewrite Ha, Hal, Ht. cbn. rewrite !lookup_empty. cbn.
  destruct (lookupName n c') as [[l s']|] eqn:El; [|by left]. right. exists (Slot.IsPartitionable s').
  apply lookupName_Some in El as [_ Hs']. destruct (H3 l s' Hs') as (s & Hs & P1 & P2 & P3 & _ & P5).
  unfold c in Hs. cbn [heap] in Hs. rewrite lookup_map_seq_0 in Hs.
  rewrite Forall_lookup in Hf. destruct (Hf _ _ Hs) as [F1 F2].
  destruct P5 as (cl & Hcl & Hst).
  { apply elem_of_seq. apply lookup_lt_Some in Hs. lia. }
  cbn. do 2 f_equal. unfold slotLife, unclaimedLife. rewrite P1, P2, F1, F2, Hcl. cbn. by rewrite Hst.
Qed.

Lemma New_life opts ss m st : Forall fresh_slot ss → LifeInv (New opts ss (Some m) st).
Proof.
  intros Hf. destruct (New_unclaimed opts ss m st Hf) as [H1 H2]. split; [done|].
  intros n. destruct (H2 n) as [->|[part ->]]; constructor.
Qed.
End Start.

(** ** Witnesses *)

Lemma ref_mint_total sinful bday n cmds :
  is_Some (MintClaimSession (SecurityLib := RefSecurity.refSec) sinful bday n cmds).
Proof. by eexists. Qed.

Lemma demo1_activate_ok : event_ok (EvActivateClaim dslotID demoJob 4%nat) demo1.
Proof. split; [|done]. split; [vm_compute; by split|]. vm_compute. by split. Qed.
