(* ===== verification/ClaimIds.v ===== *)
(** * Claim ids are capabilities

    A claim id is the secret that names a claim.  [Ids] is the part of the core's
    state that decides which slot a claim id names: the current id of every slot,
    the live lists and the minter.  Its transitions are minting a fresh id for a
    slot, creating a slot with a fresh id and dropping slots; two live slots never
    share an id, and an id that was given up never names a slot again. *)

From S2P Require Import Prelude GoLang ClassAd Claim Slot SlotFacts Persist Persister StarterMsg Reconnect.
From S2P Require Import Registry Core CoreFrame CoreDemo CoreReg CoreInit Lifecycle.

Import Core.

Local Open Scope Z_scope.
Local Open Scope ep_scope.

Create Rewrite HintDb ids.

Section Machine.
Context {SL : SecurityLib}.

Record Ids := mkIds {
  i_heap : gmap loc (option string);
  i_slots : list loc;
  i_dslots : list loc;
  i_minter : option Claim.Minter
}.

Definition i_live (i : Ids) : list loc := i_slots i ++ i_dslots i.

(** [m'] is [m] after one call of [Mint]. *)
Definition next_minter (m m' : Claim.Minter) : Prop :=
  Claim.m_sinful m' = Claim.m_sinful m ∧ Claim.m_birthdate m' = Claim.m_birthdate m ∧
  Claim.m_seq m' = Claim.m_seq m + 1.

(** [y] is the id a minter makes with sequence number [n]. *)
Definition mints (m : Claim.Minter) (n : Z) (y : string) : Prop :=
  ∃ a, MintClaimSession (Claim.m_sinful m) (Claim.m_birthdate m) n Claim.claimSurfaceCommands = Some a ∧
       a.1.1 = y.

Inductive id_step (i : Ids) : Ids → Prop :=
| is_stay : id_step i i
| is_burn m m' : i_minter i = Some m → next_minter m m' →
    id_step i (mkIds (i_heap i) (i_slots i) (i_dslots i) (Some m'))
| is_renew l y m m' : i_minter i = Some m → next_minter m m' → mints m' (Claim.m_seq m') y →
    id_step i (mkIds (<[l := Some y]> (i_heap i)) (i_slots i) (i_dslots i) (Some m'))
| is_born l y m m' : i_minter i = Some m → next_minter m m' → mints m' (Claim.m_seq m') y →
    id_step i (mkIds (<[l := Some y]> (i_heap i)) (i_slots i) (i_dslots i ++ [l]) (Some m'))
| is_gone ds : (∀ l, l ∈ ds → l ∈ i_dslots i) →
    id_step i (mkIds (i_heap i) (i_slots i) ds (i_minter i)).

(** No later call of [Mint] gives [x]. *)
Definition past (i : Ids) (x : string) : Prop :=
  ∀ m n, i_minter i = Some m → Claim.m_seq m < n → ¬ mints m n x.

Definition holds (i : Ids) (l : loc) (x : string) : Prop := l ∈ i_live i ∧ i_heap i !! l = Some (Some x).

Definition IdInv (i : Ids) : Prop :=
  (∀ l k x, holds i l x → holds i k x → l = k) ∧ (∀ l x, holds i l x → past i x).

(** [x] names no slot and never will. *)
Definition retired (i : Ids) (x : string) : Prop := (∀ l, ¬ holds i l x) ∧ past i x.

Context {SLL : SecurityLaws SL}.

Lemma mints_next m m' n y : next_minter m m' → mints m' n y ↔ mints m n y.
Proof. intros (H1 & H2 & _). unfold mints. by rewrite H1, H2. Qed.

Lemma past_next i i' m m' x :
  i_minter i = Some m → i_minter i' = Some m' → next_minter m m' → past i x → past i' x.
Proof.
  intros H1 H2 Hn Hp m0 n Hm0 Hlt Hm. simplify_eq. apply (Hp m n); [done| |by apply (mints_next _ _ _ _ Hn)].
  destruct Hn as (_ & _ & ?). lia.
Qed.

(** The id just minted is not minted again, and differs from every past one. *)
Lemma minted_past i' m' y :
  i_minter i' = Some m' → mints m' (Claim.m_seq m') y → past i' y.
Proof.
  intros Hm (a & Ha & <-) m0 n Hm0 Hlt (b & Hb & Hab). simplify_eq.
  assert (n = Claim.m_seq m'); [by eapply mint_inj|lia].
Qed.

Lemma minted_new i m m' y x :
  i_minter i = Some m → next_minter m m' → mints m' (Claim.m_seq m') y → past i x → x ≠ y.
Proof.
  intros Hm Hn Hy Hp ->. apply (Hp m (Claim.m_seq m')); [done| |by apply (mints_next _ _ _ _ Hn)].
  destruct Hn as (_ & _ & ?). lia.
Qed.

(** What [holds] becomes when a slot gets a fresh id. *)
Lemma holds_insert i i' l y k x :
  i_heap i' = <[l := Some y]> (i_heap i) → (∀ j, j ∈ i_live i' → j ∈ i_live i ∨ j = l) →
  holds i' k x → (k = l ∧ x = y) ∨ (k ≠ l ∧ holds i k x).
Proof.
  intros Hh Hl [H1 H2]. rewrite Hh, lookup_insert in H2. case_decide as Hk; [simplify_eq; by left|].
  right. split; [done|]. split; [|done]. destruct (Hl k H1) as [?|?]; [done|congruence].
Qed.

(** A fresh id at [l] preserves both invariants. *)
Lemma fresh_id_inv i i' l y m m' :
  i_minter i = Some m → i_minter i' = Some m' → next_minter m m' → mints m' (Claim.m_seq m') y →
  i_heap i' = <[l := Some y]> (i_heap i) → (∀ j, j ∈ i_live i' → j ∈ i_live i ∨ j = l) →
  (IdInv i → IdInv i') ∧ (∀ x, retired i x → retired i' x).
Proof.
  intros Hm Hm' Hn Hy Hh Hl.
  assert (∀ k x, holds i' k x → (k = l ∧ x = y) ∨ (k ≠ l ∧ holds i k x)) as Hin
    by (intros k x; by eapply holds_insert).
  split.
  - intros [Hu Hp]. split.
    + intros k j x Hk Hj. destruct (Hin k x Hk) as [[-> ->]|[Hk1 Hk2]], (Hin j _ Hj) as [[-> Hx]|[Hj1 Hj2]].
      * done.
      * exfalso. by apply (minted_new i m m' y y Hm Hn Hy (Hp j y Hj2)).
      * exfalso. subst x. by apply (minted_new i m m' y y Hm Hn Hy (Hp k y Hk2)).
      * by eapply Hu.
    + intros k x Hk. destruct (Hin k x Hk) as [[-> ->]|[_ Hk2]]; [by eapply minted_past|].
      by apply (past_next i i' m m' x Hm Hm' Hn (Hp k x Hk2)).
  - intros x [Hno Hp]. split; [|by apply (past_next i i' m m' x Hm Hm' Hn Hp)].
    intros k Hk. destruct (Hin k x Hk) as [[_ ->]|[_ Hk2]]; [by apply (minted_new i m m' y y Hm Hn Hy Hp)|by eapply Hno].
Qed.

Lemma id_step_past i i' x : id_step i i' → past i x → past i' x.
Proof.
  intros Hs Hp. destruct Hs as [|m m' Hm Hn|l y m m' Hm Hn Hy|l y m m' Hm Hn Hy|ds Hds]; try done;
    by refine (past_next i _ m m' x Hm _ Hn Hp).
Qed.

Lemma id_step_inv i i' :
  id_step i i' → (IdInv i → IdInv i') ∧ (∀ x, retired i x → retired i' x).
Proof.
  intros Hs. destruct Hs as [|m m' Hm Hn|l y m m' Hm Hn Hy|l y m m' Hm Hn Hy|ds Hds].
  - done.
  - split.
    + intros [Hu Hp]. split; [done|]. intros l x Hl.
      by refine (past_next i _ m m' x Hm _ Hn (Hp l x Hl)).
    + intros x [Hno Hp]. split; [done|]. by refine (past_next i _ m m' x Hm _ Hn Hp).
  - eapply (fresh_id_inv i _ l y m m'); try done. intros j Hj. by left.
  - eapply (fresh_id_inv i _ l y m m'); try done. intros j. unfold i_live. cbn.
    rewrite !elem_of_app, list_elem_of_singleton. tauto.
  - assert (∀ k x, holds (mkIds (i_heap i) (i_slots i) ds (i_minter i)) k x → holds i k x) as Hh.
    { intros k x [H1 H2]. split; [|done]. unfold i_live in *. cbn in H1. rewrite elem_of_app in *.
      destruct H1; auto. }
    split.
    + intros [Hu Hp]. split; [intros l k x ? ?; eapply Hu; eauto|]. intros l x Hl. by eapply (Hp l), Hh.
    + intros x [Hno Hp]. split; [|done]. intros l Hl. by eapply (Hno l), Hh.
Qed.
End Machine.

(** ** The core refines it *)

Section Proj.
Context {CA : ClassAdLib} {SL : SecurityLib} {RS : Persist.RecordStore}.
Implicit Types (c : Core) (s : Slot.Slot) (env : Env) (l : loc).

Definition cidOf s : option string := Claim.claimID <$> Slot.claim s.

Definition idsOf c : Ids := mkIds (cidOf <$> heap c) (slots c) (dslots c) (minter c).

(** Slot updates that keep the claim id. *)
Class Idless (f : Slot.Slot → Slot.Slot) : Prop := idless s : cidOf (f s) = cidOf s.

#[global] Instance idless_state st act n : Idless (Slot.SetStateActivity st act n).
Proof. done. Qed.
#[global] Instance idless_accept n i : Idless (Slot.AcceptClaim n i).
Proof. intros s. unfold cidOf. cbn. by destruct (Slot.claim s). Qed.
#[global] Instance idless_carve r : Idless (Slot.Carve r).
Proof. done. Qed.
#[global] Instance idless_restore r : Idless (Slot.Restore r).
Proof. done. Qed.

Lemma idsOf_erase c : idsOf (erase c) = idsOf c.
Proof.
  unfold idsOf. simpl. f_equal. rewrite <-map_fmap_compose. apply map_fmap_ext. by intros.
Qed.

Lemma idsOf_of_erase c c' : erase c' = erase c → idsOf c' = idsOf c.
Proof. intros H. by rewrite <-idsOf_erase, H, idsOf_erase. Qed.

Lemma idsOf_updSlot l f c : Idless f → idsOf (updSlot l f c) = idsOf c.
Proof.
  intros Hf. unfold idsOf. simpl. f_equal. apply map_eq. intros k.
  rewrite !lookup_fmap, lookup_alter. case_decide as Hk; [|done]. rewrite <-Hk.
  destruct (heap c !! l); simpl; [|done]. by rewrite Hf.
Qed.

(** The methods of a claim keep its id. *)
Class KeepsId (f : Claim.Claim → Claim.Claim) : Prop := keeps_id cl : Claim.claimID (f cl) = Claim.claimID cl.

#[global] Instance keeps_busy t : KeepsId (Claim.SetBusy t).
Proof. done. Qed.
#[global] Instance keeps_idle t : KeepsId (Claim.SetIdle t).
Proof. done. Qed.
#[global] Instance keeps_lease a t : KeepsId (Claim.ExtendLease a t).
Proof. done. Qed.
#[global] Instance keeps_update a : KeepsId (Claim.SetUpdateAd a).
Proof. done. Qed.
#[global] Instance keeps_final a b r : KeepsId (Claim.SetFinal a b r).
Proof. done. Qed.

Lemma idsOf_updClaim l f c : KeepsId f → idsOf (updClaim l f c) = idsOf c.
Proof.
  intros Hf. apply idsOf_updSlot. intros s. unfold cidOf. cbn. destruct (Slot.claim s); cbn; by rewrite ?Hf.
Qed.

Lemma idsOf_set_cancels a b n c : idsOf (set_cancels a b n c) = idsOf c.
Proof. done. Qed.
Lemma idsOf_set_activations a c : idsOf (set_activations a c) = idsOf c.
Proof. done. Qed.
Lemma idsOf_set_seqs a b n c : idsOf (set_seqs a b n c) = idsOf c.
Proof. done. Qed.
Lemma idsOf_set_deferred d n c : idsOf (set_deferred d n c) = idsOf c.
Proof. done. Qed.
Lemma idsOf_set_dslotSeq n c : idsOf (set_dslotSeq n c) = idsOf c.
Proof. done. Qed.
Lemma idsOf_startAliveLoop l c : idsOf (startAliveLoop l c) = idsOf c.
Proof. unfold startAliveLoop. by repeat case_match. Qed.
End Proj.

#[export] Hint Rewrite @idsOf_erase @idsOf_set_cancels @idsOf_set_activations @idsOf_set_seqs
  @idsOf_set_deferred @idsOf_set_dslotSeq @idsOf_startAliveLoop : ids.
#[export] Hint Rewrite @idsOf_updSlot @idsOf_updClaim using (typeclasses eauto) : ids.

Ltac ids_quiet :=
  match goal with
  | |- id_step _ (idsOf ?x) => rewrite <-(idsOf_erase x)
  | |- idsOf ?x = _ => rewrite <-(idsOf_erase x)
  end; autorewrite with erase; autorewrite with ids.

Section Sim.
Context {CA : ClassAdLib} {SL : SecurityLib} {RS : Persist.RecordStore}.
Implicit Types (c : Core) (s : Slot.Slot) (env : Env) (l : loc).

Lemma id_stay i i' : i' = i → id_step i i'.
Proof. intros ->. constructor. Qed.

Lemma Mint_next m :
  int64_range (Claim.m_seq m + 1) → next_minter m (Claim.Mint m).1.
Proof. intros H. unfold next_minter, Claim.Mint. cbn. by rewrite wrap64_id. Qed.

Lemma Mint_mints m cl :
  (Claim.Mint m).2 = Some cl → mints (Claim.Mint m).1 (Claim.m_seq (Claim.Mint m).1) (Claim.claimID cl).
Proof.
  unfold Claim.Mint, mints. cbn. destruct (MintClaimSession _ _ _ _) as [[[cid pub] sid]|] eqn:E; [|done].
  intros [= <-]. eauto.
Qed.

(** Putting a freshly minted claim on a slot. *)
Lemma idsOf_newClaim l f y m' c :
  is_Some (heap c !! l) → (∀ s, cidOf (f s) = Some y) →
  idsOf (updSlot l f (set_minter (Some m') c))
  = mkIds (<[l := Some y]> (i_heap (idsOf c))) (i_slots (idsOf c)) (i_dslots (idsOf c)) (Some m').
Proof.
  intros [s Hs] Hf. unfold idsOf. cbn. f_equal. apply map_eq. intros k.
  rewrite lookup_insert, !lookup_fmap, lookup_alter. case_decide; [|done]. subst k. rewrite Hs. cbn.
  by rewrite Hf.
Qed.

Lemma unclaim_ids env l c :
  counters_ok c → is_Some (heap c !! l) → id_step (idsOf c) (idsOf (unclaimSlot env l c)).
Proof.
  intros [_ Hcnt] Hs. unfold unclaimSlot. destruct (minter c) as [m|] eqn:Em.
  2: { apply id_stay. by rewrite idsOf_updSlot by apply _. }
  pose proof (Mint_next m Hcnt) as Hn. pose proof (Mint_mints m) as Hy.
  destruct (Claim.Mint m) as [m' [fresh|]]; cbn [fst snd] in *.
  - rewrite (idsOf_newClaim l _ (Claim.claimID fresh)) by done. apply (is_renew _ l _ m); auto.
  - rewrite idsOf_updSlot by apply _. exact (is_burn (idsOf c) m m' Em Hn).
Qed.

Lemma remove_ids n c : id_step (idsOf c) (idsOf (removeDSlot n c)).
Proof. apply is_gone. intros l. cbn. apply remove_first_elem. Qed.

Lemma destroy_ids env l c d :
  heap c !! l = Some d → idsOf (destroyDSlot env l c) = idsOf (removeDSlot (Slot.Name d) c).
Proof.
  intros Hd. unfold destroyDSlot. rewrite Hd.
  assert (∀ b c0, erase (if b : bool then InvalidateSlot env d c0 else c0) = erase c0) as Hinv
    by (intros [] c0; [apply erase_InvalidateSlot|done]).
  set (c1 := if haveAdv _ then _ else _).
  assert (idsOf c1 = idsOf (removeDSlot (Slot.Name d) c)) as E1.
  { apply idsOf_of_erase. unfold c1. rewrite Hinv. by autorewrite with erase. }
  clearbody c1. destruct (lookupName _ c1) as [[p ps]|]; ids_quiet; by rewrite E1.
Qed.

(** What a release does to the ids, after the timers and the starter were stopped. *)
Lemma release_ids_eq env l c s :
  heap c !! l = Some s →
  ∃ c1, heap c1 = heap c ∧ minter c1 = minter c ∧ dslotSeq c1 = dslotSeq c ∧ idsOf c1 = idsOf c ∧
    idsOf (releaseSlot env l c)
    = idsOf (if Slot.IsDynamic s then removeDSlot (Slot.Name s) c1 else unclaimSlot env l c1).
Proof.
  intros Hs. unfold releaseSlot. rewrite Hs. set (c1 := c |> _ |> _ |> _).
  assert (heap c1 = heap c ∧ minter c1 = minter c ∧ dslotSeq c1 = dslotSeq c) as (H1 & H2 & H3).
  { unfold c1, killActivation, vacateSend, cancelAlive, cancelMatchTimer, emitVacate.
    by repeat case_match; simplify_eq. }
  assert (idsOf c1 = idsOf c) as H4 by (unfold c1; ids_quiet; done).
  clearbody c1. exists c1. split_and!; try done. destruct (Slot.IsDynamic s).
  - apply destroy_ids. by rewrite H1.
  - apply idsOf_of_erase. by autorewrite with erase.
Qed.

Lemma release_ids env l c s :
  counters_ok c → heap c !! l = Some s → id_step (idsOf c) (idsOf (releaseSlot env l c)).
Proof.
  intros Hcnt Hs. destruct (release_ids_eq env l c s Hs) as (c1 & H1 & H2 & H3 & <- & ->).
  destruct (Slot.IsDynamic s); [apply remove_ids|].
  apply unclaim_ids; [|rewrite H1; eauto]. unfold counters_ok. by rewrite H2, H3.
Qed.

(** ** Handlers that leave the ids alone *)

Lemma ids_doMatchInfo env id c : idsOf (doMatchInfo env id c) = idsOf c.
Proof. unfold doMatchInfo. repeat case_match; try done. by ids_quiet. Qed.

Lemma ids_doAliveOK env n c : idsOf (doAliveOK env n c) = idsOf c.
Proof. unfold doAliveOK. repeat case_match; try done. by ids_quiet. Qed.

Lemma ids_doStarterUpdate n ad c : idsOf (doStarterUpdate n ad c) = idsOf c.
Proof. unfold doStarterUpdate. repeat case_match; try done. by ids_quiet. Qed.

Lemma ids_doStarterFinal n ad st r c : idsOf (doStarterFinal n ad st r c) = idsOf c.
Proof. unfold doStarterFinal. repeat case_match; try done. by ids_quiet. Qed.

Lemma ids_doStarterHello n a p c : idsOf (doStarterHello n a p c) = idsOf c.
Proof. unfold doStarterHello. repeat case_match; try done; by ids_quiet. Qed.

Lemma ids_doStarterExited env n c : idsOf (doStarterExited env n c) = idsOf c.
Proof. unfold doStarterExited, setClaimedIdle. repeat case_match; try done; by ids_quiet. Qed.

Lemma ids_doDeactivate id cmd r c : idsOf (doDeactivate id cmd r c) = idsOf c.
Proof. unfold doDeactivate. repeat case_match; try done; by ids_quiet. Qed.

Lemma ids_doVacate n h c : idsOf (doVacate n h c) = idsOf c.
Proof. unfold doVacate, vacateSend. repeat case_match; simplify_eq; by ids_quiet. Qed.

Lemma ids_doVacateEscalate n g c : idsOf (doVacateEscalate n g c) = idsOf c.
Proof. unfold doVacateEscalate, vacateSend. repeat case_match; simplify_eq; by ids_quiet. Qed.

Lemma ids_doActivateClaim env id job r c : idsOf (doActivateClaim env id job r c) = idsOf c.
Proof.
  unfold doActivateClaim. repeat case_match; try done. unfold activateStarter. case_match; [done|].
  match goal with |- context [publicAd env ?l ?c0] =>
    pose proof (idsOf_of_erase _ _ (erase_publicAd env l c0)) as Hp; destruct (publicAd env l c0) as [ad c'] end.
  simpl in Hp. rewrite idsOf_set_seqs in Hp. unfold finishActivate.
  repeat case_match; ids_quiet; by rewrite Hp.
Qed.

(** ** Handlers that mint *)

Lemma ids_doMatchTimeout env n id c :
  counters_ok c → id_step (idsOf c) (idsOf (doMatchTimeout env n id c)).
Proof.
  intros Hcnt. unfold doMatchTimeout. destruct (lookupName n c) as [[l s]|] eqn:El; [|constructor].
  apply lookupName_Some in El as [_ Hs].
  repeat case_match; try (apply id_stay; done).
  match goal with |- id_step _ (idsOf ?y) => match y with context [unclaimSlot env l ?x] =>
    rewrite (idsOf_of_erase (unclaimSlot env l x) y) by (by autorewrite with erase);
    apply (unclaim_ids env l x); [done|by eexists] end end.
Qed.

Lemma ids_carve env ev l cl c :
  counters_ok c → id_step (idsOf c) (idsOf (doRequestClaimPSlot env ev l cl c)).
Proof.
  intros [_ Hcnt]. unfold doRequestClaimPSlot.
  destruct (heap c !! l) as [ps|] eqn:Eps; [|constructor].
  destruct (minter c) as [m|] eqn:Em; [|constructor].
  destruct (negb _); [constructor|]. destruct (negb _); [constructor|].
  pose proof (Mint_next m Hcnt) as Hn. pose proof (Mint_mints m) as Hy.
  destruct (Claim.Mint m) as [m' [dClaim|]]; cbn [fst snd] in Hn, Hy; [|exact (is_burn (idsOf c) m m' Em Hn)].
  cbn zeta. repeat match goal with
  | |- context [claimedBlock env ev ?x ?y ?c0] =>
      pose proof (idsOf_of_erase _ _ (erase_claimedBlock env ev x y c0)) as HA;
      destruct (claimedBlock env ev x y c0) as [claimed c2]
  | |- context [leftoversBlock env ev ?x ?y ?c0] =>
      pose proof (idsOf_of_erase _ _ (erase_leftoversBlock env ev x y c0)) as HB;
      destruct (leftoversBlock env ev x y c0) as [lo c3]
  end.
  cbn [snd] in HA, HB. ids_quiet. rewrite HB, HA. autorewrite with ids.
  match goal with |- id_step _ (idsOf ?y) => match y with context [addDSlot ?d ?x] =>
    rewrite (idsOf_of_erase (addDSlot d x) y) by (by autorewrite with erase);
    assert (idsOf (addDSlot d x)
            = mkIds (<[nextLoc c := Some (Claim.claimID dClaim)]> (i_heap (idsOf c))) (i_slots (idsOf c))
                (i_dslots (idsOf c) ++ [nextLoc c]) (Some m')) as -> end end.
  { unfold idsOf at 1. cbn. f_equal. rewrite fmap_insert. f_equal.
    apply map_eq. intros k. rewrite !lookup_fmap, lookup_alter.
    case_decide; [subst|]; by destruct (heap c !! _). }
  apply (is_born _ _ _ m); auto.
Qed.

Lemma ids_doRequestClaim env ev c :
  counters_ok c → id_step (idsOf c) (idsOf (doRequestClaim env ev c)).
Proof.
  intros Hcnt. unfold doRequestClaim.
  destruct (findSlotByClaimID _ c) as [[l s]|]; [|constructor].
  destruct (Slot.claim s) as [cl|]; [|constructor]. destruct (negb _); [constructor|].
  destruct (negb _); [apply id_stay; by ids_quiet|].
  destruct (Slot.IsPartitionable s).
  - set (c1 := cancelMatchTimer (Slot.Name s) c).
    assert (idsOf c1 = idsOf c) as <- by (unfold c1; by ids_quiet).
    apply ids_carve. unfold counters_ok, c1, cancelMatchTimer. by destruct (matchCancels c !! Slot.Name s).
  - apply id_stay. match goal with |- context [claimedBlock env ev ?x ?y ?c0] =>
      pose proof (idsOf_of_erase _ _ (erase_claimedBlock env ev x y c0)) as HA;
      destruct (claimedBlock env ev x y c0) as [claimed c2] end.
    cbn [snd] in HA. ids_quiet. rewrite HA. by ids_quiet.
Qed.

Lemma ids_doAdoptFailed env n c :
  counters_ok c → id_step (idsOf c) (idsOf (doAdoptFailed env n c)).
Proof.
  intros Hcnt. unfold doAdoptFailed. destruct (activations c !! n) as [act|]; [|constructor].
  destruct (lookupName n c) as [[l s]|] eqn:El; [|by apply id_stay].
  apply lookupName_Some in El as [_ Hs].
  destruct (readExitMarker env (sandbox act)) as [mk|]; [|by eapply release_ids].
  apply id_stay. unfold setClaimedIdle. repeat case_match; by ids_quiet.
Qed.

Lemma handle_ids env ev c :
  event_ok ev c → no_adopt ev = true → id_step (idsOf c) (idsOf (handle env ev c)).
Proof.
  intros [Hcnt _] Hna. destruct ev; cbn [handle]; try done;
    try (apply id_stay;
         first [ apply idsOf_of_erase, erase_reAdvertise | apply ids_doMatchInfo | apply ids_doAliveOK
               | apply ids_doActivateClaim | apply ids_doStarterUpdate | apply ids_doStarterFinal
               | apply ids_doStarterExited | apply ids_doStarterHello | apply ids_doDeactivate
               | apply ids_doVacate | apply ids_doVacateEscalate | done ]).
  - by apply ids_doMatchTimeout.
  - by apply ids_doRequestClaim.
  - unfold doReleaseByClaimID. destruct (findSlotByClaimID claimID c) as [[l s]|] eqn:E; [|constructor].
    apply findSlotByClaimID_Some in E as (_ & H & _). by eapply release_ids.
  - destruct (lookupName slotName c) as [[l s]|] eqn:E; [|constructor].
    apply lookupName_Some in E as [_ H]. by eapply release_ids.
  - by apply ids_doAdoptFailed.
Qed.

Lemma cstep_ids o c c' :
  cstep o c c' → (∀ ev, o = Some ev → no_adopt ev = true) → id_step (idsOf c) (idsOf c').
Proof.
  intros Hs Hna. destruct Hs; try (by apply id_stay).
  - apply handle_ids; auto.
  - apply id_stay. unfold tick. case_match; [|done]. apply idsOf_of_erase, erase_Advertise.
Qed.

(** ** Lookups by claim id *)

Lemma holds_idsOf c l x :
  holds (idsOf c) l x ↔ l ∈ LiveSlots c ∧ ∃ s cl, heap c !! l = Some s ∧ Slot.claim s = Some cl ∧ Claim.claimID cl = x.
Proof.
  unfold holds, i_live, LiveSlots. cbn. rewrite lookup_fmap. apply and_iff_compat_l. split.
  - destruct (heap c !! l) as [s|]; [|done]. intros [= H]. unfold cidOf in H.
    destruct (Slot.claim s) as [cl|] eqn:Ecl; [|done]. simplify_eq/=. eauto.
  - intros (s & cl & -> & Hcl & <-). cbn. unfold cidOf. by rewrite Hcl.
Qed.

Lemma find_holds c x : findSlotByClaimID x c = None ↔ ∀ l, ¬ holds (idsOf c) l x.
Proof.
  setoid_rewrite holds_idsOf. split.
  - intros H l (Hl & s & cl & Hs & Hcl & Hx). by eapply (findSlotByClaimID_None x c H l s cl).
  - intros H. destruct (findSlotByClaimID x c) as [[l s]|] eqn:E; [|done].
    apply findSlotByClaimID_Some in E as (Hl & Hs & cl & Hcl & Hx). destruct (H l). eauto 10.
Qed.

(** ** Reachable states *)

Context {SLL : SecurityLaws SL}.

Lemma reachable_ids c c' :
  reachable no_adopt c c' →
  (IdInv (idsOf c) → IdInv (idsOf c')) ∧ (∀ x, retired (idsOf c) x → retired (idsOf c') x) ∧
  (∀ x, past (idsOf c) x → past (idsOf c') x).
Proof.
  induction 1 as [|o c1 c2 _ (IH1 & IH2 & IH3) Hs Hna]; [done|].
  pose proof (cstep_ids _ _ _ Hs Hna) as Hstep. destruct (id_step_inv _ _ Hstep) as [H1 H2].
  split_and!; auto. intros x Hx. eapply id_step_past; eauto.
Qed.

Lemma prime_fold_ids ls c m :
  minter c = Some m → 0 ≤ Claim.m_seq m → Claim.m_seq m + Z.of_nat (length ls) < two63 →
  (∀ l, l ∈ ls → is_Some (heap c !! l)) → IdInv (idsOf c) → IdInv (idsOf (foldl primeSlot c ls)).
Proof.
  revert c m. induction ls as [|l ls IH]; intros c m Hm H0 H1 Hh HI; [done|]. cbn [foldl].
  assert (int64_range (Claim.m_seq m + 1)) as Hrange
    by (cbn [length] in H1; unfold int64_range, two63 in *; lia).
  pose proof (Mint_next m Hrange) as Hn. pose proof (Mint_mints m) as Hy.
  assert (id_step (idsOf c) (idsOf (primeSlot c l)) ∧ minter (primeSlot c l) = Some (Claim.Mint m).1 ∧
          (∀ k, is_Some (heap c !! k) → is_Some (heap (primeSlot c l) !! k))) as (Hs & Hm' & Hh').
  { unfold primeSlot. rewrite Hm. destruct (Claim.Mint m) as [m' [cl|]]; cbn [fst snd] in *.
    - split_and!; [|done|intros k Hk; cbn; by apply lookup_alter_is_Some].
      rewrite (idsOf_newClaim l _ (Claim.claimID cl)) by (try apply Hh, list_elem_of_here; done).
      apply (is_renew _ l _ m); auto.
    - split_and!; [exact (is_burn (idsOf c) m m' Hm Hn)|done|done]. }
  destruct Hn as (_ & _ & Hn). apply (IH _ _ Hm').
  - lia.
  - cbn [length] in H1. lia.
  - intros k Hk. apply Hh', Hh. by apply list_elem_of_further.
  - by apply (id_step_inv _ _ Hs).
Qed.

(** A slot that is unclaimed gives its id up, when minting works. *)
Lemma unclaim_revokes env l c x m :
  (∀ sinful bday n cmds, is_Some (MintClaimSession sinful bday n cmds)) → minter c = Some m →
  counters_ok c → is_Some (heap c !! l) → IdInv (idsOf c) → holds (idsOf c) l x →
  ∀ k, ¬ holds (idsOf (unclaimSlot env l c)) k x.
Proof.
  intros Hmint Em [_ Hcnt] Hs [Hu Hp] Hx. unfold unclaimSlot. rewrite Em.
  assert (is_Some (Claim.Mint m).2) as [fresh Hf].
  { unfold Claim.Mint. cbn. edestruct Hmint as [[[cid pub] sid] ->]. by eexists. }
  pose proof (Mint_next m) as Hn. rewrite Em in Hcnt. specialize (Hn Hcnt). pose proof (Mint_mints m _ Hf) as Hy.
  destruct (Claim.Mint m) as [m' r]. cbn [fst snd] in *. subst r.
  rewrite (idsOf_newClaim l _ (Claim.claimID fresh)) by done. intros k Hk.
  eapply (holds_insert (idsOf c) _ l (Claim.claimID fresh)) in Hk; [|done|by left].
  destruct Hk as [[-> ->]|[Hkl Hk]]; [|by eapply Hkl, Hu].
  by apply (minted_new (idsOf c) m m' _ _ Em Hn Hy (Hp l _ Hx)).
Qed.

(** So does a released slot. *)
Lemma release_revokes machine env l c s x m :
  (∀ sinful bday n cmds, is_Some (MintClaimSession sinful bday n cmds)) → minter c = Some m →
  counters_ok c → RegInv machine (regOf c) → IdInv (idsOf c) → heap c !! l = Some s →
  holds (idsOf c) l x → ∀ k, ¬ holds (idsOf (releaseSlot env l c)) k x.
Proof.
  intros Hmint Em Hcnt HR HI Hs Hx k.
  destruct (release_ids_eq env l c s Hs) as (c1 & H1 & H2 & H3 & H4 & Hids).
  destruct (Slot.IsDynamic s) eqn:Ed.
  - intros Hk. assert (k ∈ r_live (regOf (releaseSlot env l c))) as Hlive by apply Hk.
    assert (l ∈ LiveSlots c) as Hl by apply Hx.
    rewrite (reg_releaseSlot _ _ _ s Hs), Ed in Hlive.
    apply (destroy_live machine _ l) in Hlive as [Hlive Hne];
      [|done|by eapply live_dynamic|by rewrite heap_regOf, Hs].
    apply Hne, (proj1 HI k l x); [|done]. split; [done|]. rewrite Hids in Hk. rewrite <-H4. apply Hk.
  - rewrite Hids. eapply unclaim_revokes; rewrite ?H1, ?H2, ?H4; eauto.
    unfold counters_ok. by rewrite H2, H3.
Qed.
End Sim.

(** ** The theorems *)

Section Start.
Context {CA : ClassAdLib} {SL : SecurityLib} {SLL : SecurityLaws SL} {RS : Persist.RecordStore}.
Context (h : Host) (cf : Config) (hostname sinful : string) (total : Slot.Resources) (t0 : Time).
Context (opts : CoreConfig) (m : Claim.Minter) (st : option Persist.rstore).

Local Abbreviation built := (Slot.BuildSlots h cf hostname sinful total t0).
Local Abbreviation start := (startup h cf hostname sinful total t0 opts (Some m) st).

(** The minter's counter has room for the slots the configuration defines. *)
Definition minter_room : Prop :=
  0 ≤ Claim.m_seq m ∧ Claim.m_seq m + Z.of_nat (length built) < two63.

Lemma built_unclaimed : Forall (λ s, Slot.claim s = None) built.
Proof.
  unfold Slot.BuildSlots. destruct (Slot.partitionableConfigured cf); [by apply Forall_singleton|].
  apply Forall_lookup_2. intros i s Hi.
  by apply BuildStaticSlots_lookup in Hi as (_ & _ & _ & _ & _ & _ & _ & ?).
Qed.

Lemma startup_ids : minter_room → IdInv (idsOf start).
Proof.
  intros [H0 H1]. unfold startup, New, prime. cbn [minter slots].
  apply (prime_fold_ids _ _ m); [done|done|by rewrite length_seq| |].
  - intros l Hl. apply elem_of_seq in Hl. cbn [heap]. rewrite lookup_map_seq_0.
    apply lookup_lt_is_Some_2. lia.
  - set (c := mkCore _ _ _ _ _ _ _ _ _ _ _ _ _ _ _ _ _ _).
    assert (∀ l x, ¬ holds (idsOf c) l x) as Hno; [|split; intros l; intros; by edestruct Hno].
    intros l x (_ & s & cl & Hs & Hcl & _)%holds_idsOf. cbn [c heap] in Hs.
    rewrite lookup_map_seq_0 in Hs. pose proof built_unclaimed as Hf. rewrite Forall_lookup in Hf.
    by rewrite (Hf _ _ Hs) in Hcl.
Qed.
End Start.
