(* ===== verification/CoreReply.v ===== *)
(** * What the core answers

    A command handler blocks on a reply channel.  This file accounts for the
    replies the core sends: every request is answered exactly once and nothing
    else is; a claim id that names no slot gets a refusal and changes nothing. *)

From S2P Require Import Prelude GoLang ClassAd Claim Slot SlotFacts Persist Persister StarterMsg Reconnect.
From S2P Require Import Registry Core CoreFrame CoreDemo.

Import Core.

Local Open Scope Z_scope.
Local Open Scope ep_scope.

Create Rewrite HintDb obs.

Section Replies.
Context {CA : ClassAdLib} {SL : SecurityLib} {RS : Persist.RecordStore}.
Implicit Types (c : Core) (s : Slot.Slot) (env : Env) (l : loc) (ev : Event).

(** The kinds of request a handler can be blocked on. *)
Inductive request_kind := KClaim | KActivate | KDeactivate | KLocate | KAdopt.

Definition replyOf (e : effect) : option (request_kind * chanid) :=
  match e with
  | EClaimReply ch _ => Some (KClaim, ch)
  | EActivateReply ch _ => Some (KActivate, ch)
  | EDeactivateReply ch _ => Some (KDeactivate, ch)
  | ELocateReply ch _ => Some (KLocate, ch)
  | EAdoptDone ch => Some (KAdopt, ch)
  | _ => None
  end.

(** The wait channel of a deferred DEACTIVATE_CLAIM_JOB_DONE that is closed. *)
Definition closeOf (e : effect) : option chanid :=
  match e with ECloseWait ch => Some ch | _ => None end.

(** The effects every part of the core produces; the others answer somebody. *)
Definition background (e : effect) : bool :=
  match e with
  | EUpdateAd _ _ _ | EInvalidateAd _ _ | EGo _ | ECancel _ | ESpawn _ | EVacateSent _ _ _
  | ETransportClose _ => true
  | _ => false
  end.

(** The answers sent so far, oldest first. *)
Definition answers c : list effect := filter (λ e, background e = false) (trace c).

Definition replies c : list (request_kind * chanid) := omap replyOf (trace c).
Definition closed c : list chanid := omap closeOf (trace c).

(** Nothing in the background is a reply. *)
Lemma omap_answers {A} (f : effect → option A) c :
  (∀ e, background e = true → f e = None) → omap f (trace c) = omap f (answers c).
Proof.
  intros Hf. unfold answers. induction (trace c) as [|e es IH]; [done|].
  rewrite filter_cons. case_decide as He; csimpl; [by rewrite IH|].
  rewrite Hf, IH; [done|]. by apply not_false_iff_true.
Qed.

Lemma replies_answers c : replies c = omap replyOf (answers c).
Proof. apply omap_answers. by intros []. Qed.

Lemma closed_answers c : closed c = omap closeOf (answers c).
Proof. apply omap_answers. by intros []. Qed.

(** The reply an event waits for. *)
Definition requestOf ev : option (request_kind * chanid) :=
  match ev with
  | EvRequestClaim e => Some (KClaim, rc_reply e)
  | EvActivateClaim _ _ ch => Some (KActivate, ch)
  | EvDeactivate _ _ ch => Some (KDeactivate, ch)
  | EvLocateStarter _ _ ch => Some (KLocate, ch)
  | EvAdopt ch => Some (KAdopt, ch)
  | _ => None
  end.

(** ** Helpers that only have background effects *)


Lemma obs_emit e c : background e = false → answers (emit e c) = answers c ++ [e].
Proof. intros H. unfold answers. cbn. by rewrite filter_app, filter_cons_True. Qed.

Lemma obs_emit_quiet e c : background e = true → answers (emit e c) = answers c.
Proof. intros H. unfold answers. cbn. rewrite filter_app, filter_cons_False, app_nil_r; [done|congruence]. Qed.

(** Assignments to other fields. *)
Lemma obs_set_registry n ds bn c : answers (set_registry n ds bn c) = answers c.
Proof. done. Qed.
Lemma obs_set_dslotSeq n c : answers (set_dslotSeq n c) = answers c.
Proof. done. Qed.
Lemma obs_set_minter m c : answers (set_minter m c) = answers c.
Proof. done. Qed.
Lemma obs_set_cancels a b n c : answers (set_cancels a b n c) = answers c.
Proof. done. Qed.
Lemma obs_set_activations a c : answers (set_activations a c) = answers c.
Proof. done. Qed.
Lemma obs_set_seqs a b n c : answers (set_seqs a b n c) = answers c.
Proof. done. Qed.
Lemma obs_set_deferred d n c : answers (set_deferred d n c) = answers c.
Proof. done. Qed.
Lemma obs_updSlot l f c : answers (updSlot l f c) = answers c.
Proof. done. Qed.
Lemma obs_updClaim l f c : answers (updClaim l f c) = answers c.
Proof. done. Qed.
Lemma obs_addDSlot d c : answers (addDSlot d c) = answers c.
Proof. done. Qed.
Lemma obs_removeDSlot n c : answers (removeDSlot n c) = answers c.
Proof. done. Qed.
End Replies.

#[export] Hint Rewrite @obs_set_registry @obs_set_dslotSeq
  @obs_set_minter @obs_set_cancels @obs_set_activations @obs_set_seqs
  @obs_set_deferred @obs_updSlot @obs_updClaim @obs_addDSlot @obs_removeDSlot : obs.
#[export] Hint Rewrite @obs_emit_quiet using done : obs.

Ltac quiet_obs := cbn zeta; autorewrite with obs; try done.

Section Quiet.
Context {CA : ClassAdLib} {SL : SecurityLib} {RS : Persist.RecordStore}.
Implicit Types (c : Core) (s : Slot.Slot) (env : Env) (l : loc).

Lemma obs_emitAll es c : Forall (λ e, background e = true) es → answers (emitAll es c) = answers c.
Proof.
  intros H. revert c. induction H as [|e es He _ IH]; intros c; [done|].
  change (emitAll (e :: es) c) with (emitAll es (emit e c)). rewrite IH. by apply obs_emit_quiet.
Qed.

Lemma obs_publicAd env l c : answers (publicAd env l c).2 = answers c.
Proof. unfold publicAd. repeat case_match; by simplify_eq. Qed.

Lemma obs_advertiseSlot env c l : answers (advertiseSlot env c l) = answers c.
Proof.
  unfold advertiseSlot. pose proof (obs_publicAd env l c) as H.
  destruct (publicAd env l c) as [pub c']. cbn in H. case_match; [|done].
  rewrite obs_emitAll; [done|]. by apply Forall_fmap, Forall_true.
Qed.

Lemma obs_Advertise env c : answers (Advertise env c) = answers c.
Proof.
  unfold Advertise. destruct (collectors env); [done|]. generalize (LiveSlots c) as ls. intros ls. revert c.
  induction ls as [|k ls IH]; intros c; [done|]. cbn. by rewrite IH, obs_advertiseSlot.
Qed.

Lemma obs_reAdvertise env c : answers (reAdvertise env c) = answers c.
Proof. unfold reAdvertise. case_match; [apply obs_Advertise|done]. Qed.

Lemma obs_InvalidateSlot env s c : answers (InvalidateSlot env s c) = answers c.
Proof. apply obs_emitAll. by apply Forall_fmap, Forall_true. Qed.

Lemma obs_persistSlot l c : answers (persistSlot l c) = answers c.
Proof. unfold persistSlot. by repeat case_match. Qed.

Lemma obs_storeDelete n c : answers (storeDelete n c) = answers c.
Proof. unfold storeDelete. by case_match. Qed.

Lemma obs_refresh l c : answers (refreshPSlotChildren l c) = answers c.
Proof. unfold refreshPSlotChildren. by case_match. Qed.

Lemma obs_startMatchTimer n id c : answers (startMatchTimer n id c) = answers c.
Proof. unfold startMatchTimer. case_match; by quiet_obs. Qed.

Lemma obs_cancelMatchTimer n c : answers (cancelMatchTimer n c) = answers c.
Proof. unfold cancelMatchTimer. case_match; by quiet_obs. Qed.

Lemma obs_cancelAlive n c : answers (cancelAlive n c) = answers c.
Proof. unfold cancelAlive. case_match; by quiet_obs. Qed.

Lemma obs_startAliveLoop l c : answers (startAliveLoop l c) = answers c.
Proof. unfold startAliveLoop. repeat case_match; by quiet_obs. Qed.

Lemma obs_emitVacate n a msg b c : answers (emitVacate n a msg b c) = answers c.
Proof. destruct b; [by apply obs_emit_quiet|done]. Qed.

Lemma obs_killActivation n c : answers (killActivation n c) = answers c.
Proof.
  unfold killActivation. repeat case_match; simplify_eq; quiet_obs; by rewrite obs_emitVacate.
Qed.

Lemma obs_unclaimSlot env l c : answers (unclaimSlot env l c) = answers c.
Proof. unfold unclaimSlot. by repeat case_match. Qed.

Lemma obs_releaseDeferred n c :
  answers (releaseDeferredDeactivate n c) = answers c ++ (ECloseWait <$> option_list (deferredDeactivate c !! n)).
Proof.
  unfold releaseDeferredDeactivate. destruct (deferredDeactivate c !! n) as [ch|]; cbn [option_list fmap list_fmap];
    [|by rewrite app_nil_r]. quiet_obs. by rewrite obs_emit.
Qed.

End Quiet.

#[export] Hint Rewrite @obs_Advertise @obs_reAdvertise @obs_InvalidateSlot @obs_persistSlot
  @obs_storeDelete @obs_refresh @obs_startMatchTimer @obs_cancelMatchTimer
  @obs_cancelAlive @obs_startAliveLoop @obs_emitVacate @obs_killActivation
  @obs_unclaimSlot @obs_publicAd : obs.

Section Handlers.
Context {CA : ClassAdLib} {SL : SecurityLib} {RS : Persist.RecordStore}.
Implicit Types (c : Core) (s : Slot.Slot) (env : Env) (l : loc).

Lemma obs_destroyDSlot env l c : answers (destroyDSlot env l c) = answers c.
Proof. unfold destroyDSlot. repeat case_match; by quiet_obs. Qed.

Lemma obs_releaseSlot env l c : answers (releaseSlot env l c) = answers c.
Proof.
  unfold releaseSlot. repeat case_match; [|by quiet_obs|done].
  rewrite obs_destroyDSlot. by quiet_obs.
Qed.

Lemma obs_adoptSlot rec st : answers (as_core (adoptSlot rec st)) = answers (as_core st).
Proof. unfold adoptSlot, adoptStarter. repeat case_match; cbn [as_core]; by quiet_obs. Qed.

Lemma obs_adoptRecord st rec : answers (as_core (adoptRecord st rec)) = answers (as_core st).
Proof.
  unfold adoptRecord. case_match; [done|]. case_match; [|apply obs_adoptSlot].
  assert (answers (reconstructDSlot rec (as_core st)).2 = answers (as_core st)) as H1
    by (unfold reconstructDSlot; repeat case_match; by quiet_obs).
  destruct (reconstructDSlot rec (as_core st)) as [[] c']; cbn [snd] in H1;
    [by rewrite obs_adoptSlot|cbn [as_core]; by quiet_obs].
Qed.

Lemma obs_doAdopt env c : answers (doAdopt env c) = answers c.
Proof.
  unfold doAdopt. destruct (pers c) as [p|]; [|done].
  set (st := foldl adoptRecord _ _).
  assert (answers (as_core st) = answers c) as H1.
  { unfold st. change c with (as_core (mkAdoptState c ∅ 0)) at 2.
    generalize (mkAdoptState c ∅ 0) as st0. induction (Persist.rs_list (store p)) as [|r rs IH]; [done|].
    intros st0. cbn. by rewrite IH, obs_adoptRecord. }
  rewrite <-H1. clearbody st. set (c1 := foldl _ _ _).
  assert (answers c1 = answers (as_core st)) as <-; [|case_match; by quiet_obs].
  unfold c1. generalize (as_core st) as c0. induction (locOrder _ _) as [|x xs IH]; intros c0; [done|].
  cbn. by rewrite IH, obs_refresh.
Qed.

Lemma obs_doAdoptFailed env n c : answers (doAdoptFailed env n c) = answers c.
Proof.
  unfold doAdoptFailed, setClaimedIdle. repeat case_match; quiet_obs. apply obs_releaseSlot.
Qed.


(** ** Handlers that answer *)

Lemma obs_rejectClaim (ev : evRequestClaim) c : 
  answers (rejectClaim ev c) = answers c ++ [EClaimReply (rc_reply ev) (mkClaimDecision false [] None)].
Proof. by apply obs_emit. Qed.

Lemma obs_rejectActivate ch c : 
  answers (rejectActivate ch c)
  = answers c ++ [EActivateReply ch (mkActivateDecision activateNotOK None "")].
Proof. by apply obs_emit. Qed.

Lemma obs_claimedBlock env ev id l c : answers (claimedBlock env ev id l c).2 = answers c.
Proof.
  unfold claimedBlock. case_match; [|done]. pose proof (obs_publicAd env l c).
  by destruct (publicAd env l c).
Qed.

Lemma obs_leftoversBlock env ev id l c : answers (leftoversBlock env ev id l c).2 = answers c.
Proof.
  unfold leftoversBlock. case_match; [|done]. pose proof (obs_publicAd env l c).
  by destruct (publicAd env l c).
Qed.

Lemma obs_doRequestClaimPSlot env ev l cl c :
  is_Some (heap c !! l) →
  ∃ d, answers (doRequestClaimPSlot env ev l cl c) = answers c ++ [EClaimReply (rc_reply ev) d].
Proof.
  intros [ps Hps]. unfold doRequestClaimPSlot. rewrite Hps.
  destruct (minter c) as [m|]; [|by eexists; apply obs_rejectClaim].
  repeat (case_match; [by eexists; apply obs_rejectClaim|]).
  destruct (Claim.Mint m) as [m' [dClaim|]]; [|by eexists; rewrite obs_rejectClaim].
  cbn zeta. repeat match goal with
  | |- context [claimedBlock env ev ?x ?y ?c0] =>
      pose proof (obs_claimedBlock env ev x y c0) as HA;
      destruct (claimedBlock env ev x y c0) as [claimed c2]
  | |- context [leftoversBlock env ev ?x ?y ?c0] =>
      pose proof (obs_leftoversBlock env ev x y c0) as HB;
      destruct (leftoversBlock env ev x y c0) as [lo c3]
  end.
  cbn [snd] in HA, HB. eexists. quiet_obs. rewrite obs_emit, HB, HA by done. by quiet_obs.
Qed.

Lemma obs_doRequestClaim env ev c :
  ∃ d, answers (doRequestClaim env ev c) = answers c ++ [EClaimReply (rc_reply ev) d].
Proof.
  unfold doRequestClaim. destruct (findSlotByClaimID (rc_claimID ev) c) as [[l s]|] eqn:Ef;
    [|by eexists; apply obs_rejectClaim].
  destruct (Slot.claim s) as [cl|]; [|by eexists; apply obs_rejectClaim].
  case_match; [by eexists; apply obs_rejectClaim|].
  case_match; [eexists; rewrite obs_rejectClaim; by quiet_obs|].
  case_match.
  - edestruct (obs_doRequestClaimPSlot env ev l cl (cancelMatchTimer (Slot.Name s) c)) as [d Hd];
      [|exists d; rewrite Hd; by quiet_obs].
    apply findSlotByClaimID_Some in Ef as (_ & Hs & _). exists s. unfold cancelMatchTimer. by case_match.
  - match goal with |- context [claimedBlock env ev ?x ?y ?c0] =>
      pose proof (obs_claimedBlock env ev x y c0) as HA;
      destruct (claimedBlock env ev x y c0) as [claimed c2] end.
    cbn [snd] in HA. eexists. quiet_obs. rewrite obs_emit by done. quiet_obs. rewrite HA. by quiet_obs.
Qed.

Lemma obs_finishActivate env l n act ad ch c :
  ∃ d, answers (finishActivate env l n act ad ch c) = answers c ++ [EActivateReply ch d].
Proof. eexists. unfold finishActivate. quiet_obs. rewrite obs_emit by done. by quiet_obs. Qed.

Lemma obs_doActivateClaim env id job ch c :
  ∃ d, answers (doActivateClaim env id job ch c) = answers c ++ [EActivateReply ch d].
Proof.
  unfold doActivateClaim. repeat (case_match; try (by eexists; apply obs_rejectActivate)).
  unfold activateStarter. case_match; [by eexists; rewrite obs_rejectActivate|].
  match goal with |- context [publicAd env ?x ?c0] =>
    pose proof (obs_publicAd env x c0) as HP; destruct (publicAd env x c0) as [ad c'] end.
  cbn [snd] in HP. repeat case_match;
    try (eexists; rewrite obs_rejectActivate; quiet_obs; by rewrite HP);
    match goal with |- context [finishActivate ?e ?a ?b ?x ?y ?z ?c0] =>
      destruct (obs_finishActivate e a b x y z c0) as [d Hd]; exists d; rewrite Hd end;
    quiet_obs; by rewrite HP.
Qed.

(** The answers each event gets. *)
Definition answered env (ev : Event) c (es : list effect) : Prop :=
  match ev with
  | EvRequestClaim e => ∃ d, es = [EClaimReply (rc_reply e) d]
  | EvActivateClaim _ _ ch => ∃ d, es = [EActivateReply ch d]
  | EvDeactivate _ _ ch => ∃ d, es = [EDeactivateReply ch d]
  | EvLocateStarter id gjid ch => es = [ELocateReply ch (doLocateStarter env id gjid c)]
  | EvAdopt ch => es = [EAdoptDone ch]
  | EvStarterExited n => es = ECloseWait <$> option_list (deferredDeactivate c !! n)
  | _ => es = []
  end.

Lemma handle_answered env ev c :
  ∃ es, answers (handle env ev c) = answers c ++ es ∧ answered env ev c es.
Proof.
  assert (∀ c', answers c' = answers c → ∃ es, answers c' = answers c ++ es ∧ es = []) as Hq
    by (intros c' ->; exists []; by rewrite app_nil_r).
  destruct ev; cbn [handle answered]; try apply Hq.
  - apply obs_reAdvertise.
  - unfold doMatchInfo. repeat case_match; by quiet_obs.
  - unfold doMatchTimeout. repeat case_match; by quiet_obs.
  - edestruct obs_doRequestClaim as [d ->]. eauto.
  - unfold doReleaseByClaimID. repeat case_match; [apply obs_releaseSlot|done].
  - repeat case_match; [apply obs_releaseSlot|done].
  - unfold doAliveOK. repeat case_match; by quiet_obs.
  - edestruct obs_doActivateClaim as [d ->]. eauto.
  - unfold doStarterUpdate. repeat case_match; by quiet_obs.
  - unfold doStarterFinal. repeat case_match; by quiet_obs.
  - eexists. split; [|done]. unfold doStarterExited, setClaimedIdle.
    repeat case_match; quiet_obs; rewrite obs_releaseDeferred; by quiet_obs.
  - unfold doStarterHello. repeat case_match; by quiet_obs.
  - rewrite obs_emit by done. eauto.
  - rewrite obs_emit by done. rewrite obs_doAdopt. eauto.
  - apply obs_doAdoptFailed.
  - unfold doDeactivate. repeat case_match; rewrite obs_emit by done; quiet_obs; eauto.
  - unfold doVacate. repeat case_match; by quiet_obs.
  - unfold doVacateEscalate. repeat case_match; by quiet_obs.
Qed.

(** C6: every request is answered exactly once.  Handling an event sends one reply, of
    the right kind and on the channel the event carries, when a command handler waits
    for it, and no reply at all otherwise; so no handler is left blocked by the loop and
    none is answered twice. *)
Theorem handle_answers_once env ev c :
  replies (handle env ev c) = replies c ++ option_list (requestOf ev).
Proof.
  rewrite !replies_answers. destruct (handle_answered env ev c) as (es & -> & H). rewrite omap_app. f_equal.
  destruct ev; cbn in H; try match type of H with ex _ => destruct H as [d H] end; subst es; try done.
  by destruct (deferredDeactivate c !! slotName).
Qed.

Lemma handle_closed env ev c :
  closed (handle env ev c) = closed c ++
    match ev with EvStarterExited n => option_list (deferredDeactivate c !! n) | _ => [] end.
Proof.
  rewrite !closed_answers. destruct (handle_answered env ev c) as (es & -> & H). rewrite omap_app. f_equal.
  destruct ev; cbn in H; try match type of H with ex _ => destruct H as [d H] end; subst es; try done.
  by destruct (deferredDeactivate c !! slotName).
Qed.
End Handlers.
