(* ===== verification/CoreProps.v ===== *)
(** * Commands of the core, one by one

    What a claim id that names nothing gets; who may locate a starter; how
    DEACTIVATE_CLAIM_JOB_DONE waits for the starter; and the corners where an
    event is matched by slot name only. *)

From S2P Require Import Prelude GoLang ClassAd Claim Slot SlotFacts Persist Persister StarterMsg Reconnect.
From S2P Require Import Registry Core CoreFrame CoreDemo CoreReg CoreInit Lifecycle CoreReply.

Import Core.

Local Open Scope Z_scope.
Local Open Scope ep_scope.

Create Rewrite HintDb waits.

Section Commands.
Context {CA : ClassAdLib} {SL : SecurityLib} {RS : Persist.RecordStore}.
Implicit Types (c : Core) (s : Slot.Slot) (env : Env) (l : loc) (ev : Event).

(** ** Commands that carry a claim id *)

Definition commandID ev : option string :=
  match ev with
  | EvMatchInfo id | EvReleaseClaim id | EvActivateClaim id _ _ | EvDeactivate id _ _ => Some id
  | EvRequestClaim e => Some (rc_claimID e)
  | _ => None
  end.

(** What such a command gets when it is refused. *)
Definition refusal ev : list effect :=
  match ev with
  | EvRequestClaim e => [EClaimReply (rc_reply e) (mkClaimDecision false [] None)]
  | EvActivateClaim _ _ ch => [EActivateReply ch (mkActivateDecision activateNotOK None "")]
  | EvDeactivate _ _ ch => [EDeactivateReply ch (mkDeactivateDecision false true "" false None)]
  | _ => []
  end.

(** C29: a claim id that names no slot is worth nothing.  MATCH_INFO, REQUEST_CLAIM,
    ACTIVATE_CLAIM, DEACTIVATE_CLAIM and RELEASE_CLAIM with such an id leave the whole
    state as it is: the only effect is the refusal sent back. *)
Theorem unknown_id_refused env ev c id :
  commandID ev = Some id → findSlotByClaimID id c = None → handle env ev c = emitAll (refusal ev) c.
Proof.
  intros Hid Hno. destruct ev; cbn in Hid; simplify_eq; cbn [handle].
  - unfold doMatchInfo. by rewrite Hno.
  - unfold doRequestClaim. by rewrite Hno.
  - unfold doReleaseByClaimID. by rewrite Hno.
  - unfold doActivateClaim. by rewrite Hno.
  - unfold doDeactivate. by rewrite Hno.
Qed.

(** ** Locating a starter *)

(** The starters an answer may point to: a running one whose slot has that claim, or a
    persisted one. *)
Definition locatable (id gjid addr : string) c : Prop :=
  (∃ n act l s cl, activations c !! n = Some act ∧ lookupName n c = Some (l, s) ∧ Slot.claim s = Some cl ∧
     Claim.claimID cl = id ∧ starterAddr act = addr ∧ addr ≠ "" ∧ (gjid = "" ∨ globalJID act = gjid)) ∨
  (∃ p rec, pers c = Some p ∧ rec ∈ Persist.rs_list (store p) ∧ Persist.ClaimID rec = id ∧
     Persist.StarterIpAddr rec = addr ∧ (gjid = "" ∨ Persist.GlobalJobID rec = gjid)).

Lemma locateMatch_true id gjid rid rgjid :
  locateMatch id gjid rid rgjid = true → rid = id ∧ (gjid = "" ∨ rgjid = gjid).
Proof. unfold locateMatch. repeat case_bool_decide; cbn; try done; auto. Qed.

(** Locating needs the secret.  Whatever the order in which the map of
    activations is walked, an answer is given only for a non-empty claim id that is the
    id of the claim the starter runs under (or was persisted with), and for the global
    job id when one is asked for; a global job id alone locates nothing. *)
Lemma locate_located env id gjid c :
  (∀ ls, actOrder env ls ≡ₚ ls) → Reconnect.Found (doLocateStarter env id gjid c) = true →
  id ≠ "" ∧ locatable id gjid (Reconnect.StarterAddr (doLocateStarter env id gjid c)) c.
Proof.
  intros Hord. unfold doLocateStarter. case_bool_decide as Hid; [done|]. intros Hf. split; [done|]. revert Hf.
  destruct (find_map _ _) as [r|] eqn:E.
  - intros _. apply find_map_Some in E as ([n act] & Hin & H).
    rewrite Hord in Hin. apply elem_of_map_to_list in Hin.
    destruct (lookupName n c) as [[l s]|] eqn:El; [|done].
    case_bool_decide as Ha; [done|]. destruct (Slot.claim s) as [cl|] eqn:Ecl; [|done].
    destruct (locateMatch _ _ _ _) eqn:Em; [|done]. simplify_eq. apply locateMatch_true in Em as [H1 H2].
    left. by exists n, act, l, s, cl.
  - destruct (pers c) as [p|] eqn:Ep; [|done].
    destruct (find_map _ (Persist.rs_list (store p))) as [r|] eqn:E'; [|done]. intros _. cbn.
    apply find_map_Some in E' as (rec & Hin & H).
    destruct (locateMatch _ _ _ _) eqn:Em; [|done]. simplify_eq. apply locateMatch_true in Em as [H1 H2].
    right. by exists p, rec.
Qed.

(** ** DEACTIVATE_CLAIM_JOB_DONE *)

(** The deferred replies: who waits, and the next wait channel. *)
Definition waits c : gmap string chanid * chanid := (deferredDeactivate c, nextChan c).

Lemma waits_of_erase c c' : erase c' = erase c → waits c' = waits c.
Proof. intros H. change (waits (erase c') = waits (erase c)). by rewrite H. Qed.

Lemma waits_erase c : waits (erase c) = waits c.
Proof. done. Qed.

Lemma waits_unclaim env l c : waits (unclaimSlot env l c) = waits c.
Proof. unfold unclaimSlot. by repeat case_match. Qed.
Lemma waits_cancelMatch n c : waits (cancelMatchTimer n c) = waits c.
Proof. unfold cancelMatchTimer. by repeat case_match. Qed.
Lemma waits_cancelAlive n c : waits (cancelAlive n c) = waits c.
Proof. unfold cancelAlive. by repeat case_match. Qed.
Lemma waits_startMatch n id c : waits (startMatchTimer n id c) = waits c.
Proof. unfold startMatchTimer. by repeat case_match. Qed.
Lemma waits_startAlive l c : waits (startAliveLoop l c) = waits c.
Proof. unfold startAliveLoop. by repeat case_match. Qed.
Lemma waits_kill n c : waits (killActivation n c) = waits c.
Proof. unfold killActivation, emitVacate. by repeat case_match. Qed.
Lemma waits_updSlot l f c : waits (updSlot l f c) = waits c.
Proof. done. Qed.
Lemma waits_updClaim l f c : waits (updClaim l f c) = waits c.
Proof. done. Qed.
Lemma waits_set_activations a c : waits (set_activations a c) = waits c.
Proof. done. Qed.
Lemma waits_set_seqs a b n c : waits (set_seqs a b n c) = waits c.
Proof. done. Qed.
End Commands.

#[export] Hint Rewrite @waits_erase @waits_unclaim @waits_cancelMatch @waits_cancelAlive @waits_startMatch
  @waits_startAlive @waits_kill @waits_updSlot @waits_updClaim @waits_set_activations
  @waits_set_seqs : waits.

Ltac waits_quiet :=
  match goal with |- waits ?x = _ => rewrite <-(waits_erase x) end;
  autorewrite with erase; autorewrite with waits; try done.

Section Waits.
Context {CA : ClassAdLib} {SL : SecurityLib} {RS : Persist.RecordStore}.
Implicit Types (c : Core) (s : Slot.Slot) (env : Env) (l : loc).

Lemma waits_destroy env l c : waits (destroyDSlot env l c) = waits c.
Proof.
  unfold destroyDSlot. destruct (heap c !! l) as [d|]; [|done].
  set (c1 := if haveAdv _ then _ else _).
  assert (waits c1 = waits c) as <-.
  { unfold c1. case_match; waits_quiet. }
  clearbody c1. case_match; [case_match|]; waits_quiet.
Qed.

Lemma waits_release env l c : waits (releaseSlot env l c) = waits c.
Proof.
  unfold releaseSlot. destruct (heap c !! l) as [d|]; [|done]. case_match.
  - rewrite waits_destroy. waits_quiet.
  - waits_quiet.
Qed.

Lemma waits_carve env ev l cl c : waits (doRequestClaimPSlot env ev l cl c) = waits c.
Proof.
  unfold doRequestClaimPSlot. destruct (heap c !! l) as [ps|]; [|done].
  destruct (minter c) as [m|]; [|done]. repeat (case_match; [done|]).
  destruct (Claim.Mint m) as [m' [dClaim|]]; [|done].
  cbn zeta. repeat match goal with
  | |- context [claimedBlock env ev ?x ?y ?c0] =>
      pose proof (waits_of_erase _ _ (erase_claimedBlock env ev x y c0)) as HA;
      destruct (claimedBlock env ev x y c0) as [claimed c2]
  | |- context [leftoversBlock env ev ?x ?y ?c0] =>
      pose proof (waits_of_erase _ _ (erase_leftoversBlock env ev x y c0)) as HB;
      destruct (leftoversBlock env ev x y c0) as [lo c3]
  end.
  cbn [snd] in HA, HB. waits_quiet. rewrite HB, HA, waits_startAlive. waits_quiet.
Qed.

Lemma waits_request env ev c : waits (doRequestClaim env ev c) = waits c.
Proof.
  unfold doRequestClaim. repeat (case_match; try done); try (waits_quiet; done).
  - by rewrite waits_carve, waits_cancelMatch.
  - match goal with H : claimedBlock env ev ?x ?y ?c0 = _ |- _ =>
      pose proof (waits_of_erase _ _ (erase_claimedBlock env ev x y c0)) as HA; rewrite H in HA end.
    cbn [snd] in HA. waits_quiet. rewrite HA. waits_quiet.
Qed.

Lemma waits_activate env id job ch c : waits (doActivateClaim env id job ch c) = waits c.
Proof.
  unfold doActivateClaim. repeat (case_match; try done). unfold activateStarter. case_match; [done|].
  match goal with |- context [publicAd env ?x ?c0] =>
    pose proof (waits_of_erase _ _ (erase_publicAd env x c0)) as HP; destruct (publicAd env x c0) as [ad c'] end.
  cbn [snd] in HP. unfold finishActivate. repeat case_match; waits_quiet; by rewrite HP.
Qed.

Lemma waits_adoptSlot rec st : waits (as_core (adoptSlot rec st)) = waits (as_core st).
Proof. unfold adoptSlot, adoptStarter. repeat case_match; cbn [as_core]; waits_quiet. Qed.

Lemma waits_adoptRecord st rec : waits (as_core (adoptRecord st rec)) = waits (as_core st).
Proof.
  unfold adoptRecord. case_match; [done|]. case_match; [|apply waits_adoptSlot].
  assert (waits (reconstructDSlot rec (as_core st)).2 = waits (as_core st)) as H1
    by (unfold reconstructDSlot; by repeat case_match).
  destruct (reconstructDSlot rec (as_core st)) as [[] c']; cbn [snd] in H1;
    [by rewrite waits_adoptSlot|cbn [as_core]; by waits_quiet].
Qed.

Lemma waits_doAdopt env c : waits (doAdopt env c) = waits c.
Proof.
  unfold doAdopt. destruct (pers c) as [p|]; [|done].
  set (st := foldl adoptRecord _ _).
  assert (waits (as_core st) = waits c) as H1.
  { unfold st. change c with (as_core (mkAdoptState c ∅ 0)) at 2.
    generalize (mkAdoptState c ∅ 0) as st0. induction (Persist.rs_list (store p)) as [|r rs IH]; [done|].
    intros st0. cbn. by rewrite IH, waits_adoptRecord. }
  rewrite <-H1. clearbody st. set (c1 := foldl _ _ _).
  assert (waits c1 = waits (as_core st)) as <-; [|case_match; by waits_quiet].
  apply waits_of_erase, erase_foldl. intros c2 x. apply erase_refresh.
Qed.

(** The slot a DEACTIVATE_CLAIM_JOB_DONE with this id makes wait. *)
Definition defers (id : string) (cmd : Z) c : option string :=
  if cmd =? Claim.CmdDeactivateClaimJobDone then
    match findSlotByClaimID id c with
    | Some (_, s) => if bool_decide (is_Some (activations c !! Slot.Name s)) then Some (Slot.Name s) else None
    | None => None
    end
  else None.

Lemma handle_waits env (ev : Event) c :
  waits (handle env ev c) =
    match ev with
    | EvDeactivate id cmd _ =>
        match defers id cmd c with
        | Some n => (<[n := nextChan c]> (deferredDeactivate c), S (nextChan c))
        | None => waits c
        end
    | EvStarterExited n => (delete n (deferredDeactivate c), nextChan c)
    | _ => waits c
    end.
Proof.
  destruct ev; cbn [handle].
  - by waits_quiet.
  - unfold doMatchInfo. repeat case_match; by waits_quiet.
  - unfold doMatchTimeout. repeat case_match; try done. by waits_quiet.
  - apply waits_request.
  - unfold doReleaseByClaimID. repeat case_match; [apply waits_release|done].
  - repeat case_match; [apply waits_release|done].
  - unfold doAliveOK. repeat case_match; by waits_quiet.
  - apply waits_activate.
  - unfold doStarterUpdate. repeat case_match; by waits_quiet.
  - unfold doStarterFinal. repeat case_match; by waits_quiet.
  - assert (∀ c0, waits (releaseDeferredDeactivate slotName c0)
                  = (delete slotName (deferredDeactivate c0), nextChan c0)) as Hr.
    { intros c0. unfold releaseDeferredDeactivate. case_match; [done|]. by rewrite delete_id. }
    unfold doStarterExited, setClaimedIdle. destruct (activations c !! slotName) as [act|]; [|apply Hr].
    set (c1 := releaseDeferredDeactivate _ _).
    assert (waits c1 = (delete slotName (deferredDeactivate c), nextChan c)) as <- by (unfold c1; by rewrite Hr).
    clearbody c1. repeat case_match; by waits_quiet.
  - unfold doStarterHello. repeat case_match; by waits_quiet.
  - done.
  - by rewrite (waits_of_erase _ _ (erase_emit _ _)), waits_doAdopt.
  - unfold doAdoptFailed, setClaimedIdle. repeat case_match; try apply waits_release; by waits_quiet.
  - unfold doDeactivate, defers. destruct (findSlotByClaimID claimID c) as [[l s]|]; [|by destruct (command =? _)].
    destruct (command =? Claim.CmdDeactivateClaimJobDone); [|done].
    by destruct (activations c !! Slot.Name s).
  - unfold doVacate. repeat case_match; by waits_quiet.
  - unfold doVacateEscalate. repeat case_match; by waits_quiet.
Qed.

(** A step of the core either handles an event or leaves the answers and the waiters
    alone. *)
Lemma cstep_waits o c c' :
  cstep o c c' → (∃ env ev, o = Some ev ∧ c' = handle env ev c) ∨ (o = None ∧ waits c' = waits c ∧ closed c' = closed c).
Proof.
  intros Hs. destruct Hs; [left; eauto|right; split; [done|]..].
  - unfold tick. case_match; [|done]. split; [by apply waits_of_erase, erase_Advertise|].
    by rewrite !closed_answers, obs_Advertise.
  - done.
  - done.
Qed.

(** Wait channels are handed out once. *)
Definition chan_ok c : Prop :=
  (∀ n ch, deferredDeactivate c !! n = Some ch → (ch < nextChan c)%nat) ∧
  (∀ ch, ch ∈ closed c → (ch < nextChan c)%nat).

Lemma handle_chan_ok env (ev : Event) c : chan_ok c → chan_ok (handle env ev c).
Proof.
  intros [H1 H2]. pose proof (handle_waits env ev c) as Hw. pose proof (handle_closed env ev c) as Hc.
  revert Hw Hc. generalize (handle env ev c) as c'. unfold waits, chan_ok. intros c' Hw ->.
  destruct ev; try (rewrite app_nil_r; injection Hw as -> ->; done).
  - injection Hw as -> ->. split.
    + intros n ch Hn. apply (H1 n). by apply lookup_delete_Some in Hn as [_ ?].
    + intros ch Hin. apply elem_of_app in Hin as [?|Hin]; [auto|].
      destruct (deferredDeactivate c !! slotName) as [k|] eqn:E; [|by apply elem_of_nil in Hin].
      apply list_elem_of_singleton in Hin as ->. by apply (H1 slotName).
  - rewrite app_nil_r. destruct (defers claimID command c) as [n|]; injection Hw as -> ->; [|done]. split.
    + intros k ch Hk. rewrite lookup_insert in Hk. case_decide; simplify_eq; [lia|]. specialize (H1 _ _ Hk). lia.
    + intros ch Hin. specialize (H2 _ Hin). lia.
Qed.

Lemma reachable_chan_ok allow c0 c : chan_ok c0 → reachable allow c0 c → chan_ok c.
Proof.
  intros H0 Hr. induction Hr as [|o c1 c2 _ IH Hs _]; [done|]. apply cstep_waits in Hs.
  destruct Hs as [(env & ev & _ & ->)|(_ & Hw & Hc)]; [by apply handle_chan_ok|].
  unfold chan_ok. unfold waits in Hw. rewrite Hc. by injection Hw as -> ->.
Qed.

(** Channel [ch] was handed out, is not closed and nobody remembers it. *)
Definition stranded (ch : chanid) c : Prop :=
  (ch < nextChan c)%nat ∧ (∀ n, deferredDeactivate c !! n ≠ Some ch) ∧ ch ∉ closed c.

Lemma handle_stranded env (ev : Event) ch c : stranded ch c → stranded ch (handle env ev c).
Proof.
  intros (H1 & H2 & H3). pose proof (handle_waits env ev c) as Hw. pose proof (handle_closed env ev c) as Hc.
  revert Hw Hc. generalize (handle env ev c) as c'. unfold waits, stranded. intros c' Hw ->.
  destruct ev; try (rewrite app_nil_r; injection Hw as -> ->; done).
  - injection Hw as -> ->. split_and!; [done| |].
    + intros n Hn. apply lookup_delete_Some in Hn as [_ Hn]. by eapply H2.
    + intros [?|Hin]%elem_of_app; [done|].
      destruct (deferredDeactivate c !! slotName) as [k|] eqn:E; [|by apply elem_of_nil in Hin].
      apply list_elem_of_singleton in Hin as ->. by eapply H2.
  - rewrite app_nil_r. destruct (defers claimID command c) as [n|]; injection Hw as -> ->; [|done].
    split_and!; [lia| |done].
    intros k Hk. rewrite lookup_insert in Hk. case_decide; simplify_eq; [lia|]. by eapply H2.
Qed.

Lemma reachable_stranded ch c c' : stranded ch c → reachable any_event c c' → stranded ch c'.
Proof.
  intros H0 Hr. induction Hr as [|o c1 c2 _ IH Hs _]; [done|]. apply cstep_waits in Hs.
  destruct Hs as [(env & ev & _ & ->)|(_ & Hw & Hc)]; [by apply handle_stranded|].
  unfold stranded, waits in *. rewrite Hc. by injection Hw as -> ->.
Qed.

(** Events that neither report the exit of the starter of [n] nor defer another reply. *)
Definition patient (n : string) (ev : Event) : bool :=
  match ev with
  | EvStarterExited m => negb (bool_decide (m = n))
  | EvDeactivate _ cmd _ => negb (cmd =? Claim.CmdDeactivateClaimJobDone)
  | _ => true
  end.

Lemma patient_waits n ch c c' :
  deferredDeactivate c !! n = Some ch → (∀ k, deferredDeactivate c !! k = Some ch → k = n) → ch ∉ closed c →
  reachable (patient n) c c' →
  deferredDeactivate c' !! n = Some ch ∧ (∀ k, deferredDeactivate c' !! k = Some ch → k = n) ∧ ch ∉ closed c'.
Proof.
  intros H1 H2 H3 Hr. induction Hr as [|o c1 c2 _ (I1 & I2 & I3) Hs Ha]; [done|]. apply cstep_waits in Hs.
  destruct Hs as [(env & ev & -> & ->)|(_ & Hw & Hc)].
  2: { unfold waits in Hw. injection Hw as -> _. by rewrite Hc. }
  specialize (Ha ev eq_refl). pose proof (handle_waits env ev c1) as Hw. pose proof (handle_closed env ev c1) as Hc.
  revert Hw Hc. generalize (handle env ev c1) as c'. unfold waits. intros c' Hw ->.
  destruct ev; try (rewrite app_nil_r; injection Hw as -> _; done).
  - cbn in Ha. apply negb_true_iff, bool_decide_eq_false in Ha. injection Hw as -> _. split_and!.
    + by rewrite lookup_delete_ne.
    + intros k Hk. apply I2. by apply lookup_delete_Some in Hk as [_ ?].
    + intros [?|Hin]%elem_of_app; [done|].
      destruct (deferredDeactivate c1 !! slotName) as [k|] eqn:E; [|by apply elem_of_nil in Hin].
      apply list_elem_of_singleton in Hin as <-. by apply Ha, I2.
  - rewrite app_nil_r. cbn in Ha. apply negb_true_iff in Ha. unfold defers in Hw. rewrite Ha in Hw.
    by injection Hw as -> _.
Qed.

(** ** The theorems on waiting *)

Context (h : Host) (cf : Config) (hostname sinful : string) (total : Slot.Resources) (t0 : Time).
Context (opts : CoreConfig) (m : option Claim.Minter) (st : option Persist.rstore).

Local Abbreviation start := (startup h cf hostname sinful total t0 opts m st).

Lemma startup_chan_ok : chan_ok start.
Proof.
  unfold startup, New, prime. set (c := mkCore _ _ _ _ _ _ _ _ _ _ _ _ _ _ _ _ _ _).
  assert (chan_ok c) as Hc by (split; [intros n ch; cbn; by rewrite lookup_empty|by intros ch ?%elem_of_nil]).
  destruct (minter c); [|done]. revert Hc. generalize (slots c) as ls. generalize c as c0. clear c.
  intros c0 ls. revert c0. induction ls as [|l ls IH]; intros c0 Hc; [done|]. cbn. apply IH.
  unfold primeSlot. by repeat case_match.
Qed.

(** DEACTIVATE_CLAIM_JOB_DONE kills nothing and waits for the starter.  When a
    starter is running the handler is told to wait on a fresh channel and neither the
    slot nor the activation changes; whatever happens next, the channel stays open until
    the starter's exit is reported, and that report closes it. *)
Theorem job_done_waits env id r c l s act :
  reachable any_event start c → findSlotByClaimID id c = Some (l, s) → activations c !! Slot.Name s = Some act →
  let c1 := handle env (EvDeactivate id Claim.CmdDeactivateClaimJobDone r) c in
  trace c1 = trace c ++ [EDeactivateReply r (mkDeactivateDecision true false (Slot.Name s) true (Some (nextChan c)))] ∧
  activations c1 = activations c ∧ heap c1 = heap c ∧
  (∀ c2, reachable (patient (Slot.Name s)) c1 c2 →
    ¬ (nextChan c ∈ closed c2) ∧
    (∀ env', closed (handle env' (EvStarterExited (Slot.Name s)) c2) = closed c2 ++ [nextChan c])).
Proof.
  intros Hr Hf Ha. pose proof (reachable_chan_ok _ _ _ startup_chan_ok Hr) as [H1 H2]. cbn zeta.
  cbn [handle]. unfold doDeactivate. rewrite Hf, Z.eqb_refl, Ha. split_and!; [done..|].
  intros c2 Hr2. eapply (patient_waits (Slot.Name s) (nextChan c)) in Hr2 as (I1 & _ & I3); cbn [deferredDeactivate emit set_deferred].
  - split; [done|]. intros env'. change (closed (handle env' (EvStarterExited (Slot.Name s)) c2) = closed c2 ++ [nextChan c]).
    by rewrite handle_closed, I1.
  - by rewrite lookup_insert_eq.
  - intros k Hk. rewrite lookup_insert in Hk. case_decide; [done|]. specialize (H1 _ _ Hk). lia.
  - intros Hin. rewrite closed_answers, obs_emit in Hin by done. rewrite omap_app in Hin. cbn in Hin.
    rewrite app_nil_r in Hin. change (answers _) with (answers c) in Hin.
    assert (nextChan c ∈ closed c) as Hin' by (by rewrite closed_answers). specialize (H2 _ Hin'). lia.
Qed.

(** A DEACTIVATE_CLAIM_JOB_DONE. *)
Definition jobDone (id : string) (r : chanid) : Event := EvDeactivate id Claim.CmdDeactivateClaimJobDone r.

(** A second DEACTIVATE_CLAIM_JOB_DONE for the same running starter replaces the
    first one's channel, which is then closed in no later state: the first handler waits
    until its connection is given up. *)
Theorem second_job_done_strands_first env env' id r r' c l s act c' :
  reachable any_event start c → findSlotByClaimID id c = Some (l, s) → activations c !! Slot.Name s = Some act →
  let c1 := handle env (jobDone id r) c in
  let c2 := handle env' (jobDone id r') c1 in
  reachable any_event c2 c' → nextChan c ∉ closed c'.
Proof.
  intros Hr Hf Ha c1 c2 Hr2. unfold jobDone in c1, c2. pose proof (reachable_chan_ok _ _ _ startup_chan_ok Hr) as [H1 H2].
  assert (stranded (nextChan c) c2) as Hs; [|by apply (reachable_stranded _ _ _ Hs Hr2)].
  assert (defers id Claim.CmdDeactivateClaimJobDone c = Some (Slot.Name s)) as Hd.
  { unfold defers. by rewrite Z.eqb_refl, Hf, Ha. }
  assert (defers id Claim.CmdDeactivateClaimJobDone c1 = Some (Slot.Name s)) as Hd1.
  { rewrite <-Hd. unfold c1. cbn [handle]. unfold doDeactivate. by rewrite Hf, Z.eqb_refl, Ha. }
  pose proof (handle_waits env (EvDeactivate id Claim.CmdDeactivateClaimJobDone r) c) as W1.
  pose proof (handle_closed env (EvDeactivate id Claim.CmdDeactivateClaimJobDone r) c) as C1.
  pose proof (handle_waits env' (EvDeactivate id Claim.CmdDeactivateClaimJobDone r') c1) as W2.
  pose proof (handle_closed env' (EvDeactivate id Claim.CmdDeactivateClaimJobDone r') c1) as C2.
  fold c1 in W1, C1. fold c2 in W2, C2. cbn iota in W1, W2, C1, C2. rewrite Hd in W1. rewrite Hd1 in W2.
  unfold waits in W1, W2. injection W1 as Wd Wn. rewrite Wd, Wn in W2. injection W2 as Vd Vn.
  rewrite app_nil_r in C1, C2. unfold stranded. rewrite Vn, Vd, C2, C1. split_and!; [lia| |].
  - intros n Hn. rewrite lookup_insert in Hn. case_decide; [simplify_eq; lia|].
    rewrite lookup_insert_ne in Hn by done. specialize (H1 _ _ Hn). lia.
  - intros Hin. specialize (H2 _ Hin). lia.
Qed.
End Waits.

(** ** Runs *)

Section Runs.
Context {CA : ClassAdLib} {SL : SecurityLib} {RS : Persist.RecordStore}.

Definition run (env : Env) (evs : list Event) (c : Core) : Core := foldl (λ c ev, handle env ev c) c evs.

Definition stateOf (n : string) (c : Core) : option (string * string) :=
  (λ ls, (Slot.state ls.2, Slot.activity ls.2)) <$> lookupName n c.

Definition claimOf (n : string) (c : Core) : option string :=
  lookupName n c ≫= λ ls, Claim.claimID <$> Slot.claim ls.2.
End Runs.

(** A second job on the dynamic slot, after the first starter exited. *)
Definition demoSecondJob : Core :=
  run demoEnv [EvStarterExited "slot1_1@h"; EvActivateClaim dslotID demoJob 5%nat] demo2.

(** A late report about the old starter ends the new one.  The exit of a starter
    can be reported twice (its supervisor and the goroutine that reaps it); when
    the second report arrives after the next job was activated, the activation it tears
    down is the new one, of another generation, and the slot is idle again. *)
Theorem late_exit_ends_next_job :
  (gen <$> activations demo2 !! "slot1_1@h") = Some 1 ∧
  (gen <$> activations demoSecondJob !! "slot1_1@h") = Some 2 ∧
  stateOf "slot1_1@h" demoSecondJob = Some ("Claimed", "Busy") ∧
  (gen <$> activations (handle demoEnv (EvStarterExited "slot1_1@h") demoSecondJob) !! "slot1_1@h") = None ∧
  stateOf "slot1_1@h" (handle demoEnv (EvStarterExited "slot1_1@h") demoSecondJob) = Some ("Claimed", "Idle").
Proof. split_and!; vm_compute; reflexivity. Qed.

(** A p-slot that the negotiator matched and the schedd then claimed from. *)
Definition demoMatched : Core :=
  run demoEnv [EvMatchInfo pslotID; EvRequestClaim (demoRequest pslotID); EvReleaseClaim dslotID;
               EvMatchInfo pslotID] demo0.

(** A p-slot that was matched stays Matched.  REQUEST_CLAIM cancels the match timer
    and carves a dynamic slot without resetting the p-slot.  In this run, when the dynamic
    slot is gone again and everything is free, the p-slot is still Matched, no timer will
    reset it, another MATCH_INFO was ignored, and it advertises Requirements = false. *)
Theorem matched_pslot_stays_matched :
  stateOf "slot1@h" demoMatched = Some ("Matched", "Idle") ∧
  (Slot.Res ∘ snd <$> lookupName "slot1@h" demoMatched) = Some demoTotal ∧
  matchCancels demoMatched !! "slot1@h" = None ∧
  ((λ ls, EvaluateAttrBool "Requirements" (SetTarget (Slot.PublicAd demoHost 0 ls.2).1 demoJob))
     <$> lookupName "slot1@h" demoMatched) = Some (Some false).
Proof. split_and!; vm_compute; reflexivity. Qed.

(** Two claims in a row on a static slot. *)
Definition demoReclaimed : Core :=
  run demoEnv [EvRequestClaim (demoRequest pslotID); EvReleaseClaim pslotID;
               EvRequestClaim (demoRequest "<h:1>#7#3#secret")] demoStatic0.

(** A lease that runs out can end the next claim.  The keepalive loop asks for the
    release of a slot, not of a claim: if its request is still queued when the slot is
    released and claimed again, the claim that ends is the new one. *)
Theorem late_release_ends_next_claim :
  claimOf "slot1@h" demoReclaimed = Some "<h:1>#7#3#secret" ∧
  stateOf "slot1@h" demoReclaimed = Some ("Claimed", "Idle") ∧
  stateOf "slot1@h" (handle demoEnv (EvReleaseSlot "slot1@h" "lease expired") demoReclaimed)
    = Some ("Unclaimed", "Idle") ∧
  claimOf "slot1@h" (handle demoEnv (EvReleaseSlot "slot1@h" "lease expired") demoReclaimed)
    = Some "<h:1>#7#4#secret".
Proof. split_and!; vm_compute; reflexivity. Qed.

(** ** Witnesses *)

Lemma unknown_id_refused_witness :
  handle demoEnv (EvReleaseClaim "x") demo1 = demo1 ∧
  handle demoEnv (EvActivateClaim "x" demoJob 9%nat) demo1
  = emit (EActivateReply 9%nat (mkActivateDecision activateNotOK None "")) demo1.
Proof.
  assert (findSlotByClaimID "x" demo1 = None) as H
    by (apply eq_None_not_Some, (bool_decide_unpack _); vm_compute; exact I).
  split.
  - exact (unknown_id_refused demoEnv (EvReleaseClaim "x") demo1 "x" eq_refl H).
  - exact (unknown_id_refused demoEnv (EvActivateClaim "x" demoJob 9%nat) demo1 "x" eq_refl H).
Defined.

(** The starter of the first job, after it said hello. *)
Definition demoHello : Core := handle demoEnv (EvStarterHello "slot1_1@h" "<h:5>" 99 100) demo2.

Lemma demoHello_located : doLocateStarter demoEnv dslotID "" demoHello = Reconnect.mkLocateResult true "<h:5>".
Proof. vm_compute. reflexivity. Qed.

Lemma demo2_reachable : reachable any_event demoStartup demo2.
Proof. eapply reach_step; [exact demo1_reachable|apply step_event, demo1_activate_ok|done]. Qed.

Lemma demo2_running :
  ∃ l s act, findSlotByClaimID dslotID demo2 = Some (l, s) ∧ Slot.Name s = "slot1_1@h" ∧
    activations demo2 !! Slot.Name s = Some act ∧ nextChan demo2 = 0%nat.
Proof.
  assert ((Slot.Name ∘ snd <$> findSlotByClaimID dslotID demo2) = Some "slot1_1@h") as H
    by (vm_compute; reflexivity).
  assert (is_Some (activations demo2 !! "slot1_1@h")) as [act Ha]
    by (apply (bool_decide_unpack _); vm_compute; exact I).
  apply fmap_Some in H as ([l s] & Hf & Hn). exists l, s, act. cbn in Hn. rewrite <-Hn.
  split_and!; [exact Hf|reflexivity|exact Ha|vm_compute; reflexivity].
Qed.

Lemma job_done_waits_witness :
  closed demo2 = [] ∧
  ∀ c2, reachable (patient "slot1_1@h")
          (handle demoEnv (EvDeactivate dslotID Claim.CmdDeactivateClaimJobDone 6%nat) demo2) c2 →
  ¬ (0%nat ∈ closed c2).
Proof.
  destruct demo2_running as (l & s & act & Hf & Hn & Ha & Hch).
  destruct (job_done_waits demoHost demoConfig "h" "<h:1>" demoTotal 0 demoOpts (Some demoMinter)
              (Some demoRStore) demoEnv dslotID 6%nat demo2 l s act demo2_reachable Hf Ha) as (_ & _ & _ & H).
  split; [vm_compute; reflexivity|]. rewrite <-Hn, <-Hch. intros c2 Hr. exact (proj1 (H c2 Hr)).
Defined.

Lemma second_job_done_strands_first_witness :
  closed demo2 = [] ∧
  ∀ c', reachable any_event
          (handle demoEnv (jobDone dslotID 7%nat) (handle demoEnv (jobDone dslotID 6%nat) demo2)) c' →
  ¬ (0%nat ∈ closed c').
Proof.
  destruct demo2_running as (l & s & act & Hf & Hn & Ha & Hch).
  split; [vm_compute; reflexivity|]. rewrite <-Hch. intros c' Hr.
  exact (second_job_done_strands_first demoHost demoConfig "h" "<h:1>" demoTotal 0 demoOpts (Some demoMinter)
           (Some demoRStore) demoEnv demoEnv dslotID 6%nat 7%nat demo2 l s act c' demo2_reachable Hf Ha Hr).
Defined.
