(* ===== verification/Adoption.v ===== *)
(** * Re-adoption restores what was persisted

    A restarted startd rebuilds its claims from the records [persistSlot] wrote.
    The record of a claimed slot, read back by [adoptRecord] in a freshly built
    core, gives a slot with the same claim, the same state and, when a starter
    survived, the same activation. *)

From S2P Require Import Prelude GoLang ClassAd Claim Slot SlotFacts Persist Persister StarterMsg Reconnect.
From S2P Require Import Registry Core CoreFrame CoreDemo CoreProps.

Import Core.

Local Open Scope Z_scope.
Local Open Scope ep_scope.

Section Adoption.
Context {CA : ClassAdLib} {SL : SecurityLib} {RS : Persist.RecordStore}.
Implicit Types (c : Core) (s : Slot.Slot) (env : Env) (l : loc).

(** The parts of a claim that survive a restart; times are kept to the second. *)
Record same_claim (cl cl' : Claim.Claim) : Prop := mkSameClaim {
  sc_id : Claim.claimID cl' = Claim.claimID cl;
  sc_public : Claim.publicClaimID cl' = Claim.publicClaimID cl;
  sc_session : Claim.sessionID cl' = SecSessionID (Claim.claimID cl);
  sc_state : Claim.state cl' = Claim.state cl;
  sc_schedd : Claim.scheddAddr cl' = Claim.scheddAddr cl ∧ Claim.scheddName cl' = Claim.scheddName cl;
  sc_user : Claim.user cl' = Claim.user cl ∧ Claim.clientMachine cl' = Claim.clientMachine cl;
  sc_alive : Claim.aliveInterval cl' = Claim.aliveInterval cl;
  sc_lease : Unix (Claim.leaseDeadline cl') = Unix (Claim.leaseDeadline cl)
}.

(** A slot as it is while it is claimed. *)
Definition claimed_slot s cl : Prop :=
  Slot.claim s = Some cl ∧ Slot.state s = "Claimed" ∧ Claim.claimID cl ≠ "" ∧
  Unix (Claim.leaseDeadline cl) ≠ 0 ∧
  ((Slot.activity s = "Idle" ∧ Claim.state cl = Claim.ClaimedIdle) ∨
   (Slot.activity s = "Busy" ∧ Claim.state cl = Claim.ClaimedBusy)).

Lemma unixTime_Unix t : Unix t ≠ 0 → Unix (unixTime (if IsZero t then 0 else Unix t)) = Unix t.
Proof.
  intros H. unfold unixTime, IsZero. destruct (t =? zeroTime) eqn:E; cbn [Z.eqb].
  - apply Z.eqb_eq in E as ->. done.
  - destruct (Unix t =? 0) eqn:E'; [by apply Z.eqb_eq in E'|].
    unfold Unix, timeUnix. by rewrite Z.div_mul.
Qed.

Lemma EqualFold_refl x : EqualFold x x = true.
Proof. unfold EqualFold. by apply bool_decide_eq_true. Qed.

Lemma busy_activity s cl :
  claimed_slot s cl →
  EqualFold (Slot.activity s) "Busy" = bool_decide (Claim.state cl = Claim.ClaimedBusy).
Proof. intros (_ & _ & _ & _ & [[-> ->]|[-> ->]]); reflexivity. Qed.

Lemma adoptClaim_recordOf c s cl :
  claimed_slot s cl → same_claim cl (adoptClaim (recordOf c s cl)).
Proof.
  intros Hcl. pose proof (busy_activity s cl Hcl) as Hb. destruct Hcl as (_ & _ & _ & Hl & Hst).
  constructor; try done.
  - cbn. rewrite Hb. by destruct Hst as [[_ ->]|[_ ->]].
  - cbn. by apply unixTime_Unix.
Qed.

(** ** One slot *)

(** [l] holds the claim of [s] again, on the slot with the shape of [s0]. *)
Definition restored s cl (l : loc) s0 c : Prop :=
  ∃ s' cl', heap c !! l = Some s' ∧ Slot.claim s' = Some cl' ∧ same_claim cl cl' ∧
    Slot.state s' = Slot.state s ∧ Slot.activity s' = Slot.activity s ∧ Slot.Name s' = Slot.Name s ∧
    (Slot.Res s' = Slot.Res s0 ∧ Slot.SlotType s' = Slot.SlotType s0 ∧
     Slot.ParentName s' = Slot.ParentName s0 ∧ Slot.SubID s' = Slot.SubID s0) ∧
    is_Some (aliveCancels c !! Slot.Name s).

(** The activation [act] as the restarted startd knows it. *)
Definition same_starter (act act' : activation) : Prop :=
  sandbox act' = sandbox act ∧ globalJID act' = globalJID act ∧ starterAddr act' = starterAddr act ∧
  starterPid act' = starterPid act ∧ socketPath act' = socketPath act ∧ adopted act' = true ∧
  vacating act' = false.

Lemma adoptSlot_restores c s cl st l s0 :
  claimed_slot s cl → ImportClaimSession (Claim.claimID cl) (Claim.scheddAddr cl) Claim.SurfaceCommands = true →
  lookupName (Slot.Name s) (as_core st) = Some (l, s0) → Slot.Name s0 = Slot.Name s →
  let st' := adoptSlot (recordOf c s cl) st in
  nAdopted st' = nAdopted st + 1 ∧ restored s cl l s0 (as_core st') ∧ byName (as_core st') = byName (as_core st) ∧
  (∀ act, activations c !! Slot.Name s = Some act → Claim.state cl = Claim.ClaimedBusy →
     socketPath act ≠ "" → ∃ act', activations (as_core st') !! Slot.Name s = Some act' ∧ same_starter act act').
Proof.
  intros Hcl Himp Hl Hn. pose proof (busy_activity s cl Hcl) as Hb.
  pose proof (adoptClaim_recordOf c s cl Hcl) as Hsame.
  destruct Hcl as (Hc & Hst & Hid & _ & Hact). unfold adoptSlot.
  change (Persist.SlotName (recordOf c s cl)) with (Slot.Name s). rewrite Hl.
  change (Persist.ClaimID (recordOf c s cl)) with (Claim.claimID cl).
  rewrite (bool_decide_false _ Hid).
  change (Persist.ScheddAddr (recordOf c s cl)) with (Claim.scheddAddr cl). rewrite Himp. cbn [negb].
  change (Persist.Activity (recordOf c s cl)) with (Slot.activity s). rewrite Hb.
  set (busy := bool_decide (Claim.state cl = Claim.ClaimedBusy)).
  apply lookupName_Some in Hl as [_ Hheap].
  set (c1 := startAliveLoop l _). cbn zeta.
  assert (∃ s1, heap c1 !! l = Some s1 ∧ Slot.claim s1 = Some (adoptClaim (recordOf c s cl)) ∧
            Slot.state s1 = "Claimed" ∧ Slot.activity s1 = activityOf busy ∧ Slot.Name s1 = Slot.Name s ∧
            (Slot.Res s1 = Slot.Res s0 ∧ Slot.SlotType s1 = Slot.SlotType s0 ∧
             Slot.ParentName s1 = Slot.ParentName s0 ∧ Slot.SubID s1 = Slot.SubID s0) ∧
            is_Some (aliveCancels c1 !! Slot.Name s) ∧ byName c1 = byName (as_core st))
    as (s1 & H1 & H2 & H3 & H4 & H5 & H6 & H7 & H8).
  { unfold c1, startAliveLoop. cbn [heap updSlot set_heap]. rewrite lookup_alter_eq, Hheap. cbn.
    rewrite lookup_alter_eq, Hheap. eexists. split; [reflexivity|]. split_and!; try done.
    rewrite Hn, lookup_insert_eq. by eexists. }
  clearbody c1. cbn [nAdopted as_core]. split; [done|]. split.
  - exists s1, (adoptClaim (recordOf c s cl)). rewrite Hst.
    assert (Slot.activity s1 = Slot.activity s) as Ha.
    { rewrite H4. unfold busy. by destruct Hact as [[-> ->]|[-> ->]]. }
    by destruct (_ && _).
  - split; [by destruct (_ && _)|]. intros act Hact' Hbusy Hsock.
    assert (Persist.StarterSocket (recordOf c s cl) = socketPath act) as -> by (cbn; by rewrite Hact').
    rewrite (bool_decide_false _ Hsock). unfold busy. rewrite (bool_decide_true _ Hbusy). cbn.
    rewrite lookup_insert_eq, Hact'. eexists. split; [reflexivity|]. by repeat split.
Qed.

(** ** Any record *)

(** Where the restarted startd puts the claim of [s]: on the slot with its name, or on
    a dynamic slot it carves again. *)
Definition adoptable s c : Prop :=
  if Slot.IsDynamic s then
    ∃ p parent, lookupName (Slot.ParentName s) c = Some (p, parent) ∧
      Slot.Name parent = Slot.ParentName s ∧ lookupName (Slot.Name s) c = None ∧
      Slot.Name s = Slot.dynamicName (Slot.SlotID parent) (Slot.SubID s) (Slot.Machine parent)
  else
    EqualFold (Slot.SlotType s) Slot.SlotTypeDynamic = false ∧
    ∃ l s0, lookupName (Slot.Name s) c = Some (l, s0) ∧ Slot.Name s0 = Slot.Name s.

Lemma reconstruct_restores c s cl c' p parent :
  Slot.IsDynamic s = true → lookupName (Slot.ParentName s) c' = Some (p, parent) →
  Slot.Name parent = Slot.ParentName s → lookupName (Slot.Name s) c' = None →
  Slot.Name s = Slot.dynamicName (Slot.SlotID parent) (Slot.SubID s) (Slot.Machine parent) →
  ∃ c1 d, reconstructDSlot (recordOf c s cl) c' = (true, c1) ∧
    lookupName (Slot.Name s) c1 = Some (nextLoc c', d) ∧ byName c1 !! Slot.Name s = Some (nextLoc c') ∧
    Slot.Name d = Slot.Name s ∧ Slot.Res d = Slot.Res s ∧ Slot.SlotType d = Slot.SlotTypeDynamic ∧
    Slot.ParentName d = Slot.ParentName s ∧ Slot.SubID d = Slot.SubID s.
Proof.
  intros Hd Hp Hpn Hno Hname. unfold reconstructDSlot.
  change (Persist.SlotName (recordOf c s cl)) with (Slot.Name s).
  assert (Persist.ParentSlotName (recordOf c s cl) = Slot.ParentName s) as -> by (cbn; by rewrite Hd).
  rewrite Hp, Hno.
  assert (Slot.mkRes (Persist.Cpus (recordOf c s cl)) (Persist.MemoryMB (recordOf c s cl))
            (Persist.DiskKB (recordOf c s cl)) = Slot.Res s) as ->
    by (cbn; rewrite Hd; by destruct (Slot.Res s)).
  assert (Persist.DSlotSubID (recordOf c s cl) = Slot.SubID s) as -> by (cbn; by rewrite Hd).
  set (d := Slot.NewDynamicSlot _ _ _ _).
  assert (Slot.Name d = Slot.Name s ∧ Slot.Res d = Slot.Res s ∧ Slot.SlotType d = Slot.SlotTypeDynamic ∧
          Slot.ParentName d = Slot.ParentName s ∧ Slot.SubID d = Slot.SubID s) as (Hdn & Hd2 & Hd3 & Hd4 & Hd5)
    by done.
  clearbody d. set (c1 := addDSlot d _).
  assert (byName c1 !! Slot.Name s = Some (nextLoc c') ∧ heap c1 !! nextLoc c' = Some d) as [H1 H2].
  { unfold c1. cbn. rewrite Hdn, !lookup_insert_eq. done. }
  eexists _, d. split; [reflexivity|]. split_and!; try done.
  - apply lookupName_Some. by case_match.
  - by case_match.
Qed.

(** A restart loses no claim.  Take the record [persistSlot] wrote for a claimed
    slot, static or dynamic, and a core in which the slot (or the dynamic slot's parent)
    exists again: adopting the record puts the same claim on the slot, under the same
    secret id, with the same schedd, user, lease and activity, resumes its keepalive
    loop, rebuilds a dynamic slot with its recorded resources, and reattaches a starter
    that was running in a process of its own to the sandbox and socket it had. *)
Theorem adoption_restores_claim c s cl c' t n :
  claimed_slot s cl → ImportClaimSession (Claim.claimID cl) (Claim.scheddAddr cl) Claim.SurfaceCommands = true →
  adoptable s c' →
  let st' := adoptRecord (mkAdoptState c' t n) (recordOf c s cl) in
  nAdopted st' = n + 1 ∧
  (∃ l s0, byName (as_core st') !! Slot.Name s = Some l ∧ restored s cl l s0 (as_core st') ∧
     (Slot.IsDynamic s = true →
        Slot.Res s0 = Slot.Res s ∧ Slot.ParentName s0 = Slot.ParentName s ∧ Slot.SubID s0 = Slot.SubID s)) ∧
  (∀ act, activations c !! Slot.Name s = Some act → Claim.state cl = Claim.ClaimedBusy →
     socketPath act ≠ "" → ∃ act', activations (as_core st') !! Slot.Name s = Some act' ∧ same_starter act act').
Proof.
  intros Hcl Himp Had. unfold adoptRecord.
  assert (Persist.State (recordOf c s cl) = "Claimed") as -> by apply Hcl.
  rewrite EqualFold_refl. cbn [negb as_core touched nAdopted].
  change (Persist.SlotType (recordOf c s cl)) with (Slot.SlotType s). unfold adoptable in Had.
  destruct (Slot.IsDynamic s) eqn:Ed.
  - destruct Had as (p & parent & Hp & Hpn & Hno & Hname).
    destruct (reconstruct_restores c s cl c' p parent Ed Hp Hpn Hno Hname)
      as (c1 & d & -> & Hl & Hb & Hdn & Hres & _ & Hpar & Hsub).
    unfold Slot.IsDynamic in Ed. apply bool_decide_eq_true in Ed as ->. rewrite EqualFold_refl.
    set (st := mkAdoptState c1 _ n).
    destruct (adoptSlot_restores c s cl st (nextLoc c') d Hcl Himp Hl Hdn) as (H1 & H2 & H3 & H4).
    split; [done|]. split; [|done]. exists (nextLoc c'), d. by rewrite H3.
  - destruct Had as (-> & l & s0 & Hl & Hn).
    destruct (adoptSlot_restores c s cl (mkAdoptState c' t n) l s0 Hcl Himp Hl Hn) as (H1 & H2 & H3 & H4).
    split; [done|]. split; [|done]. exists l, s0. rewrite H3. split; [|done].
    by apply lookupName_Some in Hl as [? _].
Qed.
End Adoption.

(** ** Witness *)

(** The same machine with starters in processes of their own. *)
Definition demoProcOpts : CoreConfig :=
  mkCoreConfig true 0 0 0 "/execute" 0 "" "" "process" "/sbin/starter" "/sockets" 0 0.

Definition demoProc0 : Core := New demoProcOpts (demoSlots demoConfig) (Some demoMinter) (Some demoRStore).

(** A job is running on the dynamic slot; then the startd restarts. *)
Definition demoProc2 : Core :=
  run demoEnv [EvRequestClaim (demoRequest pslotID); EvActivateClaim dslotID demoJob 4%nat] demoProc0.

Definition demoSummary (ls : loc * Slot.Slot) : option (string * string * string * Z) :=
  (λ cl, (Slot.state ls.2, Slot.activity ls.2, Claim.claimID cl, Unix (Claim.leaseDeadline cl)))
    <$> Slot.claim ls.2.

Lemma demoProc2_busy :
  ∃ l s cl act, lookupName "slot1_1@h" demoProc2 = Some (l, s) ∧ claimed_slot s cl ∧
    Claim.claimID cl = dslotID ∧ Claim.state cl = Claim.ClaimedBusy ∧
    activations demoProc2 !! Slot.Name s = Some act ∧ socketPath act ≠ "" ∧ adoptable s demoProc0.
Proof.
  assert ((lookupName "slot1_1@h" demoProc2 ≫= demoSummary)
          = Some ("Claimed", "Busy", dslotID, 1805)) as H1 by (vm_compute; reflexivity).
  assert ((lookupName "slot1_1@h" demoProc2 ≫= λ ls, (λ cl, bool_decide (Claim.state cl = Claim.ClaimedBusy)) <$> Slot.claim ls.2)
          = Some true) as H2 by (vm_compute; reflexivity).
  assert ((socketPath <$> activations demoProc2 !! "slot1_1@h") = Some "/sockets/<h:1>#7#2#...|1.sock") as H3
    by (vm_compute; reflexivity).
  assert ((λ ls, (Slot.Name ls.2, Slot.IsDynamic ls.2, Slot.ParentName ls.2, Slot.SubID ls.2))
            <$> lookupName "slot1_1@h" demoProc2 = Some ("slot1_1@h", true, "slot1@h", 1)) as H4
    by (vm_compute; reflexivity).
  assert ((λ ls, (Slot.Name ls.2, Slot.SlotID ls.2, Slot.Machine ls.2)) <$> lookupName "slot1@h" demoProc0
          = Some ("slot1@h", 1, "h")) as H5 by (vm_compute; reflexivity).
  destruct (lookupName "slot1_1@h" demoProc2) as [[l s]|]; [|done]. cbn in H1, H2, H4.
  apply fmap_Some in H1 as (cl & Hcl & Hsum). cbn in Hcl, Hsum. rewrite Hcl in H2. cbn in H2.
  injection H2 as H2. apply bool_decide_eq_true in H2.
  apply fmap_Some in H3 as (act & Hact & Hsock). apply fmap_Some in H5 as ([p ps] & Hp & Hps).
  exists l, s, cl, act. injection H4 as Hn Hd Hpar Hsub. injection Hsum as S1 S2 S3 S4.
  split; [reflexivity|].
  split; [|split; [symmetry; exact S3|split; [exact H2|split; [rewrite Hn; exact Hact|split]]]].
  - unfold claimed_slot. rewrite <-S1, <-S2, <-S3, <-S4. repeat split; [exact Hcl|discriminate|discriminate|].
    right. exact (conj eq_refl H2).
  - rewrite <-Hsock. discriminate.
  - unfold adoptable. rewrite Hd, Hpar, Hn, Hsub. exists p, ps. injection Hps as P1 P2 P3.
    rewrite <-P2, <-P3. split; [exact Hp|]. split; [rewrite <-P1; reflexivity|]. split; [|reflexivity].
    apply eq_None_not_Some, (bool_decide_unpack _). vm_compute. exact I.
Qed.

Lemma adoption_restores_claim_witness :
  ∃ l s0 s cl act', byName (as_core (adoptRecord (mkAdoptState demoProc0 ∅ 0) (recordOf demoProc2 s cl)))
                 !! "slot1_1@h" = Some l ∧
    restored s cl l s0 (as_core (adoptRecord (mkAdoptState demoProc0 ∅ 0) (recordOf demoProc2 s cl))) ∧
    activations (as_core (adoptRecord (mkAdoptState demoProc0 ∅ 0) (recordOf demoProc2 s cl)))
      !! "slot1_1@h" = Some act' ∧
    Claim.claimID cl = dslotID.
Proof.
  destruct demoProc2_busy as (l & s & cl & act & Hl & Hcl & Hid & Hst & Hact & Hsock & Had).
  assert (ImportClaimSession (Claim.claimID cl) (Claim.scheddAddr cl) Claim.SurfaceCommands = true) as Himp
    by (rewrite Hid; vm_compute; reflexivity).
  destruct (adoption_restores_claim demoProc2 s cl demoProc0 ∅ 0 Hcl Himp Had)
    as (_ & (l' & s0 & Hb & Hr & _) & Hstarter).
  destruct (Hstarter act Hact Hst Hsock) as (act' & Ha & _).
  assert (Slot.Name s = "slot1_1@h") as Hn.
  { assert (Slot.Name ∘ snd <$> lookupName "slot1_1@h" demoProc2 = Some "slot1_1@h") as H
      by (vm_compute; reflexivity).
    rewrite Hl in H. cbn in H. injection H as H. exact H. }
  rewrite Hn in Hb, Ha. exists l', s0, s, cl, act'. exact (conj Hb (conj Hr (conj Ha Hid))).
Defined.
