(* ===== verification/Restart.v ===== *)
(** * Life after a restart

    The program re-adopts the records of its store before it serves a command
    ([core.Adopt] in cmd/startd/main.go, after [core.Start]).  The theorems on the
    claim lifecycle and on claim ids are extended here to runs that begin that way: a
    record that can be honoured puts its slot into a consistent situation and its claim
    id back into circulation, and from there on every run is as without a restart. *)

From S2P Require Import Prelude GoLang ClassAd Claim Slot SlotFacts Persist Persister StarterMsg Reconnect.
From S2P Require Import Registry Core CoreFrame CoreDemo CoreReg CoreInit Lifecycle ClaimIds CoreProps Adoption.

Import Core.

Local Open Scope Z_scope.
Local Open Scope ep_scope.

Section Adopt.
Context {CA : ClassAdLib} {SL : SecurityLib} {RS : Persist.RecordStore}.
Context (machine : string).
Implicit Types (c : Core) (s : Slot.Slot) (env : Env) (l : loc) (rec : Persist.Record_).

(** A record that carries a claim whose session can be imported, with the control socket
    of its starter when it was running a job. *)
Record honourable rec : Prop := {
  hr_id : Persist.ClaimID rec ≠ "";
  hr_session : ImportClaimSession (Persist.ClaimID rec) (Persist.ScheddAddr rec) Claim.SurfaceCommands = true;
  hr_socket : EqualFold (Persist.Activity rec) "Busy" = true → Persist.StarterSocket rec ≠ ""
}.

Definition claimedRecord rec : bool := EqualFold (Persist.State rec) "Claimed".

(** Nothing is known of [n], or a slot nobody has claimed that is not partitionable. *)
Definition vacant c (n : string) : Prop :=
  lifeOf c n = mkLife None false false false ∨ lifeOf c n = mkLife (Some (unclaimedLife false)) false false false.

(** The situation a record is adopted into. *)
Definition adoptedLife rec : Life :=
  if EqualFold (Persist.Activity rec) "Busy"
  then mkLife (Some busyLife) true true false else mkLife (Some idleLife) false true false.

Lemma adoptedLife_ok rec : life_ok (adoptedLife rec).
Proof. unfold adoptedLife. case_match; constructor. Qed.

(** No activation, no keepalive loop and no match timer for [n]. *)
Definition quiet_maps c (n : string) : Prop :=
  isS (activations c !! n) = false ∧ isS (aliveCancels c !! n) = false ∧ isS (matchCancels c !! n) = false.

Lemma vacant_quiet c n : vacant c n → quiet_maps c n.
Proof. unfold vacant, lifeOf, lifeWith, quiet_maps. intros [H|H]; by injection H. Qed.

Lemma vacant_part c n l s : vacant c n → lookupName n c = Some (l, s) → Slot.IsPartitionable s = false.
Proof. unfold vacant, lifeOf, lifeWith. intros H Hl. rewrite Hl in H. destruct H as [H|H]; [done|]. by injection H. Qed.

(** Putting the claim of a record on the slot of its name. *)
Lemma adoptSlot_life rec st l s :
  RegInv machine (regOf (as_core st)) → honourable rec →
  lookupName (Persist.SlotName rec) (as_core st) = Some (l, s) → Slot.IsPartitionable s = false →
  quiet_maps (as_core st) (Persist.SlotName rec) →
  let c' := as_core (adoptSlot rec st) in
  life_set (as_core st) c' (Persist.SlotName rec) (adoptedLife rec) ∧ minter c' = minter (as_core st).
Proof.
  intros HI [Hid Himp Hsock] Hl Hp (Ha & Hal & Ht). set (c := as_core st) in *.
  apply (lookupName_live machine) in Hl as H; [|done]. destruct H as (Hlive & Hs & Hn).
  destruct (live_byName machine c l s HI Hlive Hs) as [Hb Hinj].
  unfold adoptSlot. fold c. rewrite Hl, (bool_decide_false _ Hid), Himp. cbn [negb as_core].
  set (act := activityOf _). set (f := Slot.SetClaimState _ _ _ _). set (c1 := startAliveLoop l _).
  assert (heap (erase (updSlot l f c)) !! l = Some (quiet_slot (f s))) as Hf.
  { cbn. by rewrite lookup_fmap, lookup_alter_eq, Hs. }
  assert (erase c1 = set_cancels (matchCancels c) (<[Slot.Name s := nextCtx c]> (aliveCancels c)) (S (nextCtx c))
            (updSlot l f (erase c))) as E1.
  { unfold c1. rewrite (erase_startAliveLoop l _ _ (adoptClaim rec) Hf) by done.
    rewrite (erase_updSlot l f c) by (unfold f; apply _). reflexivity. }
  assert (life_set c c1 (Slot.Name s) (lifeWith (Some (slotLife (f (quiet_slot s)))) (Slot.Name s) (erase c1))) as L1.
  { apply life_set_erase. rewrite E1.
    apply (life_upd f (erase c) _ (Slot.Name s) l (quiet_slot s)); try done; [by rewrite heap_erase, Hs|solve_maps]. }
  assert (minter c1 = minter c) as M1 by (by apply (f_equal minter) in E1).
  assert (isS (activations c1 !! Slot.Name s) = false ∧ isS (aliveCancels c1 !! Slot.Name s) = true ∧
          isS (matchCancels c1 !! Slot.Name s) = false) as (A1 & A2 & A3).
  { change (activations c1) with (activations (erase c1)). change (aliveCancels c1) with (aliveCancels (erase c1)).
    change (matchCancels c1) with (matchCancels (erase c1)). rewrite E1. cbn. by rewrite lookup_insert_eq, Hn. }
  rewrite <-Hn. unfold adoptedLife.
  assert (slotLife (f (quiet_slot s)) = mkSlotLife "Claimed" act
            (Some (if EqualFold (Persist.Activity rec) "Busy" then Claim.ClaimedBusy else Claim.ClaimedIdle)) false) as Hsl.
  { unfold slotLife. change (Slot.IsPartitionable (f (quiet_slot s))) with (Slot.IsPartitionable s). by rewrite Hp. }
  rewrite Hsl in L1. unfold lifeWith in L1.
  change (activations (erase c1)) with (activations c1) in L1. change (aliveCancels (erase c1)) with (aliveCancels c1) in L1.
  change (matchCancels (erase c1)) with (matchCancels c1) in L1. rewrite A1, A2, A3 in L1.
  unfold act in L1. destruct (EqualFold (Persist.Activity rec) "Busy") eqn:Eb; [|done].
  rewrite (bool_decide_false _ (Hsock eq_refl)). cbn [andb negb]. split; [|done].
  eapply life_set_trans; [exact L1|].
  pose proof (L1 (Slot.Name s)) as Hat. rewrite bool_decide_true in Hat by done.
  eapply eq_rect; [apply (life_maps c1 (adoptStarter rec c1) (Slot.Name s)); [done|done|rewrite Hn; solve_maps]|].
  unfold lifeWith. rewrite Hat. cbn [lf_slot]. unfold adoptStarter. cbn. by rewrite A2, A3, Hn, lookup_insert_eq.
Qed.

(** Carving the dynamic slot of a record again: a slot appears under the record's name. *)
Lemma reconstruct_eq rec c p parent :
  lookupName (Persist.ParentSlotName rec) c = Some (p, parent) → lookupName (Persist.SlotName rec) c = None →
  Persist.SlotName rec = Slot.dynamicName (Slot.SlotID parent) (Persist.DSlotSubID rec) (Slot.Machine parent) →
  ∃ d q, let c' := set_dslotSeq q (addDSlot d (updSlot p (Slot.Carve (recordRes rec)) c)) in
    reconstructDSlot rec c = (true, c') ∧ lookupName (Persist.SlotName rec) c' = Some (nextLoc c, d) ∧
    Slot.Name d = Persist.SlotName rec ∧ Slot.IsPartitionable d = false ∧ Slot.claim d = None ∧
    Slot.SlotType d = Slot.SlotTypeDynamic ∧ Slot.ParentName d = Slot.Name parent ∧
    Slot.SubID d = Persist.DSlotSubID rec ∧ Slot.Res d = recordRes rec.
Proof.
  intros Hp Hno Hname. unfold reconstructDSlot. rewrite Hp, Hno. fold (recordRes rec). cbn zeta.
  set (d := Slot.NewDynamicSlot _ _ _ _). set (c1 := addDSlot d _).
  exists d, (Z.max (dslotSeq c1) (Persist.DSlotSubID rec)). fold c1. split_and!.
  - f_equal. destruct (Z.ltb_spec (dslotSeq c1) (Persist.DSlotSubID rec)).
    + by rewrite Z.max_r by lia.
    + rewrite Z.max_l by lia. by destruct c1.
  - apply lookupName_Some. unfold c1. cbn. by rewrite Hname, !lookup_insert_eq.
  - by rewrite Hname.
  - done.
  - done.
  - done.
  - done.
  - done.
  - done.
Qed.

Lemma reconstruct_life rec c p parent :
  RegInv machine (regOf c) → lookupName (Persist.ParentSlotName rec) c = Some (p, parent) →
  lookupName (Persist.SlotName rec) c = None → quiet_maps c (Persist.SlotName rec) →
  Persist.SlotName rec = Slot.dynamicName (Slot.SlotID parent) (Persist.DSlotSubID rec) (Slot.Machine parent) →
  ∃ c' d, reconstructDSlot rec c = (true, c') ∧
    lookupName (Persist.SlotName rec) c' = Some (nextLoc c, d) ∧ Slot.IsPartitionable d = false ∧
    quiet_maps c' (Persist.SlotName rec) ∧ minter c' = minter c ∧
    ∀ n, n ≠ Persist.SlotName rec → lifeOf c' n = lifeOf c n.
Proof.
  intros HI Hp Hno Hq Hname. destruct (reconstruct_eq rec c p parent Hp Hno Hname) as (d & q & Heq & Hl & Hd & Hpart & _).
  apply (lookupName_live machine) in Hp as (_ & Hps & _); [|done].
  eexists _, d. split; [exact Heq|]. split_and!; [done|done|done|done|].
  intros n Hn. unfold lifeOf, lifeWith, lookupName, deref.
  cbn [set_dslotSeq addDSlot set_registry set_heap updSlot byName heap activations aliveCancels matchCancels nextLoc].
  rewrite lookup_insert_ne by congruence. f_equal.
  destruct (byName c !! n) as [j|] eqn:Ej; [|done].
  assert (j ≠ nextLoc c) as Hj.
  { change (r_byName (regOf c) !! n = Some j) in Ej. apply (ri_byName _ _ HI) in Ej as [Hj _].
    pose proof (ri_alloc _ _ HI j Hj) as [Hlt _]. simpl in Hlt. lia. }
  rewrite lookup_insert_ne, lookup_alter by congruence. case_decide as Hjl; [|done]. subst j. by rewrite Hps.
Qed.

(** What one iteration of [doAdopt] may do: nothing is known differently except of the
    record's slot, which is as before or adopted. *)
Definition touches rec c c' : Prop :=
  (∃ r, life_set c c' (Persist.SlotName rec) r ∧
        (r = lifeOf c (Persist.SlotName rec) ∨ claimedRecord rec = true ∧ r = adoptedLife rec)) ∧
  minter c' = minter c.

Lemma touches_erase rec c c' : erase c' = erase c → touches rec c c'.
Proof.
  intros He. split; [|by apply (f_equal minter) in He]. exists (lifeOf c (Persist.SlotName rec)).
  split; [|by left]. intros k. rewrite (life_of_erase _ _ k He). case_bool_decide; [by subst|done].
Qed.

(** From the [byName] lookup on, in a state [c] may have become by then. *)
Lemma touches_adoptSlot rec c st l s :
  RegInv machine (regOf (as_core st)) → claimedRecord rec = true → honourable rec →
  lookupName (Persist.SlotName rec) (as_core st) = Some (l, s) → Slot.IsPartitionable s = false →
  quiet_maps (as_core st) (Persist.SlotName rec) → minter (as_core st) = minter c →
  (∀ k, k ≠ Persist.SlotName rec → lifeOf (as_core st) k = lifeOf c k) →
  touches rec c (as_core (adoptSlot rec st)).
Proof.
  intros HI Hc Hh Hl Hp Hq Hm Hne. destruct (adoptSlot_life rec st l s HI Hh Hl Hp Hq) as [H1 H2].
  split; [|by rewrite H2]. exists (adoptedLife rec). split; [|by right].
  intros k. rewrite H1. case_bool_decide; [done|]. by apply Hne.
Qed.

Lemma adoptSlot_drops rec st :
  lookupName (Persist.SlotName rec) (as_core st) = None → touches rec (as_core st) (as_core (adoptSlot rec st)).
Proof. intros Hl. unfold adoptSlot. rewrite Hl. apply touches_erase, erase_storeDelete. Qed.

Lemma adoptRecord_life rec st :
  RegInv machine (regOf (as_core st)) → record_fits (as_core st) rec →
  (claimedRecord rec = true → honourable rec ∧ vacant (as_core st) (Persist.SlotName rec)) →
  touches rec (as_core st) (as_core (adoptRecord st rec)).
Proof.
  intros HI Hfit Hrec. unfold adoptRecord. set (c := as_core st) in *. set (n := Persist.SlotName rec) in *.
  destruct (EqualFold (Persist.State rec) "Claimed") eqn:Es; cbn [negb]; [|by apply touches_erase].
  destruct (Hrec Es) as [Hh Hv].
  assert (∀ st' l s, as_core st' = c → lookupName n c = Some (l, s) → touches rec c (as_core (adoptSlot rec st'))) as Hput.
  { intros st' l s Hc Hl. apply (touches_adoptSlot rec c st' l s); rewrite ?Hc; try done;
      [by eapply vacant_part|by apply vacant_quiet]. }
  destruct (EqualFold (Persist.SlotType rec) Slot.SlotTypeDynamic) eqn:Ed.
  2: { destruct (lookupName n c) as [[l s]|] eqn:El; [by eapply Hput|by apply adoptSlot_drops]. }
  destruct (lookupName (Persist.ParentSlotName rec) c) as [[p parent]|] eqn:Ep.
  2: { assert (reconstructDSlot rec c = (false, c)) as -> by (unfold reconstructDSlot; by rewrite Ep).
       apply touches_erase, erase_storeDelete. }
  destruct (lookupName n c) as [[l s]|] eqn:El.
  { assert (reconstructDSlot rec c = (true, c)) as -> by (unfold reconstructDSlot; fold n; by rewrite Ep, El).
    rewrite Ep. by eapply Hput. }
  destruct (Hfit Es Ed p parent Ep El) as (_ & Hname & _).
  pose proof (reconstruct_sim machine rec c HI Hfit Es Ed) as Hsim.
  destruct (reconstruct_life rec c p parent HI Ep El (vacant_quiet _ _ Hv) Hname)
    as (c1 & d & Hr & Hl & Hpart & Hq & Hm & Hne).
  rewrite Hr in Hsim |- *. cbn [snd] in Hsim.
  apply (touches_adoptSlot rec c (mkAdoptState c1 _ _) (nextLoc c) d); try done. by eapply reg_step_inv.
Qed.

(** ** The whole store *)

(** Every claimed record can be honoured, no two are for the same slot, and none is for a
    partitionable slot. *)
Definition honours c (recs : list Persist.Record_) : Prop :=
  NoDup (Persist.SlotName <$> recs) ∧
  ∀ rec, rec ∈ recs → claimedRecord rec = true → honourable rec ∧ vacant c (Persist.SlotName rec).

Definition adopted c c' (recs : list Persist.Record_) : Prop :=
  ∀ n, lifeOf c' n = lifeOf c n ∨
       ∃ rec, rec ∈ recs ∧ claimedRecord rec = true ∧ Persist.SlotName rec = n ∧ lifeOf c' n = adoptedLife rec.

Lemma adopt_fold_life recs st :
  RegInv machine (regOf (as_core st)) → records_fit st recs → honours (as_core st) recs →
  let c' := as_core (foldl adoptRecord st recs) in adopted (as_core st) c' recs ∧ minter c' = minter (as_core st).
Proof.
  revert st. induction recs as [|rec recs IH]; intros st HI Hf [Hnd Hh]; [split; [by left|done]|]. cbn [foldl].
  destruct Hf as [Hfit Hf]. cbn in Hnd. apply NoDup_cons in Hnd as [Hni Hnd].
  destruct (adoptRecord_life rec st HI Hfit (Hh rec (list_elem_of_here _ _))) as [(r & Hset & Hr) Hm].
  destruct (IH (adoptRecord st rec)) as [H1 H2]; [|done| |].
  - eapply reg_step_inv; [exact HI|]. by apply (adoptRecord_sim machine).
  - split; [done|]. intros rec' Hin Hc. destruct (Hh rec' (list_elem_of_further _ _ _ Hin) Hc) as [? Hv].
    split; [done|]. unfold vacant. rewrite Hset, bool_decide_false; [done|].
    intros He. apply Hni. rewrite <-He. by apply list_elem_of_fmap_2.
  - split; [|by rewrite H2]. intros n. destruct (H1 n) as [Hn|(rec' & Hin & Hrest)].
    + rewrite Hn, Hset. case_bool_decide as He; [|by left]. subst n.
      destruct Hr as [->|[Hc ->]]; [by left|]. right. exists rec. split; [apply list_elem_of_here|]. by rewrite Hset, bool_decide_true.
    + right. exists rec'. split; [by apply list_elem_of_further|done].
Qed.

Lemma doAdopt_erase env c p :
  pers c = Some p → erase (doAdopt env c) = erase (as_core (foldl adoptRecord (mkAdoptState c ∅ 0) (Persist.rs_list (store p)))).
Proof.
  intros Hp. unfold doAdopt. rewrite Hp. set (st := foldl _ _ _).
  assert (∀ xs : list (string * loc), erase (foldl (λ c nl, refreshPSlotChildren nl.2 c) (as_core st) xs) = erase (as_core st)) as Hx
    by (intros xs; apply erase_foldl; intros; apply erase_refresh).
  case_match; by rewrite ?erase_reAdvertise, Hx.
Qed.

(** The records of the store, as the loop reads them. *)
Definition records c : list Persist.Record_ := match pers c with Some p => Persist.rs_list (store p) | None => [] end.

Lemma doAdopt_life env d c :
  RegInv machine (regOf c) → event_ok (EvAdopt d) c → honours c (records c) →
  let c' := handle env (EvAdopt d) c in adopted c c' (records c) ∧ minter c' = minter c.
Proof.
  intros HI [_ Hok] Hh. unfold records in *. cbn [handle]. destruct (pers c) as [p|] eqn:Ep.
  - destruct (adopt_fold_life (Persist.rs_list (store p)) (mkAdoptState c ∅ 0) HI Hok Hh) as [H1 H2].
    pose proof (doAdopt_erase env c p Ep) as He. split.
    + intros n. change (lifeOf (emit (EAdoptDone d) (doAdopt env c)) n) with (lifeOf (doAdopt env c) n).
      rewrite (life_of_erase _ _ n He). apply H1.
    + cbn [as_core] in H2. change (minter (doAdopt env c) = minter c). rewrite <-H2. by apply (f_equal minter) in He.
  - unfold doAdopt. rewrite Ep. split; [by left|done].
Qed.

(** Adopting moves an unclaimed slot, or a name no slot had, to Claimed. *)
Lemma adopt_moves env d c :
  RegInv machine (regOf c) → LifeInv c → event_ok (EvAdopt d) c → honours c (records c) →
  life_move (EvAdopt d) c (handle env (EvAdopt d) c).
Proof.
  intros HI [Hm Hall] Hok Hh. destruct (doAdopt_life env d c HI Hok Hh) as [Had Hm']. split; [split|].
  - by rewrite Hm'.
  - intros n. destruct (Had n) as [->|(rec & _ & _ & _ & ->)]; [done|apply adoptedLife_ok].
  - intros n. unfold absOf. destruct (Had n) as [->|(rec & Hin & Hc & <- & ->)]; [by left|]. right.
    destruct Hh as [_ Hh]. destruct (Hh rec Hin Hc) as [_ [-> | ->]]; unfold adoptedLife; by case_match.
Qed.
End Adopt.

(** ** Claim ids *)

Section AdoptIds.
Context {CA : ClassAdLib} {SL : SecurityLib} {RS : Persist.RecordStore}.
Implicit Types (c : Core) (s : Slot.Slot) (env : Env) (l : loc) (rec : Persist.Record_).

(** An id that comes from outside the minter: a slot, perhaps a new one, gets it. *)
Inductive id_adopt (i : Ids) (y : string) : Ids → Prop :=
| ia_stay : id_adopt i y i
| ia_put l ds :
    (∀ j, j ∈ ds → j ∈ i_dslots i ∨ j = l) →
    id_adopt i y (mkIds (<[l := Some y]> (i_heap i)) (i_slots i) ds (i_minter i)).

Lemma id_adopt_inv i y i' :
  id_adopt i y i' → retired i y → (IdInv i → IdInv i') ∧ (∀ x, x ≠ y → retired i x → retired i' x).
Proof.
  intros Ha [Hno Hpast]. destruct Ha as [|l ds Hds]; [done|]. set (i' := mkIds _ _ _ _).
  assert (∀ k x, holds i' k x → (k = l ∧ x = y) ∨ (k ≠ l ∧ holds i k x)) as Hin.
  { intros k x. apply holds_insert; [done|]. intros j. unfold i_live. cbn. rewrite !elem_of_app.
    intros [?|?]; [by left; left|]. destruct (Hds j) as [?|?]; auto. }
  split.
  - intros [Hu Hp]. split.
    + intros k j x Hk Hj.
      destruct (Hin k x Hk) as [[-> ->]|[Hk1 Hk2]], (Hin j _ Hj) as [[-> Hx]|[Hj1 Hj2]]; subst; try done;
        [by edestruct Hno|by edestruct Hno|by eapply Hu].
    + intros k x Hk. destruct (Hin k x Hk) as [[-> ->]|[_ Hk2]]; [done|by apply (Hp k)].
  - intros x Hx [Hno' Hp']. split; [|done]. intros k Hk.
    destruct (Hin k x Hk) as [[_ ?]|[_ Hk2]]; [done|by eapply Hno'].
Qed.

Lemma adoptSlot_ids rec st l s :
  honourable rec → lookupName (Persist.SlotName rec) (as_core st) = Some (l, s) →
  let i := idsOf (as_core st) in
  idsOf (as_core (adoptSlot rec st))
  = mkIds (<[l := Some (Persist.ClaimID rec)]> (i_heap i)) (i_slots i) (i_dslots i) (i_minter i).
Proof.
  intros [Hid Himp _] Hl. unfold adoptSlot. rewrite Hl, (bool_decide_false _ Hid), Himp. cbn [negb as_core].
  apply lookupName_Some in Hl as [_ Hs]. set (f := Slot.SetClaimState _ _ _ _). set (c1 := startAliveLoop l _).
  assert (∀ b : bool, idsOf (if b then adoptStarter rec c1 else c1) = idsOf c1) as -> by (by intros []).
  unfold c1. rewrite idsOf_startAliveLoop. unfold idsOf. cbn. f_equal. apply map_eq. intros k.
  rewrite lookup_insert, !lookup_fmap, lookup_alter. case_decide; [|done]. subst k. by rewrite Hs.
Qed.

Lemma reconstruct_ids rec c p parent d q :
  lookupName (Persist.ParentSlotName rec) c = Some (p, parent) → Slot.claim d = None →
  idsOf (set_dslotSeq q (addDSlot d (updSlot p (Slot.Carve (recordRes rec)) c)))
  = mkIds (<[nextLoc c := None]> (i_heap (idsOf c))) (slots c) (dslots c ++ [nextLoc c]) (minter c).
Proof.
  intros [_ Hp]%lookupName_Some Hd. unfold idsOf. cbn. f_equal. rewrite fmap_insert. unfold cidOf at 1. rewrite Hd.
  f_equal. apply map_eq. intros k. rewrite !lookup_fmap, lookup_alter. case_decide; [|done]. subst k. by rewrite Hp.
Qed.

Lemma adoptRecord_ids rec st :
  record_fits (as_core st) rec → (claimedRecord rec = true → honourable rec) →
  if claimedRecord rec then id_adopt (idsOf (as_core st)) (Persist.ClaimID rec) (idsOf (as_core (adoptRecord st rec)))
  else idsOf (as_core (adoptRecord st rec)) = idsOf (as_core st).
Proof.
  intros Hfit Hh. unfold adoptRecord. unfold claimedRecord in *. set (c := as_core st) in *.
  destruct (EqualFold (Persist.State rec) "Claimed") eqn:Es; cbn [negb]; [|done]. specialize (Hh eq_refl).
  assert (∀ c', erase c' = erase c → id_adopt (idsOf c) (Persist.ClaimID rec) (idsOf c')) as Hstay
    by (intros c' He; rewrite (idsOf_of_erase _ _ He); constructor).
  assert (∀ st', as_core st' = c → id_adopt (idsOf c) (Persist.ClaimID rec) (idsOf (as_core (adoptSlot rec st')))) as Hput.
  { intros st' Hc. destruct (lookupName (Persist.SlotName rec) (as_core st')) as [[l s]|] eqn:El.
    - rewrite (adoptSlot_ids rec st' l s Hh El), Hc. apply ia_put. by left.
    - unfold adoptSlot. rewrite El, Hc. apply Hstay, erase_storeDelete. }
  destruct (EqualFold (Persist.SlotType rec) Slot.SlotTypeDynamic) eqn:Ed; [|by apply Hput].
  destruct (lookupName (Persist.ParentSlotName rec) c) as [[p parent]|] eqn:Ep.
  2: { assert (reconstructDSlot rec c = (false, c)) as -> by (unfold reconstructDSlot; by rewrite Ep).
       apply Hstay, erase_storeDelete. }
  destruct (lookupName (Persist.SlotName rec) c) as [[l s]|] eqn:El.
  { assert (reconstructDSlot rec c = (true, c)) as -> by (unfold reconstructDSlot; by rewrite Ep, El). by apply Hput. }
  destruct (Hfit Es Ed p parent Ep El) as (_ & Hname & _).
  destruct (reconstruct_eq rec c p parent Ep El Hname) as (d & q & -> & Hl & _ & _ & Hd & _).
  rewrite (adoptSlot_ids rec (mkAdoptState _ _ _) _ d Hh Hl). cbn [as_core]. rewrite (reconstruct_ids rec c p parent d q Ep Hd). cbn.
  rewrite insert_insert_eq. apply ia_put. intros j. rewrite elem_of_app, list_elem_of_singleton. done.
Qed.

(** The ids of the claimed records are distinct, and none names a slot or will be minted:
    they were minted by an earlier run of the startd. *)
Definition foreign (i : Ids) (recs : list Persist.Record_) : Prop :=
  NoDup (Persist.ClaimID <$> filter (λ rec, claimedRecord rec = true) recs) ∧
  ∀ rec, rec ∈ recs → claimedRecord rec = true → retired i (Persist.ClaimID rec).

Lemma adopt_fold_ids recs st :
  records_fit st recs → (∀ rec, rec ∈ recs → claimedRecord rec = true → honourable rec) →
  foreign (idsOf (as_core st)) recs → IdInv (idsOf (as_core st)) →
  IdInv (idsOf (as_core (foldl adoptRecord st recs))).
Proof.
  revert st. induction recs as [|rec recs IH]; intros st Hf Hh [Hnd Hr] HI; [done|]. cbn [foldl].
  destruct Hf as [Hfit Hf].
  pose proof (adoptRecord_ids rec st Hfit (Hh rec (list_elem_of_here _ _))) as Ha.
  pose proof (Hr rec (list_elem_of_here _ _)) as Hret.
  assert (∀ rec', rec' ∈ recs → rec' ∈ rec :: recs) as Hfur by (intros; by apply list_elem_of_further).
  rewrite filter_cons in Hnd. apply IH; [done|by auto| |].
  - destruct (claimedRecord rec) eqn:Ec.
    + rewrite decide_True in Hnd by done. cbn in Hnd. apply NoDup_cons in Hnd as [Hni Hnd]. split; [done|].
      intros rec' Hin Hc. apply (id_adopt_inv _ _ _ Ha (Hret eq_refl)); [|by auto].
      intros He. apply Hni. rewrite <-He. apply list_elem_of_fmap_2. apply list_elem_of_filter. done.
    + rewrite decide_False in Hnd by done. rewrite Ha. split; [done|by auto].
  - destruct (claimedRecord rec); [|by rewrite Ha]. by apply (id_adopt_inv _ _ _ Ha (Hret eq_refl)).
Qed.
End AdoptIds.

(** ** Runs that may begin with a re-adoption *)

Section Start.
Context {CA : ClassAdLib} {SL : SecurityLib} {RS : Persist.RecordStore}.
Implicit Types (c : Core) (s : Slot.Slot) (env : Env) (l : loc) (ev : Event).

(** The store can be adopted: one record per slot, none of a claim on a partitionable slot,
    the claimed ones honourable and with ids of an earlier run. *)
Record adopts c : Prop := {
  ad_names : NoDup (Persist.SlotName <$> records c);
  ad_records rec : rec ∈ records c → claimedRecord rec = true →
    honourable rec ∧ ∀ l s, lookupName (Persist.SlotName rec) c = Some (l, s) → Slot.IsPartitionable s = false;
  ad_ids : foreign (idsOf c) (records c)
}.

(** Whether [ev] may come: the re-adoption only before any other event. *)
Definition admits (begun : bool) ev c : Prop :=
  no_adopt ev = true ∨ begun = false ∧ (∃ d, ev = EvAdopt d) ∧ adopts c.

Inductive serving (c0 : Core) : bool → Core → Prop :=
| sv_start : serving c0 false c0
| sv_quiet begun c c' : serving c0 begun c → cstep None c c' → serving c0 begun c'
| sv_event begun env ev c :
    serving c0 begun c → event_ok ev c → admits begun ev c → serving c0 true (handle env ev c).

Lemma serving_reachable c0 begun c : serving c0 begun c → reachable any_event c0 c.
Proof.
  induction 1 as [|begun c c' _ IH Hs|begun env ev c _ IH Hok _]; [constructor|by eapply reach_step|].
  by eapply reach_step; [exact IH|apply step_event|].
Qed.

Lemma serving_run c0 c c' : reachable no_adopt c c' → ∀ begun, serving c0 begun c → ∃ begun', serving c0 begun' c'.
Proof.
  induction 1 as [|o c1 c2 _ IH Hs Ha]; intros begun Hc; [by eexists|].
  destruct (IH begun Hc) as [b Hb]. destruct o as [ev|]; [|eexists; by eapply sv_quiet].
  inversion Hs; subst. eexists. eapply sv_event; [exact Hb|done|]. left. by apply Ha.
Qed.

(** Between events nothing happens to the life of a slot or to an id. *)
Lemma quiet_life c c' : cstep None c c' → (∀ n, lifeOf c' n = lifeOf c n) ∧ idsOf c' = idsOf c.
Proof.
  inversion 1; subst.
  - unfold tick. case_match; [|done]. split; [intros n; apply life_of_erase, erase_Advertise|].
    apply idsOf_of_erase, erase_Advertise.
  - done.
  - split; [|done]. intros k. apply life_act_insert. by eexists.
Qed.

Context {SLL : SecurityLaws SL}.
Hypothesis mint_total : ∀ sinful bday n cmds, is_Some (MintClaimSession sinful bday n cmds).
Context (h : Host) (cf : Config) (hostname sinful : string) (total : Slot.Resources) (t0 : Time).
Context (opts : CoreConfig) (m : Claim.Minter) (st : option Persist.rstore).
Hypothesis total_ok : res_ok total.
Hypothesis total_cpus : 1 ≤ Slot.Cpus total.

Local Abbreviation start := (startup h cf hostname sinful total t0 opts (Some m) st).

Definition all_unclaimed c : Prop :=
  ∀ n, lifeOf c n = mkLife None false false false ∨
       ∃ part, lifeOf c n = mkLife (Some (unclaimedLife part)) false false false.

Lemma serving_reg begun c : serving start begun c → RegInv hostname (regOf c).
Proof.
  intros Hr. pose proof (startup_inv h cf hostname sinful total t0 opts (Some m) st total_ok total_cpus) as HI0.
  by destruct (reachable_reg hostname any_event start c HI0 (serving_reachable _ _ _ Hr)) as (_ & ? & _).
Qed.

Lemma all_unclaimed_vacant c n :
  all_unclaimed c → (∀ l s, lookupName n c = Some (l, s) → Slot.IsPartitionable s = false) → vacant c n.
Proof.
  intros Hu Hp. unfold vacant. destruct (Hu n) as [Hl|[part Hl]]; [by left|right]. rewrite Hl.
  unfold lifeOf, lifeWith in Hl. destruct (lookupName n c) as [[l s]|] eqn:E; [|done].
  injection Hl as _ _ _ Hs _ _ _.
  by rewrite <-Hs, (Hp l s eq_refl).
Qed.

Lemma serving_event_life env ev begun c :
  RegInv hostname (regOf c) → LifeInv c → (begun = false → all_unclaimed c) → event_ok ev c → admits begun ev c →
  life_move ev c (handle env ev c).
Proof.
  intros HI HL Hu Hok [Hna|(Hb & [d ->] & [Hnd Hrec _])]; [by apply (handle_life hostname mint_total)|].
  apply (adopt_moves hostname); try done. split; [done|]. intros rec Hin Hc.
  destruct (Hrec rec Hin Hc) as [Hh Hp]. split; [done|]. by apply all_unclaimed_vacant; [apply Hu|].
Qed.

Lemma serving_life begun c : serving start begun c → LifeInv c ∧ (begun = false → all_unclaimed c).
Proof.
  intros Hs. induction Hs as [|begun c c' Hs [IH1 IH2] Hq|begun env ev c Hs [IH1 IH2] Hok Ha].
  - destruct (New_unclaimed mint_total opts _ m st (BuildSlots_fresh h cf hostname sinful total t0)) as [H1 H2].
    split; [|done]. by apply New_life, BuildSlots_fresh.
  - destruct (quiet_life c c' Hq) as [Hl Hi]. split.
    + destruct IH1 as [Hm Hall]. split; [|intros n; by rewrite Hl].
      change (is_Some (i_minter (idsOf c'))). by rewrite Hi.
    + intros Hb n. rewrite Hl. by apply IH2.
  - split; [|done]. by apply (serving_event_life env ev begun c (serving_reg _ _ Hs) IH1 IH2 Hok Ha).
Qed.

Lemma serving_ids begun c :
  minter_room h cf hostname sinful total t0 m → serving start begun c → IdInv (idsOf c).
Proof.
  intros Hroom Hs. induction Hs as [|begun c c' Hs IH Hq|begun env ev c Hs IH Hok Ha].
  - by apply startup_ids.
  - by rewrite (proj2 (quiet_life c c' Hq)).
  - destruct Ha as [Hna|(_ & [d ->] & [_ Hrec Hf])].
    + by apply (id_step_inv _ _ (handle_ids env ev c Hok Hna)).
    + destruct Hok as [_ Hfit]. cbn [handle]. change (IdInv (idsOf (doAdopt env c))).
      unfold records in *. destruct (pers c) as [p|] eqn:Ep; [|unfold doAdopt; by rewrite Ep].
      rewrite (idsOf_of_erase _ _ (doAdopt_erase env c p Ep)).
      apply (adopt_fold_ids _ (mkAdoptState c ∅ 0)); try done. intros rec Hin Hc. by apply Hrec.
Qed.



(** C25: a claim id names at most one slot.  In every state of a run, re-adopted claims
    included, two live slots never hold the same claim id, so the lookup every command
    starts with does not depend on the order of the slots. *)
Theorem claim_ids_unique begun c l k s t cl cl' :
  minter_room h cf hostname sinful total t0 m → serving start begun c →
  l ∈ LiveSlots c → k ∈ LiveSlots c → heap c !! l = Some s → heap c !! k = Some t →
  Slot.claim s = Some cl → Slot.claim t = Some cl' → Claim.claimID cl = Claim.claimID cl' → l = k.
Proof.
  intros H Hr Hl Hk Hs Ht Hcl Hcl' Heq.
  apply (proj1 (serving_ids begun c H Hr) l k (Claim.claimID cl)); apply holds_idsOf; eauto 10.
Qed.

(** Claim ids are not recycled.  Once an id that named a slot stops naming one (a release, a
    match timeout, a destroyed dynamic slot), it names no slot in any later state,
    whatever happens in between. *)
Lemma claim_ids_not_recycled x begun c c1 c2 :
  minter_room h cf hostname sinful total t0 m → serving start begun c → is_Some (findSlotByClaimID x c) →
  reachable no_adopt c c1 → findSlotByClaimID x c1 = None →
  reachable no_adopt c1 c2 → findSlotByClaimID x c2 = None.
Proof.
  intros H Hr [[l s] Hx] H1 Hno H2. apply find_holds.
  apply (reachable_ids _ _ H2). split; [by apply find_holds|].
  apply (reachable_ids _ _ H1), (proj2 (serving_ids begun c H Hr) l), holds_idsOf.
  apply findSlotByClaimID_Some in Hx as (Hl & Hs & cl & Hcl & Hid). eauto 10.
Qed.

End Start.

(** ** Witnesses: the startd restarts while a job runs on a dynamic slot *)

Import RefClassAd RefSecurity.

(** The record of the running slot, in the store of the next run. *)
Definition busyRecord : option Persist.Record_ :=
  lookupName "slot1_1@h" demoProc2 ≫= λ ls, recordOf demoProc2 ls.2 <$> Slot.claim ls.2.

Definition restartStore : Persist.rstore :=
  default demoRStore (busyRecord ≫= λ r, Persist.rs_put r demoRStore).

Definition restartMinter : Claim.Minter := Claim.NewMinter "<h:1>" 8.

Definition restart0 : Core :=
  startup demoHost demoConfig "h" "<h:1>" demoTotal 0 demoProcOpts (Some restartMinter) (Some restartStore).

Definition restart1 : Core := handle demoEnv (EvAdopt 9%nat) restart0.

Definition recordKey (r : Persist.Record_) :=
  ((Persist.State r, Persist.SlotType r, Persist.SlotName r, Persist.ParentSlotName r),
   (Persist.ClaimID r, Persist.ScheddAddr r, Persist.Activity r, Persist.StarterSocket r), (Persist.DSlotSubID r, recordRes r)).

Definition busyKey :=
  (("Claimed", "Dynamic", "slot1_1@h", "slot1@h"), (dslotID, "<s:1>", "Busy", "/sockets/<h:1>#7#2#...|1.sock"),
   (1, Slot.mkRes 2 1000 10)).

(** A core that starts with that record in its store, next to records of slots nobody had
    claimed. *)
Record resumable (c : Core) : Prop := {
  rs_records : ∃ r rest, records c = r :: rest ∧ recordKey r = busyKey ∧
    Forall (λ r', claimedRecord r' = false) rest ∧ NoDup (Persist.SlotName <$> records c);
  rs_vacant : lookupName "slot1_1@h" c = None;
  rs_parent : (λ ls, ((Slot.IsPartitionable ls.2, Slot.CanCarve (Slot.mkRes 2 1000 10) ls.2),
                      (Slot.SlotID ls.2, Slot.Machine ls.2))) <$> lookupName "slot1@h" c = Some ((true, true), (1, "h"));
  rs_unheld : findSlotByClaimID dslotID c = None;
  rs_unminted mm n : minter c = Some mm → ¬ mints mm n dslotID;
  rs_counters : counters_ok c
}.

Lemma resumable_keys c ks :
  recordKey <$> records c = busyKey :: ks →
  forallb (λ k, negb (EqualFold k.1.1.1.1.1 "Claimed")) ks = true → NoDup ((λ k, k.1.1.1.2) <$> busyKey :: ks) →
  ∃ r rest, records c = r :: rest ∧ recordKey r = busyKey ∧ Forall (λ r', claimedRecord r' = false) rest ∧
    NoDup (Persist.SlotName <$> records c).
Proof.
  intros Hk Hf Hnd. rewrite <-Hk, <-list_fmap_compose in Hnd. destruct (records c) as [|r rest]; [done|].
  rewrite fmap_cons in Hk. assert (recordKey r = busyKey) as H1 by exact (f_equal (λ l, default busyKey (head l)) Hk).
  assert (recordKey <$> rest = ks) as H2 by exact (f_equal tail Hk).
  exists r, rest. split_and!; [done|done| |done]. rewrite <-H2, forallb_forall in Hf. apply Forall_forall. intros r' Hr'.
  apply negb_true_iff, (Hf (recordKey r')), list_elem_of_In, list_elem_of_fmap_2, Hr'.
Qed.

Lemma resumable_fits c r : resumable c → recordKey r = busyKey → record_fits c r.
Proof.
  intros [_ _ H _ _ _] Hr _ _ p parent Hp _. unfold recordKey, busyKey in Hr.
  injection Hr as H1 H2 H3 H4 H5 H6 H7 H8 H9 H10 H11 H12. rewrite H4 in Hp. rewrite H3, H9.
  rewrite Hp in H. cbn in H. injection H as -> Hc Hi Hm. unfold recordRes.
  rewrite H10, H11, H12. rewrite Hi, Hm. split; [done|]. split; [reflexivity|]. split; [unfold res_nonneg; cbn; lia|done].
Qed.

Lemma unclaimed_fit recs st : Forall (λ r, claimedRecord r = false) recs → records_fit st recs.
Proof.
  revert st. induction recs as [|r recs IH]; intros st Hf; [done|]. apply Forall_cons in Hf as [Hr Hf]. split; [|by apply IH].
  intros Hc. unfold claimedRecord in Hr. by rewrite Hr in Hc.
Qed.

Lemma resumable_ok d c : resumable c → event_ok (EvAdopt d) c.
Proof.
  intros Hc. split; [apply Hc|]. destruct (rs_records c Hc) as (r & rest & Hr & Hk & Hf & _). unfold records in Hr.
  destruct (pers c) as [p|] eqn:Ep; [|done]. rewrite Hr. split; [by apply resumable_fits|by apply unclaimed_fit].
Qed.

Lemma resumable_adopts c : resumable c → adopts c.
Proof.
  intros Hc. destruct (rs_records c Hc) as (r & rest & Hr & Hk & Hf & Hnd). unfold recordKey, busyKey in Hk.
  injection Hk as H1 H2 H3 H4 H5 H6 H7 H8 H9 H10 H11 H12. destruct Hc as [_ Hv _ Hu Hm _]. rewrite Forall_forall in Hf.
  assert (∀ r', r' ∈ r :: rest → claimedRecord r' = true → r' = r) as Hone.
  { intros r' [->|Hin]%elem_of_cons Hc'; [done|]. by rewrite (Hf r' Hin) in Hc'. }
  split; [done|rewrite Hr..].
  - intros r' Hin Hc'. rewrite (Hone r' Hin Hc'), H3. split.
    + split; rewrite ?H5, ?H6, ?H8; [done|reflexivity|done].
    + intros l s Hl. by rewrite Hv in Hl.
  - split.
    + rewrite filter_cons. replace (filter _ rest) with (@nil Persist.Record_); [case_decide; [apply NoDup_singleton|apply NoDup_nil_2]|].
      symmetry. apply elem_of_nil_inv. intros x [Hx Hin]%list_elem_of_filter. by rewrite (Hf x Hin) in Hx.
    + intros r' Hin Hc'. rewrite (Hone r' Hin Hc'), H5. split; [by apply find_holds|].
      intros mm n Hmm _. by apply Hm.
Qed.

(** By evaluation: [c] has the records [busyKey :: ks] and mints under [addr] and [bday]. *)
Ltac resume c ks addr bday :=
  split;
  [ apply (resumable_keys _ ks); [vm_compute; reflexivity|reflexivity|by apply (bool_decide_unpack _)]
  | apply eq_None_not_Some, (bool_decide_unpack _); vm_compute; exact I
  | vm_compute; reflexivity
  | apply eq_None_not_Some, (bool_decide_unpack _); vm_compute; exact I
  | let mm := fresh "mm" in let Hm := fresh "Hm" in let Ha := fresh "Ha" in let Hx := fresh "Hx" in let H := fresh "H" in
    let Hs := fresh "Hs" in let Hb := fresh "Hb" in
    intros mm ? Hm (? & Ha & Hx);
    assert ((λ mm, (Claim.m_sinful mm, Claim.m_birthdate mm)) <$> minter c = Some (addr, bday)) as H
      by (vm_compute; reflexivity);
    rewrite Hm in H; cbn in H; injection H as Hs Hb; rewrite Hs, Hb in Ha; injection Ha as <-; discriminate Hx
  | split; [vm_compute; by split|vm_compute; by split] ].

(** The claim id was minted under another birthdate. *)
Lemma restart0_resumable : resumable restart0.
Proof. resume restart0 (tail [busyKey]) "<h:1>" 8. Qed.

Lemma restart_ok : event_ok (EvAdopt 9%nat) restart0.
Proof. apply resumable_ok, restart0_resumable. Qed.

Lemma restart_adopts : adopts restart0.
Proof. apply resumable_adopts, restart0_resumable. Qed.

Lemma restart1_serving : serving restart0 true restart1.
Proof.
  eapply sv_event; [apply sv_start|apply restart_ok|]. right. split; [done|]. split; [by eexists|apply restart_adopts].
Qed.

Lemma restart_room : minter_room demoHost demoConfig "h" "<h:1>" demoTotal 0 restartMinter.
Proof. split; [done|]. by vm_compute. Qed.



Lemma restart1_dslot :
  ∃ t cl, 1%nat ∈ LiveSlots restart1 ∧ heap restart1 !! 1%nat = Some t ∧ Slot.claim t = Some cl ∧ Claim.claimID cl = dslotID.
Proof.
  assert ((heap restart1 !! 1%nat ≫= λ t, Claim.claimID <$> Slot.claim t) = Some dslotID) as H
    by (vm_compute; reflexivity).
  assert (LiveSlots restart1 = [0; 1]%nat) as Hl by (vm_compute; reflexivity).
  apply bind_Some in H as (t & Ht & H). apply fmap_Some in H as (cl & Hcl & Hid). exists t, cl.
  split; [rewrite Hl; right; left|exact (conj Ht (conj Hcl (eq_sym Hid)))].
Qed.

Lemma claim_ids_unique_witness :
  1%nat ∈ LiveSlots restart1 ∧
  ∀ l s cl, l ∈ LiveSlots restart1 → heap restart1 !! l = Some s → Slot.claim s = Some cl →
  Claim.claimID cl = dslotID → l = 1%nat.
Proof.
  destruct restart1_dslot as (t & cl' & Hk & Ht & Hcl' & Hid'). split; [exact Hk|].
  intros l s cl Hl Hs Hcl Hid.
  apply (claim_ids_unique demoHost demoConfig "h" "<h:1>" demoTotal 0 demoProcOpts restartMinter (Some restartStore)
           true restart1 l 1%nat s t cl cl' restart_room restart1_serving Hl Hk Hs Ht Hcl Hcl').
  exact (eq_trans Hid (eq_sym Hid')).
Defined.

Lemma restart1_release_ok : event_ok (EvReleaseClaim dslotID) restart1.
Proof. split; [|done]. split; [vm_compute; by split|]. vm_compute. by split. Qed.

Lemma restart1_find : is_Some (findSlotByClaimID dslotID restart1).
Proof. apply (bool_decide_unpack _). vm_compute. exact I. Qed.


(** ** What becomes of a record that cannot be honoured *)

Definition oddRecord (id socket : string) : Persist.Record_ :=
  Persist.mkRecord "slot1_1@h" id "" "Claimed" "Busy" "Dynamic" "slot1@h" 1 2 1000 10 "<s:1>" "" "" "" 300 1805 5
    "" "" 0 socket "" "".

Definition oddRestart (r : Persist.Record_) : Core :=
  handle demoEnv (EvAdopt 9%nat)
    (startup demoHost demoConfig "h" "<h:1>" demoTotal 0 demoProcOpts (Some restartMinter)
       (Persist.rs_put r demoRStore)).

Definition lifeSummary (c : Core) : option AState * bool := (absOf c "slot1_1@h", isS (activations c !! "slot1_1@h")).

(** A slot that was busy with a starter inside the startd is re-adopted Claimed/Busy with no
    activation: the end of a starter, a failed adoption and a new activation all leave it
    so. *)
Lemma adopted_without_socket_stays_busy :
  let c := oddRestart (oddRecord dslotID "") in
  lifeSummary c = (Some ABusy, false) ∧
  Forall (λ ev, lifeSummary (handle demoEnv ev c) = (Some ABusy, false))
    [EvStarterExited "slot1_1@h"; EvAdoptFailed "slot1_1@h"; EvActivateClaim dslotID demoJob 4%nat].
Proof. split; [vm_compute; reflexivity|]. repeat constructor; vm_compute; reflexivity. Qed.

(** A dynamic slot whose session cannot be imported stays carved out of its p-slot, with no
    claim. *)
Lemma adopted_without_session_stays_carved :
  let c := oddRestart (oddRecord "bad" "/sockets/x.sock") in
  LiveSlots c = [0; 1]%nat ∧
  (λ ls, (Slot.state ls.2, isS (Slot.claim ls.2))) <$> lookupName "slot1_1@h" c = Some ("Unclaimed", false) ∧
  (λ ls, Slot.Cpus (Slot.Res ls.2)) <$> lookupName "slot1@h" c = Some 6.
Proof. split_and!; vm_compute; reflexivity. Qed.
