(* ===== verification/Durable.v ===== *)
(** * What is on disk

    A claimed slot is only safe from a restart when its record is.  [durable] is what a
    record should say about a slot, [coh] says that the persister (what is on its way and
    what is stored) says so, for every slot but the one a handler is working on; there is
    a rule per statement of the loop, and every handler is gone through with the rules. *)

From S2P Require Import Prelude GoLang ClassAd Claim Slot SlotFacts Persist Persister StarterMsg Reconnect.
From S2P Require Import Registry Core CoreFrame CoreReg CorePersist Lifecycle.

Import Core.

Local Open Scope Z_scope.
Local Open Scope ep_scope.

(** A record without its times and its job ad: a keepalive extends the lease without
    writing it, and an ad is parsed and printed again. *)
Definition timeless (r : Persist.Record_) : Persist.Record_ :=
  Persist.mkRecord (Persist.SlotName r) (Persist.ClaimID r) (Persist.PublicClaimID r) (Persist.State r)
    (Persist.Activity r) (Persist.SlotType r) (Persist.ParentSlotName r) (Persist.DSlotSubID r)
    (Persist.Cpus r) (Persist.MemoryMB r) (Persist.DiskKB r) (Persist.ScheddAddr r) (Persist.ScheddName r)
    (Persist.User r) (Persist.ClientMachine r) (Persist.AliveInterval r) 0 0 "" (Persist.GlobalJobID r)
    (Persist.StarterPid r) (Persist.StarterSocket r) (Persist.StarterIpAddr r) (Persist.Sandbox r).

Lemma timeless_norm r : timeless (Persist.norm r) = Persist.norm (timeless r).
Proof. unfold Persist.norm at 2. cbn. unfold Persist.norm. by case_bool_decide. Qed.

Section Coh.
Context {CA : ClassAdLib} {SL : SecurityLib} {RS : Persist.RecordStore}.
Implicit Types (c : Core) (s : Slot.Slot) (env : Env) (l : loc) (n : string) (o : option string).

(** What a restart has to find of a slot: something when it is claimed. *)
Definition slotRec c s : option Persist.Record_ :=
  if bool_decide (Slot.state s = "Claimed")
  then (λ cl, timeless (Persist.norm (recordOf c s cl))) <$> Slot.claim s else None.

Definition durable c n : option Persist.Record_ := lookupName n c ≫= λ ls, slotRec c ls.2.

(** What it would find. *)
Definition onDisk c n : option Persist.Record_ := pers c ≫= λ p, timeless <$> view p n.

Definition cohAt c n : Prop := is_Some (pers c) → ∀ r, durable c n = Some r → onDisk c n = Some r.

(** The index files slots under their names. *)
Definition named c : Prop :=
  ∀ n l s, byName c !! n = Some l → heap c !! l = Some s → Slot.Name s = n.

(** Every claim is on disk, except perhaps that of the slot [o]. *)
Definition coh o c : Prop := named c ∧ ∀ n, o ≠ Some n → cohAt c n.

(** ** What the records cannot see *)

Definition alike c c' : Prop :=
  byName c' = byName c ∧ quiet_slot <$> heap c' = quiet_slot <$> heap c ∧
  activations c' = activations c ∧ pers c' = pers c.

#[global] Instance alike_equivalence : Equivalence alike.
Proof.
  split; [done|by intros c c' (? & ? & ? & ?)|].
  intros c1 c2 c3 (A1 & A2 & A3 & A4) (B1 & B2 & B3 & B4). split_and!; by etransitivity.
Qed.

Lemma slotRec_ext c c' s :
  activations c' !! Slot.Name s = activations c !! Slot.Name s → slotRec c' s = slotRec c s.
Proof.
  intros H. unfold slotRec. case_bool_decide; [|done]. destruct (Slot.claim s) as [cl|]; [|done]. cbn.
  unfold recordOf. by rewrite H.
Qed.

Lemma slotRec_quiet c s : slotRec c (quiet_slot s) = slotRec c s.
Proof. done. Qed.

Lemma alike_lookup c c' n :
  alike c c' → prod_map id quiet_slot <$> lookupName n c' = prod_map id quiet_slot <$> lookupName n c.
Proof.
  intros (Hb & Hh & _ & _). unfold lookupName, deref. rewrite Hb. destruct (byName c !! n) as [l|]; [|done].
  apply (f_equal (.!! l)) in Hh. rewrite !lookup_fmap in Hh.
  destruct (heap c' !! l), (heap c !! l); try done. exact (f_equal (fmap (M:=option) (pair l)) Hh).
Qed.

Lemma alike_durable c c' n : alike c c' → durable c' n = durable c n.
Proof.
  intros H. pose proof (alike_lookup c c' n H) as Hl. destruct H as (_ & _ & Ha & _). unfold durable.
  destruct (lookupName n c') as [[l' s']|], (lookupName n c) as [[l s]|]; try done.
  assert (quiet_slot s' = quiet_slot s) as Hs
    by exact (f_equal (λ q, match q with Some ls => ls.2 | None => quiet_slot s end) Hl).
  change (slotRec c' s' = slotRec c s). rewrite <-slotRec_quiet, Hs, slotRec_quiet. apply slotRec_ext. by rewrite Ha.
Qed.

#[global] Instance cohAt_proper : Proper (alike ==> eq ==> iff) cohAt.
Proof.
  intros c c' H n _ <-. unfold cohAt, onDisk. rewrite (alike_durable c c' n H).
  destruct H as (_ & _ & _ & ->). done.
Qed.

#[global] Instance named_proper : Proper (alike ==> iff) named.
Proof.
  enough (∀ c c', alike c c' → named c → named c') as H
    by (intros c c' Hc; split; apply H; [done|by symmetry]).
  intros c c' (Hb & Hh & _) Hn n l s' Hl Hs. rewrite Hb in Hl. apply (f_equal (.!! l)) in Hh.
  rewrite !lookup_fmap, Hs in Hh. destruct (heap c !! l) as [s|] eqn:E; [|done].
  rewrite <-(Hn n l s Hl E). exact (f_equal (λ q, match q with Some t => Slot.Name t | None => n end) Hh).
Qed.

#[global] Instance coh_proper : Proper (eq ==> alike ==> iff) coh.
Proof. intros o _ <- c c' H. unfold coh. rewrite H. by setoid_rewrite H. Qed.

Lemma alike_erase c c' : erase c' = erase c → pers c' = pers c → alike c c'.
Proof.
  intros He Hp. split_and!; [|..|done].
  - by apply (f_equal byName) in He.
  - by apply (f_equal heap) in He.
  - by apply (f_equal activations) in He.
Qed.

Lemma coh_alike o c c' : alike c c' → coh o c → coh o c'.
Proof. by intros ->. Qed.

(** ** The rules *)

(** Which slot is filed under [n]. *)
Definition filed c n : option (string * string) :=
  (λ ls, (Slot.Name ls.2, Slot.SlotType ls.2)) <$> lookupName n c.

Lemma alike_filed c c' n : alike c c' → filed c' n = filed c n.
Proof.
  intros Ha. pose proof (alike_lookup c c' n Ha) as Hl.
  apply (f_equal (fmap (M:=option) (λ ls, (Slot.Name ls.2, Slot.SlotType ls.2)))) in Hl.
  unfold filed. by destruct (lookupName n c'), (lookupName n c).
Qed.

Definition same_at c c' n : Prop :=
  durable c' n = durable c n ∧ onDisk c' n = onDisk c n ∧ filed c' n = filed c n.

(** A statement that is at most seen on the slot [o]. *)
Record keeps o c c' : Prop := mkKeeps {
  kp_named : named c';
  kp_pers : is_Some (pers c') → is_Some (pers c);
  kp_at n : o ≠ Some n → same_at c c' n
}.

Lemma keeps_trans o c1 c2 c3 : keeps o c1 c2 → keeps o c2 c3 → keeps o c1 c3.
Proof.
  intros [A1 A2 A3] [B1 B2 B3]. split; [done|by auto|]. intros n Hn.
  destruct (A3 n Hn) as (A4 & A5 & A6), (B3 n Hn) as (B4 & B5 & B6). split_and!; congruence.
Qed.

Lemma keeps_weaken o c c' : keeps None c c' → keeps o c c'.
Proof. intros [A1 A2 A3]. split; [done..|]. intros n _. by apply A3. Qed.

Lemma keeps_alike o c c' : named c → alike c c' → keeps o c c'.
Proof.
  intros Hn Ha. split; [by rewrite <-Ha|destruct Ha as (_ & _ & _ & ->); done|]. intros n _.
  split; [by apply alike_durable|]. split; [|by apply alike_filed].
  unfold onDisk. by destruct Ha as (_ & _ & _ & ->).
Qed.

Lemma coh_keeps o c c' : keeps o c c' → coh o c → coh o c'.
Proof.
  intros [H1 H2 H3] [_ Hc]. split; [done|]. intros n Hn. destruct (H3 n Hn) as (Hd & Ho & _).
  unfold cohAt. rewrite Hd, Ho. intros Hp. by apply (Hc n Hn), H2.
Qed.

Lemma coh_weaken o c : coh None c → coh o c.
Proof. intros [H1 H2]. split; [done|]. intros n _. by apply H2. Qed.

Lemma coh_settled n c : coh (Some n) c → durable c n = None → coh None c.
Proof.
  intros [H1 H2] Hd. split; [done|]. intros k _. destruct (decide (k = n)) as [->|Hk].
  - intros _ r Hr. congruence.
  - apply H2. congruence.
Qed.

(** The slot being worked on may be written. *)
Lemma keeps_updSlot l f s c :
  heap c !! l = Some s → Slot.Name (f s) = Slot.Name s → named c → keeps (Some (Slot.Name s)) c (updSlot l f c).
Proof.
  intros Hs Hf Hn. split; [|done|].
  - intros n k t Hk Ht. cbn in Hk, Ht. rewrite lookup_alter in Ht. case_decide; [subst k|by eapply Hn].
    rewrite Hs in Ht. injection Ht as <-. rewrite Hf. by eapply Hn.
  - intros n Hne. unfold same_at, durable, filed, lookupName, deref. cbn.
    destruct (byName c !! n) as [k|] eqn:Ek; [|done].
    rewrite lookup_alter_ne; [done|]. intros <-. by rewrite (Hn n l s Ek Hs) in Hne.
Qed.

Lemma coh_updSlot l f s c :
  heap c !! l = Some s → Slot.Name (f s) = Slot.Name s →
  coh (Some (Slot.Name s)) c → coh (Some (Slot.Name s)) (updSlot l f c).
Proof. intros Hs Hf Hc. eapply coh_keeps; [|done]. apply keeps_updSlot; [done..|apply Hc]. Qed.

(** Any slot may be written when the record does not see it. *)
Lemma keeps_updSlot_same o l f c :
  (∀ s, heap c !! l = Some s →
     Slot.Name (f s) = Slot.Name s ∧ Slot.SlotType (f s) = Slot.SlotType s ∧ slotRec c (f s) = slotRec c s) →
  named c → keeps o c (updSlot l f c).
Proof.
  intros Hf Hn. split; [|done|].
  - intros n k t Hk Ht. cbn in Hk, Ht. rewrite lookup_alter in Ht. case_decide; [subst k|by eapply Hn].
    destruct (heap c !! l) as [s|] eqn:Hs; [|done]. injection Ht as <-. rewrite (proj1 (Hf s eq_refl)). by eapply Hn.
  - intros n Hne. unfold same_at, durable, filed, lookupName, deref. cbn.
    destruct (byName c !! n) as [k|]; [|done]. rewrite lookup_alter. case_decide; [subst k|done].
    destruct (heap c !! l) as [s|] eqn:Hs; [|done]. destruct (Hf s eq_refl) as (H1 & H2 & H3). cbn.
    rewrite H1, H2. done.
Qed.

Lemma coh_updSlot_same o l f c :
  (∀ s, heap c !! l = Some s →
     Slot.Name (f s) = Slot.Name s ∧ Slot.SlotType (f s) = Slot.SlotType s ∧ slotRec c (f s) = slotRec c s) →
  coh o c → coh o (updSlot l f c).
Proof. intros Hf Hc. eapply coh_keeps; [|done]. apply keeps_updSlot_same; [done|apply Hc]. Qed.

Lemma keeps_set_activations n a c :
  (∀ k, k ≠ n → a !! k = activations c !! k) → named c → keeps (Some n) c (set_activations a c).
Proof.
  intros Ha Hn. split; [done|done|]. intros k Hk. split; [|done]. unfold durable.
  change (lookupName k (set_activations a c)) with (lookupName k c).
  destruct (lookupName k c) as [[l s]|] eqn:El; [|done]. apply slotRec_ext.
  cbn. apply Ha. apply lookupName_Some in El as [Hb Hs]. rewrite (Hn k l s Hb Hs). congruence.
Qed.

Lemma coh_set_activations n a c :
  (∀ k, k ≠ n → a !! k = activations c !! k) → coh (Some n) c → coh (Some n) (set_activations a c).
Proof. intros Ha Hc. eapply coh_keeps; [|done]. apply keeps_set_activations; [done|apply Hc]. Qed.

(** What a record tells of an activation. *)
Definition actKey (a : activation) :=
  (globalJID a, starterPid a, socketPath a, starterAddr a, sandbox a).

Lemma coh_activation_same o n act act' c :
  activations c !! n = Some act → actKey act' = actKey act →
  coh o c → coh o (set_activations (<[n := act']> (activations c)) c).
Proof.
  intros Ha Hk [Hn Hc]. split; [done|]. intros k Hne. specialize (Hc k Hne).
  unfold cohAt, durable, onDisk in *. change (lookupName k (set_activations _ c)) with (lookupName k c).
  destruct (lookupName k c) as [[l s]|] eqn:El; [|done]. cbn in *.
  enough (slotRec (set_activations (<[n := act']> (activations c)) c) s = slotRec c s) as -> by done.
  unfold slotRec. case_bool_decide; [|done]. destruct (Slot.claim s) as [cl|]; [|done]. cbn. f_equal.
  unfold recordOf. cbn. destruct (decide (Slot.Name s = n)) as [He|He]; [|by rewrite lookup_insert_ne].
  rewrite He, lookup_insert_eq, Ha. unfold actKey in Hk. injection Hk as H1 H2 H3 H4 H5.
  rewrite !timeless_norm. unfold timeless. cbn. by rewrite H1, H2, H3, H4, H5.
Qed.

(** Writing the record settles the slot. *)
Lemma view_persist l c p s cl n :
  pers c = Some p → heap c !! l = Some s → Slot.claim s = Some cl →
  onDisk (persistSlot l c) n
  = if bool_decide (n = Slot.Name s) then Some (timeless (Persist.norm (recordOf c s cl))) else onDisk c n.
Proof.
  intros Hp Hs Hcl. unfold onDisk, persistSlot. rewrite Hp, Hs, Hcl. cbn. rewrite view_put.
  change (Persist.SlotName (recordOf c s cl)) with (Slot.Name s). by case_bool_decide.
Qed.

Lemma heap_persistSlot l c : heap (persistSlot l c) = heap c.
Proof. unfold persistSlot. by repeat case_match. Qed.
Lemma byName_persistSlot l c : byName (persistSlot l c) = byName c.
Proof. unfold persistSlot. by repeat case_match. Qed.

Lemma durable_persist l c n : durable (persistSlot l c) n = durable c n.
Proof. unfold persistSlot. by repeat case_match. Qed.

Lemma coh_persist l s c :
  heap c !! l = Some s → byName c !! Slot.Name s = Some l →
  coh (Some (Slot.Name s)) c → coh None (persistSlot l c).
Proof.
  intros Hs Hb [Hn Hc]. destruct (Slot.claim s) as [cl|] eqn:Hcl.
  2: { assert (persistSlot l c = c) as -> by (unfold persistSlot; rewrite Hs, Hcl; by case_match).
       apply (coh_settled (Slot.Name s)); [done|]. unfold durable, lookupName, deref. rewrite Hb, Hs. cbn.
       unfold slotRec. rewrite Hcl. by case_bool_decide. }
  assert (named (persistSlot l c)) as Hn' by (unfold persistSlot; by repeat case_match).
  split; [done|]. intros n _. destruct (pers c) as [p|] eqn:Hp.
  2: { unfold persistSlot. rewrite Hp. intros [? ?]. congruence. }
  intros _ r. rewrite durable_persist, (view_persist l c p s cl n Hp Hs Hcl). case_bool_decide as He.
  - subst n. unfold durable, lookupName, deref. rewrite Hb, Hs. cbn. unfold slotRec.
    rewrite Hcl. by case_bool_decide.
  - intros Hr. apply (Hc n); [congruence|by rewrite Hp|done].
Qed.

(** Removing a record that says nothing. *)
Lemma keeps_storeDelete {RSL : Persist.RecordStoreLaws RS} n c : named c → keeps (Some n) c (storeDelete n c).
Proof.
  intros Hn. unfold storeDelete. destruct (pers c) as [p|] eqn:Hp; [|by apply keeps_alike].
  split; [done|by rewrite Hp|]. intros k Hk. split; [done|]. split; [|done]. unfold onDisk. rewrite Hp. cbn.
  unfold view. cbn. by rewrite Persist.rs_get_delete, bool_decide_false by congruence.
Qed.

Lemma durable_set_pers p c n : durable (set_pers p c) n = durable c n.
Proof. done. Qed.

Lemma durable_storeDelete n c k : durable (storeDelete n c) k = durable c k.
Proof. unfold storeDelete. by case_match. Qed.

Lemma filed_storeDelete n c k : filed (storeDelete n c) k = filed c k.
Proof. unfold storeDelete. by case_match. Qed.

Lemma coh_storeDelete {RSL : Persist.RecordStoreLaws RS} n c :
  coh None c → durable c n = None → coh None (storeDelete n c).
Proof.
  intros Hc Hd. apply (coh_settled n); [|by rewrite durable_storeDelete].
  eapply coh_keeps; [apply keeps_storeDelete, Hc|by apply coh_weaken].
Qed.

(** A new slot, at an address nobody has. *)
Lemma keeps_addDSlot d c :
  (∀ n, byName c !! n ≠ Some (nextLoc c)) → named c → keeps (Some (Slot.Name d)) c (addDSlot d c).
Proof.
  intros Hf Hn. split; [|done|].
  - intros n l s Hb Hs. cbn in Hb, Hs. destruct (decide (n = Slot.Name d)) as [->|Hne].
    + rewrite lookup_insert_eq in Hb. injection Hb as <-. rewrite lookup_insert_eq in Hs. by injection Hs as <-.
    + rewrite lookup_insert_ne in Hb by done. rewrite lookup_insert_ne in Hs by (intros <-; by apply (Hf n)).
      by eapply Hn.
  - intros n Hne. unfold same_at, durable, filed, lookupName, deref. cbn.
    rewrite lookup_insert_ne by congruence. destruct (byName c !! n) as [l|] eqn:El; [|done].
    rewrite lookup_insert_ne; [done|]. intros <-. by apply (Hf n).
Qed.

Lemma coh_addDSlot d c :
  (∀ n, byName c !! n ≠ Some (nextLoc c)) → coh None c → coh (Some (Slot.Name d)) (addDSlot d c).
Proof. intros Hf Hc. eapply coh_keeps; [apply keeps_addDSlot; [done|apply Hc]|by apply coh_weaken]. Qed.

(** A slot that is gone needs no record. *)
Lemma durable_remove n c : durable (removeDSlot n c) n = None.
Proof. unfold durable, lookupName. cbn. by rewrite lookup_delete_eq. Qed.

Lemma coh_removeDSlot n c : coh (Some n) c → coh None (removeDSlot n c).
Proof.
  intros [Hn Hc]. apply (coh_settled n); [split|apply durable_remove].
  - intros k l s Hk Hs. cbn in Hk, Hs. apply lookup_delete_Some in Hk as [_ Hk]. by eapply Hn.
  - intros k Hk. specialize (Hc k Hk). unfold cohAt, durable, lookupName, deref, onDisk in *. cbn.
    by rewrite lookup_delete_ne by congruence.
Qed.
End Coh.

(** ** Statements the records do not see *)

Section Alike.
Context {CA : ClassAdLib} {SL : SecurityLib} {RS : Persist.RecordStore}.
Implicit Types (c : Core) (env : Env) (l : loc).

Lemma alike_set_dslotSeq n c : alike c (set_dslotSeq n c).
Proof. done. Qed.
Lemma alike_set_minter m c : alike c (set_minter m c).
Proof. done. Qed.
Lemma alike_set_cancels a b n c : alike c (set_cancels a b n c).
Proof. done. Qed.
Lemma alike_set_seqs a b n c : alike c (set_seqs a b n c).
Proof. done. Qed.
Lemma alike_set_deferred d n c : alike c (set_deferred d n c).
Proof. done. Qed.
Lemma alike_emit e c : alike c (emit e c).
Proof. done. Qed.
Lemma alike_rejectClaim ev c : alike c (rejectClaim ev c).
Proof. done. Qed.
Lemma alike_rejectActivate r c : alike c (rejectActivate r c).
Proof. done. Qed.
Lemma alike_emitVacate n a msg b c : alike c (emitVacate n a msg b c).
Proof. by destruct b. Qed.
Lemma alike_emitAll es c : alike c (emitAll es c).
Proof. apply alike_erase; [apply erase_emitAll|apply pers_emitAll]. Qed.
Lemma alike_InvalidateSlot env s c : alike c (InvalidateSlot env s c).
Proof. apply alike_emitAll. Qed.
Lemma alike_publicAd env l c : alike c (publicAd env l c).2.
Proof. apply alike_erase; [apply erase_publicAd|]. unfold publicAd. by case_match. Qed.
Lemma alike_claimedBlock env ev cid l c : alike c (claimedBlock env ev cid l c).2.
Proof.
  apply alike_erase; [apply erase_claimedBlock|]. unfold claimedBlock. case_match; [|done].
  pose proof (alike_publicAd env l c) as (_ & _ & _ & Hp). by destruct (publicAd env l c).
Qed.
Lemma alike_leftoversBlock env ev cid l c : alike c (leftoversBlock env ev cid l c).2.
Proof.
  apply alike_erase; [apply erase_leftoversBlock|]. unfold leftoversBlock. case_match; [|done].
  pose proof (alike_publicAd env l c) as (_ & _ & _ & Hp). by destruct (publicAd env l c).
Qed.
Lemma alike_Advertise env c : alike c (Advertise env c).
Proof.
  apply alike_erase; [apply erase_Advertise|]. unfold Advertise. case_match; [done|]. apply pers_foldl.
  clear. intros c l. unfold advertiseSlot. pose proof (alike_publicAd env l c) as (_ & _ & _ & Hp).
  destruct (publicAd env l c) as [ad c']. cbn in Hp. case_match; [by rewrite pers_emitAll|done].
Qed.
Lemma alike_reAdvertise env c : alike c (reAdvertise env c).
Proof. unfold reAdvertise. case_match; [apply alike_Advertise|done]. Qed.
Lemma alike_tick env c : alike c (tick env c).
Proof. unfold tick. case_match; [apply alike_Advertise|done]. Qed.
Lemma alike_shutdown env c : alike c (shutdown env c).
Proof.
  apply alike_erase; [|apply pers_shutdown]. unfold shutdown, Invalidate. case_match; [|done].
  apply erase_foldl. intros c' l. case_match; [apply erase_InvalidateSlot|done].
Qed.
Lemma alike_refresh l c : alike c (refreshPSlotChildren l c).
Proof. apply alike_erase; [apply erase_refresh|]. unfold refreshPSlotChildren. by case_match. Qed.
Lemma alike_startMatchTimer n id c : alike c (startMatchTimer n id c).
Proof. unfold startMatchTimer. by case_match. Qed.
Lemma alike_cancelMatchTimer n c : alike c (cancelMatchTimer n c).
Proof. unfold cancelMatchTimer. by case_match. Qed.
Lemma alike_cancelAlive n c : alike c (cancelAlive n c).
Proof. unfold cancelAlive. by case_match. Qed.
Lemma alike_startAliveLoop l c : alike c (startAliveLoop l c).
Proof. unfold startAliveLoop. by repeat case_match. Qed.
Lemma alike_releaseDeferred n c : alike c (releaseDeferredDeactivate n c).
Proof. unfold releaseDeferredDeactivate. by case_match. Qed.
End Alike.

Create HintDb alike.
#[export] Hint Resolve alike_set_dslotSeq alike_set_minter alike_set_cancels alike_set_seqs alike_set_deferred alike_emit
  alike_emitVacate alike_emitAll alike_InvalidateSlot alike_publicAd alike_claimedBlock alike_leftoversBlock alike_Advertise
  alike_reAdvertise alike_tick alike_shutdown alike_refresh alike_startMatchTimer alike_cancelMatchTimer alike_cancelAlive
  alike_startAliveLoop alike_releaseDeferred alike_rejectClaim alike_rejectActivate : alike.

(** Step back over the statements the records do not see. *)
Ltac unseen := repeat (eapply coh_alike; [solve [auto 1 with alike]|]).

Section Handlers.
Context {CA : ClassAdLib} {SL : SecurityLib} {RS : Persist.RecordStore} {RSL : Persist.RecordStoreLaws RS}.
Context (machine : string).
Implicit Types (c : Core) (s : Slot.Slot) (env : Env) (l : loc).

(** Writing one slot, with its record. *)
Lemma coh_rewrite l f s c :
  byName c !! Slot.Name s = Some l → heap c !! l = Some s → Slot.Name (f s) = Slot.Name s →
  coh (Some (Slot.Name s)) c → coh None (persistSlot l (updSlot l f c)).
Proof.
  intros Hb Hs Hf Hc. apply (coh_persist l (f s)); cbn.
  - by rewrite lookup_alter_eq, Hs.
  - by rewrite Hf.
  - rewrite Hf. by apply coh_updSlot.
Qed.

Lemma coh_unclaim env l s c :
  byName c !! Slot.Name s = Some l → heap c !! l = Some s →
  coh (Some (Slot.Name s)) c → coh None (persistSlot l (unclaimSlot env l c)).
Proof.
  intros Hb Hs Hc. unfold unclaimSlot.
  destruct (minter c) as [m|]; [destruct (Claim.Mint m) as [m' [fresh|]]|];
    (eapply (coh_rewrite l _ s); [done|done|done|by unseen]).
Qed.

Lemma coh_doMatchInfo env id c : RegInv machine (regOf c) → coh None c → coh None (doMatchInfo env id c).
Proof.
  intros HI Hc. unfold doMatchInfo.
  destruct (findSlotByClaimID id c) as [[l s]|] eqn:Ef; [|done]. apply findSlotByClaimID_Some in Ef as (Hl & Hs & _).
  destruct (live_byName machine c l s HI Hl Hs) as [Hb _]. repeat case_match; try done. unseen.
  apply (coh_rewrite l _ s); try done. by apply coh_weaken.
Qed.

Lemma coh_doMatchTimeout env n id c : coh None c → coh None (doMatchTimeout env n id c).
Proof.
  intros Hc. unfold doMatchTimeout. destruct (lookupName n c) as [[l s]|] eqn:El; [|done].
  apply lookupName_Some in El as [Hb Hs]. pose proof (proj1 Hc n l s Hb Hs) as Hn.
  repeat case_match; try (by unseen). unseen. apply (coh_unclaim env l s); [by rewrite Hn|done|].
  unseen. by apply coh_weaken.
Qed.

(** Updates through the claim pointer that the record does not see. *)
Lemma coh_claim_quiet o l (f : Claim.Claim → Claim.Claim) c :
  (∀ s cl, timeless (Persist.norm (recordOf c (Slot.with_claim (Some (f cl)) s) (f cl)))
           = timeless (Persist.norm (recordOf c s cl))) →
  coh o c → coh o (updClaim l f c).
Proof.
  intros Hf. apply coh_updSlot_same. intros s _. split; [done|]. split; [done|]. unfold slotRec.
  change (Slot.state (Slot.with_claim (f <$> Slot.claim s) s)) with (Slot.state s).
  change (Slot.claim (Slot.with_claim (f <$> Slot.claim s) s)) with (f <$> Slot.claim s).
  case_bool_decide; [|done]. destruct (Slot.claim s) as [cl|]; [|done]. cbn. by rewrite <-(Hf s cl).
Qed.

Ltac same_record := intros; by rewrite !timeless_norm.

Lemma coh_doAliveOK o env n c : coh o c → coh o (doAliveOK env n c).
Proof. intros. unfold doAliveOK. repeat case_match; try done. apply coh_claim_quiet; [same_record|done]. Qed.

Lemma coh_doStarterUpdate o n ad c : coh o c → coh o (doStarterUpdate n ad c).
Proof. intros. unfold doStarterUpdate. repeat case_match; try done. apply coh_claim_quiet; [same_record|done]. Qed.

Lemma coh_doStarterFinal o n ad st r c : coh o c → coh o (doStarterFinal n ad st r c).
Proof. intros. unfold doStarterFinal. repeat case_match; try done. apply coh_claim_quiet; [same_record|done]. Qed.

(** ** Claiming *)

Lemma slots_named c l s :
  RegInv machine (regOf c) → l ∈ slots c → heap c !! l = Some s →
  Slot.Machine s = machine ∧ Slot.Name s = Slot.staticName (Slot.SlotID s) machine.
Proof.
  intros HI Hl Hs. assert (r_heap (regOf c) !! l = Some (shapeOf s)) as Hh by (by rewrite heap_regOf, Hs).
  by destruct (ri_slots _ _ HI l _ Hl Hh) as (H1 & H2 & _).
Qed.

(** Nothing is filed at the next address. *)
Lemma next_unfiled c n : RegInv machine (regOf c) → byName c !! n ≠ Some (nextLoc c).
Proof.
  intros HI Hb. change (r_byName (regOf c) !! n = Some (nextLoc c)) in Hb.
  apply (ri_byName _ _ HI) in Hb as [Hl _]. pose proof (ri_alloc _ _ HI _ Hl) as [Hlt _]. cbn in Hlt. lia.
Qed.

(** The dynamic slot is carved, and both records are written. *)
Lemma coh_carve l ps req d c :
  (∀ n, byName c !! n ≠ Some (nextLoc c)) → byName c !! Slot.Name ps = Some l → heap c !! l = Some ps →
  Slot.IsDynamic ps = false → Slot.Name d ≠ Slot.Name ps → coh None c →
  coh None (c |> updSlot l (Slot.Carve req) |> addDSlot d |> refreshPSlotChildren l
              |> persistSlot (nextLoc c) |> persistSlot l).
Proof.
  intros Hf Hb Hps Hdyn Hne Hc. assert (l ≠ nextLoc c) as Hln by (intros ->; by eapply Hf).
  set (c1 := addDSlot d (updSlot l (Slot.Carve req) c)).
  assert (coh (Some (Slot.Name d)) c1) as H1.
  { apply coh_addDSlot; [done|]. apply coh_updSlot_same; [|done].
    intros s Hs. rewrite Hps in Hs. injection Hs as <-. split; [done|]. split; [done|]. unfold slotRec, recordOf.
    change (Slot.IsDynamic (Slot.Carve req ps)) with (Slot.IsDynamic ps). by rewrite Hdyn. }
  assert (heap c1 !! nextLoc c = Some d ∧ heap c1 !! l = Some (Slot.Carve req ps) ∧
          byName c1 !! Slot.Name d = Some (nextLoc c) ∧ byName c1 !! Slot.Name ps = Some l) as (A1 & A2 & A3 & A4).
  { unfold c1. cbn. rewrite !lookup_insert_eq, !lookup_insert_ne, lookup_alter_eq, Hps by done. done. }
  clearbody c1. assert (∀ k s, heap c1 !! k = Some s →
            ∃ s', heap (refreshPSlotChildren l c1) !! k = Some s' ∧ Slot.Name s' = Slot.Name s) as Hr.
  { intros k s Hk. unfold refreshPSlotChildren. rewrite A2. cbn. rewrite lookup_alter.
    case_decide; [subst k|]; rewrite Hk; by eexists. }
  assert (byName (refreshPSlotChildren l c1) = byName c1) as Hbn by (unfold refreshPSlotChildren; by case_match).
  destruct (Hr _ _ A1) as (d' & B1 & B2), (Hr _ _ A2) as (ps' & B3 & B4).
  change (Slot.Name (Slot.Carve req ps)) with (Slot.Name ps) in B4. apply (coh_persist l ps').
  - by rewrite heap_persistSlot.
  - by rewrite B4, byName_persistSlot, Hbn.
  - apply coh_weaken, (coh_persist (nextLoc c) d'); [done|by rewrite B2, Hbn|]. rewrite B2. by unseen.
Qed.

Lemma coh_doRequestClaimPSlot env ev l cl c s :
  RegInv machine (regOf c) → l ∈ LiveSlots c → heap c !! l = Some s → Slot.IsPartitionable s = true →
  coh None c → coh None (doRequestClaimPSlot env ev l cl c).
Proof.
  intros HI Hl Hs Hpart Hc. unfold doRequestClaimPSlot. rewrite Hs.
  destruct (minter c) as [m|]; [|by unseen]. destruct (negb (requirementsMet _ _ _)); [by unseen|].
  destruct (negb (Slot.CanCarve _ s)); [by unseen|]. destruct (Claim.Mint m) as [m' [dClaim|]]; [|by unseen].
  cbn zeta. set (c1 := set_dslotSeq _ _). set (d := Slot.AcceptClaim _ _ _).
  assert (coh None c1) as H1 by (by unfold c1; unseen).
  pose proof (slots_named c l s HI (live_partitionable machine c l s HI Hl Hs Hpart) Hs) as [Hm Hn].
  match goal with |- context [claimedBlock env ev ?x ?y ?c0] =>
    pose proof (alike_claimedBlock env ev x y c0) as HA; destruct (claimedBlock env ev x y c0) as [claimed c2] end.
  match goal with |- context [leftoversBlock env ev ?x ?y ?c0] =>
    pose proof (alike_leftoversBlock env ev x y c0) as HB; destruct (leftoversBlock env ev x y c0) as [lo c3] end.
  unseen. eapply coh_alike; [exact HB|]. eapply coh_alike; [exact HA|]. unseen.
  apply (coh_carve l s _ d c1); try done.
  - intros n. exact (next_unfiled c n HI).
  - exact (proj1 (live_byName machine c l s HI Hl Hs)).
  - apply bool_decide_eq_true in Hpart. apply bool_decide_eq_false. by rewrite Hpart.
  - change (Slot.dynamicName (Slot.SlotID s) (dslotSeq c1) (Slot.Machine s) ≠ Slot.Name s). rewrite Hn, Hm.
    apply not_eq_sym, staticName_dynamicName.
Qed.

Lemma cancelMatchTimer_frame n c :
  let c' := cancelMatchTimer n c in
  byName c' = byName c ∧ heap c' = heap c ∧ LiveSlots c' = LiveSlots c ∧ regOf c' = regOf c.
Proof. cbn zeta. unfold cancelMatchTimer. by case_match. Qed.

Lemma coh_doRequestClaim env ev c :
  RegInv machine (regOf c) → coh None c → coh None (doRequestClaim env ev c).
Proof.
  intros HI Hc. unfold doRequestClaim.
  destruct (findSlotByClaimID _ c) as [[l s]|] eqn:Ef; [|by unseen]. apply findSlotByClaimID_Some in Ef as (Hl & Hs & _).
  destruct (live_byName machine c l s HI Hl Hs) as [Hb _].
  destruct (Slot.claim s) as [cl|] eqn:Hcl; [|by unseen]. destruct (negb (bool_decide _)); [by unseen|].
  cbn zeta. destruct (negb (requirementsMet _ _ _)); [by unseen|].
  destruct (cancelMatchTimer_frame (Slot.Name s) c) as (Eb & Eh & El & Er).
  assert (coh None (cancelMatchTimer (Slot.Name s) c)) as H1 by (by unseen).
  set (c1 := cancelMatchTimer (Slot.Name s) c) in *. clearbody c1.
  rewrite <-Eb in Hb. rewrite <-Eh in Hs. rewrite <-El in Hl. rewrite <-Er in HI.
  destruct (Slot.IsPartitionable s) eqn:Hpart; [by apply (coh_doRequestClaimPSlot env ev l cl _ s)|].
  match goal with |- context [claimedBlock env ev ?x ?y ?c0] =>
    pose proof (alike_claimedBlock env ev x y c0) as HA; destruct (claimedBlock env ev x y c0) as [claimed c2] end.
  unseen. eapply coh_alike; [exact HA|]. apply (coh_rewrite l _ s); [done..|by apply coh_weaken].
Qed.

(** ** Releasing *)

(** The fields the lifecycle reads survive the end of the timers and of the starter. *)
Lemma stop_slot_frame n c :
  let c' := c |> cancelMatchTimer n |> cancelAlive n |> killActivation n in
  byName c' = byName c ∧ heap c' = heap c.
Proof.
  cbn zeta. unfold killActivation, vacateSend, cancelAlive, cancelMatchTimer, emitVacate.
  by repeat case_match; simplify_eq.
Qed.

Lemma coh_killActivation n c : coh (Some n) c → coh (Some n) (killActivation n c).
Proof.
  intros Hc. unfold killActivation. destruct (activations c !! n) as [act|]; [|done].
  destruct (vacateSend _ act) as [act' sent].
  assert (coh (Some n) (set_activations (delete n (activations c)) c)) as H1
    by (apply coh_set_activations; [intros k Hk; by rewrite lookup_delete_ne|done]).
  case_match; by unseen.
Qed.

Lemma coh_destroyDSlot env l d c :
  heap c !! l = Some d → coh (Some (Slot.Name d)) c → coh None (destroyDSlot env l c).
Proof.
  intros Hd Hc. unfold destroyDSlot. rewrite Hd. unseen. set (c1 := storeDelete _ _).
  assert (coh None c1) as H1.
  { apply coh_storeDelete; [by apply coh_removeDSlot|apply durable_remove]. }
  set (c2 := if haveAdv _ then _ else _). assert (coh None c2) as H2 by (unfold c2; case_match; by unseen).
  clearbody c2. destruct (lookupName (Slot.ParentName d) c2) as [[p ps]|] eqn:Ep; [|done].
  apply lookupName_Some in Ep as [Hb Hs]. pose proof (proj1 H2 _ _ _ Hb Hs) as Hn.
  set (f := Slot.Restore (Slot.Res d)). set (c3 := updSlot p f c2).
  assert (heap c3 !! p = Some (f ps)) as Hf by (cbn; by rewrite lookup_alter_eq, Hs).
  assert (∃ g, refreshPSlotChildren p c3 = updSlot p g c3 ∧ ∀ t, Slot.Name (g t) = Slot.Name t) as (g & -> & Hg).
  { unfold refreshPSlotChildren. rewrite Hf. eexists. split; [reflexivity|]. by intros t. }
  apply (coh_rewrite p g (f ps)); [|done|apply Hg|].
  - change (byName c2 !! Slot.Name ps = Some p). by rewrite Hn.
  - change (Slot.Name (f ps)) with (Slot.Name ps). apply (coh_updSlot p f ps); [done|done|by apply coh_weaken].
Qed.

Lemma coh_releaseSlot env l s c :
  byName c !! Slot.Name s = Some l → heap c !! l = Some s → coh (Some (Slot.Name s)) c → coh None (releaseSlot env l c).
Proof.
  intros Hb Hs Hc. unfold releaseSlot. rewrite Hs. destruct (stop_slot_frame (Slot.Name s) c) as [Eb Eh].
  set (c1 := c |> cancelMatchTimer (Slot.Name s) |> _ |> _) in *. rewrite <-Eb in Hb. rewrite <-Eh in Hs.
  assert (coh (Some (Slot.Name s)) c1) as H1 by (apply coh_killActivation; by unseen).
  clearbody c1. destruct (Slot.IsDynamic s); [by eapply coh_destroyDSlot|]. unseen. by apply (coh_unclaim env l s).
Qed.

(** ** The starter *)

Lemma coh_finishActivate env l s act ad r c :
  byName c !! Slot.Name s = Some l → heap c !! l = Some s →
  coh (Some (Slot.Name s)) c → coh None (finishActivate env l (Slot.Name s) act ad r c).
Proof.
  intros Hb Hs Hc. unfold finishActivate. unseen.
  set (f := λ s, Slot.with_claim (Claim.SetBusy (now env) <$> Slot.claim s) s).
  apply (coh_rewrite l _ (f s)); [done| |done|].
  - cbn. by rewrite lookup_alter_eq, Hs.
  - change (Slot.Name (f s)) with (Slot.Name s). apply (coh_updSlot l f s); [done|done|by unseen].
Qed.

Lemma coh_activateStarter env l s cl job r c :
  byName c !! Slot.Name s = Some l → heap c !! l = Some s → coh None c → coh None (activateStarter env l s cl job r c).
Proof.
  intros Hb Hs Hc. unfold activateStarter. destruct (negb _); [by unseen|]. cbn zeta.
  match goal with |- context [publicAd env l ?c0] =>
    pose proof (alike_publicAd env l c0) as HA; destruct (publicAd env l c0) as [ad c1] eqn:Ep; set (c2 := c0) in * end.
  assert (coh None c1) as H1 by (eapply coh_alike; [exact HA|]; by unfold c2; unseen).
  assert (byName c1 !! Slot.Name s = Some l ∧ ∃ s1, heap c1 !! l = Some s1 ∧ Slot.Name s1 = Slot.Name s) as (Hb1 & s1 & Hs1 & Hn).
  { unfold publicAd in Ep. change (heap c2) with (heap c) in Ep. rewrite Hs in Ep. injection Ep as _ <-. split; [done|].
    cbn. rewrite lookup_insert_eq. by eexists. }
  assert (∀ act ad' c', byName c' = byName c1 → heap c' = heap c1 → coh (Some (Slot.Name s)) c' →
            coh None (finishActivate env l (Slot.Name s) act ad' r c')) as Hfin.
  { intros act ad' c' Eb Eh. rewrite <-Hn. apply coh_finishActivate; [by rewrite Hn, Eb|by rewrite Eh]. }
  assert (∀ act c', alike c1 c' → coh (Some (Slot.Name s)) (set_activations (<[Slot.Name s := act]> (activations c1)) c')) as Hact.
  { intros act c' Ha. apply coh_set_activations.
    { intros k Hk. destruct Ha as (_ & _ & -> & _). by rewrite lookup_insert_ne. }
    eapply coh_alike; [exact Ha|]. by apply coh_weaken. }
  repeat case_match; try (by unseen).
  - apply Hfin; [done|done|]. unseen. by apply Hact.
  - apply Hfin; [done|done|]. unseen. by apply Hact.
Qed.

Lemma coh_doActivateClaim env id job r c :
  RegInv machine (regOf c) → coh None c → coh None (doActivateClaim env id job r c).
Proof.
  intros HI Hc. unfold doActivateClaim.
  destruct (findSlotByClaimID _ c) as [[l s]|] eqn:Ef; [|by unseen]. apply findSlotByClaimID_Some in Ef as (Hl & Hs & _).
  destruct (live_byName machine c l s HI Hl Hs) as [Hb _]. repeat case_match; try (by unseen).
  by apply coh_activateStarter.
Qed.

(** A starter is only known of a slot that is Claimed/Busy. *)
Lemma activation_busy n act c :
  LifeInv c → activations c !! n = Some act →
  ∃ l s cl, lookupName n c = Some (l, s) ∧ Slot.claim s = Some cl ∧ Claim.state cl = Claim.ClaimedBusy.
Proof.
  intros [_ Hall] Ha. specialize (Hall n). unfold lifeOf, lifeWith in Hall. rewrite Ha in Hall. cbn in Hall.
  inversion Hall as [| | | |Hsl]. destruct (lookupName n c) as [[l s]|]; [|done]. cbn in Hsl.
  unfold slotLife, busyLife in Hsl. injection Hsl as H1 H2 H3 H4. symmetry in H3. apply fmap_Some in H3 as (cl & Hcl & Hst).
  by exists l, s, cl.
Qed.

Lemma coh_setClaimedIdle env l s c :
  byName c !! Slot.Name s = Some l → heap c !! l = Some s →
  coh (Some (Slot.Name s)) c → coh None (persistSlot l (setClaimedIdle env l c)).
Proof.
  intros Hb Hs Hc. unfold setClaimedIdle.
  set (f := λ s, Slot.with_claim (Claim.SetIdle (now env) <$> Slot.claim s) s).
  apply (coh_rewrite l _ (f s)); [done| |done|].
  - cbn. by rewrite lookup_alter_eq, Hs.
  - change (Slot.Name (f s)) with (Slot.Name s). by apply (coh_updSlot l f s).
Qed.

(** The end of the starter of a busy slot, known or found out. *)
Lemma coh_starter_gone n c :
  coh None c → coh (Some n) (set_activations (delete n (activations c)) c).
Proof. intros Hc. apply coh_set_activations; [intros k Hk; by rewrite lookup_delete_ne|by apply coh_weaken]. Qed.

Lemma coh_doStarterExited env n c : LifeInv c → coh None c → coh None (doStarterExited env n c).
Proof.
  intros HL Hc. unfold doStarterExited. destruct (activations c !! n) as [act|] eqn:Ea; [|by unseen].
  destruct (activation_busy n act c HL Ea) as (l & s & cl & El & Hcl & Hst). cbn zeta. set (c1 := releaseDeferredDeactivate n _).
  assert (coh (Some n) c1) as H1 by (unfold c1; unseen; by apply coh_starter_gone).
  assert (byName c1 = byName c ∧ heap c1 = heap c) as [Eb Eh] by (unfold c1, releaseDeferredDeactivate; by case_match).
  assert (lookupName n c1 = lookupName n c) as -> by (unfold lookupName, deref; by rewrite Eb, Eh).
  rewrite El, Hcl, (bool_decide_true _ Hst). apply lookupName_Some in El as [Hb Hs].
  pose proof (proj1 Hc n l s Hb Hs) as <-. unseen. apply (coh_setClaimedIdle env l s); [by rewrite Eb|by rewrite Eh|done].
Qed.

Lemma coh_final_exit env l s ad st r c :
  byName c !! Slot.Name s = Some l → heap c !! l = Some s → coh (Some (Slot.Name s)) c →
  coh None (persistSlot l (setClaimedIdle env l (updClaim l (Claim.SetFinal ad st r) c))).
Proof.
  intros Hb Hs Hc. set (s' := Slot.with_claim (Claim.SetFinal ad st r <$> Slot.claim s) s).
  apply (coh_setClaimedIdle env l s').
  - exact Hb.
  - unfold updClaim. cbn [updSlot set_heap heap]. by rewrite lookup_alter_eq, Hs.
  - apply (coh_updSlot l _ s); done.
Qed.

Lemma coh_doAdoptFailed env n c : LifeInv c → coh None c → coh None (doAdoptFailed env n c).
Proof.
  intros HL Hc. unfold doAdoptFailed. destruct (activations c !! n) as [act|] eqn:Ea; [|done].
  destruct (activation_busy n act c HL Ea) as (l & s & cl & El & Hcl & Hst). rewrite El.
  apply lookupName_Some in El as [Hb Hs]. pose proof (proj1 Hc n l s Hb Hs) as <-.
  destruct (readExitMarker env (sandbox act)) as [m|]; [|].
  2: { apply (coh_releaseSlot env l s); [exact Hb|exact Hs|]. by apply coh_weaken. }
  cbn zeta. rewrite Hcl, (bool_decide_true _ Hst). eapply coh_alike; [apply alike_reAdvertise|].
  set (c1 := emit _ (emit _ _)).
  assert (coh (Some (Slot.Name s)) c1) as H1 by (unfold c1; unseen; by apply coh_starter_gone).
  assert (byName c1 = byName c ∧ heap c1 = heap c) as [Eb Eh] by done.
  rewrite <-Eb in Hb. rewrite <-Eh in Hs. clearbody c1. by apply (coh_final_exit env l s).
Qed.

Lemma coh_doStarterHello n addr pid c : coh None c → coh None (doStarterHello n addr pid c).
Proof.
  intros Hc. unfold doStarterHello. destruct (activations c !! n) as [act|] eqn:Ea; [|done]. cbn zeta.
  destruct (negb (bool_decide (addr = "")) && _) eqn:E1, (negb (pid =? 0) && _) eqn:E2; cbn [orb];
    try (by apply (coh_activation_same _ n act)).
  all: set (c1 := set_activations _ c);
    assert (coh (Some n) c1) as H1 by (apply coh_set_activations; [intros k Hk; by rewrite lookup_insert_ne|by apply coh_weaken]);
    destruct (lookupName n c1) as [[l s]|] eqn:El; [|apply (coh_settled n); [done|unfold durable; by rewrite El]];
    apply lookupName_Some in El as [Hb Hs]; pose proof (proj1 H1 n l s Hb Hs) as Hn; apply (coh_persist l s); by rewrite ?Hn.
Qed.

Lemma actKey_vacateSend msg act act' sent : vacateSend msg act = (act', sent) → actKey act' = actKey act.
Proof. unfold vacateSend. case_match; by intros [= <- <-]. Qed.

Lemma coh_doVacate n hard c : coh None c → coh None (doVacate n hard c).
Proof.
  intros Hc. unfold doVacate. destruct (activations c !! n) as [act|] eqn:Ea; [|done]. cbn zeta.
  set (msg := if hard then _ else _). destruct (vacateSend msg (with_vacating act)) as [act' sent] eqn:Ev.
  assert (coh None (set_activations (<[n := act']> (activations c)) c)) as H1.
  { apply (coh_activation_same _ n act); [done| |done].
    by rewrite (actKey_vacateSend _ _ _ _ Ev). }
  case_match; by unseen.
Qed.

Lemma coh_doVacateEscalate n g c : coh None c → coh None (doVacateEscalate n g c).
Proof.
  intros Hc. unfold doVacateEscalate. destruct (activations c !! n) as [act|] eqn:Ea; [|done].
  destruct (negb _); [done|]. destruct (vacateSend _ act) as [act' sent] eqn:Ev. unseen.
  apply (coh_activation_same _ n act); [done|by eapply actKey_vacateSend|done].
Qed.

Lemma coh_doDeactivate id cmd r c : coh None c → coh None (doDeactivate id cmd r c).
Proof. intros Hc. unfold doDeactivate. repeat case_match; by unseen. Qed.

(** Whatever comes, but for the re-adoption. *)
Lemma coh_handle env ev c :
  RegInv machine (regOf c) → LifeInv c → no_adopt ev = true → coh None c → coh None (handle env ev c).
Proof.
  intros HI HL Hna Hc. destruct ev; try done; cbn [handle];
    try (by unseen); auto using coh_doMatchInfo, coh_doMatchTimeout, coh_doRequestClaim, coh_doAliveOK, coh_doActivateClaim,
      coh_doStarterUpdate, coh_doStarterFinal, coh_doStarterExited, coh_doStarterHello, coh_doAdoptFailed, coh_doDeactivate,
      coh_doVacate, coh_doVacateEscalate.
  - unfold doReleaseByClaimID. destruct (findSlotByClaimID _ c) as [[l s]|] eqn:Ef; [|done].
    apply findSlotByClaimID_Some in Ef as (Hl & Hs & _). destruct (live_byName machine c l s HI Hl Hs) as [Hb _].
    apply (coh_releaseSlot env l s); [done..|by apply coh_weaken].
  - destruct (lookupName slotName c) as [[l s]|] eqn:El; [|done]. apply lookupName_Some in El as [Hb Hs].
    pose proof (proj1 Hc _ l s Hb Hs) as Hn. apply (coh_releaseSlot env l s); [by rewrite Hn|done|by apply coh_weaken].
Qed.
End Handlers.
