(* ===== verification/Refit.v ===== *)
(** * The store of a run fits the slots it is taken up by

    A registry that carves again, one by one, dynamic slots another registry over the same
    configured slots has: what is still to be carved always fits.  Read for the core: when
    every claimed record of the store is of a slot the stopped startd had, the re-adoption
    by a fresh core never takes more than a p-slot has left. *)

From S2P Require Import Prelude GoLang ClassAd Claim Slot SlotFacts Persist Persister StarterMsg Reconnect.
From S2P Require Import Registry Core CoreFrame CoreDemo CoreReg CorePersist CoreInit Lifecycle ClaimIds CoreProps Adoption Restart Durable.

Import Core.

Local Open Scope Z_scope.
Local Open Scope ep_scope.

(** ** Registries over the same configured slots *)

Section Mirror.
Context (machine : string).
Implicit Types (r old : Reg) (l k : loc) (sh : shape).

(** A dynamic slot has the number of its parent. *)
Definition kin r : Prop :=
  ∀ l sh p psh, l ∈ r_dslots r → r_heap r !! l = Some sh → p ∈ r_slots r → r_heap r !! p = Some psh →
    sh_name psh = sh_parent sh → sh_id psh = sh_id sh.

(** The configured slots are the same, but for what they have left. *)
Definition fixed old r : Prop :=
  r_slots r = r_slots old ∧
  ∀ l, l ∈ r_slots old → set_res res_zero <$> r_heap r !! l = set_res res_zero <$> r_heap old !! l.

Lemma fixed_carve old r l p sub seq req :
  RegInv machine r → fixed old r → l ∈ r_slots r → r_heap r !! l = Some p → fixed old (reg_carve l p sub seq req r).
Proof.
  intros HI [Hs Hh] Hl Hp. split; [done|]. intros k Hk. rewrite <-Hh by done.
  assert (k ≠ r_next r) as Hne.
  { assert (k ∈ r_live r) as Hlive by (apply elem_of_app; left; by rewrite Hs).
    pose proof (ri_alloc _ _ HI k Hlive). intros ->. lia. }
  unfold reg_carve. cbn. rewrite lookup_insert_ne by done. rewrite lookup_insert. case_decide; [subst k|done]. by rewrite Hp.
Qed.

Lemma fixed_step old r r' : RegInv machine r → fixed old r → reg_step r r' → fixed old r'.
Proof.
  intros HI Hf Hst. destruct Hst as [|l p sub seq req Hl Hp|l d Hl Hd]; [done|by apply fixed_carve|].
  destruct Hf as [Hs Hh]. split; [done|]. intros k Hk. rewrite <-Hh by done.
  unfold reg_destroy. cbn. destruct (_ !! sh_parent d) as [q|]; [|done]. rewrite lookup_alter.
  case_decide; [subst q|done]. by destruct (r_heap r !! k).
Qed.

Lemma kin_carve r l p sub seq req :
  RegInv machine r → kin r → l ∈ r_slots r → r_heap r !! l = Some p → kin (reg_carve l p sub seq req r).
Proof.
  intros HI Hk Hl Hp k sh q qsh Hkd Hsh Hq Hqsh Hn. cbn in Hkd, Hq.
  assert (∀ j, j ∈ r_live r → ∀ s, r_heap (reg_carve l p sub seq req r) !! j = Some s →
    ∃ s0, r_heap r !! j = Some s0 ∧ set_res res_zero s = set_res res_zero s0) as Hold.
  { intros j Hj s Hs. cbn in Hs. rewrite lookup_insert_ne in Hs by (pose proof (ri_alloc _ _ HI j Hj); intros E; rewrite E in *; lia).
    rewrite lookup_insert in Hs. case_decide; [subst j|by eauto]. injection Hs as <-. eauto. }
  assert (q ∈ r_live r) as Hql by (apply elem_of_app; by left).
  destruct (Hold q Hql qsh Hqsh) as (q0 & Hq0 & Eq).
  assert (sh_name qsh = sh_name q0 ∧ sh_id qsh = sh_id q0) as [En Ei].
  { by split; [exact (f_equal sh_name Eq)|exact (f_equal sh_id Eq)]. }
  apply elem_of_app in Hkd as [Hkd|Hkd%list_elem_of_singleton].
  - destruct (Hold k ltac:(apply elem_of_app; by right) sh Hsh) as (s0 & Hs0 & Es).
    pose proof (f_equal sh_parent Es : sh_parent sh = _) as E1. pose proof (f_equal sh_id Es : sh_id sh = _) as E2.
    cbn in E1, E2. rewrite Ei, E2. apply (Hk k s0 q q0); try done. congruence.
  - subst k. cbn in Hsh. rewrite lookup_insert_eq in Hsh. injection Hsh as <-. cbn in Hn |- *.
    assert (q = l) as -> by (eapply (live_name_inj machine r q l); try done; [apply elem_of_app; by left|congruence]).
    congruence.
Qed.

Lemma kin_step r r' : RegInv machine r → kin r → reg_step r r' → kin r'.
Proof.
  intros HI Hk Hst. destruct Hst as [|l p sub seq req Hl Hp|l d Hl Hd]; [done|by apply kin_carve|].
  intros k sh q qsh Hkd Hsh Hq Hqsh Hn. cbn in Hq.
  assert (∀ j s, r_heap (reg_destroy d r) !! j = Some s → ∃ s0, r_heap r !! j = Some s0 ∧ set_res res_zero s = set_res res_zero s0) as Hold.
  { intros j s Hs. unfold reg_destroy in Hs. cbn in Hs. destruct (_ !! sh_parent d) as [x|]; [|by eauto].
    rewrite lookup_alter in Hs. case_decide; [subst x|by eauto]. apply fmap_Some in Hs as (s0 & Hs0 & ->). eauto. }
  destruct (Hold k sh Hsh) as (s0 & Hs0 & Es), (Hold q qsh Hqsh) as (q0 & Hq0 & Eq).
  pose proof (f_equal sh_parent Es : sh_parent sh = _) as E1. pose proof (f_equal sh_id Es : sh_id sh = _) as E2.
  pose proof (f_equal sh_name Eq : sh_name qsh = _) as E3. pose proof (f_equal sh_id Eq : sh_id qsh = _) as E4.
  cbn in E1, E2, E3, E4. rewrite E2, E4. apply (Hk k s0 q q0); try done; [|congruence].
  cbn in Hkd. by apply remove_first_elem in Hkd.
Qed.

Lemma fixed_kin_steps old r r' : RegInv machine r → fixed old r ∧ kin r → rtc reg_step r r' → fixed old r' ∧ kin r'.
Proof.
  intros HI Hf Hst. induction Hst as [|r r1 r2 H1 _ IH]; [done|].
  apply IH; [by apply (reg_step_inv machine r)|]. destruct Hf. split; [by eapply fixed_step|by eapply kin_step].
Qed.

(** Every dynamic slot of [r] is one of [old]. *)
Definition mirrored old r : Prop :=
  ∀ l sh, l ∈ r_dslots r → r_heap r !! l = Some sh →
    ∃ k dsh, k ∈ r_dslots old ∧ r_heap old !! k = Some dsh ∧
      sh_name dsh = sh_name sh ∧ sh_parent dsh = sh_parent sh ∧ sh_res dsh = sh_res sh.
Lemma mirrored_carve old r l p sub seq req k dsh :
  RegInv machine r → mirrored old r → l ∈ r_slots r → r_heap r !! l = Some p →
  k ∈ r_dslots old → r_heap old !! k = Some dsh → sh_name dsh = sh_name (child_shape p sub req) →
  sh_parent dsh = sh_name p → sh_res dsh = req → mirrored old (reg_carve l p sub seq req r).
Proof.
  intros HI Hm Hl Hp Hk Hdsh Hn Hpar Hres j sh Hj Hsh. cbn in Hj. apply elem_of_app in Hj as [Hj|Hj%list_elem_of_singleton].
  - apply (Hm j sh Hj). cbn in Hsh. assert (j ∈ r_live r) as Hlive by (apply elem_of_app; by right).
    rewrite lookup_insert_ne in Hsh by (pose proof (ri_alloc _ _ HI j Hlive); intros E; rewrite E in *; lia).
    rewrite lookup_insert_ne in Hsh; [done|]. intros ->. by eapply (slots_dslots_disjoint machine r).
  - subst j. cbn in Hsh. rewrite lookup_insert_eq in Hsh. injection Hsh as <-. by exists k, dsh.
Qed.

(** A dynamic slot of [old] that [r] does not have yet: what the slots of its parent hold in
    [r], and this one, is at most what they hold in [old]. *)
Lemma mirrored_sum old r (f : Slot.Resources → Z) k dsh :
  RegInv machine old → RegInv machine r → mirrored old r → (∀ x, res_ok x → 0 ≤ f x) →
  k ∈ r_dslots old → r_heap old !! k = Some dsh → r_byName r !! sh_name dsh = None →
  sumZ (kid_amount f (sh_parent dsh) (r_heap r)) (r_dslots r) + f (sh_res dsh)
  ≤ sumZ (kid_amount f (sh_parent dsh) (r_heap old)) (r_dslots old).
Proof.
  intros HO HI Hm Hf Hk Hdsh Hno.
  set (g := λ l, default l (r_heap r !! l ≫= λ sh, r_byName old !! sh_name sh)).
  assert (∀ l, l ∈ r_dslots r → ∃ sh gsh, r_heap r !! l = Some sh ∧ g l ∈ r_dslots old ∧ r_heap old !! g l = Some gsh ∧
    sh_name gsh = sh_name sh ∧ sh_parent gsh = sh_parent sh ∧ sh_res gsh = sh_res sh) as Hg.
  { intros l Hl. destruct (ri_alloc _ _ HI l) as [_ [sh Hsh]]; [apply elem_of_app; by right|].
    destruct (Hm l sh Hl Hsh) as (j & gsh & Hj & Hgsh & Hn & Hrest). exists sh, gsh.
    assert (g l = j) as ->; [|done]. unfold g. rewrite Hsh. cbn.
    rewrite (proj2 (ri_byName _ _ HO (sh_name sh) j)); [done|]. split; [apply elem_of_app; by right|eauto]. }
  rewrite (sumZ_ext _ (kid_amount f (sh_parent dsh) (r_heap old) ∘ g) (r_dslots r)).
  2: { intros l Hl. destruct (Hg l Hl) as (sh & gsh & H1 & _ & H2 & _ & H3 & H4). unfold kid_amount, compose.
       by rewrite H1, H2, H3, H4. }
  rewrite <-sumZ_fmap.
  assert (f (sh_res dsh) = sumZ (kid_amount f (sh_parent dsh) (r_heap old)) [k]) as ->.
  { cbn. unfold kid_amount. rewrite Hdsh, bool_decide_true by done. lia. }
  rewrite <-sumZ_app. apply sumZ_part.
  - apply NoDup_app. split_and!; [|intros x Hx ->%list_elem_of_singleton|apply NoDup_singleton].
    + apply NoDup_fmap_2_strong; [|by apply (NoDup_app (r_slots r)), (ri_nodup _ _ HI)].
      intros a b Ha Hb Hab. destruct (Hg a Ha) as (sa & ga & A1 & _ & A2 & A3 & _), (Hg b Hb) as (sb & gb & B1 & _ & B2 & B3 & _).
      apply (live_name_inj machine r a b sa sb HI); try done; [apply elem_of_app; by right..|congruence].
    + apply list_elem_of_fmap in Hx as (a & -> & Ha). destruct (Hg a Ha) as (sa & ga & A1 & _ & A2 & A3 & _).
      assert (r_byName r !! sh_name sa = Some a) as Hb by (apply (ri_byName _ _ HI); split; [apply elem_of_app; by right|eauto]).
      congruence.
  - intros x [Hx| ->%list_elem_of_singleton]%elem_of_app; [|done].
    apply list_elem_of_fmap in Hx as (a & -> & Ha). by destruct (Hg a Ha) as (_ & _ & _ & ? & _).
  - intros x Hx. unfold kid_amount. destruct (r_heap old !! x) as [sh|] eqn:E; [|done]. case_bool_decide; [|done].
    apply Hf. by destruct (ri_dslots _ _ HO x sh Hx E) as (_ & _ & _ & _ & ? & _).
Qed.

(** So it fits. *)
Lemma mirror_fits old r k dsh p psh :
  RegInv machine old → RegInv machine r → kin old → fixed old r → mirrored old r →
  k ∈ r_dslots old → r_heap old !! k = Some dsh → r_byName r !! sh_name dsh = None →
  p ∈ r_slots r → r_heap r !! p = Some psh → sh_name psh = sh_parent dsh →
  sh_type psh = Slot.SlotTypePartitionable ∧
  sh_name dsh = Slot.dynamicName (sh_id psh) (sh_sub dsh) (sh_machine psh) ∧
  res_ok (sh_res dsh) ∧ res_le (sh_res dsh) (sh_res psh).
Proof.
  intros HO HI Hkin [Hs Hh] Hm Hk Hdsh Hno Hp Hpsh Hn. rewrite Hs in Hp. pose proof (Hh p Hp) as E. rewrite Hpsh in E.
  symmetry in E. apply fmap_Some in E as (osh & Hosh & E).
  pose proof (f_equal sh_name E : sh_name psh = sh_name osh) as E1. pose proof (f_equal sh_id E : sh_id psh = sh_id osh) as E2.
  pose proof (f_equal sh_type E : sh_type psh = sh_type osh) as E3. pose proof (f_equal sh_full E : sh_full psh = sh_full osh) as E4.
  pose proof (f_equal sh_machine E : sh_machine psh = sh_machine osh) as E5.
  destruct (ri_dslots _ _ HO k dsh Hk Hdsh) as (Hdn & _ & _ & _ & Hok & q & qsh & Hq & Hqsh & Hqt & Hqn).
  assert (q = p) as -> by (eapply (live_name_inj machine old q p); try done; [apply elem_of_app; by left..|congruence]).
  rewrite Hosh in Hqsh. injection Hqsh as <-.
  destruct (ri_slots _ _ HO p osh Hp Hosh) as (_ & Hma & _ & _ & Hoc & _). destruct (Hoc Hqt) as [Hor Hof].
  rewrite <-Hs in Hp. destruct (ri_slots _ _ HI p psh Hp Hpsh) as (_ & _ & _ & _ & Hpc & _).
  destruct (Hpc ltac:(congruence)) as [_ Hpf]. split_and!; [congruence| |done|].
  - rewrite Hdn, E2, E5, Hma. f_equal. symmetry. rewrite Hs in Hp. by apply (Hkin k dsh p osh).
  - rewrite Hqn in Hof. rewrite Hn, E4, <-Hof in Hpf.
    pose proof (mirrored_sum old r Slot.Cpus k dsh HO HI Hm ltac:(intros; res_solve) Hk Hdsh Hno) as S1.
    pose proof (mirrored_sum old r Slot.MemoryMB k dsh HO HI Hm ltac:(intros; res_solve) Hk Hdsh Hno) as S2.
    pose proof (mirrored_sum old r Slot.DiskKB k dsh HO HI Hm ltac:(intros; res_solve) Hk Hdsh Hno) as S3.
    pose proof (f_equal Slot.Cpus Hpf) as F1. pose proof (f_equal Slot.MemoryMB Hpf) as F2. pose proof (f_equal Slot.DiskKB Hpf) as F3.
    cbn in F1, F2, F3. unfold res_ok, res_le in *. lia.
Qed.
End Mirror.
