(* ===== verification/Recovery.v ===== *)
(** * A restart loses no claim

    The store a stopped startd leaves behind describes every claim it held, and the next
    run, built from the same configuration, takes each of them back: what is durable about
    a slot is the same before and after.  The first part shows that the records of
    [Durable] stay coherent in every run of the daemon, the second that re-adoption
    inverts them. *)

From S2P Require Import Prelude GoLang ClassAd Claim Slot SlotFacts Persist Persister StarterMsg Reconnect.
From S2P Require Import Registry Core CoreFrame CoreDemo CoreReg CorePersist Shutdown CoreInit Lifecycle ClaimIds CoreProps Adoption Restart Durable Refit.

Import Core.

Local Open Scope Z_scope.
Local Open Scope ep_scope.

Section Adopt.
Context {CA : ClassAdLib} {SL : SecurityLib} {RS : Persist.RecordStore} {RSL : Persist.RecordStoreLaws RS}.
Context (machine : string).
Implicit Types (c : Core) (s : Slot.Slot) (env : Env) (l : loc) (rec : Persist.Record_).

(** ** One record *)

(** A record the core may have written for a claimed slot: of an idle one it says nothing
    about a starter. *)
Record written rec : Prop := {
  wr_norm : Persist.norm rec = rec;
  wr_state : Persist.State rec = "Claimed";
  wr_activity : Persist.Activity rec = "Busy" ∨
    Persist.Activity rec = "Idle" ∧ Persist.GlobalJobID rec = "" ∧ Persist.StarterPid rec = 0 ∧
    Persist.StarterSocket rec = "" ∧ Persist.StarterIpAddr rec = "" ∧ Persist.Sandbox rec = ""
}.

(** The record is one of this slot. *)
Definition describes rec s : Prop :=
  Slot.Name s = Persist.SlotName rec ∧ Slot.SlotType s = Persist.SlotType rec ∧
  if Slot.IsDynamic s
  then Slot.ParentName s = Persist.ParentSlotName rec ∧ Slot.SubID s = Persist.DSlotSubID rec ∧
       Slot.Res s = recordRes rec
  else Persist.ParentSlotName rec = "".

(** The record that would be written for a slot that has the claim of [rec]. *)
Lemma recordOf_adopted rec c s :
  describes rec s → written rec → Slot.state s = "Claimed" → Slot.activity s = Persist.Activity rec →
  (Persist.Activity rec = "Idle" → activations c !! Slot.Name s = None) →
  (Persist.Activity rec = "Busy" → ∃ act, activations c !! Slot.Name s = Some act ∧
     actKey act = (Persist.GlobalJobID rec, Persist.StarterPid rec, Persist.StarterSocket rec,
                   Persist.StarterIpAddr rec, Persist.Sandbox rec)) →
  timeless (Persist.norm (recordOf c s (adoptClaim rec))) = timeless (Persist.norm rec).
Proof.
  intros (Hn & Ht & Hd) [_ Hst Hact] Es Ea Hidle Hbusy. rewrite !timeless_norm.
  set (x := recordOf c s (adoptClaim rec)).
  assert ((Persist.GlobalJobID x, Persist.StarterPid x, Persist.StarterSocket x, Persist.StarterIpAddr x, Persist.Sandbox x)
    = (Persist.GlobalJobID rec, Persist.StarterPid rec, Persist.StarterSocket rec, Persist.StarterIpAddr rec,
       Persist.Sandbox rec)) as Hk.
  { cbn. destruct Hact as [Hb|(Hi & -> & -> & -> & -> & ->)].
    - destruct (Hbusy Hb) as (act & -> & Hact). exact Hact.
    - by rewrite (Hidle Hi). }
  injection Hk as K1 K2 K3 K4 K5. unfold Persist.norm, timeless, x. cbn.
  rewrite K1, K2, K3, K4, K5, Hn, Ht, Es, Ea, Hst. clear -Hd.
  destruct (Slot.IsDynamic s); [|by rewrite Hd]. destruct Hd as (-> & -> & ->). done.
Qed.

Lemma named_reg c : RegInv machine (regOf c) → named c.
Proof. intros HI n l s Hb Hs. by apply (lookupName_live machine c n l s HI), lookupName_Some. Qed.

Lemma keeps_refl o c : named c → keeps o c c.
Proof. intros Hn. by apply keeps_alike. Qed.

Lemma keeps_adoptStarter rec c : named c → keeps (Some (Persist.SlotName rec)) c (adoptStarter rec c).
Proof.
  intros Hn. unfold adoptStarter. cbn zeta. set (a := <[_ := _]> _).
  eapply keeps_trans; [by apply (keeps_alike _ _ (set_seqs (sandboxSeq c) (wrap64 (activationGen c + 1)) (S (nextCtx c)) c))|].
  eapply keeps_trans; [apply (keeps_set_activations _ a); [|done]|by apply keeps_alike].
  intros k Hk. unfold a. by rewrite lookup_insert_ne.
Qed.

Lemma keeps_adoptSlot rec st :
  named (as_core st) → keeps (Some (Persist.SlotName rec)) (as_core st) (as_core (adoptSlot rec st)).
Proof.
  intros Hn. unfold adoptSlot. destruct (lookupName _ (as_core st)) as [[l s]|] eqn:El; [|by apply keeps_storeDelete].
  case_bool_decide; [by apply keeps_refl|]. destruct (negb _); [by apply keeps_refl|].
  apply lookupName_Some in El as [Hb Hs]. pose proof (Hn _ l s Hb Hs) as Hname. cbn [as_core].
  set (f := Slot.SetClaimState _ _ _ _). set (c1 := startAliveLoop l _).
  assert (keeps (Some (Persist.SlotName rec)) (as_core st) c1) as H1.
  { pose proof (keeps_updSlot l f s (as_core st) Hs eq_refl Hn) as Hu. rewrite Hname in Hu.
    eapply keeps_trans; [exact Hu|]. apply keeps_alike; [apply Hu|apply alike_startAliveLoop]. }
  clearbody c1. destruct (_ && _); [|done]. eapply keeps_trans; [exact H1|]. apply keeps_adoptStarter, H1.
Qed.

(** The p-slot changes its free resources only. *)
Lemma keeps_reconstruct rec c p parent :
  RegInv machine (regOf c) → lookupName (Persist.ParentSlotName rec) c = Some (p, parent) →
  lookupName (Persist.SlotName rec) c = None → Slot.IsPartitionable parent = true →
  Persist.SlotName rec = Slot.dynamicName (Slot.SlotID parent) (Persist.DSlotSubID rec) (Slot.Machine parent) →
  keeps (Some (Persist.SlotName rec)) c (reconstructDSlot rec c).2.
Proof.
  intros HI Hp Hno Hpart Hname. destruct (reconstruct_eq rec c p parent Hp Hno Hname) as (d & q & -> & _ & Hd & _).
  cbn [snd]. pose proof (named_reg c HI) as Hn. apply lookupName_Some in Hp as [_ Hps].
  assert (keeps (Some (Persist.SlotName rec)) c (updSlot p (Slot.Carve (recordRes rec)) c)) as H1.
  { apply keeps_updSlot_same; [|done]. intros s Hs. rewrite Hps in Hs. injection Hs as <-. split; [done|]. split; [done|].
    unfold slotRec, recordOf. change (Slot.IsDynamic (Slot.Carve (recordRes rec) parent)) with (Slot.IsDynamic parent).
    assert (Slot.IsDynamic parent = false) as ->; [|done].
    apply bool_decide_eq_true in Hpart. apply bool_decide_eq_false. by rewrite Hpart. }
  eapply keeps_trans; [exact H1|].
  assert (keeps (Some (Slot.Name d)) (updSlot p (Slot.Carve (recordRes rec)) c)
            (addDSlot d (updSlot p (Slot.Carve (recordRes rec)) c))) as H2.
  { apply keeps_addDSlot; [|apply H1]. intros n. exact (next_unfiled machine c n HI). }
  rewrite Hd in H2. eapply keeps_trans; [exact H2|]. apply keeps_alike; [apply H2|apply alike_set_dslotSeq].
Qed.

Lemma keeps_adoptRecord rec st :
  RegInv machine (regOf (as_core st)) → record_fits (as_core st) rec →
  keeps (Some (Persist.SlotName rec)) (as_core st) (as_core (adoptRecord st rec)).
Proof.
  intros HI Hfit. pose proof (named_reg _ HI) as Hn. unfold adoptRecord.
  destruct (EqualFold (Persist.State rec) "Claimed") eqn:Es; cbn [negb]; [|by apply keeps_refl].
  destruct (EqualFold (Persist.SlotType rec) _) eqn:Ed; [|by apply keeps_adoptSlot]. set (c := as_core st) in *.
  assert (keeps (Some (Persist.SlotName rec)) c (reconstructDSlot rec c).2) as H1.
  { destruct (lookupName (Persist.ParentSlotName rec) c) as [[p parent]|] eqn:Ep.
    - destruct (lookupName (Persist.SlotName rec) c) as [[l s]|] eqn:El.
      + unfold reconstructDSlot. rewrite Ep, El. by apply keeps_refl.
      + destruct (Hfit Es Ed p parent Ep El) as (Hpart & Hname & _). by apply (keeps_reconstruct rec c p parent).
    - unfold reconstructDSlot. rewrite Ep. by apply keeps_refl. }
  destruct (reconstructDSlot rec c) as [ok c1]. cbn [snd] in H1.
  destruct ok; eapply keeps_trans; [exact H1| |exact H1|].
  - apply (keeps_adoptSlot rec (mkAdoptState c1 _ _)), H1.
  - apply keeps_storeDelete, H1.
Qed.

(** *** The record's own slot *)

Lemma adoptSlot_durable rec st l s :
  honourable rec → written rec → named (as_core st) → lookupName (Persist.SlotName rec) (as_core st) = Some (l, s) →
  describes rec s → activations (as_core st) !! Persist.SlotName rec = None →
  let c' := as_core (adoptSlot rec st) in
  durable c' (Persist.SlotName rec) = Some (timeless (Persist.norm rec)) ∧ pers c' = pers (as_core st).
Proof.
  intros [Hid Himp Hsock] Hw Hn Hl Hd Ha. cbn zeta. unfold adoptSlot. rewrite Hl, (bool_decide_false _ Hid), Himp.
  apply lookupName_Some in Hl as [Hb Hs]. cbn [negb as_core]. set (c := as_core st) in *.
  set (f := Slot.SetClaimState _ _ _ _). set (c1 := startAliveLoop l _). set (busy := EqualFold _ _) in *.
  assert (byName c1 = byName c ∧ heap c1 !! l = Some (f s) ∧ activations c1 = activations c ∧ pers c1 = pers c) as (B1 & B2 & B3 & B4).
  { unfold c1, startAliveLoop. cbn. rewrite lookup_alter_eq, Hs. cbn. by rewrite lookup_alter_eq, Hs. }
  assert (Slot.Name s = Persist.SlotName rec) as Hname by apply Hd.
  assert (busy = bool_decide (Persist.Activity rec = "Busy")) as Hbusy
    by (unfold busy; destruct (wr_activity _ Hw) as [-> | [-> _]]; reflexivity).
  clearbody c1. assert (∀ c2, byName c2 = byName c1 → heap c2 = heap c1 → durable c2 (Persist.SlotName rec) = slotRec c2 (f s)) as Hat.
  { intros c2 E1 E2. unfold durable, lookupName, deref. by rewrite E1, B1, Hb, E2, B2. }
  assert (∀ c2, (Persist.Activity rec = "Idle" → activations c2 !! Persist.SlotName rec = None) →
    (Persist.Activity rec = "Busy" → ∃ act, activations c2 !! Persist.SlotName rec = Some act ∧
       actKey act = (Persist.GlobalJobID rec, Persist.StarterPid rec, Persist.StarterSocket rec,
                     Persist.StarterIpAddr rec, Persist.Sandbox rec)) →
    slotRec c2 (f s) = Some (timeless (Persist.norm rec))) as Hrec.
  { intros c2 H1 H2. unfold slotRec. rewrite bool_decide_true by done. change (Slot.claim (f s)) with (Some (adoptClaim rec)).
    cbn [fmap option_fmap option_map]. f_equal. apply recordOf_adopted; try done.
    - change (activityOf busy = Persist.Activity rec). rewrite Hbusy.
      by destruct (wr_activity _ Hw) as [-> | [-> _]].
    - intros Hi. change (activations c2 !! Slot.Name s = None). rewrite Hname. by apply H1.
    - intros Hi. change (Slot.Name (f s)) with (Slot.Name s). rewrite Hname. by apply H2. }
  destruct (wr_activity _ Hw) as [Hb2|[Hi _]].
  - rewrite Hbusy, Hb2. rewrite bool_decide_true by done. cbn [andb]. rewrite (bool_decide_false (Persist.StarterSocket rec = "")).
    2: { apply Hsock. fold busy. by rewrite Hbusy, Hb2. }
    cbn [negb]. split; [|done]. rewrite Hat by done. apply Hrec; [by rewrite Hb2|]. intros _. eexists. split; [apply lookup_insert_eq|done].
  - rewrite Hbusy, Hi. rewrite bool_decide_false by done. cbn [andb]. split; [|done]. rewrite Hat by done.
    apply Hrec; [|by rewrite Hi]. intros _. by rewrite B3.
Qed.

(** The record has a slot to go to: the one of its name, or a p-slot that carved it. *)
Definition homed rec c : Prop :=
  if EqualFold (Persist.SlotType rec) Slot.SlotTypeDynamic
  then Persist.SlotType rec = Slot.SlotTypeDynamic ∧ filed c (Persist.SlotName rec) = None ∧
       is_Some (filed c (Persist.ParentSlotName rec))
  else filed c (Persist.SlotName rec) = Some (Persist.SlotName rec, Persist.SlotType rec) ∧
       Persist.ParentSlotName rec = "".

Lemma filed_Some c n x : filed c n = Some x → ∃ l s, lookupName n c = Some (l, s) ∧ x = (Slot.Name s, Slot.SlotType s).
Proof. unfold filed. intros ([l s] & Hl & ->)%fmap_Some. by exists l, s. Qed.

Lemma adoptRecord_durable rec st :
  RegInv machine (regOf (as_core st)) → record_fits (as_core st) rec → honourable rec → written rec →
  homed rec (as_core st) → activations (as_core st) !! Persist.SlotName rec = None →
  let c' := as_core (adoptRecord st rec) in
  durable c' (Persist.SlotName rec) = Some (timeless (Persist.norm rec)) ∧ pers c' = pers (as_core st).
Proof.
  intros HI Hfit Hh Hw Hhome Ha. pose proof (named_reg _ HI) as Hn. cbn zeta. unfold adoptRecord.
  assert (EqualFold (Persist.State rec) "Claimed" = true) as Es by (by rewrite (wr_state _ Hw)). rewrite Es. cbn [negb].
  unfold homed in Hhome. destruct (EqualFold (Persist.SlotType rec) _) eqn:Ed.
  - destruct Hhome as (Ht & Hno & [x Hx]). destruct (filed_Some _ _ _ Hx) as (p & parent & Hp & _).
    assert (lookupName (Persist.SlotName rec) (as_core st) = None) as Hnone by (by apply fmap_None in Hno).
    destruct (Hfit Es Ed p parent Hp Hnone) as (Hpart & Hname & _).
    pose proof (kp_named _ _ _ (keeps_reconstruct rec _ p parent HI Hp Hnone Hpart Hname)) as Hk. revert Hk.
    destruct (reconstruct_eq rec _ p parent Hp Hnone Hname) as (d & q & -> & Hl & Hd & _ & _ & T1 & T2 & T3 & T4).
    cbn [snd]. intros Hk. set (c1 := set_dslotSeq _ _) in *. set (st1 := mkAdoptState c1 _ _).
    apply (lookupName_live machine) in Hp as (_ & Hps & Hpn); [|done].
    destruct (adoptSlot_durable rec st1 (nextLoc (as_core st)) d Hh Hw) as [H1 H2]; [done|done| |done|done].
    split; [done|]. split; [congruence|]. unfold Slot.IsDynamic. rewrite T1, bool_decide_true by done. by rewrite T2, T3, T4.
  - destruct Hhome as (Hf & Hpar). destruct (filed_Some _ _ _ Hf) as (l & s & Hl & [= Hsn Hst]).
    apply (adoptSlot_durable rec st l s); try done. split; [done|]. split; [done|].
    replace (Slot.IsDynamic s) with false; [done|]. symmetry. apply bool_decide_eq_false. rewrite <-Hst.
    intros He. by rewrite He in Ed.
Qed.

(** ** The whole store *)

Lemma adoptSlot_filed rec st n : filed (as_core (adoptSlot rec st)) n = filed (as_core st) n.
Proof.
  unfold adoptSlot. destruct (lookupName _ (as_core st)) as [[l s]|]; [|apply filed_storeDelete].
  case_bool_decide; [done|]. destruct (negb _); [done|]. cbn [as_core].
  set (f := Slot.SetClaimState _ _ _ _). set (c1 := startAliveLoop l _).
  assert (filed c1 n = filed (as_core st) n) as H1.
  { unfold c1. rewrite (alike_filed _ _ n (alike_startAliveLoop l _)).
    unfold filed, lookupName, deref. cbn. destruct (byName (as_core st) !! n) as [k|]; [|done]. rewrite lookup_alter.
    case_decide; [subst k|done]. by destruct (heap (as_core st) !! l). }
  by destruct (_ && _).
Qed.

Lemma adoptRecord_filed rec st n :
  RegInv machine (regOf (as_core st)) → record_fits (as_core st) rec →
  is_Some (filed (as_core st) n) → is_Some (filed (as_core (adoptRecord st rec)) n).
Proof.
  intros HI Hfit Hs. destruct (decide (n = Persist.SlotName rec)) as [->|Hne].
  2: { destruct (kp_at _ _ _ (keeps_adoptRecord rec st HI Hfit) n ltac:(congruence)) as (_ & _ & ->). done. }
  unfold adoptRecord. destruct (negb _); [done|]. destruct (EqualFold _ _); [|by rewrite adoptSlot_filed].
  destruct Hs as [x Hx]. destruct (filed_Some _ _ _ Hx) as (l & s & Hl & _). unfold reconstructDSlot. rewrite Hl.
  destruct (lookupName (Persist.ParentSlotName rec) (as_core st)) as [[p parent]|].
  - rewrite adoptSlot_filed. cbn [as_core]. by rewrite Hx.
  - cbn [as_core]. by rewrite filed_storeDelete, Hx.
Qed.

Lemma records_fit_app st xs ys :
  records_fit st (xs ++ ys) ↔ records_fit st xs ∧ records_fit (foldl adoptRecord st xs) ys.
Proof.
  revert st. induction xs as [|x xs IH]; intros st; cbn; [naive_solver|]. rewrite IH. naive_solver.
Qed.

Lemma adopt_fold_reg recs st :
  RegInv machine (regOf (as_core st)) → records_fit st recs →
  RegInv machine (regOf (as_core (foldl adoptRecord st recs))).
Proof.
  revert st. induction recs as [|rec recs IH]; intros st HI Hf; [done|]. destruct Hf as [Hfit Hf]. cbn.
  apply IH; [|done]. eapply reg_step_inv; [exact HI|]. by apply (adoptRecord_sim machine).
Qed.

(** Records of other slots change nothing here, and no slot disappears. *)
Lemma adopt_fold_same recs st n :
  RegInv machine (regOf (as_core st)) → records_fit st recs →
  let c' := as_core (foldl adoptRecord st recs) in
  (n ∉ Persist.SlotName <$> recs → same_at (as_core st) c' n) ∧
  (is_Some (filed (as_core st) n) → is_Some (filed c' n)).
Proof.
  revert st. induction recs as [|rec recs IH]; intros st HI Hf; [done|]. destruct Hf as [Hfit Hf]. cbn [foldl].
  destruct (IH (adoptRecord st rec)) as [H1 H2]; [eapply reg_step_inv; [exact HI|by apply (adoptRecord_sim machine)]|done|].
  split.
  - intros Hni. rewrite fmap_cons, not_elem_of_cons in Hni. destruct Hni as [Hne Hni].
    destruct (kp_at _ _ _ (keeps_adoptRecord rec st HI Hfit) n ltac:(congruence)) as (A1 & A2 & A3).
    destruct (H1 Hni) as (B1 & B2 & B3). split_and!; congruence.
  - intros Hs. by apply H2, adoptRecord_filed.
Qed.

Lemma adopt_fold_durable recs st rec :
  RegInv machine (regOf (as_core st)) → records_fit st recs → honours (as_core st) recs →
  rec ∈ recs → written rec → homed rec (as_core st) →
  let c' := as_core (foldl adoptRecord st recs) in
  durable c' (Persist.SlotName rec) = Some (timeless (Persist.norm rec)) ∧
  onDisk c' (Persist.SlotName rec) = onDisk (as_core st) (Persist.SlotName rec).
Proof.
  intros HI Hf [Hnd Hh] Hin Hw Hhome. apply list_elem_of_split in Hin as (xs & ys & ->).
  rewrite fmap_app, fmap_cons in Hnd. apply NoDup_app in Hnd as (Hnx & Hni & Hny). apply NoDup_cons in Hny as [Hny _].
  assert (Persist.SlotName rec ∉ Persist.SlotName <$> xs) as Hnx'.
  { intros Hi. apply (Hni _ Hi). apply list_elem_of_here. }
  rewrite records_fit_app in Hf. destruct Hf as [Hfx [Hfit Hfy]]. cbn zeta. rewrite foldl_app. cbn [foldl].
  set (st1 := foldl adoptRecord st xs) in *. pose proof (adopt_fold_reg xs st HI Hfx) as HI1. fold st1 in HI1.
  destruct (adopt_fold_same xs st (Persist.SlotName rec) HI Hfx) as [Hs _]. destruct (Hs Hnx') as (_ & Ho & Hfi). fold st1 in Ho, Hfi.
  assert (claimedRecord rec = true) as Hc by (unfold claimedRecord; by rewrite (wr_state _ Hw)).
  destruct (Hh rec ltac:(set_solver) Hc) as [Hhon Hvac].
  assert (lifeOf (as_core st1) (Persist.SlotName rec) = lifeOf (as_core st) (Persist.SlotName rec)) as Hlife.
  { destruct (adopt_fold_life machine xs st HI Hfx) as [Had _]; [split; [done|]; intros r Hr; apply Hh; set_solver|].
    destruct (Had (Persist.SlotName rec)) as [?|(r & Hr & _ & He & _)]; [done|]. exfalso. apply Hnx'. rewrite <-He.
    by apply list_elem_of_fmap_2. }
  assert (homed rec (as_core st1)) as Hhome1.
  { unfold homed in *. rewrite Hfi. case_match; [|done]. destruct Hhome as (H1 & H2 & H3). split_and!; [done..|].
    by apply (adopt_fold_same xs st (Persist.ParentSlotName rec) HI Hfx). }
  destruct (adoptRecord_durable rec st1 HI1 Hfit Hhon Hw Hhome1) as [D1 D2].
  { apply isS_false. unfold vacant in Hvac. rewrite <-Hlife in Hvac. by apply vacant_quiet in Hvac as [? _]. }
  destruct (adopt_fold_same ys (adoptRecord st1 rec) (Persist.SlotName rec)) as [Hy _]; [|done|].
  { eapply reg_step_inv; [exact HI1|]. by apply (adoptRecord_sim machine). }
  destruct (Hy Hny) as (E1 & E2 & _). split; [by rewrite E1|]. rewrite E2. unfold onDisk in *. by rewrite D2.
Qed.

Lemma doAdopt_alike env c p :
  pers c = Some p →
  alike (as_core (foldl adoptRecord (mkAdoptState c ∅ 0) (Persist.rs_list (store p)))) (doAdopt env c).
Proof.
  intros Hp. apply alike_erase; [by apply doAdopt_erase|]. unfold doAdopt. rewrite Hp. set (st := foldl _ _ _).
  set (c1 := foldl _ (as_core st) _).
  assert (pers c1 = pers (as_core st)) as H1.
  { apply pers_foldl. intros c2 x. by destruct (alike_refresh x.2 c2) as (_ & _ & _ & ?). }
  case_match; [|done]. rewrite <-H1. by destruct (alike_reAdvertise env c1) as (_ & _ & _ & ?).
Qed.
End Adopt.

(** ** Runs *)

Section Runs.
Context {CA : ClassAdLib} {SL : SecurityLib} {SLL : SecurityLaws SL} {RS : Persist.RecordStore} {RSL : Persist.RecordStoreLaws RS}.
Hypothesis mint_total : ∀ sinful bday n cmds, is_Some (MintClaimSession sinful bday n cmds).
Hypothesis put_accepts : ∀ r s, record_wf r → is_Some (Persist.rs_put r s).
Context (machine : string).
Implicit Types (c : Core) (s : Slot.Slot) (env : Env) (l : loc) (rec : Persist.Record_) (ev : Event).

(** A startd about to take its store up: nothing is claimed or on its way to the store yet, and the
    claimed records are ones the core wrote for slots it still has. *)
Record faithful c : Prop := {
  fa_adopts : adopts c;
  fa_unclaimed : all_unclaimed c;
  fa_idle p : pers c = Some p → idle p;
  fa_written rec : rec ∈ records c → claimedRecord rec = true → written rec ∧ homed rec c;
  fa_filed rec p : pers c = Some p → rec ∈ records c → claimedRecord rec = true →
    Persist.rs_get (Persist.SlotName rec) (store p) = Some rec
}.

Definition allowed ev c : Prop :=
  event_ok ev c ∧ (no_adopt ev = true ∨ (∃ d, ev = EvAdopt d) ∧ faithful c).

(** The configured slots are still there. *)
Record Inv (r0 : Reg) c : Prop := {
  iv_reg : RegInv machine (regOf c);
  iv_life : LifeInv c;
  iv_coh : coh None c;
  iv_fixed : fixed r0 (regOf c) ∧ kin (regOf c)
}.

Lemma inv_quiet r0 c c' : erase c' = erase c → pers c' = pers c → Inv r0 c → Inv r0 c'.
Proof.
  intros He Hp [H1 [H2 H2'] H3 H4]. pose proof (regOf_of_erase _ _ He) as Hr. split; rewrite ?Hr; try done.
  - split; [by apply (f_equal minter) in He; cbn in He; rewrite He|]. intros n. by rewrite (life_of_erase _ _ n He).
  - eapply coh_alike; [by apply alike_erase|done].
Qed.

Lemma unclaimed_durable c n : all_unclaimed c → durable c n = None.
Proof.
  intros Hu. unfold durable. destruct (Hu n) as [Hl|[part Hl]]; unfold lifeOf, lifeWith in Hl;
    destruct (lookupName n c) as [[l s]|]; try done. cbn in *. injection Hl as Hs _ _ _ _ _ _.
  unfold slotRec. by rewrite Hs.
Qed.

Lemma life_durable c n r : durable c n = Some r → sl_state <$> lf_slot (lifeOf c n) = Some "Claimed".
Proof.
  unfold durable, lifeOf. destruct (lookupName n c) as [[l s]|]; [|done]. cbn. unfold slotRec.
  case_bool_decide as Hs; [|done]. intros _. cbn. by rewrite Hs.
Qed.

(** After the re-adoption the records say what the slots are. *)
Lemma coh_adopt env d c :
  RegInv machine (regOf c) → event_ok (EvAdopt d) c → faithful c → coh None (handle env (EvAdopt d) c).
Proof.
  intros HI Hok [Had Hu Hidle Hwr Hfi]. cbn [handle]. unseen. destruct Hok as [Hcnt Hfit].
  destruct (pers c) as [p|] eqn:Ep.
  2: { unfold doAdopt. rewrite Ep. split; [by apply (named_reg machine)|]. intros n _ [? ?]. congruence. }
  eapply coh_alike; [by apply doAdopt_alike|]. unfold records in *. rewrite Ep in *.
  assert (honours c (Persist.rs_list (store p))) as Hh.
  { destruct Had as [Hnd Hrec _]. unfold records in *. rewrite Ep in *. split; [done|]. intros rec Hin Hc.
    destruct (Hrec rec Hin Hc) as [? Hp]. split; [done|]. by apply all_unclaimed_vacant. }
  set (c' := as_core _). assert (RegInv machine (regOf c')) as HI' by (by apply adopt_fold_reg).
  split; [by apply (named_reg machine)|]. intros n _ _ r Hr.
  destruct (adopt_fold_life machine _ (mkAdoptState c ∅ 0) HI Hfit Hh) as [Hlife _].
  destruct (Hlife n) as [Hl|(rec & Hin & Hc & <- & _)].
  - apply life_durable in Hr. change (lifeOf c' n = lifeOf c n) in Hl. rewrite Hl in Hr. by destruct (Hu n) as [Hx|[part Hx]]; rewrite Hx in Hr.
  - destruct (Hwr rec Hin Hc) as [Hw Hhome].
    destruct (adopt_fold_durable machine _ (mkAdoptState c ∅ 0) rec HI Hfit Hh Hin Hw Hhome) as [H1 H2].
    fold c' in H1, H2. rewrite H1 in Hr. injection Hr as <-. rewrite H2. unfold onDisk. cbn [as_core]. rewrite Ep. cbn.
    rewrite (idle_view p) by (by apply Hidle). by rewrite (Hfi rec p), (wr_norm _ Hw).
Qed.

Lemma inv_handle r0 env ev c : allowed ev c → Inv r0 c → Inv r0 (handle env ev c).
Proof.
  intros [Hok Ha] [HI HL HC HF]. pose proof (handle_sim machine env ev c HI Hok) as Hsim. split.
  - by apply (reg_steps_inv machine _ _ HI).
  - destruct Ha as [Hna|[[d ->] Hf]]; [by apply (handle_life machine mint_total)|].
    apply (serving_event_life mint_total machine env (EvAdopt d) false c); try done; [intros _; apply Hf|].
    right. split; [done|]. split; [by eexists|apply Hf].
  - destruct Ha as [Hna|[[d ->] Hf]]; [by apply (coh_handle machine)|by apply coh_adopt].
  - by eapply (fixed_kin_steps machine).
Qed.

Lemma inv_writer r0 c p p' :
  persister_wf p → pers c = Some p → pstep LTau p p' → Inv r0 c → Inv r0 (set_pers (Some p') c).
Proof.
  intros Hwf Hp Hs [HI HL [Hn HC] HF]. split; [done|done| |done]. split; [done|]. intros n Hne _ r Hr.
  specialize (HC n Hne ltac:(by rewrite Hp) r Hr). unfold onDisk in *. rewrite Hp in HC. cbn in *.
  by rewrite (pstep_view put_accepts _ _ _ n Hwf Hs).
Qed.

Lemma inv_supervise r0 n act act' msg c :
  activations c !! n = Some act → vacateSend msg act' = (act, true) → Inv r0 c →
  Inv r0 (set_activations (<[n := act']> (activations c)) c).
Proof.
  intros Ha Hv [HI [HL HL'] HC HF]. split; [done|split; [done|]|apply (coh_activation_same _ n act)|done]; try done.
  - intros k. rewrite life_act_insert by (by eexists). done.
  - by rewrite (actKey_vacateSend _ _ _ _ Hv).
Qed.

(** Every run of the daemon, whether it is serving, stopping or stopped. *)
Lemma prun_wf ls p p' : persister_wf p → Forall label_wf ls → prun ls p p' → persister_wf p'.
Proof.
  intros Hwf Hls Hr. induction Hr as [|lb ls p p' p'' Hs Hr IH]; [done|]. apply Forall_cons in Hls as [Hl Hls].
  apply IH; [by eapply persister_wf_step|done].
Qed.

Import Shutdown.

Lemma ran_inv r0 c0 p0 d :
  pers c0 = Some p0 → idle p0 → persister_wf p0 → Inv r0 c0 →
  ran allowed c0 d → Forall label_wf (plog d) → Inv r0 (core d).
Proof.
  intros Hp Hi Hwf H0 Hr. induction Hr as [|lb d d' Hr IH Hs Ha]; intros Hlog; [done|].
  pose proof (ran_ok _ _ _ _ Hp Hi Hr) as [(p & Hq & Hrun & Hb & _) _ _ _].
  assert (Forall label_wf (plog d)) as Hlog0.
  { destruct Hs; cbn in *; rewrite ?Forall_app in Hlog; try (by destruct Hlog); try done. by destruct (pers c). }
  specialize (IH Hlog0). pose proof (prun_wf _ _ _ Hwf Hlog0 Hrun) as Hwf'.
  destruct Hs; cbn in *; try done.
  - by eapply inv_supervise.
  - apply inv_handle; [|done]. by apply Ha.
  - apply (inv_quiet r0 c); [|apply pers_tick|done]. unfold tick. destruct (haveAdv _); [apply erase_Advertise|done].
  - apply (inv_quiet r0 c); [|apply pers_shutdown|done]. unfold shutdown, Invalidate. destruct (haveAdv _); [|done].
    apply erase_foldl. intros c' l. destruct (heap c' !! l); [apply erase_InvalidateSlot|done].
  - match goal with H : takes _ _ _ _ _ |- _ => destruct H as [fin q He|fin q b Hne Hpm] end.
    + by rewrite set_pers_same.
    + simplify_eq. by apply (inv_writer r0 c q); [done|done|apply PTake|].
  - simplify_eq. by eapply inv_writer; [exact Hwf'|done|eapply PCommit|].
  - by destruct (pers c).
Qed.

(** When [Stop] has returned, the store has the records. *)
Lemma stopped_store r0 c0 p0 d p n r :
  pers c0 = Some p0 → idle p0 → persister_wf p0 → Inv r0 c0 → ran allowed c0 d → Forall label_wf (plog d) →
  stopper d = SReturned → pers (core d) = Some p → durable (core d) n = Some r →
  ∃ rec, Persist.rs_get n (store p) = Some rec ∧ timeless rec = r.
Proof.
  intros Hp Hi Hwf H0 Hr Hlog He Hq Hd. pose proof (ran_inv r0 c0 p0 d Hp Hi Hwf H0 Hr Hlog) as [_ _ [_ HC] _].
  specialize (HC n ltac:(done) ltac:(by rewrite Hq) r Hd). unfold onDisk in HC. rewrite Hq in HC. cbn in HC.
  destruct (ran_ok _ _ _ _ Hp Hi Hr) as [(p' & Hq' & _ & Hb & Hpe & _) _ _ Hs]. rewrite He in Hs. destruct Hs as [_ Hw].
  rewrite Hw in *. rewrite Hq in Hq'. injection Hq' as <-.
  rewrite (idle_view p) in HC by done. apply fmap_Some in HC as (rec & ? & ->). by exists rec.
Qed.
End Runs.

(** ** The next run *)

Section Restart.
Context {CA : ClassAdLib} {SL : SecurityLib} {SLL : SecurityLaws SL} {RS : Persist.RecordStore} {RSL : Persist.RecordStoreLaws RS}.
Implicit Types (c : Core) (s : Slot.Slot) (env : Env) (l : loc) (rec : Persist.Record_) (ev : Event).

(** The same configuration gives the same registry, whenever and wherever the startd runs. *)
Lemma BuildSlots_shapes h h' cf hostname sinful sinful' total t t' :
  shapeOf <$> Slot.BuildSlots h cf hostname sinful total t = shapeOf <$> Slot.BuildSlots h' cf hostname sinful' total t'.
Proof.
  unfold Slot.BuildSlots. destruct (Slot.partitionableConfigured cf); [done|].
  unfold Slot.BuildStaticSlots. rewrite !fmap_imap. by apply imap_ext.
Qed.

Lemma New_reg opts opts' ss ss' m m' st st' :
  shapeOf <$> ss = shapeOf <$> ss' → regOf (New opts ss m st) = regOf (New opts' ss' m' st').
Proof.
  intros Hs. unfold New. rewrite !reg_prime. unfold regOf. cbn.
  assert (length ss = length ss') as Hlen by (by apply (f_equal length) in Hs; rewrite !length_fmap in Hs).
  assert (Slot.Name <$> ss = Slot.Name <$> ss') as Hn.
  { apply (f_equal (fmap (M:=list) sh_name)) in Hs. by rewrite <-!list_fmap_compose in Hs. }
  rewrite Hlen, Hn. f_equal. apply map_eq. intros l. rewrite !lookup_fmap, !lookup_map_seq_0.
  apply (f_equal (.!! l)) in Hs. by rewrite !list_lookup_fmap in Hs.
Qed.

(** *** What a record of a claimed slot says *)

Lemma norm_read rec x : timeless rec = timeless (Persist.norm x) → Persist.norm rec = rec.
Proof.
  intros H. assert (Persist.ParentSlotName rec = Persist.ParentSlotName (Persist.norm x)) as Hp
    by exact (f_equal Persist.ParentSlotName H).
  unfold Persist.norm at 1. case_bool_decide as He; [|done]. rewrite He in Hp.
  assert (Persist.ParentSlotName x = "") as Hx by (unfold Persist.norm in Hp; by case_bool_decide).
  unfold Persist.norm in H. rewrite Hx, bool_decide_true in H by done.
  pose proof (f_equal Persist.DSlotSubID H) as H1. pose proof (f_equal Persist.Cpus H) as H2.
  pose proof (f_equal Persist.MemoryMB H) as H3. pose proof (f_equal Persist.DiskKB H) as H4. cbn in H1, H2, H3, H4.
  clear H. destruct rec. cbn in *. by subst.
Qed.

(** The fields of a record that [norm] leaves alone. *)
Lemma norm_fields x :
  let y := Persist.norm x in
  Persist.SlotName y = Persist.SlotName x ∧ Persist.State y = Persist.State x ∧ Persist.Activity y = Persist.Activity x ∧
  Persist.SlotType y = Persist.SlotType x ∧ Persist.ParentSlotName y = Persist.ParentSlotName x ∧
  Persist.GlobalJobID y = Persist.GlobalJobID x ∧ Persist.StarterPid y = Persist.StarterPid x ∧
  Persist.StarterSocket y = Persist.StarterSocket x ∧ Persist.StarterIpAddr y = Persist.StarterIpAddr x ∧
  Persist.Sandbox y = Persist.Sandbox x.
Proof. cbn zeta. unfold Persist.norm. by case_bool_decide. Qed.

Lemma durable_Some c n r :
  durable c n = Some r → ∃ l s cl, lookupName n c = Some (l, s) ∧ Slot.claim s = Some cl ∧
    Slot.state s = "Claimed" ∧ r = timeless (Persist.norm (recordOf c s cl)).
Proof.
  unfold durable. destruct (lookupName n c) as [[l s]|]; [|done]. cbn. unfold slotRec. case_bool_decide; [|done].
  intros (cl & Hcl & ->)%fmap_Some. by exists l, s, cl.
Qed.

Lemma durable_written c n rec : LifeInv c → durable c n = Some (timeless rec) → named c → written rec ∧ Persist.SlotName rec = n.
Proof.
  intros HL Hd Hn. destruct (durable_Some _ _ _ Hd) as (l & s & cl & Hl & Hcl & Hst & Hr).
  apply lookupName_Some in Hl as [Hb Hs]. pose proof (Hn n l s Hb Hs) as Hname.
  destruct (norm_fields (recordOf c s cl)) as (F1 & F2 & F3 & _ & _ & F4 & F5 & F6 & F7 & F8).
  pose proof (f_equal Persist.SlotName Hr) as G1. pose proof (f_equal Persist.State Hr) as G2.
  pose proof (f_equal Persist.Activity Hr) as G3. pose proof (f_equal Persist.GlobalJobID Hr) as G4.
  pose proof (f_equal Persist.StarterPid Hr) as G5. pose proof (f_equal Persist.StarterSocket Hr) as G6.
  pose proof (f_equal Persist.StarterIpAddr Hr) as G7. pose proof (f_equal Persist.Sandbox Hr) as G8.
  cbn [timeless Persist.SlotName Persist.State Persist.Activity Persist.GlobalJobID Persist.StarterPid Persist.StarterSocket
    Persist.StarterIpAddr Persist.Sandbox] in G1, G2, G3, G4, G5, G6, G7, G8.
  rewrite F1 in G1. rewrite F2 in G2. rewrite F3 in G3. rewrite F4 in G4. rewrite F5 in G5. rewrite F6 in G6.
  rewrite F7 in G7. rewrite F8 in G8. cbn in G1, G2, G3, G4, G5, G6, G7, G8. split; [|congruence].
  split; [by eapply norm_read|congruence|]. rewrite G3, G4, G5, G6, G7, G8, Hname.
  destruct (life_cases c n l s HL Hb Hs) as [(E & _)|[(E & _)|[(E & Ha & _)|(E & _)]]];
    apply (f_equal sl_state) in E as E1; apply (f_equal sl_activity) in E as E2; cbn in E1, E2; try congruence.
  - right. rewrite (isS_false _ Ha). done.
  - by left.
Qed.

(** *** The configured slots *)

Context (machine : string).

Lemma fixed_filed c c0 l s :
  RegInv machine (regOf c0) → fixed (regOf c0) (regOf c) → l ∈ slots c → heap c !! l = Some s →
  filed c0 (Slot.Name s) = Some (Slot.Name s, Slot.SlotType s).
Proof.
  intros HI [Hs Hh] Hl Hheap. assert (l ∈ slots c0) as Hl0 by (by rewrite <-(Hs : slots c = slots c0)).
  specialize (Hh l Hl0). rewrite !heap_regOf, Hheap in Hh. destruct (heap c0 !! l) as [s0|] eqn:E0; [|done].
  cbn in Hh. injection Hh as H1 _ _ H2 _ _ _.
  destruct (live_byName machine c0 l s0 HI) as [Hb _]; [apply elem_of_app; by left|done|].
  unfold filed, lookupName, deref. rewrite H1, Hb, E0. cbn. by rewrite H2.
Qed.

(** Every claimed slot has its place in a fresh core with the same configuration. *)
Lemma durable_homed c c0 n rec :
  Inv machine (regOf c0) c → RegInv machine (regOf c0) → dslots c0 = [] →
  (∀ l s, l ∈ slots c0 → heap c0 !! l = Some s → EqualFold (Slot.SlotType s) Slot.SlotTypeDynamic = false) →
  durable c n = Some (timeless rec) → homed rec c0.
Proof.
  intros [HI HL [Hn _] [HF _]] HI0 Hds Hty0 Hd. destruct (durable_written c n rec HL Hd Hn) as [_ Hname].
  destruct (durable_Some _ _ _ Hd) as (l & s & cl & Hl & _ & _ & Hr).
  apply (lookupName_live machine) in Hl as (Hlive & Hs & Hsn); [|done].
  destruct (norm_fields (recordOf c s cl)) as (_ & _ & _ & F1 & F2 & _).
  pose proof (f_equal Persist.SlotType Hr) as G1. pose proof (f_equal Persist.ParentSlotName Hr) as G2.
  cbn [timeless Persist.SlotType Persist.ParentSlotName] in G1, G2. rewrite F1 in G1. rewrite F2 in G2. cbn in G1, G2.
  assert (r_heap (regOf c) !! l = Some (shapeOf s)) as Hh by (by rewrite heap_regOf, Hs).
  unfold homed. rewrite Hname, G1, G2. apply elem_of_app in Hlive as [Hst|Hdy].
  - destruct (ri_slots _ _ HI l _ Hst Hh) as (_ & _ & Hty & _). cbn in Hty.
    assert (Slot.IsDynamic s = false) as -> by (by apply bool_decide_eq_false).
    pose proof (fixed_filed c c0 l s HI0 HF Hst Hs) as Hf. rewrite Hsn in Hf.
    destruct (filed_Some _ _ _ Hf) as (k & t & Hk & [= _ Ht]). apply (lookupName_live machine) in Hk as (Hk1 & Hk2 & _); [|done].
    unfold LiveSlots in Hk1. rewrite Hds, app_nil_r in Hk1. 
    rewrite Ht in *. by rewrite (Hty0 k t Hk1 Hk2).
  - destruct (ri_dslots _ _ HI l _ Hdy Hh) as (Hdn & _ & Hty & _ & _ & p & psh & Hp & Hps & _ & Hpn). cbn in Hdn, Hty, Hpn.
    rewrite Hty, EqualFold_refl. assert (Slot.IsDynamic s = true) as -> by (by apply bool_decide_eq_true).
    split; [done|]. split.
    + destruct (filed c0 n) as [x|] eqn:Ex; [|done]. exfalso.
      destruct (filed_Some _ _ _ Ex) as (k & t & Hk & _). apply (lookupName_live machine) in Hk as (Hk1 & Hk2 & Hk3); [|done].
      unfold LiveSlots in Hk1. rewrite Hds, app_nil_r in Hk1. destruct (slots_named machine c0 k t HI0 Hk1 Hk2) as [_ Hst].
      apply (staticName_dynamicName (Slot.SlotID t) (Slot.SlotID s) (Slot.SubID s) machine). congruence.
    + rewrite heap_regOf in Hps. destruct (heap c !! p) as [ps|] eqn:Eps; [|done]. injection Hps as <-. cbn in Hpn.
      rewrite <-Hpn. rewrite (fixed_filed c c0 p ps HI0 HF Hp Eps). by eexists.
Qed.

(** *** The records fit *)

(** The record of a dynamic slot says what is carved. *)
Lemma durable_dslot c n rec :
  RegInv machine (regOf c) →
  (∀ l s, l ∈ slots c → heap c !! l = Some s → EqualFold (Slot.SlotType s) Slot.SlotTypeDynamic = false) →
  durable c n = Some (timeless rec) → EqualFold (Persist.SlotType rec) Slot.SlotTypeDynamic = true →
  ∃ k dsh, k ∈ r_dslots (regOf c) ∧ r_heap (regOf c) !! k = Some dsh ∧ sh_name dsh = n ∧
    sh_parent dsh = Persist.ParentSlotName rec ∧ sh_sub dsh = Persist.DSlotSubID rec ∧ sh_res dsh = recordRes rec.
Proof.
  intros HI Hty Hd Hdy. destruct (durable_Some _ _ _ Hd) as (l & s & cl & Hl & _ & _ & Hr).
  apply (lookupName_live machine) in Hl as (Hlive & Hs & Hsn); [|done].
  pose proof (f_equal Persist.SlotType Hr) as G1. destruct (norm_fields (recordOf c s cl)) as (_ & _ & _ & F1 & _).
  cbn [timeless Persist.SlotType] in G1. rewrite F1 in G1. cbn in G1.
  assert (r_heap (regOf c) !! l = Some (shapeOf s)) as Hh by (by rewrite heap_regOf, Hs).
  apply elem_of_app in Hlive as [Hst|Hds]; [by rewrite G1, (Hty l s Hst Hs) in Hdy|].
  exists l, (shapeOf s). split; [done|]. split; [done|]. split; [done|].
  destruct (ri_dslots _ _ HI l _ Hds Hh) as (_ & _ & Ht & _ & _ & p & psh & Hp & Hps & _ & Hpn). cbn in Ht, Hpn.
  destruct (ri_slots _ _ HI p psh Hp Hps) as (Hpn' & _).
  assert (Slot.ParentName s ≠ "") as Hne by (rewrite <-Hpn, Hpn'; discriminate).
  assert (Slot.IsDynamic s = true) as Hdyn by (by apply bool_decide_eq_true).
  unfold Persist.norm in Hr. rewrite bool_decide_false in Hr by (unfold recordOf; cbn; by rewrite Hdyn).
  pose proof (f_equal Persist.ParentSlotName Hr) as R1. pose proof (f_equal Persist.DSlotSubID Hr) as R2.
  pose proof (f_equal recordRes Hr) as R3. unfold recordRes, recordOf, timeless in R1, R2, R3. cbn in R1, R2, R3.
  rewrite Hdyn in R1, R2, R3. split; [done|]. split; [done|]. unfold recordRes. rewrite R3. cbn. by destruct (Slot.Res s).
Qed.

(** The store is current: a claimed record is the one of a claimed slot of [c]. *)
Definition current c (recs : list Persist.Record_) : Prop :=
  ∀ rec, rec ∈ recs → claimedRecord rec = true → durable c (Persist.SlotName rec) = Some (timeless rec).

(** What one record does to the registry. *)
Lemma adoptRecord_reg rec st :
  (claimedRecord rec = true ∧ EqualFold (Persist.SlotType rec) Slot.SlotTypeDynamic = true ∧
   ∃ p parent, lookupName (Persist.ParentSlotName rec) (as_core st) = Some (p, parent) ∧
     lookupName (Persist.SlotName rec) (as_core st) = None ∧
     regOf (as_core (adoptRecord st rec)) = reg_carve p (shapeOf parent) (Persist.DSlotSubID rec)
       (Z.max (dslotSeq (as_core st)) (Persist.DSlotSubID rec)) (recordRes rec) (regOf (as_core st))) ∨
  regOf (as_core (adoptRecord st rec)) = regOf (as_core st).
Proof.
  unfold adoptRecord, claimedRecord. destruct (EqualFold (Persist.State rec) "Claimed"); [|by right]. cbn [negb].
  destruct (EqualFold (Persist.SlotType rec) _); [|right; apply reg_adoptSlot].
  destruct (lookupName (Persist.ParentSlotName rec) (as_core st)) as [[p parent]|] eqn:Ep.
  2: { right. unfold reconstructDSlot. rewrite Ep. cbn [as_core]. apply reg_storeDelete. }
  destruct (lookupName (Persist.SlotName rec) (as_core st)) as [x|] eqn:Es.
  { right. unfold reconstructDSlot. rewrite Ep, Es. by rewrite reg_adoptSlot. }
  left. split; [done|]. split; [done|]. exists p, parent. split; [done|]. split; [done|].
  rewrite <-(reconstruct_reg rec _ p parent Ep Es). unfold reconstructDSlot. rewrite Ep, Es. cbn zeta. cbn [snd].
  by rewrite reg_adoptSlot.
Qed.

Section Current.
Context (old : Core).
Hypothesis old_reg : RegInv machine (regOf old).
Hypothesis old_kin : kin (regOf old).
Hypothesis old_types :
  ∀ l s, l ∈ slots old → heap old !! l = Some s → EqualFold (Slot.SlotType s) Slot.SlotTypeDynamic = false.

Lemma current_fits rec c :
  RegInv machine (regOf c) → fixed (regOf old) (regOf c) → mirrored (regOf old) (regOf c) →
  (claimedRecord rec = true → durable old (Persist.SlotName rec) = Some (timeless rec)) → record_fits c rec.
Proof.
  intros HI Hf Hm Hcur Hst Hty p parent Hp Hno.
  destruct (durable_dslot old _ rec old_reg old_types (Hcur Hst) Hty) as (k & dsh & Hk & Hdsh & H1 & H2 & H3 & H4).
  apply (lookupName_live machine) in Hp as (Hlive & Hheap & Hpn); [|done].
  assert (r_heap (regOf c) !! p = Some (shapeOf parent)) as Hh by (by rewrite heap_regOf, Hheap).
  assert (r_byName (regOf c) !! sh_name dsh = None) as Hfree.
  { rewrite H1. destruct (r_byName (regOf c) !! Persist.SlotName rec) as [j|] eqn:Ej; [|done]. exfalso.
    destruct (proj1 (ri_byName _ _ HI _ _) Ej) as (_ & sh & Hsh & _). rewrite heap_regOf in Hsh.
    unfold lookupName, deref in Hno. change (byName c !! Persist.SlotName rec = Some j) in Ej. rewrite Ej in Hno.
    by destruct (heap c !! j). }
  assert (p ∈ r_slots (regOf c)) as Hps.
  { rewrite <-live_regOf in Hlive. apply elem_of_app in Hlive as [?|Hd]; [done|]. exfalso.
    destruct (ri_dslots _ _ HI p _ Hd Hh) as (Hname & _). destruct (ri_dslots _ _ old_reg k dsh Hk Hdsh) as (_ & _ & _ & _ & _ & q & qsh & Hq & Hqs & _ & Hqn).
    destruct (ri_slots _ _ old_reg q qsh Hq Hqs) as (Hstat & _). cbn in Hname.
    apply (staticName_dynamicName (sh_id qsh) (Slot.SlotID parent) (Slot.SubID parent) machine). congruence. }
  destruct (mirror_fits machine (regOf old) (regOf c) k dsh p (shapeOf parent)) as (T1 & T2 & T3 & T4); try done; [by rewrite H2|].
  cbn in T1, T2, T4. split_and!.
  - by apply bool_decide_eq_true.
  - by rewrite <-H1, T2, H3.
  - rewrite <-H4. by unfold res_ok, res_nonneg in *; lia.
  - rewrite <-H4. by apply CanCarve_le.
Qed.

Lemma current_records_fit recs st :
  RegInv machine (regOf (as_core st)) → fixed (regOf old) (regOf (as_core st)) →
  mirrored (regOf old) (regOf (as_core st)) → current old recs → records_fit st recs.
Proof.
  revert st. induction recs as [|rec recs IH]; intros st HI Hf Hm Hcur; [done|].
  assert (record_fits (as_core st) rec) as Hfit.
  { apply current_fits; try done. intros Hc. apply Hcur; [apply list_elem_of_here|done]. }
  split; [done|]. pose proof (adoptRecord_sim machine st rec HI Hfit) as Hsim.
  apply IH; [by eapply reg_step_inv|by eapply fixed_step| |intros r Hr; apply Hcur; by apply list_elem_of_further].
  destruct (adoptRecord_reg rec st) as [(Hc & Hty & p & parent & Hp & Hno & ->)| ->]; [|done].
  destruct (durable_dslot old _ rec old_reg old_types (Hcur rec (list_elem_of_here _ _) Hc) Hty) as (k & dsh & Hk & Hdsh & H1 & H2 & H3 & H4).
  destruct (Hfit Hc Hty p parent Hp Hno) as (Hpart & Hname & _).
  apply (lookupName_live machine) in Hp as (Hlive & Hheap & Hpn); [|done].
  apply (mirrored_carve machine _ _ _ _ _ _ _ k dsh); try done.
  - by eapply live_partitionable.
  - by rewrite heap_regOf, Hheap.
  - by rewrite H1, Hname.
  - by rewrite H2, <-Hpn.
Qed.
End Current.

(** *** The theorem *)

Hypothesis mint_total : ∀ sinful bday n cmds, is_Some (MintClaimSession sinful bday n cmds).
Hypothesis put_accepts : ∀ r st, record_wf r → is_Some (Persist.rs_put r st).
Context (cf : Config) (total : Slot.Resources).
Hypothesis total_ok : res_ok total.
Hypothesis total_cpus : 1 ≤ Slot.Cpus total.

Local Abbreviation boots h sinful t opts m st := (startup h cf machine sinful total t opts (Some m) (Some st)).

Lemma boots_pers h sinful t opts m st : pers (boots h sinful t opts m st) = Some (mkPersister ∅ [] st).
Proof. unfold startup, New. by rewrite pers_prime. Qed.

Lemma boots_reg h h' sinful sinful' t t' opts opts' m m' st st' :
  regOf (boots h sinful t opts m st) = regOf (boots h' sinful' t' opts' m' st').
Proof. apply New_reg, BuildSlots_shapes. Qed.

Lemma boots_dslots h sinful t opts m st : r_dslots (regOf (boots h sinful t opts m st)) = [].
Proof. unfold startup, New. by rewrite reg_prime. Qed.

Lemma boots_types h sinful t opts m st l s :
  l ∈ slots (boots h sinful t opts m st) → heap (boots h sinful t opts m st) !! l = Some s →
  EqualFold (Slot.SlotType s) Slot.SlotTypeDynamic = false.
Proof.
  intros _ Hs. assert (r_heap (regOf (boots h sinful t opts m st)) !! l = Some (shapeOf s)) as Hh by (by rewrite heap_regOf, Hs).
  unfold startup, New in Hh. rewrite reg_prime, heap_regOf in Hh. cbn [heap] in Hh. rewrite lookup_map_seq_0 in Hh.
  apply fmap_Some in Hh as (s0 & Hs0 & Hsh). apply (f_equal sh_type) in Hsh. cbn in Hsh. rewrite Hsh.
  unfold Slot.BuildSlots in Hs0. destruct (Slot.partitionableConfigured cf).
  - destruct l; [|done]. injection Hs0 as <-. done.
  - apply BuildStaticSlots_lookup in Hs0 as (_ & _ & _ & _ & _ & _ & Ht & _). by rewrite Ht.
Qed.

Lemma boots_inv h sinful t opts m st :
  let c := boots h sinful t opts m st in Inv machine (regOf c) c ∧ all_unclaimed c.
Proof.
  cbn zeta. set (c := boots h sinful t opts m st).
  assert (RegInv machine (regOf c)) as HI by (by apply startup_inv).
  destruct (New_unclaimed mint_total opts _ m (Some st) (BuildSlots_fresh h cf machine sinful total t)) as [_ Hu].
  split; [|done]. split; [done|by apply New_life, BuildSlots_fresh| |split; [done|]].
  - split; [by apply (named_reg machine)|]. intros n _ _ r Hr. by rewrite unclaimed_durable in Hr.
  - intros l sh q qsh Hl. unfold c in Hl. rewrite boots_dslots in Hl. by apply elem_of_nil in Hl.
Qed.

Import Shutdown.

(** A fresh core of the same configuration has room for what the stopped one held. *)
Lemma boots_fit h sinful t opts m st c recs :
  let c' := boots h sinful t opts m st in
  Inv machine (regOf c') c → current c recs → records_fit (mkAdoptState c' ∅ 0) recs.
Proof.
  cbn zeta. set (c' := boots h sinful t opts m st). intros [HI _ _ [[Hs Hh] Hkin]] Hcur.
  pose proof (boots_inv h sinful t opts m st) as [[HR' _ _ _] _]. fold c' in HR'.
  apply (current_records_fit c HI Hkin); [|done| | |done].
  - intros l s Hl Hheap. assert (l ∈ r_slots (regOf c')) as Hl' by (by rewrite <-Hs).
    specialize (Hh l Hl'). rewrite !heap_regOf, Hheap in Hh. destruct (heap c' !! l) as [s0|] eqn:E0; [|done].
    apply (f_equal (fmap sh_type)) in Hh. cbn in Hh. injection Hh as ->. by apply (boots_types h sinful t opts m st l).
  - split; [done|]. intros l Hl. cbn [as_core]. symmetry. apply Hh. by rewrite <-Hs.
  - intros l sh Hl. cbn [as_core] in Hl. unfold c' in Hl. rewrite boots_dslots in Hl. by apply elem_of_nil in Hl.
Qed.

(** A claimed slot of a run is not partitionable, and its record does not go to one. *)
Lemma durable_place c c0 n rec :
  Inv machine (regOf c0) c → RegInv machine (regOf c0) → dslots c0 = [] →
  (∀ l s, l ∈ slots c0 → heap c0 !! l = Some s → EqualFold (Slot.SlotType s) Slot.SlotTypeDynamic = false) →
  durable c n = Some (timeless rec) →
  ∀ l s, lookupName (Persist.SlotName rec) c0 = Some (l, s) → Slot.IsPartitionable s = false.
Proof.
  intros HIv HI0 Hds Hty Hd l s Hl. pose proof (durable_homed c c0 n rec HIv HI0 Hds Hty Hd) as Hhome.
  destruct HIv as [HI HL [Hn _] _]. destruct (durable_Some _ _ _ Hd) as (k & t & cl & Hk & _ & Hst & Hr).
  pose proof (f_equal Persist.SlotType Hr) as G. destruct (norm_fields (recordOf c t cl)) as (_ & _ & _ & F & _).
  cbn [timeless Persist.SlotType] in G. rewrite F in G. cbn in G.
  assert (filed c0 (Persist.SlotName rec) = Some (Slot.Name s, Slot.SlotType s)) as Hf by (unfold filed; by rewrite Hl).
  unfold homed in Hhome. destruct (EqualFold (Persist.SlotType rec) _); [destruct Hhome as (_ & H & _); by rewrite Hf in H|].
  destruct Hhome as [H _]. rewrite Hf in H. injection H as _ Hty'. unfold Slot.IsPartitionable. rewrite Hty', G.
  apply lookupName_Some in Hk as [Hb Ht].
  destruct (life_cases c n k t HL Hb Ht) as [(E & _)|[(E & _)|[(E & _)|(E & _)]]]; apply slotLife_claim in E as (_ & E1 & _ & E2);
    cbn in E1, E2; [congruence..|exact E2|exact E2].
Qed.

End Restart.

(** ** Witness: a job runs on a dynamic slot when the startd is stopped *)

Import RefClassAd RefSecurity Shutdown.

Definition bootProc : Core :=
  startup demoHost demoConfig "h" "<h:1>" demoTotal 0 demoProcOpts (Some demoMinter) (Some demoRStore).

Definition claimed1 : Core := handle demoEnv (EvRequestClaim (demoRequest pslotID)) bootProc.
Definition running1 : Core := handle demoEnv (EvActivateClaim dslotID demoJob 4%nat) claimed1.

(** When all that handling an event did to the persister was to put records, they can be read off
    [pending]. *)
Lemma loopLog_puts env ev (c : Core) p p' :
  pers c = Some p → pers (handle env ev c) = Some p' → batch p' = batch p → store p' = store p →
  (∀ k, is_Some (pending p !! k) → is_Some (pending p' !! k)) →
  map_Forall (λ k r, Persist.SlotName r = k) (pending p') →
  loopLog c (handle env ev c) (LPut <$> (map_to_list (pending p')).*2).
Proof.
  intros Hp Hp' Hb Hs Hd Hn. unfold loopLog. rewrite Hp, Hp'. split.
  { apply Forall_fmap, Forall_forall. by intros r _. }
  assert (∀ rs q, prun (LPut <$> rs) q (mkPersister (foldl (λ m r, <[Persist.SlotName r := r]> m) (pending q) rs) (batch q) (store q))) as Hr.
  { clear. induction rs as [|r rs IH]; intros q; cbn; [destruct q; apply prun_nil|].
    eapply prun_cons; [apply PPut|]. apply (IH (put r q)). }
  specialize (Hr (map_to_list (pending p')).*2 p).
  replace p' with (mkPersister (foldl (λ m r, <[Persist.SlotName r := r]> m) (pending p) (map_to_list (pending p')).*2)
                     (batch p) (store p)) at 2; [exact Hr|].
  destruct p' as [pe b s]. cbn in *. subst b s. f_equal. clear -Hd Hn.
  assert (∀ (xs : list (string * Persist.Record_)) (m : gmap string Persist.Record_), (∀ k r, (k, r) ∈ xs → Persist.SlotName r = k) →
    foldl (λ m r, <[Persist.SlotName r := r]> m) m xs.*2 = foldl (λ m kr, <[kr.1 := kr.2]> m) m xs) as Hx.
  { induction xs as [|[k r] xs IH]; intros m Hk; cbn; [done|]. rewrite (Hk k r) by apply list_elem_of_here.
    apply IH. intros k' r' Hin. apply Hk. by apply list_elem_of_further. }
  rewrite Hx by (intros k r Hk%elem_of_map_to_list; by apply (Hn k r)). apply map_eq. intros k.
  rewrite foldl_insert_map, list_to_map_to_list by apply NoDup_fst_map_to_list.
  destruct (pe !! k) as [r|] eqn:Ek; [done|]. destruct (pending p !! k) eqn:E; [|done].
  destruct (Hd k) as [? ?]; [by rewrite E|congruence].
Qed.

Definition in64 (z : Z) : bool := (- two63 <=? z) && (z <? two63).

Definition storable (r : Persist.Record_) : bool :=
  negb (bool_decide (Persist.SlotName r = "")) &&
  forallb in64 [Persist.DSlotSubID r; Persist.Cpus r; Persist.MemoryMB r; Persist.DiskKB r; Persist.AliveInterval r;
                Persist.LeaseDeadline r; Persist.Entered r; Persist.StarterPid r].

Lemma storable_wf rs : forallb storable rs = true → Forall label_wf (LPut <$> rs).
Proof.
  rewrite Forall_fmap, forallb_forall. intros H. apply Forall_forall. intros r Hr. apply list_elem_of_In, H in Hr.
  apply andb_true_iff in Hr as [H1 H2]. split.
  - by apply negb_true_iff, bool_decide_eq_false in H1.
  - unfold Persist.record_ok. rewrite forallb_forall in H2. apply Forall_forall. intros z Hz. apply list_elem_of_In, H2 in Hz.
    unfold in64 in Hz. unfold int64_range. lia.
Qed.

Definition pers0 : persister := mkPersister ∅ [] demoRStore.
Definition pers1 : persister := default pers0 (pers claimed1).
Definition pers2 : persister := default pers0 (pers running1).

(** What is evaluated of a persister: the records it holds, with the names they are filed under. *)
Definition pendingNames (p : persister) : list (string * string) := prod_map id Persist.SlotName <$> map_to_list (pending p).

Lemma pending_filed p ns :
  pendingNames p = ns → forallb (λ nm, bool_decide (nm.1 = nm.2)) ns = true →
  map_Forall (λ k r, Persist.SlotName r = k) (pending p) ∧ ∀ k, is_Some (pending p !! k) ↔ k ∈ ns.*1.
Proof.
  intros <- Hf. unfold pendingNames in *. split.
  - intros k r Hk%elem_of_map_to_list. rewrite forallb_forall in Hf.
    specialize (Hf (k, Persist.SlotName r)). symmetry. apply (bool_decide_eq_true_1 _), Hf. apply list_elem_of_In.
    by apply (list_elem_of_fmap_2 (prod_map id Persist.SlotName)) in Hk.
  - intros k. rewrite <-list_fmap_compose. split.
    + intros [r Hr%elem_of_map_to_list]. by apply (list_elem_of_fmap_2 (fst ∘ prod_map id Persist.SlotName)) in Hr.
    + intros ([k' r] & -> & Hr%elem_of_map_to_list)%list_elem_of_fmap. by exists r.
Qed.

Lemma claimed1_pers : pers claimed1 = Some pers1.
Proof.
  unfold pers1. assert (bool_decide (is_Some (pers claimed1)) = true) as H by (vm_compute; reflexivity).
  apply bool_decide_eq_true in H as [p ->]. reflexivity.
Qed.

Lemma running1_pers : pers running1 = Some pers2.
Proof.
  unfold pers2. assert (bool_decide (is_Some (pers running1)) = true) as H by (vm_compute; reflexivity).
  apply bool_decide_eq_true in H as [p ->]. reflexivity.
Qed.

Lemma pers1_names : pendingNames pers1 = [("slot1_1@h", "slot1_1@h"); ("slot1@h", "slot1@h")].
Proof. vm_compute. reflexivity. Qed.
Lemma pers2_names : pendingNames pers2 = [("slot1_1@h", "slot1_1@h"); ("slot1@h", "slot1@h")].
Proof. vm_compute. reflexivity. Qed.

Lemma pers1_rest : batch pers1 = [] ∧ store pers1 = demoRStore.
Proof. split; [exact (eq_refl (batch pers1) <: batch pers1 = [])|exact (eq_refl (store pers1) <: store pers1 = demoRStore)]. Qed.
Lemma pers2_rest : batch pers2 = [] ∧ store pers2 = demoRStore.
Proof. split; [exact (eq_refl (batch pers2) <: batch pers2 = [])|exact (eq_refl (store pers2) <: store pers2 = demoRStore)]. Qed.

Definition puts1 : list Persist.Record_ := (map_to_list (pending pers1)).*2.
Definition puts2 : list Persist.Record_ := (map_to_list (pending pers2)).*2.

Lemma puts_wf : Forall label_wf (LPut <$> puts1) ∧ Forall label_wf (LPut <$> puts2).
Proof. split; apply storable_wf; vm_compute; reflexivity. Qed.

Lemma claimed1_log : loopLog bootProc claimed1 (LPut <$> puts1).
Proof.
  destruct (pending_filed pers1 _ pers1_names eq_refl) as [Hf _]. destruct pers1_rest as [Hb Hs].
  apply (loopLog_puts demoEnv (EvRequestClaim (demoRequest pslotID)) bootProc pers0 pers1);
    [reflexivity|exact claimed1_pers|exact Hb|exact Hs| |exact Hf].
  intros k [r Hr]. discriminate Hr.
Qed.

Lemma running1_log : loopLog claimed1 running1 (LPut <$> puts2).
Proof.
  destruct (pending_filed pers1 _ pers1_names eq_refl) as [_ H1], (pending_filed pers2 _ pers2_names eq_refl) as [Hf H2].
  destruct pers1_rest as [Hb1 Hs1], pers2_rest as [Hb2 Hs2].
  apply (loopLog_puts demoEnv (EvActivateClaim dslotID demoJob 4%nat) claimed1 pers1 pers2);
    [exact claimed1_pers|exact running1_pers|rewrite Hb1; exact Hb2|rewrite Hs1; exact Hs2| |exact Hf].
  intros k Hk. apply H2. apply H1 in Hk. exact Hk.
Qed.

(** The store [Stop] leaves, and the next run on it. *)
Definition finalPers : persister := flush id pers2.

Definition resumed0 : Core :=
  startup demoHost demoConfig "h" "<h:1>" demoTotal 0 demoProcOpts (Some restartMinter) (Some (store finalPers)).

Lemma resumed0_resumable : resumable resumed0.
Proof.
  resume resumed0 [(("Unclaimed", "Partitionable", "slot1@h", ""), (pslotID, "", "Idle", ""), (0, Slot.mkRes 0 0 0))] "<h:1>" 8.
Qed.

Lemma request1_allowed : allowed (EvRequestClaim (demoRequest pslotID)) bootProc.
Proof. split; [|by left]. split; [split; vm_compute; by split|]. vm_compute. by split_and!. Qed.

Lemma activate1_allowed : allowed (EvActivateClaim dslotID demoJob 4%nat) claimed1.
Proof. split; [|by left]. split; [|done]. split; vm_compute; by split. Qed.

(** The two events are handled while the writer sleeps. *)
Lemma running1_ran :
  ran allowed bootProc (mkDaemon running1 [] false false true false WIdle SNone ((LPut <$> puts1) ++ (LPut <$> puts2))).
Proof.
  pose proof (d_event demoEnv _ _ bootProc [] false false false WIdle SNone [] claimed1_log) as D1.
  pose proof (d_event demoEnv _ _ claimed1 [] false true false WIdle SNone (LPut <$> puts1) running1_log) as D2.
  assert (negb (bool_decide (LPut <$> puts1 = [])) = true) as E1 by (vm_compute; reflexivity).
  rewrite E1 in D1. cbn [orb app] in D1, D2. fold claimed1 in D1. fold running1 in D2. clear E1.
  eapply ran_step; [|exact D2|intros ev [= <-]; exact activate1_allowed].
  eapply ran_step; [|exact (d_submit (EvActivateClaim dslotID demoJob 4%nat) claimed1 [] false false true false WIdle SNone (LPut <$> puts1))|done].
  eapply ran_step; [|exact D1|intros ev [= <-]; exact request1_allowed].
  eapply ran_step; [apply ran_start|exact (d_submit (EvRequestClaim (demoRequest pslotID)) bootProc [] false false false false WIdle SNone [])|done].
Qed.

Lemma stopped1 :
  ∃ d, ran allowed bootProc d ∧ Forall label_wf (plog d) ∧ stopper d = SReturned ∧
    pers (core d) = Some finalPers ∧ ∀ n, durable (core d) n = durable running1 n.
Proof.
  destruct (stops allowed bootProc demoEnv running1 _ [] false true _ running1_ran running1_pers) as (i & d & Hr & He & Hc & Hl).
  { apply pers2_rest. }
  exists d. split; [exact Hr|]. split.
  { rewrite Hl, !Forall_app. split; [exact puts_wf|]. apply Forall_replicate. exact I. }
  split; [exact He|]. rewrite Hc. split; [reflexivity|]. intros n.
  rewrite durable_set_pers. apply alike_durable, alike_shutdown.
Qed.

Definition durableSummary (r : Persist.Record_) : string * string * string * string :=
  (Persist.ClaimID r, Persist.Activity r, Persist.ScheddAddr r, Persist.StarterSocket r).

Lemma records_pers (c : Core) st : pers c = Some (mkPersister ∅ [] st) → records c = Persist.rs_list st.
Proof. unfold records. by intros ->. Qed.

Lemma resumed0_records : records resumed0 = Persist.rs_list (store finalPers).
Proof.
  exact (records_pers resumed0 (store finalPers)
    (boots_pers "h" demoConfig demoTotal demoHost "<h:1>" 0 demoProcOpts restartMinter (store finalPers))).
Qed.

Lemma bootProc_pers : pers bootProc = Some (mkPersister ∅ [] demoRStore).
Proof. exact (boots_pers "h" demoConfig demoTotal demoHost "<h:1>" 0 demoProcOpts demoMinter demoRStore). Qed.

(** A store with one claimed record, the one of a slot. *)
Lemma current_one (c : Core) recs r rest rec :
  recs = r :: rest → Forall (λ r', claimedRecord r' = false) rest → NoDup (Persist.SlotName <$> recs) →
  rec ∈ recs → Persist.SlotName rec = Persist.SlotName r → durable c (Persist.SlotName r) = Some (timeless rec) → current c recs.
Proof.
  intros -> Hf Hnd Hin Hn Hd r' Hin' Hc. rewrite Forall_forall in Hf.
  apply elem_of_cons in Hin' as [->|Hin']; [|by rewrite (Hf r' Hin') in Hc].
  apply elem_of_cons in Hin as [->|Hin]; [done|]. exfalso.
  rewrite fmap_cons in Hnd. apply NoDup_cons in Hnd as [Hno _]. apply Hno. rewrite <-Hn. by apply list_elem_of_fmap_2.
Qed.

Lemma running1_named : Persist.SlotName <$> durable running1 "slot1_1@h" = Some "slot1_1@h".
Proof. vm_compute. reflexivity. Qed.

Lemma pers0_wf : persister_wf (mkPersister ∅ [] demoRStore).
Proof. split; [apply map_Forall_empty|]. split; [by apply Forall_nil|by apply NoDup_nil]. Qed.

Lemma bootProc_inv : Inv "h" (regOf bootProc) bootProc.
Proof.
  exact (proj1 (boots_inv "h" ref_mint_total demoConfig demoTotal (proj1 demo_total_ok) (proj2 demo_total_ok)
    demoHost "<h:1>" 0 demoProcOpts demoMinter demoRStore)).
Qed.

(** The claimed record of the store is the one of the running slot. *)
Lemma stopped1_current d :
  ran allowed bootProc d → Forall label_wf (plog d) → stopper d = SReturned → pers (core d) = Some finalPers →
  (∀ n, durable (core d) n = durable running1 n) → current (core d) (Persist.rs_list (store finalPers)).
Proof.
  intros Hr Hl He Hp Hdur.
  destruct (rs_records _ resumed0_resumable) as (r & rest & Hrs & Hk & Hf & Hnd). rewrite resumed0_records in Hrs, Hnd.
  pose proof (f_equal (λ k, k.1.1.1.2) Hk : Persist.SlotName r = "slot1_1@h") as Hn.
  destruct (proj1 (fmap_Some _ _ _) running1_named) as (x & Hx & Hxn). rewrite <-Hdur in Hx.
  destruct (stopped_store (RSL := Persist.storeRecords_laws) ref_mint_total ref_put_accepts "h" (regOf bootProc) bootProc _ d finalPers
    "slot1_1@h" x bootProc_pers (conj eq_refl eq_refl) pers0_wf bootProc_inv Hr Hl He Hp Hx) as (rec & Hget & Hrec).
  apply (current_one (core d) _ r rest rec Hrs Hf Hnd).
  - apply (Persist.rs_list_get (RecordStoreLaws := Persist.storeRecords_laws)). exists "slot1_1@h". exact Hget.
  - rewrite Hn, Hxn, <-Hrec. reflexivity.
  - rewrite Hn, Hx, Hrec. reflexivity.
Qed.

