(* ===== verification/Handlers.v ===== *)
(** * The wire side of the claim commands (handlers of internal/startd/{claim,activate}.go)

    A handler runs on a goroutine of the command server: it reads one message,
    submits an event, waits for the decision of the loop, writes the reply and then
    may submit another event.  Reading is a function of the message; everything it
    does to the outside is an action, and any write may fail. *)

From S2P Require Import Prelude GoLang ClassAd Claim Slot Persist Persister StarterMsg Reconnect AdWire Core CoreDemo.
From Stdlib Require Import Ascii.

Import Core.

Local Open Scope Z_scope.
Local Open Scope ep_scope.

(** cedar's reader of an ad without private attributes. *)
Class CedarLib {CA : ClassAdLib} (ML : MessageLib) := {
  cedarGetClassAd : Message → option ClassAd * Message
}.

Module Handlers.
Section Actions.
Context {CA : ClassAdLib} {SL : SecurityLib} {RS : Persist.RecordStore} {ML : MessageLib} {CL : CedarLib ML}.

(** ** What a handler does *)

Inductive action :=
| PutInt (z : Z)
| PutString (s : string)
| PutClassAd (ad : ClassAd)
| FinishMessage
| SubmitEv (ev : Event)
| PassSyscallConn (transport : option Z).

(** [io h a]: does [a] succeed after the actions [h]?  A submission always returns. *)
Definition io_oracle := list action → action → bool.

(** Actions done so far, and the result; [None] is an error return. *)
Definition M (A : Type) := list action → list action * option A.

#[global] Instance M_ret : MRet M := λ A x h, (h, Some x).
#[global] Instance M_bind : MBind M :=
  λ A B k p h, match p h with (h, Some x) => k x h | (h, None) => (h, None) end.
Definition error {A} : M A := λ h, (h, None).
(** [p], and then [k] on whether it succeeded. *)
Definition attempt {A B} (p : M A) (k : bool → M B) : M B :=
  λ h, match p h with (h, Some _) => k true h | (h, None) => k false h end.
Definition lift {A} (o : option A) : M A := λ h, (h, o).

Definition act (io : io_oracle) (a : action) : M unit :=
  λ h, (h ++ [a], if io h a then Some tt else None).
Definition submit (ev : Event) : M unit := λ h, (h ++ [SubmitEv ev], Some tt).
End Actions.

Section Commands.
Context {CA : ClassAdLib} {SL : SecurityLib} {RS : Persist.RecordStore} {ML : MessageLib} {CL : CedarLib ML}.
Context (io : io_oracle).

(** ** [hostOf], with [net.SplitHostPort] *)

Definition hostOf (addr : string) : string :=
  if bool_decide (addr = "") then ""
  else match SplitHostPort addr with Some (h, _) => h | None => addr end.

(** ** REQUEST_CLAIM *)

(** [for i < n { if _, err := in.GetString(); err != nil { break } }]. *)
Fixpoint drainStrings (n : nat) (m : Message) : Message :=
  match n with
  | O => m
  | S n => match GetString m with (Some _, m) => drainStrings n m | (None, m) => m end
  end.

Definition drainExtraClaims (m : Message) : Message :=
  match GetInt m with
  | (Some n, m) => if 0 <? n then drainStrings (Z.to_nat n) m else m
  | (None, m) => m
  end.

Definition readRequestClaim (remoteAddr : string) (reply : chanid) (m : Message)
    : option evRequestClaim * Message :=
  match GetString m with
  | (None, m) => (None, m)
  | (Some claimID, m) =>
  match cedarGetClassAd m with
  | (None, m) => (None, m)
  | (Some reqAd, m) =>
  match GetString m with
  | (None, m) => (None, m)
  | (Some scheddAddr, m) =>
  match GetInt m with
  | (None, m) => (None, m)
  | (Some aliveInterval, m) =>
      (Some (mkRequestClaim claimID reqAd scheddAddr aliveInterval (hostOf remoteAddr) reply),
       drainExtraClaims m)
  end end end end.

Fixpoint putClaimedSlots (cs : list claimedSlotReply) : M unit :=
  match cs with
  | [] => mret tt
  | c :: r =>
      act io (PutInt replySlotAd);;
      act io (PutString (cs_claimID c));;
      act io (PutClassAd (cs_ad c));;
      putClaimedSlots r
  end.

Definition putClaimDecision (dec : claimDecision) : M unit :=
  if negb (accept dec) then act io (PutInt replyNotOK);; act io FinishMessage
  else
    putClaimedSlots (claimedSlots dec);;
    match leftovers dec with
    | Some lo =>
        act io (PutInt (if lo_secure lo then replyLeftovers2 else replyLeftovers));;
        act io (PutString (lo_claimID lo));;
        act io (PutClassAd (lo_ad lo));;
        act io FinishMessage
    | None => act io (PutInt replyOK);; act io FinishMessage
    end.

(** [await ev] is the decision the loop sends back, or [None] when the context ends
    first. *)
Definition handleRequestClaim (remoteAddr : string) (reply : chanid) (m : Message)
    (await : evRequestClaim → option claimDecision) : M unit :=
  ev ← lift (readRequestClaim remoteAddr reply m).1;
  submit (EvRequestClaim ev);;
  dec ← lift (await ev);
  putClaimDecision dec.

(** ** RELEASE_CLAIM and MATCH_INFO *)

Definition handleReleaseClaim (m : Message) : M unit :=
  claimID ← lift (GetString m).1;
  submit (EvReleaseClaim claimID).

Definition handleMatchInfo (m : Message) : M unit :=
  claimID ← lift (GetString m).1;
  submit (EvMatchInfo claimID).

(** ** ACTIVATE_CLAIM *)

Definition readActivateClaim (m : Message) : option (string * ClassAd) :=
  match GetString m with
  | (None, _) => None
  | (Some claimID, m) =>
      match GetInt m with
      | (None, _) => None
      | (Some _, m) =>
          match AdWire.GetClassAd m with
          | (inl _, _) => None
          | (inr (jobAd, _), _) => Some (claimID, jobAd)
          end
      end
  end.

(** [true] is [cedarserver.KeepOpen()]. *)
Definition handleActivateClaim (reply : chanid) (m : Message)
    (await : string → ClassAd → option activateDecision) : M bool :=
  req ← lift (readActivateClaim m);
  submit (EvActivateClaim req.1 req.2 reply);;
  dec ← lift (await req.1 req.2);
  attempt (act io (PutInt (code dec))) (λ put,
  attempt (act io FinishMessage) (λ finished,
  if negb (put && finished) then
    if code dec =? activateOK then submit (EvStarterExited (ad_slotName dec)) ;; error else error
  else if negb (code dec =? activateOK) then mret false
  else attempt (act io (PassSyscallConn (transport dec))) (λ passed,
    if passed then mret true
    else submit (EvStarterExited (ad_slotName dec)) ;; error))).

(** ** DEACTIVATE_CLAIM *)

(** [released ch] says the loop closed the wait channel before the context ended. *)
Definition handleDeactivateClaim (command : Z) (reply : chanid) (m : Message)
    (await : string → option deactivateDecision) (released : chanid → bool) : M unit :=
  claimID ← lift (GetString m).1;
  submit (EvDeactivate claimID command reply);;
  dec ← lift (await claimID);
  (if deferred dec && negb (match wait dec with Some ch => released ch | None => false end)
   then error else mret tt);;
  act io (PutClassAd (adSet "Start" (VBool (negb (closing dec))) adNew));;
  act io FinishMessage;;
  if known dec && negb (deferred dec) &&
     ((command =? Claim.CmdDeactivateClaim) || (command =? Claim.CmdDeactivateClaimForcibly)
      || (command =? Claim.CmdDeactivateFinalXfer))
  then submit (EvVacate (dd_slotName dec) (command =? Claim.CmdDeactivateClaimForcibly))
  else mret tt.

(** ** The client's side of the reply *)

(** What the schedd makes of the reply to REQUEST_CLAIM: blocks of code 7, then a final
    code. *)
Fixpoint readReply (acts : list action) : option claimDecision :=
  match acts with
  | PutInt z :: r =>
      if z =? replySlotAd then
        match r with
        | PutString id :: PutClassAd ad :: r =>
            match readReply r with
            | Some dec => Some (mkClaimDecision true (mkClaimedSlotReply id ad :: claimedSlots dec) (leftovers dec))
            | None => None
            end
        | _ => None
        end
      else if (z =? replyLeftovers) || (z =? replyLeftovers2) then
        match r with
        | [PutString id; PutClassAd ad; FinishMessage] =>
            Some (mkClaimDecision true [] (Some (mkLeftoverReply (z =? replyLeftovers2) id ad)))
        | _ => None
        end
      else if z =? replyOK then
        match r with [FinishMessage] => Some (mkClaimDecision true [] None) | _ => None end
      else if z =? replyNotOK then
        match r with [FinishMessage] => Some (mkClaimDecision false [] None) | _ => None end
      else None
  | _ => None
  end.

(** Steps of the monad. *)
Lemma bind_act (a : action) {B} (k : unit → M B) h :
  (act io a ≫= k) h = if io h a then k tt (h ++ [a]) else (h ++ [a], None).
Proof. unfold mbind, M_bind, act. by destruct (io h a). Qed.

Lemma bind_assoc {A B C} (p : M A) (k1 : A → M B) (k2 : B → M C) h :
  ((p ≫= k1) ≫= k2) h = (p ≫= λ x, k1 x ≫= k2) h.
Proof. unfold mbind, M_bind. by destruct (p h) as [h' [x|]]. Qed.

Lemma bind_mret {A B} (x : A) (k : A → M B) h : ((mret x : M A) ≫= k) h = k x h.
Proof. done. Qed.

Lemma bind_submit (ev : Event) {B} (k : unit → M B) h :
  (submit ev ≫= k) h = k tt (h ++ [SubmitEv ev]).
Proof. done. Qed.

Lemma bind_lift {A B} (o : option A) (k : A → M B) h :
  (lift o ≫= k) h = match o with Some x => k x h | None => (h, None) end.
Proof. unfold mbind, M_bind, lift. by destruct o. Qed.

Lemma attempt_act (a : action) {B} (k : bool → M B) h :
  attempt (act io a) k h = k (io h a) (h ++ [a]).
Proof. unfold attempt, act. by destruct (io h a). Qed.

(** The reply, as the list of writes. *)
Definition claimWrites (dec : claimDecision) : list action :=
  if accept dec then
    (claimedSlots dec ≫= λ c, [PutInt replySlotAd; PutString (cs_claimID c); PutClassAd (cs_ad c)]) ++
    match leftovers dec with
    | Some lo => [PutInt (if lo_secure lo then replyLeftovers2 else replyLeftovers);
                  PutString (lo_claimID lo); PutClassAd (lo_ad lo); FinishMessage]
    | None => [PutInt replyOK; FinishMessage]
    end
  else [PutInt replyNotOK; FinishMessage].

(** The writes up to the first that fails, and whether they all succeeded. *)
Fixpoint write_all (h : list action) (ws : list action) : list action * option unit :=
  match ws with
  | [] => (h, Some tt)
  | a :: r => if io h a then write_all (h ++ [a]) r else (h ++ [a], None)
  end.

Lemma putClaimedSlots_writes {B} cs (k : unit → M B) h :
  (putClaimedSlots cs ≫= k) h =
  match write_all h (cs ≫= λ c, [PutInt replySlotAd; PutString (cs_claimID c); PutClassAd (cs_ad c)]) with
  | (h, Some _) => k tt h
  | (h, None) => (h, None)
  end.
Proof.
  revert h. induction cs as [|c cs IH]; intros h; [done|].
  cbn [putClaimedSlots mbind list_bind app write_all]. change (M_bind ?A ?B ?f ?p) with (p ≫= f).
  do 3 (rewrite bind_assoc, bind_act; destruct (io _ _); [|done]). apply IH.
Qed.

Lemma write_all_app h ws ws' :
  write_all h (ws ++ ws') =
  match write_all h ws with (h, Some _) => write_all h ws' | (h, None) => (h, None) end.
Proof. revert h. induction ws as [|a ws IH]; intros h; [done|]. cbn. by destruct (io h a). Qed.

Lemma putClaimDecision_writes dec h : putClaimDecision dec h = write_all h (claimWrites dec).
Proof.
  unfold putClaimDecision, claimWrites. destruct (accept dec); cbn [negb].
  - rewrite putClaimedSlots_writes, write_all_app. destruct (write_all h _) as [h' [[]|]]; [|done].
    cbn beta. destruct (leftovers dec); cbn [write_all]; rewrite bind_act; (destruct (io _ _); [|done]);
      repeat (rewrite bind_act; cbn [write_all]; destruct (io _ _); [|done]); unfold act; by destruct (io _ _).
  - rewrite bind_act. cbn [write_all]. destruct (io h _); [|done]. unfold act. by destruct (io _ _).
Qed.

Lemma write_all_ok h ws : (∀ h a, io h a = true) → write_all h ws = (h ++ ws, Some tt).
Proof.
  intros Hio. revert h. induction ws as [|a ws IH]; intros h; cbn; [by rewrite app_nil_r|].
  by rewrite Hio, IH, <-app_assoc.
Qed.

(** A decision of the loop: a rejection carries nothing. *)
Definition decision_ok (dec : claimDecision) : Prop :=
  accept dec = true ∨ dec = mkClaimDecision false [] None.

Lemma readReply_writes dec : decision_ok dec → readReply (claimWrites dec) = Some dec.
Proof.
  intros [Ha| ->]; [|done]. destruct dec as [a cs lo]. cbn in Ha. subst a. unfold claimWrites.
  cbn [accept claimedSlots leftovers].
  induction cs as [|[id ad] cs IH].
  - destruct lo as [[[] id ad]|]; reflexivity.
  - cbn [mbind list_bind app cs_claimID cs_ad]. cbn [readReply].
    change (replySlotAd =? replySlotAd) with true. cbn iota. rewrite IH. done.
Qed.

(** The schedd reads the decision the loop took.  When every write goes through, the
    handler of REQUEST_CLAIM submits the request it read, and what it writes back is, to a
    reader of the protocol, exactly the decision: the claimed slots with their ids and
    ads in order, the leftovers under the right code, or the rejection. *)
Theorem request_claim_reply remoteAddr reply m await ev dec :
  (∀ h a, io h a = true) → (readRequestClaim remoteAddr reply m).1 = Some ev → await ev = Some dec →
  decision_ok dec →
  ∃ ws, handleRequestClaim remoteAddr reply m await [] = (SubmitEv (EvRequestClaim ev) :: ws, Some tt) ∧
    readReply ws = Some dec.
Proof.
  intros Hio Hr Haw Hok. exists (claimWrites dec). split; [|by apply readReply_writes].
  unfold handleRequestClaim. rewrite bind_lift, Hr, bind_submit, bind_lift, Haw.
  by rewrite putClaimDecision_writes, write_all_ok.
Qed.

(** An accepted activation is handed over or torn down.  Whatever write fails, when
    the loop accepted the activation the handler ends in one of two ways: the OK reply
    was flushed and then the connection was passed to the starter, which keeps it open;
    or the exit of the starter is reported to the loop, as the last thing, so the slot
    does not stay Busy. *)
Theorem activation_handed_over_or_torn_down reply m await id job dec h r :
  readActivateClaim m = Some (id, job) → await id job = Some dec → code dec = activateOK →
  handleActivateClaim reply m await [] = (h, r) →
  (r = Some true ∧
   h = [SubmitEv (EvActivateClaim id job reply); PutInt activateOK; FinishMessage; PassSyscallConn (transport dec)]) ∨
  (r = None ∧ ∃ pre, h = pre ++ [SubmitEv (EvStarterExited (ad_slotName dec))]).
Proof.
  intros Hm Haw Hc. unfold handleActivateClaim.
  rewrite bind_lift, Hm, bind_submit, bind_lift. cbn [fst snd]. rewrite Haw, Hc.
  change (activateOK =? activateOK) with true. rewrite attempt_act. cbn beta. rewrite attempt_act. cbn beta.
  destruct (io _ _ && io _ _); cbn [negb].
  - rewrite attempt_act. cbn beta. destruct (io _ _); intros [= <- <-]; [by left|].
    right. split; [done|].
    by exists [SubmitEv (EvActivateClaim id job reply); PutInt activateOK; FinishMessage; PassSyscallConn (transport dec)].
  - intros [= <- <-]. right. split; [done|].
    by exists [SubmitEv (EvActivateClaim id job reply); PutInt activateOK; FinishMessage].
Qed.

Definition vacates (a : action) : bool := match a with SubmitEv (EvVacate _ _) => true | _ => false end.

Lemma no_vacate (h h' : list action) (r r' : option unit) n hard (P : Prop) :
  Forall (λ a, vacates a = false) h' → (h', r') = (h, r) → SubmitEv (EvVacate n hard) ∈ h → P.
Proof. intros Hf [= <- <-] Hin. rewrite Forall_forall in Hf. by specialize (Hf _ Hin). Qed.

(** C34: nothing is killed before the reply is out.  A handler of DEACTIVATE_CLAIM that asks
    the loop to vacate a slot has flushed its reply without error, knows the claim, was
    not told to wait, and was sent DEACTIVATE_CLAIM, DEACTIVATE_CLAIM_FORCIBLY or
    DEACTIVATE_CLAIM_FINAL_XFER, forcibly exactly for the second: JOB_DONE, an unknown
    claim or a failed write never vacates anything. *)
Theorem deactivate_replies_before_kill command reply m await released h r n hard :
  handleDeactivateClaim command reply m await released [] = (h, r) → SubmitEv (EvVacate n hard) ∈ h →
  ∃ id dec, (GetString m).1 = Some id ∧ await id = Some dec ∧ known dec = true ∧ deferred dec = false ∧
    n = dd_slotName dec ∧ (hard = true ↔ command = Claim.CmdDeactivateClaimForcibly) ∧
    command ≠ Claim.CmdDeactivateClaimJobDone ∧ r = Some tt ∧
    h = [SubmitEv (EvDeactivate id command reply);
         PutClassAd (adSet "Start" (VBool (negb (closing dec))) adNew); FinishMessage; SubmitEv (EvVacate n hard)].
Proof.
  unfold handleDeactivateClaim. rewrite bind_lift. destruct ((GetString m).1) as [id|]; [|by intros [= <- <-] ?%elem_of_nil].
  rewrite bind_submit, bind_lift. destruct (await id) as [dec|] eqn:Haw.
  2: { apply no_vacate. repeat constructor. }
  destruct (deferred dec && _) eqn:Hd.
  { apply no_vacate. repeat constructor. }
  rewrite bind_mret, bind_act.
  destruct (io _ _). 2: { apply no_vacate. repeat constructor. }
  rewrite bind_act.
  destruct (io _ _). 2: { apply no_vacate. repeat constructor. }
  destruct (known dec && _ && _) eqn:Hk.
  2: { apply no_vacate. repeat constructor. }
  intros [= <- <-] Hin. cbn in Hin. rewrite !elem_of_cons, elem_of_nil in Hin.
  destruct Hin as [?|[?|[?|[[= -> ->]|[]]]]]; try done.
  apply andb_true_iff in Hk as [[H1 H2%negb_true_iff]%andb_true_iff H3].
  exists id, dec. split_and!; try done.
  - apply Z.eqb_eq.
  - intros ->. done.
Qed.
End Commands.
End Handlers.

(** ** Witnesses *)

Import Handlers RefClassAd RefSecurity RefMessage.

#[local] Instance refCedar : CedarLib (CA := refLib) refMessage := {|
  cedarGetClassAd m := match AdWire.GetClassAd m with (inl _, m) => (None, m) | (inr (ad, _), m) => (Some ad, m) end
|}.

Definition allGood : io_oracle := λ _ _, true.

(** A REQUEST_CLAIM with an empty ad and one extra claim. *)
Definition demoRequestWire : Message :=
  [inr pslotID; inl 0; inr ""; inr ""; inr "<s:1>"; inl 300; inl 1; inr "old"] : list (Z + string).

Definition demoDecision : claimDecision :=
  mkClaimDecision true [mkClaimedSlotReply dslotID adNew] (Some (mkLeftoverReply true pslotID adNew)).

Lemma request_claim_reply_witness :
  ∃ ws, handleRequestClaim allGood "10.0.0.1:9618" 3%nat demoRequestWire (λ _, Some demoDecision) []
        = (SubmitEv (EvRequestClaim (mkRequestClaim pslotID adNew "<s:1>" 300 "10.0.0.1" 3%nat)) :: ws, Some tt) ∧
    readReply ws = Some demoDecision.
Proof.
  apply (request_claim_reply allGood "10.0.0.1:9618" 3%nat demoRequestWire (λ _, Some demoDecision)
           (mkRequestClaim pslotID adNew "<s:1>" 300 "10.0.0.1" 3%nat) demoDecision).
  - reflexivity.
  - reflexivity.
  - reflexivity.
  - left. reflexivity.
Defined.

(** The peer is gone when the reply is flushed. *)
Definition badFlush : io_oracle := λ _ a, match a with FinishMessage => false | _ => true end.

Definition demoActivateWire : Message :=
  [inr dslotID; inl 0; inl 0; inr ""; inr ""] : list (Z + string).

Lemma activation_handed_over_or_torn_down_witness :
  let run := handleActivateClaim badFlush 4%nat demoActivateWire
               (λ _ _, Some (mkActivateDecision activateOK (Some 1) "slot1_1@h")) [] in
  run.2 = None ∧ ∃ pre, run.1 = pre ++ [SubmitEv (EvStarterExited "slot1_1@h")].
Proof.
  destruct (activation_handed_over_or_torn_down badFlush 4%nat demoActivateWire
              (λ _ _, Some (mkActivateDecision activateOK (Some 1) "slot1_1@h")) dslotID adNew
              (mkActivateDecision activateOK (Some 1) "slot1_1@h") _ _ eq_refl eq_refl eq_refl eq_refl)
    as [[H _]|H]; [discriminate H|exact H].
Defined.

Definition demoDeactivateWire : Message := [inr dslotID] : list (Z + string).

Lemma deactivate_replies_before_kill_witness :
  ∃ id dec, (GetString demoDeactivateWire).1 = Some id ∧
    (λ _ : string, Some (mkDeactivateDecision true false "slot1_1@h" false None)) id = Some dec ∧
    "slot1_1@h" = dd_slotName dec.
Proof.
  destruct (deactivate_replies_before_kill allGood Claim.CmdDeactivateClaimForcibly 5%nat
              demoDeactivateWire
              (λ _, Some (mkDeactivateDecision true false "slot1_1@h" false None)) (λ _, true)
              [SubmitEv (EvDeactivate dslotID Claim.CmdDeactivateClaimForcibly 5%nat);
               PutClassAd (adSet "Start" (VBool true) adNew); FinishMessage; SubmitEv (EvVacate "slot1_1@h" true)]
              (Some tt) "slot1_1@h" true eq_refl) as (id & dec & H1 & H2 & _ & _ & H3 & _).
  - do 3 apply list_elem_of_further. apply list_elem_of_here.
  - exact (ex_intro _ id (ex_intro _ dec (conj H1 (conj H2 H3)))).
Defined.
