(* ===== verification/Query.v ===== *)
(** * Queries (internal/startd/startd.go)

    QUERY_STARTD_ADS streams the public ads of the slots that match a query; GIVE_STATE
    answers with a slot's state; the table of commands and the level each is registered
    at.  The query language ([vm.Parse], [Query.Matches]) is a library. *)

From S2P Require Import Prelude GoLang ClassAd Claim Slot SlotFacts Persist Persister StarterMsg Reconnect Args AdWire.
From S2P Require Import Core CoreFrame CoreDemo Handlers.
From Stdlib Require Import Ascii.

Import Core Handlers.

Local Open Scope Z_scope.

Module Query.
Section Query.
Context {CA : ClassAdLib} {SL : SecurityLib} {RS : Persist.RecordStore} {ML : MessageLib} {CL : CedarLib ML}.

(** [vm.Parse] and [Query.Matches]. *)
Context {Q : Type} (vmParse : string → option Q) (Matches : Q → ClassAd → bool).

Definition listSep (c : ascii) : bool :=
  let v := byte_val c in (v =? 44) || (v =? 32) || (v =? 9) || (v =? 10).

Definition queryOf (queryAd : ClassAd) : option Q :=
  match adLookup "Requirements" queryAd with
  | Some e =>
      let s := TrimSpace (ExprString e) in
      if bool_decide (s = "") || EqualFold s "true" then None else vmParse s
  | None => None
  end.

(** The first of the two attributes that is not blank. *)
Definition projectionOf (queryAd : ClassAd) : list string :=
  let attr n := match EvaluateAttrString n queryAd with
                | Some s => if bool_decide (TrimSpace s = "") then None else Some s
                | None => None
                end in
  match attr "Projection" with
  | Some s => Args.FieldsFunc s listSep
  | None => match attr "ProjectionAttributes" with Some s => Args.FieldsFunc s listSep | None => [] end
  end.

Definition parseQuery (queryAd : ClassAd) : option Q * list string := (queryOf queryAd, projectionOf queryAd).

Definition project (ad : ClassAd) (attrs : list string) : ClassAd :=
  foldl (λ out a, match adLookup a ad with Some e => adInsertExpr a e out | None => out end) adNew attrs.

(** What is sent for one ad, if anything. *)
Definition answer (q : option Q * list string) (ad : ClassAd) : option ClassAd :=
  if match q.1 with Some q => negb (Matches q ad) | None => false end then None
  else Some (if bool_decide (q.2 = []) then ad else project ad q.2).

(** The loop over the live slots: the writes, and the sequence numbers [PublicAd]
    advances. *)
Fixpoint serveSlots (io : io_oracle) (env : Env) (q : option Q * list string) (ls : list loc) (h : list action) (c : Core)
    : (list action * option unit) * Core :=
  match ls with
  | [] => ((h, Some tt), c)
  | l :: ls =>
      let '(ad, c) := publicAd env l c in
      match answer q ad with
      | None => serveSlots io env q ls h c
      | Some out =>
          match (act io (PutInt 1);; act io (PutClassAd out)) h with
          | (h, Some _) => serveSlots io env q ls h c
          | (h, None) => ((h, None), c)
          end
      end
  end.

Definition handleQueryStartdAds (io : io_oracle) (env : Env) (m : Message) (c : Core) : (list action * option unit) * Core :=
  match cedarGetClassAd m with
  | (None, _) => (([], None), c)
  | (Some queryAd, _) =>
      match serveSlots io env (parseQuery queryAd) (LiveSlots c) [] c with
      | ((h, Some _), c) => ((act io (PutInt 0);; act io FinishMessage) h, c)
      | ((h, None), c) => ((h, None), c)
      end
  end.

Definition handleGiveState (io : io_oracle) (c : Core) : list action * option unit :=
  let state := match slots c with
               | l :: _ => match heap c !! l with Some s => Slot.state s | None => "Unclaimed" end
               | [] => "Unclaimed"
               end in
  (act io (PutString state);; act io FinishMessage) [].

(** ** The command table *)

Definition QUERY_STARTD_ADS : Z := 5.
Definition GIVE_STATE : Z := 448.

Definition claimCommands : list (Z * string) :=
  [ (Claim.CmdMatchInfo, "NEGOTIATOR"); (Claim.CmdRequestClaim, "DAEMON"); (Claim.CmdReleaseClaim, "DAEMON");
    (Claim.CmdActivateClaim, "DAEMON"); (Claim.CmdDeactivateClaim, "DAEMON");
    (Claim.CmdDeactivateClaimForcibly, "DAEMON"); (Claim.CmdDeactivateClaimJobDone, "DAEMON");
    (Claim.CmdDeactivateFinalXfer, "DAEMON") ].

Definition RegisterCommands (haveMinter : bool) : list (Z * string) :=
  [ (QUERY_STARTD_ADS, "READ"); (GIVE_STATE, "READ"); (Reconnect.CACmd, "WRITE") ]
  ++ (if haveMinter then claimCommands else []).

(** ** Properties *)

Context {CAL : ClassAdLaws CA}.

(** The reply to a query, as the list of writes. *)
Definition queryWrites (q : option Q * list string) (ads : list ClassAd) : list action :=
  (omap (answer q) ads ≫= λ ad, [PutInt 1; PutClassAd ad]) ++ [PutInt 0; FinishMessage].

(** The ads of the live slots, each as it is when its turn comes. *)
Definition liveAds (env : Env) (c : Core) : list ClassAd := (λ l, (publicAd env l c).1) <$> LiveSlots c.

Lemma publicAd_other env l l' c :
  l ≠ l' → (publicAd env l' (publicAd env l c).2).1 = (publicAd env l' c).1.
Proof.
  intros Hl. unfold publicAd at 2. destruct (heap c !! l) as [s|]; [|done].
  unfold publicAd. cbn [heap set_heap Slot.PublicAd snd]. rewrite lookup_insert_ne by done. by case_match.
Qed.

Lemma liveAds_other env l (ls : list loc) c :
  l ∉ ls → (λ l', (publicAd env l' (publicAd env l c).2).1) <$> ls = (λ l', (publicAd env l' c).1) <$> ls.
Proof.
  intros Hl. apply list_fmap_ext. intros i l' Hi. apply publicAd_other.
  intros ->. by apply Hl, (list_elem_of_lookup_2 _ i).
Qed.

Lemma serveSlots_writes io env q ls h c :
  NoDup ls →
  (serveSlots io env q ls h c).1 =
    write_all io h (omap (answer q) ((λ l, (publicAd env l c).1) <$> ls) ≫= λ ad, [PutInt 1; PutClassAd ad]).
Proof.
  revert h c. induction ls as [|l ls IH]; intros h c Hnd; [done|]. apply NoDup_cons in Hnd as [Hl Hnd].
  cbn [serveSlots]. rewrite fmap_cons, <-(liveAds_other env l ls c Hl).
  destruct (publicAd env l c) as [ad c']. cbn [fst snd omap list_omap]. destruct (answer q ad) as [out|]; [|by apply IH].
  cbn [mbind list_bind app write_all]. rewrite bind_act. destruct (io h _); [|done].
  unfold act. destruct (io _ _); [|done]. by apply IH.
Qed.

Lemma erase_serveSlots io env q ls h c : erase (serveSlots io env q ls h c).2 = erase c.
Proof.
  revert h c. induction ls as [|l ls IH]; intros h c; [done|]. cbn [serveSlots].
  pose proof (erase_publicAd env l c) as He. destruct (publicAd env l c) as [ad c']. cbn [snd] in He. rewrite <-He.
  destruct (answer q ad); [|apply IH]. case_match; case_match; [apply IH|done].
Qed.

(** An ad whose lookup does not depend on the case of the name: what [Set] and
    [InsertExpr] build. *)
Definition caseless (ad : ClassAd) : Prop := ∀ n m, ToLower n = ToLower m → adLookup n ad = adLookup m ad.

Lemma caseless_run_ops ops : caseless (run_ops ops adNew).
Proof. intros n m H. rewrite !lookup_run_ops_new. by apply last_op_case. Qed.

Definition selectedBy (n : string) (attrs : list string) : bool :=
  existsb (λ a, bool_decide (ToLower a = ToLower n)) attrs.

Lemma project_lookup ad attrs n :
  caseless ad → adLookup n (project ad attrs) = if selectedBy n attrs then adLookup n ad else None.
Proof.
  intros Hc. unfold project.
  enough (∀ out, adLookup n (foldl (λ out a, match adLookup a ad with Some e => adInsertExpr a e out | None => out end) out attrs)
                 = match adLookup n ad with
                   | Some e => if selectedBy n attrs then Some e else adLookup n out
                   | None => adLookup n out
                   end) as H.
  { rewrite H, ad_lookup_new. destruct (adLookup n ad); [done|]. by destruct (selectedBy n attrs). }
  induction attrs as [|a attrs IH]; intros out; cbn [foldl selectedBy existsb]; [by destruct (adLookup n ad)|].
  rewrite IH. change (existsb _ attrs) with (selectedBy n attrs).
  destruct (adLookup a ad) as [e|] eqn:Ea; [rewrite ad_lookup_insert|]; case_bool_decide as Hn;
    try rewrite (Hc _ _ Hn) in Ea; destruct (adLookup n ad); simplify_eq; destruct (selectedBy n attrs); done.
Qed.

Lemma publicAd_caseless env l c : caseless (publicAd env l c).1.
Proof. unfold publicAd. destruct (heap c !! l); [|intros n m _; cbn [fst]; by rewrite !ad_lookup_new]. apply caseless_run_ops. Qed.

Lemma publicAd_no_secrets env l c : Forall (λ n, adLookup n (publicAd env l c).1 = None) SlotFacts.secretAttrs.
Proof.
  unfold publicAd. destruct (heap c !! l); [apply SlotFacts.public_no_secrets|].
  repeat constructor; apply ad_lookup_new.
Qed.

(** An answer tells at most what the ad does, and all of it without a projection. *)
Lemma answer_lookup q ad out n :
  caseless ad → answer q ad = Some out →
  adLookup n out = if bool_decide (q.2 = []) || selectedBy n q.2 then adLookup n ad else None.
Proof.
  intros Hc. unfold answer. destruct (match q.1 with Some _ => _ | None => _ end); [done|]. intros [= <-].
  case_bool_decide; [done|]. by apply project_lookup.
Qed.

Lemma write_all_sub io h ws a : a ∈ (write_all io h ws).1 → a ∈ h ∨ a ∈ ws.
Proof.
  revert h. induction ws as [|w ws IH]; intros h; [by left|]. cbn [write_all]. rewrite elem_of_cons.
  destruct (io h w); [intros [Hin|]%IH; [|tauto]|intros Hin; cbn [fst] in Hin];
    apply elem_of_app in Hin as [?|?%list_elem_of_singleton]; tauto.
Qed.

Lemma queryWrites_ads q ads out : PutClassAd out ∈ queryWrites q ads → ∃ ad, ad ∈ ads ∧ answer q ad = Some out.
Proof.
  unfold queryWrites. rewrite elem_of_app, list_elem_of_bind. intros [(ad & Hin & Had)|Hin].
  - rewrite !elem_of_cons, elem_of_nil in Hin. destruct Hin as [?|[[= ->]|[]]]; [done|].
    by apply list_elem_of_omap in Had.
  - rewrite !elem_of_cons, elem_of_nil in Hin. by destruct Hin as [?|[?|[]]].
Qed.

Lemma query_writes io env m c queryAd m' :
  NoDup (LiveSlots c) → cedarGetClassAd m = (Some queryAd, m') →
  (handleQueryStartdAds io env m c).1 = write_all io [] (queryWrites (parseQuery queryAd) (liveAds env c)).
Proof.
  intros Hnd Hm. unfold handleQueryStartdAds, queryWrites. rewrite Hm, write_all_app.
  pose proof (serveSlots_writes io env (parseQuery queryAd) _ [] c Hnd) as Hs. fold (liveAds env c) in Hs.
  destruct (serveSlots _ _ _ _ _ _) as [[h [[]|]] c']; cbn [fst] in Hs; rewrite <-Hs; [|done].
  cbn [fst write_all]. rewrite bind_act. destruct (io h _); [|done]. unfold act. by destruct (io _ _).
Qed.

(** C17: a query is answered with the matching public ads and changes nothing.  The reply
    is, up to the first write that fails, one [1] and one ad for each live slot whose
    public ad matches, in order, then [0] and the end of the message; a projection keeps
    exactly the attributes it names, whatever their case; no ad of the reply carries a
    claim id, whatever attributes the query asks for; and the core is left as it was but
    for the ads' sequence numbers. *)
Theorem query_answer io env m c queryAd m' :
  NoDup (LiveSlots c) → cedarGetClassAd m = (Some queryAd, m') →
  (handleQueryStartdAds io env m c).1 = write_all io [] (queryWrites (parseQuery queryAd) (liveAds env c)) ∧
  (∀ ad out n, ad ∈ liveAds env c → answer (parseQuery queryAd) ad = Some out →
     adLookup n out = if bool_decide (projectionOf queryAd = []) || selectedBy n (projectionOf queryAd)
                      then adLookup n ad else None) ∧
  (∀ out, PutClassAd out ∈ (handleQueryStartdAds io env m c).1.1 →
     Forall (λ n, adLookup n out = None) SlotFacts.secretAttrs) ∧
  erase (handleQueryStartdAds io env m c).2 = erase c.
Proof.
  intros Hnd Hm. pose proof (query_writes io env m c _ _ Hnd Hm) as Hw. split_and!; [done| | |].
  - intros ad out n (l & -> & _)%list_elem_of_fmap Ha.
    by apply (answer_lookup (parseQuery queryAd) _ _ n (publicAd_caseless env l c)) in Ha.
  - intros out. rewrite Hw. intros [?%elem_of_nil|(ad & (l & -> & _)%list_elem_of_fmap & Ha)%queryWrites_ads]%write_all_sub; [done|].
    pose proof (publicAd_no_secrets env l c) as Hs. eapply Forall_impl; [exact Hs|]. intros n Hn. cbn beta in Hn.
    rewrite (answer_lookup _ _ _ n (publicAd_caseless env l c) Ha), Hn. by destruct (_ || _).
  - unfold handleQueryStartdAds. rewrite Hm. pose proof (erase_serveSlots io env (parseQuery queryAd) (LiveSlots c) [] c) as He.
    by destruct (serveSlots _ _ _ _ _ _) as [[h [[]|]] c'].
Qed.
End Query.
End Query.

(** ** Witness: a client asks for the secret by name *)

Import Query RefClassAd RefSecurity RefMessage.

Definition nosyQuery : ClassAd (ClassAdLib := refLib) := adSet "Projection" (VString "name, ClaimId") adNew.

#[local] Instance nosyCedar : CedarLib (CA := refLib) refMessage := {| cedarGetClassAd m := (Some nosyQuery, m) |}.

Definition nosyWire : Message (MessageLib := refMessage) := ([] : list (Z + string)).

Definition noQuery (s : string) : option unit := None.

Lemma query_answer_witness :
  (∀ out, PutClassAd out ∈ (handleQueryStartdAds noQuery (λ _ _, true) allGood demoEnv nosyWire demo0).1.1 →
     adLookup "ClaimId" out = None) ∧
  omap (answer (λ _ _, true) (parseQuery noQuery nosyQuery)) (liveAds demoEnv demo0) ≠ [].
Proof.
  destruct (query_answer noQuery (λ _ _, true) allGood demoEnv nosyWire demo0 nosyQuery nosyWire)
    as (_ & _ & Hs & _).
  - apply (bool_decide_unpack (NoDup (LiveSlots demo0))). vm_compute. exact I.
  - reflexivity.
  - split.
    + intros out Hin. specialize (Hs out Hin). inversion Hs; assumption.
    + vm_compute. discriminate.
Defined.
