(* ===== verification/Grant.v ===== *)
(** * A claim, from the request on the wire to the schedd that holds it

    The handler of REQUEST_CLAIM composed with the event loop: what the schedd reads off
    the connection against the state the loop is left in.  An accepted reply means that a
    slot is Claimed/Idle for this schedd with a keepalive loop, under the id the reply
    tells; a refusal that nothing was claimed. *)

From S2P Require Import Prelude GoLang ClassAd Claim Slot SlotFacts Persist Persister StarterMsg Reconnect AdWire.
From S2P Require Import Registry Core CoreFrame CoreDemo CoreReg CoreInit Lifecycle ClaimIds CoreReply CoreProps Adoption Restart Handlers Query.

Import Core Handlers.

Local Open Scope Z_scope.
Local Open Scope ep_scope.

Module Grant.

(** ** What the loop decides *)

Section Loop.
Context {CA : ClassAdLib} {SL : SecurityLib} {RS : Persist.RecordStore}.
Implicit Types (c : Core) (s : Slot.Slot) (env : Env) (l : loc) (ev : evRequestClaim).

(** The trace only grows. *)
Lemma kept_emit e e' c : e ∈ trace c → e ∈ trace (emit e' c).
Proof. intros H. cbn. apply elem_of_app. by left. Qed.

Lemma kept_emitAll e es c : e ∈ trace c → e ∈ trace (emitAll es c).
Proof. revert c. induction es as [|x es IH]; intros c H; [done|]. by apply IH, kept_emit. Qed.

Lemma trace_publicAd env l c : trace (publicAd env l c).2 = trace c.
Proof. unfold publicAd. by repeat case_match; simplify_eq. Qed.

Lemma kept_reAdvertise e env c : e ∈ trace c → e ∈ trace (reAdvertise env c).
Proof.
  intros H. unfold reAdvertise. destruct (haveAdv (cfg c)); [|done]. unfold Advertise. destruct (collectors env) as [|a r]; [done|].
  set (ls := LiveSlots c). clearbody ls. revert c H. induction ls as [|l ls IH]; intros c H; [done|]. cbn [foldl].
  apply IH. unfold advertiseSlot. pose proof (trace_publicAd env l c) as Ht. destruct (publicAd env l c) as [ad c'].
  cbn [snd] in Ht. rewrite <-Ht in H. case_match; [by apply kept_emitAll|done].
Qed.

Lemma trace_claimedBlock env ev x l c : trace (claimedBlock env ev x l c).2 = trace c.
Proof.
  unfold claimedBlock. case_match; [|done]. pose proof (trace_publicAd env l c). by destruct (publicAd env l c).
Qed.

Lemma trace_leftoversBlock env ev x l c : trace (leftoversBlock env ev x l c).2 = trace c.
Proof.
  unfold leftoversBlock. case_match; [|done]. pose proof (trace_publicAd env l c). by destruct (publicAd env l c).
Qed.

(** The keepalive loop of a claim that [ev] was granted. *)
Definition aliveGo ev c (ctx : ctxid) (n x : string) : effect :=
  EGo (GAliveLoop ctx n (rc_scheddAddr ev) x
         (Claim.AlivePeriod (rc_aliveInterval ev) (alivesMissed (cfg c)))
         (Claim.LeaseDuration (rc_aliveInterval ev) (alivesMissed (cfg c)))).

(** [ad] is an ad of the slot, without its secrets. *)
Definition adOf (ad : ClassAd) s : Prop :=
  adLookup "Cpus" ad = Some (Lit (VInt (Slot.Cpus (Slot.Res s)))) ∧
  adLookup "Memory" ad = Some (Lit (VInt (Slot.MemoryMB (Slot.Res s)))) ∧
  adLookup "Disk" ad = Some (Lit (VInt (Slot.DiskKB (Slot.Res s)))) ∧
  EvaluateAttrString "State" ad = Some (Slot.state s) ∧
  Forall (λ n, adLookup n ad = None) secretAttrs.

(** The blocks of the reply. *)
Definition slotTold ev (x : string) s (cs : list claimedSlotReply) : Prop :=
  if adBool (rc_reqAd ev) "_condor_SEND_CLAIMED_AD" then ∃ ad, cs = [mkClaimedSlotReply x ad] ∧ adOf ad s else cs = [].

Definition leftoversTold ev (x : string) s (lo : option leftoverReply) : Prop :=
  if adBool (rc_reqAd ev) "_condor_SEND_LEFTOVERS"
  then ∃ ad, lo = Some (mkLeftoverReply (adBool (rc_reqAd ev) "_condor_SECURE_CLAIM_ID") x ad) ∧ adOf ad s
  else lo = None.

Context {CAL : ClassAdLaws CA}.

Lemma publicAd_adOf env l c q : heap (erase c) !! l = Some q → adOf (publicAd env l c).1 q.
Proof.
  rewrite heap_erase. intros (s & Hs & ->)%fmap_Some. unfold publicAd. rewrite Hs. cbn [fst Slot.PublicAd].
  destruct (buildAd_reflects_slot (host env) (now env) true (Slot.with_seq (wrap64 (Slot.seq s + 1)) s)) as (H1 & H2 & H3 & H4 & _).
  split_and!; try done. apply public_no_secrets.
Qed.

Lemma claimedBlock_told env ev x l c q :
  heap (erase c) !! l = Some q → slotTold ev x q (claimedBlock env ev x l c).1.
Proof.
  intros Hq. unfold slotTold, claimedBlock. destruct (adBool _ _); [|done].
  pose proof (publicAd_adOf env l c q Hq) as H. destruct (publicAd env l c) as [ad c']. eauto.
Qed.

Lemma leftoversBlock_told env ev x l c q :
  heap (erase c) !! l = Some q → leftoversTold ev x q (leftoversBlock env ev x l c).1.
Proof.
  intros Hq. unfold leftoversTold, leftoversBlock. destruct (adBool (rc_reqAd ev) "_condor_SEND_LEFTOVERS"); [|done].
  pose proof (publicAd_adOf env l c q Hq) as H. destruct (publicAd env l c) as [ad c']. eauto.
Qed.

Lemma startAlive_go ev l c q cl :
  heap (erase c) !! l = Some q → Slot.claim q = Some cl →
  Claim.scheddAddr cl = rc_scheddAddr ev → Claim.aliveInterval cl = rc_aliveInterval ev →
  aliveGo ev c (nextCtx c) (Slot.Name q) (Claim.claimID cl) ∈ trace (startAliveLoop l c).
Proof.
  rewrite heap_erase. intros (s & Hs & ->)%fmap_Some Hcl H1 H2. unfold startAliveLoop. rewrite Hs.
  change (Slot.claim s = Some cl) in Hcl. rewrite Hcl. unfold aliveGo. rewrite <-H1, <-H2.
  cbn. apply elem_of_app. right. by apply list_elem_of_singleton.
Qed.

(** The end of both ways to grant: the reply, and a new ad. *)
Lemma reply_sent env ev c dec e :
  e ∈ trace c →
  let c' := c |> emit (EClaimReply (rc_reply ev) dec) |> reAdvertise env in
  erase c' = erase c ∧ answers c' = answers c ++ [EClaimReply (rc_reply ev) dec] ∧ e ∈ trace c'.
Proof.
  intros He. cbn zeta. split_and!.
  - by autorewrite with erase.
  - quiet_obs. by apply obs_emit.
  - by apply kept_reAdvertise, kept_emit.
Qed.

(** From the keepalive loop of the new slot at [d] on. *)
Lemma carve_tail env ev d l x y c q qp dcl :
  heap (erase c) !! d = Some q → heap (erase c) !! l = Some qp → Slot.claim q = Some dcl →
  Claim.scheddAddr dcl = rc_scheddAddr ev → Claim.aliveInterval dcl = rc_aliveInterval ev → Claim.claimID dcl = x →
  let c' := (let '(claimed, c) := claimedBlock env ev x d (startAliveLoop d c) in
             let '(lo, c) := leftoversBlock env ev y l c in
             c |> emit (EClaimReply (rc_reply ev) (mkClaimDecision true claimed lo)) |> reAdvertise env) in
  erase c' = set_cancels (matchCancels (erase c)) (<[Slot.Name q := nextCtx (erase c)]> (aliveCancels (erase c)))
               (S (nextCtx (erase c))) (erase c) ∧
  aliveGo ev c (nextCtx c) (Slot.Name q) x ∈ trace c' ∧
  ∃ claimed lo, answers c' = answers c ++ [EClaimReply (rc_reply ev) (mkClaimDecision true claimed lo)] ∧
    slotTold ev x q claimed ∧ leftoversTold ev y qp lo.
Proof.
  intros Hd Hp Hcl H1 H2 Hx. cbn zeta. pose proof (startAlive_go ev d c q dcl Hd Hcl H1 H2) as Hgo. rewrite Hx in Hgo.
  pose proof (erase_startAliveLoop d c q dcl Hd Hcl) as E2. rewrite <-E2.
  rewrite <-(obs_startAliveLoop d c). set (c2 := startAliveLoop d c) in *.
  assert (heap (erase c2) = heap (erase c)) as Hh2 by (by rewrite E2).
  rewrite <-Hh2 in Hd, Hp. clearbody c2.
  pose proof (claimedBlock_told env ev x d c2 _ Hd) as Htold.
  pose proof (erase_claimedBlock env ev x d c2) as E3.
  pose proof (obs_claimedBlock env ev x d c2) as Ha3.
  pose proof (trace_claimedBlock env ev x d c2) as Ht3.
  destruct (claimedBlock env ev x d c2) as [claimed c3]. cbn [fst snd] in *. rewrite <-E3 in Hp.
  pose proof (leftoversBlock_told env ev y l c3 _ Hp) as Hlo.
  pose proof (erase_leftoversBlock env ev y l c3) as E4.
  pose proof (obs_leftoversBlock env ev y l c3) as Ha4.
  pose proof (trace_leftoversBlock env ev y l c3) as Ht4.
  destruct (leftoversBlock env ev y l c3) as [lo c4]. cbn [fst snd] in *.
  rewrite <-Ht3, <-Ht4 in Hgo. destruct (reply_sent env ev c4 (mkClaimDecision true claimed lo) _ Hgo) as (E5 & Ha5 & Hgo').
  split_and!; [by rewrite E5, E4, E3|exact Hgo'|]. exists claimed, lo. split_and!; [|done|done].
  by rewrite Ha5, Ha4, Ha3.
Qed.

(** The dynamic slot a request on [ps] is carved. *)
Definition carvedSlot env ev ps (dClaim : Claim.Claim) c : Slot.Slot :=
  Slot.NewDynamicSlot ps (wrap64 (dslotSeq c + 1)) (requestedResources (rc_reqAd ev)) (now env)
    |> Slot.SetClaim dClaim
    |> Slot.AcceptClaim (now env) (acceptInfo env ev c).

(** The counters after minting, and the state when the carve is done and its records are
    queued. *)
Definition counted (m' : Claim.Minter) c : Core :=
  set_dslotSeq (wrap64 (dslotSeq (set_minter (Some m') c) + 1)) (set_minter (Some m') c).

Definition carveState env ev l ps (m' : Claim.Minter) (dClaim : Claim.Claim) c : Core :=
  counted m' c
    |> updSlot l (Slot.Carve (requestedResources (rc_reqAd ev)))
    |> addDSlot (Slot.NewDynamicSlot ps (dslotSeq (counted m' c)) (requestedResources (rc_reqAd ev)) (now env)
                   |> Slot.SetClaim dClaim
                   |> Slot.AcceptClaim (now env) (acceptInfo env ev (counted m' c)))
    |> refreshPSlotChildren l
    |> persistSlot (nextLoc (counted m' c))
    |> persistSlot l.

Lemma erase_carveState env ev l ps m' dClaim c :
  erase (carveState env ev l ps m' dClaim c) =
  addDSlot (quiet_slot (carvedSlot env ev ps dClaim c))
    (updSlot l (Slot.Carve (requestedResources (rc_reqAd ev)))
       (set_dslotSeq (wrap64 (dslotSeq c + 1)) (set_minter (Some m') (erase c)))).
Proof. unfold carveState. by autorewrite with erase. Qed.

Lemma obs_carveState env ev l ps m' dClaim c : answers (carveState env ev l ps m' dClaim c) = answers c.
Proof. unfold carveState. by quiet_obs. Qed.

Lemma doRequestClaimPSlot_eq env ev l ps cl m m' dClaim c :
  heap c !! l = Some ps → minter c = Some m → requirementsMet env ps (rc_reqAd ev) = true →
  Slot.CanCarve (requestedResources (rc_reqAd ev)) ps = true → Claim.Mint m = (m', Some dClaim) →
  doRequestClaimPSlot env ev l cl c =
  (let '(claimed, c') := claimedBlock env ev (Claim.claimID dClaim) (nextLoc (counted m' c))
                           (startAliveLoop (nextLoc (counted m' c)) (carveState env ev l ps m' dClaim c)) in
   let '(lo, c') := leftoversBlock env ev (Claim.claimID cl) l c' in
   c' |> emit (EClaimReply (rc_reply ev) (mkClaimDecision true claimed lo)) |> reAdvertise env).
Proof. intros H1 H2 H3 H4 H5. unfold doRequestClaimPSlot. rewrite H1, H2, H3, H4, H5. unfold carveState, counted. cbn [negb]. cbn zeta. reflexivity. Qed.

(** The request on the p-slot at [l] is granted with [dClaim]: the state left behind, and
    the reply. *)
Record carved env ev l ps (cl dClaim : Claim.Claim) c c' : Prop := {
  cv_fits : Slot.CanCarve (requestedResources (rc_reqAd ev)) ps = true;
  cv_minted : ∃ m m', minter c = Some m ∧ Claim.Mint m = (m', Some dClaim) ∧
    erase c' = (let d := quiet_slot (carvedSlot env ev ps dClaim c) in
      erase c |> set_minter (Some m') |> set_dslotSeq (wrap64 (dslotSeq c + 1))
        |> updSlot l (Slot.Carve (requestedResources (rc_reqAd ev))) |> addDSlot d
        |> set_cancels (matchCancels c) (<[Slot.Name d := nextCtx c]> (aliveCancels c)) (S (nextCtx c)));
  cv_alive : aliveGo ev c (nextCtx c) (Slot.Name (carvedSlot env ev ps dClaim c)) (Claim.claimID dClaim) ∈ trace c';
  cv_reply : ∃ claimed lo,
    answers c' = answers c ++ [EClaimReply (rc_reply ev) (mkClaimDecision true claimed lo)] ∧
    slotTold ev (Claim.claimID dClaim) (carvedSlot env ev ps dClaim c) claimed ∧
    leftoversTold ev (Claim.claimID cl) (Slot.Carve (requestedResources (rc_reqAd ev)) ps) lo
}.

Lemma carve_granted env ev l ps cl m m' dClaim c :
  heap c !! l = Some ps → l ≠ nextLoc c → minter c = Some m → requirementsMet env ps (rc_reqAd ev) = true →
  Slot.CanCarve (requestedResources (rc_reqAd ev)) ps = true → Claim.Mint m = (m', Some dClaim) →
  carved env ev l ps cl dClaim c (doRequestClaimPSlot env ev l cl c).
Proof.
  intros Hps Hl Hm Hreq Hc HM. rewrite (doRequestClaimPSlot_eq env ev l ps cl m m' dClaim c Hps Hm Hreq Hc HM).
  change (nextLoc (counted m' c)) with (nextLoc c). pose proof (erase_carveState env ev l ps m' dClaim c) as E1.
  pose proof (obs_carveState env ev l ps m' dClaim c) as Ha.
  revert E1 Ha. generalize (carveState env ev l ps m' dClaim c) as c1. intros c1 E1 Ha.
  edestruct (carve_tail env ev (nextLoc c) l (Claim.claimID dClaim) (Claim.claimID cl) c1) as (E2 & Hgo & Hrep).
  - rewrite E1. cbn. apply lookup_insert_eq.
  - rewrite E1. cbn. rewrite lookup_insert_ne, lookup_alter_eq, lookup_fmap, Hps by done. reflexivity.
  - reflexivity.
  - reflexivity.
  - reflexivity.
  - reflexivity.
  - revert E2 Hgo Hrep. match goal with |- erase ?x = _ → _ => generalize x end. intros c' E2 Hgo Hrep.
    assert (nextCtx c1 = nextCtx c) as Hctx by exact (f_equal nextCtx E1).
    assert (cfg c1 = cfg c) as Hcfg by exact (f_equal cfg E1).
    constructor; [exact Hc| | |rewrite Ha in Hrep; exact Hrep].
    + exists m, m'. split; [exact Hm|]. split; [exact HM|]. rewrite E1 in E2. exact E2.
    + unfold aliveGo in Hgo. rewrite Hctx, Hcfg in Hgo. exact Hgo.
Qed.

Lemma doRequestClaimPSlot_cases env ev l ps cl c :
  heap c !! l = Some ps → l ≠ nextLoc c →
  (∃ om, doRequestClaimPSlot env ev l cl c = rejectClaim ev (set_minter om c)) ∨
  ∃ dClaim, carved env ev l ps cl dClaim c (doRequestClaimPSlot env ev l cl c).
Proof.
  intros Hps Hl. assert (c = set_minter (minter c) c) as Heta by (by destruct c).
  destruct (minter c) as [m|] eqn:Em; [destruct (requirementsMet env ps (rc_reqAd ev)) eqn:Er;
    [destruct (Slot.CanCarve (requestedResources (rc_reqAd ev)) ps) eqn:Ec;
      [destruct (Claim.Mint m) as [m' [dClaim|]] eqn:EM; [right; exists dClaim; by eapply carve_granted|]|]|]|]; left.
  - exists (Some m'). unfold doRequestClaimPSlot. by rewrite Hps, Em, Er, Ec, EM.
  - exists (Some m). rewrite <-Heta. unfold doRequestClaimPSlot. by rewrite Hps, Em, Er, Ec.
  - exists (Some m). rewrite <-Heta. unfold doRequestClaimPSlot. by rewrite Hps, Em, Er.
  - exists None. rewrite <-Heta. unfold doRequestClaimPSlot. by rewrite Hps, Em.
Qed.
(** A slot that is not partitionable is granted as it is. *)
Record accepted env ev l s (cl : Claim.Claim) c c' : Prop := {
  ac_state : erase c' =
    (erase c |> updSlot l (Slot.AcceptClaim (now env) (acceptInfo env ev c))
       |> set_cancels (matchCancels c) (<[Slot.Name s := nextCtx c]> (aliveCancels c)) (S (nextCtx c)));
  ac_alive : aliveGo ev c (nextCtx c) (Slot.Name s) (Claim.claimID cl) ∈ trace c';
  ac_reply : ∃ claimed,
    answers c' = answers c ++ [EClaimReply (rc_reply ev) (mkClaimDecision true claimed None)] ∧
    slotTold ev (Claim.claimID cl) (Slot.AcceptClaim (now env) (acceptInfo env ev c) s) claimed
}.

Definition acceptSlot env ev l s (cl : Claim.Claim) c : Core :=
  let c := c |> updSlot l (Slot.AcceptClaim (now env) (acceptInfo env ev c)) |> persistSlot l in
  let '(claimed, c) := claimedBlock env ev (Claim.claimID cl) l c in
  c |> startAliveLoop l
    |> emit (EClaimReply (rc_reply ev) (mkClaimDecision true claimed None))
    |> reAdvertise env.

(** From the reply's block on. *)
Lemma accept_tail env ev l x c q dcl :
  heap (erase c) !! l = Some q → Slot.claim q = Some dcl →
  Claim.scheddAddr dcl = rc_scheddAddr ev → Claim.aliveInterval dcl = rc_aliveInterval ev → Claim.claimID dcl = x →
  let c' := (let '(claimed, c) := claimedBlock env ev x l c in
             c |> startAliveLoop l |> emit (EClaimReply (rc_reply ev) (mkClaimDecision true claimed None))
               |> reAdvertise env) in
  erase c' = set_cancels (matchCancels (erase c)) (<[Slot.Name q := nextCtx (erase c)]> (aliveCancels (erase c)))
               (S (nextCtx (erase c))) (erase c) ∧
  aliveGo ev c (nextCtx c) (Slot.Name q) x ∈ trace c' ∧
  ∃ claimed, answers c' = answers c ++ [EClaimReply (rc_reply ev) (mkClaimDecision true claimed None)] ∧
    slotTold ev x q claimed.
Proof.
  intros Hq Hcl H1 H2 Hx. cbn zeta. pose proof (claimedBlock_told env ev x l c _ Hq) as Htold.
  pose proof (erase_claimedBlock env ev x l c) as E1. pose proof (obs_claimedBlock env ev x l c) as Ha1.
  destruct (claimedBlock env ev x l c) as [claimed c1]. cbn [fst snd] in *. rewrite <-E1 in Hq.
  pose proof (startAlive_go ev l c1 q dcl Hq Hcl H1 H2) as Hgo. rewrite Hx in Hgo.
  pose proof (f_equal nextCtx E1 : nextCtx c1 = nextCtx c) as Hctx. pose proof (f_equal cfg E1 : cfg c1 = cfg c) as Hcfg.
  destruct (reply_sent env ev _ (mkClaimDecision true claimed None) _ Hgo) as (E2 & Ha2 & Hgo').
  split_and!.
  - by rewrite E2, (erase_startAliveLoop l c1 q dcl Hq Hcl), E1.
  - unfold aliveGo in Hgo'. rewrite Hctx, Hcfg in Hgo'. exact Hgo'.
  - exists claimed. split; [|done]. by rewrite Ha2, obs_startAliveLoop, Ha1.
Qed.

Lemma accept_granted env ev l s cl c :
  heap c !! l = Some s → Slot.claim s = Some cl → accepted env ev l s cl c (acceptSlot env ev l s cl c).
Proof.
  intros Hs Hcl. unfold acceptSlot. cbn zeta.
  set (info := acceptInfo env ev c).
  assert (erase (persistSlot l (updSlot l (Slot.AcceptClaim (now env) info) c))
          = updSlot l (Slot.AcceptClaim (now env) info) (erase c)) as E1 by (by autorewrite with erase).
  assert (answers (persistSlot l (updSlot l (Slot.AcceptClaim (now env) info) c)) = answers c) as Ha by (by quiet_obs).
  revert E1 Ha. generalize (persistSlot l (updSlot l (Slot.AcceptClaim (now env) info) c)) as c1. intros c1 E1 Ha.
  edestruct (accept_tail env ev l (Claim.claimID cl) c1) as (E2 & Hgo & Hrep).
  - rewrite E1. cbn. rewrite lookup_alter_eq, lookup_fmap, Hs. reflexivity.
  - cbn. rewrite Hcl. reflexivity.
  - reflexivity.
  - reflexivity.
  - reflexivity.
  - revert E2 Hgo Hrep. match goal with |- erase ?x = _ → _ => generalize x end. intros c' E2 Hgo Hrep.
    assert (nextCtx c1 = nextCtx c) as Hctx by exact (f_equal nextCtx E1).
    assert (cfg c1 = cfg c) as Hcfg by exact (f_equal cfg E1).
    constructor; [rewrite E1 in E2; exact E2| |rewrite Ha in Hrep; exact Hrep].
    unfold aliveGo in Hgo. rewrite Hctx, Hcfg in Hgo. exact Hgo.
Qed.

(** Nothing of the slots moved. *)
Record untouched c c' : Prop := {
  ut_heap : heap c' = heap c;
  ut_live : LiveSlots c' = LiveSlots c;
  ut_names : byName c' = byName c;
  ut_acts : activations c' = activations c
}.

Lemma untouched_cancelMatch n c : untouched c (cancelMatchTimer n c).
Proof. unfold cancelMatchTimer. by case_match. Qed.

(** What the request gets. *)
Inductive outcome env ev c c' : Prop :=
| out_rejected :
    untouched c c' → answers c' = answers c ++ [EClaimReply (rc_reply ev) (mkClaimDecision false [] None)] →
    outcome env ev c c'
| out_accepted l s cl :
    findSlotByClaimID (rc_claimID ev) c = Some (l, s) → Slot.claim s = Some cl → Slot.IsPartitionable s = false →
    accepted env ev l s cl (cancelMatchTimer (Slot.Name s) c) c' → outcome env ev c c'
| out_carved l s cl dClaim :
    findSlotByClaimID (rc_claimID ev) c = Some (l, s) → Slot.claim s = Some cl → Claim.state cl = Claim.Unclaimed →
    Slot.IsPartitionable s = true →
    carved env ev l s cl dClaim (cancelMatchTimer (Slot.Name s) c) c' → outcome env ev c c'.

Lemma doRequestClaim_outcome machine env ev c :
  RegInv machine (regOf c) → outcome env ev c (doRequestClaim env ev c).
Proof.
  intros HI. unfold doRequestClaim. destruct (findSlotByClaimID (rc_claimID ev) c) as [[l s]|] eqn:Ef.
  2: { apply out_rejected; [done|apply obs_rejectClaim]. }
  destruct (findSlotByClaimID_Some _ _ _ _ Ef) as (Hl & Hs & cl & Hcl & Hid). rewrite Hcl.
  case_bool_decide as Hst; cbn [negb]; [|apply out_rejected; [done|apply obs_rejectClaim]].
  pose proof (untouched_cancelMatch (Slot.Name s) c) as Hut. pose proof (obs_cancelMatchTimer (Slot.Name s) c) as Ho.
  assert (nextLoc (cancelMatchTimer (Slot.Name s) c) = nextLoc c) as Hnl by (unfold cancelMatchTimer; by case_match).
  assert (l ≠ nextLoc c) as Hne.
  { rewrite <-live_regOf in Hl. destruct (ri_alloc _ _ HI l Hl) as [Hlt _]. cbn in Hlt. lia. }
  rewrite <-Hnl in Hne. rewrite <-(ut_heap _ _ Hut) in Hs.
  destruct (requirementsMet env s (rc_reqAd ev)); cbn [negb].
  2: { apply out_rejected; [by destruct Hut|]. by rewrite obs_rejectClaim, Ho. }
  destruct (Slot.IsPartitionable s) eqn:Hp.
  - destruct (doRequestClaimPSlot_cases env ev l s cl _ Hs Hne) as [[om ->]|[dClaim Hc]].
    + apply out_rejected; [by destruct Hut|]. by rewrite obs_rejectClaim, obs_set_minter, Ho.
    + by eapply out_carved.
  - eapply out_accepted; try done. by apply accept_granted.
Qed.
End Loop.

(** ** What the schedd holds *)

Section Held.
Context {CA : ClassAdLib} {CAL : ClassAdLaws CA} {SL : SecurityLib} {SLL : SecurityLaws SL} {RS : Persist.RecordStore}.
Implicit Types (c : Core) (s : Slot.Slot) (env : Env) (l : loc) (ev : evRequestClaim).

(** The claim is the requester's, with a lease that has just begun. *)
Record claimFor env ev c (cl : Claim.Claim) : Prop := {
  cf_schedd : Claim.scheddAddr cl = rc_scheddAddr ev;
  cf_name : Claim.scheddName cl = adStringAttr (rc_reqAd ev) "ScheddName";
  cf_user : Claim.user cl = firstNonEmptyAttr (rc_reqAd ev) ["User"; "Owner"];
  cf_machine : Claim.clientMachine cl = rc_clientMachine ev;
  cf_interval : Claim.aliveInterval cl = rc_aliveInterval ev;
  cf_lease : Claim.leaseDeadline cl
             = timeAdd (now env) (Claim.LeaseDuration (rc_aliveInterval ev) (alivesMissed (cfg c)))
}.

(** In [c'] the id [x] names the slot [s], Claimed/Idle for the requester and kept alive. *)
Record granted env ev c c' s (x : string) : Prop := {
  gr_found : ∃ l, findSlotByClaimID x c' = Some (l, s) ∧ lookupName (Slot.Name s) c' = Some (l, s);
  gr_claim : ∃ cl, Slot.claim s = Some cl ∧ Claim.claimID cl = x ∧ claimFor env ev c cl;
  gr_life : lifeOf c' (Slot.Name s) = mkLife (Some idleLife) false true false;
  gr_alive : ∃ ctx, aliveCancels c' !! Slot.Name s = Some ctx ∧ aliveGo ev c ctx (Slot.Name s) x ∈ trace c'
}.

Lemma accept_claimFor env ev c cl : claimFor env ev c (Claim.Accept (now env) (acceptInfo env ev c) cl).
Proof. constructor; try done. cbn. by destruct (IsZero (now env)). Qed.

(** The invariants of a state of a run. *)
Record coherent machine c : Prop := {
  co_reg : RegInv machine (regOf c);
  co_life : LifeInv c;
  co_ids : IdInv (idsOf c)
}.

(** The id of a live slot is found. *)
Lemma find_live machine c l s cl x :
  coherent machine c → l ∈ LiveSlots c → heap c !! l = Some s → Slot.claim s = Some cl → Claim.claimID cl = x →
  findSlotByClaimID x c = Some (l, s).
Proof.
  intros [_ _ [Hu _]] Hl Hs Hcl Hx. destruct (findSlotByClaimID x c) as [[k t]|] eqn:E.
  - apply findSlotByClaimID_Some in E as (Hk & Ht & cl' & Hcl' & Hx').
    assert (k = l) as -> by (apply (Hu k l x); apply holds_idsOf; eauto 10). by simplify_eq.
  - by destruct (findSlotByClaimID_None _ _ E l s cl Hl Hs Hcl).
Qed.

Lemma granted_at machine env ev c c' l q cl x ctx :
  coherent machine c' → l ∈ LiveSlots c' → heap (erase c') !! l = Some q → Slot.claim q = Some cl →
  Claim.claimID cl = x → claimFor env ev c cl → slotLife q = idleLife →
  aliveCancels c' !! Slot.Name q = Some ctx → aliveGo ev c ctx (Slot.Name q) x ∈ trace c' →
  ∃ s, quiet_slot s = q ∧ granted env ev c c' s x.
Proof.
  intros Hco Hl Hq Hcl Hx Hfor Hlife Hctx Hgo. rewrite heap_erase in Hq. apply fmap_Some in Hq as (s & Hs & ->).
  exists s. split; [done|]. destruct (live_byName machine c' l s (co_reg _ _ Hco) Hl Hs) as [Hn _]. constructor.
  - exists l. split; [by eapply find_live|]. by apply lookupName_Some.
  - by exists cl.
  - rewrite (lifeOf_at c' _ l s) by done. unfold lifeWith. change (slotLife s = idleLife) in Hlife. rewrite Hlife.
    destruct (life_cases c' _ l s (co_life _ _ Hco) Hn Hs) as [(E & _)|[(E & _)|[(_ & -> & -> & ->)|(E & _)]]];
      [rewrite Hlife in E; discriminate..|done|rewrite Hlife in E; discriminate].
  - by exists ctx.
Qed.

(** The reply of an accepted request: the slot granted and, for a p-slot, what is left. *)
Inductive told env ev c c' (dec : claimDecision) : Prop :=
| told_static l s s' :
    findSlotByClaimID (rc_claimID ev) c = Some (l, s) → Slot.IsPartitionable s = false →
    granted env ev c c' s' (rc_claimID ev) → Slot.Name s' = Slot.Name s → Slot.Res s' = Slot.Res s →
    slotTold ev (rc_claimID ev) s' (claimedSlots dec) → leftovers dec = None → told env ev c c' dec
| told_carved l s s' d x :
    findSlotByClaimID (rc_claimID ev) c = Some (l, s) → Slot.IsPartitionable s = true →
    findSlotByClaimID x c = None → lookupName (Slot.Name d) c = None →
    granted env ev c c' d x → Slot.ParentName d = Slot.Name s →
    Slot.Res d = requestedResources (rc_reqAd ev) →
    findSlotByClaimID (rc_claimID ev) c' = Some (l, s') → Slot.claim s' = Slot.claim s →
    Slot.Res s = res_add (Slot.Res d) (Slot.Res s') →
    slotTold ev x d (claimedSlots dec) → leftoversTold ev (rc_claimID ev) s' (leftovers dec) →
    told env ev c c' dec.

(** Without _condor_SEND_CLAIMED_AD a slot carved out of a p-slot is claimed under an id that
    is not the requested one and that the reply does not tell. *)
Theorem carved_id_untold env ev c c' dec l s :
  told env ev c c' dec → findSlotByClaimID (rc_claimID ev) c = Some (l, s) → Slot.IsPartitionable s = true →
  adBool (rc_reqAd ev) "_condor_SEND_CLAIMED_AD" = false →
  claimedSlots dec = [] ∧ ∃ d x, granted env ev c c' d x ∧ x ≠ rc_claimID ev.
Proof.
  intros [l0 s0 s' Hf Hp _ _ _ _ _|l0 s0 s' d x Hf _ Hx _ Hg _ _ _ _ _ Ht _] Hf' Hp' Hb; [congruence|].
  unfold slotTold in Ht. rewrite Hb in Ht. split; [done|]. exists d, x. split; [done|]. intros ->. congruence.
Qed.

Lemma slotTold_quiet ev x s t cs : quiet_slot s = quiet_slot t → slotTold ev x t cs → slotTold ev x s cs.
Proof. intros Hq H. change (slotTold ev x (quiet_slot s) cs). by rewrite Hq. Qed.

Lemma leftoversTold_quiet ev x s t lo : quiet_slot s = quiet_slot t → leftoversTold ev x t lo → leftoversTold ev x s lo.
Proof. intros Hq H. change (leftoversTold ev x (quiet_slot s) lo). by rewrite Hq. Qed.

(** What stopping a match timer leaves alone. *)
Record timer_off c c0 : Prop := {
  to_slots : untouched c c0;
  to_minter : minter c0 = minter c;
  to_cfg : cfg c0 = cfg c;
  to_seq : dslotSeq c0 = dslotSeq c;
  to_loc : nextLoc c0 = nextLoc c;
  to_answers : answers c0 = answers c
}.

Lemma timer_off_cancelMatch n c : timer_off c (cancelMatchTimer n c).
Proof. split; [apply untouched_cancelMatch| | | | |apply obs_cancelMatchTimer]; unfold cancelMatchTimer; by case_match. Qed.

Lemma accepted_told machine env ev l s cl c c' :
  coherent machine c → coherent machine c' → findSlotByClaimID (rc_claimID ev) c = Some (l, s) →
  Slot.claim s = Some cl → Slot.IsPartitionable s = false →
  accepted env ev l s cl (cancelMatchTimer (Slot.Name s) c) c' →
  ∃ dec, accept dec = true ∧ answers c' = answers c ++ [EClaimReply (rc_reply ev) dec] ∧ told env ev c c' dec.
Proof.
  intros Hco Hco' Hf Hcl Hp [Hst Hgo (claimed & Hans & Htold)].
  destruct (findSlotByClaimID_Some _ _ _ _ Hf) as (Hl & Hs & cl' & Hcl' & Hid). rewrite Hcl in Hcl'. injection Hcl' as <-.
  rewrite Hid in Hgo, Htold. pose proof (timer_off_cancelMatch (Slot.Name s) c) as Hoff.
  revert Hst Hgo Hans Htold Hoff. generalize (cancelMatchTimer (Slot.Name s) c) as c0.
  intros c0 Hst Hgo Hans Htold [[Uh Ul _ _] _ Hcfg _ _ Ho].
  destruct (granted_at machine env ev c c' l (quiet_slot (Slot.AcceptClaim (now env) (acceptInfo env ev c0) s))
    (Claim.Accept (now env) (acceptInfo env ev c0) cl) (rc_claimID ev) (nextCtx c0)) as (s' & Hq & Hg); try done.
  - assert (LiveSlots c' = LiveSlots c0) as -> by exact (f_equal LiveSlots Hst). by rewrite Ul.
  - rewrite Hst. cbn. by rewrite lookup_alter_eq, lookup_fmap, Uh, Hs.
  - cbn. by rewrite Hcl.
  - unfold acceptInfo. rewrite Hcfg. apply accept_claimFor.
  - change (slotLife (Slot.AcceptClaim (now env) (acceptInfo env ev c0) s) = idleLife).
    rewrite (slotLife_accept _ _ _ cl Hcl). by rewrite Hp.
  - change (aliveCancels (erase c') !! Slot.Name s = Some (nextCtx c0)). rewrite Hst. cbn. apply lookup_insert_eq.
  - unfold aliveGo in *. by rewrite <-Hcfg.
  - exists (mkClaimDecision true claimed None). split_and!; [done|by rewrite Hans, Ho|].
    apply (told_static env ev c c' _ l s s'); try done.
    + exact (f_equal Slot.Name Hq).
    + exact (f_equal Slot.Res Hq).
    + by eapply slotTold_quiet.
Qed.

Lemma slot_partition_ok machine c l s :
  RegInv machine (regOf c) → l ∈ LiveSlots c → heap c !! l = Some s → Slot.IsPartitionable s = true → res_ok (Slot.Res s).
Proof.
  intros HI Hl Hs Hp. assert (r_heap (regOf c) !! l = Some (shapeOf s)) as Hr by (by rewrite heap_regOf, Hs).
  destruct (ri_slots _ _ HI l (shapeOf s)) as (_ & _ & _ & _ & H & _); [by eapply live_partitionable|done|].
  by apply H; apply bool_decide_eq_true in Hp.
Qed.

(** The id just minted names nothing yet. *)
Lemma minted_unknown machine c m m' dClaim :
  coherent machine c → counters_ok c → minter c = Some m → Claim.Mint m = (m', Some dClaim) →
  findSlotByClaimID (Claim.claimID dClaim) c = None.
Proof.
  intros [_ _ [_ Hp]] [_ Hcnt] Hm HM. apply find_holds. intros l Hl. rewrite Hm in Hcnt.
  pose proof (Mint_next m Hcnt) as Hn. pose proof (Mint_mints m dClaim) as Hy. rewrite HM in Hn, Hy. cbn [fst snd] in Hn, Hy.
  exact (minted_new (idsOf c) m m' _ _ Hm Hn (Hy eq_refl) (Hp l _ Hl) eq_refl).
Qed.

(** The new slot of a carve is granted. *)
Lemma carved_dslot machine env ev l s cl dClaim c c0 c' :
  coherent machine c' → timer_off c c0 → carved env ev l s cl dClaim c0 c' →
  ∃ d, quiet_slot d = quiet_slot (carvedSlot env ev s dClaim c0) ∧ granted env ev c c' d (Claim.claimID dClaim).
Proof.
  intros Hco' [_ _ Hcfg _ _ _] [_ (m & m' & _ & _ & Hst) Hgo _]. cbn zeta in Hst.
  apply (granted_at machine env ev c c' (nextLoc c0) _
    (Claim.Accept (now env) (acceptInfo env ev c0) dClaim) _ (nextCtx c0)); try done.
  - assert (LiveSlots c' = slots c0 ++ dslots c0 ++ [nextLoc c0]) as -> by exact (f_equal LiveSlots Hst).
    rewrite !elem_of_app, list_elem_of_singleton. auto.
  - rewrite Hst. cbn. apply lookup_insert_eq.
  - unfold acceptInfo. rewrite Hcfg. apply accept_claimFor.
  - change (aliveCancels (erase c') !! Slot.Name (carvedSlot env ev s dClaim c0) = Some (nextCtx c0)).
    rewrite Hst. cbn. apply lookup_insert_eq.
  - unfold aliveGo in *. rewrite Hcfg in Hgo. exact Hgo.
Qed.

(** The p-slot keeps its claim. *)
Lemma carved_pslot machine env ev l s cl dClaim c0 c' :
  coherent machine c' → carved env ev l s cl dClaim c0 c' → l ∈ LiveSlots c0 → l ≠ nextLoc c0 →
  heap c0 !! l = Some s → Slot.claim s = Some cl →
  ∃ s', quiet_slot s' = quiet_slot (Slot.Carve (requestedResources (rc_reqAd ev)) s) ∧
    findSlotByClaimID (Claim.claimID cl) c' = Some (l, s').
Proof.
  intros Hco' [_ (m & m' & _ & _ & Hst) _ _] Hl Hne Hs Hcl. cbn zeta in Hst.
  assert (heap (erase c') !! l = Some (quiet_slot (Slot.Carve (requestedResources (rc_reqAd ev)) s))) as Hh.
  { rewrite Hst. cbn. by rewrite lookup_insert_ne, lookup_alter_eq, lookup_fmap, Hs by done. }
  rewrite heap_erase in Hh. apply fmap_Some in Hh as (s' & Hs' & Hq). exists s'. split; [done|].
  pose proof (f_equal Slot.claim Hq : Slot.claim s = Slot.claim s') as Hc. rewrite Hcl in Hc.
  eapply (find_live machine c' l s' cl); try done.
  assert (LiveSlots c' = slots c0 ++ dslots c0 ++ [nextLoc c0]) as -> by exact (f_equal LiveSlots Hst).
  unfold LiveSlots in Hl. rewrite !elem_of_app in *. tauto.
Qed.

Lemma carved_told machine env ev l s cl dClaim c c' :
  coherent machine c → coherent machine c' → event_ok (EvRequestClaim ev) c →
  findSlotByClaimID (rc_claimID ev) c = Some (l, s) → Slot.claim s = Some cl → Slot.IsPartitionable s = true →
  carved env ev l s cl dClaim (cancelMatchTimer (Slot.Name s) c) c' →
  ∃ dec, accept dec = true ∧ answers c' = answers c ++ [EClaimReply (rc_reply ev) dec] ∧ told env ev c c' dec.
Proof.
  intros Hco Hco' [Hcnt Hnn] Hf Hcl Hp Hcv.
  destruct (findSlotByClaimID_Some _ _ _ _ Hf) as (Hl & Hs & cl' & Hcl' & Hid). rewrite Hcl in Hcl'. injection Hcl' as <-.
  pose proof (timer_off_cancelMatch (Slot.Name s) c) as Hoff.
  revert Hcv Hoff. generalize (cancelMatchTimer (Slot.Name s) c) as c0. intros c0 Hcv Hoff.
  destruct (carved_dslot machine env ev l s cl dClaim c c0 c' Hco' Hoff Hcv) as (d & Hd & Hg).
  destruct Hoff as [[Uh Ul _ _] Hmt _ Hsq Hnl Ho].
  assert (l ≠ nextLoc c0) as Hne.
  { rewrite <-live_regOf in Hl. destruct (ri_alloc _ _ (co_reg _ _ Hco) l Hl) as [Hlt _]. cbn in Hlt. rewrite Hnl. lia. }
  destruct (carved_pslot machine env ev l s cl dClaim c0 c' Hco' Hcv) as (s' & Hs' & Hf'); [by rewrite Ul|done|by rewrite Uh|done|].
  destruct Hcv as [Hfits (m & m' & Hm & HM & _) _ (claimed & lo & Hans & Hct & Hlo)]. rewrite Hid in Hf', Hlo.
  exists (mkClaimDecision true claimed lo). split_and!; [done|by rewrite Hans, Ho|].
  apply (told_carved env ev c c' _ l s s' d (Claim.claimID dClaim)); try done.
  - eapply minted_unknown; try done. by rewrite <-Hmt.
  - pose proof (f_equal Slot.Name Hd) as Hn. change (Slot.Name d = Slot.dynamicName (Slot.SlotID s) (wrap64 (dslotSeq c0 + 1)) (Slot.Machine s)) in Hn.
    unfold lookupName. by rewrite Hn, Hsq, (carved_name_fresh machine c l s (co_reg _ _ Hco) Hcnt Hl Hs Hp).
  - exact (f_equal Slot.ParentName Hd).
  - exact (f_equal Slot.Res Hd).
  - exact (f_equal Slot.claim Hs').
  - rewrite (f_equal Slot.Res Hd : Slot.Res d = _), (f_equal Slot.Res Hs' : Slot.Res s' = _).
    pose proof (slot_partition_ok machine c l s (co_reg _ _ Hco) Hl Hs Hp) as Hok.
    destruct (Carve_add (requestedResources (rc_reqAd ev)) s Hok) as [<- _]; [|done|].
    + apply (res_nonneg_le _ (Slot.Res s) Hnn); [by apply CanCarve_le|done].
    + apply Resources_ext; cbn; lia.
  - by eapply slotTold_quiet.
  - by eapply leftoversTold_quiet.
Qed.

End Held.

(** ** The schedd, the handler and the loop *)

Section Schedd.
Context {CA : ClassAdLib} {CAL : ClassAdLaws CA} {SL : SecurityLib} {SLL : SecurityLaws SL} {RS : Persist.RecordStore}.
Context {ML : MessageLib} {CL : CedarLib ML}.
Context (h : Host) (cf : Config) (hostname sinful : string) (total : Slot.Resources) (t0 : Time).
Context (opts : CoreConfig) (m : Claim.Minter) (st : option Persist.rstore).
Hypothesis mint_total : ∀ sinful bday n cmds, is_Some (MintClaimSession sinful bday n cmds).
Hypothesis total_ok : res_ok total.
Hypothesis total_cpus : 1 ≤ Slot.Cpus total.

Local Abbreviation start := (startup h cf hostname sinful total t0 opts (Some m) st).

Lemma serving_coherent begun c :
  minter_room h cf hostname sinful total t0 m → serving start begun c → coherent hostname c.
Proof.
  intros Hroom Hs. split; [by eapply serving_reg|by eapply serving_life|by eapply serving_ids].
Qed.

(** The decision the loop sends on the channel of the request when it handles it in [c]. *)
Definition claimReplyOn (ch : chanid) (e : effect) : option claimDecision :=
  match e with EClaimReply k d => if bool_decide (k = ch) then Some d else None | _ => None end.

Definition decides (env : Env) (c : Core) (ev : evRequestClaim) : option claimDecision :=
  find_map (claimReplyOn (rc_reply ev)) (drop (length (answers c)) (answers (handle env (EvRequestClaim ev) c))).

Lemma grant_decides env c ev dec :
  answers (handle env (EvRequestClaim ev) c) = answers c ++ [EClaimReply (rc_reply ev) dec] → decides env c ev = Some dec.
Proof. intros H. unfold decides. rewrite H, drop_app_length. cbn. by rewrite bool_decide_true. Qed.

End Schedd.
End Grant.

(** ** Witness: two of eight cores are claimed out of a p-slot *)

Import RefClassAd RefSecurity RefMessage Grant.

(** On the wire of the example the string "job" stands for the request ad. *)
#[local] Instance tokenCedar : CedarLib (CA := refLib) refMessage := {|
  cedarGetClassAd m := match GetString m with
                       | (Some s, m) => (if bool_decide (s = "job") then Some demoJob else None, m)
                       | (None, m) => (None, m)
                       end
|}.

Definition claimWire : Message (MessageLib := refMessage) :=
  [inr pslotID; inr "job"; inr "<s:1>"; inl 300; inl 0] : list (Z + string).

Definition claimEvent : evRequestClaim := mkRequestClaim pslotID demoJob "<s:1>" 300 "10.0.0.1" 3%nat.

Lemma claim_read : (readRequestClaim "10.0.0.1:9618" 3%nat claimWire).1 = Some claimEvent.
Proof. reflexivity. Qed.

Lemma claimEvent_ok : event_ok (EvRequestClaim claimEvent) demoStartup.
Proof. exact demo0_request_ok. Qed.

Definition claimRun : list action * option unit :=
  handleRequestClaim allGood "10.0.0.1:9618" 3%nat claimWire (decides demoEnv demoStartup) [].

Lemma claimRun_accepted : accept <$> readReply (drop 1 claimRun.1) = Some true.
Proof. vm_compute. reflexivity. Qed.

Lemma demo_room : minter_room demoHost demoConfig "h" "<h:1>" demoTotal 0 demoMinter.
Proof. split; [done|]. by vm_compute. Qed.

