(* ===== verification/Launch.v ===== *)
(** * A job, from ACTIVATE_CLAIM on the wire to the starter that runs it

    The handler of ACTIVATE_CLAIM composed with the event loop: an accepted activation has
    a sandbox, a starter, a supervisor with the job and a Busy slot, and the connection goes
    to that very starter; when the reply or the hand-over fails, the report the handler
    submits brings the claim back to Idle. *)

From S2P Require Import Prelude GoLang ClassAd Claim Slot SlotFacts Persist Persister StarterMsg Reconnect AdWire.
From S2P Require Import Registry Core CoreFrame CoreDemo CoreReg CoreInit Lifecycle ClaimIds CoreReply CoreProps Adoption Restart Handlers Query Grant.

Import Core Handlers Grant.

Local Open Scope Z_scope.
Local Open Scope ep_scope.

Module Launch.

Section Loop.
Context {CA : ClassAdLib} {CAL : ClassAdLaws CA} {SL : SecurityLib} {RS : Persist.RecordStore}.
Implicit Types (c : Core) (s : Slot.Slot) (env : Env) (l : loc) (act : activation).

(** The starter of [act] exists: a spawned process, or a goroutine. *)
Definition hasStarter env s (cl : Claim.Claim) act c c' : Prop :=
  if bool_decide (starterMode (cfg c) = starterModeProcess) then
    ∃ argv pid, spawn env argv = Some pid ∧ ESpawn argv ∈ trace c' ∧
      EGo (GReapStarter (Slot.Name s) pid) ∈ trace c' ∧ starterCmd act = Some pid ∧ starterPid act = pid
  else EGo (GStarterRun (act_cancel act) (Slot.Name s) (Claim.publicClaimID cl)) ∈ trace c'.

(** The activation a job gets: a sandbox that exists, nobody told to stop yet. *)
Record activationFor env (job : ClassAd) act : Prop := {
  af_job : jobAd act = Some job;
  af_gjid : globalJID act = adStringAttr job "GlobalJobId";
  af_sandbox : mkdirAll env (sandbox act) = true;
  af_vacate : vacateCh act = None ∧ vacating act = false;
  af_fresh : adopted act = false ∧ starterAddr act = ""
}.

(** What the supervisor sends the starter: the job, an ad of the slot and the sandbox. *)
Definition activateMessage (job : ClassAd) s act (ad : ClassAd) : Prop :=
  ∃ slotAd, ad = StarterMsg.MarshalActivate (λ m, m) (StarterMsg.mkActivateMsg (Some job) (Some slotAd) (sandbox act) ∅) ∧
    adOf slotAd s.

(** Only counters moved. *)
Definition counted_on c c0 : Prop :=
  (∃ sb gn k, erase c0 = set_seqs sb gn k (erase c)) ∧ answers c0 = answers c.

Record started env s cl (job : ClassAd) act ad c c0 : Prop := {
  sd_state : ∃ sb gn k, erase c0 = set_activations (<[Slot.Name s := act]> (activations c)) (set_seqs sb gn k (erase c));
  sd_answers : answers c0 = answers c;
  sd_act : activationFor env job act;
  sd_ad : activateMessage job s act ad;
  sd_starter : hasStarter env s cl act c c0
}.

Lemma trace_persistSlot l c : trace (persistSlot l c) = trace c.
Proof. unfold persistSlot. by repeat case_match. Qed.

Lemma emitted e c : e ∈ trace (emit e c).
Proof. cbn. apply elem_of_app. right. by apply list_elem_of_singleton. Qed.

Lemma activateStarter_cases env l s cl job r c :
  heap c !! l = Some s →
  (∃ c0, activateStarter env l s cl job r c = rejectActivate r c0 ∧ counted_on c c0) ∨
  (∃ act ad c0, activateStarter env l s cl job r c = finishActivate env l (Slot.Name s) act ad r c0 ∧
     started env s cl job act ad c c0).
Proof.
  intros Hs. unfold activateStarter. cbn zeta.
  match goal with |- context [negb (mkdirAll env ?x)] => destruct (mkdirAll env x) eqn:Hsb end; cbn [negb].
  2: { left. eexists. split; [reflexivity|]. split; [|done]. by do 3 eexists. }
  match goal with |- context [publicAd env l ?c0] =>
    pose proof (erase_publicAd env l c0) as Hp; pose proof (obs_publicAd env l c0) as Ho;
    pose proof (publicAd_adOf env l c0 (quiet_slot s)) as Had; destruct (publicAd env l c0) as [ad c1] end.
  cbn [fst snd] in Hp, Ho, Had. autorewrite with erase in Hp. autorewrite with obs in Ho.
  assert (adOf ad s) as Hads by (apply Had; by rewrite heap_erase; cbn [heap set_seqs]; rewrite Hs).
  assert (cfg c1 = cfg c) as Hcfg by exact (f_equal cfg Hp).
  assert (activations c1 = activations c) as Hact by exact (f_equal activations Hp).
  clear Had. assert (counted_on c (emit (ECancel (nextCtx c)) c1)) as Hrej.
  { split; [do 3 eexists; rewrite erase_emit; exact Hp|]. rewrite obs_emit_quiet by done. exact Ho. }
  rewrite Hcfg, Hact. case_bool_decide as Hmode.
  - destruct (starterSocketPath env (Claim.publicClaimID cl) c1) as [sock|]; [|left; eexists; by split].
    match goal with |- context [spawn env ?x] => destruct (spawn env x) as [pid|] eqn:Hsp end; [|left; eexists; by split].
    right. do 3 eexists. split; [reflexivity|]. constructor.
    + do 3 eexists. autorewrite with erase. rewrite Hp. reflexivity.
    + by quiet_obs.
    + by constructor.
    + by exists ad.
    + unfold hasStarter. rewrite bool_decide_true by done. eexists _, pid. split; [exact Hsp|].
      split; [apply kept_emit, emitted|]. split; [apply emitted|done].
  - right. do 3 eexists. split; [reflexivity|]. constructor.
    + do 3 eexists. autorewrite with erase. rewrite Hp. reflexivity.
    + by quiet_obs.
    + by constructor.
    + by exists ad.
    + unfold hasStarter. rewrite bool_decide_false by done. apply emitted.
Qed.
(** What the request gets. *)
Inductive outcome env (id : string) (job : ClassAd) (r : chanid) c c' : Prop :=
| out_refused c0 : counted_on c c0 → c' = rejectActivate r c0 → outcome env id job r c c'
| out_started l s cl act ad c0 :
    findSlotByClaimID id c = Some (l, s) → Slot.claim s = Some cl → Claim.state cl = Claim.ClaimedIdle →
    started env s cl job act ad c c0 → c' = finishActivate env l (Slot.Name s) act ad r c0 →
    outcome env id job r c c'.

Lemma counted_refl c : counted_on c c.
Proof. split; [|done]. exists (sandboxSeq c), (activationGen c), (nextCtx c). by destruct c. Qed.

Lemma doActivateClaim_outcome env id job r c : outcome env id job r c (doActivateClaim env id job r c).
Proof.
  pose proof (counted_refl c) as Href. unfold doActivateClaim.
  destruct (findSlotByClaimID id c) as [[l s]|] eqn:Ef; [|by eapply out_refused].
  destruct (findSlotByClaimID_Some _ _ _ _ Ef) as (_ & Hs & cl & Hcl & _). rewrite Hcl.
  destruct (negb _); [by eapply out_refused|].
  case_bool_decide as Hst; cbn [negb]; [|by eapply out_refused].
  destruct (negb _); [by eapply out_refused|]. destruct (negb _); [by eapply out_refused|].
  case_bool_decide; [by eapply out_refused|].
  destruct (activateStarter_cases env l s cl job r c Hs) as [(c0 & -> & H0)|(act & ad & c0 & -> & H0)];
    [by eapply out_refused|by eapply out_started].
Qed.

(** Every slot has the same shape, id and life. *)
Record same_slots c c' : Prop := {
  ss_reg : regOf c' = regOf c;
  ss_ids : idsOf c' = idsOf c;
  ss_life n : lifeOf c' n = lifeOf c n;
  ss_acts : activations c' = activations c
}.

Lemma refused_same r c c0 : counted_on c c0 → same_slots c (rejectActivate r c0).
Proof.
  intros [(sb & gn & k & He) _].
  assert (erase (rejectActivate r c0) = set_seqs sb gn k (erase c)) as E by (by rewrite erase_rejectActivate).
  clear He. revert E. generalize (rejectActivate r c0) as c'. intros c' E. constructor.
  - by rewrite <-(regOf_erase c'), E, regOf_set_seqs, regOf_erase.
  - by rewrite <-(idsOf_erase c'), E, idsOf_set_seqs, idsOf_erase.
  - intros n. by rewrite <-(lifeOf_erase c'), E, <-(lifeOf_erase c).
  - exact (f_equal activations E).
Qed.

(** The job runs on the slot named [n]: it was Claimed/Idle and is Busy, with an
    activation, a starter and a supervisor; no other slot changed. *)
Record launched env (id : string) (job : ClassAd) c c' (n : string) act : Prop := {
  la_slot : ∃ l s cl ad, findSlotByClaimID id c = Some (l, s) ∧ Slot.Name s = n ∧ Slot.claim s = Some cl ∧
    hasStarter env s cl act c c' ∧ activateMessage job s act ad ∧
    EGo (GSupervise (act_cancel act) n (gen act) (Some ad) false) ∈ trace c';
  la_act : activationFor env job act;
  la_acts : activations c' = <[n := act]> (activations c);
  la_idle : lifeOf c n = mkLife (Some idleLife) false true false;
  la_busy : lifeOf c' n = mkLife (Some busyLife) true true false;
  la_others k : k ≠ n → lifeOf c' k = lifeOf c k;
  la_ids : idsOf c' = idsOf c;
  la_reg : regOf c' = regOf c
}.

Lemma finish_trace env l n act ad r c e :
  e ∈ trace c ∨ e = EGo (GSupervise (act_cancel act) n (gen act) (Some ad) false) →
  e ∈ trace (finishActivate env l n act ad r c).
Proof.
  intros He. unfold finishActivate. apply kept_reAdvertise, kept_emit. rewrite trace_persistSlot. cbn.
  apply elem_of_app. destruct He as [?| ->]; [by left|right; by apply list_elem_of_singleton].
Qed.
(** A live slot with a Claimed/Idle claim is idle, one with a starter is busy. *)
Lemma idle_life machine c l s cl :
  RegInv machine (regOf c) → LifeInv c → l ∈ LiveSlots c → heap c !! l = Some s → Slot.claim s = Some cl →
  Claim.state cl = Claim.ClaimedIdle → lifeOf c (Slot.Name s) = mkLife (Some idleLife) false true false.
Proof.
  intros HI HL Hl Hs Hcl Hst. destruct (live_byName machine c l s HI Hl Hs) as [Hn _].
  rewrite (lifeOf_at c _ l s) by done. unfold lifeWith.
  destruct (life_cases c _ l s HL Hn Hs) as [(E & _)|[(E & _)|[(-> & -> & -> & ->)|(E & _)]]]; [..|done|];
    apply slotLife_claim in E as [E _]; rewrite Hcl in E; cbn in E; congruence.
Qed.

Lemma busy_life c n act :
  LifeInv c → activations c !! n = Some act → lifeOf c n = mkLife (Some busyLife) true true false.
Proof.
  intros [_ Hall] Ha. specialize (Hall n). unfold lifeOf, lifeWith in *. rewrite Ha in *. cbn [isS] in *.
  by inversion Hall.
Qed.

Lemma started_launched machine env id job r c l s cl act ad c0 :
  coherent machine c → findSlotByClaimID id c = Some (l, s) → Slot.claim s = Some cl →
  Claim.state cl = Claim.ClaimedIdle → started env s cl job act ad c c0 →
  let c' := finishActivate env l (Slot.Name s) act ad r c0 in
  LifeInv c' → regOf c' = regOf c → idsOf c' = idsOf c → launched env id job c c' (Slot.Name s) act.
Proof.
  intros [HI HL _] Hf Hcl Hst [(sb & gn & k & He) _ Hact Had Hstarter] c' HL' Hreg Hids.
  destruct (findSlotByClaimID_Some _ _ _ _ Hf) as (Hl & Hs & _).
  destruct (live_byName machine c l s HI Hl Hs) as [Hn Hinj].
  assert (erase c' = updSlot l (Slot.SetStateActivity "Claimed" "Busy" (now env)) (updClaim l (Claim.SetBusy (now env))
    (set_activations (<[Slot.Name s := act]> (activations c)) (set_seqs sb gn k (erase c))))) as E
    by (unfold c'; by rewrite erase_finishActivate, He).
  assert (∀ e, e ∈ trace c0 ∨ e = EGo (GSupervise (act_cancel act) (Slot.Name s) (gen act) (Some ad) false) → e ∈ trace c') as Htr
    by (intros e; apply finish_trace).
  clearbody c'. pose proof (f_equal activations E : activations c' = _) as Ha. cbn in Ha.
  constructor; [|done|done|by eapply idle_life| | |done|done].
  - exists l, s, cl, ad. split_and!; try done; [|by apply Htr; right].
    unfold hasStarter in *. case_bool_decide; [|by apply Htr; left].
    destruct Hstarter as (argv & pid & H1 & H2 & H3 & H4 & H5). exists argv, pid. split_and!; try done; by apply Htr; left.
  - apply (busy_life c' _ act HL'). rewrite Ha. apply lookup_insert_eq.
  - intros j Hj. rewrite <-(lifeOf_erase c'), <-(lifeOf_erase c).
    rewrite (life_upd (Slot.SetStateActivity "Claimed" "Busy" (now env)
      ∘ (λ s, Slot.with_claim (Claim.SetBusy (now env) <$> Slot.claim s) s)) (erase c) (erase c') (Slot.Name s) l (quiet_slot s));
      [by rewrite bool_decide_false|done|done|by rewrite heap_erase, Hs|by rewrite E|rewrite E; apply alter_twice|].
    intros j' Hj'. rewrite E. cbn. by rewrite lookup_insert_ne by congruence.
Qed.

(** A reported exit brings the claim back to Idle, under the same id. *)
Lemma reported_exit_idles machine env n c act :
  coherent machine c → activations c !! n = Some act →
  let c' := handle env (EvStarterExited n) c in absOf c' n = Some AIdle ∧ idsOf c' = idsOf c.
Proof.
  intros [HI HL _] Ha. cbn zeta. cbn [handle]. split; [|apply ids_doStarterExited].
  destruct (move_doStarterExited machine env n c HI HL) as [HL' Hmv].
  assert (absOf c n = Some ABusy) as Hb by (unfold absOf; by rewrite (busy_life c n act HL Ha)).
  assert (activations (doStarterExited env n c) !! n = None) as Hno.
  { unfold doStarterExited, setClaimedIdle. rewrite Ha. change (activations ?x) with (activations (erase x)).
    repeat case_match; autorewrite with erase; apply lookup_delete_eq. }
  destruct HL' as [_ Hall]. specialize (Hall n). specialize (Hmv n). rewrite Hb in Hmv. revert Hmv Hall Hno.
  generalize (doStarterExited env n c) as c'. intros c' Hmv Hall Hno. unfold absOf in *.
  unfold lifeOf, lifeWith in *. rewrite Hno in *. cbn [isS] in *.
  inversion Hall as [E|part E|part t E|E|E]; rewrite <-E in Hmv; destruct Hmv as [?|[]]; done.
Qed.
(** The report only helps if it is queued: an exit that finds 64 events waiting is dropped,
    and when the loop has worked through them the slot is still Busy. *)
Theorem full_queue_drops_exit env n c act :
  LifeInv c → activations c !! n = Some act →
  absOf (foldl (λ c ev, handle env ev c) c (Submit (EvStarterExited n) (replicate 64 EvReschedule))) n = Some ABusy.
Proof.
  intros HL Ha. change (Submit _ _) with (replicate 64 EvReschedule). unfold absOf.
  enough (∀ k, lifeOf (foldl (λ c ev, handle env ev c) c (replicate k EvReschedule)) n = lifeOf c n) as ->
    by (by rewrite (busy_life c n act HL Ha)).
  intros k. revert c HL Ha. induction k as [|k IH]; intros c HL Ha; [done|]. cbn [replicate foldl handle].
  pose proof (erase_reAdvertise env c) as He. rewrite IH.
  - by apply life_of_erase.
  - split; [by rewrite (f_equal minter He : minter (reAdvertise env c) = minter c); apply HL|].
    intros j. rewrite (life_of_erase _ _ j He). by apply HL.
  - by rewrite (f_equal activations He : activations (reAdvertise env c) = activations c).
Qed.
End Loop.

(** ** The shadow's request, the handler and the loop *)

Section Shadow.
Context {CA : ClassAdLib} {CAL : ClassAdLaws CA} {SL : SecurityLib} {SLL : SecurityLaws SL} {RS : Persist.RecordStore}.
Context {ML : MessageLib} {CL : CedarLib ML}.
Context (h : Host) (cf : Config) (hostname sinful : string) (total : Slot.Resources) (t0 : Time).
Context (opts : CoreConfig) (m : Claim.Minter) (st : option Persist.rstore).
Hypothesis mint_total : ∀ sinful bday n cmds, is_Some (MintClaimSession sinful bday n cmds).
Hypothesis total_ok : res_ok total.
Hypothesis total_cpus : 1 ≤ Slot.Cpus total.
Hypothesis room : minter_room h cf hostname sinful total t0 m.

Local Abbreviation start := (startup h cf hostname sinful total t0 opts (Some m) st).

(** The decision the loop sends on [ch] when it handles the request in [c]. *)
Definition activateReplyOn (ch : chanid) (e : effect) : option activateDecision :=
  match e with EActivateReply k d => if bool_decide (k = ch) then Some d else None | _ => None end.

Definition decides (env : Env) (c : Core) (ch : chanid) (id : string) (job : ClassAd) : option activateDecision :=
  find_map (activateReplyOn ch) (drop (length (answers c)) (answers (handle env (EvActivateClaim id job ch) c))).

Lemma launch_decides env c ch id job dec :
  answers (handle env (EvActivateClaim id job ch) c) = answers c ++ [EActivateReply ch dec] →
  decides env c ch id job = Some dec.
Proof. intros H. unfold decides. rewrite H, drop_app_length. cbn. by rewrite bool_decide_true. Qed.

Lemma obs_finish env l n act ad ch c :
  answers (finishActivate env l n act ad ch c)
  = answers c ++ [EActivateReply ch (mkActivateDecision activateOK (Some (gen act)) n)].
Proof. unfold finishActivate. quiet_obs. rewrite obs_emit by done. by quiet_obs. Qed.

(** A refusal is written, and no connection is passed. *)
Lemma refused_writes io ch msg await id job dec hist r :
  readActivateClaim msg = Some (id, job) → await id job = Some dec → code dec = activateNotOK →
  handleActivateClaim io ch msg await [] = (hist, r) →
  hist = [SubmitEv (EvActivateClaim id job ch); PutInt activateNotOK; FinishMessage] ∧ r ≠ Some true.
Proof.
  intros Hm Haw Hc. unfold handleActivateClaim. rewrite bind_lift, Hm, bind_submit, bind_lift. cbn [fst snd].
  rewrite Haw, Hc, attempt_act. cbn beta. rewrite attempt_act. cbn beta.
  destruct (io _ _ && io _ _); intros [= <- <-]; done.
Qed.

End Shadow.
End Launch.

(** ** Witness: the job of the claimed dynamic slot is sent over the wire *)

Import RefClassAd RefSecurity RefMessage Launch.

Definition launchWire : Message (MessageLib := refMessage) :=
  [inr dslotID; inl 0; inl 4; inr "JobUniverse = 5"; inr "RequestCpus = 2"; inr "RequestMemory = 1000";
   inr "RequestDisk = 10"; inr ""; inr ""] : list (Z + string).

Definition launchJob : ClassAd := default adNew (snd <$> readActivateClaim launchWire).

Lemma launch_read : readActivateClaim launchWire = Some (dslotID, launchJob).
Proof. vm_compute. reflexivity. Qed.

Lemma demo1_serving : serving demoStartup true demo1.
Proof. eapply sv_event; [apply sv_start|exact demo0_request_ok|by left]. Qed.

(** The loop accepts it. *)
Lemma launch_accepted :
  (λ d, (code d, ad_slotName d)) <$> decides demoEnv demo1 4%nat dslotID launchJob = Some (activateOK, "slot1_1@h").
Proof. vm_compute. reflexivity. Qed.

Lemma launch_event_ok : event_ok (EvActivateClaim dslotID launchJob 4%nat) demo1.
Proof. split; [apply demo1_activate_ok|done]. Qed.

(** The reply cannot be flushed: the starter is reported gone. *)
Definition failedLaunch : list action * option bool :=
  handleActivateClaim badFlush 4%nat launchWire (decides demoEnv demo1 4%nat) [].

Lemma failedLaunch_ends : length failedLaunch.1 = 4%nat ∧ failedLaunch.2 = None.
Proof. vm_compute. split; reflexivity. Qed.

