(* ===== verification/Locate.v ===== *)
(** * CA_LOCATE_STARTER (internal/reconnect/reconnect.go, locateStarter of internal/startd/startd.go)

    A shadow that lost its starter asks the startd for the starter's address, with the
    secret claim id.  The handler reads the request off the connection, asks the event
    loop and writes the answer; composed with the loop, the shadow finds the starter of
    its claim, and nobody else does. *)

From S2P Require Import Prelude GoLang ClassAd Claim Slot SlotFacts Persist Persister StarterMsg Reconnect AdWire.
From S2P Require Import Registry Core CoreFrame CoreDemo CoreReg CoreInit Lifecycle ClaimIds CoreProps Adoption Restart Handlers.
From Stdlib Require Import Ascii.

Import Core Handlers.

Local Open Scope Z_scope.

Module Locate.
Section Handler.
Context {CA : ClassAdLib} {SL : SecurityLib} {RS : Persist.RecordStore} {ML : MessageLib}.
Context (io : io_oracle).

(** [carried] is [Conn.Message], [fresh] a message started off the stream. *)
Definition ReadRequest (carried : option Message) (fresh : Message) : option ClassAd :=
  match (AdWire.GetClassAd (default fresh carried)).1 with
  | inl _ => None
  | inr (ad, _) => Some ad
  end.

Definition WriteReply (reply : ClassAd) : M unit :=
  act io (PutClassAd reply);;
  act io FinishMessage.

(** [await] is what the loop sends back within five seconds. *)
Definition locateStarter (await : option Reconnect.LocateResult) (reply : chanid) (claimID gjid : string)
    : M Reconnect.LocateResult :=
  submit (EvLocateStarter claimID gjid reply);;
  mret (default Reconnect.notLocated await).

Definition StartdHandler (locate : string → string → M Reconnect.LocateResult)
    (carried : option Message) (fresh : Message) : M unit :=
  req ← lift (ReadRequest carried fresh);
  let cmd := Reconnect.RequestCommand req in
  if negb (bool_decide (cmd = Reconnect.CmdLocateStarter))
  then WriteReply (Reconnect.FailureReply ("unsupported CA sub-command: " +:+ cmd))
  else
    res ← locate (default "" (EvaluateAttrString Reconnect.AttrClaimID req))
                 (default "" (EvaluateAttrString Reconnect.AttrGlobalJobID req));
    WriteReply (Reconnect.locateReply res).

(** As the startd registers it. *)
Definition handleCA (await : string → string → option Reconnect.LocateResult) (reply : chanid)
    (carried : option Message) (fresh : Message) : list action * option unit :=
  StartdHandler (λ id gjid, locateStarter (await id gjid) reply id gjid) carried fresh [].

Lemma WriteReply_writes reply h : WriteReply reply h = write_all io h [PutClassAd reply; FinishMessage].
Proof.
  unfold WriteReply. rewrite bind_act. cbn [write_all]. destruct (io h _); [|done]. unfold act. by destruct (io _ _).
Qed.

(** What is done for a request that could be read. *)
Lemma handleCA_actions await reply carried fresh req :
  ReadRequest carried fresh = Some req →
  let id := default "" (EvaluateAttrString Reconnect.AttrClaimID req) in
  let gjid := default "" (EvaluateAttrString Reconnect.AttrGlobalJobID req) in
  handleCA await reply carried fresh =
  if bool_decide (Reconnect.RequestCommand req = Reconnect.CmdLocateStarter)
  then write_all io [SubmitEv (EvLocateStarter id gjid reply)]
         [PutClassAd (Reconnect.locateReply (default Reconnect.notLocated (await id gjid))); FinishMessage]
  else write_all io [] [PutClassAd (Reconnect.FailureReply ("unsupported CA sub-command: " +:+ Reconnect.RequestCommand req));
                        FinishMessage].
Proof.
  intros Hr. cbn zeta. unfold handleCA, StartdHandler. rewrite bind_lift, Hr. cbn zeta.
  case_bool_decide; cbn [negb]; [|apply WriteReply_writes].
  unfold locateStarter. rewrite bind_assoc, bind_submit, bind_mret. apply WriteReply_writes.
Qed.
End Handler.

(** ** The loop's answer *)

Section Answer.
Context {CA : ClassAdLib} {SL : SecurityLib} {RS : Persist.RecordStore}.
Implicit Types (c : Core) (s : Slot.Slot) (env : Env) (l : loc).

(** A starter runs under the claim with this id, can be reached at [addr], and runs the
    job asked for if one is. *)
Definition runs_under (id gjid addr : string) c : Prop :=
  ∃ n act l s cl, activations c !! n = Some act ∧ lookupName n c = Some (l, s) ∧ Slot.claim s = Some cl ∧
    Claim.claimID cl = id ∧ starterAddr act = addr ∧ addr ≠ "" ∧ (gjid = "" ∨ globalJID act = gjid).

(** A claim has one starter. *)
Lemma runs_under_unique machine id gjid a b c :
  RegInv machine (regOf c) → IdInv (idsOf c) → runs_under id gjid a c → runs_under id gjid b c → a = b.
Proof.
  intros HI [Hu _] (n & act & l & s & cl & Ha & Hl & Hcl & Hid & Hd & _) (n' & act' & l' & s' & cl' & Ha' & Hl' & Hcl' & Hid' & Hd' & _).
  apply (lookupName_live machine) in Hl as (Hlive & Hs & Hn); [|done].
  apply (lookupName_live machine) in Hl' as (Hlive' & Hs' & Hn'); [|done].
  assert (l = l') as <- by (apply (Hu l l' id); apply holds_idsOf; eauto 10). congruence.
Qed.

Lemma doLocateStarter_finds machine env id gjid addr c :
  (∀ ls, actOrder env ls ≡ₚ ls) → RegInv machine (regOf c) → IdInv (idsOf c) → id ≠ "" →
  runs_under id gjid addr c → doLocateStarter env id gjid c = Reconnect.mkLocateResult true addr.
Proof.
  intros Hord HI Hids Hid Hr. pose proof Hr as (n & act & l & s & cl & Ha & Hl & Hcl & Hx & Hd & Hne & Hg).
  unfold doLocateStarter. rewrite (bool_decide_false _ Hid). set (f := λ '(slotName, act), _).
  assert (f (n, act) = Some (Reconnect.mkLocateResult true addr)) as Hf.
  { unfold f. rewrite Hl, bool_decide_false, Hcl, Hx, Hd by congruence. unfold locateMatch.
    rewrite (bool_decide_true (id = id)) by done. destruct Hg as [-> | ->]; [done|].
    rewrite (bool_decide_true (gjid = gjid)) by done. by rewrite andb_false_r. }
  destruct (find_map f _) as [r|] eqn:E.
  - apply find_map_Some in E as ([n' act'] & Hin & H). rewrite Hord in Hin. apply elem_of_map_to_list in Hin.
    unfold f in H. destruct (lookupName n' c) as [[l' s']|] eqn:El; [|done].
    case_bool_decide as Hz; [done|]. destruct (Slot.claim s') as [cl'|] eqn:Ecl; [|done].
    destruct (locateMatch _ _ _ _) eqn:Em; [|done]. injection H as <-. apply locateMatch_true in Em as [H1 H2].
    f_equal. apply (runs_under_unique machine id gjid _ _ c HI Hids); [|done]. by exists n', act', l', s', cl'.
  - rewrite find_map_None in E. rewrite E in Hf; [done|]. rewrite Hord. by apply elem_of_map_to_list.
Qed.
End Answer.

(** ** The shadow, the handler and the loop *)

Section Shadow.
Context {CA : ClassAdLib} {CAL : ClassAdLaws CA} {SL : SecurityLib} {SLL : SecurityLaws SL} {RS : Persist.RecordStore} {ML : MessageLib}.
Context (h : Host) (cf : Config) (hostname sinful : string) (total : Slot.Resources) (t0 : Time).
Context (opts : CoreConfig) (m : Claim.Minter) (st : option Persist.rstore).
Hypothesis total_ok : res_ok total.
Hypothesis total_cpus : 1 ≤ Slot.Cpus total.

End Shadow.
End Locate.

(** ** Witness: after a restart the adopted starter says hello and its shadow asks for it *)

Import RefClassAd RefSecurity RefMessage Locate.

Definition quoted (s : string) : string := of_bytes (["034"%char] ++ bytes_of s ++ ["034"%char]).

Definition shadowAsks : Message (MessageLib := refMessage) :=
  [inl 2; inr ("Command = " +:+ quoted "CA_LOCATE_STARTER"); inr "ZKM"; inr ("ClaimId = " +:+ quoted dslotID);
   inr "Job"; inr ""] : list (Z + string).

Definition shadowRequest : ClassAd := default adNew (ReadRequest None shadowAsks).

Lemma shadow_request :
  ReadRequest None shadowAsks = Some shadowRequest ∧
  Reconnect.RequestCommand shadowRequest = Reconnect.CmdLocateStarter ∧
  EvaluateAttrString Reconnect.AttrClaimID shadowRequest = Some dslotID.
Proof. split_and!; vm_compute; reflexivity. Qed.

Definition restart2 : Core := handle demoEnv (EvStarterHello "slot1_1@h" "<h:5>" 99 100) restart1.

Lemma restart2_serving : serving restart0 true restart2.
Proof.
  eapply sv_event; [exact restart1_serving| |by left].
  split; [|done]. split; [vm_compute; by split|]. vm_compute. by split.
Qed.

Lemma restart2_runs : runs_under dslotID "" "<h:5>" restart2.
Proof.
  assert (starterAddr <$> activations restart2 !! "slot1_1@h" = Some "<h:5>") as Ha by (vm_compute; reflexivity).
  assert ((lookupName "slot1_1@h" restart2 ≫= λ ls, Claim.claimID <$> Slot.claim ls.2) = Some dslotID) as Hl
    by (vm_compute; reflexivity).
  apply fmap_Some in Ha as (act & Ha & Hd). apply bind_Some in Hl as ([l s] & Hl & Hc). apply fmap_Some in Hc as (cl & Hcl & Hid).
  exists "slot1_1@h", act, l, s, cl. split; [exact Ha|]. split; [exact Hl|]. split; [exact Hcl|].
  split; [symmetry; exact Hid|]. split; [symmetry; exact Hd|]. split; [discriminate|]. left. reflexivity.
Qed.

