(* ===== verification/StartdMain.v ===== *)
(** * The startd program (cmd/startd)

    How [main] reads the configuration, builds the machine, the slots and the core, finds
    the collectors and its own address, and which security policy each command is
    negotiated with.  The configuration, the host and the daemon framework are
    parameters. *)

From S2P Require Import Prelude GoLang ClassAd Claim Slot SlotFacts Persist Persister StarterMsg Reconnect Args AdWire.
From S2P Require Import Registry Core CoreFrame CoreDemo CoreReg CoreInit Handlers Query.
From Stdlib Require Import Ascii.

Import Core.

Local Open Scope Z_scope.
Local Open Scope ep_scope.

Module StartdMain.

(** ** Configuration readers *)

Definition configSeconds (cfg : Config) (key : string) (def : Duration) : Duration :=
  match cfg key with
  | Some v => match Atoi (TrimSpace v) with
              | Some secs => if 0 <? secs then wrap64 (secs * Second) else def
              | None => def
              end
  | None => def
  end.

Definition configString (cfg : Config) (key def : string) : string :=
  match cfg key with
  | Some v => if bool_decide (TrimSpace v = "") then def else TrimSpace v
  | None => def
  end.

Definition configInt (cfg : Config) (key : string) (def : Z) : Z :=
  match cfg key with
  | Some v => match Atoi (TrimSpace v) with
              | Some n => if 0 <? n then n else def
              | None => def
              end
  | None => def
  end.

Definition claimsDir (cfg : Config) : string :=
  let v := configString cfg "EP_CLAIMS_DIR" "" in
  if negb (bool_decide (v = "")) then v
  else let spool := configString cfg "SPOOL" "" in
       if negb (bool_decide (spool = "")) then pathJoin [spool; "ep"; "claims"] else "".

Definition starterSocketDir (cfg : Config) : string :=
  let v := configString cfg "EP_STARTER_SOCKET_DIR" "" in
  if negb (bool_decide (v = "")) then v
  else let spool := configString cfg "SPOOL" "" in
       if negb (bool_decide (spool = "")) then pathJoin [spool; "ep"; "starters"] else "".

(** [hostname] is [os.Hostname]. *)
Definition fullHostname (hostname : option string) (cfg : Config) : string :=
  match cfg "FULL_HOSTNAME" with
  | Some v => if bool_decide (TrimSpace v = "") then default "localhost" hostname else TrimSpace v
  | None => default "localhost" hostname
  end.

(** ** Addresses *)

(** [advertised] is [d.AdvertisedSinful], [lnAddr] the listener's address. *)
Definition startdAddr (advertised : option string) (lnAddr : string) : string := default lnAddr advertised.

Definition wrapSinful (addr : string) : string :=
  let addr := TrimSpace addr in
  if bool_decide (addr = "") then ""
  else if HasPrefix addr "<" then addr
  else "<" +:+ addr +:+ ">".

Definition newline : string := String.String (ascii_of_N 10) "".

(** A path from the knob, or the named file of the log directory. *)
Definition addressFilePath (cfg : Config) (knob : option string) (file : string) : option string :=
  match knob with
  | Some path => Some path
  | None => match cfg "LOG" with
            | Some logDir => if bool_decide (logDir = "") then None else Some (pathJoin [logDir; file])
            | None => None
            end
  end.

(** What is written where; [writeOK] is [os.WriteFile].  The result is the path to remove
    on exit. *)
Definition writeAddressFile (writeOK : string → string → bool) (cfg : Config) (advertised : option string) (lnAddr : string)
    : option (string * string) * string :=
  let knob := match cfg "STARTD_ADDRESS_FILE" with
              | Some p => if bool_decide (TrimSpace p = "") then None else Some p
              | None => None
              end in
  match addressFilePath cfg knob ".startd_address" with
  | None => (None, "")
  | Some path =>
      let data := "<" +:+ startdAddr advertised lnAddr +:+ ">" +:+ newline in
      (Some (path, data), if writeOK path data then path else "")
  end.

(** The first line that is neither blank nor a comment. *)
Fixpoint addressLine (lines : list string) : string :=
  match lines with
  | [] => ""
  | line :: r =>
      let line := TrimSpace line in
      if negb (bool_decide (line = "")) && negb (HasPrefix line "#") then line else addressLine r
  end.

Definition readCollectorAddressFile (readFile : string → option string) (cfg : Config) : string :=
  let knob := match cfg "COLLECTOR_ADDRESS_FILE" with
              | Some p => if bool_decide (p = "") then None else Some p
              | None => None
              end in
  match addressFilePath cfg knob ".collector_address" with
  | None => ""
  | Some path => match readFile path with
                 | Some data => addressLine (Split data (ascii_of_N 10))
                 | None => ""
                 end
  end.

Definition splitHostList (raw : string) : list string := Args.FieldsFunc raw Query.listSep.

Definition TrimPrefix (s pre : string) : string :=
  if HasPrefix s pre then String.substring (String.length pre) (String.length s - String.length pre) s else s.

Definition hasUsablePort (entry : string) : bool :=
  let s := TrimSpace entry in
  let s := TrimPrefix (TrimSuffix s ">") "<" in
  let s := match Cut s "?" with Some (a, _) => a | None => s end in
  match SplitHostPort s with
  | Some (_, port) => negb (bool_decide (port = "")) && negb (bool_decide (port = "0"))
  | None => false
  end.

Definition resolveCollectors (readFile : string → option string) (cfg : Config) : list string :=
  let addr := readCollectorAddressFile readFile cfg in
  let fallback := if bool_decide (addr = "") then [] else [addr] in
  let out := splitHostList (default "" (cfg "COLLECTOR_HOST"))
               ≫= λ e, if hasUsablePort e then [e] else fallback in
  if bool_decide (out = []) then fallback else out.

(** ** Starting the core *)

Section Boot.
Context {CA : ClassAdLib} {SL : SecurityLib} {RS : Persist.RecordStore}.
Context (h : Host) (cfg : Config) (hostname : option string) (advertised : option string) (lnAddr : string).
(** [openStore] is [persist.Open]; [now] the clock. *)
Context (openStore : string → option Persist.rstore) (now : Time).

Definition startOptions : CoreConfig :=
  let host := fullHostname hostname cfg in
  mkCoreConfig true
    (configSeconds cfg "UPDATE_INTERVAL" (300 * Second))
    (configInt cfg "MAX_CLAIM_ALIVES_MISSED" Claim.DefaultAlivesMissed)
    (configSeconds cfg "MATCH_TIMEOUT" (120 * Second))
    (Slot.ExecuteDir h cfg)
    (configSeconds cfg "STARTER_UPDATE_INTERVAL" (300 * Second))
    (configString cfg "UID_DOMAIN" host)
    (configString cfg "FILESYSTEM_DOMAIN" host)
    (configString cfg "STARTER_MODE" "goroutine")
    (configString cfg "STARTER" "")
    (starterSocketDir cfg)
    (configSeconds cfg "KILLING_TIMEOUT" (30 * Second))
    0.

Definition bootSinful : string := wrapSinful (startdAddr advertised lnAddr).

Definition bootStore : option Persist.rstore :=
  let dir := claimsDir cfg in if negb (bool_decide (dir = "")) then openStore dir else None.

(** The core [run] builds before it starts the loop. *)
Definition boot : Core :=
  startup h cfg (fullHostname hostname cfg) bootSinful (Slot.DetectResources h cfg) now startOptions
    (Some (Claim.NewMinter bootSinful (Unix now))) bootStore.

(** *** Properties *)

Lemma ParseInt_range s z : ParseInt s = Some z → int64_range z.
Proof.
  unfold ParseInt. destruct (match bytes_of s with [] => _ | _ => _ end) as [neg ds]. destruct ds; [done|].
  destruct (digits_val 0 _) as [v|]; [|done]. cbn zeta.
  destruct ((- two63 <=? _) && (_ <? two63)) eqn:E; [|done]. intros [= <-]. breflect. unfold int64_range. lia.
Qed.

Lemma positiveKnob_range key n : Slot.positiveKnob cfg key = Some n → 1 ≤ n < two63.
Proof.
  unfold Slot.positiveKnob. destruct (cfg key); [|done]. destruct (ParseInt _) as [z|] eqn:E; [|done].
  apply ParseInt_range in E. unfold int64_range in E. destruct (0 <? z) eqn:Ez; [|done]. intros [= <-]. breflect. lia.
Qed.

Lemma quot_small z : int64_range z → Z.quot z 1024 < two63.
Proof. unfold int64_range, two63. intros H. pose proof (Z.quot_rem z 1024). pose proof (Z.rem_bound_abs z 1024). lia. Qed.

Lemma memTotal_range lines : Slot.memTotal lines < two63.
Proof.
  induction lines as [|l ls IH]; cbn [Slot.memTotal]; [done|]. destruct (negb _); [done|].
  destruct (Fields l) as [|? [|f1 ?]]; [done..|]. destruct (ParseInt f1) as [kb|] eqn:E; [|done].
  by apply quot_small, (ParseInt_range f1).
Qed.

Lemma physicalMemory_range : Slot.detectPhysicalMemoryMB h < two63.
Proof.
  unfold Slot.detectPhysicalMemoryMB. destruct (physicalMemory h) as [[ls|]|[b|]|]; try done; cbn [Slot.detectPhysicalMemoryMB_linux].
  - apply memTotal_range.
  - unfold Slot.detectPhysicalMemoryMB_darwin. case_match; [done|]. apply wrap64_range.
Qed.

(** An unsigned number of bytes loses nothing when it becomes a signed number of megabytes. *)
Lemma darwin_memory_exact b :
  0 < b < 2 * two63 → Slot.detectPhysicalMemoryMB_darwin (Some b) = b / (1024 * 1024).
Proof.
  intros Hb. unfold Slot.detectPhysicalMemoryMB_darwin. rewrite (proj2 (Z.eqb_neq _ _)) by lia.
  apply wrap64_id. unfold int64_range, two63 in *. split.
  - pose proof (Z.div_pos b (1024 * 1024)). lia.
  - apply Z.div_lt_upper_bound; lia.
Qed.

Lemma detectDiskKB_range dir : Slot.detectDiskKB h dir < two63.
Proof. unfold Slot.detectDiskKB. split_match; try done; apply quot_small, wrap64_range. Qed.

(** Whatever the configuration and the host say, the machine fits the machine's integers. *)
Lemma detected_ok : NumCPU h < two63 → res_ok (Slot.DetectResources h cfg) ∧ 1 ≤ Slot.Cpus (Slot.DetectResources h cfg).
Proof.
  intros Hcpu. pose proof (DetectResources_positive h cfg) as Hpos.
  assert (Slot.detectCpus h cfg < two63).
  { unfold Slot.detectCpus. destruct (Slot.positiveKnob _ _) eqn:E; [apply positiveKnob_range in E; simpl; lia|done]. }
  assert (Slot.detectMemoryMB h cfg < two63).
  { unfold Slot.detectMemoryMB. destruct (Slot.positiveKnob _ _) eqn:E; [apply positiveKnob_range in E; lia|].
    pose proof physicalMemory_range. split_match; done. }
  pose proof (detectDiskKB_range (Slot.ExecuteDir h cfg)).
  unfold res_ok, res_positive, Slot.DetectResources in *. cbn [Slot.Cpus Slot.MemoryMB Slot.DiskKB] in *.
  repeat case_match; unfold two63 in *; lia.
Qed.

(** The settings every timer and lease is computed from. *)
Definition timers_positive (c : CoreConfig) : Prop :=
  0 < interval c ∧ 0 < alivesMissed c ∧ 0 < matchTimeout c ∧ 0 < killingTimeout c ∧ 0 < maxVacateTime c.

Lemma normConfig_positive o : timers_positive (normConfig o).
Proof.
  unfold timers_positive, normConfig, normMaxVacateTime, normKillingTimeout, Claim.DefaultAlivesMissed, Second. cbn.
  split_and!; split_match; breflect; lia.
Qed.

Lemma cfg_prime c : Core.cfg (prime c) = Core.cfg c.
Proof.
  unfold prime. case_match; [|done]. clear. generalize (slots c) as ls. intros ls. revert c.
  induction ls as [|l ls IH]; intros c; [done|]. cbn [foldl]. rewrite IH. unfold primeSlot.
  destruct (minter c); [|done]. by destruct (Claim.Mint _) as [? [?|]].
Qed.

End Boot.

(** ** Durations *)

(** A positive number of seconds is taken as it is up to 292 years; beyond that the product wraps
    around. *)
Lemma configSeconds_exact cfg key def v secs :
  cfg key = Some v → Atoi (TrimSpace v) = Some secs → 1 ≤ secs ≤ 9223372036 →
  configSeconds cfg key def = secs * Second.
Proof.
  intros Hk Hv Hs. unfold configSeconds. rewrite Hk, Hv. destruct (0 <? secs) eqn:E; [|breflect; lia].
  apply wrap64_id. unfold int64_range, two63, Second. lia.
Qed.

Lemma configSeconds_wraps def :
  configSeconds (λ _, Some "18446744074") "UPDATE_INTERVAL" def = 290448384 ∧
  configSeconds (λ _, Some "9223372037") "UPDATE_INTERVAL" def < 0.
Proof. split; vm_compute; reflexivity. Qed.

(** ** Addresses *)

(** The address file brackets an address that already has brackets; the ads do not. *)
Lemma address_file_doubles_brackets writeOK cfg lnAddr :
  cfg "STARTD_ADDRESS_FILE" = Some "/a" →
  (writeAddressFile writeOK cfg (Some "<1.2.3.4:9618?sock=s>") lnAddr).1 = Some ("/a", "<<1.2.3.4:9618?sock=s>>" +:+ newline) ∧
  bootSinful (Some "<1.2.3.4:9618?sock=s>") lnAddr = "<1.2.3.4:9618?sock=s>".
Proof. intros H. unfold writeAddressFile. rewrite H. split; reflexivity. Qed.

(** Where the ads go: the entries of COLLECTOR_HOST with a usable port, in order, the
    address file standing for each of the others. *)
Lemma resolveCollectors_sound readFile cfg e :
  e ∈ resolveCollectors readFile cfg →
  (e ∈ splitHostList (default "" (cfg "COLLECTOR_HOST")) ∧ hasUsablePort e = true) ∨
  (e = readCollectorAddressFile readFile cfg ∧ e ≠ "").
Proof.
  assert (∀ e, e ∈ (if bool_decide (readCollectorAddressFile readFile cfg = "") then [] else [readCollectorAddressFile readFile cfg]) →
    e = readCollectorAddressFile readFile cfg ∧ e ≠ "") as Hfb.
  { intros e' He. case_bool_decide; [by apply elem_of_nil in He|]. by apply list_elem_of_singleton in He as ->. }
  unfold resolveCollectors. cbn zeta. revert Hfb. generalize (if bool_decide (readCollectorAddressFile readFile cfg = "") then []
    else [readCollectorAddressFile readFile cfg]). intros fb Hfb. case_bool_decide; intros He; [right; by apply Hfb|].
  apply list_elem_of_bind in He as (x & He & Hx). destruct (hasUsablePort x) eqn:E.
  - apply list_elem_of_singleton in He as ->. by left.
  - right. by apply Hfb.
Qed.

(** ** Authorization (cmd/startd/authz.go) *)

Section Authz.
(** A security configuration: what the level decides, and the rest (the session cache,
    the credentials, the policy after authentication). *)
Context {Policy Rest : Type}.
Record SecurityConfig := mkSecurityConfig { levelPolicy : Policy; shared : Rest }.

Definition securityLevels : list string :=
  ["ALLOW"; "READ"; "WRITE"; "NEGOTIATOR"; "ADMINISTRATOR"; "CONFIG"; "DAEMON"].
Definition advertiseLevels : list string := ["ADVERTISE_STARTD"; "ADVERTISE_SCHEDD"; "ADVERTISE_MASTER"].

Definition commandNames : list (Z * string) :=
  [ (Claim.CmdRequestClaim, "REQUEST_CLAIM"); (Claim.CmdReleaseClaim, "RELEASE_CLAIM");
    (Claim.CmdActivateClaim, "ACTIVATE_CLAIM"); (Claim.CmdDeactivateClaim, "DEACTIVATE_CLAIM");
    (Claim.CmdDeactivateClaimForcibly, "DEACTIVATE_CLAIM_FORCIBLY");
    (Claim.CmdDeactivateClaimJobDone, "DEACTIVATE_CLAIM_JOB_DONE");
    (Claim.CmdDeactivateFinalXfer, "DEACTIVATE_CLAIM_FINAL_XFER"); (Claim.CmdMatchInfo, "MATCH_INFO");
    (Query.GIVE_STATE, "GIVE_STATE"); (Reconnect.CACmd, "CA_CMD") ].

(** [d.ServerSecurityConfig], for a level; [srv.CommandPerms]. *)
Context (ServerSecurityConfig : string → option SecurityConfig) (CommandPerms : Z → list string).

Fixpoint levelTable (base : SecurityConfig) (lvls : list string) (byLevel : gmap string SecurityConfig)
    : option (gmap string SecurityConfig) :=
  match lvls with
  | [] => Some byLevel
  | lvl :: r =>
      match ServerSecurityConfig lvl with
      | None => None
      | Some s => levelTable base r (<[lvl := mkSecurityConfig (levelPolicy s) (shared base)]> byLevel)
      end
  end.

(** [byLevel[lvl] = byLevel["DAEMON"]]. *)
Definition advertiseTable (byLevel : gmap string SecurityConfig) : gmap string SecurityConfig :=
  foldl (λ m lvl, match m !! "DAEMON" with Some c => <[lvl := c]> m | None => m end) byLevel advertiseLevels.

(** [SecurityConfigForCommand]: the policy of the first level of the command. *)
Definition policyOf (byLevel : gmap string SecurityConfig) (command : Z) : option SecurityConfig :=
  match CommandPerms command with [] => None | p :: _ => byLevel !! p end.

Definition installAuthz (base : SecurityConfig) : option (Z → option SecurityConfig) :=
  match levelTable base securityLevels ∅ with
  | None => None
  | Some byLevel => Some (policyOf (advertiseTable byLevel))
  end.

(** [newCommandServer]: the DAEMON policy is the base, with the shared cache in it. *)
Definition newCommandServer (withCache : Rest → Rest) (newAuthz : bool) : option (Z → option SecurityConfig) :=
  match ServerSecurityConfig "DAEMON" with
  | None => None
  | Some sec => if newAuthz then installAuthz (mkSecurityConfig (levelPolicy sec) (withCache (shared sec))) else None
  end.

Lemma levelTable_lookup base lvls m t lvl :
  NoDup lvls → levelTable base lvls m = Some t →
  t !! lvl = if bool_decide (lvl ∈ lvls)
             then (λ s, mkSecurityConfig (levelPolicy s) (shared base)) <$> ServerSecurityConfig lvl else m !! lvl.
Proof.
  intros Hnd. revert m. induction Hnd as [|x lvls Hx Hnd IH]; intros m; cbn [levelTable].
  { intros [= ->]. by rewrite bool_decide_eq_false_2 by (by intros ?%elem_of_nil). }
  destruct (ServerSecurityConfig x) as [s|] eqn:Es; [|done]. intros Ht. rewrite (IH _ Ht).
  destruct (decide (lvl = x)) as [->|Hne].
  - rewrite (bool_decide_eq_true_2 (x ∈ x :: lvls)) by (by left). rewrite bool_decide_eq_false_2 by done.
    by rewrite lookup_insert_eq, Es.
  - rewrite lookup_insert_ne by done. rewrite (bool_decide_ext (lvl ∈ x :: lvls) (lvl ∈ lvls)); [done|]. rewrite elem_of_cons. tauto.
Qed.

Lemma levelTable_total base lvls m :
  is_Some (levelTable base lvls m) ↔ Forall (λ l, is_Some (ServerSecurityConfig l)) lvls.
Proof.
  revert m. induction lvls as [|x lvls IH]; intros m; cbn [levelTable]; [by split|].
  rewrite Forall_cons. destruct (ServerSecurityConfig x) as [s|]; [|split; intros H; [by destruct H|by destruct H as [[]]]].
  rewrite IH. naive_solver.
Qed.

Lemma advertise_lookup (m : gmap string SecurityConfig) lvl :
  lvl ∉ advertiseLevels →
  advertiseTable m !! lvl = m !! lvl.
Proof.
  unfold advertiseTable. generalize advertiseLevels. intros ls Hl. revert m. induction ls as [|x ls IH]; intros m; [done|].
  cbn [foldl]. apply not_elem_of_cons in Hl as [Hx Hl]. rewrite (IH Hl). case_match; [|done]. by rewrite lookup_insert_ne.
Qed.

Lemma registered_levels haveMinter cmd lvl :
  (cmd, lvl) ∈ Query.RegisterCommands haveMinter → lvl ∈ securityLevels ∧ (lvl ∉ advertiseLevels).
Proof.
  assert (Forall (λ p : Z * string, p.2 ∈ securityLevels ∧ (p.2 ∉ advertiseLevels)) (Query.RegisterCommands true)) as H
    by (apply (bool_decide_unpack _); vm_compute; exact I).
  rewrite Forall_forall in H. intros Hin. apply (H (cmd, lvl)). destruct haveMinter; [done|].
  unfold Query.RegisterCommands in *. rewrite elem_of_app in *. destruct Hin as [?|?%elem_of_nil]; [by left|done].
Qed.

End Authz.
End StartdMain.

(** ** Witnesses *)

Import StartdMain RefClassAd RefSecurity.

Definition bootDemo : Core := boot demoHost demoConfig (Some "h") None "10.0.0.1:9618" (λ _, Some demoRStore) 0.


Definition demoPolicy (lvl : string) : option (SecurityConfig (Policy := string) (Rest := bool)) := Some (mkSecurityConfig lvl false).
Definition demoPerms (cmd : Z) : list string :=
  (λ p : Z * string, p.2) <$> filter (λ p : Z * string, p.1 = cmd) (Query.RegisterCommands true).

