(* ===== verification/Program.v ===== *)
(** * The startd program (run of cmd/startd/main.go, Adopt of internal/startd/adopt.go)

    [run] builds everything, starts the core, re-adopts the claims of the last run and
    serves; what it deferred is undone in reverse on every way out.  The second part
    composes the program's order with the goroutines of Shutdown.v: the states of the core
    in a run of the program are the ones the theorems of Restart.v speak of. *)

From S2P Require Import Prelude GoLang ClassAd Claim Slot SlotFacts Persist Persister StarterMsg Reconnect.
From S2P Require Import Registry Core CoreFrame CoreDemo CoreReg CorePersist Shutdown CoreInit Lifecycle ClaimIds CoreProps Adoption Restart.
From S2P Require Import AdWire Handlers Query StartdMain.

Import Core.

Local Open Scope Z_scope.

Module Program.

(** ** The order of [run] *)

Section Run.
Context (cfg : Config) (advertised : option string) (lnAddr : string).

(** The calls of [run] that can fail or leave something behind. *)
Inductive call :=
| LoadConfig | NewDaemon | Listen | BuildServer | WriteAddress (path data : string) | OpenStore (dir : string)
| RegisterCommands | MakeContext | StartCore | AdoptClaims | Serve
| StopCore | CancelContext | CloseStore | RemoveAddress (path : string) | CloseListener.

#[global] Instance call_eq_dec : EqDecision call.
Proof. solve_decision. Defined.

(** Does the call succeed? *)
Context (io : call → bool).

(** The calls done and the deferred ones, the last first; [None] is an error return. *)
Definition P (A : Type) := list call * list call → (list call * list call) * option A.

#[global] Instance P_ret : MRet P := λ A x w, (w, Some x).
#[global] Instance P_bind : MBind P := λ A B k p w, match p w with (w, Some x) => k x w | (w, None) => (w, None) end.

Definition perform (c : call) : P bool := λ w, ((w.1 ++ [c], w.2), Some (io c)).
Definition must (c : call) : P unit := λ w, ((w.1 ++ [c], w.2), if io c then Some tt else None).
Definition defer (c : call) : P unit := λ w, ((w.1, c :: w.2), Some tt).

Definition publishAddress : P unit :=
  let '(wrote, path) := StartdMain.writeAddressFile (λ path data, io (WriteAddress path data)) cfg advertised lnAddr in
  (match wrote with Some (p, data) => perform (WriteAddress p data);; mret tt | None => mret tt end : P unit);;
  if bool_decide (path = "") then mret tt else defer (RemoveAddress path).

Definition openClaims : P unit :=
  let dir := StartdMain.claimsDir cfg in
  if bool_decide (dir = "") then mret tt
  else perform (OpenStore dir) ≫= λ ok : bool, if ok then defer CloseStore else mret tt.

Definition body : P unit :=
  must LoadConfig;;
  must NewDaemon;;
  must Listen;;
  defer CloseListener;;
  must BuildServer;;
  publishAddress;;
  openClaims;;
  perform RegisterCommands;;
  perform MakeContext;;
  defer CancelContext;;
  perform StartCore;;
  defer StopCore;;
  perform AdoptClaims;;
  must Serve.

Definition run : list call * option unit := let '((tr, ds), r) := body ([], []) in (tr ++ ds, r).

(** What undoes a call. *)
Definition undo (c : call) : option call :=
  match c with
  | Listen => Some CloseListener
  | WriteAddress p _ => Some (RemoveAddress p)
  | OpenStore _ => Some CloseStore
  | MakeContext => Some CancelContext
  | StartCore => Some StopCore
  | _ => None
  end.

(** Contexts and goroutines always start. *)
Definition starts : Prop := io MakeContext = true ∧ io StartCore = true.

(** What was deferred undoes exactly what succeeded. *)
Definition tidy_stack (w : list call * list call) : Prop :=
  w.2 = reverse (omap undo (filter (λ c, io c = true) w.1)).

Definition keeps {A} (p : P A) : Prop := ∀ w, tidy_stack w → tidy_stack (p w).1.

Lemma stack_bind {A B} (p : P A) (k : A → P B) : keeps p → (∀ x, keeps (k x)) → keeps (p ≫= k).
Proof.
  intros Hp Hk w Hw. specialize (Hp w Hw). unfold mbind, P_bind. destruct (p w) as [w' [x|]]; [|done]. by apply Hk.
Qed.

Lemma tidy_call c ds w :
  tidy_stack w → ds = option_list (if io c then undo c else None) → tidy_stack (w.1 ++ [c], ds ++ w.2).
Proof.
  unfold tidy_stack. cbn [fst snd]. intros -> ->. rewrite filter_app, omap_app, reverse_app. f_equal.
  rewrite filter_cons, filter_nil. destruct (io c) eqn:E.
  - rewrite decide_True by done. cbn. by destruct (undo c).
  - by rewrite decide_False.
Qed.

Lemma stack_ret {A} (x : A) : keeps (mret x : P A).
Proof. by intros w. Qed.

Lemma stack_plain c : undo c = None → keeps (perform c) ∧ keeps (must c).
Proof.
  intros Hu. split; intros w Hw; apply (tidy_call c [] w Hw); rewrite Hu; by case_match.
Qed.

(** A call that succeeded, and then its undoing deferred. *)
Lemma stack_open_must c u {A} (k : P A) : undo c = Some u → keeps k → keeps (must c;; defer u;; k).
Proof.
  intros Hu Hk w Hw. unfold must, defer, mbind, P_bind. destruct (io c) eqn:E.
  - apply Hk, (tidy_call c [u] w Hw). by rewrite E, Hu.
  - apply (tidy_call c [] w Hw). by rewrite E.
Qed.

Lemma stack_open c u {A} (k : P A) : undo c = Some u → io c = true → keeps k → keeps (perform c;; defer u;; k).
Proof.
  intros Hu E Hk w Hw. unfold perform, defer, mbind, P_bind. apply Hk, (tidy_call c [u] w Hw). by rewrite E, Hu.
Qed.

Lemma stack_publish : (∀ data, io (WriteAddress "" data) = false) → keeps publishAddress.
Proof.
  intros Hempty w Hw. unfold publishAddress, StartdMain.writeAddressFile.
  set (knob := match cfg "STARTD_ADDRESS_FILE" with Some _ => _ | None => None end).
  destruct (StartdMain.addressFilePath cfg knob ".startd_address") as [path|]; [|done].
  set (data := _ +:+ _). unfold mbind, P_bind, mret, P_ret, perform, defer. cbn.
  destruct (io (WriteAddress path data)) eqn:E.
  - case_bool_decide as Hp; [subst; by rewrite Hempty in E|].
    apply (tidy_call (WriteAddress path data) [RemoveAddress path] w Hw). by rewrite E.
  - apply (tidy_call (WriteAddress path data) [] w Hw). by rewrite E.
Qed.

Lemma stack_openClaims : keeps openClaims.
Proof.
  intros w Hw. unfold openClaims. case_bool_decide; [done|]. unfold mbind, P_bind, perform, defer, mret, P_ret.
  destruct (io _) eqn:E; [apply (tidy_call _ [CloseStore] w Hw)|apply (tidy_call _ [] w Hw)]; by rewrite E.
Qed.

Lemma stack_body : starts → (∀ data, io (WriteAddress "" data) = false) → keeps body.
Proof.
  intros [H1 H2] Hempty. unfold body.
  repeat first
    [ apply stack_open_must; [done|] | apply stack_open; [done|done|]
    | apply stack_bind; [by apply stack_plain|intros _]
    | apply stack_bind; [by apply stack_publish|intros _]
    | apply stack_bind; [by apply stack_openClaims|intros _] ].
  by apply stack_plain.
Qed.

(** Whatever fails, [run] undoes exactly what succeeded, in reverse: the core is stopped
    before the claim store is closed, the address file removed and the listener closed. *)
Lemma run_unwinds :
  starts → (∀ data, io (WriteAddress "" data) = false) →
  ∃ done_, run.1 = done_ ++ reverse (omap undo (filter (λ c, io c = true) done_)).
Proof.
  intros Hs He. unfold run. pose proof (stack_body Hs He ([], []) eq_refl) as Hb.
  destruct (body ([], [])) as [[tr ds] r]. exists tr. unfold tidy_stack in Hb. cbn in *. by rewrite Hb.
Qed.
End Run.

(** ** The core while the program runs *)

Section Goroutines.
Context {CA : ClassAdLib} {SL : SecurityLib} {RS : Persist.RecordStore}.
Import Shutdown.

(** [Adopt]: nothing without a store; the wait for the answer changes nothing. *)
Definition Adopt (c : Core) (done : chanid) (events : list Event) : list Event :=
  match pers c with None => events | Some _ => Submit (EvAdopt done) events end.

Definition set_events (es : list Event) (d : daemon) : daemon :=
  mkDaemon (core d) es (cancelled d) (loopDone d) (wake d) (done_ d) (writer d) (stopper d) (plog d).

(** The program from [core.Start] on; the flag says whether [core.Adopt] was called.
    Commands are served, and with them events submitted, only afterwards, and nothing
    but [Adopt] makes a re-adoption event. *)
Definition submits (adopted : bool) (d d' : daemon) : Prop :=
  events d' = events d ∨ adopted = true ∧ ∃ ev, no_adopt ev = true ∧ events d' = Submit ev (events d).

Inductive prog (c0 : Core) : bool → daemon → Prop :=
| pg_start : prog c0 false (Start c0)
| pg_adopt done d : prog c0 false d → prog c0 true (set_events (Adopt (core d) done (events d)) d)
| pg_step adopted lb d d' :
    prog c0 adopted d → dstep lb d d' → (lb = DOutside → submits adopted d d') →
    (∀ ev, lb = DEvent ev → event_ok ev (core d) ∧ (no_adopt ev = false → adopts (core d))) →
    prog c0 adopted d'.

Lemma set_events_ran admits c0 done d : ran admits c0 d → ran admits c0 (set_events (Adopt (core d) done (events d)) d).
Proof.
  intros Hr. unfold Adopt. destruct d as [c es k ld w dn wr st g]. cbn. destruct (pers c); [|done].
  eapply ran_step; [exact Hr|apply d_submit|done].
Qed.

Lemma prog_ran c0 adopted d : prog c0 adopted d → ran (λ _ _, True) c0 d.
Proof.
  induction 1 as [|done d _ IH|adopted lb d d' _ IH Hs _ _]; [apply ran_start|by apply set_events_ran|by eapply ran_step].
Qed.

(** The queue: a re-adoption can only be its head, before any other event was handled. *)
Definition queue_ok (adopted begun : bool) (es : list Event) : Prop :=
  if adopted then
    Forall (λ ev, no_adopt ev = true) es ∨
    begun = false ∧ ∃ done rest, es = EvAdopt done :: rest ∧ Forall (λ ev, no_adopt ev = true) rest
  else es = [] ∧ begun = false.

Lemma queue_submit begun ev es : no_adopt ev = true → queue_ok true begun es → queue_ok true begun (Submit ev es).
Proof.
  intros Hn [Hf|(Hb & done & rest & -> & Hf)]; unfold Submit; case_match; [left|by left|right|right; eauto 6].
  - apply Forall_app. split; [done|by apply Forall_singleton].
  - split; [done|]. exists done, (rest ++ [ev]). split; [done|]. apply Forall_app. split; [done|by apply Forall_singleton].
Qed.

Lemma queue_adopt begun c done es : queue_ok false begun es → queue_ok true begun (Adopt c done es).
Proof.
  intros [-> ->]. unfold Adopt. destruct (pers c); [|by left]. right. split; [done|]. by exists done, [].
Qed.

(** What the head of the queue asks of the core, and what is left behind it. *)
Lemma queue_head adopted begun ev es c :
  queue_ok adopted begun (ev :: es) → (no_adopt ev = false → adopts c) →
  adopted = true ∧ admits begun ev c ∧ Forall (λ ev, no_adopt ev = true) es.
Proof.
  destruct adopted; [|by intros [? _]]. intros Hq Ha. split; [done|].
  destruct Hq as [[Hn Hf]%Forall_cons|(Hb & done & rest & [= -> ->] & Hf)]; [by split; [left|]|].
  split; [|done]. right. split; [done|]. split; [by eexists|by apply Ha].
Qed.

(** The first thing the loop handles is the re-adoption. *)
Lemma prog_readopts c0 env done :
  is_Some (pers c0) → event_ok (EvAdopt done) c0 → adopts c0 →
  ∃ d, prog c0 true d ∧ loopDone d = false ∧ core d = handle env (EvAdopt done) c0.
Proof.
  intros [p Hp] Hok Ha. destruct (loopLog_exists env (EvAdopt done) c0) as [ls Hls].
  pose proof (pg_adopt c0 done (Start c0) (pg_start c0)) as H. unfold Adopt in H. cbn [Start core events] in H.
  rewrite Hp in H. eexists. split; [|split; [|]].
  - eapply pg_step; [exact H|apply (d_event env _ ls), Hls|done|]. by intros ev [= <-].
  - done.
  - done.
Qed.

Context (c0 : Core) (p0 : persister).
Hypothesis persisted : pers c0 = Some p0.
Hypothesis quiescent : idle p0.

Lemma step_serves adopted begun lb d d' :
  ran (λ _ _, True) c0 d → dstep lb d d' → loopDone d' = false → (lb = DOutside → submits adopted d d') →
  (∀ ev, lb = DEvent ev → event_ok ev (core d) ∧ (no_adopt ev = false → adopts (core d))) →
  serving c0 begun (core d) → queue_ok adopted begun (events d) →
  ∃ begun', serving c0 begun' (core d') ∧ queue_ok adopted begun' (events d').
Proof.
  intros Hran Hst Hl Hsub Hev Hserv Hq.
  pose proof (ran_ok _ _ _ _ persisted quiescent Hran) as [(p & Hp & _ & Hb & _) _ _ _].
  destruct Hst; cbn in *; try done.
  - exists begun. split; [done|]. destruct (Hsub eq_refl) as [He|(-> & ev' & Hn & He)]; cbn in He; rewrite He; [done|by apply queue_submit].
  - by exists begun.
  - exists begun. split; [|done]. by eapply sv_quiet; [|eapply step_supervisor].
  - destruct (Hev _ eq_refl) as [Hok Ha]. destruct (queue_head _ _ _ _ _ Hq Ha) as (-> & Had & Hf).
    exists true. split; [by eapply sv_event|by left].
  - exists begun. split; [|done]. eapply sv_quiet; [done|apply step_tick].
  - by exists begun.
  - by exists begun.
  - exists begun. split; [|done].
    match goal with H : takes _ _ _ _ _ |- _ => destruct H as [fin q He|fin q b Hne Hpm] end.
    + by rewrite set_pers_same.
    + simplify_eq. eapply sv_quiet; [done|]. by eapply step_persist; [|apply PTake].
  - exists begun. split; [|done]. eapply sv_quiet; [done|]. by eapply step_persist; [|apply PCommit].
  - by exists begun.
  - by exists begun.
  - by exists begun; destruct (pers c).
  - by exists begun.
Qed.

Lemma prog_serves adopted d :
  prog c0 adopted d → loopDone d = false → ∃ begun, serving c0 begun (core d) ∧ queue_ok adopted begun (events d).
Proof.
  intros Hp. induction Hp as [|done d Hp IH|adopted lb d d' Hp IH Hs Hsub Hev]; intros Hl.
  - exists false. split; [apply sv_start|done].
  - destruct (IH Hl) as (begun & H1 & H2). exists begun. split; [done|]. by apply queue_adopt.
  - pose proof (prog_ran _ _ _ Hp) as Hran.
    destruct (IH (ran_loop_runs _ _ _ _ _ Hran Hs Hl)) as (begun & H1 & H2). by eapply step_serves.
Qed.
End Goroutines.

(** ** The program *)

Section Main.
Context {CA : ClassAdLib} {SL : SecurityLib} {SLL : SecurityLaws SL} {RS : Persist.RecordStore}.
Hypothesis mint_total : ∀ sinful bday n cmds, is_Some (MintClaimSession sinful bday n cmds).
Context (h : Host) (cfg : Config) (hostname : option string) (advertised : option string) (lnAddr : string).
Context (openStore : string → option Persist.rstore) (now : Time).

Local Abbreviation start := (StartdMain.boot h cfg hostname advertised lnAddr openStore now).

(** The minter of the program has room for the slots it builds. *)
Lemma boot_room :
  NumCPU h < two63 →
  minter_room h cfg (StartdMain.fullHostname hostname cfg) (StartdMain.bootSinful advertised lnAddr)
    (Slot.DetectResources h cfg) now (Claim.NewMinter (StartdMain.bootSinful advertised lnAddr) (Unix now)).
Proof.
  intros Hcpu. destruct (StartdMain.detected_ok h cfg Hcpu) as [Hok H1]. split; [done|]. cbn [Claim.NewMinter Claim.m_seq].
  assert (Z.of_nat (length (Slot.BuildSlots h cfg (StartdMain.fullHostname hostname cfg)
    (StartdMain.bootSinful advertised lnAddr) (Slot.DetectResources h cfg) now)) ≤ Slot.Cpus (Slot.DetectResources h cfg)) as Hn.
  { unfold Slot.BuildSlots. case_match; [cbn [length]; lia|].
    rewrite <-(length_fmap Slot.Res), BuildStaticSlots_Res. pose proof (numSlots_bounds cfg _ H1).
    unfold Slot.splitResources. rewrite length_fmap, length_seq, (proj2 (Z.ltb_ge _ _)); lia. }
  unfold res_ok in Hok. lia.
Qed.

End Main.
End Program.

(** ** Witness: the program starts with the record of a running job in its store *)

Import RefClassAd RefSecurity Program Shutdown.

Definition spoolConfig : Config :=
  λ k, if bool_decide (k = "SPOOL") then Some "/spool" else demoConfig k.

Definition program0 : Core :=
  StartdMain.boot demoHost spoolConfig (Some "h") None "10.0.0.1:9618" (λ _, Some restartStore) (9 * Second).

Lemma program0_resumable : resumable program0.
Proof. resume program0 (tail [busyKey]) "<10.0.0.1:9618>" 9. Qed.

Lemma program_adopted : ∃ d, prog program0 true d ∧ loopDone d = false ∧ core d = handle demoEnv (EvAdopt 9%nat) program0.
Proof.
  apply prog_readopts; [|apply resumable_ok, program0_resumable|apply resumable_adopts, program0_resumable].
  apply (bool_decide_unpack _). vm_compute. exact I.
Qed.

