(* ===== verification/AliveLoop.v ===== *)
(** * The keepalive loop of a claim (aliveLoop of internal/startd/claim.go)

    One goroutine per claim: at every tick it sends ALIVE to the schedd.  A run is
    the list of what its [select] finds: the context done, or a tick with the result of
    the send and the time it came back. *)

From S2P Require Import Prelude GoLang ClassAd Claim Slot Persist Persister StarterMsg Reconnect Core CoreDemo.

Import Core.

Local Open Scope Z_scope.

Module AliveLoop.
Section AliveLoop.
Context {CA : ClassAdLib} {SL : SecurityLib} {RS : Persist.RecordStore}.

(** [hstartd.AliveScheddForgotClaim]. *)
Context (AliveScheddForgotClaim : Z).

Inductive tick_result :=
| CtxDone
| Sent (reply : option Z) (ctxErr : bool) (now : Time).

Definition leaseExpired : string := "lease expired (ALIVE failures)".
Definition scheddForgot : string := "schedd forgot claim".

(** One iteration: the events submitted, and the deadline for the next one unless the
    goroutine returned. *)
Definition aliveTick (slotName : string) (lease : Duration) (deadline : Time) (r : tick_result)
    : list Event * option Time :=
  match r with
  | CtxDone => ([], None)
  | Sent None ctxErr now =>
      if ctxErr then ([], None)
      else if timeAfter now deadline then ([EvReleaseSlot slotName leaseExpired], None)
      else ([], Some deadline)
  | Sent (Some reply) _ now =>
      if reply =? AliveScheddForgotClaim then ([EvReleaseSlot slotName scheddForgot], None)
      else ([EvAliveOK slotName], Some (timeAdd now lease))
  end.

Fixpoint aliveFrom (slotName : string) (lease : Duration) (deadline : Time) (rs : list tick_result)
    : list Event * option Time :=
  match rs with
  | [] => ([], Some deadline)
  | r :: rs =>
      let '(es, d) := aliveTick slotName lease deadline r in
      match d with
      | Some d => let '(es', d') := aliveFrom slotName lease d rs in (es ++ es', d')
      | None => (es, None)
      end
  end.

(** [start] is the time at which the goroutine starts. *)
Definition aliveLoop (slotName : string) (lease : Duration) (start : Time) (rs : list tick_result)
    : list Event * option Time :=
  aliveFrom slotName lease (timeAdd start lease) rs.

(** ** What it promises *)

(** The last time the schedd confirmed the claim. *)
Fixpoint lastContact (t : Time) (rs : list tick_result) : Time :=
  match rs with
  | [] => t
  | Sent (Some _) _ now :: rs => lastContact now rs
  | _ :: rs => lastContact t rs
  end.

(** How often it did. *)
Definition confirmed (r : tick_result) : bool := match r with Sent (Some _) _ _ => true | _ => false end.
Definition confirmations (rs : list tick_result) : nat := length (List.filter confirmed rs).

Lemma aliveFrom_app n lease d rs rs' :
  aliveFrom n lease d (rs ++ rs') =
  match aliveFrom n lease d rs with
  | (es, Some d') => let '(es', d'') := aliveFrom n lease d' rs' in (es ++ es', d'')
  | (es, None) => (es, None)
  end.
Proof.
  revert d. induction rs as [|r rs IH]; intros d; cbn; [by destruct (aliveFrom n lease d rs')|].
  destruct (aliveTick n lease d r) as [es [d'|]]; [|done]. rewrite IH.
  destruct (aliveFrom n lease d' rs) as [es' [d''|]]; [|done].
  destruct (aliveFrom n lease d'' rs') as [es'' d3]. by rewrite app_assoc.
Qed.

(** While it runs it has reported every confirmation and its deadline is a lease after
    the last one. *)
Lemma aliveFrom_running n lease t rs es d :
  aliveFrom n lease (timeAdd t lease) rs = (es, Some d) →
  es = replicate (confirmations rs) (EvAliveOK n) ∧ d = timeAdd (lastContact t rs) lease.
Proof.
  revert t es. induction rs as [|r rs IH]; intros t es; [by intros [= <- <-]|].
  cbn [aliveFrom]. destruct r as [|[reply|] ctxErr now]; cbn [aliveTick]; [done| |].
  - destruct (reply =? _); [done|].
    destruct (aliveFrom n lease (timeAdd now lease) rs) as [es' d'] eqn:E. intros [= <- ->].
    apply IH in E as [-> ->]. done.
  - destruct ctxErr; [done|]. destruct (timeAfter now _); [done|].
    destruct (aliveFrom n lease (timeAdd t lease) rs) as [es' d'] eqn:E. intros [= <- ->].
    apply IH in E as [-> ->]. done.
Qed.

(** A run that returned stopped at one tick. *)
Lemma aliveFrom_stopped n lease d rs es :
  aliveFrom n lease d rs = (es, None) →
  ∃ pre r post es' d', rs = pre ++ r :: post ∧ aliveFrom n lease d pre = (es', Some d') ∧
    ∃ es'', aliveTick n lease d' r = (es'', None) ∧ es = es' ++ es''.
Proof.
  revert d es. induction rs as [|r rs IH]; intros d es; [done|]. cbn [aliveFrom].
  destruct (aliveTick n lease d r) as [es1 [d1|]] eqn:E.
  - destruct (aliveFrom n lease d1 rs) as [es2 d2] eqn:E2. intros [= <- ->].
    apply IH in E2 as (pre & r' & post & es' & d' & -> & Hpre & es'' & Ht & ->).
    exists (r :: pre), r', post, (es1 ++ es'), d'. split; [done|]. split; [cbn; by rewrite E, Hpre|].
    exists es''. by rewrite app_assoc.
  - intros [= <-]. exists [], r, rs, [], d. split; [done|]. split; [done|]. by exists es1.
Qed.

(** C35: the lease is honoured.  The loop asks for a release only when the schedd says it
    forgot the claim, or when a send fails more than a lease after the schedd last
    confirmed it (or after the start): before that every failure is retried.  It has then
    reported each confirmation, asks once and stops. *)
Theorem alive_release_only_after_lease n lease start rs es d why :
  aliveLoop n lease start rs = (es, d) → EvReleaseSlot n why ∈ es →
  d = None ∧
  ∃ pre r post, rs = pre ++ r :: post ∧
    es = replicate (confirmations pre) (EvAliveOK n) ++ [EvReleaseSlot n why] ∧
    ((why = scheddForgot ∧ ∃ e now, r = Sent (Some AliveScheddForgotClaim) e now) ∨
     (why = leaseExpired ∧ ∃ now, r = Sent None false now ∧ timeAdd (lastContact start pre) lease < now)).
Proof.
  unfold aliveLoop. intros H Hin.
  assert (∀ k, EvReleaseSlot n why ∉ replicate k (EvAliveOK n)) as Hno
    by (intros k Hk; by apply elem_of_replicate in Hk as [? _]).
  destruct d as [d|]; [apply aliveFrom_running in H as [-> _]; by edestruct Hno|]. split; [done|].
  apply aliveFrom_stopped in H as (pre & r & post & es' & d' & -> & Hpre & es'' & Ht & ->).
  apply aliveFrom_running in Hpre as [-> ->]. exists pre, r, post. split; [done|].
  apply elem_of_app in Hin as [Hin|Hin]; [by edestruct Hno|].
  destruct r as [|[reply|] ctxErr now]; cbn in Ht.
  - by simplify_eq; apply elem_of_nil in Hin.
  - destruct (reply =? AliveScheddForgotClaim) eqn:E; [|done]. injection Ht as <-.
    apply list_elem_of_singleton in Hin as [= ->]. split; [done|]. left. split; [done|].
    apply Z.eqb_eq in E as ->. eauto.
  - destruct ctxErr; [by simplify_eq; apply elem_of_nil in Hin|].
    destruct (timeAfter now _) eqn:E; [|done]. injection Ht as <-.
    apply list_elem_of_singleton in Hin as [= ->]. split; [done|]. right. split; [done|].
    exists now. split; [done|]. unfold timeAfter in E. by apply Z.ltb_lt in E.
Qed.

(** An unreachable schedd loses the claim.  The first failed send that comes back more
    than a lease after the last confirmation ends the loop with a request to release the
    slot. *)
Theorem alive_gives_up n lease start pre now post :
  is_Some (aliveLoop n lease start pre).2 → timeAdd (lastContact start pre) lease < now →
  aliveLoop n lease start (pre ++ Sent None false now :: post)
  = (replicate (confirmations pre) (EvAliveOK n) ++ [EvReleaseSlot n leaseExpired], None).
Proof.
  unfold aliveLoop. intros [d Hd] Hlt. rewrite aliveFrom_app.
  destruct (aliveFrom n lease (timeAdd start lease) pre) as [es d0] eqn:E. cbn in Hd. subst d0.
  apply aliveFrom_running in E as [-> ->]. cbn. unfold timeAfter.
  apply Z.ltb_lt in Hlt. by rewrite Hlt.
Qed.

(** ** How many misses a claim survives *)

Section Cadence.
Context (n : string) (lease period : Duration) (start : Time).

(** The ticker fires every [period], and the [i]-th send is back before the next tick. *)
Fixpoint on_time (i : Z) (rs : list tick_result) : Prop :=
  match rs with
  | Sent _ _ now :: rs => start + i * period ≤ now ≤ start + (i + 1) * period ∧ on_time (i + 1) rs
  | _ => True
  end.

(** The schedd never disowns the claim, and no more than [limit] sends in a row fail; [k]
    did just before. *)
Fixpoint misses (limit k : nat) (rs : list tick_result) : Prop :=
  match rs with
  | Sent (Some reply) _ _ :: rs => reply ≠ AliveScheddForgotClaim ∧ misses limit 0 rs
  | Sent None _ _ :: rs => (k < limit)%nat ∧ misses limit (S k) rs
  | _ => True
  end.

Lemma aliveFrom_survives (limit k : nat) (i : Z) deadline rs :
  0 ≤ period → (Z.of_nat limit + 1) * period ≤ lease →
  start + (i - 1 - Z.of_nat k) * period + lease ≤ deadline →
  on_time i rs → misses limit k rs → Forall (λ e, e = EvAliveOK n) (aliveFrom n lease deadline rs).1.
Proof.
  intros Hp Hl. revert k i deadline. induction rs as [|r rs IH]; intros k i deadline Hd Ht Hm; [by apply Forall_nil|].
  destruct r as [|[reply|] ctxErr now]; cbn [aliveFrom aliveTick].
  - by apply Forall_nil.
  - destruct Ht as [[Ht1 Ht2] Ht], Hm as [Hr Hm]. rewrite (proj2 (Z.eqb_neq _ _) Hr).
    specialize (IH 0%nat (i + 1) (timeAdd now lease)). unfold timeAdd in *.
    destruct (aliveFrom n lease (now + lease) rs) as [es d]. constructor; [done|]. apply IH; [|done..]. lia.
  - destruct Ht as [[Ht1 Ht2] Ht], Hm as [Hk Hm]. destruct ctxErr; [by apply Forall_nil|].
    assert (timeAfter now deadline = false) as -> by (unfold timeAfter; apply Z.ltb_ge; nia).
    specialize (IH (S k) (i + 1) deadline). destruct (aliveFrom n lease deadline rs) as [es d].
    apply IH; [|done..]. etransitivity; [|exact Hd]. nia.
Qed.
End Cadence.

End AliveLoop.
End AliveLoop.

(** ** Witnesses *)

Import AliveLoop.

(** Confirmed at 100, then failing; the lease is 50. *)
Definition demoTicks : list tick_result := [Sent (Some 0) false 100; Sent None false 120; Sent None false 160].

Lemma alive_release_only_after_lease_witness :
  (aliveLoop (-1) "slot1@h" 50 60 demoTicks).2 = None ∧
  ∃ pre r post, demoTicks = pre ++ r :: post ∧
    (aliveLoop (-1) "slot1@h" 50 60 demoTicks).1
    = replicate (confirmations pre) (EvAliveOK "slot1@h") ++ [EvReleaseSlot "slot1@h" leaseExpired].
Proof.
  destruct (alive_release_only_after_lease (-1) "slot1@h" 50 60 demoTicks
              [EvAliveOK "slot1@h"; EvReleaseSlot "slot1@h" leaseExpired] None leaseExpired eq_refl)
    as [_ (pre & r & post & H1 & H2 & _)].
  - apply list_elem_of_further, list_elem_of_here.
  - split; [reflexivity|]. exact (ex_intro _ pre (ex_intro _ r (ex_intro _ post (conj H1 H2)))).
Defined.

Lemma alive_gives_up_witness :
  aliveLoop (-1) "slot1@h" 50 60 ([Sent (Some 0) false 100] ++ [Sent None false 160])
  = ([EvAliveOK "slot1@h"; EvReleaseSlot "slot1@h" leaseExpired], None).
Proof. exact (alive_gives_up (-1) "slot1@h" 50 60 [Sent (Some 0) false 100] 160 [] (ex_intro _ _ eq_refl) eq_refl). Defined.

